(* ===== verification/_CoqProject ===== *)
-Q . S2P
Prelude.v
Bits.v
RingBuffer.v
Pool.v
PoolConc.v
PoolAccess.v
BoundedQueue.v
HashSegment.v
HashReaders.v
HashMap.v
HashShards.v
SkipList.v
CountedQueue.v
HelpingQueue.v
LinkedQueues.v
Hazptr.v
Vector.v
FeatureTable.v
TimerTask.v
TimerLoop.v
RouteRcu.v
RouteTable.v
RouteSeqlock.v
RouteRefcnt.v
SwmrList.v
TopSort.v
ThreadPool.v
Window.v
Matrix.v
AsyncPool.v
DetachedTimer.v
LockedMap.v
