(* ===== verification/Prelude.v ===== *)
(** A verification library for the concurrent containers of wizard.

    * The program

    wizard is a collection of C++ containers and the pieces they are made of. Its own code is
    under src/src: a ring buffer and a skip list for one thread (src/src/container), an object
    pool over tagged free lists (src/src/pool.h), a bounded queue over per-slot futex words, a
    vector of shards, a hash map of segments, hazard pointers and a thread pool
    (src/src/concurrent), four lock-free queues and stacks (src/src/queue.h,
    nonlock_free_queue.h, lock_free_queue.h, hazptr_stack.h) and a columnar table
    (src/src/feature_table.cpp). src/hazptr adds an ordered list for one writer and many
    readers, src/main routing tables under userspace RCU, a sequence lock and reference counts, src/small_test a timer, two kinds of
    windows, a topological sort, another thread pool and loops over matrices.

    They interact as follows. The pool keeps its nodes in a vector and can use the concurrent
    vector for its caches; the hash map hashes to a segment, whose nodes are reclaimed through
    hazard pointers; the stack and the ordered list protect their nodes with hazard pointers
    too; the vector retires old tables to a time-tagged list; the thread pool is fed by a
    bounded queue; the windows own ring buffers.

    * The files

    Each file opens with a comment on what it models. All of them use the notations, the
    integer functions, the tactics and the hint database [wz] of this file.
    - Prelude: machine integers as [Z] reduced to their width, the option monad for undefined
      behaviour, [wz_bool], [wz_if], [wz_run], [wz_eval], fresh addresses, sums over lists.
    - Bits: [findLastSet] and [nextPowTwo] of concurrent_bounded_queue.h.
    - RingBuffer: container/ringbuffer.h, and Window: small_test/window.cc, which has a copy of
      the ring buffer and two windows over it. Window uses RingBuffer's lemmas.
    - Pool, PoolConc and PoolAccess: pool.h, first one thread, then any number of threads as the
      same pieces of code interleaved, then the accessors that find a thread's cache in one of
      several pools ([CacheVecOps]/[CacheVecLaws] is what they need of a vector of caches).
    - BoundedQueue: concurrent_bounded_queue.h and futex_interface.h; uses Bits.
    - HashSegment, HashReaders, HashMap and HashShards: concurrent_hashmap_detail.h and
      concurrent_hashmap.h. HashSegment has the writers of a segment and its memory, HashReaders
      the lock-free readers between them; the map is composed of segments, and its refinement
      rests on theirs. HashShards has any number of callers of the map: it is proved against the
      interface [SegmentOps]/[SegmentLaws], which HashSegment's segment implements.
    - SkipList: container/skiplist.h and skiplist-inl.h.
    - CountedQueue: nonlock_free_queue.h. HelpingQueue: lock_free_queue.h and .hpp.
      LinkedQueues: queue.h, queue.hpp and hazptr_stack.h.
    - Hazptr: concurrent/hazptr.h and hazptr.hpp.
    - Vector: concurrent/vector.h and vector.hpp (Modules RetireList and Vector); uses Bits.
    - FeatureTable: feature_table.cpp.
    - TimerTask and TimerLoop: small_test/timer/timer_task.h and .cpp; TimerLoop has the thread in
      [loop], the others around it, and the kernel's descriptors as an interface.
    - RouteRcu: main/route_rcu.c, with the list functions of urcu/include/urcu it calls; RCU is an
      interface ([RcuOps]/[RcuLaws]).
    - RouteTable, RouteSeqlock and RouteRefcnt: main/route_seqlock.c, whose sequence lock is an interface
      ([SeqOps]/[SeqLaws]), and main/route_refcnt.c; RouteTable has the lemmas on singly linked lists
      the two share. Both use the abstract table of RouteRcu.
    - SwmrList: hazptr/swmr_list.h.
    - TopSort: small_test/graph_toplogical_sort.cpp.
    - ThreadPool: concurrent/thread_pool.h; the queue is an interface ([TaskQueue] with
      [QueueLaws] and [QueueProgress]), because the header calls operations the repository's
      queue lacks.
    - AsyncPool: small_test/async.cc, a second thread pool, with a condition variable and a queue
      under a mutex.
    - Matrix: the loops of small_test/matrix_ multiplication.cpp.
    - DetachedTimer: small_test/timer.cc, timers whose threads are detached, and their manager.
    - LockedMap: small_test/map_mutex.cc, a map whose members return pointers into it.

    * How the code is represented

    A class is a [Record] of its fields and a member function is a function on it with the
    member's name, a trailing [_] or a prefix where the name is taken. Memory that is shared or
    outlives a call is a [gmap] from addresses to cells, and pointers are addresses. [None] is
    undefined behaviour: a null or dangling pointer, an index out of bounds, a failed [DCHECK]
    or [assert], a division by zero, the overflow of a signed integer. Unsigned arithmetic
    wraps, written out with [u16], [u32] and [u64].

    Concurrent code is cut at its accesses to shared memory. A thread is a program counter with
    its local variables, a step performs one access, and a run is any sequence of steps of any
    threads; [compare_exchange_weak] may fail spuriously and an allocator may return any address
    not in use. Memory is sequentially consistent: the memory orders of the source are not
    modelled. Fields a proof needs and the code does not have are called histories where they
    are declared; no operation reads them.

    * The theorems

    - What a container stands for: the ring buffer, the windows, the bounded queue, a hash
      segment, the hash map, the skip list, the vector, the feature table and the ordered list
      are shown to behave like a list, a bounded FIFO, a finite map, a sorted list, an infinite
      array, a list of rows and a set, for every sequence of operations, with no undefined
      behaviour on the way ([*_refines_*], [time_window_keeps_recent],
      [set_but_contains_finds_least]).
    - What concurrent runs preserve: in the pool every node is in one place; in the queues a pop
      gets the push with its ticket or the oldest value; hazard pointers protect what they
      claim; readers of the ordered list answer yes only for members; lookups of the routing table
      under RCU answer what the table held at some moment and never meet a freed entry, those under
      a sequence lock answer what it holds but may meet one, and reference counts are exact although
      lookups use entries they have no reference to; a [find] of the hash map that
      runs between writers, rehashes and deletions answers what was true at some moment of the
      call; the calls of the whole map are
      linearizable; the thread pools run each
      task once and a graceful stop runs all of them.
    - Progress: threads of the pool and of the hazard pointers, and readers of the hash map,
      finish alone from every reachable state; in the bounded queue only empty and full block and no wake-up is lost; the sorts
      terminate, and so does a stop of the thread pool; a stopped
      timer loop returns and a sleeping one wakes for every task.
    - Memory: destructors and reclamation free everything once (ring buffer, skip list, retired
      tables, single-producer queues).
    - Where the code is wrong the theorem states what it does: [filter] of the feature table, the
      retry in the vector's growth, [contains] of the ordered list. Lemmas next to them run the
      other defects on concrete inputs: the copy constructor of the ring buffer, lost wake-ups of
      the thread pool, colliding anonymous tasks of the timer, producers that race in
      nonlock_free_queue.h, iterators of the hash map that overrun or read a deleted node.

    * Bounds and fuel

    A loop that is not structural takes fuel, and its theorem shows the fuel the definition gives
    it to be enough: the number of elements for the loops that empty a buffer or a queue, the
    number of nodes for walks along a list, the number of vertices for the topological sorts.
    Theorems about tagged pointers and versions assume fewer operations than the tag can count
    where the tag is what makes the code right (2^32 pushes of one node of the pool; the 16-bit
    versions of the bounded queue need no such bound; 2^31 changes of the table under the sequence
    lock, whose count they increment twice). Capacities are below 2^31 where the
    source keeps indices in an [int].

    * Not modelled

    - stack.h, stack.hpp and nonlock_free_queue.hpp do not compile and nothing includes them.
    - Members that cannot be instantiated, listed with their components.
    - Weak memory, alignment and cache lines, statistics and logging.
    - Third-party code: src/urcu (userspace RCU), concurrentqueue.h (two copies), the folly code
      in src/hazptr (ConcurrentHashMap, hazptr-impl, memory_resource), and main/route_hazptr.c, which
      needs a header that is not in the repository.
    - Drivers, benchmarks and unit tests, and the language exercises of src/small_test and
      src/template. *)
From Stdlib Require Export ZArith Lia.
From stdpp Require Export base tactics numbers option relations gmap list.

#[global] Open Scope Z_scope.

(** * Machine integers *)

(** The C++ unsigned types are [Z] reduced modulo their width; [int] is the
    two's complement 32-bit window. *)
Definition u8 (x : Z) : Z := x mod 2 ^ 8.
Definition u16 (x : Z) : Z := x mod 2 ^ 16.
Definition u32 (x : Z) : Z := x mod 2 ^ 32.
Definition u64 (x : Z) : Z := x mod 2 ^ 64.
Definition i32 (x : Z) : Z := (x + 2 ^ 31) mod 2 ^ 32 - 2 ^ 31.

(** * Notations *)

Declare Scope wizard_scope.
Delimit Scope wizard_scope with wz.

(** Undefined behaviour, a failed [DCHECK]/[assert] or a crash is [None]. *)
Notation "x '<-?' e ; k" := (match e with Some x => k | None => None end)
  (at level 100, e at next level, k at level 200, right associativity,
   only parsing) : wizard_scope.
Notation "'guard' b ; k" := (if b then k else None)
  (at level 100, b at next level, k at level 200, right associativity,
   only parsing) : wizard_scope.

(** * Tactics *)

(** Turn boolean comparisons of the context into propositions. *)
Ltac wz_bool :=
  repeat match goal with
  | H : (_ =? _) = true |- _ => apply Z.eqb_eq in H
  | H : (_ =? _) = false |- _ => apply Z.eqb_neq in H
  | H : (_ <=? _) = true |- _ => apply Z.leb_le in H
  | H : (_ <=? _) = false |- _ => apply Z.leb_gt in H
  | H : (_ <? _) = true |- _ => apply Z.ltb_lt in H
  | H : (_ <? _) = false |- _ => apply Z.ltb_ge in H
  | H : (_ && _)%bool = true |- _ => apply andb_true_iff in H as [? ?]
  | H : (_ || _)%bool = false |- _ => apply orb_false_iff in H as [? ?]
  | H : negb _ = true |- _ => apply negb_true_iff in H
  | H : negb _ = false |- _ => apply negb_false_iff in H
  end.

(** Case analysis on the test of one [if], with the test turned into a
    proposition. *)
Ltac wz_if :=
  match goal with
  | |- context [if ?b then _ else _] => destruct b eqn:?; wz_bool
  | H : context [if ?b then _ else _] |- _ => destruct b eqn:?; wz_bool
  end.

(** Follow a computation in the option monad that returned [Some]. *)
Ltac wz_run :=
  repeat match goal with
  | H : match ?e with Some _ => _ | None => None end = Some _ |- _ =>
      destruct e eqn:?; [|discriminate]
  | H : (if ?b then _ else None) = Some _ |- _ =>
      destruct b eqn:?; [|discriminate]
  end; wz_bool; simplify_eq.

(** Solve [exists x, e = Some x /\ ...] on closed [e] by evaluating it. *)
Ltac wz_eval :=
  repeat match goal with
  | |- exists x, ?e = Some x /\ _ =>
      let v := eval vm_compute in e in
      match v with Some ?y => exists y; split; [vm_cast_no_check (eq_refl v)|] end
  end.

(** * Hint database *)

Create HintDb wz.

(** * Lemmas on machine integers *)

Section ints.
Implicit Types x y k w : Z.

Lemma mod_pow2_range w x : 0 <= w -> 0 <= x mod 2 ^ w < 2 ^ w.
Proof. intros. apply Z.mod_pos_bound. lia. Qed.

Lemma u16_range x : 0 <= u16 x < 2 ^ 16.
Proof. by apply mod_pow2_range. Qed.

Lemma u32_range x : 0 <= u32 x < 2 ^ 32.
Proof. by apply mod_pow2_range. Qed.

Lemma u64_range x : 0 <= u64 x < 2 ^ 64.
Proof. by apply mod_pow2_range. Qed.

Lemma u16_small x : 0 <= x < 2 ^ 16 -> u16 x = x.
Proof. apply Z.mod_small. Qed.

Lemma u32_small x : 0 <= x < 2 ^ 32 -> u32 x = x.
Proof. apply Z.mod_small. Qed.

Lemma u64_small x : 0 <= x < 2 ^ 64 -> u64 x = x.
Proof. apply Z.mod_small. Qed.

Lemma i32_small x : - 2 ^ 31 <= x < 2 ^ 31 -> i32 x = x.
Proof. intros. unfold i32. rewrite Z.mod_small; lia. Qed.

(** [index & (capacity - 1)] with a power-of-two capacity is the remainder. *)
Lemma land_pow2_mask x b : 0 <= b -> Z.land x (2 ^ b - 1) = x mod 2 ^ b.
Proof.
  intros. rewrite <- Z.land_ones by done. by rewrite Z.ones_equiv.
Qed.

(** The two fields of [low | high << k] do not overlap. *)
Lemma land_low_shiftl low high k :
  0 <= k -> 0 <= low < 2 ^ k -> Z.land low (Z.shiftl high k) = 0.
Proof.
  intros Hk Hlow. apply Z.bits_inj'. intros n Hn.
  rewrite Z.land_spec, Z.bits_0. destruct (decide (n < k)).
  - rewrite Z.shiftl_spec_low by done. apply andb_false_r.
  - by rewrite (proj1 (Z.bounded_iff_bits_nonneg' k low Hk (proj1 Hlow)) Hlow) by lia.
Qed.

Lemma lor_shiftl_add low high k :
  0 <= k -> 0 <= low < 2 ^ k -> Z.lor low (Z.shiftl high k) = low + high * 2 ^ k.
Proof.
  intros Hk Hlow. rewrite <-Z.shiftl_mul_pow2 by done.
  rewrite <-Z.add_lor_land, land_low_shiftl by done. lia.
Qed.

(** Reducing modulo a smaller power of two absorbs the larger reduction. *)
Lemma mod_mod_pow2 x a b : 0 <= a <= b -> (x mod 2 ^ b) mod 2 ^ a = x mod 2 ^ a.
Proof.
  intros. apply Z.mod_mod_divide.
  exists (2 ^ (b - a)). rewrite <-Z.pow_add_r by lia. f_equal. lia.
Qed.

(** Dividing after reducing keeps the low digits of the quotient. *)
Lemma mod_pow2_div x a b :
  0 <= a <= b -> (x mod 2 ^ b) / 2 ^ a = (x / 2 ^ a) mod 2 ^ (b - a).
Proof.
  intros. replace (2 ^ b) with (2 ^ a * 2 ^ (b - a))
    by (rewrite <-Z.pow_add_r by lia; f_equal; lia).
  rewrite Z.rem_mul_r by lia.
  rewrite (Z.mul_comm (2 ^ a)), Z.div_add by lia.
  rewrite Z.div_small by (apply Z.mod_pos_bound; lia). lia.
Qed.
End ints.

#[export] Hint Resolve u16_range u32_range u64_range : wz.

(** * Lists *)

Section lists.
Context {A : Type}.
Implicit Types l : list A.

Lemma lookup_lt_is_Some_Z l (i : Z) :
  0 <= i < Z.of_nat (length l) -> is_Some (l !! Z.to_nat i).
Proof. intros. apply lookup_lt_is_Some_2. lia. Qed.

Lemma fmap_seq_lookup_eq {B} (f : nat -> B) n i :
  (i < n)%nat -> (f <$> seq 0 n) !! i = Some (f i).
Proof. intros. rewrite list_lookup_fmap, lookup_seq_lt by done. done. Qed.
End lists.

(** [omap] when one element is replaced: the others' contribution [R] stays. *)
Lemma omap_insert_perm {A B} (f : A -> option B) (l : list A) i x :
  l !! i = Some x -> exists R, omap f l ≡ₚ omap f [x] ++ R /\
    forall y, omap f (<[i := y]> l) ≡ₚ omap f [y] ++ R.
Proof.
  assert (Hz : forall z l', omap f (z :: l') = omap f [z] ++ omap f l')
    by (intros z l'; change (z :: l') with ([z] ++ l'); apply omap_app).
  revert i. induction l as [|z l IH]; intros [|i] Hi; simplify_eq/=.
  - exists (omap f l). split; [|intros y]; by rewrite Hz.
  - destruct (IH i Hi) as (R & H1 & H2). exists (omap f [z] ++ R).
    split; [|intros y]; rewrite Hz; rewrite ?H1, ?H2; apply Permutation_app_swap_app.
Qed.

(** [concat] when one list is replaced: the others' elements [R] stay. *)
Lemma concat_insert {A} (os : list (list A)) t o : os !! t = Some o ->
  exists R, concat os ≡ₚ o ++ R /\ (forall o', concat (<[t := o']> os) ≡ₚ o' ++ R) /\
    forall u o2, u <> t -> os !! u = Some o2 -> o2 ⊆ R.
Proof.
  revert t. induction os as [|a os IH]; intros [|t] Ht; simplify_eq/=.
  - exists (concat os). split_and!; [done|done|]. intros [|u] o2 Hu Ho; [done|]. simpl in Ho.
    apply list_elem_of_lookup_2 in Ho. intros x Hx. apply list_elem_of_In, in_concat. exists o2. by rewrite <-!list_elem_of_In.
  - destruct (IH t Ht) as (R & H1 & H2 & H3). exists (a ++ R). split_and!.
    + rewrite H1. apply Permutation_app_swap_app.
    + intros o'. rewrite H2. apply Permutation_app_swap_app.
    + intros [|u] o2 Hu Ho; simplify_eq/=; [set_solver|]. specialize (H3 u o2 ltac:(congruence) Ho). set_solver.
Qed.

(** * Allocation *)

(** An address no block of the heap [f] has, as [new] and [malloc] return. *)
Definition new_id {A} (f : gmap nat A) : nat := S (max_list (map_to_list f).*1).

Lemma new_id_fresh {A} (f : gmap nat A) : f !! new_id f = None.
Proof.
  destruct (f !! new_id f) as [x|] eqn:E; [|done]. exfalso. unfold new_id in E.
  assert (Hin : S (max_list (map_to_list f).*1) ∈ (map_to_list f).*1).
  { apply list_elem_of_fmap. exists (S (max_list (map_to_list f).*1), x). split; [done|].
    by apply elem_of_map_to_list. }
  apply max_list_elem_of_le in Hin. lia.
Qed.


(** * Sums over lists *)

(** How often the elements of a list do something, as a number: the invariants of
    concurrent components count what the threads hold. *)
Definition total {A : Type} (f : A -> Z) (l : list A) : Z := foldr (fun x z => f x + z) 0 l.

(** 1 if the proposition holds, else 0. *)
Definition ind (P : Prop) `{Decision P} : Z := if decide P then 1 else 0.

Lemma ind_iff (P Q : Prop) `{Decision P, Decision Q} : (P <-> Q) -> ind P = ind Q.
Proof. intros HPQ. unfold ind. repeat case_decide; tauto. Qed.

Lemma ind_range (P : Prop) `{Decision P} : 0 <= ind P <= 1.
Proof. unfold ind. case_decide; lia. Qed.

Lemma ind_true (P : Prop) `{Decision P} : P -> ind P = 1.
Proof. intros. unfold ind. by rewrite decide_True. Qed.

Lemma ind_false (P : Prop) `{Decision P} : ~ P -> ind P = 0.
Proof. intros. unfold ind. by rewrite decide_False. Qed.

Section sums.
Context {A : Type}.
Implicit Types (f g : A -> Z) (l : list A).

Lemma total_cons f x l : total f (x :: l) = f x + total f l.
Proof. done. Qed.

Lemma total_app f l1 l2 : total f (l1 ++ l2) = total f l1 + total f l2.
Proof. induction l1 as [|x l1 IH]; simpl; [done|]. rewrite IH. lia. Qed.

Lemma total_insert f l i x y :
  l !! i = Some x -> total f (<[i := y]> l) = total f l - f x + f y.
Proof.
  revert i. induction l as [|z l IH]; intros [|i] Hi; simplify_eq/=; [lia|].
  rewrite IH by done. lia.
Qed.

Lemma total_nonneg f l : (forall x, x ∈ l -> 0 <= f x) -> 0 <= total f l.
Proof.
  induction l as [|x l IH]; simpl; intros Hf; [done|].
  pose proof (Hf x ltac:(by left)). specialize (IH ltac:(intros; apply Hf; by right)). lia.
Qed.

Lemma total_elem f l x : (forall y, y ∈ l -> 0 <= f y) -> x ∈ l -> f x <= total f l.
Proof.
  intros Hf. induction l as [|y l IH]; simpl; [set_solver|].
  pose proof (Hf y ltac:(by left)).
  pose proof (total_nonneg f l ltac:(intros; apply Hf; by right)).
  intros [->|Hx]%elem_of_cons; [lia|].
  specialize (IH ltac:(intros; apply Hf; by right) Hx). lia.
Qed.

Lemma total_le f g l : (forall x, x ∈ l -> f x <= g x) -> total f l <= total g l.
Proof.
  induction l as [|x l IH]; simpl; intros Hf; [done|].
  pose proof (Hf x ltac:(by left)). specialize (IH ltac:(intros; apply Hf; by right)). lia.
Qed.

Lemma total_two f l i j x y :
  (forall y, y ∈ l -> 0 <= f y) -> i <> j -> l !! i = Some x -> l !! j = Some y ->
  f x + f y <= total f l.
Proof.
  intros Hf Hne. revert i j Hne.
  induction l as [|z l IH]; intros [|i] [|j] Hne Hi Hj; simplify_eq/=.
  - apply list_elem_of_lookup_2 in Hj.
    pose proof (total_elem f l y ltac:(intros; apply Hf; by right) Hj). lia.
  - apply list_elem_of_lookup_2 in Hi.
    pose proof (total_elem f l x ltac:(intros; apply Hf; by right) Hi). lia.
  - pose proof (Hf z ltac:(by left)).
    specialize (IH ltac:(intros; apply Hf; by right) i j ltac:(congruence) Hi Hj). lia.
Qed.

Lemma total_const c l : total (fun _ => c) l = c * Z.of_nat (length l).
Proof. induction l as [|x l IH]; simpl; [lia|]. rewrite IH. lia. Qed.

Lemma total_ext f g l : (forall x, x ∈ l -> f x = g x) -> total f l = total g l.
Proof. intros H. apply Z.le_antisymm; apply total_le; intros x Hx; specialize (H x Hx); lia. Qed.
End sums.

(** * Transition systems *)

(** A component with interleaved operations is an initial predicate and a step
    relation; its properties are invariants of the reachable states. *)
Section transitions.
Context {S : Type} (init : S -> Prop) (step : S -> S -> Prop).

Definition reachable (s : S) : Prop := exists s0, init s0 /\ rtc step s0 s.

Lemma reachable_init s : init s -> reachable s.
Proof. exists s. split; [done|apply rtc_refl]. Qed.

Lemma reachable_step s s' : reachable s -> step s s' -> reachable s'.
Proof. intros (s0 & ? & ?) ?. exists s0. split; [done|]. by eapply rtc_r. Qed.

Lemma reachable_invariant (Inv : S -> Prop) :
  (forall s, init s -> Inv s) ->
  (forall s s', Inv s -> step s s' -> Inv s') ->
  forall s, reachable s -> Inv s.
Proof.
  intros Hinit Hstep s (s0 & H0 & Hrtc). apply Hinit in H0.
  induction Hrtc; eauto.
Qed.

(** Invariants may be established relative to ones already proved. *)
Lemma reachable_invariant_rel (Inv0 Inv : S -> Prop) :
  (forall s, reachable s -> Inv0 s) ->
  (forall s, init s -> Inv s) ->
  (forall s s', Inv0 s -> Inv s -> step s s' -> Inv s') ->
  forall s, reachable s -> Inv s.
Proof.
  intros H0 Hinit Hstep s Hs.
  cut (Inv0 s /\ reachable s /\ Inv s); [tauto|].
  revert s Hs. apply reachable_invariant.
  - intros s Hs. pose proof (reachable_init s Hs). auto.
  - intros s s' (? & Hs & ?) Hst. pose proof (reachable_step s s' Hs Hst).
    split_and!; eauto.
Qed.
End transitions.
