(* ===== verification/Bits.v ===== *)
(** Bit helpers of src/src/concurrent/concurrent_bounded_queue.h:
    [findLastSet] and [nextPowTwo] on [size_t], and the compiler builtins they
    and the containers use.  Shifting by the full width is undefined in C++, so
    [nextPowTwo] is partial. *)
From S2P Require Import Prelude.

(** [__builtin_clzl] on a non-zero 64-bit operand. *)
Definition builtin_clzl (x : Z) : Z := 63 - Z.log2 x.

(** [__builtin_popcount] takes an [unsigned int]: only the low 32 bits of a
    [size_t] argument are counted. *)
Definition builtin_popcount (x : Z) : Z :=
  foldr (fun i acc => Z.b2z (Z.testbit (u32 x) (Z.of_nat i)) + acc) 0 (seq 0 32).

Definition findLastSet (x : Z) : Z :=
  if x =? 0 then 0 else Z.lxor (8 * 8 - 1) (builtin_clzl x) + 1.

Definition nextPowTwo (v : Z) : option Z :=
  if v =? 0 then Some 1
  else let n := findLastSet (u64 (v - 1)) in
       if n <? 64 then Some (u64 (Z.shiftl 1 n)) else None.

(** * Lemmas *)

(** A statement on the numbers below 64 is checked by computation. *)
Lemma below_64 (P : Z -> bool) :
  forallb P (Z.of_nat <$> seq 0 64) = true -> forall n, 0 <= n < 64 -> P n = true.
Proof.
  intros H n Hn. rewrite forallb_forall in H. apply H.
  apply list_elem_of_In, list_elem_of_fmap. exists (Z.to_nat n).
  split; [lia|]. apply elem_of_seq. lia.
Qed.

Lemma lxor_63_sub n : 0 <= n < 64 -> Z.lxor 63 (63 - n) = n.
Proof.
  intros Hn. apply Z.eqb_eq.
  by apply (below_64 (fun n => Z.lxor 63 (63 - n) =? n)).
Qed.

Lemma log2_range x b : 0 < x < 2 ^ b -> 0 <= Z.log2 x < b.
Proof.
  intros [? ?]. split; [apply Z.log2_nonneg|]. by apply Z.log2_lt_pow2.
Qed.

Lemma findLastSet_log2 x : 0 < x < 2 ^ 64 -> findLastSet x = Z.log2 x + 1.
Proof.
  intros Hx. unfold findLastSet. wz_if; [lia|].
  unfold builtin_clzl. change (8 * 8 - 1) with 63.
  rewrite lxor_63_sub; [done|]. by apply log2_range.
Qed.

Lemma findLastSet_0 : findLastSet 0 = 0.
Proof. done. Qed.

Lemma popcount_ones b : 0 <= b <= 32 -> builtin_popcount (2 ^ b - 1) = b.
Proof.
  intros. apply Z.eqb_eq.
  assert (Hb : 0 <= b < 64) by lia.
  pose proof (below_64 (fun n => (32 <? n) || (builtin_popcount (2 ^ n - 1) =? n))
    eq_refl b Hb) as Hp.
  apply orb_true_iff in Hp as [Hp|Hp]; [wz_bool; lia|done].
Qed.

(** Beyond 32 bits the count saturates. *)
Lemma popcount_ones_large b : 32 <= b < 64 -> builtin_popcount (2 ^ b - 1) = 32.
Proof.
  intros. apply Z.eqb_eq.
  assert (Hb : 0 <= b < 64) by lia.
  pose proof (below_64 (fun n => (n <? 32) || (builtin_popcount (2 ^ n - 1) =? 32))
    eq_refl b Hb) as Hp.
  apply orb_true_iff in Hp as [Hp|Hp]; [wz_bool; lia|done].
Qed.

(** The value computed for an argument up to [2^63]: [2^(log2_up v)]. *)
Lemma nextPowTwo_log2_up v :
  1 <= v <= 2 ^ 63 -> nextPowTwo v = Some (2 ^ Z.log2_up v).
Proof.
  intros Hv. unfold nextPowTwo. wz_if; [lia|].
  rewrite u64_small by lia.
  assert (findLastSet (v - 1) = Z.log2_up v /\ 0 <= Z.log2_up v < 64)
    as [-> Hup].
  { destruct (decide (v = 1)) as [->|]; [done|].
    rewrite findLastSet_log2 by lia.
    rewrite Z.log2_up_eqn by lia. replace (Z.pred v) with (v - 1) by lia.
    split; [lia|]. pose proof (log2_range (v - 1) 63). lia. }
  rewrite (proj2 (Z.ltb_lt _ _)) by lia.
  rewrite Z.shiftl_mul_pow2 by lia. rewrite Z.mul_1_l. rewrite u64_small; [done|].
  split; [lia|]. apply Z.pow_lt_mono_r; lia.
Qed.

Lemma nextPowTwo_pow2 v :
  1 <= v <= 2 ^ 63 ->
  exists b, 0 <= b <= 63 /\ nextPowTwo v = Some (2 ^ b) /\ v <= 2 ^ b < 2 * v.
Proof.
  intros Hv. exists (Z.log2_up v). split_and!.
  - apply Z.log2_up_nonneg.
  - transitivity (Z.log2_up (2 ^ 63)); [apply Z.log2_up_le_mono; lia|done].
  - by apply nextPowTwo_log2_up.
  - destruct (decide (v = 1)) as [->|]; [done|]. apply Z.log2_up_spec. lia.
  - destruct (decide (v = 1)) as [->|]; [done|].
    pose proof (Z.log2_up_spec v). pose proof (Z.log2_up_pos v).
    replace (Z.log2_up v) with (Z.pred (Z.log2_up v) + 1) by lia.
    rewrite Z.pow_add_r by lia. lia.
Qed.

Lemma nextPowTwo_overflow v : 2 ^ 63 < v < 2 ^ 64 -> nextPowTwo v = None.
Proof.
  intros Hv. unfold nextPowTwo. wz_if; [lia|]. rewrite u64_small by lia.
  rewrite findLastSet_log2 by lia.
  assert (Z.log2 (v - 1) = 63) as -> by (apply Z.log2_unique; lia). done.
Qed.

(** * Properties *)

(** For every non-zero size up to 2^63, [nextPowTwo] returns the least
    power of two not below its argument; above 2^63 the C++ shift is undefined,
    and the argument 0 gives 1. *)
Theorem nextPowTwo_least v :
  0 <= v < 2 ^ 64 ->
  (v = 0 -> nextPowTwo v = Some 1) /\
  (1 <= v <= 2 ^ 63 -> exists b, 0 <= b <= 63 /\ nextPowTwo v = Some (2 ^ b) /\
     v <= 2 ^ b /\ forall c, 0 <= c -> v <= 2 ^ c -> b <= c) /\
  (2 ^ 63 < v -> nextPowTwo v = None).
Proof.
  intros Hv. split_and!.
  - by intros ->.
  - intros Hv1. destruct (nextPowTwo_pow2 v Hv1) as (b & ? & ? & ? & ?).
    exists b. split_and!; [lia..|done|done|]. intros c Hc Hle.
    destruct (decide (b <= c)); [done|exfalso].
    assert (2 ^ (c + 1) <= 2 ^ b) by (apply Z.pow_le_mono_r; lia).
    rewrite Z.pow_add_r in * by lia. lia.
  - intros. apply nextPowTwo_overflow. lia.
Qed.

Lemma nextPowTwo_least_witness :
  exists b, 0 <= b <= 63 /\ nextPowTwo 53 = Some (2 ^ b) /\
     53 <= 2 ^ b /\ forall c, 0 <= c -> 53 <= 2 ^ c -> b <= c.
Proof. apply (nextPowTwo_least 53); lia. Defined.
