(* ===== verification/RingBuffer.v ===== *)
(** The ring buffer of src/src/container/ringbuffer.h.

    [RingBuffer] is the object's state: the raw storage (a slot is [None] while
    no object lives in it), the [int] indices and the [size_t] counters.  The
    operations return [None] where the C++ has undefined behaviour: remainder by
    a zero capacity, overflow of [int], a failed [DCHECK], access out of the
    storage or to a slot that holds no object.  [repr] relates a state to the
    bounded queue (a list, oldest element first) it stands for; every operation
    is proved to refine the operation of module [Spec] on that list. *)
From S2P Require Import Prelude.

(** * The bounded queue *)

Module Spec.
Section spec.
Context {T : Type}.

Definition emplace_back (overwrite : bool) (cap : nat) (x : T) (l : list T) : list T :=
  if decide (length l = cap) then
    if overwrite then tail l ++ [x] else l
  else l ++ [x].

Definition pop_front (l : list T) : list T := tail l.

(** The last [n] elements. *)
Definition last_n (n : nat) (l : list T) : list T := drop (length l - n) l.
End spec.
End Spec.

(** * State and operations *)

Record RingBuffer (T : Type) := mkRingBuffer {
  elements_ : list (option T);
  tail_ : Z;
  head_ : Z;
  size_ : Z;
  capacity_ : Z
}.
Arguments mkRingBuffer {T}.
Arguments elements_ {T}.
Arguments tail_ {T}.
Arguments head_ {T}.
Arguments size_ {T}.
Arguments capacity_ {T}.

(** A [RingBufferIterator]; [source_] is the buffer the operations are given. *)
Record Iterator := mkIterator { index_ : Z; plus_count_ : Z }.

Section ops.
Context {T : Type}.
(** [std::is_trivially_destructible<T>], the template parameter [Overwrite], and
    the value of [T()]. *)
Context (trivial Overwrite : bool) (dflt : T).
Implicit Types rb : RingBuffer T.
Open Scope wizard_scope.

Definition ctor (capacity : Z) : RingBuffer T :=
  mkRingBuffer (replicate (Z.to_nat capacity) None) (-1) 0 0 capacity.

(** [(i + 1) % capacity_]: the sum is an [int], the remainder a [size_t] stored
    back into an [int]. *)
Definition next_index (rb : RingBuffer T) (i : Z) : option Z :=
  guard (negb (i =? 2 ^ 31 - 1));
  guard (negb (capacity_ rb =? 0));
  Some (i32 (u64 (i + 1) mod capacity_ rb)).

Definition read_slot (els : list (option T)) (i : Z) : option T :=
  guard (0 <=? i);
  s <-? els !! Z.to_nat i; s.

Definition write_slot (els : list (option T)) (i : Z) (s : option T) :
    option (list (option T)) :=
  guard ((0 <=? i) && (i <? Z.of_nat (length els)));
  Some (<[Z.to_nat i := s]> els).

Definition empty rb : bool := size_ rb =? 0.
Definition full rb : bool := size_ rb =? capacity_ rb.
Definition size rb : Z := size_ rb.
Definition capacity rb : Z := capacity_ rb.

Definition _destroy rb (index : Z) : option (RingBuffer T) :=
  if trivial then Some rb
  else
    _ <-? read_slot (elements_ rb) index;
    els <-? write_slot (elements_ rb) index None;
    Some (mkRingBuffer els (tail_ rb) (head_ rb) (size_ rb) (capacity_ rb)).

Definition pop_front rb : option (RingBuffer T) :=
  if empty rb then Some rb
  else
    rb1 <-? _destroy rb (head_ rb);
    h <-? next_index rb1 (head_ rb1);
    Some (mkRingBuffer (elements_ rb1) (tail_ rb1) h (u64 (size_ rb1 - 1)) (capacity_ rb1)).

Definition _emplace_back_impl (x : T) rb : option (RingBuffer T) :=
  t <-? next_index rb (tail_ rb);
  els <-? write_slot (elements_ rb) t (Some x);
  Some (mkRingBuffer els t (head_ rb) (u64 (size_ rb + 1)) (capacity_ rb)).

Definition _emplace_back (x : T) rb : option (RingBuffer T) :=
  if full rb then
    if Overwrite then rb1 <-? pop_front rb; _emplace_back_impl x rb1
    else Some rb
  else _emplace_back_impl x rb.

Definition emplace_back (x : T) rb : option (RingBuffer T) := _emplace_back x rb.

Definition back rb : option T :=
  guard (0 <? size_ rb); read_slot (elements_ rb) (tail_ rb).

Definition front rb : option T :=
  guard (0 <? size_ rb); read_slot (elements_ rb) (head_ rb).

Definition subscript rb (index : Z) : option T := read_slot (elements_ rb) index.

Definition at_ rb (index : Z) : option T :=
  guard (index <? size_ rb);
  guard (negb (capacity_ rb =? 0));
  read_slot (elements_ rb) (u64 (index + u64 (head_ rb)) mod capacity_ rb).

(** [_destroy_all(false_type)] loops while the buffer is not empty; the fuel is
    the number of its elements. *)
Fixpoint _destroy_all_loop (fuel : nat) rb : option (RingBuffer T) :=
  if empty rb then Some rb
  else match fuel with
  | O => None
  | S fuel =>
      rb1 <-? _destroy rb (head_ rb);
      h <-? next_index rb1 (head_ rb1);
      _destroy_all_loop fuel
        (mkRingBuffer (elements_ rb1) (tail_ rb1) h (u64 (size_ rb1 - 1)) (capacity_ rb1))
  end.

Definition _destroy_all rb : option (RingBuffer T) :=
  if trivial then Some (mkRingBuffer (elements_ rb) (-1) 0 0 (capacity_ rb))
  else _destroy_all_loop (Z.to_nat (size_ rb)) rb.

Definition clear rb : option (RingBuffer T) := _destroy_all rb.

(** [construct_all]: the default constructor on every slot, nothing for a
    trivially destructible type. *)
Definition construct_all rb : RingBuffer T :=
  if trivial then rb
  else mkRingBuffer ((fun _ => Some dflt) <$> elements_ rb)
         (tail_ rb) (head_ rb) (size_ rb) (capacity_ rb).

(** [std::copy(rhs.elements_, rhs.elements_ + n, elements_)]: bytes for a trivial
    type, copy assignments of live objects otherwise. *)
Fixpoint copy_slots (n : nat) (from to : list (option T)) : option (list (option T)) :=
  match n, from, to with
  | O, _, _ => Some to
  | S n, s :: from, _ :: to =>
      guard (trivial || bool_decide (is_Some s));
      to' <-? copy_slots n from to; Some (s :: to')
  | _, _, _ => None
  end.

Definition copy_ctor (rhs : RingBuffer T) : option (RingBuffer T) :=
  let rb := construct_all
    (mkRingBuffer (replicate (Z.to_nat (capacity_ rhs)) None)
       (tail_ rhs) (head_ rhs) (size_ rhs) (capacity_ rhs)) in
  els <-? copy_slots (Z.to_nat (size_ rhs)) (elements_ rhs) (elements_ rb);
  Some (mkRingBuffer els (tail_ rb) (head_ rb) (size_ rb) (capacity_ rb)).

Definition swap (a b : RingBuffer T) : RingBuffer T * RingBuffer T := (b, a).

(** [operator=]: the new value of the target, and the temporary that leaves the
    scope (its destructor runs [clear]). *)
Definition assign (this rhs : RingBuffer T) : option (RingBuffer T) :=
  tmp <-? copy_ctor rhs;
  let (this', tmp') := swap this tmp in
  _ <-? clear tmp';
  Some this'.

Definition begin_ rb : Iterator := mkIterator (head_ rb) 0.
Definition end_ rb : Iterator := mkIterator (tail_ rb) (size_ rb).
Definition rbegin rb : Iterator := mkIterator (tail_ rb) 0.
Definition rend rb : Iterator := mkIterator (head_ rb) (size_ rb).

Definition iter_eq (a b : Iterator) : bool := plus_count_ a =? plus_count_ b.

(** [operator++]; [R] is the reverse flag of the iterator's type. *)
Definition iter_incr (R : bool) rb (it : Iterator) : option Iterator :=
  let c := capacity rb in
  guard (negb (c =? 0));
  if R then
    Some (mkIterator (i32 (u64 (u64 (u64 (index_ it) + c) - 1) mod c))
                     (u64 (plus_count_ it + 1)))
  else
    i <-? next_index rb (index_ it);
    Some (mkIterator i (u64 (plus_count_ it + 1))).

Definition iter_deref rb (it : Iterator) : option T := subscript rb (index_ it).

(** [for (it = first; it != last; ++it) use( *it )]: the elements used. *)
Fixpoint traverse (fuel : nat) (R : bool) rb (it last : Iterator) : option (list T) :=
  if iter_eq it last then Some []
  else match fuel with
  | O => None
  | S fuel =>
      x <-? iter_deref rb it;
      it' <-? iter_incr R rb it;
      xs <-? traverse fuel R rb it' last;
      Some (x :: xs)
  end.

Definition forward rb : option (list T) :=
  traverse (Z.to_nat (size_ rb)) false rb (begin_ rb) (end_ rb).
Definition backward rb : option (list T) :=
  traverse (Z.to_nat (size_ rb)) true rb (rbegin rb) (rend rb).

(** A client that appends the elements of a list. *)
Fixpoint emplace_all (xs : list T) rb : option (RingBuffer T) :=
  match xs with
  | [] => Some rb
  | x :: xs => rb1 <-? emplace_back x rb; emplace_all xs rb1
  end.

(** A sequence of mutating operations, run on the buffer and on the queue. *)
Inductive op := OpEmplace (x : T) | OpPop | OpClear.

Definition run_op (o : op) rb : option (RingBuffer T) :=
  match o with
  | OpEmplace x => emplace_back x rb
  | OpPop => pop_front rb
  | OpClear => clear rb
  end.

Fixpoint run (ops : list op) rb : option (RingBuffer T) :=
  match ops with
  | [] => Some rb
  | o :: ops => rb1 <-? run_op o rb; run ops rb1
  end.

Definition spec_op (cap : nat) (o : op) (l : list T) : list T :=
  match o with
  | OpEmplace x => Spec.emplace_back Overwrite cap x l
  | OpPop => Spec.pop_front l
  | OpClear => []
  end.

Definition spec_run (cap : nat) (ops : list op) (l : list T) : list T :=
  foldl (fun l o => spec_op cap o l) l ops.

(** * The representation relation *)

(** The storage index of the [i]-th oldest element. *)
Definition slot_of (cap head : Z) (i : nat) : nat := Z.to_nat ((head + Z.of_nat i) mod cap).

Record repr rb (l : list T) : Prop := {
  repr_cap : 0 < capacity_ rb < 2 ^ 31;
  repr_storage : Z.of_nat (length (elements_ rb)) = capacity_ rb;
  repr_size : size_ rb = Z.of_nat (length l);
  repr_bound : size_ rb <= capacity_ rb;
  repr_head : 0 <= head_ rb < capacity_ rb;
  repr_tail : -1 <= tail_ rb < capacity_ rb;
  repr_tail_head : (tail_ rb + 1) mod capacity_ rb = (head_ rb + size_ rb) mod capacity_ rb;
  repr_tail_neg : tail_ rb = -1 -> l = [];
  repr_slots : forall i x, l !! i = Some x ->
    elements_ rb !! slot_of (capacity_ rb) (head_ rb) i = Some (Some x);
  (* no object lives outside the queue: none leaks *)
  repr_live : trivial = false -> forall j x, elements_ rb !! j = Some (Some x) ->
    exists i, (i < length l)%nat /\ j = slot_of (capacity_ rb) (head_ rb) i
}.
End ops.

(** * Lemmas *)

Section slot_lemmas.
Context (cap head : Z).
Context (Hcap : 0 < cap) (Hhead : 0 <= head < cap).

Lemma slot_of_lt i : (slot_of cap head i < Z.to_nat cap)%nat.
Proof.
  unfold slot_of. pose proof (Z.mod_pos_bound (head + Z.of_nat i) cap Hcap). lia.
Qed.

Lemma slot_of_inj i j :
  Z.of_nat i < cap -> Z.of_nat j < cap ->
  slot_of cap head i = slot_of cap head j -> i = j.
Proof.
  unfold slot_of. intros.
  assert (Hm : (head + Z.of_nat i) mod cap = (head + Z.of_nat j) mod cap).
  { pose proof (Z.mod_pos_bound (head + Z.of_nat i) cap Hcap).
    pose proof (Z.mod_pos_bound (head + Z.of_nat j) cap Hcap). lia. }
  apply Z.cong_iff_0 in Hm.
  replace (head + Z.of_nat i - (head + Z.of_nat j)) with (Z.of_nat i - Z.of_nat j) in Hm by lia.
  apply Z.mod_divide in Hm as [k Hk]; [|lia]. assert (k = 0) by nia. lia.
Qed.

Lemma slot_of_succ i : slot_of cap ((head + 1) mod cap) i = slot_of cap head (S i).
Proof.
  unfold slot_of. f_equal. rewrite Zplus_mod_idemp_l. f_equal. lia.
Qed.

Lemma slot_of_Z (i : nat) (z : Z) :
  z mod cap = (head + Z.of_nat i) mod cap -> Z.to_nat (z mod cap) = slot_of cap head i.
Proof. unfold slot_of. by intros ->. Qed.
End slot_lemmas.

Section proofs.
Context {T : Type} (trivial Overwrite : bool) (dflt : T).
Implicit Types (rb : RingBuffer T) (l : list T).
#[local] Abbreviation repr := (repr trivial).

Lemma next_index_spec rb i :
  0 < capacity_ rb < 2 ^ 31 -> -1 <= i < capacity_ rb ->
  next_index rb i = Some ((i + 1) mod capacity_ rb).
Proof.
  intros Hc Hi. unfold next_index.
  rewrite (proj2 (Z.eqb_neq i _)) by lia.
  rewrite (proj2 (Z.eqb_neq (capacity_ rb) 0)) by lia. simpl.
  rewrite u64_small by lia. pose proof (Z.mod_pos_bound (i + 1) (capacity_ rb)).
  by rewrite i32_small by lia.
Qed.

Lemma read_slot_nat (els : list (option T)) (i : nat) (z : Z) :
  0 <= z -> Z.to_nat z = i -> read_slot els z = mjoin (els !! i).
Proof.
  intros Hz <-. unfold read_slot. rewrite (proj2 (Z.leb_le _ _)) by done.
  by destruct (els !! Z.to_nat z) as [[]|].
Qed.

Lemma write_slot_spec (els : list (option T)) (z : Z) s :
  0 <= z < Z.of_nat (length els) -> write_slot els z s = Some (<[Z.to_nat z := s]> els).
Proof.
  intros ?. unfold write_slot.
  by rewrite (proj2 (Z.leb_le _ _)), (proj2 (Z.ltb_lt _ _)) by lia.
Qed.

Lemma mod_range rb z : 0 < capacity_ rb < 2 ^ 31 -> 0 <= z mod capacity_ rb < capacity_ rb.
Proof. intros. apply Z.mod_pos_bound. lia. Qed.

(** The constructor stands for the empty queue. *)
Lemma ctor_repr cap : 0 < cap < 2 ^ 31 -> repr (ctor cap) ([] : list T).
Proof.
  intros. constructor; simpl; try lia.
  - rewrite length_replicate. lia.
  - done.
  - done.
  - done.
  - intros _ j x [? _]%lookup_replicate. done.
Qed.

(** Destroying the oldest element and advancing [head_]. *)
Lemma drop_head_repr rb x l :
  repr rb (x :: l) ->
  exists rb1, _destroy trivial rb (head_ rb) = Some rb1 /\
    tail_ rb1 = tail_ rb /\ head_ rb1 = head_ rb /\ size_ rb1 = size_ rb /\
    capacity_ rb1 = capacity_ rb /\
    next_index rb1 (head_ rb1) = Some ((head_ rb + 1) mod capacity_ rb) /\
    repr (mkRingBuffer (elements_ rb1) (tail_ rb) ((head_ rb + 1) mod capacity_ rb)
           (u64 (size_ rb - 1)) (capacity_ rb)) l.
Proof.
  intros H. destruct H as [Hcap Hlen Hsz Hb Hh Ht Hth Htn Hsl Hlive]. simpl in *.
  assert (Hslot0 : Z.to_nat (head_ rb) = slot_of (capacity_ rb) (head_ rb) 0).
  { unfold slot_of. rewrite Z.add_0_r, Z.mod_small by lia. done. }
  pose proof (Hsl 0%nat x eq_refl) as Hx0.
  assert (exists els, _destroy trivial rb (head_ rb)
      = Some (mkRingBuffer els (tail_ rb) (head_ rb) (size_ rb) (capacity_ rb)) /\
      length els = length (elements_ rb) /\
      (forall j, j <> slot_of (capacity_ rb) (head_ rb) 0 -> els !! j = elements_ rb !! j) /\
      (trivial = false -> els !! slot_of (capacity_ rb) (head_ rb) 0 = Some None))
    as (els & Hd & Hels & Hne & Heq).
  { unfold _destroy. destruct trivial.
    - exists (elements_ rb). by destruct rb.
    - rewrite (read_slot_nat _ _ _ (proj1 Hh) Hslot0), Hx0. simpl.
      rewrite write_slot_spec by lia. eexists. split_and!; [done|by rewrite length_insert| |].
      + intros j Hj. rewrite list_lookup_insert_ne; congruence.
      + intros _. rewrite Hslot0, list_lookup_insert_eq; [done|].
        apply lookup_lt_is_Some. eauto. }
  rewrite Hd. eexists. split; [reflexivity|]. simpl. split_and!; [done..| |].
  { rewrite next_index_spec; simpl; [done|lia..]. }
  simpl. pose proof (mod_range rb (head_ rb + 1) Hcap).
  assert (u64 (size_ rb - 1) = Z.of_nat (length l)) as Hsz1 by (rewrite u64_small; lia).
  constructor; simpl; try lia.
  - rewrite Zplus_mod_idemp_l, Hth, Hsz1. f_equal. lia.
  - intros Hneg. by specialize (Htn Hneg).
  - intros i y Hi. rewrite slot_of_succ by lia.
    rewrite Hne; [by apply (Hsl (S i))|]. intros Heqs.
    apply lookup_lt_Some in Hi. apply slot_of_inj in Heqs; lia.
  - intros Htr j y Hj. destruct (decide (j = slot_of (capacity_ rb) (head_ rb) 0)) as [->|Hjne].
    { rewrite Heq in Hj; done. }
    rewrite Hne in Hj by done. destruct (Hlive Htr j y Hj) as (i & Hi & ->).
    destruct i as [|i]; [done|]. exists i. split; [lia|].
    by rewrite slot_of_succ by lia.
Qed.

Lemma repr_empty rb l : repr rb l -> empty rb = bool_decide (l = []).
Proof.
  intros H. unfold empty. rewrite (repr_size _ _ _ H).
  by destruct l.
Qed.

Lemma repr_full rb l :
  repr rb l -> full rb = bool_decide (length l = Z.to_nat (capacity_ rb)).
Proof.
  intros H. unfold full. rewrite (repr_size _ _ _ H). pose proof (repr_cap _ _ _ H).
  destruct (Z.eqb_spec (Z.of_nat (length l)) (capacity_ rb)); symmetry;
    [apply bool_decide_true|apply bool_decide_false]; lia.
Qed.

Lemma pop_front_repr rb l :
  repr rb l -> exists rb', pop_front trivial rb = Some rb' /\
    capacity_ rb' = capacity_ rb /\ repr rb' (Spec.pop_front l).
Proof.
  intros H. unfold pop_front. rewrite (repr_empty _ _ H).
  destruct l as [|x l]; [by exists rb|]. rewrite bool_decide_false by done.
  destruct (drop_head_repr _ _ _ H) as (rb1 & -> & Ht & Hh & Hs & Hc & Hn & Hr).
  rewrite Hn, Ht, Hs, Hc. eexists. done.
Qed.

Lemma emplace_back_impl_repr x rb l :
  repr rb l -> size_ rb < capacity_ rb ->
  exists rb', _emplace_back_impl x rb = Some rb' /\
    capacity_ rb' = capacity_ rb /\ repr rb' (l ++ [x]).
Proof.
  intros [Hcap Hlen Hsz Hb Hh Ht Hth Htn Hsl Hlive] Hroom. unfold _emplace_back_impl.
  rewrite next_index_spec by lia. pose proof (mod_range rb (tail_ rb + 1) Hcap).
  rewrite write_slot_spec by lia. eexists. split_and!; [done..|].
  assert (Hnew : Z.to_nat ((tail_ rb + 1) mod capacity_ rb)
                 = slot_of (capacity_ rb) (head_ rb) (length l)).
  { apply slot_of_Z. by rewrite Hth, Hsz. }
  assert (u64 (size_ rb + 1) = size_ rb + 1) as Hsz1 by (rewrite u64_small; lia).
  pose proof (slot_of_lt (capacity_ rb) (head_ rb) ltac:(lia) (length l)) as Hlt.
  constructor; simpl; rewrite ?length_insert, ?length_app; simpl; try lia.
  - rewrite Hsz1, Zplus_mod_idemp_l. replace (head_ rb + (size_ rb + 1))
      with (head_ rb + size_ rb + 1) by lia.
    by rewrite <-Zplus_mod_idemp_l, Hth, Zplus_mod_idemp_l.
  - rewrite Hnew. intros i y [Hi|[Hi [??]%list_lookup_singleton_Some]]%lookup_app_Some.
    + rewrite list_lookup_insert_ne; [by apply Hsl|]. intros Heq.
      apply lookup_lt_Some in Hi. apply slot_of_inj in Heq; lia.
    + assert (i = length l) as -> by lia. subst y. apply list_lookup_insert_eq. lia.
  - rewrite Hnew. intros Htr j y Hj.
    destruct (decide (j = slot_of (capacity_ rb) (head_ rb) (length l))) as [->|].
    { exists (length l). split; [lia|done]. }
    rewrite list_lookup_insert_ne in Hj by done.
    destruct (Hlive Htr j y Hj) as (i & ? & ->). exists i. split; [lia|done].
Qed.

Lemma emplace_back_repr x rb l :
  repr rb l ->
  exists rb', emplace_back trivial Overwrite x rb = Some rb' /\
    capacity_ rb' = capacity_ rb /\
    repr rb' (Spec.emplace_back Overwrite (Z.to_nat (capacity_ rb)) x l).
Proof.
  intros H. unfold emplace_back, _emplace_back, Spec.emplace_back.
  rewrite (repr_full _ _ H). pose proof (repr_cap _ _ _ H). pose proof (repr_bound _ _ _ H).
  pose proof (repr_size _ _ _ H) as Hs. case_decide as Hf.
  - rewrite bool_decide_true by done. destruct Overwrite; [|by exists rb].
    destruct (pop_front_repr _ _ H) as (rb1 & -> & Hc & Hr). rewrite <-Hc.
    apply emplace_back_impl_repr; [done|].
    rewrite Hc, (repr_size _ _ _ Hr). destruct l; simpl in *; lia.
  - rewrite bool_decide_false by done. apply emplace_back_impl_repr; [done|lia].
Qed.

Lemma destroy_all_loop_repr fuel rb l :
  repr rb l -> (length l <= fuel)%nat ->
  exists rb', _destroy_all_loop trivial fuel rb = Some rb' /\
    capacity_ rb' = capacity_ rb /\ repr rb' [].
Proof.
  revert rb l. induction fuel as [|fuel IH]; intros rb l H Hl; simpl;
    rewrite (repr_empty _ _ H).
  - destruct l; [|simpl in *; lia]. by exists rb.
  - destruct l as [|x l]; [by exists rb|]. rewrite bool_decide_false by done.
    destruct (drop_head_repr _ _ _ H) as (rb1 & -> & Ht & Hh & Hs & Hc & Hn & Hr).
    rewrite Hn, Ht, Hs, Hc. destruct (IH _ l Hr) as (rb' & -> & Hc' & Hr').
    { simpl in *; lia. }
    by exists rb'.
Qed.

Lemma clear_repr rb l :
  repr rb l -> exists rb', clear trivial rb = Some rb' /\
    capacity_ rb' = capacity_ rb /\ repr rb' [].
Proof.
  intros H. unfold clear, _destroy_all. destruct trivial eqn:Htr.
  - eexists. split_and!; [done..|]. destruct H. constructor; simpl; try lia.
    all: done.
  - rewrite <-Htr in *. apply (destroy_all_loop_repr _ _ l); [done|].
    rewrite (repr_size _ _ _ H). lia.
Qed.

(** Reading the [i]-th element through its storage index. *)
Lemma repr_read rb l i z x :
  repr rb l -> l !! i = Some x -> 0 <= z < capacity_ rb ->
  z mod capacity_ rb = (head_ rb + Z.of_nat i) mod capacity_ rb ->
  read_slot (elements_ rb) z = Some x.
Proof.
  intros H Hi Hz Hm.
  rewrite (read_slot_nat _ (slot_of (capacity_ rb) (head_ rb) i)); [|lia|].
  - by rewrite (repr_slots _ _ _ H _ _ Hi).
  - rewrite <-(slot_of_Z _ _ i z Hm). by rewrite Z.mod_small.
Qed.

Lemma back_index rb l :
  repr rb l -> l <> [] ->
  0 <= tail_ rb < capacity_ rb /\
  tail_ rb mod capacity_ rb = (head_ rb + Z.of_nat (length l - 1)) mod capacity_ rb.
Proof.
  intros [Hcap Hlen Hsz Hb Hh Ht Hth Htn Hsl Hlive] Hne.
  assert (0 < length l)%nat by (destruct l; simpl; [done|lia]).
  assert (tail_ rb mod capacity_ rb = (head_ rb + Z.of_nat (length l - 1)) mod capacity_ rb) as Hm.
  { replace (tail_ rb) with (tail_ rb + 1 - 1) by lia.
    rewrite <-Zminus_mod_idemp_l, Hth, Zminus_mod_idemp_l. f_equal. lia. }
  split; [|done]. split; [|lia].
  destruct (decide (tail_ rb = -1)); [|lia]. by destruct Hne; auto.
Qed.

Lemma front_repr rb l : repr rb l -> front rb = head l.
Proof.
  intros H. pose proof (repr_head _ _ _ H). unfold front. rewrite (repr_size _ _ _ H).
  destruct l as [|x l]; [done|]. rewrite (proj2 (Z.ltb_lt _ _)) by (simpl; lia).
  apply (repr_read _ _ 0 _ _ H); [done|lia|]. f_equal. lia.
Qed.

Lemma back_repr rb l : repr rb l -> back rb = last l.
Proof.
  intros H. unfold back. rewrite (repr_size _ _ _ H).
  destruct (decide (l = [])) as [->|Hne]; [done|].
  assert (0 < length l)%nat by (destruct l; simpl; [done|lia]).
  rewrite (proj2 (Z.ltb_lt _ _)) by lia.
  destruct (back_index _ _ H Hne) as [? ?].
  destruct (lookup_lt_is_Some_2 l (length l - 1)) as [x Hx]; [lia|].
  rewrite last_lookup. replace (pred (length l)) with (length l - 1)%nat by lia.
  rewrite Hx. by apply (repr_read _ _ _ _ _ H Hx).
Qed.

Lemma at_repr rb l i :
  repr rb l -> at_ rb (Z.of_nat i) = l !! i.
Proof.
  intros H. unfold at_. rewrite (repr_size _ _ _ H).
  destruct H as [Hcap Hlen Hsz Hb Hh Ht Hth Htn Hsl Hlive] eqn:HH. clear HH.
  wz_if; [|by rewrite lookup_ge_None_2 by lia].
  rewrite (proj2 (Z.eqb_neq (capacity_ rb) 0)) by lia. simpl.
  rewrite !u64_small by (rewrite ?u64_small; lia).
  destruct (lookup_lt_is_Some_2 l i) as [x Hx]; [lia|]. rewrite Hx.
  apply (repr_read _ _ _ _ _ H Hx); [by apply mod_range|].
  rewrite Z.mod_mod by lia. f_equal. lia.
Qed.

(** A walk over storage positions [pos 0, pos 1, ...] that hold the elements of
    [xs] collects them. *)
Lemma traverse_spec R rb (pos : nat -> Z) (xs : list T) (last : Iterator) :
  Z.of_nat (length xs) < 2 ^ 31 -> plus_count_ last = Z.of_nat (length xs) ->
  (forall i x, xs !! i = Some x ->
     read_slot (elements_ rb) (pos i) = Some x /\
     iter_incr R rb (mkIterator (pos i) (Z.of_nat i))
       = Some (mkIterator (pos (S i)) (Z.of_nat (S i)))) ->
  forall fuel i, (i <= length xs <= fuel + i)%nat ->
    traverse fuel R rb (mkIterator (pos i) (Z.of_nat i)) last = Some (drop i xs).
Proof.
  intros Hsmall Hlast Hstep fuel. induction fuel as [|fuel IH]; intros i Hi; simpl;
    unfold iter_eq; simpl; rewrite Hlast.
  - rewrite (proj2 (Z.eqb_eq _ _)) by lia. by rewrite drop_ge by lia.
  - destruct (Z.eqb_spec (Z.of_nat i) (Z.of_nat (length xs))).
    { by rewrite drop_ge by lia. }
    destruct (lookup_lt_is_Some_2 xs i) as [x Hx]; [lia|].
    destruct (Hstep i x Hx) as [Hread Hincr].
    unfold iter_deref, subscript; simpl. rewrite Hread, Hincr, IH by lia.
    by rewrite (drop_S _ _ _ Hx).
Qed.

Lemma forward_repr rb l : repr rb l -> forward rb = Some l.
Proof.
  intros H. pose proof H as [Hcap Hlen Hsz Hb Hh Ht Hth Htn Hsl Hlive].
  unfold forward, begin_, end_.
  assert (head_ rb = (head_ rb + Z.of_nat 0) mod capacity_ rb) as Hpos0
    by (rewrite Z.add_0_r, Z.mod_small; lia).
  rewrite Hpos0 at 1. rewrite <-(drop_0 l) at 1.
  apply (traverse_spec false rb (fun i => (head_ rb + Z.of_nat i) mod capacity_ rb));
    simpl; [lia|lia| |lia].
  intros i x Hx. split.
  - apply (repr_read _ _ _ _ _ H Hx); [by apply mod_range|]. by rewrite Z.mod_mod by lia.
  - unfold iter_incr, capacity. rewrite (proj2 (Z.eqb_neq _ _)) by lia. cbn [negb index_].
    pose proof (mod_range rb (head_ rb + Z.of_nat i) Hcap).
    rewrite next_index_spec by lia. cbn [plus_count_].
    apply lookup_lt_Some in Hx. rewrite u64_small by lia. do 2 f_equal; [|lia].
    rewrite Zplus_mod_idemp_l. f_equal. lia.
Qed.

Lemma backward_repr rb l : repr rb l -> backward rb = Some (reverse l).
Proof.
  intros H. pose proof H as [Hcap Hlen Hsz Hb Hh Ht Hth Htn Hsl Hlive].
  unfold backward, rbegin, rend.
  destruct (decide (l = [])) as [->|Hne].
  { rewrite Hsz. done. }
  destruct (back_index _ _ H Hne) as [Hti Htm].
  assert (tail_ rb = (tail_ rb - Z.of_nat 0) mod capacity_ rb) as Hpos0
    by (rewrite Z.sub_0_r, Z.mod_small; lia).
  rewrite Hpos0 at 1. rewrite <-(drop_0 (reverse l)) at 1.
  apply (traverse_spec true rb (fun i => (tail_ rb - Z.of_nat i) mod capacity_ rb));
    rewrite ?length_reverse; simpl; [lia|lia| |lia].
  intros i x Hx. pose proof Hx as [Hx' Hilt]%reverse_lookup_Some. split.
  - apply (repr_read _ _ _ _ _ H Hx'); [by apply mod_range|]. rewrite Z.mod_mod by lia.
    rewrite <-Zminus_mod_idemp_l, Htm, Zminus_mod_idemp_l. f_equal. lia.
  - unfold iter_incr, capacity. rewrite (proj2 (Z.eqb_neq _ _)) by lia. cbn [negb index_].
    pose proof (mod_range rb (tail_ rb - Z.of_nat i) Hcap). cbn [plus_count_].
    apply lookup_lt_Some in Hx'.
    rewrite (u64_small (_ mod _)), (u64_small (_ + capacity_ rb)),
      (u64_small (_ - 1)), (u64_small (_ + 1)) by lia.
    rewrite i32_small by (pose proof (mod_range rb
      ((tail_ rb - Z.of_nat i) mod capacity_ rb + capacity_ rb - 1) Hcap); lia).
    do 2 f_equal; [|lia].
    replace ((tail_ rb - Z.of_nat i) mod capacity_ rb + capacity_ rb - 1)
      with ((tail_ rb - Z.of_nat i) mod capacity_ rb - 1 + 1 * capacity_ rb) by lia.
    rewrite Z.mod_add by lia. rewrite Zminus_mod_idemp_l. f_equal. lia.
Qed.

Lemma run_repr ops : forall rb l,
  repr rb l ->
  exists rb', run trivial Overwrite ops rb = Some rb' /\
    capacity_ rb' = capacity_ rb /\
    repr rb' (spec_run Overwrite (Z.to_nat (capacity_ rb)) ops l).
Proof.
  induction ops as [|o ops IH]; intros rb l H; simpl; [by exists rb|].
  assert (exists rb1, run_op trivial Overwrite o rb = Some rb1 /\
    capacity_ rb1 = capacity_ rb /\
    repr rb1 (spec_op Overwrite (Z.to_nat (capacity_ rb)) o l)) as (rb1 & -> & Hc & Hr).
  { destruct o; simpl; [by apply emplace_back_repr|by apply pop_front_repr|].
    by apply (clear_repr _ l). }
  rewrite <-Hc in Hr |- *. exact (IH _ _ Hr).
Qed.

Lemma emplace_all_run xs : forall rb,
  emplace_all trivial Overwrite xs rb = run trivial Overwrite (OpEmplace <$> xs) rb.
Proof.
  induction xs as [|x xs IH]; intros rb; simpl; [done|].
  destruct (emplace_back trivial Overwrite x rb); [apply IH|done].
Qed.

Lemma spec_overwrite_last_n cap xs : forall l,
  (0 < cap)%nat -> (length l <= cap)%nat ->
  spec_run true cap (OpEmplace <$> xs) l = Spec.last_n cap (l ++ xs).
Proof.
  unfold spec_run, Spec.last_n.
  induction xs as [|x xs IH]; intros l Hcap Hl; simpl.
  - rewrite app_nil_r. by replace (length l - cap)%nat with 0%nat by lia.
  - unfold Spec.emplace_back. case_decide as Hfull.
    + destruct l as [|y l]; [simpl in *; lia|]. simpl in *.
      rewrite IH; [|lia|rewrite length_app; simpl; lia].
      rewrite <-app_assoc. simpl. rewrite !length_app. simpl.
      replace (S (length l + S (length xs)) - cap)%nat
        with (S (length l + S (length xs) - cap))%nat by (simpl in *; lia).
      done.
    + rewrite IH; [|lia|rewrite length_app; simpl; lia]. by rewrite <-app_assoc.
Qed.

Lemma copy_slots_spec n : forall (from to : list (option T)),
  (n <= length from)%nat -> (n <= length to)%nat ->
  (forall i, (i < n)%nat -> exists x, from !! i = Some (Some x)) ->
  copy_slots trivial n from to = Some (take n from ++ drop n to).
Proof.
  induction n as [|n IH]; intros from to Hf Ht Hl; [done|].
  destruct from as [|s from]; [simpl in *; lia|]. destruct to as [|t to]; [simpl in *; lia|].
  simpl. destruct (Hl 0%nat ltac:(lia)) as [x Hx]. simpl in Hx. simplify_eq.
  rewrite bool_decide_true by eauto. rewrite orb_true_r.
  rewrite IH; [done|simpl in *; lia..|]. intros i Hi. apply (Hl (S i)). lia.
Qed.

Lemma slot_of_0 cap i : Z.of_nat i < cap -> slot_of cap 0 i = i.
Proof. intros. unfold slot_of. rewrite Z.add_0_l, Z.mod_small by lia. lia. Qed.

(** Copying a buffer whose oldest element sits in slot 0. *)
Lemma copy_ctor_aligned rb l :
  repr rb l -> head_ rb = 0 ->
  exists rb', copy_ctor trivial dflt rb = Some rb' /\
    RingBuffer.repr true rb' l.
Proof.
  intros [Hcap Hlen Hsz Hb Hh Ht Hth Htn Hsl Hlive] H0. unfold copy_ctor.
  set (raw := construct_all _ _ _).
  assert (Hraw : length (elements_ raw) = length (elements_ rb) /\
    tail_ raw = tail_ rb /\ head_ raw = head_ rb /\ size_ raw = size_ rb /\
    capacity_ raw = capacity_ rb).
  { subst raw. unfold construct_all. destruct trivial; simpl;
      rewrite ?length_fmap, length_replicate; split_and!; try done; lia. }
  destruct Hraw as (Hl & -> & -> & -> & ->).
  assert (Hslot : forall i, (i < length l)%nat -> slot_of (capacity_ rb) (head_ rb) i = i).
  { intros. rewrite H0. apply slot_of_0. lia. }
  rewrite copy_slots_spec; [|lia..|].
  2:{ intros i Hi. destruct (lookup_lt_is_Some_2 l i) as [x Hx]; [lia|].
      exists x. rewrite <-(Hslot i) by lia. by apply Hsl. }
  eexists. split; [done|].
  constructor; simpl; try done; try lia.
  - rewrite length_app, length_take, length_drop. lia.
  - intros i x Hx. pose proof (lookup_lt_Some _ _ _ Hx). rewrite Hslot by done.
    rewrite lookup_app_l by (rewrite length_take; lia).
    rewrite lookup_take_lt by lia. rewrite <-(Hslot i) by lia. by apply Hsl.
Qed.
End proofs.

(** * Properties *)

(** C15: whatever sequence of [emplace_back], [pop_front] and [clear] is run on a
    fresh buffer of positive capacity, no operation has undefined behaviour and
    every observer ([size], [empty], [full], [front], [back], [at], the forward
    and the reverse iteration) shows exactly the bounded queue the specification
    computes. *)
Theorem ring_buffer_refines {T} (trivial Overwrite : bool) (cap : Z) (ops : list (@op T)) :
  0 < cap < 2 ^ 31 ->
  let l := spec_run Overwrite (Z.to_nat cap) ops [] in
  exists rb, run trivial Overwrite ops (ctor cap) = Some rb /\
    size rb = Z.of_nat (length l) /\ capacity rb = cap /\
    empty rb = bool_decide (l = []) /\
    full rb = bool_decide (length l = Z.to_nat cap) /\
    front rb = head l /\ back rb = last l /\
    (forall i, at_ rb (Z.of_nat i) = l !! i) /\
    forward rb = Some l /\ backward rb = Some (reverse l).
Proof.
  intros Hcap l.
  destruct (run_repr trivial Overwrite ops _ _ (ctor_repr trivial cap Hcap))
    as (rb & Hrun & Hc & Hr).
  simpl in *. fold l in Hr. exists rb. split_and!; try done.
  - apply (repr_size _ _ _ Hr).
  - by apply (repr_empty trivial).
  - rewrite <-Hc. by apply (repr_full trivial).
  - by apply (front_repr trivial).
  - by apply (back_repr trivial).
  - intros i. by apply (at_repr trivial).
  - by apply (forward_repr trivial).
  - by apply (backward_repr trivial).
Qed.

Lemma ring_buffer_refines_witness :
  exists rb, run true true [OpEmplace 1; OpEmplace 2; OpEmplace 3; OpPop] (ctor 2) = Some rb /\
    front rb = Some 3.
Proof.
  destruct (ring_buffer_refines true true 2 [OpEmplace 1; OpEmplace 2; OpEmplace 3; OpPop])
    as (rb & Hrun & _ & _ & _ & _ & Hf & _); [lia|].
  exists rb. split; [exact Hrun|exact Hf].
Defined.

(** An overwriting buffer of capacity [cap] keeps the last [cap] elements appended to
    it, in order. *)
Theorem emplace_all_keeps_last {T} (trivial : bool) (cap : Z) (xs : list T) :
  0 < cap < 2 ^ 31 ->
  exists rb, emplace_all trivial true xs (ctor cap) = Some rb /\
    forward rb = Some (Spec.last_n (Z.to_nat cap) xs) /\
    size rb = Z.min cap (Z.of_nat (length xs)).
Proof.
  intros Hcap. rewrite emplace_all_run.
  destruct (run_repr trivial true (OpEmplace <$> xs) _ _ (ctor_repr trivial cap Hcap))
    as (rb & Hrun & Hc & Hr).
  simpl in *. rewrite spec_overwrite_last_n in Hr by (simpl; lia).
  exists rb. split_and!; [done|by apply (forward_repr trivial)|].
  unfold size. rewrite (repr_size _ _ _ Hr). unfold Spec.last_n. rewrite length_drop. simpl. lia.
Qed.

Lemma emplace_all_keeps_last_witness :
  exists rb, emplace_all true true [1; 2; 3; 4; 5] (ctor 4) = Some rb /\
    forward rb = Some [2; 3; 4; 5].
Proof.
  destruct (emplace_all_keeps_last true 4 [1; 2; 3; 4; 5]) as (rb & Hrun & Hf & _); [lia|].
  exists rb. split; [exact Hrun|exact Hf].
Defined.

(** For a type with a destructor, [clear] (which the destructor of the buffer
    runs) destroys every object the buffer ever constructed and still holds: after
    any operations followed by [clear] no slot of the storage holds an object. *)
Theorem clear_destroys_all {T} (Overwrite : bool) (cap : Z) (ops : list (@op T)) :
  0 < cap < 2 ^ 31 ->
  exists rb, run false Overwrite (ops ++ [OpClear]) (ctor cap) = Some rb /\
    size rb = 0 /\ forall j s, elements_ rb !! j = Some s -> s = None.
Proof.
  intros Hcap.
  destruct (run_repr false Overwrite (ops ++ [OpClear]) _ _ (ctor_repr false cap Hcap))
    as (rb & Hrun & Hc & Hr).
  unfold spec_run in Hr. rewrite foldl_app in Hr. simpl in Hr.
  exists rb. split_and!; [done|apply (repr_size _ _ _ Hr)|].
  intros j [x|] Hj; [|done].
  destruct (repr_live _ _ _ Hr eq_refl j x Hj) as (i & Hi & _). simpl in Hi. lia.
Qed.

Lemma clear_destroys_all_witness :
  exists rb, run false true [OpEmplace 7; OpEmplace 8; OpClear] (ctor 1) = Some rb /\ size rb = 0.
Proof.
  destruct (clear_destroys_all true 1 [OpEmplace 7; OpEmplace 8]) as (rb & Hrun & Hs & _); [lia|].
  exists rb. split; [exact Hrun|exact Hs].
Defined.

(** The copy constructor copies the first [size_] slots of the storage
    rather than the live ones.  It is right when the oldest element is in slot 0,
    and it is wrong on a buffer from which an element was popped: the copy of the
    one-element buffer [2] has no object where its front should be, and for a
    class type the copy itself reads a destroyed object. *)
Theorem copy_ctor_only_aligned :
  (forall (trivial : bool) (dflt : Z) rb l,
     repr trivial rb l -> head_ rb = 0 ->
     exists rb', copy_ctor trivial dflt rb = Some rb' /\ forward rb' = Some l) /\
  (exists rb rb', run true true [OpEmplace 1; OpEmplace 2; OpPop] (ctor 3) = Some rb /\
     copy_ctor true 0 rb = Some rb' /\ forward rb = Some [2] /\ forward rb' = None) /\
  (exists rb, run false true [OpEmplace 1; OpEmplace 2; OpPop] (ctor 3) = Some rb /\
     forward rb = Some [2] /\ copy_ctor false 0 rb = None).
Proof.
  split_and!.
  - intros trivial dflt rb l H H0.
    destruct (copy_ctor_aligned trivial dflt rb l H H0) as (rb' & Hcopy & Hr).
    exists rb'. split; [done|]. by apply (forward_repr true).
  - by eexists _, _.
  - by eexists.
Qed.

(** A buffer of capacity 0 reports itself full, and appending to an
    overwriting one divides by the zero capacity: [pop_front] returns early on the
    empty buffer and makes no room. *)
Theorem zero_capacity_emplace {T} (trivial : bool) (x : T) :
  full (ctor 0 : RingBuffer T) = true /\
  emplace_back trivial true x (ctor 0) = None /\
  emplace_back trivial false x (ctor 0) = Some (ctor 0).
Proof. done. Qed.
