(* ===== verification/Pool.v ===== *)
(** The object pool of src/src/pool.h, run by one thread.

    Nodes live in the vector [_nodes] and are named by their position; the two
    free lists (market and collective) are Treiber stacks whose heads are tagged
    indices.  The pieces of [push_into] and [pop_one_node] between two shared
    accesses are definitions of their own: this file composes them without
    interference, file PoolConc interleaves them.  [None] is undefined behaviour
    (null dereference, access out of [_nodes]). *)
From S2P Require Import Prelude.

(** * Tagged indices (namespace helper) *)

Definition NULL_INDEX : Z := 2 ^ 64 - 1.

Definition get_index (tagged_index : Z) : Z := Z.land tagged_index (2 ^ 32 - 1).
Definition get_tag (tagged_index : Z) : Z := Z.shiftr tagged_index 32.
Definition make_tagged_index (index tag : Z) : Z :=
  Z.lor index (u64 (Z.shiftl tag 32)).

(** * Nodes and lists *)

Record Node := mkNode {
  object : option nat;
  next : Z;
  index : Z;
  tag : Z;
  is_collective : bool
}.

Definition Node_default : Node := mkNode None NULL_INDEX 0 0 false.

Definition set_next (v : Z) (nd : Node) : Node :=
  mkNode (object nd) v (index nd) (tag nd) (is_collective nd).

(** [advance_tag] returns the old tag and increments it. *)
Definition advance_tag (nd : Node) : Z * Node :=
  (tag nd, mkNode (object nd) (next nd) (index nd) (u64 (tag nd + 1)) (is_collective nd)).

(** A [helper::LinkedList]: its first and last node. *)
Record LinkedList := mkLinkedList { ll_head : option nat; ll_tail : option nat }.
Definition ll_empty : LinkedList := mkLinkedList None None.
Definition ll_singleton (n : nat) : LinkedList := mkLinkedList (Some n) (Some n).

Open Scope wizard_scope.

Definition ll_push_back (nodes : list Node) (l : LinkedList) (n : nat) :
    option (list Node * LinkedList) :=
  match ll_tail l with
  | Some t =>
      nd <-? nodes !! n;
      let nodes1 := <[n := snd (advance_tag nd)]> nodes in
      td <-? nodes1 !! t;
      let nodes2 := <[t := set_next (make_tagged_index (index nd) (fst (advance_tag nd))) td]> nodes1 in
      Some (nodes2, mkLinkedList (ll_head l) (Some n))
  | None => Some (nodes, mkLinkedList (Some n) (Some n))
  end.

Definition ll_clear (l : LinkedList) : LinkedList := ll_empty.

(** * The pool *)

Inductive Head := Market | Collective.

#[export] Instance Head_eq_dec : EqDecision Head.
Proof. solve_decision. Defined.

(** [_objects] records which of the pool's objects are alive (between their
    constructor and their destructor). *)
Record Pool := mkPool {
  _nodes : list Node;
  _market_head : Z;
  _collective_head : Z;
  _objects : list bool
}.

Definition get_head (h : Head) (p : Pool) : Z :=
  match h with Market => _market_head p | Collective => _collective_head p end.

Definition set_head (h : Head) (v : Z) (p : Pool) : Pool :=
  match h with
  | Market => mkPool (_nodes p) v (_collective_head p) (_objects p)
  | Collective => mkPool (_nodes p) (_market_head p) v (_objects p)
  end.

Definition set_nodes (nodes : list Node) (p : Pool) : Pool :=
  mkPool nodes (_market_head p) (_collective_head p) (_objects p).

(** [push_into] up to its loop: load the head, take the new head's tag. *)
Definition push_into_begin (h : Head) (l : LinkedList) (p : Pool) : option (Z * Z * Pool) :=
  let old_head := get_head h p in
  n <-? ll_head l;
  nd <-? _nodes p !! n;
  let new_head := make_tagged_index (index nd) (fst (advance_tag nd)) in
  Some (old_head, new_head, set_nodes (<[n := snd (advance_tag nd)]> (_nodes p)) p).

(** The loop body: [list->tail->next = old_head]. *)
Definition push_into_link (l : LinkedList) (old_head : Z) (p : Pool) : option Pool :=
  t <-? ll_tail l;
  td <-? _nodes p !! t;
  Some (set_nodes (<[t := set_next old_head td]> (_nodes p)) p).

(** The loop test: [head.compare_exchange_weak(old_head, new_head)]; the flag
    tells whether the exchange took place. *)
Definition head_cas (h : Head) (old_head new_head : Z) (p : Pool) : bool * Pool :=
  if get_head h p =? old_head then (true, set_head h new_head p) else (false, p).

(** Without interference the first exchange succeeds. *)
Definition push_into (h : Head) (l : LinkedList) (p : Pool) : option Pool :=
  r <-? push_into_begin h l p;
  let '(old_head, new_head, p1) := r in
  p2 <-? push_into_link l old_head p1;
  Some (snd (head_cas h old_head new_head p2)).

Definition push_one_node (h : Head) (n : nat) (p : Pool) : option Pool :=
  push_into h (ll_singleton n) p.

(** The body of [pop_one_node]'s loop for a head that is not [NULL_INDEX]: the
    node it names and that node's [next]. *)
Definition pop_read (old_head : Z) (p : Pool) : option (nat * Z) :=
  let n := Z.to_nat (get_index old_head) in
  nd <-? _nodes p !! n;
  Some (n, next nd).

Definition pop_one_node (h : Head) (p : Pool) : option (option nat * Pool) :=
  let old_head := get_head h p in
  if old_head =? NULL_INDEX then Some (None, p)
  else
    r <-? pop_read old_head p;
    let '(n, new_head) := r in
    Some (Some n, snd (head_cas h old_head new_head p)).

(** One round of [init]'s loop. *)
Definition init_node (collective_num : nat)
    (st : list Node * LinkedList * LinkedList) (i : nat) :
    option (list Node * LinkedList * LinkedList) :=
  let '(nodes, market_list, collective_list) := st in
  let collective := bool_decide (i < collective_num)%nat in
  let nodes1 := <[i := mkNode (Some i) NULL_INDEX (Z.of_nat i) 0 collective]> nodes in
  if collective then
    r <-? ll_push_back nodes1 collective_list i;
    Some (fst r, market_list, snd r)
  else
    r <-? ll_push_back nodes1 market_list i;
    Some (fst r, snd r, collective_list).

Fixpoint init_loop (collective_num : nat) (js : list nat)
    (st : list Node * LinkedList * LinkedList) :
    option (list Node * LinkedList * LinkedList) :=
  match js with
  | [] => Some st
  | i :: js => st1 <-? init_node collective_num st i; init_loop collective_num js st1
  end.

Definition init (num collective_num : nat) : option Pool :=
  st <-? init_loop collective_num (seq 0 num) (replicate num Node_default, ll_empty, ll_empty);
  let '(nodes, market_list, collective_list) := st in
  p1 <-? push_into Market market_list (mkPool nodes NULL_INDEX NULL_INDEX (replicate num true));
  push_into Collective collective_list p1.

(** * Thread caches *)

Section cache.
Context {A : Type} (TC_SIZE : nat).

(** [(CACHELINE_SIZE - sizeof(ThreadCache)) / sizeof(Node* )] *)
Definition MAX_NODE : nat := ((64 - 8) / 8)%nat.

Definition get_capacity : nat := Nat.min TC_SIZE MAX_NODE.

Definition get_from_tc (c : list A) : option A * list A :=
  if decide (length c < 1)%nat then (None, c)
  else (c !! (length c - 1)%nat, take (length c - 1) c).

Definition release_to_tc (c : list A) (n : A) : bool * list A :=
  if decide (length c < get_capacity)%nat then (true, c ++ [n]) else (false, c).
End cache.

(** * Client operations of one thread, with its cache *)

Section ops.
(** [trivial] is [std::is_trivially_destructible<T>]. *)
Context (TC_SIZE : nat) (trivial : bool).

Definition try_pop (p : Pool) (c : list nat) : option (option nat * Pool * list nat) :=
  match get_from_tc c with
  | (Some n, c1) => Some (Some n, p, c1)
  | (None, _) =>
      r <-? pop_one_node Market p;
      match r with
      | (Some n, p1) => Some (Some n, p1, c)
      | (None, p1) =>
          r <-? pop_one_node Collective p1;
          Some (fst r, snd r, c)
      end
  end.

(** [node->object->~T()] *)
Definition destroy_object (nd : Node) (p : Pool) : option Pool :=
  if trivial then Some p
  else
    o <-? object nd;
    alive <-? (_objects p !! o : option bool);
    guard alive;
    Some (mkPool (_nodes p) (_market_head p) (_collective_head p) (<[o := false]> (_objects p))).

Definition release (n : nat) (p : Pool) (c : list nat) : option (Pool * list nat) :=
  nd <-? _nodes p !! n;
  p1 <-? destroy_object nd p;
  if is_collective nd then
    p2 <-? push_one_node Collective n p1; Some (p2, c)
  else
    match release_to_tc TC_SIZE c n with
    | (true, c1) => Some (p1, c1)
    | (false, _) => p2 <-? push_one_node Market n p1; Some (p2, c)
    end.
End ops.

(** * Pooled objects *)

(** A handle holds a pooled node and its pool, or an object of its own made by
    [new T]; [po_pool] is whether [_pool] is set (there is one pool). *)
Record PooledObject := mkPooledObject {
  po_node : option nat;
  po_pool : bool;
  po_object : option nat
}.

(** What releasing a handle does. *)
Inductive Effect := ReleaseNode (n : nat) | DeleteObject (o : nat).

Definition po_of_node (n : nat) (obj : option nat) : PooledObject := mkPooledObject (Some n) true obj.
Definition po_of_object (o : nat) : PooledObject := mkPooledObject None false (Some o).
Definition po_null : PooledObject := mkPooledObject None false None.

Definition po_release (po : PooledObject) : list Effect * PooledObject :=
  (match po_pool po, po_node po with
   | true, Some n => [ReleaseNode n]
   | _, _ => match po_object po with Some o => [DeleteObject o] | None => [] end
   end, po_null).

(** The move constructor: the new handle and what is left of the old one. *)
Definition po_move (o : PooledObject) : PooledObject * PooledObject :=
  (mkPooledObject (po_node o) (po_pool o) (po_object o), po_null).

Definition po_swap (a b : PooledObject) : PooledObject * PooledObject := (b, a).

(** [a = std::move(b)]: swap, then release what [b] received. *)
Definition po_move_assign (a b : PooledObject) : list Effect * PooledObject * PooledObject :=
  let (a1, b1) := po_swap a b in
  let (e, b2) := po_release b1 in
  (e, a1, b2).

(** [get]: a pooled node, or a fresh object [fresh] when the pool is exhausted. *)
Definition get (p : Pool) (c : list nat) (fresh : nat) :
    option (PooledObject * Pool * list nat) :=
  r <-? try_pop p c;
  let '(n, p1, c1) := r in
  match n with
  | Some n => nd <-? _nodes p !! n; Some (po_of_node n (object nd), p1, c1)
  | None => Some (po_of_object fresh, p1, c1)
  end.

(** [k] calls of [try_pop] in a row. *)
Fixpoint try_pop_n (k : nat) (p : Pool) (c : list nat) :
    option (list (option nat) * Pool * list nat) :=
  match k with
  | O => Some ([], p, c)
  | S k =>
      r <-? try_pop p c;
      let '(n, p1, c1) := r in
      r <-? try_pop_n k p1 c1;
      let '(ns, p2, c2) := r in
      Some (n :: ns, p2, c2)
  end.

(** What a client does with the handles it owns; handles are named by their
    position. *)
Inductive handle_op :=
  | HRelease (i : nat)
  | HMove (i : nat)          (* a new handle move-constructed from [i] *)
  | HSwap (i j : nat)
  | HAssign (i j : nat).     (* [i = std::move(j)] *)

Definition handle_step (o : handle_op) (hs : list PooledObject) :
    option (list Effect * list PooledObject) :=
  match o with
  | HRelease i =>
      a <-? hs !! i;
      let (e, a1) := po_release a in Some (e, <[i := a1]> hs)
  | HMove i =>
      a <-? hs !! i;
      let (b, a1) := po_move a in Some ([], <[i := a1]> hs ++ [b])
  | HSwap i j =>
      a <-? hs !! i; b <-? hs !! j;
      let (a1, b1) := po_swap a b in Some ([], <[j := b1]> (<[i := a1]> hs))
  | HAssign i j =>
      a <-? hs !! i; b <-? hs !! j;
      if decide (i = j) then
        let (e, a1) := po_release a in Some (e, <[i := a1]> hs)
      else
        let '(e, a1, b1) := po_move_assign a b in
        Some (e, <[j := b1]> (<[i := a1]> hs))
  end.

Fixpoint handle_run (os : list handle_op) (hs : list PooledObject) :
    option (list Effect * list PooledObject) :=
  match os with
  | [] => Some ([], hs)
  | o :: os =>
      r <-? handle_step o hs;
      let (e, hs1) := r in
      r <-? handle_run os hs1;
      let (e2, hs2) := r in Some (e ++ e2, hs2)
  end.

(** What the handles would release if they were all destroyed now. *)
Definition po_resources (po : PooledObject) : list Effect := fst (po_release po).
Definition handle_resources (hs : list PooledObject) : list Effect := hs ≫= po_resources.
Close Scope wizard_scope.

(** * Tagged index lemmas *)

Lemma make_tagged_index_eq i t :
  0 <= i < 2 ^ 32 -> make_tagged_index i t = i + (t mod 2 ^ 32) * 2 ^ 32.
Proof.
  intros Hi. unfold make_tagged_index.
  assert (u64 (Z.shiftl t 32) = Z.shiftl (t mod 2 ^ 32) 32) as ->.
  { unfold u64. rewrite !Z.shiftl_mul_pow2 by lia.
    change (2 ^ 64) with (2 ^ 32 * 2 ^ 32). by rewrite Z.mul_mod_distr_r by lia. }
  by apply lor_shiftl_add.
Qed.

Lemma get_index_make i t : 0 <= i < 2 ^ 32 -> get_index (make_tagged_index i t) = i.
Proof.
  intros Hi. rewrite make_tagged_index_eq by done. unfold get_index.
  rewrite land_pow2_mask by lia. rewrite Z.mod_add by lia. by apply Z.mod_small.
Qed.

Lemma get_tag_make i t : 0 <= i < 2 ^ 32 -> get_tag (make_tagged_index i t) = t mod 2 ^ 32.
Proof.
  intros Hi. rewrite make_tagged_index_eq by done. unfold get_tag.
  rewrite Z.shiftr_div_pow2 by lia. rewrite Z.div_add by lia.
  rewrite Z.div_small by done. lia.
Qed.

Lemma make_tagged_index_inj i t i' t' :
  0 <= i < 2 ^ 32 -> 0 <= i' < 2 ^ 32 -> 0 <= t < 2 ^ 32 -> 0 <= t' < 2 ^ 32 ->
  make_tagged_index i t = make_tagged_index i' t' -> i = i' /\ t = t'.
Proof.
  intros Hi Hi' Ht Ht' H. split.
  - by rewrite <-(get_index_make i t), H, get_index_make.
  - rewrite <-(Z.mod_small t (2 ^ 32)), <-(Z.mod_small t' (2 ^ 32)) by done.
    by rewrite <-(get_tag_make i t), H, get_tag_make.
Qed.

Lemma make_tagged_index_not_null i t :
  0 <= i < 2 ^ 32 - 1 -> make_tagged_index i t <> NULL_INDEX.
Proof.
  intros Hi. rewrite make_tagged_index_eq by lia. unfold NULL_INDEX.
  pose proof (Z.mod_pos_bound t (2 ^ 32)). lia.
Qed.

(** * Free lists as chains of tagged indices *)

(** The tagged index under which a node that is in a free list was pushed. *)
Definition tok (n : nat) (nd : Node) : Z := make_tagged_index (Z.of_nat n) (tag nd - 1).

(** [chain nodes h L]: following [next] from the head value [h] meets the nodes
    [L] and ends at [NULL_INDEX]. *)
Fixpoint chain (nodes : list Node) (h : Z) (L : list nat) : Prop :=
  match L with
  | [] => h = NULL_INDEX
  | n :: L' => exists nd, nodes !! n = Some nd /\ 1 <= tag nd /\ h = tok n nd /\
                 chain nodes (next nd) L'
  end.

(** Every node below [k] knows its own position and no tag outgrew 32 bits. *)
Definition nodes_ok_below (k : nat) (nodes : list Node) : Prop :=
  Z.of_nat (length nodes) < 2 ^ 32 /\
  forall n nd, (n < k)%nat -> nodes !! n = Some nd ->
    index nd = Z.of_nat n /\ 0 <= tag nd <= 2 ^ 32.

Definition nodes_ok (nodes : list Node) : Prop := nodes_ok_below (length nodes) nodes.

Lemma nodes_ok_lookup nodes n nd :
  nodes_ok nodes -> nodes !! n = Some nd ->
  index nd = Z.of_nat n /\ 0 <= tag nd <= 2 ^ 32 /\ 0 <= Z.of_nat n < 2 ^ 32 - 1.
Proof.
  intros [Hlen Hok] Hn. apply lookup_lt_Some in Hn as Hlt. destruct (Hok n nd Hlt Hn). lia.
Qed.

Lemma nodes_ok_below_insert k nodes n nd :
  nodes_ok_below k nodes -> index nd = Z.of_nat n -> 0 <= tag nd <= 2 ^ 32 ->
  nodes_ok_below k (<[n := nd]> nodes).
Proof.
  intros [Hlen Hok] Hi Ht. split; [by rewrite length_insert|].
  intros m md Hlt [(-> & -> & _)|[_ Hm]]%list_lookup_insert_Some; eauto.
Qed.

Lemma nodes_ok_insert nodes n nd :
  nodes_ok nodes -> index nd = Z.of_nat n -> 0 <= tag nd <= 2 ^ 32 ->
  nodes_ok (<[n := nd]> nodes).
Proof.
  intros. unfold nodes_ok. rewrite length_insert. by apply nodes_ok_below_insert.
Qed.

Lemma chain_agree nodes nodes' h L :
  (forall n, n ∈ L -> nodes' !! n = nodes !! n) ->
  chain nodes h L -> chain nodes' h L.
Proof.
  revert h. induction L as [|n L IH]; intros h Hag; simpl; [done|].
  intros (nd & Hn & Ht & Hh & Hc). exists nd. split_and!; [|done..|].
  - rewrite Hag; [done|left].
  - apply IH; [|done]. intros m Hm. apply Hag. by right.
Qed.

Lemma chain_insert nodes n nd h L :
  n ∉ L -> chain nodes h L -> chain (<[n := nd]> nodes) h L.
Proof.
  intros Hn. apply chain_agree. intros m Hm. apply list_lookup_insert_ne. by intros ->.
Qed.

Lemma chain_null nodes L : nodes_ok nodes -> chain nodes NULL_INDEX L -> L = [].
Proof.
  intros Hok. destruct L as [|n L]; simpl; [done|].
  intros (nd & Hn & _ & Hh & _). exfalso.
  destruct (nodes_ok_lookup _ _ _ Hok Hn) as (_ & _ & ?).
  by eapply make_tagged_index_not_null.
Qed.

Lemma chain_not_null nodes h L :
  nodes_ok nodes -> chain nodes h L -> h <> NULL_INDEX ->
  exists n nd L', L = n :: L' /\ nodes !! n = Some nd /\ 1 <= tag nd /\ h = tok n nd /\
    chain nodes (next nd) L' /\ get_index h = Z.of_nat n.
Proof.
  intros Hok Hc Hne. destruct L as [|n L]; [done|]. simpl in Hc.
  destruct Hc as (nd & Hn & Ht & Hh & Hc).
  destruct (nodes_ok_lookup _ _ _ Hok Hn) as (_ & _ & ?).
  exists n, nd, L. split_and!; try done. rewrite Hh. apply get_index_make. lia.
Qed.

Lemma chain_in nodes h L n : chain nodes h L -> n ∈ L -> is_Some (nodes !! n).
Proof.
  revert h. induction L as [|m L IH]; intros h; simpl; [by intros _ ?%elem_of_nil|].
  intros (nd & Hn & _ & _ & Hc) [->|Hin]%elem_of_cons; eauto.
Qed.

(** * One-thread behaviour *)

(** [pool_repr p Lm Lc]: the free lists of the pool are [Lm] and [Lc]. *)
Record pool_repr (p : Pool) (Lm Lc : list nat) : Prop := {
  pr_nodes : nodes_ok (_nodes p);
  pr_market : chain (_nodes p) (_market_head p) Lm;
  pr_collective : chain (_nodes p) (_collective_head p) Lc;
  pr_nodup : NoDup (Lm ++ Lc);
  pr_kind_m : forall n nd, n ∈ Lm -> _nodes p !! n = Some nd -> is_collective nd = false;
  pr_kind_c : forall n nd, n ∈ Lc -> _nodes p !! n = Some nd -> is_collective nd = true
}.

Definition sel {A} (h : Head) (a b : A) : A := match h with Market => a | Collective => b end.

Lemma get_set_head h v p : get_head h (set_head h v p) = v.
Proof. by destruct h. Qed.

Lemma set_head_nodes h v p : _nodes (set_head h v p) = _nodes p.
Proof. by destruct h. Qed.

Lemma get_head_set_nodes h nodes p : get_head h (set_nodes nodes p) = get_head h p.
Proof. by destruct h. Qed.

Lemma pop_one_node_spec h p Lm Lc :
  pool_repr p Lm Lc ->
  match sel h Lm Lc with
  | [] => pop_one_node h p = Some (None, p)
  | n :: L => exists p', pop_one_node h p = Some (Some n, p') /\ _nodes p' = _nodes p /\
      pool_repr p' (sel h L Lm) (sel h Lc L)
  end.
Proof.
  intros [Hok Hm Hc Hnd Hkm Hkc].
  assert (Hch : chain (_nodes p) (get_head h p) (sel h Lm Lc)) by (by destruct h).
  unfold pop_one_node. destruct (Z.eqb_spec (get_head h p) NULL_INDEX) as [Hnull|Hne].
  - rewrite Hnull in Hch. by rewrite (chain_null _ _ Hok Hch).
  - destruct (chain_not_null _ _ _ Hok Hch Hne) as (n & nd & L & HL & Hn & _ & _ & Hc' & Hi).
    rewrite HL.
    unfold pop_read. rewrite Hi, Nat2Z.id, Hn. unfold head_cas. rewrite Z.eqb_refl. simpl.
    eexists. split; [done|]. rewrite set_head_nodes. split; [done|].
    destruct h; simpl in *; subst; constructor; simpl; try done.
    + by inversion Hnd.
    + intros m md Hin. apply Hkm. by right.
    + apply NoDup_app in Hnd as (? & ? & [? ?]%NoDup_cons).
      apply NoDup_app. split_and!; [done| |done]. set_solver.
    + intros m md Hin. apply Hkc. by right.
Qed.

Lemma push_one_node_spec h n nd p Lm Lc :
  pool_repr p Lm Lc -> _nodes p !! n = Some nd -> n ∉ Lm ++ Lc ->
  is_collective nd = sel h false true -> tag nd < 2 ^ 32 ->
  exists p', push_one_node h n p = Some p' /\ length (_nodes p') = length (_nodes p) /\
    _objects p' = _objects p /\
    pool_repr p' (sel h (n :: Lm) Lm) (sel h Lc (n :: Lc)).
Proof.
  intros [Hok Hm Hc Hnd Hkm Hkc] Hn Hnin Hkind Htag.
  destruct (nodes_ok_lookup _ _ _ Hok Hn) as (Hidx & Ht & Hrange).
  assert (Hlt : (n < length (_nodes p))%nat) by (by eapply lookup_lt_Some).
  unfold push_one_node, push_into, push_into_begin. simpl. rewrite Hn. simpl.
  unfold push_into_link. simpl. rewrite list_lookup_insert_eq by done. simpl.
  rewrite list_insert_insert_eq. unfold head_cas.
  rewrite !get_head_set_nodes, Z.eqb_refl. simpl.
  eexists. split; [done|]. rewrite set_head_nodes. simpl. rewrite length_insert.
  split; [done|]. split; [by destruct h|].
  set (nd' := set_next _ _).
  assert (Hu : u64 (tag nd + 1) = tag nd + 1) by (rewrite u64_small; lia).
  assert (Htag' : tag nd' = tag nd + 1) by done || by (subst nd'; simpl; rewrite Hu).
  assert (Hok' : nodes_ok (<[n := nd']> (_nodes p))).
  { apply nodes_ok_insert; [done..|]. rewrite Htag'. lia. }
  apply not_elem_of_app in Hnin as [Hnm Hnc].
  assert (Htok : make_tagged_index (index nd) (tag nd) = tok n nd').
  { unfold tok. rewrite Hidx, Htag'. f_equal. lia. }
  assert (Hch : forall hd L, n ∉ L -> chain (_nodes p) hd L -> chain (<[n:=nd']> (_nodes p)) hd L)
    by (intros; by apply chain_insert).
  assert (Hnew : exists nd0, <[n:=nd']> (_nodes p) !! n = Some nd0 /\ 1 <= tag nd0 /\
    make_tagged_index (index nd) (tag nd) = tok n nd0 /\ next nd0 = get_head h p).
  { exists nd'. rewrite list_lookup_insert_eq by done. split_and!; try done. rewrite Htag'. lia. }
  destruct Hnew as (nd0 & Hnew1 & Hnew2 & Hnew3 & Hnew4).
  assert (Hkind' : forall m md, <[n:=nd']> (_nodes p) !! m = Some md ->
    (m = n /\ is_collective md = sel h false true) \/ (m <> n /\ _nodes p !! m = Some md)).
  { intros m md [(-> & <- & _)|[? ?]]%list_lookup_insert_Some; [by left|right; done]. }
  destruct h; simpl in *; constructor; simpl; try done.
  - exists nd0. rewrite Hnew4. split_and!; try done. by apply Hch.
  - by apply Hch.
  - constructor; [|done]. by apply not_elem_of_app.
  - intros m md [->|Hin]%elem_of_cons Hmd; destruct (Hkind' _ _ Hmd) as [[? ?]|[? ?]]; eauto; done.
  - intros m md Hin Hmd; destruct (Hkind' _ _ Hmd) as [[-> ?]|[? ?]]; eauto; done.
  - by apply Hch.
  - exists nd0. rewrite Hnew4. split_and!; try done. by apply Hch.
  - apply NoDup_app in Hnd as (? & ? & ?).
    apply NoDup_app. rewrite NoDup_cons. split_and!; try done. set_solver.
  - intros m md Hin Hmd; destruct (Hkind' _ _ Hmd) as [[-> ?]|[? ?]]; eauto; done.
  - intros m md [->|Hin]%elem_of_cons Hmd; destruct (Hkind' _ _ Hmd) as [[? ?]|[? ?]]; eauto; done.
Qed.

(** * Initialisation *)

(** Linking the last node of a chain to another chain. *)
Lemma chain_append nodes h L t td old Lold :
  chain nodes h (L ++ [t]) -> nodes !! t = Some td -> NoDup (L ++ [t]) ->
  t ∉ Lold -> chain nodes old Lold ->
  chain (<[t := set_next old td]> nodes) h (L ++ t :: Lold).
Proof.
  revert h. induction L as [|n L IH]; intros h Hc Ht Hnd Hnin Hold; simpl in *.
  - destruct Hc as (nd & Hn & Htag & -> & _). rewrite Ht in Hn. simplify_eq.
    exists (set_next old nd). split_and!; try done.
    + apply list_lookup_insert_eq. by eapply lookup_lt_Some.
    + by apply chain_insert.
  - destruct Hc as (nd & Hn & Htag & -> & Hc). apply NoDup_cons in Hnd as [Hnn Hnd].
    exists nd. split_and!; try done; [|by apply IH].
    rewrite list_lookup_insert_ne; [done|]. intros ->. set_solver.
Qed.

Definition bump (nd : Node) : Node := snd (advance_tag nd).

(** A [LinkedList] under construction: its nodes are chained and only the tag of
    its first node is still to be taken. *)
Definition pchain (nodes : list Node) (l : LinkedList) (L : list nat) : Prop :=
  match L with
  | [] => l = ll_empty
  | h :: _ => ll_head l = Some h /\ ll_tail l = last L /\
      exists nd, nodes !! h = Some nd /\ tag nd = 0 /\
        chain (<[h := bump nd]> nodes) (tok h (bump nd)) L
  end.

Lemma pchain_agree nodes nodes' l L :
  (forall n, n ∈ L -> nodes' !! n = nodes !! n) -> pchain nodes l L -> pchain nodes' l L.
Proof.
  destruct L as [|h L]; simpl; [done|].
  intros Hag (Hh & Ht & nd & Hnd & Htag & Hc). split_and!; [done..|].
  exists nd. split_and!; [rewrite Hag; [done|left]|done|].
  destruct Hc as (nd1 & Hn1 & ? & ? & Hc).
  assert (is_Some (nodes' !! h)) as [? Hlt%lookup_lt_Some] by (rewrite Hag by left; eauto).
  assert (h < length nodes)%nat by (by eapply lookup_lt_Some).
  exists nd1. split_and!; try done.
  { rewrite list_lookup_insert_eq in Hn1 |- *; done. }
  revert Hc. apply chain_agree. intros m Hm. destruct (decide (m = h)) as [->|].
  - by rewrite !list_lookup_insert_eq by done.
  - rewrite !list_lookup_insert_ne by done. apply Hag. by right.
Qed.

(** A node as [init] writes it, before any list operation. *)
Definition fresh_node (n : nat) (c : bool) : Node := mkNode (Some n) NULL_INDEX (Z.of_nat n) 0 c.

Lemma ll_push_back_nonempty k nodes l L0 t h nd n c :
  nodes_ok_below k nodes -> (forall m, m ∈ L0 ++ [t] -> (m < k)%nat) -> ll_tail l = Some t -> NoDup (L0 ++ [t]) -> n ∉ L0 ++ [t] ->
  head (L0 ++ [t]) = Some h ->
  nodes !! h = Some nd -> tag nd = 0 ->
  chain (<[h := bump nd]> nodes) (tok h (bump nd)) (L0 ++ [t]) ->
  nodes !! n = Some (fresh_node n c) ->
  exists nodes2, ll_push_back nodes l n = Some (nodes2, mkLinkedList (ll_head l) (Some n)) /\
  exists nd2, nodes2 !! h = Some nd2 /\ tag nd2 = 0 /\
    chain (<[h := bump nd2]> nodes2) (tok h (bump nd2)) ((L0 ++ [t]) ++ [n]) /\
    nodes_ok_below k nodes2 /\ length nodes2 = length nodes /\
    (forall m, m ∉ (L0 ++ [t]) ++ [n] -> nodes2 !! m = nodes !! m) /\
    (forall m md, nodes !! m = Some md -> exists md', nodes2 !! m = Some md' /\
        is_collective md' = is_collective md /\ object md' = object md /\ tag md' <= tag md + 1).
Proof.
  intros Hok Hbelow Hlt Hdup Hnin Hhead Hnd Htag Hc Hn.
  assert (Hh : h ∈ L0 ++ [t]) by (destruct (L0 ++ [t]); simplify_eq/=; left).
  assert (h <> n) by (by intros ->). assert (t <> n) by (intros ->; set_solver).
  assert (h < length nodes)%nat by (by eapply lookup_lt_Some).
  assert (n < length nodes)%nat by (by eapply lookup_lt_Some).
  assert (exists td, nodes !! t = Some td) as [td Htd].
  { destruct (chain_in _ _ _ t Hc) as [x Hx]; [set_solver|].
    apply lookup_lt_is_Some. apply lookup_lt_Some in Hx. by rewrite length_insert in Hx. }
  assert (t < length nodes)%nat by (by eapply lookup_lt_Some).
  unfold ll_push_back. rewrite Hlt, Hn. rewrite list_lookup_insert_ne by done.
  rewrite Htd. simpl. eexists. split; [done|].
  set (v := make_tagged_index (Z.of_nat n) 0). set (nb := bump (fresh_node n c)).
  change (mkNode _ _ _ (u64 (0 + 1)) _) with nb.
  set (nodes1 := <[n := nb]> nodes).
  set (nd2 := if decide (t = h) then set_next v nd else nd).
  assert (Hnd2 : <[t := set_next v td]> nodes1 !! h = Some nd2).
  { subst nd2. case_decide.
    - subst t. rewrite list_lookup_insert_eq by (subst nodes1; by rewrite length_insert). congruence.
    - unfold nodes1. by rewrite !list_lookup_insert_ne. }
  exists nd2. split; [done|].
  split; [subst nd2; by case_decide|].
  split.
  { set (tdB := if decide (t = h) then bump nd else td).
    assert (Heq : <[h := bump nd2]> (<[t := set_next v td]> nodes1)
                  = <[t := set_next v tdB]> (<[h := bump nd]> nodes1)).
    { subst nd2 tdB. case_decide; [subst t; by rewrite !list_insert_insert_eq|].
      by rewrite list_insert_insert_ne. }
    assert (Htok : tok h (bump nd2) = tok h (bump nd)) by (subst nd2; by case_decide).
    rewrite Heq, Htok, <-app_assoc. apply chain_append; [| |done| |].
    - unfold nodes1. rewrite list_insert_insert_ne by done. by apply chain_insert.
    - subst tdB. case_decide.
      + subst t. apply list_lookup_insert_eq. subst nodes1. by rewrite length_insert.
      + unfold nodes1. by rewrite !list_lookup_insert_ne.
    - set_solver.
    - exists nb. unfold nodes1. rewrite list_lookup_insert_ne by done.
      rewrite list_lookup_insert_eq by done. done. }
  assert (Hnb : forall m md, nodes !! m = Some md -> m <> n -> m <> t ->
    <[t := set_next v td]> nodes1 !! m = Some md).
  { intros. unfold nodes1. by rewrite !list_lookup_insert_ne. }
  split_and!.
  - destruct (proj2 Hok t td) as [Hi Ht']; [apply Hbelow; set_solver|done|].
    apply nodes_ok_below_insert; [|done..].
    apply nodes_ok_below_insert; [done..|]. change (tag nb) with 1. lia.
  - unfold nodes1. by rewrite !length_insert.
  - intros m Hm. unfold nodes1. rewrite !list_lookup_insert_ne; [done|set_solver..].
  - intros m md Hm. destruct (decide (m = t)) as [->|].
    + rewrite Htd in Hm. simplify_eq. exists (set_next v md).
      rewrite list_lookup_insert_eq by (subst nodes1; by rewrite length_insert).
      split_and!; try done. simpl. lia.
    + rewrite list_lookup_insert_ne by done. unfold nodes1.
      destruct (decide (m = n)) as [->|].
      * rewrite Hn in Hm. simplify_eq. exists nb. rewrite list_lookup_insert_eq by done.
        split_and!; try done.
      * exists md. rewrite list_lookup_insert_ne by done. split_and!; try done. lia.
Qed.

Lemma ll_push_back_spec k nodes l L n c :
  nodes_ok_below k nodes -> (forall m, m ∈ L -> (m < k)%nat) -> pchain nodes l L -> NoDup L -> n ∉ L ->
  nodes !! n = Some (fresh_node n c) ->
  exists nodes' l', ll_push_back nodes l n = Some (nodes', l') /\
    pchain nodes' l' (L ++ [n]) /\ nodes_ok_below k nodes' /\ length nodes' = length nodes /\
    (forall m, m ∉ L ++ [n] -> nodes' !! m = nodes !! m) /\
    (forall m md, nodes !! m = Some md -> exists md', nodes' !! m = Some md' /\
        is_collective md' = is_collective md /\ object md' = object md /\ tag md' <= tag md + 1).
Proof.
  intros Hok Hbelow Hp HndL Hnin Hn.
  assert (Hnlt : (n < length nodes)%nat) by (by eapply lookup_lt_Some).
  destruct L as [|h L].
  - simpl in Hp. subst l. unfold ll_push_back. simpl.
    exists nodes, (mkLinkedList (Some n) (Some n)). split_and!; try done.
    + exists (fresh_node n c). split_and!; [done..|].
      exists (bump (fresh_node n c)). rewrite list_lookup_insert_eq by done. split_and!; done.
    + intros m md Hm. exists md. split_and!; try done. lia.
  - destruct Hp as (Hh & Ht & nd & Hnd & Htag & Hc).
    destruct (exists_last (l := h :: L)) as (L0 & t & HL); [done|].
    rewrite HL in *. rewrite last_snoc in Ht.
    destruct (ll_push_back_nonempty k nodes l L0 t h nd n c) as (nodes2 & Hpb & Hrest); eauto.
    { by rewrite <-HL. }
    exists nodes2, (mkLinkedList (ll_head l) (Some n)). split; [done|].
    destruct Hrest as (nd2 & Hnd2 & Htag2 & Hc2 & Hrest). split; [|done].
    rewrite <-HL in Hc2 |- *. simpl. split_and!; [done| |].
    + change (h :: L ++ [n]) with ((h :: L) ++ [n]). by rewrite last_snoc.
    + by exists nd2.
Qed.

Record init_inv (num cnum i : nat) (st : list Node * LinkedList * LinkedList) : Prop := {
  ii_length : length (fst (fst st)) = num;
  ii_ok : nodes_ok_below i (fst (fst st));
  ii_market : pchain (fst (fst st)) (snd (fst st)) (seq cnum (i - cnum));
  ii_collective : pchain (fst (fst st)) (snd st) (seq 0 (Nat.min i cnum));
  ii_kind : forall j nd, (j < i)%nat -> fst (fst st) !! j = Some nd ->
    is_collective nd = bool_decide (j < cnum)%nat
}.

Lemma pchain_seq_agree nodes n nd l a b :
  (forall m, m ∈ seq a b -> m <> n) -> pchain nodes l (seq a b) ->
  pchain (<[n := nd]> nodes) l (seq a b).
Proof.
  intros Hne. apply pchain_agree. intros m Hm. apply list_lookup_insert_ne.
  intros ->. by apply (Hne m).
Qed.

(** [init] writes node [i] and appends it to the list of its kind. *)
Lemma init_node_step nodes l L num cnum i :
  length nodes = num -> Z.of_nat num < 2 ^ 32 -> (i < num)%nat ->
  nodes_ok_below i nodes -> pchain nodes l L -> NoDup L -> (forall m, m ∈ L -> (m < i)%nat) ->
  (forall j nd, (j < i)%nat -> nodes !! j = Some nd -> is_collective nd = bool_decide (j < cnum)%nat) ->
  let c := bool_decide (i < cnum)%nat in
  exists nodes' l', ll_push_back (<[i := fresh_node i c]> nodes) l i = Some (nodes', l') /\
    length nodes' = num /\ nodes_ok_below (S i) nodes' /\ pchain nodes' l' (L ++ [i]) /\
    (forall m, m ∉ L ++ [i] -> nodes' !! m = nodes !! m) /\
    (forall j nd, (j < S i)%nat -> nodes' !! j = Some nd -> is_collective nd = bool_decide (j < cnum)%nat).
Proof.
  intros Hlen Hnum Hi Hok Hp HL Hb Hkind c.
  set (nodes1 := <[i := fresh_node i c]> nodes).
  assert (Hn1 : nodes1 !! i = Some (fresh_node i c)) by (apply list_lookup_insert_eq; lia).
  assert (Hok1 : nodes_ok_below (S i) nodes1).
  { destruct Hok as [Hl Hok]. split; [unfold nodes1; by rewrite length_insert|].
    intros m md Hm [(-> & <- & _)|[Hne Hmd]]%list_lookup_insert_Some; [simpl; lia|].
    apply Hok; [lia|done]. }
  assert (Hp1 : pchain nodes1 l L).
  { revert Hp. apply pchain_agree. intros m Hm. apply list_lookup_insert_ne.
    specialize (Hb m Hm). lia. }
  destruct (ll_push_back_spec (S i) nodes1 l L i c) as (nodes' & l' & Hpb & Hp' & Hok' & Hlen' & Hout & Hk);
    try done.
  { intros m Hm. specialize (Hb m Hm). lia. }
  { intros Hin. specialize (Hb i Hin). lia. }
  exists nodes', l'. split_and!; try done.
  - rewrite Hlen'. unfold nodes1. by rewrite length_insert.
  - intros m Hm. rewrite Hout by done. apply list_lookup_insert_ne. set_solver.
  - intros j nd' Hj Hnd'.
    assert (exists nd, nodes1 !! j = Some nd) as [nd Hnd].
    { apply lookup_lt_is_Some. apply lookup_lt_Some in Hnd'. by rewrite <-Hlen'. }
    destruct (Hk j nd Hnd) as (nd'' & Hnd'' & Hkc & _). simplify_eq. rewrite Hkc.
    apply list_lookup_insert_Some in Hnd as [(-> & <- & _)|[Hne Hnd]]; [done|].
    apply Hkind; [lia|done].
Qed.

Lemma seq_lt a b m : m ∈ seq a b -> (a <= m < a + b)%nat.
Proof. by intros ?%elem_of_seq. Qed.

Lemma init_node_inv num cnum i st :
  Z.of_nat num < 2 ^ 32 -> (i < num)%nat -> init_inv num cnum i st ->
  exists st', init_node cnum st i = Some st' /\ init_inv num cnum (S i) st'.
Proof.
  intros Hnum Hi [Hlen Hok Hm Hc Hkind]. destruct st as [[nodes ml] cl]. simpl in *.
  unfold init_node. case_bool_decide as Hic.
  - replace (Nat.min i cnum) with i in Hc by lia.
    replace (i - cnum)%nat with 0%nat in Hm by lia.
    destruct (init_node_step nodes cl (seq 0 i) num cnum i) as (nodes' & l' & Hpb & ? & ? & Hp & Hag & ?);
      try done; [apply NoDup_seq|intros m ?%seq_lt; lia|].
    rewrite bool_decide_true in Hpb by done. unfold fresh_node in Hpb. rewrite Hpb.
    eexists. split; [done|]. constructor; cbn [fst snd]; try done.
    + by replace (S i - cnum)%nat with 0%nat by lia.
    + replace (Nat.min (S i) cnum) with (S i) by lia. by rewrite seq_S.
  - replace (Nat.min i cnum) with cnum in Hc by lia.
    destruct (init_node_step nodes ml (seq cnum (i - cnum)) num cnum i)
      as (nodes' & l' & Hpb & ? & ? & Hp & Hag & ?);
      try done; [apply NoDup_seq|intros m ?%seq_lt; lia|].
    rewrite bool_decide_false in Hpb by done. unfold fresh_node in Hpb. rewrite Hpb.
    eexists. split; [done|]. constructor; cbn [fst snd]; try done.
    + replace (S i - cnum)%nat with (S (i - cnum)) by lia. rewrite seq_S.
      by replace (cnum + (i - cnum))%nat with i by lia.
    + replace (Nat.min (S i) cnum) with cnum by lia. revert Hc. apply pchain_agree.
      intros m ?%seq_lt. apply Hag. intros [?%seq_lt|?%list_elem_of_singleton]%elem_of_app; lia.
Qed.

Lemma init_loop_inv num cnum k : forall i st,
  Z.of_nat num < 2 ^ 32 -> (i + k = num)%nat -> init_inv num cnum i st ->
  exists st', init_loop cnum (seq i k) st = Some st' /\ init_inv num cnum num st'.
Proof.
  induction k as [|k IH]; intros i st Hnum Hik Hinv; simpl.
  - exists st. split; [done|]. by assert (i = num) as -> by lia.
  - destruct (init_node_inv num cnum i st) as (st1 & -> & Hinv1); [done|lia|done|].
    apply IH; [done|lia|done].
Qed.

(** Pushing a whole list on an empty stack. *)
Lemma push_into_empty h l L p :
  nodes_ok (_nodes p) -> pchain (_nodes p) l L -> L <> [] -> NoDup L ->
  get_head h p = NULL_INDEX ->
  exists p', push_into h l p = Some p' /\ nodes_ok (_nodes p') /\
    length (_nodes p') = length (_nodes p) /\
    chain (_nodes p') (get_head h p') L /\
    (forall h', h' <> h -> get_head h' p' = get_head h' p) /\
    (forall m, m ∉ L -> _nodes p' !! m = _nodes p !! m) /\
    (forall m md md', _nodes p !! m = Some md -> _nodes p' !! m = Some md' ->
       is_collective md' = is_collective md).
Proof.
  intros Hok Hp Hne HL Hnull. destruct L as [|n L]; [done|].
  destruct Hp as (Hh & Ht & nd & Hnd & Htag & Hc).
  destruct (exists_last (l := n :: L)) as (L0 & t & HLt); [done|].
  rewrite HLt in *. rewrite last_snoc in Ht.
  destruct (nodes_ok_lookup _ _ _ Hok Hnd) as (Hidx & _ & _).
  assert (Hnlt : (n < length (_nodes p))%nat) by (by eapply lookup_lt_Some).
  set (nodes1 := <[n := bump nd]> (_nodes p)) in *.
  destruct (chain_in _ _ _ t Hc) as [td Htd]; [set_solver|].
  assert (Htlt : (t < length nodes1)%nat) by (by eapply lookup_lt_Some).
  unfold push_into, push_into_begin. rewrite Hh, Hnd.
  change (snd (advance_tag nd)) with (bump nd). fold nodes1.
  unfold push_into_link. rewrite Ht. cbn [_nodes set_nodes]. rewrite Htd.
  unfold head_cas. rewrite !get_head_set_nodes, Z.eqb_refl. simpl.
  eexists. split; [done|]. rewrite set_head_nodes, get_set_head. simpl. rewrite Hnull.
  assert (Hok1 : nodes_ok nodes1).
  { apply nodes_ok_insert; [done|done|]. unfold bump. simpl. by rewrite Htag. }
  destruct (nodes_ok_lookup _ _ _ Hok1 Htd) as (? & ? & _).
  split_and!.
  - by apply nodes_ok_insert.
  - unfold nodes1. by rewrite !length_insert.
  - assert (make_tagged_index (index nd) (tag nd) = tok n (bump nd)) as ->.
    { unfold tok, bump. simpl. by rewrite Hidx, Htag. }
    by apply chain_append; [| | |apply not_elem_of_nil|].
  - intros h' Hh'. by destruct h, h'.
  - intros m Hm. unfold nodes1. rewrite !list_lookup_insert_ne; [done| |].
    + intros ->. apply Hm. rewrite <-HLt. left.
    + intros ->. apply Hm. apply elem_of_app. right. left.
  - intros m md md' Hmd [(-> & <- & _)|[Htm Hmd']]%list_lookup_insert_Some; simpl.
    + apply list_lookup_insert_Some in Htd as [(-> & <- & _)|[? Htd]]; by simplify_eq.
    + apply list_lookup_insert_Some in Hmd' as [(-> & <- & _)|[? Hmd']]; by simplify_eq.
Qed.

Lemma init_repr num cnum :
  Z.of_nat num < 2 ^ 32 -> (0 < cnum < num)%nat ->
  exists p, init num cnum = Some p /\ length (_nodes p) = num /\
    pool_repr p (seq cnum (num - cnum)) (seq 0 cnum).
Proof.
  intros Hnum Hc. unfold init.
  destruct (init_loop_inv num cnum num 0 (replicate num Node_default, ll_empty, ll_empty))
    as ([[nodes ml] cl] & -> & [Hlen Hok Hm Hcl Hkind]); [done|lia| |].
  { constructor; simpl; try done; [by rewrite length_replicate| |lia].
    split; [rewrite length_replicate; lia|]. intros; lia. }
  simpl in *. rewrite <-Hlen in Hok.
  destruct (push_into_empty Market ml (seq cnum (num - cnum))
    (mkPool nodes NULL_INDEX NULL_INDEX (replicate num true)))
    as (p1 & -> & Hok1 & Hlen1 & Hch1 & Hoth1 & Hag1 & Hk1); try done.
  { destruct (num - cnum)%nat eqn:?; [lia|done]. }
  { apply NoDup_seq. }
  simpl in *. replace (Nat.min num cnum) with cnum in Hcl by lia.
  destruct (push_into_empty Collective cl (seq 0 cnum) p1)
    as (p2 & -> & Hok2 & Hlen2 & Hch2 & Hoth2 & Hag2 & Hk2); try done.
  { revert Hcl. apply pchain_agree. intros m ?%seq_lt. apply Hag1. intros ?%seq_lt; lia. }
  { destruct cnum; [lia|done]. }
  { apply NoDup_seq. }
  { by rewrite (Hoth1 Collective). }
  assert (Hkinds : forall n nd, _nodes p2 !! n = Some nd ->
    (n < num)%nat /\ is_collective nd = bool_decide (n < cnum)%nat).
  { intros n nd Hn. assert (Hnlt : (n < num)%nat)
      by (apply lookup_lt_Some in Hn; rewrite Hlen2, Hlen1, Hlen in Hn; done).
    split; [done|].
    destruct (lookup_lt_is_Some_2 (_nodes p1) n) as [nd1 Hn1]; [lia|].
    destruct (lookup_lt_is_Some_2 nodes n) as [nd0 Hn0]; [lia|].
    rewrite (Hk2 _ _ _ Hn1 Hn), (Hk1 _ _ _ Hn0 Hn1). by apply Hkind. }
  exists p2. split; [done|]. split; [lia|]. constructor; try done.
  - pose proof (Hoth2 Market ltac:(done)) as Hmh. simpl in Hmh. rewrite <-Hmh in Hch1.
    revert Hch1. apply chain_agree.
    intros m ?%seq_lt. apply Hag2. intros ?%seq_lt; lia.
  - apply NoDup_app. split_and!; [apply NoDup_seq| |apply NoDup_seq].
    intros m ?%seq_lt ?%seq_lt. lia.
  - intros n nd ?%seq_lt Hn. destruct (Hkinds _ _ Hn) as [_ ->]. apply bool_decide_false. lia.
  - intros n nd ?%seq_lt Hn. destruct (Hkinds _ _ Hn) as [_ ->]. apply bool_decide_true. lia.
Qed.

(** * Taking and releasing nodes *)

Lemma get_from_tc_nil {A} : get_from_tc ([] : list A) = (None, []).
Proof. done. Qed.

Lemma get_from_tc_snoc {A} (c : list A) (n : A) : get_from_tc (c ++ [n]) = (Some n, c).
Proof.
  unfold get_from_tc. rewrite length_app. simpl. rewrite decide_False by lia.
  replace (length c + 1 - 1)%nat with (length c) by lia.
  by rewrite list_lookup_middle, take_app_length by done.
Qed.

(** With an empty cache, nodes come from the market list, then from the
    collective list. *)
Lemma try_pop_nil p Lm Lc :
  pool_repr p Lm Lc ->
  match Lm ++ Lc with
  | [] => try_pop p [] = Some (None, p, [])
  | n :: _ => exists p' Lm' Lc', try_pop p [] = Some (Some n, p', []) /\
      _nodes p' = _nodes p /\ pool_repr p' Lm' Lc' /\ Lm ++ Lc = n :: Lm' ++ Lc'
  end.
Proof.
  intros H. unfold try_pop. rewrite get_from_tc_nil.
  pose proof (pop_one_node_spec Market p Lm Lc H) as Hm. simpl in Hm.
  destruct Lm as [|n Lm]; simpl.
  - rewrite Hm. pose proof (pop_one_node_spec Collective p [] Lc H) as Hc. simpl in Hc.
    destruct Lc as [|n Lc]; [by rewrite Hc|].
    destruct Hc as (p' & -> & ? & ?). by exists p', [], Lc.
  - destruct Hm as (p' & -> & ? & ?). by exists p', Lm, Lc.
Qed.

Lemma try_pop_n_spec k : forall p Lm Lc,
  pool_repr p Lm Lc ->
  exists p' Lm' Lc',
    try_pop_n k p [] =
      Some ((Some <$> take k (Lm ++ Lc)) ++ replicate (k - length (Lm ++ Lc)) None, p', []) /\
    pool_repr p' Lm' Lc' /\ Lm' ++ Lc' = drop k (Lm ++ Lc).
Proof.
  induction k as [|k IH]; intros p Lm Lc H.
  - exists p, Lm, Lc. split_and!; [|done|done]. by rewrite Nat.sub_0_l.
  - pose proof (try_pop_nil p Lm Lc H) as Hp. simpl.
    destruct (Lm ++ Lc) as [|n L] eqn:HL.
    + rewrite Hp. destruct (IH p Lm Lc H) as (p' & Lm' & Lc' & Hrun & Hr & Hd).
      rewrite HL in *. rewrite Hrun. exists p', Lm', Lc'. split_and!; [|done|].
      * simpl. by rewrite Nat.sub_0_r, take_nil.
      * by rewrite Hd, drop_nil.
    + destruct Hp as (p1 & Lm1 & Lc1 & -> & _ & H1 & HL1).
      destruct (IH p1 Lm1 Lc1 H1) as (p' & Lm' & Lc' & Hrun & Hr & Hd).
      injection HL1 as ->. rewrite Hrun. exists p', Lm', Lc'. by split_and!.
Qed.

(** * Handles *)

Lemma handle_resources_insert hs i a b :
  hs !! i = Some a ->
  handle_resources (<[i := b]> hs) ++ po_resources a ≡ₚ handle_resources hs ++ po_resources b.
Proof.
  intros Hi. unfold handle_resources.
  rewrite <-(take_drop_middle hs i a Hi) at 2.
  rewrite insert_take_drop by (by eapply lookup_lt_Some).
  rewrite !bind_app. simpl. solve_Permutation.
Qed.

Lemma po_resources_null : po_resources po_null = [].
Proof. done. Qed.

Lemma handle_resources_release hs i a :
  hs !! i = Some a ->
  po_resources a ++ handle_resources (<[i := po_null]> hs) ≡ₚ handle_resources hs.
Proof.
  intros Hi. pose proof (handle_resources_insert hs i a po_null Hi) as H.
  rewrite po_resources_null, app_nil_r in H. by rewrite Permutation_app_comm.
Qed.

Lemma handle_step_conserves o hs e hs' :
  handle_step o hs = Some (e, hs') -> e ++ handle_resources hs' ≡ₚ handle_resources hs.
Proof.
  destruct o as [i|i|i j|i j]; simpl; intros H; wz_run.
  - by apply handle_resources_release.
  - unfold handle_resources. rewrite bind_app. simpl. rewrite app_nil_r.
    rewrite Permutation_app_comm. destruct p. by apply (handle_resources_release hs i).
  - destruct (decide (i = j)) as [->|Hij].
    + simplify_eq. rewrite list_insert_insert_eq, list_insert_id; done.
    + pose proof (handle_resources_insert hs i p p0 ltac:(done)) as H1.
      pose proof (handle_resources_insert (<[i := p0]> hs) j p0 p
        ltac:(by rewrite list_lookup_insert_ne)) as H2.
      apply (Permutation_app_inv_r (po_resources p0)). by rewrite H2, H1.
  - case_decide as Hij; simplify_eq.
    + by apply handle_resources_release.
    + pose proof (handle_resources_insert hs i p p0 ltac:(done)) as H1.
      pose proof (handle_resources_insert (<[i := p0]> hs) j p0 po_null
        ltac:(by rewrite list_lookup_insert_ne)) as H2.
      rewrite po_resources_null, app_nil_r in H2.
      apply (Permutation_app_inv_r (po_resources p0)).
      change (match _ with true => _ | false => _ end) with (po_resources p).
      rewrite <-app_assoc, H2. by rewrite Permutation_app_comm, H1.
Qed.

(** * Properties *)

(** C36: a tagged index keeps its two fields: the index and the tag modulo 2^32
    are read back, distinct (index, tag) pairs below 2^32 give distinct values, and
    no node of a pool with fewer than 2^32 nodes is mistaken for [NULL_INDEX]. *)
Theorem tagged_index_roundtrip (i t : Z) :
  0 <= i < 2 ^ 32 ->
  get_index (make_tagged_index i t) = i /\
  get_tag (make_tagged_index i t) = t mod 2 ^ 32 /\
  (forall i' t', 0 <= t < 2 ^ 32 -> 0 <= i' < 2 ^ 32 -> 0 <= t' < 2 ^ 32 ->
     make_tagged_index i t = make_tagged_index i' t' -> i = i' /\ t = t') /\
  (i < 2 ^ 32 - 1 -> make_tagged_index i t <> NULL_INDEX).
Proof.
  intros Hi. split_and!.
  - by apply get_index_make.
  - by apply get_tag_make.
  - intros i' t' ? ? ?. by apply make_tagged_index_inj.
  - intros. apply make_tagged_index_not_null. lia.
Qed.

Lemma tagged_index_roundtrip_witness :
  get_index (make_tagged_index 5 (2 ^ 32 + 7)) = 5 /\
  get_tag (make_tagged_index 5 (2 ^ 32 + 7)) = 7.
Proof.
  destruct (tagged_index_roundtrip 5 (2 ^ 32 + 7)) as (H1 & H2 & _); [lia|].
  split; [exact H1|exact H2].
Defined.

(** The constructor of a pool of [num] nodes, [cnum] of them collective, puts
    every node in exactly one free list; taking [k] nodes with an empty thread
    cache then yields the market nodes in order, then the collective ones, and
    nothing more once all [num] are out. *)
Theorem init_then_pop_all num cnum k :
  Z.of_nat num < 2 ^ 32 -> (0 < cnum < num)%nat ->
  exists p p', init num cnum = Some p /\
    try_pop_n k p [] =
      Some ((Some <$> take k (seq cnum (num - cnum) ++ seq 0 cnum))
              ++ replicate (k - num) None, p', []).
Proof.
  intros Hnum Hc. destruct (init_repr num cnum Hnum Hc) as (p & Hinit & _ & Hr).
  destruct (try_pop_n_spec k p _ _ Hr) as (p' & _ & _ & Hrun & _ & _).
  exists p, p'. split; [done|]. rewrite Hrun, length_app, !length_seq.
  by replace (num - cnum + cnum)%nat with num by lia.
Qed.

Lemma init_then_pop_all_witness :
  exists p p', init 4 1 = Some p /\
    try_pop_n 5 p [] = Some ([Some 1%nat; Some 2%nat; Some 3%nat; Some 0%nat; None], p', []).
Proof.
  destruct (init_then_pop_all 4 1 5) as (p & p' & Hi & Hr); [lia..|].
  exists p, p'. split; [exact Hi|exact Hr].
Defined.

(** The constructor dereferences a null list head when one of the two kinds
    of nodes is empty, that is for [collective_num = 0] or
    [collective_num >= num]. *)
Theorem init_needs_both_kinds num cnum :
  Z.of_nat num < 2 ^ 32 -> (cnum = 0 \/ num <= cnum)%nat -> init num cnum = None.
Proof.
  intros Hnum Hc. unfold init.
  destruct (init_loop_inv num cnum num 0 (replicate num Node_default, ll_empty, ll_empty))
    as ([[nodes ml] cl] & -> & [Hlen Hok Hm Hcl Hkind]); [done|lia| |].
  { constructor; simpl; try done; [by rewrite length_replicate| |lia].
    split; [rewrite length_replicate; lia|]. intros; lia. }
  simpl in *. destruct Hc as [->|Hc].
  - replace (Nat.min num 0) with 0%nat in Hcl by lia. simpl in Hcl. subst cl.
    by destruct (push_into Market ml _).
  - replace (num - cnum)%nat with 0%nat in Hm by lia. simpl in Hm. by subst ml.
Qed.

Lemma init_needs_both_kinds_witness : init 10 0 = None /\ init 10 10 = None.
Proof. split; apply init_needs_both_kinds; lia. Defined.

(** C16: whatever releases, moves, swaps and move assignments are applied to a
    set of handles, what has been released so far together with what the handles
    still hold is what they held at the start: no node or object is released twice
    and none is forgotten. *)
Theorem handles_release_once os hs e hs' :
  handle_run os hs = Some (e, hs') ->
  e ++ handle_resources hs' ≡ₚ handle_resources hs.
Proof.
  revert hs e. induction os as [|o os IH]; intros hs e; simpl; intros H; wz_run; [done|].
  destruct p as [e1 hs1]. wz_run. destruct p as [e2 hs2]. simplify_eq.
  rewrite <-app_assoc, (IH hs1 e2) by done. by eapply handle_step_conserves.
Qed.

Lemma handles_release_once_witness :
  [ReleaseNode 3; DeleteObject 8] ++ handle_resources [po_null; po_null; po_null]
    ≡ₚ handle_resources [po_of_node 3 (Some 3%nat); po_of_object 8].
Proof.
  apply (handles_release_once [HMove 0; HAssign 2 1; HRelease 2]
    [po_of_node 3 (Some 3%nat); po_of_object 8]). reflexivity.
Defined.

(** Releasing a node destroys its object but taking the node again does not
    construct one: the next client gets a destroyed object, and its release would
    destroy it a second time (undefined for a type with a destructor). *)
Theorem released_object_is_reused :
  exists p, init 2 1 = Some p /\
  exists r1, try_pop p [] = Some r1 /\
  exists r2, release 10 false 1 (snd (fst r1)) (snd r1) = Some r2 /\
  exists r3, try_pop (fst r2) (snd r2) = Some r3 /\
    fst (fst r1) = Some 1%nat /\ fst (fst r3) = Some 1%nat /\
    _objects (snd (fst r3)) !! 1%nat = Some false /\
    release 10 false 1 (snd (fst r3)) (snd r3) = None.
Proof. wz_eval. split_and!; vm_compute; reflexivity. Qed.
