(* ===== verification/PoolConc.v ===== *)
(** The object pool of src/src/pool.h under concurrency.

    Every thread runs [get]/[release] of file Pool cut at its accesses to shared
    memory: a load of a list head, the read of a node's [next], the write of a
    node's [next], a compare-and-exchange of a head (which may fail spuriously, as
    [compare_exchange_weak] may).  Memory is sequentially consistent.  The theorems
    hold as long as no node has been pushed 2^32 times, the range of the tag that
    protects the heads from the ABA problem. *)
From S2P Require Import Prelude Pool.

(** * Threads and steps *)

Inductive PC :=
  | Idle
  (* [pop_one_node]: [old_head] is loaded *)
  | PopLoop (h : Head) (old : Z)
  (* the node and its [next] are read, the exchange is next *)
  | PopCas (h : Head) (old new : Z) (n : nat)
  (* [push_into]: about to write [list->tail->next] *)
  | PushLoop (h : Head) (l : LinkedList) (old new : Z)
  (* the exchange is next *)
  | PushCas (h : Head) (l : LinkedList) (old new : Z).

(** A thread: its control point, its thread cache and the nodes its clients
    hold. *)
Record Thread := mkThread { pc : PC; cache : list nat; held : list nat }.

Record State := mkState { pool : Pool; threads : list Thread }.

Section steps.
Context (TC_SIZE : nat) (trivial : bool).

(** The list a node that does not go to the thread cache is released to. *)
Definition home (nd : Node) : Head := if is_collective nd then Collective else Market.

Inductive tstep : Pool -> Thread -> Pool -> Thread -> Prop :=
  | t_get_local p c hd n c1 :
      get_from_tc c = (Some n, c1) ->
      tstep p (mkThread Idle c hd) p (mkThread Idle c1 (n :: hd))
  | t_get_market p c hd c1 :
      get_from_tc c = (None, c1) ->
      tstep p (mkThread Idle c hd) p (mkThread (PopLoop Market (get_head Market p)) c hd)
  | t_pop_empty_market p c hd :
      tstep p (mkThread (PopLoop Market NULL_INDEX) c hd)
            p (mkThread (PopLoop Collective (get_head Collective p)) c hd)
  | t_pop_empty_collective p c hd :
      tstep p (mkThread (PopLoop Collective NULL_INDEX) c hd) p (mkThread Idle c hd)
  | t_pop_read p h old n new c hd :
      old <> NULL_INDEX -> pop_read old p = Some (n, new) ->
      tstep p (mkThread (PopLoop h old) c hd) p (mkThread (PopCas h old new n) c hd)
  | t_pop_cas p h old new n c hd p' :
      head_cas h old new p = (true, p') ->
      tstep p (mkThread (PopCas h old new n) c hd) p' (mkThread Idle c (n :: hd))
  | t_pop_cas_fail p h old new n c hd :
      tstep p (mkThread (PopCas h old new n) c hd) p (mkThread (PopLoop h (get_head h p)) c hd)
  | t_release_local p n nd p1 c c1 hd hd' :
      hd ≡ₚ n :: hd' -> _nodes p !! n = Some nd -> destroy_object trivial nd p = Some p1 ->
      is_collective nd = false -> release_to_tc TC_SIZE c n = (true, c1) ->
      tstep p (mkThread Idle c hd) p1 (mkThread Idle c1 hd')
  | t_release_push p n nd p1 c hd hd' old new p2 :
      hd ≡ₚ n :: hd' -> _nodes p !! n = Some nd -> destroy_object trivial nd p = Some p1 ->
      (is_collective nd = true \/ fst (release_to_tc TC_SIZE c n) = false) ->
      push_into_begin (home nd) (ll_singleton n) p1 = Some (old, new, p2) ->
      tstep p (mkThread Idle c hd) p2 (mkThread (PushLoop (home nd) (ll_singleton n) old new) c hd')
  | t_push_link p h l old new c hd p' :
      push_into_link l old p = Some p' ->
      tstep p (mkThread (PushLoop h l old new) c hd) p' (mkThread (PushCas h l old new) c hd)
  | t_push_cas p h l old new c hd p' :
      head_cas h old new p = (true, p') ->
      tstep p (mkThread (PushCas h l old new) c hd) p' (mkThread Idle c hd)
  | t_push_cas_fail p h l old new c hd :
      tstep p (mkThread (PushCas h l old new) c hd)
            p (mkThread (PushLoop h l (get_head h p) new) c hd).

(** A step of the whole system is a step of thread [i]. *)
Definition step_of (i : nat) (s s' : State) : Prop :=
  exists th p' th', threads s !! i = Some th /\ tstep (pool s) th p' th' /\
    s' = mkState p' (<[i := th']> (threads s)).

Definition step (s s' : State) : Prop := exists i, step_of i s s'.

(** No tag has outgrown the 32 bits a tagged index keeps of it. *)
Definition tags_ok (s : State) : Prop :=
  forall n nd, _nodes (pool s) !! n = Some nd -> tag nd <= 2 ^ 32.

Definition bounded_step (s s' : State) : Prop := step s s' /\ tags_ok s'.

Definition initial (num cnum nthreads : nat) (s : State) : Prop :=
  exists p, init num cnum = Some p /\ s = mkState p (replicate nthreads (mkThread Idle [] [])).
End steps.

(** The nodes a thread is pushing, and all the nodes it has. *)
Definition pc_nodes (c : PC) : list nat :=
  match c with
  | PushLoop _ l _ _ | PushCas _ l _ _ => from_option (fun n => [n]) [] (ll_head l)
  | _ => []
  end.

Definition inflight (th : Thread) : list nat := pc_nodes (pc th).

Definition thread_nodes (th : Thread) : list nat := inflight th ++ cache th ++ held th.

(** * The invariant *)

(** [known]: a tag under which some thread saw node [n] in a list is older than
    every tag the node will be pushed under later. *)
Definition known (nodes : list Node) (pushing : list nat) (n : nat) (t : Z) : Prop :=
  exists nd, nodes !! n = Some nd /\ 0 <= t < tag nd /\ (n ∈ pushing -> t < tag nd - 1).

Definition pushed (nodes : list Node) (h : Head) (l : LinkedList) (new : Z) (n : nat) (nd : Node) :
    Prop :=
  l = ll_singleton n /\ nodes !! n = Some nd /\ is_collective nd = sel h false true /\
  1 <= tag nd /\ new = tok n nd.

Definition pc_ok (nodes : list Node) (Lm Lc pushing : list nat) (c : PC) : Prop :=
  match c with
  | Idle => True
  | PopLoop h old => old = NULL_INDEX \/
      exists n t, old = make_tagged_index (Z.of_nat n) t /\ known nodes pushing n t
  | PopCas h old new n => exists t, old = make_tagged_index (Z.of_nat n) t /\
      known nodes pushing n t /\
      (forall nd, nodes !! n = Some nd -> t = tag nd - 1 -> n ∈ sel h Lm Lc -> next nd = new)
  | PushLoop h l old new => exists n nd, pushed nodes h l new n nd
  | PushCas h l old new => exists n nd, pushed nodes h l new n nd /\ next nd = old
  end.

Record InvL (TC_SIZE num : nat) (p : Pool) (ths : list Thread) (Lm Lc : list nat) : Prop := {
  inv_nodes : nodes_ok (_nodes p);
  inv_length : length (_nodes p) = num;
  inv_market : chain (_nodes p) (_market_head p) Lm;
  inv_collective : chain (_nodes p) (_collective_head p) Lc;
  inv_places : Lm ++ Lc ++ (ths ≫= thread_nodes) ≡ₚ seq 0 num;
  inv_kind : forall n nd, _nodes p !! n = Some nd ->
    (n ∈ Lm -> is_collective nd = false) /\ (n ∈ Lc -> is_collective nd = true) /\
    (n ∈ (ths ≫= cache) -> is_collective nd = false);
  inv_cache : forall th, th ∈ ths -> (length (cache th) <= get_capacity TC_SIZE)%nat;
  inv_pc : forall th, th ∈ ths -> pc_ok (_nodes p) Lm Lc (ths ≫= inflight) (pc th)
}.

Definition Inv (TC_SIZE num : nat) (s : State) : Prop :=
  exists Lm Lc, InvL TC_SIZE num (pool s) (threads s) Lm Lc.

(** * Control points under a change of the nodes *)

(** A control point stays good when the nodes it is pushing are untouched, no tag
    decreases, and a node still in its list keeps its [next]. *)
Lemma pc_ok_change nodes nodes' Lm Lc Lm' Lc' pushing pushing' c :
  (forall n, n ∈ pc_nodes c -> nodes' !! n = nodes !! n) ->
  (forall n nd t, nodes !! n = Some nd -> 0 <= t < tag nd -> (n ∈ pushing -> t < tag nd - 1) ->
    exists nd', nodes' !! n = Some nd' /\ t < tag nd' /\ (n ∈ pushing' -> t < tag nd' - 1) /\
      (forall h, t = tag nd' - 1 -> n ∈ sel h Lm' Lc' ->
        tag nd' = tag nd /\ n ∈ sel h Lm Lc /\ next nd' = next nd)) ->
  pc_ok nodes Lm Lc pushing c -> pc_ok nodes' Lm' Lc' pushing' c.
Proof.
  intros Hown Hch. destruct c as [|h old|h old new n|h l old new|h l old new]; simpl; [done|..].
  - intros [->|(n & t & -> & nd & Hn & Ht & Hp)]; [by left|right].
    destruct (Hch n nd t Hn Ht Hp) as (nd' & Hn' & Ht' & Hp' & _).
    exists n, t. split; [done|]. exists nd'. split_and!; (done || lia).
  - intros (t & -> & (nd & Hn & Ht & Hp) & Hnext). exists t. split; [done|].
    destruct (Hch n nd t Hn Ht Hp) as (nd' & Hn' & Ht' & Hp' & Hsame). split.
    + exists nd'. split_and!; (done || lia).
    + intros nd2 Hn2 Ht2 Hin. simplify_eq. destruct (Hsame h) as (Htag & Hin0 & ->); [done..|].
      apply Hnext; [done|lia|done].
  - intros (n & nd & -> & Hn & ? & ? & ->). exists n, nd. split_and!; [done| |done..].
    simpl in Hown. by rewrite Hown by set_solver.
  - intros (n & nd & (-> & Hn & ? & ? & ->) & ?). exists n, nd.
    split; [split_and!; [done| |done..]|done].
    simpl in Hown. by rewrite Hown by set_solver.
Qed.

Section invariant.
Context {TC_SIZE num : nat}.
Implicit Types (p : Pool) (th : Thread) (ths rest : list Thread) (Lm Lc : list nat).

Lemma InvL_perm p ths ths' Lm Lc : ths ≡ₚ ths' -> InvL TC_SIZE num p ths Lm Lc -> InvL TC_SIZE num p ths' Lm Lc.
Proof.
  intros Hp [H1 H2 H3 H4 H5 H6 H7 H8]. split; [done..| | | |].
  - by rewrite <-Hp.
  - intros n nd Hn. rewrite <-Hp. by apply H6.
  - intros th. rewrite <-Hp. apply H7.
  - intros th Hin. rewrite <-Hp in Hin. eapply pc_ok_change; [done| |by apply H8].
    intros n nd t Hn Ht Hpu. exists nd. rewrite <-Hp. split_and!; [done|lia|done|done].
Qed.

(** The nodes of one thread are distinct from the lists' and the others'. *)
Lemma InvL_disjoint p th rest Lm Lc :
  InvL TC_SIZE num p (th :: rest) Lm Lc ->
  NoDup (Lm ++ Lc ++ thread_nodes th ++ (rest ≫= thread_nodes)).
Proof. intros H. rewrite (inv_places _ _ _ _ _ _ H : _ ≡ₚ _). apply NoDup_seq. Qed.

Lemma inflight_thread_nodes ths n : n ∈ ths ≫= inflight -> n ∈ ths ≫= thread_nodes.
Proof.
  rewrite !list_elem_of_bind. intros (th & ? & ?). exists th. split; [|done].
  unfold thread_nodes. set_solver.
Qed.

Lemma cache_thread_nodes ths n : n ∈ ths ≫= cache -> n ∈ ths ≫= thread_nodes.
Proof.
  rewrite !list_elem_of_bind. intros (th & ? & ?). exists th. split; [|done].
  unfold thread_nodes. set_solver.
Qed.

Lemma InvL_lookup p th rest Lm Lc n :
  InvL TC_SIZE num p (th :: rest) Lm Lc -> n ∈ thread_nodes th -> is_Some (_nodes p !! n).
Proof.
  intros H Hn. apply lookup_lt_is_Some.
  rewrite (inv_length _ _ _ _ _ _ H).
  assert (n ∈ seq 0 num) as ?%elem_of_seq; [|lia].
  rewrite <-(inv_places _ _ _ _ _ _ H). simpl. set_solver.
Qed.

(** A step that leaves the lists alone and only moves the thread's nodes. *)
Lemma InvL_local p p' th th' rest Lm Lc :
  InvL TC_SIZE num p (th :: rest) Lm Lc ->
  _nodes p' = _nodes p -> _market_head p' = _market_head p ->
  _collective_head p' = _collective_head p ->
  thread_nodes th' ≡ₚ thread_nodes th -> inflight th' = inflight th ->
  (forall n nd, _nodes p !! n = Some nd -> n ∈ cache th' -> n ∈ cache th \/ is_collective nd = false) ->
  (length (cache th') <= get_capacity TC_SIZE)%nat ->
  pc_ok (_nodes p) Lm Lc ((th :: rest) ≫= inflight) (pc th') ->
  InvL TC_SIZE num p' (th' :: rest) Lm Lc.
Proof.
  intros [H1 H2 H3 H4 H5 H6 H7 H8] Hn Hm Hc Hnodes Hfl Hcache Hlen Hpc.
  split; rewrite ?Hn, ?Hm, ?Hc; [done..| | | |].
  - simpl. by rewrite Hnodes.
  - intros n nd Hl. destruct (H6 n nd Hl) as (? & ? & Hk). split_and!; [done..|].
    simpl in *. intros [Hin|Hin]%elem_of_app; [|apply Hk; set_solver].
    destruct (Hcache n nd Hl Hin); [apply Hk; set_solver|done].
  - intros t [->|Hin]%elem_of_cons; [done|]. apply H7. by right.
  - simpl. rewrite Hfl. intros t [->|Hin]%elem_of_cons; [done|]. apply H8. by right.
Qed.

(** A step that only moves the control point. *)
Lemma InvL_pc p c c' ca hd rest Lm Lc :
  InvL TC_SIZE num p (mkThread c ca hd :: rest) Lm Lc -> pc_nodes c' = pc_nodes c ->
  pc_ok (_nodes p) Lm Lc ((mkThread c ca hd :: rest) ≫= inflight) c' ->
  InvL TC_SIZE num p (mkThread c' ca hd :: rest) Lm Lc.
Proof.
  intros H Hfl Hpc. eapply InvL_local; [exact H|done..| |done|by left| |done].
  - unfold thread_nodes, inflight. simpl. by rewrite Hfl.
  - apply (inv_cache _ _ _ _ _ _ H (mkThread c ca hd)). left.
Qed.

(** The control points of the other threads after a change of this thread's
    nodes. *)
Lemma InvL_others p nodes' th th' rest Lm Lc Lm' Lc' :
  InvL TC_SIZE num p (th :: rest) Lm Lc ->
  (forall m, m ∉ thread_nodes th -> nodes' !! m = _nodes p !! m) ->
  (forall n nd t, _nodes p !! n = Some nd -> 0 <= t < tag nd ->
    (n ∈ (th :: rest) ≫= inflight -> t < tag nd - 1) ->
    exists nd', nodes' !! n = Some nd' /\ t < tag nd' /\
      (n ∈ (th' :: rest) ≫= inflight -> t < tag nd' - 1) /\
      (forall h, t = tag nd' - 1 -> n ∈ sel h Lm' Lc' ->
        tag nd' = tag nd /\ n ∈ sel h Lm Lc /\ next nd' = next nd)) ->
  forall t, t ∈ rest -> pc_ok nodes' Lm' Lc' ((th' :: rest) ≫= inflight) (pc t).
Proof.
  intros H Hsame Hch t Ht. eapply pc_ok_change; [|exact Hch|].
  - intros m Hm. apply Hsame. intros Hm'.
    pose proof (InvL_disjoint _ _ _ _ _ H) as Hd.
    rewrite !NoDup_app in Hd. destruct Hd as (_ & _ & _ & _ & _ & Hd & _).
    apply (Hd m Hm'). apply inflight_thread_nodes, list_elem_of_bind. by exists t.
  - apply (inv_pc _ _ _ _ _ _ H). by right.
Qed.

Lemma InvL_kind_rest p th rest Lm Lc n nd :
  InvL TC_SIZE num p (th :: rest) Lm Lc -> _nodes p !! n = Some nd ->
  n ∈ cache th ++ (rest ≫= cache) -> is_collective nd = false.
Proof. intros H Hn. apply (inv_kind _ _ _ _ _ _ H n nd Hn). Qed.

(** [push_into] takes the node out of the client's hands and ages it. *)
Lemma InvL_push_begin p c hd hd' n nd rest Lm Lc old new p2 :
  InvL TC_SIZE num p (mkThread Idle c hd :: rest) Lm Lc -> hd ≡ₚ n :: hd' -> _nodes p !! n = Some nd ->
  push_into_begin (home nd) (ll_singleton n) p = Some (old, new, p2) ->
  (forall m md, _nodes p2 !! m = Some md -> tag md <= 2 ^ 32) ->
  InvL TC_SIZE num p2 (mkThread (PushLoop (home nd) (ll_singleton n) old new) c hd' :: rest) Lm Lc.
Proof.
  intros H Hhd Hn Hb Htags. set (th := mkThread Idle c hd) in *.
  unfold push_into_begin in Hb. cbn [ll_head ll_singleton] in Hb. rewrite Hn in Hb.
  injection Hb as <- <- <-.
  assert (Hnin : n ∈ thread_nodes th) by (unfold thread_nodes, th; simpl; rewrite Hhd; set_solver).
  pose proof (InvL_disjoint _ _ _ _ _ H) as Hd. rewrite !NoDup_app in Hd.
  destruct Hd as (_ & HdM & _ & HdC & _ & HdT & _).
  pose proof H as [H1 _ H3 H4 H5 H6 H7 H8].
  destruct (nodes_ok_lookup _ _ _ H1 Hn) as (Hidx & Htag & Hrng).
  set (nd' := mkNode (object nd) (next nd) (index nd) (u64 (tag nd + 1)) (is_collective nd)) in *.
  assert (Hlt : (n < length (_nodes p))%nat) by by eapply lookup_lt_Some.
  assert (tag nd' = tag nd + 1) as Htag' by (simpl; apply u64_small; lia).
  assert (tag nd' <= 2 ^ 32) by (apply (Htags n); simpl; by rewrite list_lookup_insert_eq).
  assert (index nd' = Z.of_nat n /\ is_collective nd' = is_collective nd) as [Hidx' Hkind'] by done.
  clearbody nd'.
  assert (n ∉ Lm) by (intros Hin; apply (HdM n Hin); set_solver).
  assert (n ∉ Lc) by (intros Hin; apply (HdC n Hin); set_solver).
  assert (Hkind : forall m md, <[n := nd']> (_nodes p) !! m = Some md ->
    exists md0, _nodes p !! m = Some md0 /\ is_collective md = is_collective md0).
  { intros m md. rewrite list_lookup_insert_Some. intros [(-> & <- & _)|[? Hm]]; eauto. }
  split; simpl.
  - apply nodes_ok_insert; [done..|lia].
  - rewrite length_insert. apply (inv_length _ _ _ _ _ _ H).
  - by apply chain_insert.
  - by apply chain_insert.
  - rewrite <-H5. simpl. unfold thread_nodes, inflight. simpl. rewrite Hhd. solve_Permutation.
  - intros m md Hm. destruct (Hkind m md Hm) as (md0 & Hm0 & ->). by apply H6.
  - intros t [->|Hin]%elem_of_cons; [apply (H7 th); left|apply H7; by right].
  - intros t [->|Hin]%elem_of_cons.
    + exists n, nd'. split_and!; [done|by rewrite list_lookup_insert_eq| |lia|].
      * rewrite Hkind'. unfold home. by destruct (is_collective nd).
      * unfold tok. rewrite Htag', Hidx. f_equal. lia.
    + eapply (InvL_others p _ th (mkThread (PushLoop (home nd) (ll_singleton n)
        (get_head (home nd) p) (make_tagged_index (index nd) (tag nd))) c hd'));
        [exact H|..|done].
      * intros m Hm. apply list_lookup_insert_ne. by intros <-.
      * intros m md t0 Hm Ht0 Hpu. destruct (decide (m = n)) as [->|Hne].
        -- simplify_eq. exists nd'. rewrite list_lookup_insert_eq by done. split_and!; [done|lia|lia|lia].
        -- exists md. rewrite list_lookup_insert_ne by done. split_and!; [done|lia| |done].
           intros [?|Hm']%elem_of_cons; [done|]. by apply Hpu.
Qed.

(** The write of the pushed node's [next]. *)
Lemma InvL_push_link p h l old new c hd rest Lm Lc p' :
  InvL TC_SIZE num p (mkThread (PushLoop h l old new) c hd :: rest) Lm Lc ->
  push_into_link l old p = Some p' ->
  InvL TC_SIZE num p' (mkThread (PushCas h l old new) c hd :: rest) Lm Lc.
Proof.
  intros H Hl. set (th := mkThread (PushLoop h l old new) c hd) in *.
  pose proof H as [H1 _ H3 H4 H5 H6 H7 H8].
  destruct (H8 th) as (n & nd & -> & Hn & Hk & Ht & Hnew); [left|].
  unfold push_into_link in Hl. simpl in Hl. rewrite Hn in Hl. simplify_eq.
  assert (Hnin : n ∈ thread_nodes th) by (unfold thread_nodes, th; simpl; set_solver).
  pose proof (InvL_disjoint _ _ _ _ _ H) as Hd. rewrite !NoDup_app in Hd.
  destruct Hd as (_ & HdM & _ & HdC & _ & HdT & _).
  destruct (nodes_ok_lookup _ _ _ H1 Hn) as (Hidx & Htag & Hrng).
  assert (Hlt : (n < length (_nodes p))%nat) by by eapply lookup_lt_Some.
  assert (n ∉ Lm) by (intros Hin; apply (HdM n Hin); set_solver).
  assert (n ∉ Lc) by (intros Hin; apply (HdC n Hin); set_solver).
  split; simpl.
  - apply nodes_ok_insert; [done..|simpl; lia].
  - rewrite length_insert. apply (inv_length _ _ _ _ _ _ H).
  - by apply chain_insert.
  - by apply chain_insert.
  - done.
  - intros m md. rewrite list_lookup_insert_Some. intros [(<- & <- & _)|[? Hm]]; [|by apply H6].
    by apply (H6 n nd).
  - intros t [->|Hin]%elem_of_cons; [apply (H7 th); left|apply H7; by right].
  - intros t [->|Hin]%elem_of_cons.
    + exists n, (set_next old nd). split; [|done]. split_and!; [done| |done..].
      by rewrite list_lookup_insert_eq.
    + eapply (InvL_others p _ th (mkThread (PushCas h (ll_singleton n) old (tok n nd)) c hd));
        [exact H|..|done].
      * intros m Hm. apply list_lookup_insert_ne. by intros <-.
      * intros m md t0 Hm Ht0 Hpu. destruct (decide (m = n)) as [->|Hne].
        -- rewrite Hn in Hm. injection Hm as <-.
           exists (set_next old nd). rewrite list_lookup_insert_eq by done.
           split_and!; [done|simpl; lia| |].
           ++ intros _. apply Hpu. by left.
           ++ intros h' _ Hin'. by destruct h'.
        -- exists md. rewrite list_lookup_insert_ne by done. split_and!; [done|lia|exact Hpu|done].
Qed.

Lemma head_cas_true h old new p p' :
  head_cas h old new p = (true, p') -> get_head h p = old /\ p' = set_head h new p.
Proof. unfold head_cas. intros. wz_if; by simplify_eq. Qed.

Lemma InvL_chain p ths Lm Lc h :
  InvL TC_SIZE num p ths Lm Lc -> chain (_nodes p) (get_head h p) (sel h Lm Lc).
Proof. intros [H1 H2 H3 H4 H5 H6 H7 H8]. by destruct h. Qed.

(** A successful exchange of [push_into] puts the node at the front of its list. *)
Lemma InvL_push_cas p h l old new c hd rest Lm Lc p' :
  InvL TC_SIZE num p (mkThread (PushCas h l old new) c hd :: rest) Lm Lc ->
  head_cas h old new p = (true, p') ->
  exists n, l = ll_singleton n /\
    InvL TC_SIZE num p' (mkThread Idle c hd :: rest) (sel h (n :: Lm) Lm) (sel h Lc (n :: Lc)).
Proof.
  intros H [Hold ->]%head_cas_true. set (th := mkThread (PushCas h l old new) c hd) in *.
  pose proof (InvL_chain _ _ _ _ h H) as Hch.
  pose proof H as [H1 _ H3 H4 H5 H6 H7 H8].
  destruct (H8 th) as (n & nd & (-> & Hn & Hk & Ht & Hnew) & Hnext); [left|].
  exists n. split; [done|].
  assert (Hch' : chain (_nodes p) new (n :: sel h Lm Lc)).
  { simpl. exists nd. by rewrite Hnext, <-Hold. }
  split; simpl; rewrite ?set_head_nodes; [done|apply (inv_length _ _ _ _ _ _ H)|..].
  - by destruct h.
  - by destruct h.
  - rewrite <-H5. unfold thread_nodes, inflight. destruct h; simpl; solve_Permutation.
  - intros m md Hm. destruct (H6 m md Hm) as (? & ? & ?). split_and!; [| |done].
    + destruct h; simpl; [|done]. intros [->|?]%elem_of_cons; [by simplify_eq|auto].
    + destruct h; simpl; [done|]. intros [->|?]%elem_of_cons; [by simplify_eq|auto].
  - intros t [->|Hin]%elem_of_cons; [apply (H7 th); left|apply H7; by right].
  - intros t [->|Hin]%elem_of_cons; [done|].
    eapply (InvL_others p (_nodes p) th (mkThread Idle c hd)); [exact H|done| |done].
    intros m md t0 Hm Ht0 Hpu. exists md. split_and!; [done|lia| |].
    + intros Hm'. apply Hpu. by right.
    + intros h' -> Hin'. split_and!; [done| |done].
      assert (m <> n) by (intros ->; lapply Hpu; [lia|by left]).
      destruct h, h'; simpl in *; set_solver.
Qed.

(** A successful exchange of [pop_one_node] removes the first node of the list:
    a matching head means that neither the node nor its [next] has changed. *)
Lemma InvL_pop_cas p h old new n c hd rest Lm Lc p' :
  InvL TC_SIZE num p (mkThread (PopCas h old new n) c hd :: rest) Lm Lc ->
  head_cas h old new p = (true, p') ->
  exists L, sel h Lm Lc = n :: L /\
    InvL TC_SIZE num p' (mkThread Idle c (n :: hd) :: rest) (sel h L Lm) (sel h Lc L).
Proof.
  intros H [Hold ->]%head_cas_true. set (th := mkThread (PopCas h old new n) c hd) in *.
  pose proof (InvL_chain _ _ _ _ h H) as Hch.
  pose proof H as [H1 _ H3 H4 H5 H6 H7 H8].
  destruct (H8 th) as (t & Htok & (nd & Hn & Ht & Hpu) & Hnext); [left|].
  destruct (nodes_ok_lookup _ _ _ H1 Hn) as (Hidx & Htag & Hrng).
  destruct (chain_not_null _ _ _ H1 Hch) as (n' & nd' & L & HL & Hn' & Ht' & Hh & Hch' & _).
  { rewrite Hold, Htok. apply make_tagged_index_not_null. lia. }
  destruct (nodes_ok_lookup _ _ _ H1 Hn') as (Hidx' & Htag' & Hrng').
  rewrite Hold, Htok in Hh. apply make_tagged_index_inj in Hh as [Hnn Htt]; [|lia..].
  apply Nat2Z.inj in Hnn as <-. simplify_eq. exists L. split; [done|].
  assert (next nd = new) as <-.
  { apply Hnext; [done..|]. rewrite HL. left. }
  assert (Hsub : forall h' m, m ∈ sel h' (sel h L Lm) (sel h Lc L) -> m ∈ sel h' Lm Lc).
  { intros h' m. destruct h, h'; simpl in *; rewrite ?HL; set_solver. }
  split; simpl; rewrite ?set_head_nodes; [done|apply (inv_length _ _ _ _ _ _ H)|..].
  - by destruct h.
  - by destruct h.
  - rewrite <-H5. unfold thread_nodes, inflight.
    destruct h; simpl in *; rewrite HL; simpl; solve_Permutation.
  - intros m md Hm. destruct (H6 m md Hm) as (Hk1 & Hk2 & ?). split_and!; [| |done].
    + intros Hin. apply Hk1, (Hsub Market m Hin).
    + intros Hin. apply Hk2, (Hsub Collective m Hin).
  - intros t [->|Hin]%elem_of_cons; [apply (H7 th); left|apply H7; by right].
  - intros t [->|Hin]%elem_of_cons; [done|].
    eapply (InvL_others p (_nodes p) th (mkThread Idle c (n :: hd))); [exact H|done| |done].
    intros m md t0 Hm Ht0 Hpu'. exists md. split_and!; [done|lia|exact Hpu'|].
    intros h' -> Hin'. split_and!; [done|by apply Hsub|done].
Qed.

Lemma destroy_object_lists trivial nd p p1 :
  destroy_object trivial nd p = Some p1 ->
  _nodes p1 = _nodes p /\ _market_head p1 = _market_head p /\
  _collective_head p1 = _collective_head p.
Proof. unfold destroy_object. intros. wz_if; simplify_eq; [done|]. wz_run. done. Qed.

Lemma get_from_tc_Some (c : list nat) n c1 : get_from_tc c = (Some n, c1) -> c = c1 ++ [n].
Proof.
  unfold get_from_tc. intros H. destruct (decide _); [discriminate H|].
  injection H as Hn <-. by rewrite <-(take_S_r c _ n Hn), take_ge by lia.
Qed.

Lemma get_from_tc_None (c : list nat) c1 : get_from_tc c = (None, c1) -> c = [].
Proof.
  unfold get_from_tc. intros H. destruct (decide _); [by destruct c; simpl in *; [|lia]|].
  injection H as Hn _. apply lookup_ge_None in Hn. lia.
Qed.

Lemma release_to_tc_true (c : list nat) n c1 :
  release_to_tc TC_SIZE c n = (true, c1) ->
  c1 = c ++ [n] /\ (length c < get_capacity TC_SIZE)%nat.
Proof. unfold release_to_tc. intros. by destruct (decide _); simplify_eq. Qed.

(** The token of a list head is known. *)
Lemma InvL_head_known p th rest Lm Lc h :
  InvL TC_SIZE num p (th :: rest) Lm Lc -> inflight th = [] ->
  pc_ok (_nodes p) Lm Lc ((th :: rest) ≫= inflight) (PopLoop h (get_head h p)).
Proof.
  intros H Hfl. pose proof (InvL_chain _ _ _ _ h H) as Hch.
  pose proof (InvL_disjoint _ _ _ _ _ H) as Hd. rewrite !NoDup_app in Hd.
  destruct Hd as (_ & HdM & _ & HdC & _).
  destruct (sel h Lm Lc) as [|n L] eqn:HL; [by left|right].
  destruct Hch as (nd & Hn & Ht & Hh & _). exists n, (tag nd - 1). split; [done|].
  exists nd. split_and!; [done|lia|lia|]. simpl. rewrite Hfl. simpl. intros Hin. exfalso.
  apply inflight_thread_nodes in Hin.
  destruct h; simpl in HL; subst; [apply (HdM n)|apply (HdC n)]; set_solver.
Qed.

(** Every step of a thread preserves the invariant. *)
Lemma tstep_InvL trivial p th p' th' rest Lm Lc :
  tstep TC_SIZE trivial p th p' th' -> InvL TC_SIZE num p (th :: rest) Lm Lc ->
  (forall m md, _nodes p' !! m = Some md -> tag md <= 2 ^ 32) ->
  exists Lm' Lc', InvL TC_SIZE num p' (th' :: rest) Lm' Lc'.
Proof.
  intros Hst H Htags.
  assert (Hlen : (length (cache th) <= get_capacity TC_SIZE)%nat)
    by (apply (inv_cache _ _ _ _ _ _ H); left).
  assert (Hpc : pc_ok (_nodes p) Lm Lc ((th :: rest) ≫= inflight) (pc th))
    by (apply (inv_pc _ _ _ _ _ _ H); left).
  destruct Hst as [p c hd n c1 ->%get_from_tc_Some|p c hd c1 Hc|p c hd|p c hd
    |p h old n new c hd Hold Hr|p h old new n c hd p' Hcas|p h old new n c hd
    |p n nd p1 c c1 hd hd' Hhd Hn Hde Hk [-> Hcap]%release_to_tc_true
    |p n nd p1 c hd hd' old new p2 Hhd Hn Hde Hk Hb|p h l old new c hd p' Hl
    |p h l old new c hd p' Hcas|p h l old new c hd]; simpl in Hlen.
  - exists Lm, Lc. eapply InvL_local; [exact H|done..|unfold thread_nodes; simpl; solve_Permutation
      |done|simpl; set_solver|rewrite length_app in Hlen; simpl in *; lia|done].
  - exists Lm, Lc. eapply InvL_pc; [exact H|done|].
    by apply (InvL_head_known p _ rest Lm Lc Market H).
  - exists Lm, Lc. eapply InvL_pc; [exact H|done|].
    by apply (InvL_head_known p _ rest Lm Lc Collective H).
  - exists Lm, Lc. by eapply InvL_pc.
  - exists Lm, Lc. eapply InvL_pc; [exact H|done|].
    destruct Hpc as [->|(m & t & -> & nd & Hm & Ht & Hpu)]; [done|].
    destruct (nodes_ok_lookup _ _ _ (inv_nodes _ _ _ _ _ _ H) Hm) as (_ & _ & ?).
    unfold pop_read in Hr. rewrite get_index_make, Nat2Z.id, Hm in Hr by lia. simplify_eq.
    exists t. split_and!; [done|by exists nd|]. intros. by simplify_eq.
  - destruct (InvL_pop_cas _ _ _ _ _ _ _ _ _ _ _ H Hcas) as (L & _ & ?). eauto.
  - exists Lm, Lc. eapply InvL_pc; [exact H|done|].
    by apply (InvL_head_known p _ rest Lm Lc h H).
  - destruct (destroy_object_lists _ _ _ _ Hde) as (Hn1 & Hm1 & Hc1).
    exists Lm, Lc. eapply InvL_local; [exact H|done..| |done| | |done].
    + unfold thread_nodes. simpl. rewrite Hhd. solve_Permutation.
    + intros m md Hm. simpl. intros [?| ->%list_elem_of_singleton]%elem_of_app; [by left|right].
      by simplify_eq.
    + simpl. rewrite length_app. simpl. lia.
  - destruct (destroy_object_lists _ _ _ _ Hde) as (Hn1 & Hm1 & Hc1).
    exists Lm, Lc. eapply InvL_push_begin; [|exact Hhd| |exact Hb|exact Htags].
    + eapply InvL_local; [exact H|done..|by left|done|done].
    + by rewrite Hn1.
  - exists Lm, Lc. by eapply InvL_push_link.
  - destruct (InvL_push_cas _ _ _ _ _ _ _ _ _ _ _ H Hcas) as (n & _ & ?). eauto.
  - exists Lm, Lc. eapply InvL_pc; [exact H|done|].
    destruct Hpc as (n & nd & ? & _). by exists n, nd.
Qed.
End invariant.

Lemma threads_split {A} (l : list A) i x y :
  l !! i = Some x -> l ≡ₚ x :: delete i l /\ <[i := y]> l ≡ₚ y :: delete i l.
Proof.
  intros Hi. split; [by apply delete_Permutation|].
  assert (i < length l)%nat by by eapply lookup_lt_Some.
  rewrite (delete_Permutation (<[i := y]> l) i y) by by apply list_lookup_insert_eq.
  by rewrite !delete_take_drop, take_insert_ge, drop_insert_lt by lia.
Qed.

Section reachability.
Context (TC_SIZE : nat) (trivial : bool) (num cnum nthreads : nat).
Context (Hnum : Z.of_nat num < 2 ^ 32) (Hcnum : (0 < cnum < num)%nat).

Lemma pool_initial_Inv s : initial num cnum nthreads s -> Inv TC_SIZE num s.
Proof using Hnum Hcnum.
  intros (p & Hinit & ->). destruct (init_repr num cnum Hnum Hcnum) as (p' & Hp' & Hlen & Hr).
  rewrite Hinit in Hp'. injection Hp' as <-. destruct Hr as [H1 H2 H3 H4 H5 H6].
  exists (seq cnum (num - cnum)), (seq 0 cnum). simpl.
  assert (Hnil : forall A (f : Thread -> list A), f (mkThread Idle [] []) = [] ->
    replicate nthreads (mkThread Idle [] []) ≫= f = []).
  { intros A f Hf. induction nthreads; simpl; [done|]. by rewrite Hf. }
  assert (Hin : forall th, th ∈ replicate nthreads (mkThread Idle [] []) -> th = mkThread Idle [] []).
  { intros th. rewrite elem_of_replicate. by intros [-> _]. }
  split; rewrite ?Hnil by done; try done.
  - rewrite app_nil_r, Permutation_app_comm, <-seq_app. by replace (cnum + (num - cnum))%nat with num by lia.
  - intros n nd Hn. split_and!; [eauto..|by intros ?%elem_of_nil].
  - intros th ->%Hin. simpl. lia.
  - by intros th ->%Hin.
Qed.

Lemma pool_step_Inv s s' :
  bounded_step TC_SIZE trivial s s' -> Inv TC_SIZE num s -> Inv TC_SIZE num s'.
Proof using.
  intros [(i & th & p' & th' & Hth & Hst & ->) Htags] (Lm & Lc & H). simpl in *.
  destruct (threads_split _ _ _ th' Hth) as [Hp Hp'].
  apply (InvL_perm _ _ _ _ _ Hp) in H.
  destruct (tstep_InvL _ _ _ _ _ _ _ _ Hst H Htags) as (Lm' & Lc' & H').
  exists Lm', Lc'. simpl. by eapply InvL_perm; [symmetry|].
Qed.

Lemma pool_reachable_Inv s :
  reachable (initial num cnum nthreads) (bounded_step TC_SIZE trivial) s -> Inv TC_SIZE num s.
Proof using Hnum Hcnum.
  revert s. apply reachable_invariant; [apply pool_initial_Inv|].
  intros. by eapply pool_step_Inv.
Qed.
End reachability.

(** * Solo runs *)

(** A run of one thread, on the pool and that thread. *)
Inductive solo (TC_SIZE : nat) (trivial : bool) : nat -> Pool -> Thread -> Pool -> Thread -> Prop :=
  | solo_done p th : solo TC_SIZE trivial 0 p th p th
  | solo_step k p th p1 th1 p2 th2 :
      tstep TC_SIZE trivial p th p1 th1 -> solo TC_SIZE trivial k p1 th1 p2 th2 ->
      solo TC_SIZE trivial (S k) p th p2 th2.

(** No control point is stuck: the node it is about to touch exists. *)
Definition can_touch (p : Pool) (c : PC) : Prop :=
  match c with
  | Idle | PopCas _ _ _ _ => True
  | PopLoop _ old => old = NULL_INDEX \/ is_Some (pop_read old p)
  | PushLoop _ l _ _ | PushCas _ l _ _ => exists n, l = ll_singleton n /\ is_Some (_nodes p !! n)
  end.

Definition heads_ok (p : Pool) : Prop := forall h, can_touch p (PopLoop h (get_head h p)).

Lemma pc_ok_can_touch p Lm Lc pushing c :
  nodes_ok (_nodes p) -> pc_ok (_nodes p) Lm Lc pushing c -> can_touch p c.
Proof.
  intros Hok. destruct c as [|h old|h old new n|h l old new|h l old new]; simpl; [done|..|done| |].
  - intros [->|(n & t & -> & nd & Hn & _)]; [by left|right].
    destruct (nodes_ok_lookup _ _ _ Hok Hn) as (_ & _ & ?).
    unfold pop_read. rewrite get_index_make, Nat2Z.id, Hn by lia. by eexists.
  - intros (n & nd & -> & Hn & _). eauto.
  - intros (n & nd & (-> & Hn & _) & _). eauto.
Qed.

Lemma chain_can_touch p h L h' :
  nodes_ok (_nodes p) -> chain (_nodes p) h L -> can_touch p (PopLoop h' h).
Proof.
  intros Hok Hc. destruct (decide (h = NULL_INDEX)) as [->|Hne]; [by left|right].
  destruct (chain_not_null _ _ _ Hok Hc Hne) as (n & nd & L' & _ & Hn & _ & _ & _ & Hi).
  unfold pop_read. rewrite Hi, Nat2Z.id, Hn. by eexists.
Qed.

Section solo.
Context (TC_SIZE : nat) (trivial : bool).
Let solo := solo TC_SIZE trivial.
Definition finishes (n : nat) (p : Pool) (th : Thread) : Prop :=
  exists k p' th', (k <= n)%nat /\ solo k p th p' th' /\ pc th' = Idle.

Lemma finishes_step n p th p' th' :
  tstep TC_SIZE trivial p th p' th' -> finishes n p' th' -> finishes (S n) p th.
Proof.
  intros ? (k & p2 & th2 & ? & ? & ?). exists (S k), p2, th2.
  split_and!; [lia|by eapply solo_step|done].
Qed.

Lemma finishes_mono n m p th : (n <= m)%nat -> finishes n p th -> finishes m p th.
Proof. intros ? (k & p2 & th2 & ? & ? & ?). exists k, p2, th2. split_and!; [lia|done..]. Qed.

Lemma finishes_idle p c hd : finishes 0 p (mkThread Idle c hd).
Proof. exists 0%nat, p, (mkThread Idle c hd). split_and!; [lia|apply solo_done|done]. Qed.

Lemma head_cas_refl h new p : head_cas h (get_head h p) new p = (true, set_head h new p).
Proof. unfold head_cas. by rewrite Z.eqb_refl. Qed.

Lemma finishes_pop_cas h new n p c hd :
  finishes 1 p (mkThread (PopCas h (get_head h p) new n) c hd).
Proof. eapply finishes_step; [apply t_pop_cas, head_cas_refl|apply finishes_idle]. Qed.

Lemma finishes_pop_read h p c hd :
  get_head h p <> NULL_INDEX -> can_touch p (PopLoop h (get_head h p)) ->
  finishes 2 p (mkThread (PopLoop h (get_head h p)) c hd).
Proof.
  intros Hne [?|[[n new] Hr]]; [done|].
  eapply finishes_step; [by apply t_pop_read|apply finishes_pop_cas].
Qed.

Lemma finishes_pop_fresh h p c hd :
  heads_ok p -> finishes 3 p (mkThread (PopLoop h (get_head h p)) c hd).
Proof.
  intros Hh. destruct (decide (get_head h p = NULL_INDEX)) as [Hn|Hn].
  - rewrite Hn. destruct h.
    + eapply finishes_step; [apply t_pop_empty_market|].
      destruct (decide (get_head Collective p = NULL_INDEX)) as [Hn'|Hn'].
      * rewrite Hn'. apply (finishes_mono 1); [lia|].
        eapply finishes_step; [apply t_pop_empty_collective|apply finishes_idle].
      * by apply finishes_pop_read.
    + apply (finishes_mono 1); [lia|].
      eapply finishes_step; [apply t_pop_empty_collective|apply finishes_idle].
  - apply (finishes_mono 2); [lia|]. by apply finishes_pop_read.
Qed.

Lemma finishes_push l h old new p n c hd :
  l = ll_singleton n -> is_Some (_nodes p !! n) -> get_head h p = old ->
  finishes 2 p (mkThread (PushLoop h l old new) c hd).
Proof.
  intros -> [nd Hn] <-. eapply finishes_step.
  - apply t_push_link. unfold push_into_link. simpl. by rewrite Hn.
  - eapply finishes_step; [|apply finishes_idle]. apply t_push_cas.
    unfold head_cas. by rewrite get_head_set_nodes, Z.eqb_refl.
Qed.

(** Left alone, a thread is back to [Idle] after at most five steps. *)
Lemma finishes_5 p th : heads_ok p -> can_touch p (pc th) -> finishes 5 p th.
Proof.
  intros Hh. destruct th as [[|h old|h old new n|h l old new|h l old new] c hd]; simpl.
  - intros _. apply (finishes_mono 0); [lia|apply finishes_idle].
  - intros [->|[[n new] Hr]].
    + apply (finishes_mono 4); [lia|]. destruct h.
      * eapply finishes_step; [apply t_pop_empty_market|by apply finishes_pop_fresh].
      * eapply finishes_step; [apply t_pop_empty_collective|].
        apply (finishes_mono 0); [lia|apply finishes_idle].
    + destruct (decide (old = NULL_INDEX)) as [->|Hne].
      { apply (finishes_mono 4); [lia|]. destruct h.
        - eapply finishes_step; [apply t_pop_empty_market|by apply finishes_pop_fresh].
        - eapply finishes_step; [apply t_pop_empty_collective|].
          apply (finishes_mono 0); [lia|apply finishes_idle]. }
      eapply finishes_step; [by apply t_pop_read|].
      eapply finishes_step; [apply t_pop_cas_fail|by apply finishes_pop_fresh].
  - intros _. apply (finishes_mono 4); [lia|].
    eapply finishes_step; [apply t_pop_cas_fail|by apply finishes_pop_fresh].
  - intros (n & -> & [nd Hn]). apply (finishes_mono 4); [lia|].
    eapply finishes_step; [apply t_push_link; unfold push_into_link; simpl; by rewrite Hn|].
    eapply finishes_step; [apply t_push_cas_fail|]. eapply finishes_push; [done| |done].
    simpl. rewrite list_lookup_insert_eq by (by eapply lookup_lt_Some). by eexists.
  - intros (n & -> & [nd Hn]). apply (finishes_mono 3); [lia|].
    eapply finishes_step; [apply t_push_cas_fail|].
    eapply finishes_push; [done|by eexists|done].
Qed.
End solo.

(** * Concrete runs *)

Lemma tags_ok_forallb s :
  forallb (fun nd => tag nd <=? 2 ^ 32) (_nodes (pool s)) = true -> tags_ok s.
Proof.
  intros H n nd Hn. rewrite forallb_forall in H. apply Z.leb_le, H.
  apply list_elem_of_In. by eapply list_elem_of_lookup_2.
Qed.

Lemma pool_reachable_tstep TC_SIZE trivial num cnum nthreads s i th p' th' :
  reachable (initial num cnum nthreads) (bounded_step TC_SIZE trivial) s ->
  threads s !! i = Some th -> tstep TC_SIZE trivial (pool s) th p' th' ->
  forallb (fun nd => tag nd <=? 2 ^ 32) (_nodes p') = true ->
  reachable (initial num cnum nthreads) (bounded_step TC_SIZE trivial)
    (mkState p' (<[i := th']> (threads s))).
Proof.
  intros Hr Hth Hst Htags. eapply reachable_step; [exact Hr|].
  split; [by exists i, th, p', th'|by apply tags_ok_forallb].
Qed.

(** Three nodes, node 0 collective, before any operation. *)
Definition demo_nodes : list Node :=
  [mkNode (Some 0%nat) NULL_INDEX 0 1 true; mkNode (Some 1%nat) (2 + 0 * 2 ^ 32) 1 1 false;
   mkNode (Some 2%nat) NULL_INDEX 2 1 false].
Definition demo_pool : Pool := mkPool demo_nodes 1 0 [true; true; true].

(** Two threads race for the market list: both have read its first node, thread 1
    has taken it, thread 0 is about to exchange. *)
Definition demo_race : State :=
  mkState (mkPool demo_nodes 2 0 [true; true; true])
    [mkThread (PopCas Market 1 2 1%nat) [] []; mkThread Idle [] [1%nat]].

Lemma demo_initial : initial 3 1 2 (mkState demo_pool (replicate 2 (mkThread Idle [] []))).
Proof. exists demo_pool. split; vm_compute; reflexivity. Qed.

Lemma demo_both_read :
  reachable (initial 3 1 2) (bounded_step 10 true)
    (mkState demo_pool [mkThread (PopCas Market 1 2 1%nat) [] []; mkThread (PopCas Market 1 2 1%nat) [] []]).
Proof.
  pose proof (reachable_init _ (bounded_step 10 true) _ demo_initial) as H0.
  pose proof (pool_reachable_tstep _ _ _ _ _ _ 0 _ _ _ H0 eq_refl
    (t_get_market _ _ demo_pool [] [] [] eq_refl) eq_refl) as H1.
  pose proof (pool_reachable_tstep _ _ _ _ _ _ 1 _ _ _ H1 eq_refl
    (t_get_market _ _ demo_pool [] [] [] eq_refl) eq_refl) as H2.
  pose proof (pool_reachable_tstep _ _ _ _ _ _ 0 _ _ _ H2 eq_refl
    (t_pop_read _ _ demo_pool Market 1 1%nat 2 [] [] ltac:(done) eq_refl) eq_refl) as H3.
  exact (pool_reachable_tstep _ _ _ _ _ _ 1 _ _ _ H3 eq_refl
    (t_pop_read _ _ demo_pool Market 1 1%nat 2 [] [] ltac:(done) eq_refl) eq_refl).
Qed.

Lemma demo_race_reachable :
  reachable (initial 3 1 2) (bounded_step 10 true) demo_race.
Proof.
  exact (pool_reachable_tstep _ _ _ _ _ _ 1 _ _ _ demo_both_read eq_refl
    (t_pop_cas _ _ demo_pool Market 1 2 1%nat [] [] _ eq_refl) eq_refl).
Qed.

Lemma thread_nodes_split ths :
  ths ≫= thread_nodes ≡ₚ (ths ≫= inflight) ++ (ths ≫= cache) ++ (ths ≫= held).
Proof.
  induction ths as [|th ths IH]; simpl; [done|].
  change (list_bind Thread nat thread_nodes ths) with (ths ≫= thread_nodes).
  rewrite IH. unfold thread_nodes. solve_Permutation.
Qed.

(** * Properties *)

(** C9: in every reachable state of any number of threads that get, release and
    push concurrently, each node of the pool is in exactly one place: the market
    list, the collective list, the hands of a thread that is pushing it, a thread
    cache or a client.  No node is lost and none is handed to two clients. *)
Theorem nodes_in_one_place TC_SIZE trivial num cnum nthreads s :
  Z.of_nat num < 2 ^ 32 -> (0 < cnum < num)%nat ->
  reachable (initial num cnum nthreads) (bounded_step TC_SIZE trivial) s ->
  exists Lm Lc,
    chain (_nodes (pool s)) (_market_head (pool s)) Lm /\
    chain (_nodes (pool s)) (_collective_head (pool s)) Lc /\
    Lm ++ Lc ++ (threads s ≫= thread_nodes) ≡ₚ seq 0 num /\
    NoDup (threads s ≫= held).
Proof.
  intros Hnum Hc Hr. destruct (pool_reachable_Inv _ _ _ _ _ Hnum Hc s Hr) as (Lm & Lc & H).
  exists Lm, Lc. pose proof H as [_ _ H3 H4 H5 _ _ _]. split_and!; [done..|].
  pose proof (NoDup_seq 0 num) as Hd.
  rewrite <-H5, thread_nodes_split, !NoDup_app in Hd. tauto.
Qed.

Lemma nodes_in_one_place_witness :
  exists Lm Lc,
    chain demo_nodes 2 Lm /\ chain demo_nodes 0 Lc /\
    Lm ++ Lc ++ (threads demo_race ≫= thread_nodes) ≡ₚ seq 0 3 /\
    NoDup (threads demo_race ≫= held).
Proof.
  apply (nodes_in_one_place 10 true 3 1 2 demo_race); [lia..|exact demo_race_reachable].
Defined.

(** C10: the exchanges are stack operations in spite of the reuse of nodes (ABA):
    in every reachable state, an exchange of [pop_one_node] that succeeds removes
    exactly the first node of the list the head stands for, the node the thread
    read before, and one of [push_into] adds the pushed node at the front. *)
Theorem exchanges_are_stack_operations TC_SIZE trivial num cnum nthreads s i c hd h old new p' :
  Z.of_nat num < 2 ^ 32 -> (0 < cnum < num)%nat ->
  reachable (initial num cnum nthreads) (bounded_step TC_SIZE trivial) s ->
  head_cas h old new (pool s) = (true, p') ->
  (forall n, threads s !! i = Some (mkThread (PopCas h old new n) c hd) ->
    exists L, chain (_nodes (pool s)) (get_head h (pool s)) (n :: L) /\
      chain (_nodes p') (get_head h p') L) /\
  (forall l, threads s !! i = Some (mkThread (PushCas h l old new) c hd) ->
    exists n L, l = ll_singleton n /\ chain (_nodes (pool s)) (get_head h (pool s)) L /\
      chain (_nodes p') (get_head h p') (n :: L)).
Proof.
  intros Hnum Hc Hr Hcas. destruct (pool_reachable_Inv _ _ _ _ _ Hnum Hc s Hr) as (Lm & Lc & H).
  split.
  - intros n Hi. destruct (threads_split _ _ _ (mkThread Idle [] []) Hi) as [Hp _].
    apply (InvL_perm _ _ _ _ _ Hp) in H as H'.
    destruct (InvL_pop_cas _ _ _ _ _ _ _ _ _ _ _ H' Hcas) as (L & HL & H2).
    exists L. rewrite <-HL. split; [by eapply InvL_chain|].
    pose proof (InvL_chain _ _ _ _ h H2) as Hch. by destruct h.
  - intros l Hi. destruct (threads_split _ _ _ (mkThread Idle [] []) Hi) as [Hp _].
    apply (InvL_perm _ _ _ _ _ Hp) in H as H'.
    destruct (InvL_push_cas _ _ _ _ _ _ _ _ _ _ _ H' Hcas) as (n & -> & H2).
    exists n, (sel h Lm Lc). split_and!; [done|by eapply InvL_chain|].
    pose proof (InvL_chain _ _ _ _ h H2) as Hch. by destruct h.
Qed.

Lemma exchanges_are_stack_operations_witness :
  exists L, chain demo_nodes 1 (1%nat :: L) /\ chain demo_nodes 2 L.
Proof.
  apply (proj1 (exchanges_are_stack_operations 10 true 3 1 2 _ 0 [] [] Market 1 2
    (set_head Market 2 demo_pool) ltac:(lia) ltac:(lia) demo_both_read eq_refl) 1%nat).
  reflexivity.
Defined.

(** In every reachable state the collective list holds only collective nodes,
    and the market list and the thread caches only market nodes, no cache beyond
    its capacity: a collective node always goes back to the list all threads
    share. *)
Theorem nodes_keep_their_kind TC_SIZE trivial num cnum nthreads s :
  Z.of_nat num < 2 ^ 32 -> (0 < cnum < num)%nat ->
  reachable (initial num cnum nthreads) (bounded_step TC_SIZE trivial) s ->
  exists Lm Lc,
    chain (_nodes (pool s)) (_market_head (pool s)) Lm /\
    chain (_nodes (pool s)) (_collective_head (pool s)) Lc /\
    (forall n nd, _nodes (pool s) !! n = Some nd ->
      (n ∈ Lc -> is_collective nd = true) /\
      (n ∈ Lm ++ (threads s ≫= cache) -> is_collective nd = false)) /\
    (forall th, th ∈ threads s -> (length (cache th) <= get_capacity TC_SIZE)%nat).
Proof.
  intros Hnum Hc Hr. destruct (pool_reachable_Inv _ _ _ _ _ Hnum Hc s Hr) as (Lm & Lc & H).
  exists Lm, Lc. pose proof H as [_ _ H3 H4 _ H6 H7 _]. split_and!; [done..| |done].
  intros n nd Hn. destruct (H6 n nd Hn) as (Hm & Hcol & Hca). split; [done|].
  intros [?|?]%elem_of_app; auto.
Qed.

Lemma nodes_keep_their_kind_witness :
  exists Lm Lc, chain demo_nodes 2 Lm /\ chain demo_nodes 0 Lc /\
    (forall n nd, demo_nodes !! n = Some nd -> (n ∈ Lc -> is_collective nd = true) /\
      (n ∈ Lm ++ [] -> is_collective nd = false)) /\
    (forall th, th ∈ threads demo_race -> (length (cache th) <= get_capacity 10)%nat).
Proof.
  apply (nodes_keep_their_kind 10 true 3 1 2 demo_race); [lia..|exact demo_race_reachable].
Defined.

(** The pool is obstruction free: from every reachable state, whatever the
    other threads have left half done, each thread can finish its current get or
    release alone in at most five of its steps. *)
Theorem thread_finishes_alone TC_SIZE trivial num cnum nthreads s i th :
  Z.of_nat num < 2 ^ 32 -> (0 < cnum < num)%nat ->
  reachable (initial num cnum nthreads) (bounded_step TC_SIZE trivial) s ->
  threads s !! i = Some th ->
  exists k p' th', (k <= 5)%nat /\ solo TC_SIZE trivial k (pool s) th p' th' /\ pc th' = Idle.
Proof.
  intros Hnum Hc Hr Hi. destruct (pool_reachable_Inv _ _ _ _ _ Hnum Hc s Hr) as (Lm & Lc & H).
  apply finishes_5.
  - intros h. eapply (chain_can_touch _ _ (sel h Lm Lc)); [apply H|by eapply InvL_chain].
  - eapply pc_ok_can_touch; [apply H|]. apply (inv_pc _ _ _ _ _ _ H).
    by eapply list_elem_of_lookup_2.
Qed.

Lemma thread_finishes_alone_witness :
  exists k p' th', (k <= 5)%nat /\
    solo 10 true k (pool demo_race) (mkThread (PopCas Market 1 2 1%nat) [] []) p' th' /\ pc th' = Idle.
Proof.
  apply (thread_finishes_alone 10 true 3 1 2 demo_race 0); [lia..|exact demo_race_reachable|reflexivity].
Defined.
