(* ===== verification/PoolAccess.v ===== *)
(** The object pool of src/src/pool.h with [USE_ACC = true]: the thread caches of several pools
    and threads, reached through the accessors of [push_local] and [try_pop_local].

    The free lists and the operations on one cache are those of Pool.v. Each pool keeps its
    caches in a vector indexed by thread identifiers. The vector is the interface [CacheVecOps]
    with [CacheVecLaws] (elements that do not move): pool.h names a class template with two
    arguments and does not include a header for it, and the vector of concurrent/vector.h,
    which takes one, is another class. The two accessors of a
    thread are [static thread_local], that is shared by all pools of one type. *)
From S2P Require Import Prelude Pool.

(** * The vector of caches *)

(** [ensure] returns the address of an element. *)
Class CacheVecOps (W : Type) := { cv_empty : W; cv_ensure : Z -> W -> nat * W }.

Class CacheVecLaws (W : Type) {VO : CacheVecOps W} := {
  cv_addr : W -> Z -> option nat;
  cv_empty_addr i : cv_addr cv_empty i = None;
  cv_ensure_addr i w : cv_addr (snd (cv_ensure i w)) i = Some (fst (cv_ensure i w));
  cv_ensure_stable i w j a : cv_addr w j = Some a -> cv_addr (snd (cv_ensure i w)) j = Some a;
  cv_ensure_other i w j : i <> j -> cv_addr (snd (cv_ensure i w)) j = cv_addr w j;
  cv_addr_inj w i j a : cv_addr w i = Some a -> cv_addr w j = Some a -> i = j
}.

(** Addresses in the order of first use. *)
Module FirstUse.
#[global] Instance ops : CacheVecOps (list Z) := {
  cv_empty := [];
  cv_ensure i w := match list_find (eq i) w with Some (a, _) => (a, w) | None => (length w, w ++ [i]) end
}.

Lemma find_app_other i j (w : list Z) : i <> j -> list_find (eq j) (w ++ [i]) = list_find (eq j) w.
Proof.
  intros Hne. destruct (list_find (eq j) w) as [[a x]|] eqn:E.
  - by apply list_find_app_l.
  - rewrite list_find_app_r by done. cbn. by rewrite decide_False.
Qed.

#[global] Instance laws : CacheVecLaws (list Z).
Proof.
  apply (Build_CacheVecLaws (list Z) ops (fun w i => fst <$> list_find (eq i) w)); cbn; [done| | | |].
  - intros i w. destruct (list_find (eq i) w) as [[a x]|] eqn:E; simpl; [by rewrite E|].
    rewrite list_find_app_r by done. cbn. rewrite decide_True by done. cbn. f_equal.
  - intros i w j a Hj. destruct (list_find (eq i) w) as [[b x]|] eqn:E; simpl; [done|].
    destruct (decide (i = j)) as [->|Hne]; [by rewrite E in Hj|]. by rewrite find_app_other.
  - intros i w j Hne. destruct (list_find (eq i) w) as [[b x]|]; simpl; [done|]. by rewrite find_app_other.
  - intros w i j a Hi Hj. apply fmap_Some in Hi as ((a1 & x) & Hi & ->). apply fmap_Some in Hj as ((a2 & y) & Hj & E).
    apply list_find_Some in Hi as (Hi & -> & _). apply list_find_Some in Hj as (Hj & -> & _).
    simpl in E. subst a2. congruence.
Defined.
End FirstUse.

Section access.
Context {W : Type} {VO : CacheVecOps W} (TC_SIZE : nat) (trivial : bool).

(** * Accessors *)

(** A pool with its caches; an element nobody has written to is an empty cache. *)
Record APool := mkAPool { pool : Pool; _caches : W; cells : gmap nat (list nat) }.

Definition cell (a : nat) (ap : APool) : list nat := default [] (cells ap !! a).

(** [_tid] is the thread's own. *)
Record ThreadCacheAccessor := mkAccessor { _cache : nat; _pool_id : Z }.

Definition ensure_cache (tid : Z) (ap : APool) : nat * APool :=
  let (a, v) := cv_ensure tid (_caches ap) in (a, mkAPool (pool ap) v (cells ap)).

Definition acc_ctor (tid id : Z) (ap : APool) : ThreadCacheAccessor * APool :=
  let (a, ap1) := ensure_cache tid ap in (mkAccessor a id, ap1).

Definition acc_get (tid id : Z) (acc : ThreadCacheAccessor) (ap : APool) : nat * ThreadCacheAccessor * APool :=
  if _pool_id acc =? id then (_cache acc, acc, ap)
  else let (a, ap1) := ensure_cache tid ap in (a, mkAccessor a id, ap1).

(** [static thread_local ThreadCacheAccessor acc( *this); acc.get( *this)]. *)
Definition local_cache (tid id : Z) (o : option ThreadCacheAccessor) (ap : APool) :
    nat * ThreadCacheAccessor * APool :=
  match o with
  | Some acc => acc_get tid id acc ap
  | None => let (acc, ap1) := acc_ctor tid id ap in acc_get tid id acc ap1
  end.

(** The pools by their [_id], [_s_next_id], and the accessors of [push_local] and of
    [try_pop_local] by thread. *)
Record World := mkWorld {
  apools : gmap Z APool;
  _s_next_id : Z;
  push_acc : gmap Z ThreadCacheAccessor;
  pop_acc : gmap Z ThreadCacheAccessor
}.

Inductive AOp :=
  | ACreate (num collective_num : nat) | ADestroy (id : Z)
  | ATryPop (tid id : Z) | ARelease (tid id : Z) (n : nat).

Open Scope wizard_scope.

(** What an operation of pool [id] on the cache at [a] leaves. *)
Definition store_cache (id : Z) (a : nat) (p : Pool) (c : list nat) (ap : APool) (w : World) : World :=
  mkWorld (<[id := mkAPool p (_caches ap) (<[a := c]> (cells ap))]> (apools w)) (_s_next_id w) (push_acc w) (pop_acc w).

Definition acc_try_pop (tid id : Z) (w : World) : option (option nat * World) :=
  ap <-? apools w !! id;
  let '(a, acc, ap1) := local_cache tid id (pop_acc w !! tid) ap in
  let w1 := mkWorld (apools w) (_s_next_id w) (push_acc w) (<[tid := acc]> (pop_acc w)) in
  r <-? try_pop (pool ap1) (cell a ap1);
  let '(n, p, c) := r in
  Some (n, store_cache id a p c ap1 w1).

(** Only nodes that are not collective reach [push_local]. *)
Definition acc_release (tid id : Z) (n : nat) (w : World) : option World :=
  ap <-? apools w !! id;
  nd <-? _nodes (pool ap) !! n;
  if is_collective nd then
    r <-? release TC_SIZE trivial n (pool ap) [];
    Some (mkWorld (<[id := mkAPool (fst r) (_caches ap) (cells ap)]> (apools w)) (_s_next_id w) (push_acc w) (pop_acc w))
  else
    let '(a, acc, ap1) := local_cache tid id (push_acc w !! tid) ap in
    let w1 := mkWorld (apools w) (_s_next_id w) (<[tid := acc]> (push_acc w)) (pop_acc w) in
    r <-? release TC_SIZE trivial n (pool ap1) (cell a ap1);
    Some (store_cache id a (fst r) (snd r) ap1 w1).

Definition acc_step (o : AOp) (w : World) : option (option nat * World) :=
  match o with
  | ACreate num cnum =>
      p <-? init num cnum;
      Some (None, mkWorld (<[_s_next_id w := mkAPool p cv_empty ∅]> (apools w)) (u64 (_s_next_id w + 1)) (push_acc w) (pop_acc w))
  | ADestroy id => Some (None, mkWorld (delete id (apools w)) (_s_next_id w) (push_acc w) (pop_acc w))
  | ATryPop tid id => acc_try_pop tid id w
  | ARelease tid id n => w1 <-? acc_release tid id n w; Some (None, w1)
  end.

Fixpoint acc_run (os : list AOp) (w : World) : option (list (option nat)) :=
  match os with
  | [] => Some []
  | o :: os => r <-? acc_step o w; rs <-? acc_run os (snd r); Some (fst r :: rs)
  end.

Definition acc_start : World := mkWorld ∅ 0 ∅ ∅.

(** * The specification: every pool has one cache per thread *)

Record Pools := mkPools { pools : gmap Z (Pool * gmap Z (list nat)); created : Z }.

Definition own_cache (tid : Z) (cs : gmap Z (list nat)) : list nat := default [] (cs !! tid).

Definition spec_step (o : AOp) (s : Pools) : option (option nat * Pools) :=
  match o with
  | ACreate num cnum =>
      p <-? init num cnum;
      Some (None, mkPools (<[created s := (p, ∅)]> (pools s)) (created s + 1))
  | ADestroy id => Some (None, mkPools (delete id (pools s)) (created s))
  | ATryPop tid id =>
      q <-? pools s !! id;
      r <-? try_pop (fst q) (own_cache tid (snd q));
      let '(n, p, c) := r in
      Some (n, mkPools (<[id := (p, <[tid := c]> (snd q))]> (pools s)) (created s))
  | ARelease tid id n =>
      q <-? pools s !! id;
      r <-? release TC_SIZE trivial n (fst q) (own_cache tid (snd q));
      Some (None, mkPools (<[id := (fst r, <[tid := snd r]> (snd q))]> (pools s)) (created s))
  end.

Fixpoint spec_run (os : list AOp) (s : Pools) : option (list (option nat)) :=
  match os with
  | [] => Some []
  | o :: os => r <-? spec_step o s; rs <-? spec_run os (snd r); Some (fst r :: rs)
  end.
Close Scope wizard_scope.
End access.

Arguments APool : clear implicits.
Arguments World : clear implicits.

(** * The accessors find the caller's cache *)

Section proofs.
Context {W : Type} {VO : CacheVecOps W} {VL : CacheVecLaws W} (TC_SIZE : nat) (trivial : bool).
Implicit Types (ap : APool W) (w : World W) (s : Pools).

Definition cache_at (tid : Z) ap : list nat :=
  match cv_addr (_caches ap) tid with Some a => cell a ap | None => [] end.

(** The vector of [ap] holds the caches [cs]. *)
Record Caches ap (cs : gmap Z (list nat)) : Prop := {
  ca_content : forall tid, cache_at tid ap = own_cache tid cs;
  ca_cells : forall a, is_Some (cells ap !! a) -> exists tid, cv_addr (_caches ap) tid = Some a
}.

Definition acc_ok (w : World W) (tid : Z) (acc : ThreadCacheAccessor) : Prop :=
  _pool_id acc < _s_next_id w /\
  forall ap, apools w !! _pool_id acc = Some ap -> cv_addr (_caches ap) tid = Some (_cache acc).

Record Rep w s : Prop := {
  re_next : _s_next_id w = created s /\ 0 <= created s;
  re_ids : forall id, is_Some (apools w !! id) -> id < created s;
  re_pools : forall id, option_Forall2 (fun ap q => pool ap = fst q /\ Caches ap (snd q)) (apools w !! id) (pools s !! id);
  re_push : forall tid acc, push_acc w !! tid = Some acc -> acc_ok w tid acc;
  re_pop : forall tid acc, pop_acc w !! tid = Some acc -> acc_ok w tid acc
}.

(** Ensuring an element adds an empty cache at most. *)
Lemma ensure_caches tid ap cs :
  Caches ap cs ->
  let r := ensure_cache tid ap in
  cv_addr (_caches (snd r)) tid = Some (fst r) /\ Caches (snd r) cs /\ pool (snd r) = pool ap /\
  forall j a, cv_addr (_caches ap) j = Some a -> cv_addr (_caches (snd r)) j = Some a.
Proof.
  intros [H1 H2]. unfold ensure_cache. destruct (cv_ensure tid (_caches ap)) as [a v] eqn:E. simpl.
  pose proof (cv_ensure_addr tid (_caches ap)) as Ha. pose proof (cv_ensure_stable tid (_caches ap)) as Hs.
  pose proof (cv_ensure_other tid (_caches ap)) as Ho. rewrite E in Ha, Hs, Ho. simpl in Ha, Hs, Ho.
  split_and!; [done| |done|done]. constructor; simpl.
  - intros j. rewrite <-H1. unfold cache_at. simpl. destruct (decide (tid = j)) as [<-|Hne]; [|by rewrite Ho].
    rewrite Ha. destruct (cv_addr (_caches ap) tid) as [b|] eqn:Eb.
    + rewrite (Hs _ _ Eb) in Ha. by injection Ha as ->.
    + unfold cell. simpl. destruct (cells ap !! a) as [c|] eqn:Ec; [|done].
      destruct (H2 a) as [j Hj]; [by exists c|]. pose proof (Hs _ _ Hj) as Hj'.
      rewrite (cv_addr_inj _ _ _ _ Ha Hj') in Eb. congruence.
  - intros b Hb. destruct (H2 b Hb) as [j Hj]. exists j. by apply Hs.
Qed.

Lemma local_cache_ok w tid id o ap cs :
  (forall acc, o = Some acc -> acc_ok w tid acc) -> apools w !! id = Some ap -> Caches ap cs ->
  let r := local_cache tid id o ap in
  let a := fst (fst r) in let acc := snd (fst r) in let ap1 := snd r in
  cv_addr (_caches ap1) tid = Some a /\ Caches ap1 cs /\ pool ap1 = pool ap /\ acc = mkAccessor a id /\
  forall j b, cv_addr (_caches ap) j = Some b -> cv_addr (_caches ap1) j = Some b.
Proof.
  intros Ho Hap Hcs. pose proof (ensure_caches tid ap cs Hcs) as He.
  unfold local_cache, acc_ctor, acc_get. destruct (ensure_cache tid ap) as [a ap1].
  destruct o as [acc|]; simpl in *.
  - destruct (Z.eqb_spec (_pool_id acc) id) as [E|E]; simpl.
    + destruct (Ho acc eq_refl) as [_ Hacc]. rewrite E in Hacc.
      split_and!; [by apply Hacc|done|done|destruct acc; simpl in *; by subst|done].
    + destruct He as (? & ? & ? & ?). done.
  - rewrite Z.eqb_refl. simpl. destruct He as (? & ? & ? & ?). done.
Qed.

Lemma store_caches a tid p c ap cs :
  Caches ap cs -> cv_addr (_caches ap) tid = Some a ->
  Caches (mkAPool p (_caches ap) (<[a := c]> (cells ap))) (<[tid := c]> cs).
Proof.
  intros [H1 H2] Ha. constructor; simpl.
  - intros j. unfold cache_at, own_cache, cell. simpl. destruct (decide (tid = j)) as [<-|Hne].
    + by rewrite Ha, !lookup_insert_eq.
    + rewrite (lookup_insert_ne cs) by done. fold (own_cache j cs). rewrite <-H1. unfold cache_at.
      destruct (cv_addr (_caches ap) j) as [b|] eqn:Eb; [|done]. unfold cell.
      rewrite lookup_insert_ne; [done|]. intros ->. by pose proof (cv_addr_inj _ _ _ _ Ha Eb).
  - intros b. destruct (decide (b = a)) as [->|Hne]; [by exists tid|].
    rewrite lookup_insert_ne by done. apply H2.
Qed.

(** Replacing one pool by one whose vector has grown keeps the accessors right. *)
Lemma acc_ok_store w w' id ap ap' tid acc :
  _s_next_id w' = _s_next_id w -> apools w' = <[id := ap']> (apools w) -> apools w !! id = Some ap ->
  (forall j b, cv_addr (_caches ap) j = Some b -> cv_addr (_caches ap') j = Some b) ->
  acc_ok w tid acc -> acc_ok w' tid acc.
Proof.
  intros Hn Ha Hid Hs [H1 H2]. split; [by rewrite Hn|]. rewrite Ha. intros ap2.
  destruct (decide (_pool_id acc = id)) as [E|Hne].
  - rewrite E in *. rewrite lookup_insert_eq. intros [= <-]. apply Hs, H2, Hid.
  - rewrite lookup_insert_ne by done. apply H2.
Qed.

Lemma Rep_store w s id ap ap' p cs pu po :
  Rep w s -> apools w !! id = Some ap -> pool ap' = p -> Caches ap' cs ->
  (forall j b, cv_addr (_caches ap) j = Some b -> cv_addr (_caches ap') j = Some b) ->
  (forall tid acc, pu !! tid = Some acc -> push_acc w !! tid = Some acc \/
     acc = mkAccessor (_cache acc) id /\ cv_addr (_caches ap') tid = Some (_cache acc)) ->
  (forall tid acc, po !! tid = Some acc -> pop_acc w !! tid = Some acc \/
     acc = mkAccessor (_cache acc) id /\ cv_addr (_caches ap') tid = Some (_cache acc)) ->
  Rep (mkWorld (<[id := ap']> (apools w)) (_s_next_id w) pu po) (mkPools (<[id := (p, cs)]> (pools s)) (created s)).
Proof.
  intros [H1 H2 H3 H4 H5] Hid Hp Hcs Hs Hpu Hpo.
  assert (Hlt : id < created s) by (apply H2; by exists ap).
  set (w' := mkWorld _ _ pu po).
  assert (Hnew : forall tid acc, acc = mkAccessor (_cache acc) id /\ cv_addr (_caches ap') tid = Some (_cache acc) ->
    acc_ok w' tid acc).
  { intros tid acc [E Ha]. rewrite E. split; simpl; [lia|]. rewrite lookup_insert_eq. by intros ap2 [= <-]. }
  constructor; simpl; [done| | | |].
  - intros j. destruct (decide (j = id)) as [->|Hne]; [done|]. rewrite lookup_insert_ne by done. apply H2.
  - intros j. destruct (decide (j = id)) as [->|Hne]; [|by rewrite !lookup_insert_ne].
    rewrite !lookup_insert_eq. by constructor.
  - intros tid acc [Ho|Ho]%Hpu; [|by apply Hnew]. eapply acc_ok_store; [| |done|done|by apply H4]; done.
  - intros tid acc [Ho|Ho]%Hpo; [|by apply Hnew]. eapply acc_ok_store; [| |done|done|by apply H5]; done.
Qed.

Lemma Rep_lookup w s id ap :
  Rep w s -> apools w !! id = Some ap -> exists cs, pools s !! id = Some (pool ap, cs) /\ Caches ap cs.
Proof.
  intros HR Hid. pose proof (re_pools _ _ HR id) as Hq. rewrite Hid in Hq.
  destruct (pools s !! id) as [[p cs]|]; [|by inversion Hq].
  assert (pool ap = p /\ Caches ap cs) as [<- ?] by (by inversion Hq). by exists cs.
Qed.

Lemma Rep_lookup_None w s id : Rep w s -> apools w !! id = None -> pools s !! id = None.
Proof. intros HR Hid. pose proof (re_pools _ _ HR id) as Hq. rewrite Hid in Hq. by inversion Hq. Qed.

Lemma Caches_touch ap cs tid : Caches ap cs -> Caches ap (<[tid := own_cache tid cs]> cs).
Proof.
  intros [H1 H2]. constructor; [|done]. intros j. rewrite H1. unfold own_cache.
  destruct (decide (tid = j)) as [<-|Hne]; [by rewrite lookup_insert_eq|by rewrite lookup_insert_ne].
Qed.

(** A collective node does not meet the cache. *)
Lemma release_collective n p c nd :
  _nodes p !! n = Some nd -> is_collective nd = true ->
  release TC_SIZE trivial n p c = match release TC_SIZE trivial n p [] with Some r => Some (fst r, c) | None => None end.
Proof.
  intros Hn Hc. unfold release. rewrite Hn, Hc. destruct (destroy_object trivial nd p); [|done].
  by destruct (push_one_node Collective n p0).
Qed.

Lemma own_cell tid a ap cs : Caches ap cs -> cv_addr (_caches ap) tid = Some a -> cell a ap = own_cache tid cs.
Proof. intros [H1 _] Ha. rewrite <-H1. unfold cache_at. by rewrite Ha. Qed.

(** A step and its specification return the same and stay related. *)
Definition simulates (s : Pools) (x : option (option nat * World W)) (y : option (option nat * Pools)) : Prop :=
  match x with
  | Some (r, w') => exists s', y = Some (r, s') /\ Rep w' s' /\ created s' <= created s + 1
  | None => y = None
  end.

Lemma create_refines w s p :
  Rep w s -> created s < 2 ^ 64 - 1 ->
  Rep (mkWorld (<[_s_next_id w := mkAPool p cv_empty ∅]> (apools w)) (u64 (_s_next_id w + 1)) (push_acc w) (pop_acc w))
    (mkPools (<[created s := (p, ∅)]> (pools s)) (created s + 1)).
Proof.
  intros [[H1 H1'] H2 H3 H4 H5] Hlt. set (w' := mkWorld _ _ _ _).
  assert (Hkeep : forall tid acc, acc_ok w tid acc -> acc_ok w' tid acc).
  { intros tid acc [A1 A2]. split; simpl; [rewrite u64_small; lia|]. rewrite lookup_insert_ne by lia. done. }
  constructor; simpl; [rewrite H1, u64_small; lia| | |by intros; apply Hkeep, H4|by intros; apply Hkeep, H5].
  - intros j. rewrite H1. destruct (decide (j = created s)) as [->|Hne]; [lia|].
    rewrite lookup_insert_ne by done. intros Hj%H2. lia.
  - intros j. rewrite H1. destruct (decide (j = created s)) as [->|Hne]; [|by rewrite !lookup_insert_ne].
    rewrite !lookup_insert_eq. constructor. split; [done|]. constructor; simpl.
    + intros tid. unfold cache_at. simpl. by rewrite cv_empty_addr.
    + intros a [? Ha]. by rewrite lookup_empty in Ha.
Qed.

Lemma destroy_refines w s id :
  Rep w s -> Rep (mkWorld (delete id (apools w)) (_s_next_id w) (push_acc w) (pop_acc w)) (mkPools (delete id (pools s)) (created s)).
Proof.
  intros [H1 H2 H3 H4 H5]. set (w' := mkWorld _ _ _ _).
  assert (Hkeep : forall tid acc, acc_ok w tid acc -> acc_ok w' tid acc).
  { intros tid acc [A1 A2]. split; [done|]. simpl. intros ap [_ Hap]%lookup_delete_Some. by apply A2. }
  constructor; simpl; [done| | |by intros; apply Hkeep, H4|by intros; apply Hkeep, H5].
  - intros j [ap [_ Hj]%lookup_delete_Some]. apply H2. by exists ap.
  - intros j. destruct (decide (j = id)) as [->|Hne]; [rewrite !lookup_delete_eq; constructor|by rewrite !lookup_delete_ne].
Qed.

Lemma try_pop_refines w s tid id :
  Rep w s -> simulates s (acc_try_pop tid id w) (spec_step TC_SIZE trivial (ATryPop tid id) s).
Proof.
  intros HR. unfold acc_try_pop, simulates. cbn [spec_step].
  destruct (apools w !! id) as [ap|] eqn:Hid; [|by rewrite (Rep_lookup_None w s id HR Hid)].
  destruct (Rep_lookup w s id ap HR Hid) as (cs & -> & Hcs). cbn [fst snd].
  pose proof (local_cache_ok w tid id (pop_acc w !! tid) ap cs (re_pop _ _ HR tid) Hid Hcs) as Hl.
  destruct (local_cache tid id (pop_acc w !! tid) ap) as [[a acc] ap1]. simpl in Hl.
  destruct Hl as (Ha & Hc1 & Hp & Hacc & Hst). rewrite Hp, (own_cell tid a ap1 cs Hc1 Ha).
  destruct (try_pop (pool ap) (own_cache tid cs)) as [[[r p] c]|]; [|done].
  eexists. split; [done|]. split; [|simpl; lia].
  apply (Rep_store w s id ap _ p _ _ _ HR Hid); [done|by apply store_caches|done|by left|].
  simpl. intros j acc' [[<- <-]|[_ Hj]]%lookup_insert_Some; [right; by rewrite Hacc|by left].
Qed.

Lemma release_refines w s tid id n :
  Rep w s -> simulates s (acc_step TC_SIZE trivial (ARelease tid id n) w) (spec_step TC_SIZE trivial (ARelease tid id n) s).
Proof.
  intros HR. cbn [acc_step spec_step]. unfold acc_release, simulates.
  destruct (apools w !! id) as [ap|] eqn:Hid; [|by rewrite (Rep_lookup_None w s id HR Hid)].
  destruct (Rep_lookup w s id ap HR Hid) as (cs & -> & Hcs). cbn [fst snd].
  destruct (_nodes (pool ap) !! n) as [nd|] eqn:Hn; [|by unfold release; rewrite Hn].
  destruct (is_collective nd) eqn:Hcol.
  - rewrite (release_collective _ _ (own_cache tid cs) nd Hn Hcol).
    destruct (release TC_SIZE trivial n (pool ap) []) as [r|]; [|done].
    eexists. split; [done|]. split; [|simpl; lia].
    apply (Rep_store w s id ap _ (fst r) _ _ _ HR Hid); [done| |done|by left|by left].
    apply Caches_touch. by destruct Hcs.
  - pose proof (local_cache_ok w tid id (push_acc w !! tid) ap cs (re_push _ _ HR tid) Hid Hcs) as Hl.
    destruct (local_cache tid id (push_acc w !! tid) ap) as [[a acc] ap1]. simpl in Hl.
    destruct Hl as (Ha & Hc1 & Hp & Hacc & Hst). rewrite Hp, (own_cell tid a ap1 cs Hc1 Ha).
    destruct (release TC_SIZE trivial n (pool ap) (own_cache tid cs)) as [[p c]|]; [|done].
    eexists. split; [done|]. split; [|simpl; lia].
    apply (Rep_store w s id ap _ p _ _ _ HR Hid); [done|by apply store_caches|done| |by left].
    simpl. intros j acc' [[<- <-]|[_ Hj]]%lookup_insert_Some; [right; by rewrite Hacc|by left].
Qed.

Lemma acc_step_refines o w s :
  Rep w s -> created s < 2 ^ 64 - 1 -> simulates s (acc_step TC_SIZE trivial o w) (spec_step TC_SIZE trivial o s).
Proof.
  intros HR Hlt. destruct o as [num cnum|id|tid id|tid id n].
  - cbn [acc_step spec_step]. destruct (init num cnum) as [p|]; [|done]. eexists. split; [done|].
    split; [by apply create_refines|simpl; lia].
  - cbn [acc_step spec_step]. eexists. split; [done|]. split; [by apply destroy_refines|simpl; lia].
  - by apply try_pop_refines.
  - by apply release_refines.
Qed.

Lemma acc_run_refines os : forall w s,
  Rep w s -> created s + Z.of_nat (length os) < 2 ^ 64 ->
  acc_run TC_SIZE trivial os w = spec_run TC_SIZE trivial os s.
Proof.
  induction os as [|o os IH]; intros w s HR Hlt; [done|]. simpl in Hlt. cbn [acc_run spec_run].
  pose proof (acc_step_refines o w s HR ltac:(lia)) as Hst. unfold simulates in Hst.
  destruct (acc_step TC_SIZE trivial o w) as [[r w']|]; [|by rewrite Hst].
  destruct Hst as (s' & -> & HR' & Hc). cbn [fst snd]. by rewrite (IH w' s' HR' ltac:(lia)).
Qed.

Lemma Rep_start : Rep (acc_start (W := W)) (mkPools ∅ 0).
Proof.
  constructor; simpl; [done| | | |].
  - intros id [? Hi]. by rewrite lookup_empty in Hi.
  - intros id. rewrite !lookup_empty. constructor.
  - intros tid acc Hi. by rewrite lookup_empty in Hi.
  - intros tid acc Hi. by rewrite lookup_empty in Hi.
Qed.
End proofs.

(** * Properties *)

(** C11: with accessors, pools do not share caches. Whatever pools of one type are made and
    destroyed, and whichever threads take nodes from them and give nodes back, every operation
    finds the cache of its own pool and its own thread, although a thread has one accessor for
    all pools: the results are those of pools with one cache per thread each. *)
Theorem accessors_keep_pools_apart {W} {VO : CacheVecOps W} {VL : CacheVecLaws W} TC_SIZE trivial os :
  Z.of_nat (length os) < 2 ^ 64 ->
  acc_run TC_SIZE trivial os (acc_start (W := W)) = spec_run TC_SIZE trivial os (mkPools ∅ 0).
Proof. intros Hlt. apply acc_run_refines; [apply Rep_start|done]. Qed.

(** Thread 7 uses two pools in turns. *)
Definition demo_ops : list AOp :=
  [ACreate 4 1; ACreate 4 1; ATryPop 7 0; ATryPop 7 1; ARelease 7 0 1; ATryPop 7 1; ATryPop 7 0;
   ARelease 7 1 2; ATryPop 9 1; ADestroy 0; ACreate 3 1; ATryPop 7 2; ATryPop 7 1].

Lemma accessors_keep_pools_apart_witness :
  acc_run 10 true demo_ops (acc_start (W := list Z)) = spec_run 10 true demo_ops (mkPools ∅ 0) /\
  spec_run 10 true demo_ops (mkPools ∅ 0) =
    Some [None; None; Some 1%nat; Some 1%nat; None; Some 2%nat; Some 1%nat; None; Some 3%nat; None; None; Some 1%nat; Some 2%nat].
Proof.
  split; [|vm_compute; reflexivity]. apply (accessors_keep_pools_apart (W := list Z)). simpl. lia.
Defined.
