(* ===== verification/BoundedQueue.v ===== *)
(** The bounded queue of src/src/concurrent/concurrent_bounded_queue.h with the
    futex of futex_interface.h.

    Each slot has a futex word whose low 16 bits are the slot's version: push
    number [i] waits for version [2 * (i / capacity)] of its slot, pop number [i]
    for the next one.  First the operations of one caller, then any number of
    threads as steps between shared accesses.  The slot's value type and what a
    moved-from value looks like are parameters. *)
From S2P Require Import Prelude Bits.

(** * Versions *)

Definition UINT16_MAX : Z := 65535.
Definition get_raw_version (tagged_version : Z) : Z := u16 tagged_version.
Definition make_tagged_version (version : Z) : Z := u32 (version + UINT16_MAX + 1).
Definition is_tagged_version (version : Z) : bool := UINT16_MAX <? version.

Section queue.
Context {A : Type} (default : A) (moved_from : A -> A).

Record Slot := mkSlot { value : A; futex : Z }.

Record Queue := mkQueue {
  _slots : list Slot;
  _capacity : Z;
  _round_bits : Z;
  _next_push_index : Z;
  _next_pop_index : Z
}.

Definition set_slots (sl : list Slot) (q : Queue) : Queue :=
  mkQueue sl (_capacity q) (_round_bits q) (_next_push_index q) (_next_pop_index q).

Definition set_indices (push pop : Z) (q : Queue) : Queue :=
  mkQueue (_slots q) (_capacity q) (_round_bits q) push pop.

Definition capacity (q : Queue) : Z := _capacity q.

Definition size (q : Queue) : Z :=
  if _next_pop_index q <? _next_push_index q
  then _next_push_index q - _next_pop_index q else 0.

Definition push_version_for_index (q : Queue) (index : Z) : Z :=
  u16 (u64 (Z.shiftl (Z.shiftr index (_round_bits q)) 1)).

Definition pop_version_for_index (q : Queue) (index : Z) : Z :=
  u16 (push_version_for_index q index + 1).

Definition expected_version (is_push : bool) (q : Queue) (index : Z) : Z :=
  if is_push then push_version_for_index q index else pop_version_for_index q index.

Definition slot_id (q : Queue) (index : Z) : Z := u32 (Z.land index (u64 (_capacity q - 1))).

(** [_next_push_index.fetch_add(1)] and [_next_pop_index.fetch_add(1)]. *)
Definition next_index (is_push : bool) (q : Queue) : Z :=
  if is_push then _next_push_index q else _next_pop_index q.

Definition fetch_add (is_push : bool) (q : Queue) : Z * Queue :=
  (next_index is_push q,
   if is_push then set_indices (u64 (_next_push_index q + 1)) (_next_pop_index q) q
   else set_indices (_next_push_index q) (u64 (_next_pop_index q + 1)) q).

(** The futex word of slot [id]: load, [compare_exchange], [exchange]. *)
Definition load_version (q : Queue) (id : Z) : option Z := futex <$> _slots q !! Z.to_nat id.

Definition set_version (id w : Z) (q : Queue) : Queue :=
  set_slots (alter (fun sl => mkSlot (value sl) w) (Z.to_nat id) (_slots q)) q.

Definition set_value (id : Z) (v : A) (q : Queue) : Queue :=
  set_slots (alter (fun sl => mkSlot v (futex sl)) (Z.to_nat id) (_slots q)) q.

(** The callbacks: [push] assigns the slot, [pop] of a reference moves it out, and those of
    [pop] of a pointer and of [clear] leave it ([Skip]): the pointer that is assigned there is
    the callee's copy of the argument. *)
Inductive Op := Push (v : A) | Pop | Skip.

Definition is_push (o : Op) : bool := match o with Push _ => true | _ => false end.

(** What a callback leaves in a slot that holds [v], and the value a consumer is shown. *)
Definition leaves (o : Op) (v : A) : A :=
  match o with Push v' => v' | Pop => moved_from v | Skip => v end.

Definition shown (o : Op) (v : A) : option A := if is_push o then None else Some v.

Definition callback (o : Op) (id : Z) (q : Queue) : option (option A * Queue) :=
  match _slots q !! Z.to_nat id with
  | Some sl => Some (shown o (value sl), set_value id (leaves o (value sl)) q)
  | None => None
  end.

(** * One caller *)

Open Scope wizard_scope.

(** [process] when nobody else moves: a caller whose version is not reached waits
    for ever ([None]). *)
Definition process (o : Op) (index : Z) (q : Queue) : option (option A * Queue) :=
  let expected := expected_version (is_push o) q index in
  let id := slot_id q index in
  cur <-? load_version q id;
  guard (get_raw_version cur =? expected);
  r <-? callback o id q;
  Some (fst r, set_version id (u16 (expected + 1)) (snd r)).

Definition run_op (o : Op) (q : Queue) : option (option A * Queue) :=
  let (index, q1) := fetch_add (is_push o) q in process o index q1.

Definition push (v : A) (q : Queue) : option Queue := r <-? run_op (Push v) q; Some (snd r).

Definition pop (q : Queue) : option (A * Queue) :=
  r <-? run_op Pop q;
  v <-? fst r;
  Some (v, snd r).

(** [pop] of a pointer, and [pop] with the callback of [clear]. *)
Definition pop_ptr (q : Queue) : option Queue := r <-? run_op Skip q; Some (snd r).

(** [clear]: pop while [size() > 0]; [fuel] bounds the rounds. *)
Fixpoint clear (fuel : nat) (q : Queue) : option Queue :=
  if 0 <? size q then
    match fuel with
    | O => None
    | S fuel => q1 <-? pop_ptr q; clear fuel q1
    end
  else Some q.

Definition SlotVector_init (capacity : Z) : list Slot := replicate (Z.to_nat capacity) (mkSlot default 0).

Definition reserve_and_clear (fuel : nat) (min_capacity : Z) (q : Queue) : option Queue :=
  new_capacity <-? nextPowTwo min_capacity;
  if new_capacity =? capacity q then clear fuel q
  else
    Some (mkQueue (SlotVector_init new_capacity) new_capacity
                  (builtin_popcount (u64 (new_capacity - 1))) 0 0).

(** The members' initial values, then the constructor. *)
Definition empty_queue : Queue := mkQueue [] 0 0 0 0.

Definition ConcurrentBoundedQueue (capacity : Z) : option Queue :=
  reserve_and_clear 0 capacity empty_queue.

(** * Threads *)

(** Between two shared accesses a caller is: about to load the word ([Load]), to
    tag it ([Cas]), to call [futex_wait] ([Wait]), asleep in the kernel
    ([Sleeping]), in front of its callback ([Ready]), of the exchange ([Advance]),
    or of [wake_all] ([Wake]). *)
Inductive PC :=
  | Load | Cas (cur : Z) | Wait (v : Z) | Sleeping (v : Z) | Ready | Advance | Wake.

Inductive Thread := Idle | Run (o : Op) (index : Z) (p : PC).

(** What happened: ticket [index] was taken by a push of [v], a pop with ticket
    [index] read [v], the exchange of an operation took place. *)
Inductive Event :=
  | Pushed (index : Z) (v : A)
  | Popped (index : Z) (v : A)
  | Advanced (is_push : bool) (index : Z).

Definition start_events (o : Op) (index : Z) : list Event :=
  match o with Push v => [Pushed index v] | _ => [] end.

Definition callback_events (index : Z) (r : option A) : list Event :=
  match r with Some v => [Popped index v] | None => [] end.

(** The test of the wait loop on a value just loaded. *)
Definition after_load (expected cur : Z) : PC :=
  if get_raw_version cur =? expected then Ready
  else if is_tagged_version cur then Wait cur else Cas cur.

(** The last component is the slot whose waiters [wake_all] wakes. *)
Inductive tstep : Queue -> Thread -> Queue -> Thread -> list Event -> option Z -> Prop :=
  | t_start q o index q' :
      fetch_add (is_push o) q = (index, q') ->
      tstep q Idle q' (Run o index Load) (start_events o index) None
  | t_load q o index cur :
      load_version q (slot_id q index) = Some cur ->
      tstep q (Run o index Load)
            q (Run o index (after_load (expected_version (is_push o) q index) cur)) [] None
  | t_cas q o index cur :
      load_version q (slot_id q index) = Some cur ->
      tstep q (Run o index (Cas cur))
            (set_version (slot_id q index) (make_tagged_version cur) q)
            (Run o index (Wait (make_tagged_version cur))) [] None
  | t_cas_fail q o index cur :
      tstep q (Run o index (Cas cur)) q (Run o index Load) [] None
  | t_wait q o index v :
      load_version q (slot_id q index) = Some v ->
      tstep q (Run o index (Wait v)) q (Run o index (Sleeping v)) [] None
  | t_wait_again q o index v cur :
      load_version q (slot_id q index) = Some cur -> cur <> v ->
      tstep q (Run o index (Wait v)) q (Run o index Load) [] None
  | t_interrupted q o index v :
      tstep q (Run o index (Sleeping v)) q (Run o index Load) [] None
  | t_callback q o index r q' :
      callback o (slot_id q index) q = Some (r, q') ->
      tstep q (Run o index Ready) q' (Run o index Advance) (callback_events index r) None
  | t_advance q o index old :
      load_version q (slot_id q index) = Some old ->
      tstep q (Run o index Advance)
            (set_version (slot_id q index) (u16 (expected_version (is_push o) q index + 1)) q)
            (if is_tagged_version old then Run o index Wake else Idle)
            [Advanced (is_push o) index] None
  | t_wake q o index :
      tstep q (Run o index Wake) q Idle [] (Some (slot_id q index)).

Definition wake (q : Queue) (id : option Z) (th : Thread) : Thread :=
  match th, id with
  | Run o index (Sleeping v), Some id =>
      if slot_id q index =? id then Run o index Load else th
  | _, _ => th
  end.

Record State := mkState { queue : Queue; threads : list Thread; trace : list Event }.

Definition step_of (k : nat) (s s' : State) : Prop :=
  exists th q' th' ev w, threads s !! k = Some th /\ tstep (queue s) th q' th' ev w /\
    s' = mkState q' (<[k := th']> (wake (queue s) w <$> threads s)) (trace s ++ ev).

(** Steps are followed as long as fewer than 2^64 operations have started. *)
Definition step (s s' : State) : Prop :=
  (exists k, step_of k s s') /\
  _next_push_index (queue s) < 2 ^ 64 - 1 /\ _next_pop_index (queue s) < 2 ^ 64 - 1.

Definition initial (b nthreads : nat) (s : State) : Prop :=
  exists q, ConcurrentBoundedQueue (2 ^ Z.of_nat b) = Some q /\
    s = mkState q (replicate nthreads Idle) [].
Close Scope wizard_scope.
End queue.

Arguments Thread : clear implicits.
Arguments Event : clear implicits.
Arguments State : clear implicits.
Arguments Queue : clear implicits.
Arguments Slot : clear implicits.

(** * Index arithmetic of a queue of capacity [2^b] *)

Section proofs.
Context {A : Type} (default : A) (moved_from : A -> A) (b : nat).
Implicit Types (q : Queue A) (s : State A) (th : Thread A) (o : Op (A := A)).

Definition cap : Z := 2 ^ Z.of_nat b.

(** The number of completed operations a slot must have seen before operation
    [index] may run. *)
Definition target (isp : bool) (index : Z) : Z := 2 * (index / cap) + (if isp then 0 else 1).

Record wf (q : Queue A) : Prop := {
  wf_bits : (b <= 32)%nat;
  wf_capacity : _capacity q = cap;
  wf_round_bits : _round_bits q = Z.of_nat b;
  wf_length : Z.of_nat (length (_slots q)) = cap;
  wf_push : 0 <= _next_push_index q < 2 ^ 64;
  wf_pop : 0 <= _next_pop_index q < 2 ^ 64
}.

Lemma cap_pos : 0 < cap.
Proof. unfold cap. lia. Qed.

Lemma cap_le q : wf q -> cap <= 2 ^ 32.
Proof. intros []. unfold cap. apply Z.pow_le_mono_r; lia. Qed.

Lemma slot_id_mod q i : wf q -> slot_id q i = i mod cap.
Proof.
  intros Hwf. pose proof (cap_le q Hwf). pose proof cap_pos. destruct Hwf as [? Hc _ _ _ _].
  unfold slot_id. rewrite Hc, u64_small by lia. unfold cap. rewrite land_pow2_mask by lia.
  fold cap. pose proof (Z.mod_pos_bound i cap). apply u32_small. lia.
Qed.

Lemma expected_version_target q isp i : wf q -> expected_version isp q i = u16 (target isp i).
Proof.
  intros [_ _ Hr _ _ _].
  assert (push_version_for_index q i = u16 (2 * (i / cap))) as Hp.
  { unfold push_version_for_index. rewrite Hr, Z.shiftr_div_pow2, Z.shiftl_mul_pow2 by lia.
    fold cap. unfold u16, u64. rewrite mod_mod_pow2 by lia. f_equal. lia. }
  unfold expected_version, pop_version_for_index, target. rewrite Hp.
  destruct isp; [by rewrite Z.add_0_r|]. unfold u16. by rewrite Z.add_mod_idemp_l by lia.
Qed.

Lemma target_inj isp i isp' i' :
  target isp i = target isp' i' -> i mod cap = i' mod cap -> isp = isp' /\ i = i'.
Proof.
  unfold target. intros Ht Hm. pose proof cap_pos.
  assert (i / cap = i' / cap /\ isp = isp') as [Hd ->] by (destruct isp, isp'; lia).
  split; [done|]. rewrite (Z.div_mod i cap), (Z.div_mod i' cap) by lia. congruence.
Qed.

Lemma target_back isp i m : target isp (i - m * cap) = target isp i - 2 * m.
Proof.
  unfold target. pose proof cap_pos.
  replace (i - m * cap) with (i + (- m) * cap) by lia. rewrite Z.div_add by lia. lia.
Qed.

Lemma mod_back i m : (i - m * cap) mod cap = i mod cap.
Proof.
  pose proof cap_pos. replace (i - m * cap) with (i + (- m) * cap) by lia.
  by rewrite Z.mod_add by lia.
Qed.

(** * Slots *)

Definition slot_at (q : Queue A) (i : Z) : option (Slot A) := _slots q !! Z.to_nat (i mod cap).

Lemma slot_at_Some q i : wf q -> is_Some (slot_at q i).
Proof.
  intros []. apply lookup_lt_is_Some_Z. pose proof (Z.mod_pos_bound i cap cap_pos). lia.
Qed.

Lemma load_version_eq q i : wf q -> load_version q (slot_id q i) = futex <$> slot_at q i.
Proof. intros Hwf. unfold load_version, slot_at. by rewrite slot_id_mod. Qed.

Lemma slot_nat_eq i i' :
  Z.to_nat (i mod cap) = Z.to_nat (i' mod cap) <-> i mod cap = i' mod cap.
Proof.
  pose proof (Z.mod_pos_bound i cap cap_pos). pose proof (Z.mod_pos_bound i' cap cap_pos). lia.
Qed.

Lemma slot_at_set_version q i i' w :
  wf q -> slot_at (set_version (slot_id q i) w q) i' =
    (if decide (i' mod cap = i mod cap) then (fun sl => mkSlot (value sl) w) <$> slot_at q i'
     else slot_at q i').
Proof.
  intros Hwf. unfold slot_at, set_version. simpl. rewrite slot_id_mod by done.
  destruct (decide _) as [He|Hne].
  - rewrite <-He. by rewrite list_lookup_alter_eq.
  - rewrite list_lookup_alter_ne; [done|]. by rewrite slot_nat_eq.
Qed.

Lemma slot_at_set_value q i i' v :
  wf q -> slot_at (set_value (slot_id q i) v q) i' =
    (if decide (i' mod cap = i mod cap) then (fun sl => mkSlot v (futex sl)) <$> slot_at q i'
     else slot_at q i').
Proof.
  intros Hwf. unfold slot_at, set_value. simpl. rewrite slot_id_mod by done.
  destruct (decide _) as [He|Hne].
  - rewrite <-He. by rewrite list_lookup_alter_eq.
  - rewrite list_lookup_alter_ne; [done|]. by rewrite slot_nat_eq.
Qed.

Lemma wf_set_version q id w : wf q -> wf (set_version id w q).
Proof. intros []. constructor; simpl; try done. by rewrite length_alter. Qed.

Lemma wf_set_value q id w : wf q -> wf (set_value id w q).
Proof. intros []. constructor; simpl; try done. by rewrite length_alter. Qed.

Lemma next_index_set_version isp id w q : next_index isp (set_version id w q) = next_index isp q.
Proof. by destruct isp. Qed.

Lemma next_index_set_value isp id v q : next_index isp (set_value id v q) = next_index isp q.
Proof. by destruct isp. Qed.

Lemma fetch_add_wf isp q i q' :
  wf q -> next_index isp q < 2 ^ 64 - 1 -> fetch_add isp q = (i, q') ->
  wf q' /\ _slots q' = _slots q /\ i = next_index isp q /\ 0 <= i /\
  next_index isp q' = i + 1 /\ next_index (negb isp) q' = next_index (negb isp) q.
Proof.
  intros [] Hlt Hf. unfold fetch_add in Hf. destruct isp; simpl in *; injection Hf as <- <-; simpl;
    rewrite !u64_small by lia; (split; [constructor; simpl; try done; try lia|]);
    (split_and!; done || lia).
Qed.

Lemma callback_slots o q i r q' :
  wf q -> callback moved_from o (slot_id q i) q = Some (r, q') ->
  wf q' /\ next_index true q' = next_index true q /\ next_index false q' = next_index false q /\
  exists sl, slot_at q i = Some sl /\
    r = shown o (value sl) /\ q' = set_value (slot_id q i) (leaves moved_from o (value sl)) q.
Proof.
  intros Hwf Hc. unfold callback in Hc. unfold slot_at. rewrite <-(slot_id_mod q) by done.
  destruct (_slots q !! _) as [sl|] eqn:Hsl; [|done].
  injection Hc as <- <-. split_and!; [by apply wf_set_value|done..|by exists sl].
Qed.

(** * Versions count the operations a slot has seen *)

Definition advanced_on (j : Z) (e : Event A) : bool :=
  match e with Advanced _ i => bool_decide (i mod cap = j) | _ => false end.

(** Completed operations on slot [j]. *)
Definition ver (tr : list (Event A)) (j : Z) : Z :=
  Z.of_nat (length (filter (fun e => advanced_on j e = true) tr)).

Lemma ver_nonneg tr j : 0 <= ver tr j.
Proof. unfold ver. lia. Qed.

Lemma ver_app tr ev j : ver (tr ++ ev) j = ver tr j + ver ev j.
Proof. unfold ver. rewrite filter_app, length_app. lia. Qed.

Lemma ver_advanced tr isp i j :
  ver (tr ++ [Advanced isp i]) j = ver tr j + (if decide (i mod cap = j) then 1 else 0).
Proof.
  rewrite ver_app. unfold ver at 2. rewrite filter_cons, filter_nil. simpl.
  destruct (decide (i mod cap = j)).
  - rewrite bool_decide_true by done. by rewrite decide_True.
  - rewrite bool_decide_false by done. by rewrite decide_False.
Qed.

(** The operation a thread has begun and not completed. *)
Definition active (th : Thread A) : option (bool * Z) :=
  match th with
  | Idle | Run _ _ Wake => None
  | Run o i _ => Some (is_push o, i)
  end.

Definition pc_ok (v t : Z) (p : PC) : Prop :=
  match p with
  | Load | Wake => True
  | Cas cur => 0 <= cur <= UINT16_MAX /\ u16 cur <> u16 t
  | Wait w | Sleeping w => w = u16 w + 2 ^ 16 /\ u16 w <> u16 t
  | Ready | Advance => v = t
  end.

Definition thread_ok (q : Queue A) (tr : list (Event A)) (th : Thread A) : Prop :=
  match th with
  | Idle => True
  | Run o i p => 0 <= i < next_index (is_push o) q /\
      (p <> Wake -> ver tr (i mod cap) <= target (is_push o) i) /\
      pc_ok (ver tr (i mod cap)) (target (is_push o) i) p
  end.

Definition word_ok (v w : Z) : Prop := w = u16 v \/ w = u16 v + 2 ^ 16.

Record Inv1 (q : Queue A) (ths : list (Thread A)) (tr : list (Event A)) : Prop := {
  inv_wf : wf q;
  inv_word : forall i sl, slot_at q i = Some sl -> word_ok (ver tr (i mod cap)) (futex sl);
  inv_thread : forall k th, ths !! k = Some th -> thread_ok q tr th;
  inv_unique : forall k k' th th' a, ths !! k = Some th -> ths !! k' = Some th' ->
    active th = Some a -> active th' = Some a -> k = k';
  inv_pending : forall isp i, 0 <= i < next_index isp q -> ver tr (i mod cap) <= target isp i ->
    exists k th, ths !! k = Some th /\ active th = Some (isp, i);
  inv_future : forall isp i, next_index isp q <= i -> ver tr (i mod cap) <= target isp i
}.

Lemma wake_active q w th : active (wake q w th) = active th.
Proof. destruct th as [|o i []], w; simpl; try done. by destruct (_ =? _). Qed.

Lemma wake_thread_ok q q0 w tr th : thread_ok q tr th -> thread_ok q tr (wake q0 w th).
Proof.
  destruct th as [|o i []], w as [id|]; simpl; try done.
  destruct (_ =? _); simpl; [|done]. intros (? & H & _). split_and!; [lia|lia|intros _; by apply H|done].
Qed.

Lemma Inv1_wake q ths tr q0 w : Inv1 q ths tr -> Inv1 q (wake q0 w <$> ths) tr.
Proof.
  intros [H1 H2 H3 H4 H5 H6]. constructor; [done..| | | |done].
  - intros k th. rewrite list_lookup_fmap. intros (th0 & Hk & ->)%fmap_Some.
    apply wake_thread_ok. by eapply H3.
  - intros k k' th th' a. rewrite !list_lookup_fmap.
    intros (th0 & Hk & ->)%fmap_Some (th0' & Hk' & ->)%fmap_Some. rewrite !wake_active. by eapply H4.
  - intros isp i Hi Hv. destruct (H5 isp i Hi Hv) as (k & th & Hk & Ha).
    exists k, (wake q0 w th). by rewrite list_lookup_fmap, Hk, wake_active.
Qed.

(** A change of one thread that begins and completes nothing. *)
Lemma Inv1_same q q' ths tr ev k th th' :
  Inv1 q ths tr -> ths !! k = Some th ->
  wf q' -> (forall isp, next_index isp q' = next_index isp q) ->
  (forall j, ver (tr ++ ev) j = ver tr j) ->
  (forall i sl, slot_at q' i = Some sl -> word_ok (ver tr (i mod cap)) (futex sl)) ->
  active th' = active th -> thread_ok q tr th' ->
  Inv1 q' (<[k := th']> ths) (tr ++ ev).
Proof.
  intros [H1 H2 H3 H4 H5 H6] Hk Hwf Hnext Hver Hword Hact Hth.
  assert (Hok : forall t, thread_ok q tr t -> thread_ok q' (tr ++ ev) t).
  { intros [|o i p]; simpl; [done|]. by rewrite Hver, Hnext. }
  assert (Hl : forall m t, <[k := th']> ths !! m = Some t ->
    exists t0, ths !! m = Some t0 /\ active t = active t0).
  { intros m t [(-> & <- & _)|[_ Hm]]%list_lookup_insert_Some; eauto. }
  constructor; [done| | | | |].
  - intros i sl Hsl. rewrite Hver. by apply Hword.
  - intros m t [(-> & <- & _)|[_ Hm]]%list_lookup_insert_Some; apply Hok; eauto.
  - intros m m' t t' a Hm Hm' Ha Ha'.
    destruct (Hl m t Hm) as (t0 & Hm0 & E0), (Hl m' t' Hm') as (t0' & Hm0' & E0').
    apply (H4 m m' t0 t0' a); congruence.
  - intros isp i. rewrite Hver, Hnext. intros Hi Hv.
    destruct (H5 isp i Hi Hv) as (m & t & Hm & Ha). destruct (decide (m = k)) as [->|Hne].
    + exists k, th'. rewrite list_lookup_insert_eq by (by eapply lookup_lt_Some).
      split; [done|congruence].
    + exists m, t. by rewrite list_lookup_insert_ne.
  - intros isp i. rewrite Hver, Hnext. apply H6.
Qed.

Lemma ver_no_advance tr ev j :
  (forall isp i, Advanced isp i ∉ ev) -> ver (tr ++ ev) j = ver tr j.
Proof.
  intros Hev. rewrite ver_app. cut (ver ev j = 0); [lia|].
  induction ev as [|e ev IH]; [done|]. unfold ver in *. rewrite filter_cons.
  destruct e as [? ?|? ?|isp i]; simpl;
    [apply IH; intros isp i Hin; apply (Hev isp i); by right..|].
  exfalso. apply (Hev isp i). left.
Qed.

Lemma start_no_advance o i isp i' : Advanced isp i' ∉ start_events (A := A) o i.
Proof. destruct o; simpl; set_solver. Qed.

Lemma callback_no_advance i r isp i' : Advanced isp i' ∉ callback_events (A := A) i r.
Proof. destruct r; simpl; set_solver. Qed.

(** A new operation takes the next ticket of its kind. *)
Lemma Inv1_start q q' ths tr o i k :
  Inv1 q ths tr -> ths !! k = Some Idle -> next_index (is_push o) q < 2 ^ 64 - 1 ->
  fetch_add (is_push o) q = (i, q') ->
  Inv1 q' (<[k := Run o i Load]> ths) (tr ++ start_events o i).
Proof.
  intros [H1 H2 H3 H4 H5 H6] Hk Hlt Hf.
  destruct (fetch_add_wf _ _ _ _ H1 Hlt Hf) as (Hwf & Hsl & -> & Hi0 & Hn & Hn').
  assert (Hver : forall j, ver (tr ++ start_events o (next_index (is_push o) q)) j = ver tr j)
    by (intros j; apply ver_no_advance, start_no_advance).
  assert (Hnext : forall isp, next_index isp q <= next_index isp q' /\
    next_index isp q' <= next_index isp q + 1 /\
    (next_index isp q < next_index isp q' -> isp = is_push o)).
  { intros isp. destruct isp, (is_push o); simpl in *; lia. }
  assert (Hold : forall m t a, ths !! m = Some t -> active t = Some a ->
    a <> (is_push o, next_index (is_push o) q)).
  { intros m t a Hm Ha ->. pose proof (H3 m t Hm) as Hok.
    destruct t as [|o2 i2 []]; simpl in *; try done; injection Ha as Hp Hi2;
      rewrite Hp in Hok; lia. }
  constructor; [done| | | | |].
  - intros j sl Hj. rewrite Hver. apply H2. unfold slot_at in *. by rewrite <-Hsl.
  - intros m t [(-> & <- & _)|[_ Hm]]%list_lookup_insert_Some.
    + simpl. rewrite Hver. split_and!; [lia|lia| |done]. intros _. by apply H6.
    + pose proof (H3 m t Hm) as Hok. destruct t as [|o2 i2 p2]; simpl in *; [done|].
      rewrite Hver. destruct Hok as (? & ? & ?). split_and!; [lia| |done..].
      pose proof (Hnext (is_push o2)). lia.
  - intros m m' t t' a Hm Hm' Ha Ha'.
    apply list_lookup_insert_Some in Hm as [(-> & <- & _)|[Hm1 Hm]];
      apply list_lookup_insert_Some in Hm' as [(-> & <- & _)|[Hm1' Hm']]; [done|..].
    + simpl in Ha. injection Ha as <-. by destruct (Hold _ _ _ Hm' Ha').
    + simpl in Ha'. injection Ha' as <-. by destruct (Hold _ _ _ Hm Ha).
    + by eapply H4.
  - intros isp j Hj Hv. rewrite Hver in Hv.
    destruct (decide (j < next_index isp q)) as [Hlt'|Hge].
    + destruct (H5 isp j ltac:(lia) Hv) as (m & t & Hm & Ha). exists m, t.
      rewrite list_lookup_insert_ne; [done|]. intros <-. rewrite Hk in Hm. by simplify_eq.
    + exists k, (Run o (next_index (is_push o) q) Load).
      rewrite list_lookup_insert_eq by (by eapply lookup_lt_Some). split; [done|].
      destruct (Hnext isp) as (Ha1 & Ha2 & Ha3). assert (isp = is_push o) as -> by (apply Ha3; lia). simpl.
      by replace j with (next_index (is_push o) q) by lia.
  - intros isp j Hj. rewrite Hver. apply H6. pose proof (Hnext isp). lia.
Qed.

(** An operation whose turn it is completes. *)
Lemma Inv1_advance q q' ths tr o i p th' k :
  Inv1 q ths tr -> ths !! k = Some (Run o i p) -> p <> Wake ->
  ver tr (i mod cap) = target (is_push o) i ->
  q' = set_version (slot_id q i) (u16 (target (is_push o) i + 1)) q ->
  th' = Run o i Wake \/ th' = Idle ->
  Inv1 q' (<[k := th']> ths) (tr ++ [Advanced (is_push o) i]).
Proof.
  intros [H1 H2 H3 H4 H5 H6] Hk Hp Hturn -> Hth'.
  assert (Hact : active (Run o i p) = Some (is_push o, i)) by (by destruct p).
  assert (Hact' : active th' = None) by (by destruct Hth' as [->| ->]).
  pose proof (H3 _ _ Hk) as Hrng. simpl in Hrng.
  (* nobody else is at the slot's current version *)
  assert (Hother : forall isp j, j mod cap = i mod cap -> (isp, j) <> (is_push o, i) ->
    target isp j <> ver tr (i mod cap)).
  { intros isp j Hj Hne Heq. apply Hne. rewrite Hturn in Heq.
    by destruct (target_inj _ _ _ _ Heq Hj) as [-> ->]. }
  assert (Hstay : forall m t a, m <> k -> ths !! m = Some t -> active t = Some a -> a <> (is_push o, i)).
  { intros m t a Hmk Hm Ha ->. apply Hmk. by eapply H4. }
  constructor; [by apply wf_set_version| | | | |].
  - intros j sl. rewrite slot_at_set_version, ver_advanced by done.
    destruct (decide (j mod cap = i mod cap)) as [He|Hne].
    + intros (sl0 & _ & ->)%fmap_Some. simpl. rewrite decide_True by done.
      rewrite He, Hturn. by left.
    + intros Hj. rewrite decide_False by done. rewrite Z.add_0_r. by apply H2.
  - intros m t [(-> & <- & _)|[Hmk Hm]]%list_lookup_insert_Some.
    + destruct Hth' as [->| ->]; simpl; [|done].
      rewrite next_index_set_version. split_and!; [lia|lia|done|done].
    + pose proof (H3 m t Hm) as Hok. destruct t as [|o2 i2 p2]; simpl in *; [done|].
      rewrite next_index_set_version, ver_advanced. destruct Hok as (Hi2 & Hv2 & Hp2). split_and!; [lia|lia|..].
      * intros Hw. specialize (Hv2 Hw). destruct (decide _) as [He|]; [|lia].
        rewrite <-He in Hv2 |- *.
        assert (target (is_push o2) i2 <> ver tr (i mod cap)); [|lia].
        apply Hother; [done|]. eapply (Hstay m); [done|exact Hm|]. by destruct p2.
      * destruct (decide _) as [He|]; [|by rewrite Z.add_0_r].
        destruct p2; simpl in *; try done; exfalso;
          (eapply Hother; [symmetry; exact He| |rewrite He; symmetry; exact Hp2]);
          by eapply (Hstay m).
  - intros m m' t t' a Hm Hm' Ha Ha'.
    apply list_lookup_insert_Some in Hm as [(-> & <- & _)|[Hm1 Hm]];
      apply list_lookup_insert_Some in Hm' as [(-> & <- & _)|[Hm1' Hm']];
      [done|congruence|congruence|by eapply H4].
  - intros isp j Hj Hv. rewrite ver_advanced in Hv. destruct (H5 isp j) as (m & t & Hm & Ha).
    + by rewrite next_index_set_version in Hj.
    + destruct (decide _); lia.
    + exists m, t. rewrite list_lookup_insert_ne; [done|]. intros <-.
      rewrite Hk in Hm. injection Hm as <-. rewrite Hact in Ha. injection Ha as <- <-.
      rewrite decide_True in Hv by done. lia.
  - intros isp j Hj. rewrite ver_advanced.
    rewrite next_index_set_version in Hj. rename Hj into Hj'.
    pose proof (H6 isp j Hj') as Hle. destruct (decide _) as [He|]; [|lia].
    rewrite <-He in Hle |- *. assert (target isp j <> ver tr (i mod cap)); [|lia].
    apply Hother; [done|]. intros [= -> ->]. lia.
Qed.

(** * Few threads cannot be many laps apart *)

Definition actives (ths : list (Thread A)) : list (bool * Z) := omap active ths.

Lemma elem_of_actives ths a :
  a ∈ actives ths <-> exists k th, ths !! k = Some th /\ active th = Some a.
Proof.
  unfold actives. rewrite list_elem_of_omap. split.
  - intros (th & (k & Hk)%list_elem_of_lookup & Ha). eauto.
  - intros (k & th & Hk & Ha). exists th. split; [by eapply list_elem_of_lookup_2|done].
Qed.

Lemma length_actives ths : (length (actives ths) <= length ths)%nat.
Proof.
  induction ths as [|th ths IH]; [done|]. unfold actives in *. csimpl.
  destruct (active th); csimpl; lia.
Qed.

(** The operations of a kind between a slot's version and an active operation are
    all active, each in a thread of its own. *)
Lemma lap_bound q ths tr isp i :
  Inv1 q ths tr -> 0 <= i < next_index isp q -> target isp i < ver tr (i mod cap) + 2 * Z.of_nat (length ths).
Proof.
  intros H Hi. destruct (Z.lt_ge_cases (target isp i) (ver tr (i mod cap) + 2 * Z.of_nat (length ths)))
    as [|Hge]; [done|exfalso].
  set (f := fun m : nat => (isp, i - Z.of_nat m * cap)).
  assert (Hsub : forall a, a ∈ f <$> seq 0 (S (length ths)) -> a ∈ actives ths).
  { intros a (m & -> & Hm%elem_of_seq)%list_elem_of_fmap. apply elem_of_actives.
    apply (inv_pending _ _ _ H).
    - pose proof cap_pos. split; [|nia].
      pose proof (ver_nonneg tr (i mod cap)).
      assert (Z.of_nat m <= i / cap) by (unfold target in Hge; destruct isp; lia).
      pose proof (Z.mul_div_le i cap). nia.
    - rewrite mod_back, target_back. lia. }
  assert (Hnd : NoDup (f <$> seq 0 (S (length ths)))).
  { apply NoDup_fmap_2; [|apply NoDup_seq]. intros m m' [= Hm].
    pose proof cap_pos. nia. }
  pose proof (submseteq_length _ _ (NoDup_submseteq _ _ Hnd Hsub)) as Hlen.
  rewrite length_fmap, length_seq in Hlen. pose proof (length_actives ths). lia.
Qed.

(** With at most 2^15 threads equal 16-bit versions are equal versions. *)
Lemma raw_version_exact q ths tr isp i :
  Inv1 q ths tr -> (Z.of_nat (length ths) <= 2 ^ 15) -> 0 <= i < next_index isp q ->
  ver tr (i mod cap) <= target isp i ->
  u16 (ver tr (i mod cap)) = u16 (target isp i) -> ver tr (i mod cap) = target isp i.
Proof.
  intros H Hlen Hi Hle Heq. pose proof (lap_bound _ _ _ _ _ H Hi) as Hb.
  unfold u16 in Heq.
  assert ((target isp i - ver tr (i mod cap)) mod 2 ^ 16 = 0) as Hm.
  { rewrite Zminus_mod, Heq, Z.sub_diag. done. }
  rewrite Z.mod_small in Hm by lia. lia.
Qed.

Lemma u16_idem x : u16 (u16 x) = u16 x.
Proof. unfold u16. by rewrite Z.mod_mod. Qed.

Lemma u16_tagged x : u16 (u16 x + 2 ^ 16) = u16 x.
Proof.
  unfold u16. replace (x mod 2 ^ 16 + 2 ^ 16) with (x mod 2 ^ 16 + 1 * 2 ^ 16) by lia.
  by rewrite Z.mod_add, Z.mod_mod.
Qed.

Lemma word_raw v w : word_ok v w -> get_raw_version w = u16 v.
Proof. unfold get_raw_version. intros [->| ->]; [apply u16_idem|apply u16_tagged]. Qed.

Lemma word_tagged v w : word_ok v w -> is_tagged_version w = true -> w = u16 v + 2 ^ 16.
Proof.
  unfold is_tagged_version, UINT16_MAX. intros [->| ->] Ht; [|done]. wz_bool.
  pose proof (u16_range v). lia.
Qed.

Lemma word_untagged v w : word_ok v w -> is_tagged_version w = false -> w = u16 v.
Proof.
  unfold is_tagged_version, UINT16_MAX. intros [->| ->] Ht; [done|]. wz_bool.
  pose proof (u16_range v). lia.
Qed.

Lemma u16_u16_add x : u16 (u16 x + 1) = u16 (x + 1).
Proof. unfold u16. by rewrite Z.add_mod_idemp_l. Qed.

Lemma make_tagged_eq x : 0 <= x <= UINT16_MAX -> make_tagged_version x = x + 2 ^ 16.
Proof. unfold make_tagged_version, UINT16_MAX. intros. rewrite u32_small; lia. Qed.

(** The word of a slot is loaded. *)
Lemma Inv1_load q ths tr k o i cur :
  Inv1 q ths tr -> (Z.of_nat (length ths) <= 2 ^ 15) -> ths !! k = Some (Run o i Load) ->
  word_ok (ver tr (i mod cap)) cur ->
  Inv1 q (<[k := Run o i (after_load (expected_version (is_push o) q i) cur)]> ths) (tr ++ []).
Proof.
  intros H Hlen Hk Hw. pose proof (inv_wf _ _ _ H) as Hwf. pose proof (inv_thread _ _ _ H _ _ Hk) as (Hi & Hv & _).
  apply (Inv1_same q q ths tr [] k _ _ H Hk); [done..|intros j; by rewrite app_nil_r|apply (inv_word _ _ _ H)| |].
  - unfold after_load. by repeat wz_if.
  - simpl. split_and!; [lia|lia|intros _; by apply Hv|]. pose proof (u16_range (ver tr (i mod cap))).
    unfold after_load. rewrite expected_version_target, (word_raw _ _ Hw) by done. repeat wz_if; simpl.
    + apply (raw_version_exact q ths tr (is_push o) i H); [done..|by apply Hv|done].
    + rewrite (word_tagged _ _ Hw) by done. by rewrite u16_tagged.
    + rewrite (word_untagged _ _ Hw) by done. rewrite u16_idem. unfold UINT16_MAX. split; [lia|done].
Qed.

(** The word of a slot is tagged by a thread that is going to wait. *)
Lemma Inv1_tag q ths tr k o i cur :
  Inv1 q ths tr -> ths !! k = Some (Run o i (Cas cur)) -> word_ok (ver tr (i mod cap)) cur ->
  Inv1 (set_version (slot_id q i) (make_tagged_version cur) q)
    (<[k := Run o i (Wait (make_tagged_version cur))]> ths) (tr ++ []).
Proof.
  intros H Hk Hw. pose proof (inv_wf _ _ _ H) as Hwf. pose proof (inv_thread _ _ _ H _ _ Hk) as (Hi & Hv & Hcur & Hne).
  rewrite make_tagged_eq in * by done.
  assert (cur = u16 (ver tr (i mod cap))) as Hcurv
    by (apply word_untagged; [done|]; unfold is_tagged_version; apply Z.ltb_ge; lia).
  eapply (Inv1_same q _ ths tr [] k _ _ H Hk); [by apply wf_set_version|
    intros; apply next_index_set_version|intros j; by rewrite app_nil_r| |done|].
  - intros j sl. rewrite slot_at_set_version by done. destruct (decide _) as [He|].
    + intros (sl0 & _ & ->)%fmap_Some. simpl. rewrite He. right. by rewrite Hcurv.
    + apply (inv_word _ _ _ H).
  - simpl. split_and!; [lia|lia|by intros _; apply Hv| |].
    + by rewrite Hcurv, u16_tagged.
    + by rewrite Hcurv, u16_tagged, <-u16_idem, <-Hcurv.
Qed.

(** One step of a thread, before [wake_all] takes effect on the others. *)
Lemma tstep_Inv1 q ths tr k th q' th' ev w :
  Inv1 q ths tr -> (Z.of_nat (length ths) <= 2 ^ 15) ->
  (forall isp, next_index isp q < 2 ^ 64 - 1) ->
  ths !! k = Some th -> tstep moved_from q th q' th' ev w ->
  Inv1 q' (<[k := th']> ths) (tr ++ ev).
Proof.
  intros H Hlen Hlt Hk Hst. pose proof (inv_wf _ _ _ H) as Hwf.
  pose proof (inv_thread _ _ _ H _ _ Hk) as Hok.
  assert (Hnil : forall j, ver (tr ++ []) j = ver tr j) by (intros j; by rewrite app_nil_r).
  assert (Hword : forall i cur, load_version q (slot_id q i) = Some cur ->
    word_ok (ver tr (i mod cap)) cur).
  { intros i cur. rewrite load_version_eq by done. intros (sl & Hsl & ->)%fmap_Some.
    by apply (inv_word _ _ _ H). }
  destruct Hst as [q o i q' Hf|q o i cur Hl|q o i cur Hl|q o i cur|q o i v Hl|q o i v cur Hl Hne
    |q o i v|q o i r q' Hc|q o i old Hl|q o i].
  - by apply (Inv1_start q q' ths tr o i k).
  - apply Inv1_load; try done. by apply Hword.
  - eapply Inv1_tag; try done. by apply Hword.
  - apply (Inv1_same q q ths tr [] k _ _ H Hk); [done..|apply (inv_word _ _ _ H)|done|].
    destruct Hok as (? & Hv & _). simpl. split_and!; [lia|lia|by intros _; apply Hv|done].
  - apply (Inv1_same q q ths tr [] k _ _ H Hk); [done..|apply (inv_word _ _ _ H)|done|].
    destruct Hok as (? & Hv & ?). simpl. split_and!; [lia|lia|by intros _; apply Hv|naive_solver..].
  - apply (Inv1_same q q ths tr [] k _ _ H Hk); [done..|apply (inv_word _ _ _ H)|done|].
    destruct Hok as (? & Hv & _). simpl. split_and!; [lia|lia|by intros _; apply Hv|done].
  - apply (Inv1_same q q ths tr [] k _ _ H Hk); [done..|apply (inv_word _ _ _ H)|done|].
    destruct Hok as (? & Hv & _). simpl. split_and!; [lia|lia|by intros _; apply Hv|done].
  - destruct Hok as (Hi & Hv & Hturn).
    destruct (callback_slots _ _ _ _ _ Hwf Hc) as (Hwf' & Hn1 & Hn2 & sl & Hsl & -> & ->).
    eapply (Inv1_same q _ ths tr _ k _ _ H Hk); [done|by intros []| | |done|].
    + intros j. apply ver_no_advance, callback_no_advance.
    + intros j sl'. rewrite slot_at_set_value by done. destruct (decide _) as [He|].
      * intros (sl0 & Hj & ->)%fmap_Some. simpl. by apply (inv_word _ _ _ H).
      * apply (inv_word _ _ _ H).
    + simpl. split_and!; [lia|lia|by intros _; apply Hv|done].
  - destruct Hok as (Hi & Hv & Hturn). rewrite expected_version_target, u16_u16_add by done.
    eapply (Inv1_advance q _ ths tr o i Advance); [done|done|done|done|done|].
    wz_if; [by left|by right].
  - apply (Inv1_same q q ths tr [] k _ _ H Hk); [done..|apply (inv_word _ _ _ H)|done|done].
Qed.

(** * Values *)

Definition popped (tr : list (Event A)) : list Z :=
  omap (fun e => match e with Popped i _ => Some i | _ => None end) tr.

(** Thread [k] has run the callback of [o] and not yet advanced the version. *)
Definition advancing (ths : list (Thread A)) (o : Op (A := A)) (i : Z) : Prop :=
  exists k, ths !! k = Some (Run o i Advance).

(** A consumer has. *)
Definition consuming (ths : list (Thread A)) (i : Z) : Prop :=
  exists o, is_push o = false /\ advancing ths o i.

Record Inv2 (q : Queue A) (ths : list (Thread A)) (tr : list (Event A)) : Prop := {
  inv_pushed : forall i v v', Pushed i v ∈ tr -> Pushed i v' ∈ tr -> v = v';
  inv_pushed_range : forall i v, Pushed i v ∈ tr -> 0 <= i < next_index true q;
  inv_pusher : forall k v i p, ths !! k = Some (Run (Push v) i p) -> Pushed i v ∈ tr;
  inv_written : forall v i, advancing ths (Push v) i ->
    exists sl, slot_at q i = Some sl /\ value sl = v;
  inv_full : forall i, ver tr (i mod cap) = target false i -> ~ consuming ths i ->
    exists sl, slot_at q i = Some sl /\ Pushed i (value sl) ∈ tr;
  inv_popped : forall i v, Popped i v ∈ tr -> Pushed i v ∈ tr /\
    (target false i < ver tr (i mod cap) \/ consuming ths i);
  inv_popped_once : NoDup (popped tr)
}.

Lemma popped_app tr ev : popped (tr ++ ev) = popped tr ++ popped ev.
Proof. unfold popped. apply omap_app. Qed.

Lemma elem_of_popped tr i : i ∈ popped tr <-> exists v, Popped i v ∈ tr.
Proof.
  unfold popped. rewrite list_elem_of_omap. split.
  - intros ([] & ? & ?); simplify_eq; eauto.
  - intros (v & ?). by exists (Popped i v).
Qed.

Lemma wake_run q w o i p th :
  wake q w th = Run o i p -> exists p0, th = Run o i p0 /\ (p = Advance <-> p0 = Advance).
Proof.
  destruct th as [|o' i' p'], w as [id|]; simpl; [done..| |].
  - destruct p'; try (intros [= <- <- <-]; by eexists).
    destruct (_ =? _); intros [= <- <- <-]; by eexists.
  - destruct p'; intros [= <- <- <-]; by eexists.
Qed.

Lemma wake_advancing q w ths o i : advancing (wake q w <$> ths) o i <-> advancing ths o i.
Proof.
  split.
  - intros (k & Hk). rewrite list_lookup_fmap in Hk.
    apply fmap_Some in Hk as (th & Hk & Hth). symmetry in Hth.
    apply wake_run in Hth as (p0 & -> & Hp). exists k. rewrite Hk. by rewrite (proj1 Hp).
  - intros (k & Hk). exists k. by rewrite list_lookup_fmap, Hk.
Qed.

Lemma wake_consuming q w ths i : consuming (wake q w <$> ths) i <-> consuming ths i.
Proof. unfold consuming. by setoid_rewrite wake_advancing. Qed.

Lemma Inv2_wake q ths tr q0 w : Inv2 q ths tr -> Inv2 q (wake q0 w <$> ths) tr.
Proof.
  intros [H1 H2 H3 H4 H5 H6 H7]. constructor; [done..| | | | |done].
  - intros k v i p. rewrite list_lookup_fmap. intros (th & Hk & Hth)%fmap_Some. symmetry in Hth.
    apply wake_run in Hth as (p0 & -> & _). by eapply H3.
  - intros v i. rewrite wake_advancing. apply H4.
  - intros i. rewrite wake_consuming. apply H5.
  - intros i v. rewrite wake_consuming. apply H6.
Qed.

Lemma advancing_insert ths k th th' o i :
  ths !! k = Some th -> (forall o i, th <> Run o i Advance) -> (forall o i, th' <> Run o i Advance) ->
  advancing (<[k := th']> ths) o i <-> advancing ths o i.
Proof.
  intros Hk Hth Hth'. split; intros (m & Hm).
  - apply list_lookup_insert_Some in Hm as [(_ & Hm & _)|[_ Hm]]; [by destruct (Hth' o i)|].
    by exists m.
  - exists m. rewrite list_lookup_insert_ne; [done|]. intros <-. rewrite Hk in Hm. simplify_eq.
    by destruct (Hth o i).
Qed.

Lemma consuming_insert ths k th th' i :
  ths !! k = Some th -> (forall o i, th <> Run o i Advance) -> (forall o i, th' <> Run o i Advance) ->
  consuming (<[k := th']> ths) i <-> consuming ths i.
Proof.
  intros Hk Hth Hth'. split; intros (o & Ho & Ha); exists o;
    apply (advancing_insert _ _ _ _ _ _ Hk Hth Hth') in Ha; done.
Qed.

(** Steps that neither run a callback nor complete an operation. *)
Lemma Inv2_quiet q q' ths tr k th th' :
  Inv2 q ths tr -> ths !! k = Some th ->
  (forall o i, th <> Run o i Advance) -> (forall o i, th' <> Run o i Advance) ->
  (forall o i p, th' = Run o i p -> exists p0, th = Run o i p0) ->
  next_index true q' = next_index true q ->
  (forall i, value <$> slot_at q' i = value <$> slot_at q i) ->
  Inv2 q' (<[k := th']> ths) tr.
Proof.
  intros [H1 H2 H3 H4 H5 H6 H7] Hk Hth Hth' Hsame Hnext Hslots.
  assert (Hsl : forall i sl, slot_at q i = Some sl -> exists sl', slot_at q' i = Some sl' /\
    value sl' = value sl).
  { intros i sl Hi. specialize (Hslots i). rewrite Hi in Hslots. simpl in Hslots.
    apply fmap_Some in Hslots as (sl' & ? & ?). eauto. }
  constructor; [done| | | | | |done].
  - rewrite Hnext. done.
  - intros m v i p [(-> & Hm & _)|[_ Hm]]%list_lookup_insert_Some; [|by eapply H3].
    destruct (Hsame _ _ _ Hm) as (p0 & ->). by eapply H3.
  - intros v i. rewrite (advancing_insert _ _ _ _ _ _ Hk) by done. intros Ha.
    destruct (H4 v i Ha) as (sl & Hi & <-). by apply Hsl.
  - intros i Hv. rewrite (consuming_insert _ _ _ _ _ Hk) by done. intros Ha.
    destruct (H5 i Hv Ha) as (sl & Hi & Hp). destruct (Hsl i sl Hi) as (sl' & ? & E).
    exists sl'. by rewrite E.
  - intros i v. rewrite (consuming_insert _ _ _ _ _ Hk) by done. apply H6.
Qed.

Lemma Inv2_start q q' ths tr o i k :
  Inv1 q ths tr -> Inv2 q ths tr -> ths !! k = Some Idle -> next_index (is_push o) q < 2 ^ 64 - 1 ->
  fetch_add (is_push o) q = (i, q') ->
  Inv2 q' (<[k := Run o i Load]> ths) (tr ++ start_events o i).
Proof.
  intros I1 [H1 H2 H3 H4 H5 H6 H7] Hk Hlt Hf.
  destruct (fetch_add_wf _ _ _ _ (inv_wf _ _ _ I1) Hlt Hf) as (Hwf & Hsl & -> & Hi0 & Hn & Hn').
  set (i := next_index (is_push o) q) in *.
  assert (Hver : forall j, ver (tr ++ start_events o i) j = ver tr j)
    by (intros j; apply ver_no_advance, start_no_advance).
  assert (Hnew : forall j v, Pushed j v ∈ start_events o i -> j = i /\ o = Push v).
  { intros j v. destruct o; simpl; [|by intros ?%elem_of_nil..].
    by intros [= -> ->]%list_elem_of_singleton. }
  assert (Hfresh : forall v v', Pushed i v ∈ tr -> o = Push v' -> False).
  { intros v v' Hin ->. apply H2 in Hin. simpl in *. lia. }
  assert (Hadv : forall o' j, advancing (<[k := Run o i Load]> ths) o' j <-> advancing ths o' j)
    by (intros; by apply (advancing_insert _ _ Idle)).
  assert (Hcons : forall j, consuming (<[k := Run o i Load]> ths) j <-> consuming ths j)
    by (intros; by apply (consuming_insert _ _ Idle)).
  assert (Hslot : forall j, slot_at q' j = slot_at q j) by (intros j; unfold slot_at; by rewrite Hsl).
  constructor.
  - intros j v v' [Hj|[-> Ho]%Hnew]%elem_of_app [Hj'|[Hj' Ho']%Hnew]%elem_of_app.
    + by eapply H1.
    + subst j. by destruct (Hfresh v v').
    + by destruct (Hfresh v' v).
    + congruence.
  - intros j v [Hj%H2|[-> ->]%Hnew]%elem_of_app; [|simpl in *; lia].
    destruct o; simpl in *; lia.
  - intros m v j p [(-> & Hm & _)|[_ Hm]]%list_lookup_insert_Some.
    + injection Hm as Ho <- _. apply elem_of_app. right. rewrite Ho. left.
    + apply elem_of_app. left. by eapply H3.
  - intros v j. rewrite Hadv, Hslot. apply H4.
  - intros j. rewrite Hver, Hcons, Hslot. intros Hv Ha.
    destruct (H5 j Hv Ha) as (sl & ? & ?). exists sl. split; [done|]. apply elem_of_app. by left.
  - intros j v. rewrite Hver, Hcons. intros [Hj|Hj]%elem_of_app.
    + destruct (H6 j v Hj). split; [apply elem_of_app; by left|done].
    + exfalso. destruct o; simpl in Hj; set_solver.
  - rewrite popped_app. destruct o; simpl; by rewrite app_nil_r.
Qed.

(** At most one thread of a slot is past its wait. *)
Lemma turn_unique q ths tr k k' o i p o' i' p' :
  Inv1 q ths tr -> ths !! k = Some (Run o i p) -> ths !! k' = Some (Run o' i' p') ->
  (p = Ready \/ p = Advance) -> (p' = Ready \/ p' = Advance) -> i mod cap = i' mod cap -> k = k'.
Proof.
  intros H Hk Hk' Hp Hp' Hi.
  pose proof (inv_thread _ _ _ H _ _ Hk) as (_ & _ & Ho).
  pose proof (inv_thread _ _ _ H _ _ Hk') as (_ & _ & Ho').
  assert (ver tr (i mod cap) = target (is_push o) i) as E by (by destruct Hp as [->| ->]).
  assert (ver tr (i' mod cap) = target (is_push o') i') as E' by (by destruct Hp' as [->| ->]).
  rewrite Hi in E. rewrite E in E'. destruct (target_inj _ _ _ _ E' Hi) as [Eo ->].
  eapply (inv_unique _ _ _ H k k'); [done..|by destruct Hp as [->| ->]|].
  rewrite Eo. by destruct Hp' as [->| ->].
Qed.

Lemma advancing_turn q ths tr o i :
  Inv1 q ths tr -> advancing ths o i -> ver tr (i mod cap) = target (is_push o) i.
Proof. intros H (k & Hk). apply (inv_thread _ _ _ H _ _ Hk). Qed.

Lemma Inv2_callback q q' ths tr o i r k :
  Inv1 q ths tr -> Inv2 q ths tr -> ths !! k = Some (Run o i Ready) ->
  callback moved_from o (slot_id q i) q = Some (r, q') ->
  Inv2 q' (<[k := Run o i Advance]> ths) (tr ++ callback_events i r).
Proof.
  intros I1 [H1 H2 H3 H4 H5 H6 H7] Hk Hc. pose proof (inv_wf _ _ _ I1) as Hwf.
  destruct (callback_slots _ _ _ _ _ Hwf Hc) as (_ & Hn1 & _ & sl & Hsl & Hr & Hq').
  pose proof (inv_thread _ _ _ I1 _ _ Hk) as (_ & _ & Hturn). simpl in Hturn.
  assert (Hnone : forall o' i', i mod cap = i' mod cap -> ~ advancing ths o' i').
  { intros o' i' Hi (m & Hm). assert (k = m) as <-.
    { apply (turn_unique q ths tr k m o i Ready o' i' Advance I1); auto. }
    rewrite Hk in Hm. done. }
  assert (Hlt : (k < length ths)%nat) by by eapply lookup_lt_Some.
  assert (Hadv : forall o' i', advancing (<[k := Run o i Advance]> ths) o' i' ->
    (o' = o /\ i' = i) \/ (i' mod cap <> i mod cap /\ advancing ths o' i')).
  { intros o' i' (m & Hm). apply list_lookup_insert_Some in Hm as [(_ & Hm & _)|[_ Hm]].
    - injection Hm as -> ->. by left.
    - right. split; [|by exists m]. intros Hi. apply (Hnone o' i'); [done|by exists m]. }
  assert (Hadv2 : forall o' i', advancing ths o' i' -> advancing (<[k := Run o i Advance]> ths) o' i').
  { intros o' i' (m & Hm). exists m. rewrite list_lookup_insert_ne; [done|]. congruence. }
  assert (Hme : advancing (<[k := Run o i Advance]> ths) o i)
    by (exists k; by apply list_lookup_insert_eq).
  assert (Hver : forall j, ver (tr ++ callback_events i r) j = ver tr j)
    by (intros j; apply ver_no_advance, callback_no_advance).
  assert (Hev : forall j v, Pushed j v ∈ tr ++ callback_events i r <-> Pushed j v ∈ tr).
  { intros j v. rewrite elem_of_app. destruct r; simpl; set_solver. }
  assert (Hother : forall j, j mod cap <> i mod cap -> slot_at q' j = slot_at q j).
  { intros j Hj. rewrite Hq', slot_at_set_value by done. by rewrite decide_False. }
  constructor.
  - intros j v v'. rewrite !Hev. apply H1.
  - intros j v. rewrite Hev, Hn1. apply H2.
  - intros m v j p. rewrite Hev. intros [(-> & Hm & _)|[_ Hm]]%list_lookup_insert_Some; [|by eapply H3].
    injection Hm as -> -> _. by eapply H3.
  - intros v j [[Ho ->]|[Hne Ha]]%Hadv.
    + rewrite Hq', slot_at_set_value, decide_True, Hsl by done. simpl. eexists. split; [done|].
      by rewrite <-Ho.
    + rewrite Hother by done. by apply H4.
  - intros j. rewrite Hver. intros Hv Ha. destruct (decide (j mod cap = i mod cap)) as [He|Hne].
    + exfalso. rewrite He, Hturn in Hv. symmetry in He.
      destruct (target_inj _ _ _ _ Hv He) as [Eo ->]. apply Ha. by exists o.
    + rewrite Hother by done. destruct (H5 j Hv) as (sl' & ? & ?).
      { intros (o' & ? & Ha'). apply Ha. exists o'. split; [done|by apply Hadv2]. }
      exists sl'. by rewrite Hev.
  - intros j v. rewrite Hver, Hev. intros [Hj|Hj]%elem_of_app.
    + destruct (H6 j v Hj) as [? [?|(o' & ? & ?)]]; split; [done|by left|done|].
      right. exists o'. split; [done|by apply Hadv2].
    + rewrite Hr in Hj. unfold shown in Hj. destruct (is_push o) eqn:Ho; [by apply elem_of_nil in Hj|].
      apply list_elem_of_singleton in Hj. injection Hj as -> ->. split; [|right; by exists o].
      destruct (H5 i Hturn) as (sl' & Hsl' & ?); [|congruence].
      intros (o' & _ & Ha). by apply (Hnone o' i).
  - rewrite popped_app, Hr. unfold shown. destruct (is_push o) eqn:Ho; simpl; [by rewrite app_nil_r|].
    apply NoDup_app. split_and!; [done| |apply NoDup_singleton].
    intros j Hj ->%list_elem_of_singleton. apply elem_of_popped in Hj as (v & Hj).
    destruct (H6 i v Hj) as [_ [Hlt'|(o' & _ & Ha)]]; [simpl in Hturn; lia|]. by apply (Hnone o' i).
Qed.

Lemma Inv2_advance q ths tr o i k th' :
  Inv1 q ths tr -> Inv2 q ths tr -> ths !! k = Some (Run o i Advance) ->
  th' = Run o i Wake \/ th' = Idle ->
  Inv2 (set_version (slot_id q i) (u16 (target (is_push o) i + 1)) q)
    (<[k := th']> ths) (tr ++ [Advanced (is_push o) i]).
Proof.
  intros I1 [H1 H2 H3 H4 H5 H6 H7] Hk Hth'. pose proof (inv_wf _ _ _ I1) as Hwf.
  pose proof (inv_thread _ _ _ I1 _ _ Hk) as (_ & _ & Hturn). simpl in Hturn.
  assert (Hnone : forall o' i', i mod cap = i' mod cap -> ~ advancing (<[k := th']> ths) o' i').
  { intros o' i' Hi (m & Hm). apply list_lookup_insert_Some in Hm as [(_ & Hm & _)|[Hne Hm]].
    - by destruct Hth' as [->| ->].
    - apply Hne. apply (turn_unique q ths tr k m o i Advance o' i' Advance I1); auto. }
  assert (Hadv : forall o' i', advancing (<[k := th']> ths) o' i' ->
    i' mod cap <> i mod cap /\ advancing ths o' i').
  { intros o' i' Ha. split; [intros Hi; by apply (Hnone o' i')|]. destruct Ha as (m & Hm).
    apply list_lookup_insert_Some in Hm as [(_ & Hm & _)|[Hne Hm]];
      [by destruct Hth' as [->| ->]|by exists m]. }
  assert (Hadv2 : forall o' i', i' mod cap <> i mod cap -> advancing ths o' i' ->
    advancing (<[k := th']> ths) o' i').
  { intros o' i' Hi (m & Hm). exists m. rewrite list_lookup_insert_ne; [done|]. congruence. }
  assert (Hev : forall e, e ∈ tr ++ [Advanced (is_push o) i] <-> e ∈ tr \/ e = Advanced (is_push o) i).
  { intros e. by rewrite elem_of_app, list_elem_of_singleton. }
  assert (Hev' : forall j v, Pushed j v ∈ tr ++ [Advanced (is_push o) i] <-> Pushed j v ∈ tr).
  { intros j v. rewrite Hev. naive_solver. }
  assert (Hval : forall j sl, slot_at q j = Some sl -> exists sl',
    slot_at (set_version (slot_id q i) (u16 (target (is_push o) i + 1)) q) j = Some sl' /\
    value sl' = value sl).
  { intros j sl Hj. rewrite slot_at_set_version by done. rewrite Hj.
    destruct (decide _); eexists; (split; [done|done]). }
  constructor.
  - intros j v v'. rewrite !Hev'. apply H1.
  - intros j v. rewrite Hev'. apply H2.
  - intros m v j p. rewrite Hev'. intros [(-> & Hm & _)|[_ Hm]]%list_lookup_insert_Some; [|by eapply H3].
    destruct Hth' as [->| ->]; [|done]. injection Hm as -> -> _. by eapply H3.
  - intros v j [Hne Ha]%Hadv. destruct (H4 v j Ha) as (sl & Hj & <-). by apply Hval.
  - intros j. rewrite ver_advanced. intros Hv Ha.
    destruct (decide (i mod cap = j mod cap)) as [He|Hne].
    + rewrite <-He, Hturn in Hv. destruct o as [v| |]; [|unfold target in Hv; simpl in Hv; lia..].
      assert (target false i = target false j) as E by (unfold target in *; simpl in *; lia).
      destruct (target_inj _ _ _ _ E He) as [_ <-].
      destruct (H4 v i) as (sl & Hi & Hsl); [by exists k|].
      destruct (Hval i sl Hi) as (sl' & ? & E'). exists sl'. split; [done|].
      rewrite Hev', E', Hsl. by eapply H3.
    + rewrite Z.add_0_r in Hv. destruct (H5 j Hv) as (sl & Hi & Hsl).
      { intros (o' & ? & Ha'). apply Ha. exists o'. split; [done|]. apply Hadv2; congruence. }
      destruct (Hval j sl Hi) as (sl' & ? & E'). exists sl'. split; [done|]. by rewrite Hev', E'.
  - intros j v [Hj|?]%Hev; [|done]. rewrite Hev', ver_advanced. destruct (H6 j v Hj) as [Hp Hd].
    split; [done|]. destruct (decide (i mod cap = j mod cap)) as [He|Hne].
    + left. destruct Hd as [?|(o' & Ho' & Ha)]; [lia|]. apply (advancing_turn _ _ _ _ _ I1) in Ha.
      rewrite Ho' in Ha. lia.
    + destruct Hd as [?|(o' & ? & ?)]; [left; lia|right]. exists o'. split; [done|].
      apply Hadv2; congruence.
  - rewrite popped_app. simpl. by rewrite app_nil_r.
Qed.

Lemma after_load_not_advance e c : after_load e c <> Advance.
Proof. unfold after_load. by repeat wz_if. Qed.

Lemma value_set_version q i j w :
  wf q -> value <$> slot_at (set_version (slot_id q i) w q) j = value <$> slot_at q j.
Proof.
  intros Hwf. rewrite slot_at_set_version by done. destruct (decide _); [|done].
  by destruct (slot_at q j).
Qed.

Lemma tstep_Inv2 q ths tr k th q' th' ev w :
  Inv1 q ths tr -> Inv2 q ths tr -> (forall isp, next_index isp q < 2 ^ 64 - 1) ->
  ths !! k = Some th -> tstep moved_from q th q' th' ev w ->
  Inv2 q' (<[k := th']> ths) (tr ++ ev).
Proof.
  intros I1 H Hlt Hk Hst. pose proof (inv_wf _ _ _ I1) as Hwf.
  assert (Hquiet : forall q1 t1,
    ev = [] -> (forall o i, th <> Run o i Advance) -> (forall o i, t1 <> Run o i Advance) ->
    (forall o i p, t1 = Run o i p -> exists p0, th = Run o i p0) ->
    next_index true q1 = next_index true q ->
    (forall i, value <$> slot_at q1 i = value <$> slot_at q i) ->
    Inv2 q1 (<[k := t1]> ths) (tr ++ ev)).
  { intros q1 t1 -> ? ? ? ? ?. rewrite app_nil_r. by eapply (Inv2_quiet q). }
  destruct Hst as [q o i q' Hf|q o i cur Hl|q o i cur Hl|q o i cur|q o i v Hl|q o i v cur Hl Hne
    |q o i v|q o i r q' Hc|q o i old Hl|q o i].
  - by apply (Inv2_start q q' ths tr o i k).
  - apply Hquiet; try done; [|naive_solver].
    intros o' i' [= _ _ Ha]. by apply after_load_not_advance in Ha.
  - apply Hquiet; try done; [naive_solver|]. intros j. by apply value_set_version.
  - apply Hquiet; try done; naive_solver.
  - apply Hquiet; try done; naive_solver.
  - apply Hquiet; try done; naive_solver.
  - apply Hquiet; try done; naive_solver.
  - by apply (Inv2_callback q q' ths tr o i r k).
  - rewrite expected_version_target, u16_u16_add by done.
    apply Inv2_advance; [done..|]. wz_if; [by left|by right].
  - apply Hquiet; try done; naive_solver.
Qed.

(** * Sleepers *)

Definition waking (ths : list (Thread A)) (j : Z) : Prop :=
  exists k o i, ths !! k = Some (Run o i Wake) /\ i mod cap = j.

(** A sleeping thread sleeps on the current value of the word, or somebody is
    about to wake the slot. *)
Definition Inv3 (q : Queue A) (ths : list (Thread A)) : Prop :=
  forall k o i v, ths !! k = Some (Run o i (Sleeping v)) ->
    load_version q (slot_id q i) = Some v \/ waking ths (i mod cap).

Lemma waking_insert ths k th th' j :
  ths !! k = Some th -> (forall o i, th <> Run o i Wake) -> waking ths j ->
  waking (<[k := th']> ths) j.
Proof.
  intros Hk Hth (m & o & i & Hm & Hj). exists m, o, i. split; [|done].
  rewrite list_lookup_insert_ne; [done|]. intros <-. rewrite Hk in Hm. simplify_eq. by destruct (Hth o i).
Qed.

Lemma load_set_version q i j w :
  wf q -> load_version (set_version (slot_id q i) w q) (slot_id q j) =
    (if decide (j mod cap = i mod cap) then Some w else load_version q (slot_id q j)).
Proof.
  intros Hwf.
  change (slot_id q j) with (slot_id (set_version (slot_id q i) w q) j) at 1.
  rewrite load_version_eq by by apply wf_set_version.
  rewrite slot_at_set_version, load_version_eq by done.
  destruct (decide _); [|done]. by destruct (slot_at_Some q j Hwf) as [sl ->].
Qed.

(** A step that changes no word, of a thread that wakes nobody. *)
Lemma Inv3_same q q1 ths k th t1 :
  Inv3 q ths -> ths !! k = Some th -> _slots q1 = _slots q -> _capacity q1 = _capacity q ->
  (forall o i, th <> Run o i Wake) ->
  (forall o i v, t1 = Run o i (Sleeping v) -> load_version q (slot_id q i) = Some v) ->
  Inv3 q1 (<[k := t1]> ths).
Proof.
  intros H Hk Hsl Hcp Hw Ht m o i v.
  assert (load_version q1 (slot_id q1 i) = load_version q (slot_id q i)) as ->.
  { unfold load_version, slot_id. by rewrite Hsl, Hcp. }
  intros [(-> & Hm & _)|[_ Hm]]%list_lookup_insert_Some; [left; by eapply Ht|].
  destruct (H m o i v Hm); [by left|right]. by eapply waking_insert.
Qed.

(** A word that nobody waits on is replaced, or one whose waiters [th'] is going to wake. *)
Lemma Inv3_set_version q ths tr k th th' i old w :
  Inv1 q ths tr -> Inv3 q ths -> ths !! k = Some th -> (forall o i, th <> Run o i Wake) ->
  load_version q (slot_id q i) = Some old ->
  is_tagged_version old = false \/ (exists o, th' = Run o i Wake) ->
  (forall o i' v, th' <> Run o i' (Sleeping v)) ->
  Inv3 (set_version (slot_id q i) w q) (<[k := th']> ths).
Proof.
  intros I1 H Hk Hw Hl Hold Hth' m o' i' v' [(-> & Hm & _)|[Hne Hm]]%list_lookup_insert_Some; [by destruct (Hth' o' i' v')|].
  pose proof (inv_wf _ _ _ I1) as Hwf. change (slot_id (set_version _ _ _) i') with (slot_id q i').
  rewrite load_set_version by done. destruct (H m o' i' v' Hm) as [Hl'|Hwk]; [|right; by eapply waking_insert].
  destruct (decide _) as [He|]; [|by left]. right. destruct Hold as [Hold|[o ->]].
  - exfalso. rewrite load_version_eq in Hl, Hl' by done. unfold slot_at in *. rewrite He, Hl in Hl'.
    injection Hl' as <-. pose proof (inv_thread _ _ _ I1 _ _ Hm) as (_ & _ & Hv & _).
    unfold is_tagged_version in Hold. pose proof (u16_range old). unfold UINT16_MAX in Hold. wz_bool. lia.
  - exists k, o, i. by rewrite list_lookup_insert_eq by (by eapply lookup_lt_Some).
Qed.

(** [wake_all] takes effect on the waiters of the slot. *)
Lemma Inv3_wake q ths tr k o i :
  Inv1 q ths tr -> Inv3 q ths -> ths !! k = Some (Run o i Wake) ->
  Inv3 q (<[k := Idle]> (wake q (Some (slot_id q i)) <$> ths)).
Proof.
  intros I1 H Hk m o' i' v' [(-> & Hm & _)|[Hne Hm]]%list_lookup_insert_Some; [done|].
  pose proof (inv_wf _ _ _ I1) as Hwf. rewrite list_lookup_fmap in Hm. apply fmap_Some in Hm as (t & Hm & Ht).
  destruct t as [|o1 i1 p1]; [done|].
  assert (Run o1 i1 p1 = Run o' i' (Sleeping v') /\ slot_id q i' <> slot_id q i) as [E Hids].
  { destruct p1; simpl in Ht; try done. wz_if; [done|]. injection Ht as <- <- <-. done. }
  rewrite E in Hm. destruct (H m o' i' v' Hm) as [?|(m2 & o2 & i2 & Hm2 & Hi2)]; [by left|right].
  exists m2, o2, i2. split; [|done]. rewrite list_lookup_insert_ne.
  - by rewrite list_lookup_fmap, Hm2.
  - intros <-. rewrite Hk in Hm2. injection Hm2 as -> ->. apply Hids. by rewrite !slot_id_mod by done.
Qed.

Lemma tstep_Inv3 q ths tr k th q' th' ev w :
  Inv1 q ths tr -> Inv3 q ths -> (forall isp, next_index isp q < 2 ^ 64 - 1) ->
  ths !! k = Some th -> tstep moved_from q th q' th' ev w ->
  Inv3 q' (<[k := th']> (wake q w <$> ths)).
Proof.
  intros I1 H Hlt Hk Hst. pose proof (inv_wf _ _ _ I1) as Hwf.
  assert (Hid : wake q None <$> ths = ths).
  { rewrite <-(list_fmap_id ths) at 2. apply list_fmap_ext. intros ? [|? ? []] _; done. }
  destruct Hst as [q o i q' Hf|q o i cur Hl|q o i cur Hl|q o i cur|q o i v Hl|q o i v cur Hl Hne
    |q o i v|q o i r q' Hc|q o i old Hl|q o i]; rewrite ?Hid.
  4-7: by eapply (Inv3_same q q); [done|done|done|done|done|intros o' i' v'; (done || intros [= <- <- <-])].
  - unfold fetch_add in Hf. injection Hf as _ <-. by eapply (Inv3_same q _ ths k); [done|done|destruct (is_push o)..|done|done].
  - eapply (Inv3_same q q); [done..|]. intros o' i' v' [= <- <- Ha]. unfold after_load in Ha. by repeat wz_if.
  - pose proof (inv_thread _ _ _ I1 _ _ Hk) as (_ & _ & Hcur & _).
    eapply (Inv3_set_version q ths tr k _ _ i cur); try done. left. unfold is_tagged_version. apply Z.ltb_ge. lia.
  - destruct (callback_slots _ _ _ _ _ Hwf Hc) as (Hwf' & _ & _ & sl & Hsl & _ & ->).
    intros m o' i' v' [(-> & Hm & _)|[Hne Hm]]%list_lookup_insert_Some; [done|].
    change (slot_id (set_value _ _ _) i') with (slot_id q i').
    destruct (H m o' i' v' Hm) as [Hl'|Hw]; [left|right; by eapply waking_insert].
    change (slot_id q i') with (slot_id (set_value (slot_id q i) (leaves moved_from o (value sl)) q) i').
    rewrite load_version_eq in Hl' |- * by done. rewrite slot_at_set_value by done.
    destruct (decide _); [|done]. by destruct (slot_at q i').
  - eapply (Inv3_set_version q ths tr k _ _ i old); try done.
    + destruct (is_tagged_version old) eqn:E; [right; by exists o|by left].
    + intros o' i' v'. by destruct (is_tagged_version old).
  - by eapply Inv3_wake.
Qed.

(** * Reachable states *)

Lemma queue_ctor :
  (b <= 32)%nat -> exists q, ConcurrentBoundedQueue default moved_from cap = Some q /\ wf q /\
    q = mkQueue (replicate (Z.to_nat cap) (mkSlot default 0)) cap (Z.of_nat b) 0 0.
Proof.
  intros Hb. pose proof cap_pos.
  assert (cap <= 2 ^ 32) by (apply Z.pow_le_mono_r; lia).
  assert (nextPowTwo cap = Some cap) as Hn.
  { rewrite nextPowTwo_log2_up by lia. unfold cap. by rewrite Z.log2_up_pow2 by lia. }
  eexists. split_and!; [| |done].
  - unfold ConcurrentBoundedQueue, reserve_and_clear. rewrite Hn. unfold capacity. simpl.
    wz_if; [lia|]. rewrite u64_small by lia. unfold cap at 3. rewrite popcount_ones by lia. done.
  - constructor; simpl; try done; try lia. rewrite length_replicate. lia.
Qed.

Definition Inv (s : State A) : Prop :=
  Inv1 (queue s) (threads s) (trace s) /\ Inv2 (queue s) (threads s) (trace s) /\
  Inv3 (queue s) (threads s).

Section reachability.
Context (nthreads : nat) (Hb : (b <= 32)%nat) (Hthreads : Z.of_nat nthreads <= 2 ^ 15).

Lemma lookup_idle k th : replicate nthreads (Idle (A := A)) !! k = Some th -> th = Idle.
Proof. by intros [-> _]%lookup_replicate. Qed.

Lemma queue_initial_Inv s : initial default moved_from b nthreads s -> Inv s /\ length (threads s) = nthreads.
Proof.
  intros (q & Hq & ->). destruct (queue_ctor Hb) as (q' & Hq' & Hwf & Heq).
  fold cap in Hq. rewrite Hq in Hq'. injection Hq' as <-.
  split; [|simpl; apply length_replicate]. split_and!; simpl.
  - constructor; [done| | | | |].
    + intros i sl. unfold slot_at. rewrite Heq. simpl. intros [-> _]%lookup_replicate. by left.
    + by intros k th ->%lookup_idle.
    + intros k k' th th' a ->%lookup_idle. done.
    + intros isp i Hi. rewrite Heq in Hi. destruct isp; simpl in Hi; lia.
    + intros isp i Hi. unfold ver. simpl. unfold target. rewrite Heq in Hi.
      assert (0 <= i / cap) by (apply Z.div_pos; [destruct isp; simpl in Hi; lia|apply cap_pos]).
      destruct isp; lia.
  - constructor; try (intros; set_solver).
    + by intros k v i p ?%lookup_idle.
    + intros v i (k & Hk). by apply lookup_idle in Hk.
    + intros i Hi. unfold ver, target in Hi. simpl in Hi. lia.
    + constructor.
  - by intros k o i v ?%lookup_idle.
Qed.

Lemma queue_step_Inv s s' :
  step moved_from s s' -> Inv s /\ length (threads s) = nthreads ->
  Inv s' /\ length (threads s') = nthreads.
Proof.
  intros [(k & th & q' & th' & ev & w & Hk & Hst & ->) Hlt] [(I1 & I2 & I3) Hlen]. simpl.
  rewrite length_insert, length_fmap. split; [|done].
  assert (Hlt' : forall isp, next_index isp (queue s) < 2 ^ 64 - 1) by (intros []; simpl; lia).
  (* the stepping thread is not asleep when it wakes the others *)
  assert (Hcomm : <[k := th']> (wake (queue s) w <$> threads s) =
    wake (queue s) w <$> <[k := th']> (threads s)).
  { rewrite list_fmap_insert. f_equal. destruct Hst; try done; try (by destruct (after_load _ _)).
    by wz_if. }
  split_and!.
  - rewrite Hcomm. apply Inv1_wake. eapply tstep_Inv1; [done| |done|done|done]. by rewrite Hlen.
  - rewrite Hcomm. apply Inv2_wake. by eapply tstep_Inv2.
  - by eapply tstep_Inv3.
Qed.

Lemma queue_reachable_Inv s :
  reachable (initial default moved_from b nthreads) (step moved_from) s -> Inv s /\ length (threads s) = nthreads.
Proof.
  revert s. apply reachable_invariant; [apply queue_initial_Inv|]. intros s s' ? ?. by apply (queue_step_Inv s).
Qed.
End reachability.

Lemma pusher_active (ths : list (Thread A)) isp i :
  (exists k th, ths !! k = Some th /\ active th = Some (isp, i)) ->
  (forall k th, ths !! k = Some th -> th = Idle \/ exists o i v, th = Run o i (Sleeping v)) ->
  exists k o v, ths !! k = Some (Run o i (Sleeping v)) /\ is_push o = isp.
Proof.
  intros (k & th & Hk & Ha) Hall. destruct (Hall k th Hk) as [->|(o & j & v & ->)]; [done|].
  simpl in Ha. injection Ha as <- ->. by exists k, o, v.
Qed.
End proofs.

(** * One caller: a bounded first-in first-out queue *)

Section sequential.
Context {A : Type} (default : A) (moved_from : A -> A).
Implicit Types q : Queue A.

Inductive SeqOp := SPush (v : A) | SPop | SPopPtr | SSize | SClear | SReserve (n : Z).
Inductive Res := RUnit | RVal (v : A) | RSize (n : Z).

Open Scope wizard_scope.

Definition seq_step (o : SeqOp) (q : Queue A) : option (Res * Queue A) :=
  match o with
  | SPush v => q1 <-? push moved_from v q; Some (RUnit, q1)
  | SPop => r <-? pop moved_from q; Some (RVal (fst r), snd r)
  | SPopPtr => q1 <-? pop_ptr moved_from q; Some (RUnit, q1)
  | SSize => Some (RSize (size q), q)
  | SClear => q1 <-? clear moved_from (length (_slots q)) q; Some (RUnit, q1)
  | SReserve n => q1 <-? reserve_and_clear default moved_from (length (_slots q)) n q; Some (RUnit, q1)
  end.

(** The specification: a capacity and the queued values; [None] is blocking for
    ever. *)
Definition Fifo : Type := Z * list A.

Definition fifo_step (o : SeqOp) (f : Fifo) : option (Res * Fifo) :=
  let (c, L) := f in
  match o with
  | SPush v => guard (Z.of_nat (length L) <? c); Some (RUnit, (c, L ++ [v]))
  | SPop => match L with v :: L => Some (RVal v, (c, L)) | [] => None end
  | SPopPtr => match L with v :: L => Some (RUnit, (c, L)) | [] => None end
  | SSize => Some (RSize (Z.of_nat (length L)), (c, L))
  | SClear => Some (RUnit, (c, []))
  | SReserve n => c1 <-? nextPowTwo n; Some (RUnit, (c1, []))
  end.

Fixpoint run {S} (step : SeqOp -> S -> option (Res * S)) (os : list SeqOp) (s : S) :
    option (list Res) :=
  match os with
  | [] => Some []
  | o :: os => r <-? step o s; rs <-? run step os (snd r); Some (fst r :: rs)
  end.
Close Scope wizard_scope.

Record seq_repr (b : nat) (q : Queue A) (L : list A) : Prop := {
  sr_wf : wf b q;
  sr_size : _next_push_index q = _next_pop_index q + Z.of_nat (length L);
  sr_room : Z.of_nat (length L) <= cap b;
  sr_full : forall (k : nat) v, L !! k = Some v ->
    let i := _next_pop_index q + Z.of_nat k in
    slot_at b q i = Some (mkSlot v (u16 (target b false i)));
  sr_empty : forall i, _next_push_index q <= i < _next_pop_index q + cap b ->
    exists v, slot_at b q i = Some (mkSlot v (u16 (target b true i)))
}.

Lemma u16_parity x y : u16 (2 * x) <> u16 (2 * y + 1).
Proof. unfold u16. intros H. apply (f_equal (fun z => z mod 2)) in H.
  change (2 ^ 16) with (2 * 2 ^ 15) in H. rewrite !Z.rem_mul_r in H by lia.
  rewrite !(Z.mul_comm 2 (_ mod _)), !Z.mod_add, !Z.mod_mod in H by lia.
  rewrite Z.mul_comm, Z.mod_mul in H by lia.
  rewrite Z.add_comm, (Z.mul_comm 2), Z.mod_add in H by lia. done.
Qed.

Lemma target_parity b isp isp' i j : isp <> isp' -> u16 (target b isp i) <> u16 (target b isp' j).
Proof.
  unfold target. intros Hne H. destruct isp, isp'; try done; rewrite Z.add_0_r in H.
  - by apply u16_parity in H.
  - symmetry in H. by apply u16_parity in H.
Qed.

Lemma window b lo i j :
  lo <= i < lo + cap b -> lo <= j < lo + cap b -> i mod cap b = j mod cap b -> i = j.
Proof.
  intros Hi Hj He. pose proof (cap_pos b).
  assert ((i - j) mod cap b = 0) as Hm by (rewrite Zminus_mod, He, Z.sub_diag; done).
  apply Z.mod_divide in Hm as [k Hk]; [|lia]. assert (k = 0) by nia. lia.
Qed.

Lemma process_spec b q o i sl :
  wf b q -> slot_at b q i = Some sl ->
  process moved_from o i q =
    if get_raw_version (futex sl) =? u16 (target b (is_push o) i) then
      Some (shown o (value sl),
            set_version (slot_id q i) (u16 (target b (is_push o) i + 1))
              (set_value (slot_id q i) (leaves moved_from o (value sl)) q))
    else None.
Proof.
  intros Hwf Hsl. unfold process.
  rewrite (load_version_eq b), Hsl, (expected_version_target b), u16_u16_add by done. simpl.
  destruct (_ =? _); [|done]. unfold callback. unfold slot_at in Hsl.
  rewrite (slot_id_mod b) by done. rewrite Hsl. by destruct o.
Qed.

Lemma slot_at_processed b q i j v w :
  wf b q -> slot_at b (set_version (slot_id q i) w (set_value (slot_id q i) v q)) j =
    if decide (j mod cap b = i mod cap b) then Some (mkSlot v w) else slot_at b q j.
Proof.
  intros Hwf.
  change (slot_id q i) with (slot_id (set_value (slot_id q i) v q) i) at 1.
  rewrite slot_at_set_version by by apply wf_set_value. rewrite slot_at_set_value by done.
  destruct (decide _) as [He|]; [|done]. by destruct (slot_at_Some b q j Hwf) as [sl ->].
Qed.

Lemma push_spec b q L v :
  seq_repr b q L -> _next_push_index q < 2 ^ 64 - 1 ->
  if Z.of_nat (length L) <? cap b then
    exists q', push moved_from v q = Some q' /\ seq_repr b q' (L ++ [v]) /\
      _next_push_index q' = _next_push_index q + 1
  else push moved_from v q = None.
Proof.
  intros [Hwf Hsz Hroom Hfull Hempty] Hlt. unfold push, run_op.
  destruct (fetch_add _ q) as [i q1] eqn:Hf.
  destruct (fetch_add_wf b true _ _ _ Hwf Hlt Hf) as (Hwf1 & Hsl1 & -> & Hi0 & Hn & Hn').
  simpl in Hn, Hn', Hi0 |- *. set (i := _next_push_index q) in *.
  assert (Hat : forall j, slot_at b q1 j = slot_at b q j) by (intros j; unfold slot_at; by rewrite Hsl1).
  destruct (Z.ltb_spec (Z.of_nat (length L)) (cap b)) as [Hr|Hr].
  - destruct (Hempty i ltac:(lia)) as (v0 & Hv0).
    rewrite (process_spec b q1 _ i _ Hwf1) by (rewrite Hat; exact Hv0).
    cbn [futex value is_push fst snd leaves shown]. unfold get_raw_version. rewrite u16_idem, Z.eqb_refl. cbn [futex value is_push fst snd].
    eexists. split; [done|]. split; [|done].
    assert (Hslot : forall j, _next_pop_index q <= j < _next_pop_index q + cap b -> j <> i ->
      slot_at b (set_version (slot_id q1 i) (u16 (target b true i + 1)) (set_value (slot_id q1 i) v q1)) j
        = slot_at b q j).
    { intros j Hj Hji. rewrite slot_at_processed, Hat by done. rewrite decide_False; [done|].
      intros He. apply Hji. apply (window b (_next_pop_index q)); [lia|lia|done]. }
    assert (Hpop : _next_pop_index (set_version (slot_id q1 i) (u16 (target b true i + 1))
      (set_value (slot_id q1 i) v q1)) = _next_pop_index q) by done.
    constructor.
    + by apply wf_set_version, wf_set_value.
    + rewrite Hpop, length_app. simpl. simpl in Hn. lia.
    + rewrite length_app. simpl. lia.
    + intros k w Hk. rewrite Hpop. cbv zeta. apply lookup_app_Some in Hk as [Hk|[Hge Hk]].
      * assert (k < length L)%nat by by eapply lookup_lt_Some. rewrite Hslot by lia. by apply Hfull.
      * apply list_lookup_singleton_Some in Hk as [Hk <-].
        replace (_next_pop_index q + Z.of_nat k) with i by lia.
        rewrite slot_at_processed by done. rewrite decide_True by done.
        f_equal. f_equal. unfold target. f_equal. lia.
    + rewrite Hpop. intros j Hj. simpl in Hj. rewrite Hslot by lia. apply Hempty. lia.
  - assert (L <> []) as HL by (intros ->; simpl in *; pose proof (cap_pos b); lia).
    destruct L as [|x L]; [done|]. clear HL.
    pose proof (Hfull 0%nat x eq_refl) as Hx. simpl in Hx. rewrite Z.add_0_r in Hx.
    assert (slot_at b q i = Some (mkSlot x (u16 (target b false (_next_pop_index q))))) as Hi.
    { rewrite <-Hx. unfold slot_at.
      replace (i mod cap b) with (_next_pop_index q mod cap b); [done|].
      rewrite <-(mod_back b i 1). f_equal. lia. }
    rewrite (process_spec b q1 _ i _ Hwf1) by (rewrite Hat; exact Hi).
    cbn [futex value is_push fst snd]. unfold get_raw_version. rewrite u16_idem.
    rewrite (proj2 (Z.eqb_neq _ _)); [done|]. by apply target_parity.
Qed.

Lemma consume_spec b q o L :
  is_push o = false -> seq_repr b q L -> _next_pop_index q < 2 ^ 64 - 1 ->
  match L with
  | v :: L' => exists q', run_op moved_from o q = Some (Some v, q') /\ seq_repr b q' L' /\
      _next_push_index q' = _next_push_index q
  | [] => run_op moved_from o q = None
  end.
Proof.
  intros Ho [Hwf Hsz Hroom Hfull Hempty] Hlt. unfold run_op.
  destruct (fetch_add _ q) as [i q1] eqn:Hf. rewrite Ho in Hf.
  destruct (fetch_add_wf b false _ _ _ Hwf Hlt Hf) as (Hwf1 & Hsl1 & -> & Hi0 & Hn & Hn').
  simpl in Hn, Hn', Hi0 |- *. set (i := _next_pop_index q) in *.
  assert (Hat : forall j, slot_at b q1 j = slot_at b q j) by (intros j; unfold slot_at; by rewrite Hsl1).
  destruct L as [|v L].
  - destruct (Hempty i) as (v0 & Hv0); [simpl in *; pose proof (cap_pos b); lia|].
    rewrite (process_spec b q1 _ i _ Hwf1) by (rewrite Hat; exact Hv0). rewrite Ho.
    cbn [futex]. unfold get_raw_version. rewrite u16_idem.
    rewrite (proj2 (Z.eqb_neq _ _)); [done|]. by apply target_parity.
  - pose proof (Hfull 0%nat v eq_refl) as Hv. simpl in Hv. rewrite Z.add_0_r in Hv.
    rewrite (process_spec b q1 _ i _ Hwf1) by (rewrite Hat; exact Hv). rewrite Ho.
    unfold shown. rewrite Ho. cbn [futex value]. unfold get_raw_version. rewrite u16_idem, Z.eqb_refl.
    eexists. split; [done|]. split; [|done]. set (w := leaves moved_from o v).
    assert (Hslot : forall j, i <= j < i + cap b -> j <> i ->
      slot_at b (set_version (slot_id q1 i) (u16 (target b false i + 1))
        (set_value (slot_id q1 i) w q1)) j = slot_at b q j).
    { intros j Hj Hji. rewrite slot_at_processed, Hat by done. rewrite decide_False; [done|].
      intros He. apply Hji. apply (window b i); [lia|lia|done]. }
    simpl in Hsz, Hroom.
    constructor; simpl; rewrite ?Hn, ?Hn'.
    + by apply wf_set_version, wf_set_value.
    + lia.
    + lia.
    + intros k u Hk. cbv zeta. assert (k < length L)%nat by by eapply lookup_lt_Some. rewrite Hslot by lia.
      replace (i + 1 + Z.of_nat k) with (i + Z.of_nat (S k)) by lia. by apply Hfull.
    + intros j Hj. destruct (decide (j = i + cap b)) as [->|Hne].
      * exists w. rewrite slot_at_processed by done.
        replace (i + cap b) with (i - (-1) * cap b) by lia.
        rewrite mod_back, target_back, decide_True by done. do 3 f_equal. unfold target. lia.
      * rewrite Hslot by lia. apply Hempty. lia.
Qed.

Lemma pop_spec b q L :
  seq_repr b q L -> _next_pop_index q < 2 ^ 64 - 1 ->
  match L with
  | v :: L' => exists q', pop moved_from q = Some (v, q') /\ seq_repr b q' L' /\
      _next_push_index q' = _next_push_index q
  | [] => pop moved_from q = None
  end.
Proof.
  intros H Hlt. pose proof (consume_spec b q Pop L eq_refl H Hlt) as Hc. unfold pop.
  destruct L as [|v L]; [by rewrite Hc|]. destruct Hc as (q' & -> & ?). by exists q'.
Qed.

Lemma pop_ptr_spec b q L :
  seq_repr b q L -> _next_pop_index q < 2 ^ 64 - 1 ->
  match L with
  | v :: L' => exists q', pop_ptr moved_from q = Some q' /\ seq_repr b q' L' /\
      _next_push_index q' = _next_push_index q
  | [] => pop_ptr moved_from q = None
  end.
Proof.
  intros H Hlt. pose proof (consume_spec b q Skip L eq_refl H Hlt) as Hc. unfold pop_ptr.
  destruct L as [|v L]; [by rewrite Hc|]. destruct Hc as (q' & -> & ?). by exists q'.
Qed.

(** [pop] of a pointer consumes the oldest value, hands it to nobody and leaves it in its slot. *)
Lemma pop_ptr_drops b q v L :
  seq_repr b q (v :: L) -> _next_pop_index q < 2 ^ 64 - 1 ->
  exists q', pop_ptr moved_from q = Some q' /\ seq_repr b q' L /\
    value <$> slot_at b q' (_next_pop_index q) = Some v.
Proof.
  intros H Hlt. destruct (pop_ptr_spec b q _ H Hlt) as (q' & Hq & H' & _).
  exists q'. split_and!; [done..|]. unfold pop_ptr, run_op in Hq.
  destruct (fetch_add _ q) as [i q1] eqn:Hf.
  destruct (fetch_add_wf b false _ _ _ (sr_wf _ _ _ H) Hlt Hf) as (Hwf1 & Hsl1 & -> & _).
  pose proof (sr_full _ _ _ H 0%nat v eq_refl) as Hv. simpl in Hv. rewrite Z.add_0_r in Hv.
  cbn [next_index is_push] in *.
  rewrite (process_spec b q1 _ _ (mkSlot v (u16 (target b false (_next_pop_index q))))) in Hq;
    [|done|by unfold slot_at in *; rewrite Hsl1].
  cbn [is_push futex value leaves shown] in Hq. wz_if; [|done]. injection Hq as <-.
  by rewrite slot_at_processed, decide_True by done.
Qed.

Lemma size_spec b q L : seq_repr b q L -> size q = Z.of_nat (length L).
Proof. intros [_ Hs _ _ _]. unfold size. wz_if; lia. Qed.

Lemma queue_clear_spec b fuel q L :
  seq_repr b q L -> (length L <= fuel)%nat -> _next_push_index q < 2 ^ 64 - 1 ->
  exists q', clear moved_from fuel q = Some q' /\ seq_repr b q' [] /\
    _next_push_index q' = _next_push_index q.
Proof.
  revert q L. induction fuel as [|fuel IH]; intros q L H Hf Hlt; simpl; rewrite (size_spec _ _ _ H).
  - destruct L; simpl in *; [|lia]. by exists q.
  - destruct L as [|v L]; simpl; [by exists q|].
    pose proof (sr_size _ _ _ H) as Hs. simpl in Hs.
    destruct (pop_ptr_spec b q _ H ltac:(lia)) as (q1 & -> & H1 & Hp).
    destruct (IH q1 L H1 ltac:(simpl in Hf; lia) ltac:(lia)) as (q2 & ? & ? & ?).
    exists q2. split_and!; [done..|lia].
Qed.

Lemma fresh_repr b :
  (b <= 32)%nat -> seq_repr b (mkQueue (replicate (Z.to_nat (cap b)) (mkSlot default 0)) (cap b) (Z.of_nat b) 0 0) [].
Proof.
  intros Hb. pose proof (cap_pos b). constructor; simpl; try done; try lia.
  - constructor; simpl; try done; try lia. rewrite length_replicate. lia.
  - intros i Hi. exists default. unfold slot_at. simpl.
    rewrite lookup_replicate_2 by (pose proof (Z.mod_pos_bound i (cap b)); lia).
    unfold target. by rewrite Z.div_small by lia.
Qed.

Lemma queue_reserve_spec b q L n :
  seq_repr b q L -> 0 <= n <= 2 ^ 32 -> _next_push_index q < 2 ^ 64 - 1 ->
  exists b' q', nextPowTwo n = Some (cap b') /\ (b' <= 32)%nat /\
    reserve_and_clear default moved_from (length (_slots q)) n q = Some q' /\ seq_repr b' q' [] /\
    _next_push_index q' <= _next_push_index q.
Proof.
  intros H Hn Hlt.
  assert (exists b', nextPowTwo n = Some (cap b') /\ (b' <= 32)%nat) as (b' & Hc & Hb').
  { destruct (decide (n = 0)) as [->|]; [by exists 0%nat; split; [|lia]|].
    exists (Z.to_nat (Z.log2_up n)). rewrite nextPowTwo_log2_up by lia. unfold cap.
    rewrite Z2Nat.id by apply Z.log2_up_nonneg. split; [done|].
    assert (Z.log2_up n <= 32); [|lia]. apply Z.log2_up_le_pow2; lia. }
  exists b'. unfold reserve_and_clear. rewrite Hc.
  pose proof (wf_capacity _ _ (sr_wf _ _ _ H)) as Hcap. unfold capacity. rewrite Hcap.
  wz_if.
  - assert (b' = b) as ->.
    { apply Nat2Z.inj. apply (Z.pow_inj_r 2); [lia..|done]. }
    pose proof (wf_length _ _ (sr_wf _ _ _ H)). pose proof (sr_room _ _ _ H).
    destruct (queue_clear_spec b (length (_slots q)) q L H ltac:(lia) Hlt) as (q' & ? & ? & ?).
    exists q'. split_and!; (done || lia).
  - assert (cap b' <= 2 ^ 32) by (apply Z.pow_le_mono_r; lia). pose proof (cap_pos b').
    eexists. split_and!; [done|done|done| |simpl; apply (wf_push _ _ (sr_wf _ _ _ H))].
    rewrite u64_small by lia. unfold cap at 3. rewrite popcount_ones by lia. by apply fresh_repr.
Qed.

Definition reserve_ok (o : SeqOp) : Prop :=
  match o with SReserve n => 0 <= n <= 2 ^ 32 | _ => True end.

Lemma run_refines os b q L :
  seq_repr b q L -> Forall reserve_ok os ->
  _next_push_index q + Z.of_nat (length os) < 2 ^ 64 - 1 ->
  run seq_step os q = run fifo_step os (cap b, L).
Proof.
  revert b q L. induction os as [|o os IH]; intros b q L H Hok Hlt; [done|].
  apply Forall_cons in Hok as [Ho Hok]. simpl in Hlt.
  pose proof (sr_size _ _ _ H) as Hsz.
  destruct o as [v| | | | |n]; cbn [run seq_step fifo_step].
  - pose proof (push_spec b q L v H ltac:(lia)) as Hp. destruct (_ <? _).
    + destruct Hp as (q' & -> & H' & ?). cbn [fst snd]. by rewrite (IH b q' (L ++ [v])) by (done || lia).
    + by rewrite Hp.
  - pose proof (pop_spec b q L H ltac:(lia)) as Hp. destruct L as [|v L]; [by rewrite Hp|].
    destruct Hp as (q' & -> & H' & ?). cbn [fst snd]. by rewrite (IH b q' L) by (done || lia).
  - pose proof (pop_ptr_spec b q L H ltac:(lia)) as Hp. destruct L as [|v L]; [by rewrite Hp|].
    destruct Hp as (q' & -> & H' & ?). cbn [fst snd]. by rewrite (IH b q' L) by (done || lia).
  - cbn [fst snd]. rewrite (size_spec _ _ _ H). by rewrite (IH b q L) by (done || lia).
  - pose proof (wf_length _ _ (sr_wf _ _ _ H)). pose proof (sr_room _ _ _ H).
    destruct (queue_clear_spec b (length (_slots q)) q L H ltac:(lia) ltac:(lia)) as (q' & -> & H' & ?).
    cbn [fst snd]. by rewrite (IH b q' []) by (done || lia).
  - destruct (queue_reserve_spec b q L n H Ho ltac:(lia)) as (b' & q' & -> & ? & -> & H' & ?).
    cbn [fst snd]. by rewrite (IH b' q' []) by (done || lia).
Qed.
End sequential.

(** * Concrete runs *)

Lemma queue_reachable_tstep {A} (default : A) moved_from b n (s s' : State A) k th q' th' ev w :
  reachable (initial default moved_from b n) (step moved_from) s ->
  (_next_push_index (queue s) <? 2 ^ 64 - 1) && (_next_pop_index (queue s) <? 2 ^ 64 - 1) = true ->
  threads s !! k = Some th -> tstep moved_from (queue s) th q' th' ev w ->
  s' = mkState q' (<[k := th']> (wake (queue s) w <$> threads s)) (trace s ++ ev) ->
  reachable (initial default moved_from b n) (step moved_from) s'.
Proof.
  intros Hr Hlt Hk Hst ->. wz_bool. eapply reachable_step; [exact Hr|]. split; [|lia].
  exists k, th, q', th', ev, w. done.
Qed.

Abbreviation demo_reachable b := (reachable (initial 0 (fun v => v) b 2) (step (fun v => v))).

(** Thread 1 pops first and falls asleep. *)
Definition demo_asleep : State Z :=
  mkState (mkQueue [mkSlot 0 65536] 1 0 0 1) [Idle; Run Pop 0 (Sleeping 65536)] [].

(** Then thread 0 pushes and is about to wake the slot. *)
Definition demo_waking : State Z :=
  mkState (mkQueue [mkSlot 7 1] 1 0 1 1) [Run (Push 7) 0 Wake; Run Pop 0 (Sleeping 65536)]
    [Pushed 0 7; Advanced true 0].

(** Thread 1 has read the value. *)
Definition demo_popped : State Z :=
  mkState (mkQueue [mkSlot 7 1] 1 0 1 1) [Idle; Run Pop 0 Advance]
    [Pushed 0 7; Advanced true 0; Popped 0 7].

Lemma demo_start b : (b <= 1)%nat ->
  demo_reachable b (mkState (mkQueue (replicate (2 ^ b) (mkSlot 0 0)) (2 ^ Z.of_nat b) (Z.of_nat b) 0 0)
    [Idle; Idle] []).
Proof.
  intros Hb. apply reachable_init. eexists. split; [|reflexivity].
  destruct b as [|[|b]]; [vm_compute; reflexivity..|lia].
Qed.

Lemma demo_asleep_reachable : demo_reachable 0 demo_asleep.
Proof.
  assert (demo_reachable 0 (mkState (mkQueue [mkSlot 0 0] 1 0 0 1) [Idle; Run Pop 0 Load] [])) as H1.
  { eapply (queue_reachable_tstep _ _ _ _ _ _ 1); [exact (demo_start 0 ltac:(lia))|done|done| |].
    - apply (t_start _ _ Pop). reflexivity.
    - reflexivity. }
  assert (demo_reachable 0 (mkState (mkQueue [mkSlot 0 0] 1 0 0 1) [Idle; Run Pop 0 (Cas 0)] [])) as H2.
  { eapply (queue_reachable_tstep _ _ _ _ _ _ 1); [exact H1|done|done| |].
    - apply (t_load _ _ Pop 0 0). reflexivity.
    - reflexivity. }
  assert (demo_reachable 0 (mkState (mkQueue [mkSlot 0 65536] 1 0 0 1) [Idle; Run Pop 0 (Wait 65536)] [])) as H3.
  { eapply (queue_reachable_tstep _ _ _ _ _ _ 1); [exact H2|done|done| |].
    - apply (t_cas _ _ Pop 0 0). reflexivity.
    - reflexivity. }
  eapply (queue_reachable_tstep _ _ _ _ _ _ 1); [exact H3|done|done| |].
  - apply (t_wait _ _ Pop 0 65536). reflexivity.
  - reflexivity.
Qed.

Lemma demo_waking_reachable : demo_reachable 0 demo_waking.
Proof.
  assert (demo_reachable 0 (mkState (mkQueue [mkSlot 0 65536] 1 0 1 1)
    [Run (Push 7) 0 Load; Run Pop 0 (Sleeping 65536)] [Pushed 0 7])) as H1.
  { eapply (queue_reachable_tstep _ _ _ _ _ _ 0); [exact demo_asleep_reachable|done|done| |].
    - apply (t_start _ _ (Push 7)). reflexivity.
    - reflexivity. }
  assert (demo_reachable 0 (mkState (mkQueue [mkSlot 0 65536] 1 0 1 1)
    [Run (Push 7) 0 Ready; Run Pop 0 (Sleeping 65536)] [Pushed 0 7])) as H2.
  { eapply (queue_reachable_tstep _ _ _ _ _ _ 0); [exact H1|done|done| |].
    - apply (t_load _ _ (Push 7) 0 65536). reflexivity.
    - reflexivity. }
  assert (demo_reachable 0 (mkState (mkQueue [mkSlot 7 65536] 1 0 1 1)
    [Run (Push 7) 0 Advance; Run Pop 0 (Sleeping 65536)] [Pushed 0 7])) as H3.
  { eapply (queue_reachable_tstep _ _ _ _ _ _ 0); [exact H2|done|done| |].
    - apply (t_callback _ _ (Push 7) 0 None). reflexivity.
    - reflexivity. }
  eapply (queue_reachable_tstep _ _ _ _ _ _ 0); [exact H3|done|done| |].
  - apply (t_advance _ _ (Push 7) 0 65536). reflexivity.
  - reflexivity.
Qed.

Lemma demo_popped_reachable : demo_reachable 0 demo_popped.
Proof.
  assert (demo_reachable 0 (mkState (mkQueue [mkSlot 7 1] 1 0 1 1) [Idle; Run Pop 0 Load]
    [Pushed 0 7; Advanced true 0])) as H1.
  { eapply (queue_reachable_tstep _ _ _ _ _ _ 0); [exact demo_waking_reachable|done|done| |].
    - apply (t_wake _ _ (Push 7) 0).
    - reflexivity. }
  assert (demo_reachable 0 (mkState (mkQueue [mkSlot 7 1] 1 0 1 1) [Idle; Run Pop 0 Ready]
    [Pushed 0 7; Advanced true 0])) as H2.
  { eapply (queue_reachable_tstep _ _ _ _ _ _ 1); [exact H1|done|done| |].
    - apply (t_load _ _ Pop 0 1). reflexivity.
    - reflexivity. }
  eapply (queue_reachable_tstep _ _ _ _ _ _ 1); [exact H2|done|done| |].
  - apply (t_callback _ _ Pop 0 (Some 7)). reflexivity.
  - reflexivity.
Qed.

(** Two pushes on the two slots of a queue of capacity 2. *)
Definition demo_two_pushes : State Z :=
  mkState (mkQueue [mkSlot 0 0; mkSlot 0 0] 2 1 2 0) [Run (Push 7) 0 Ready; Run (Push 8) 1 Ready]
    [Pushed 0 7; Pushed 1 8].

Lemma demo_two_pushes_reachable : demo_reachable 1 demo_two_pushes.
Proof.
  assert (demo_reachable 1 (mkState (mkQueue [mkSlot 0 0; mkSlot 0 0] 2 1 1 0)
    [Run (Push 7) 0 Load; Idle] [Pushed 0 7])) as H1.
  { eapply (queue_reachable_tstep _ _ _ _ _ _ 0); [exact (demo_start 1 ltac:(lia))|done|done| |].
    - apply (t_start _ _ (Push 7)). reflexivity.
    - reflexivity. }
  assert (demo_reachable 1 (mkState (mkQueue [mkSlot 0 0; mkSlot 0 0] 2 1 2 0)
    [Run (Push 7) 0 Load; Run (Push 8) 1 Load] [Pushed 0 7; Pushed 1 8])) as H2.
  { eapply (queue_reachable_tstep _ _ _ _ _ _ 1); [exact H1|done|done| |].
    - apply (t_start _ _ (Push 8)). reflexivity.
    - reflexivity. }
  assert (demo_reachable 1 (mkState (mkQueue [mkSlot 0 0; mkSlot 0 0] 2 1 2 0)
    [Run (Push 7) 0 Ready; Run (Push 8) 1 Load] [Pushed 0 7; Pushed 1 8])) as H3.
  { eapply (queue_reachable_tstep _ _ _ _ _ _ 0); [exact H2|done|done| |].
    - apply (t_load _ _ (Push 7) 0 0). reflexivity.
    - reflexivity. }
  eapply (queue_reachable_tstep _ _ _ _ _ _ 1); [exact H3|done|done| |].
  - apply (t_load _ _ (Push 8) 1 0). reflexivity.
  - reflexivity.
Qed.

(** * Properties *)

(** C8: the queue is first in first out: with at most 2^15 threads, whatever the
    interleaving, each pop ticket is served at most once and receives exactly the
    value of the push with the same ticket number, however often the 16-bit slot
    versions have wrapped around. *)
Theorem pop_gets_its_push {A} (default : A) moved_from (b nthreads : nat) (s : State A) :
  (b <= 32)%nat -> Z.of_nat nthreads <= 2 ^ 15 ->
  reachable (initial default moved_from b nthreads) (step moved_from) s ->
  (forall i v, Popped i v ∈ trace s -> Pushed i v ∈ trace s) /\
  (forall i v v', Pushed i v ∈ trace s -> Pushed i v' ∈ trace s -> v = v') /\
  NoDup (popped (trace s)).
Proof.
  intros Hb Hn Hr. destruct (queue_reachable_Inv _ _ _ _ Hb Hn s Hr) as [(_ & I2 & _) _].
  split_and!; [|apply (inv_pushed _ _ _ _ I2)|apply (inv_popped_once _ _ _ _ I2)].
  intros i v Hi. by apply (inv_popped _ _ _ _ I2).
Qed.

Lemma pop_gets_its_push_witness :
  (forall i v, Popped i v ∈ trace demo_popped -> Pushed i v ∈ trace demo_popped) /\
  (forall i v v', Pushed i v ∈ trace demo_popped -> Pushed i v' ∈ trace demo_popped -> v = v') /\
  NoDup (popped (trace demo_popped)).
Proof. apply (pop_gets_its_push 0 (fun v => v) 0 2); [lia..|exact demo_popped_reachable]. Defined.

(** A slot belongs to one thread at a time: with at most 2^15 threads, two
    different threads that run a callback or have run it and not yet advanced the
    version are on different slots. *)
Theorem slots_are_exclusive {A} (default : A) moved_from (b nthreads : nat) (s : State A) k k' o i p o' i' p' :
  (b <= 32)%nat -> Z.of_nat nthreads <= 2 ^ 15 ->
  reachable (initial default moved_from b nthreads) (step moved_from) s ->
  threads s !! k = Some (Run o i p) -> threads s !! k' = Some (Run o' i' p') -> k <> k' ->
  (p = Ready \/ p = Advance) -> (p' = Ready \/ p' = Advance) ->
  slot_id (queue s) i <> slot_id (queue s) i'.
Proof.
  intros Hb Hn Hr Hk Hk' Hne Hp Hp'. destruct (queue_reachable_Inv _ _ _ _ Hb Hn s Hr) as [(I1 & _ & _) _].
  rewrite !(slot_id_mod b) by apply I1. intros He. apply Hne. by eapply turn_unique.
Qed.

Lemma slots_are_exclusive_witness : slot_id (queue demo_two_pushes) 0 <> slot_id (queue demo_two_pushes) 1.
Proof.
  apply (slots_are_exclusive 0 (fun v => v) 1 2 demo_two_pushes 0 1 (Push 7) 0 Ready (Push 8) 1 Ready);
    [lia|lia|exact demo_two_pushes_reachable|reflexivity|reflexivity|lia|by left|by left].
Defined.

(** C18: no wake-up is lost: when a thread sleeps although its slot has reached
    the version it waits for, another thread is about to wake the slot's
    waiters. *)
Theorem no_lost_wakeup {A} (default : A) moved_from (b nthreads : nat) (s : State A) k o i v cur :
  (b <= 32)%nat -> Z.of_nat nthreads <= 2 ^ 15 ->
  reachable (initial default moved_from b nthreads) (step moved_from) s ->
  threads s !! k = Some (Run o i (Sleeping v)) ->
  load_version (queue s) (slot_id (queue s) i) = Some cur ->
  get_raw_version cur = expected_version (is_push o) (queue s) i ->
  exists k' o' i', threads s !! k' = Some (Run o' i' Wake) /\
    slot_id (queue s) i' = slot_id (queue s) i.
Proof.
  intros Hb Hn Hr Hk Hl Hraw. destruct (queue_reachable_Inv _ _ _ _ Hb Hn s Hr) as [(I1 & _ & I3) _].
  destruct (I3 k o i v Hk) as [Hl'|(k' & o' & i' & Hk' & Hi')].
  - exfalso. rewrite Hl in Hl'. injection Hl' as <-.
    pose proof (inv_thread _ _ _ _ I1 _ _ Hk) as (_ & _ & _ & Hne).
    apply Hne. rewrite (expected_version_target b) in Hraw by apply I1. done.
  - exists k', o', i'. split; [done|]. by rewrite !(slot_id_mod b) by apply I1.
Qed.

Lemma no_lost_wakeup_witness :
  exists k' o' i', threads demo_waking !! k' = Some (Run o' i' Wake) /\
    slot_id (queue demo_waking) i' = slot_id (queue demo_waking) 0.
Proof.
  apply (no_lost_wakeup 0 (fun v => v) 0 2 demo_waking 1 Pop 0 65536 1);
    [lia|lia|exact demo_waking_reachable|reflexivity|reflexivity|reflexivity].
Defined.

(** The queue does not deadlock: when every thread is idle or asleep, a
    sleeping pop has a ticket no push has taken yet (the queue is empty for it)
    and a sleeping push is a whole capacity ahead of the pops (the queue is full
    for it). *)
Theorem only_empty_or_full_blocks {A} (default : A) moved_from (b nthreads : nat) (s : State A) :
  (b <= 32)%nat -> Z.of_nat nthreads <= 2 ^ 15 ->
  reachable (initial default moved_from b nthreads) (step moved_from) s ->
  (forall k th, threads s !! k = Some th -> th = Idle \/ exists o i v, th = Run o i (Sleeping v)) ->
  forall k o i v, threads s !! k = Some (Run o i (Sleeping v)) ->
    match o with
    | Pop | Skip => _next_push_index (queue s) <= i
    | Push _ => _next_pop_index (queue s) + 2 ^ Z.of_nat b <= i
    end.
Proof.
  intros Hb Hn Hr Hall k o i v Hk.
  destruct (queue_reachable_Inv _ _ _ _ Hb Hn s Hr) as [(I1 & _ & I3) _].
  (* nobody is at the current version of a slot *)
  assert (Hstuck : forall isp j, 0 <= j < next_index isp (queue s) ->
    ver b (trace s) (j mod cap b) <> target b isp j).
  { intros isp j Hj Hv. destruct (pusher_active (threads s) isp j) as (k' & o' & v' & Hk' & <-);
      [apply (inv_pending _ _ _ _ I1); [done|lia]|done|].
    destruct (I3 k' o' j v' Hk') as [Hl|(k2 & o2 & i2 & Hk2 & _)].
    - pose proof (inv_thread _ _ _ _ I1 _ _ Hk') as (_ & _ & _ & Hne). apply Hne.
      rewrite (load_version_eq b) in Hl by apply I1. apply fmap_Some in Hl as (sl & Hsl & ->).
      pose proof (inv_word _ _ _ _ I1 _ _ Hsl) as Hw. apply word_raw in Hw. rewrite <-Hv. done.
    - by destruct (Hall _ _ Hk2) as [?|(? & ? & ? & ?)]. }
  pose proof (inv_thread _ _ _ _ I1 _ _ Hk) as (Hi & Hv & _). specialize (Hv ltac:(done)).
  pose proof (Hstuck _ _ Hi) as Hne. pose proof (cap_pos b) as Hcap. fold (cap b).
  set (n := ver b (trace s) (i mod cap b)) in *.
  assert (Hn0 : 0 <= n) by apply ver_nonneg.
  (* the operation at the slot's version, [m] laps behind *)
  assert (Hback : forall isp m, n = target b isp i - 2 * m -> 0 <= m -> 0 <= i - m * cap b ->
    next_index isp (queue s) <= i - m * cap b).
  { intros isp m Hm Hm0 Hp. apply Z.le_ngt. intros Hlt. apply (Hstuck isp (i - m * cap b)); [lia|].
    rewrite mod_back, target_back. fold n. lia. }
  assert (Hdiv : forall m, m <= i / cap b -> 0 <= i - m * cap b).
  { intros m Hm. pose proof (Z.mul_div_le i (cap b)). nia. }
  cut (if is_push o then _next_pop_index (queue s) + cap b <= i else _next_push_index (queue s) <= i);
    [by destruct o|].
  destruct (Z.Even_or_Odd n) as [[m Hm]|[m Hm]]; destruct (is_push o); unfold target in *.
  - exfalso. pose proof (Hback true (i / cap b - m) ltac:(simpl; lia) ltac:(lia) ltac:(apply Hdiv; lia)).
    assert (0 < (i / cap b - m) * cap b) by (apply Z.mul_pos_pos; lia). simpl in *; lia.
  - pose proof (Hback true (i / cap b - m) ltac:(simpl; lia) ltac:(lia) ltac:(apply Hdiv; lia)).
    assert (0 <= (i / cap b - m) * cap b) by (apply Z.mul_nonneg_nonneg; lia). simpl in *; lia.
  - pose proof (Hback false (i / cap b - m) ltac:(simpl; lia) ltac:(lia) ltac:(apply Hdiv; lia)).
    assert (1 * cap b <= (i / cap b - m) * cap b) by (apply Z.mul_le_mono_nonneg_r; lia). simpl in *; lia.
  - exfalso. pose proof (Hback false (i / cap b - m) ltac:(simpl; lia) ltac:(lia) ltac:(apply Hdiv; lia)).
    assert (0 < (i / cap b - m) * cap b) by (apply Z.mul_pos_pos; lia). simpl in *; lia.
Qed.

Lemma only_empty_or_full_blocks_witness : _next_push_index (queue demo_asleep) <= 0.
Proof.
  apply (only_empty_or_full_blocks 0 (fun v => v) 0 2 demo_asleep ltac:(lia) ltac:(lia)
    demo_asleep_reachable) with (k := 1%nat) (o := Pop) (v := 65536); [|reflexivity].
  intros [|[|k]] th; simpl; intros Hk; [left; congruence| |done].
  right. exists Pop, 0, 65536. congruence.
Defined.

(** C6: used by one caller, a queue built for [n] elements behaves as a bounded
    first-in first-out queue whose capacity is [n] rounded up to a power of two,
    for every sequence of pushes, pops, [size], [clear] and [reserve_and_clear]: a
    push blocks exactly when it is full, a pop when it is empty. A [pop] into a pointer
    takes the oldest value and delivers nothing. *)
Theorem queue_refines_fifo {A} (default : A) moved_from n os q :
  0 <= n <= 2 ^ 32 -> Forall reserve_ok os -> Z.of_nat (length os) < 2 ^ 64 - 1 ->
  ConcurrentBoundedQueue default moved_from n = Some q ->
  exists c, nextPowTwo n = Some c /\
    run (seq_step default moved_from) os q = run fifo_step os (c, []).
Proof.
  intros Hn Hok Hlen Hq.
  assert (exists b, nextPowTwo n = Some (cap b) /\ (b <= 32)%nat) as (b & Hc & Hb).
  { destruct (queue_reserve_spec default moved_from 0 _ [] n (fresh_repr default 0 ltac:(lia)) Hn ltac:(done))
      as (b & _ & ? & ? & _). eauto. }
  exists (cap b). split; [done|]. apply run_refines; [|done|].
  - unfold ConcurrentBoundedQueue, reserve_and_clear in Hq. rewrite Hc in Hq.
    unfold capacity in Hq. simpl in Hq. pose proof (cap_pos b).
    assert (cap b <= 2 ^ 32) by (apply Z.pow_le_mono_r; lia).
    wz_if; [lia|]. injection Hq as <-. rewrite u64_small by lia. unfold cap at 3.
    rewrite popcount_ones by lia. by apply fresh_repr.
  - unfold ConcurrentBoundedQueue, reserve_and_clear in Hq. rewrite Hc in Hq.
    unfold capacity in Hq. simpl in Hq. pose proof (cap_pos b). wz_if; [lia|]. by injection Hq as <-.
Qed.

Lemma queue_refines_fifo_witness :
  exists c, nextPowTwo 3 = Some c /\
    run (seq_step 0 (fun v => v)) [SPush 5; SPush 6; SSize; SPop; SPopPtr; SPush 2; SClear; SReserve 9; SPush 1; SPop]
      (mkQueue (replicate 4 (mkSlot 0 0)) 4 2 0 0) =
    run fifo_step [SPush 5; SPush 6; SSize; SPop; SPopPtr; SPush 2; SClear; SReserve 9; SPush 1; SPop] (c, []).
Proof.
  apply (queue_refines_fifo 0 (fun v => v) 3); [lia| |simpl; lia|reflexivity].
  repeat constructor; simpl; lia.
Defined.
