(* ===== verification/HashSegment.v ===== *)
(** One segment of the concurrent hash map of
    src/src/concurrent/concurrent_hashmap_detail.h, under its mutex.

    The segment's memory is explicit: nodes with their 16-bit reference counts, the
    places that hold node pointers (the slots of the bucket lists and the [next_]
    fields), the bucket lists, and the objects handed to the hazard-pointer domain
    ([retire]) which is free to delete them at any later time ([reclaim]).  [None]
    is undefined behaviour: a null or dangling pointer, an index outside the bucket
    array, a failed [DCHECK].  The hash function is a parameter. *)
From Stdlib Require Import Floats.SpecFloat.
From S2P Require Import Prelude Bits.

(** * Single-precision arithmetic of the load factor *)

Definition float_of_size (n : Z) : spec_float := binary_normalize 24 128 n 0 false.
Definition float_mul (x y : spec_float) : spec_float := SFmul 24 128 x y.

(** Conversion of a non-negative float to [size_t] truncates; anything out of range
    is undefined in C++ and mapped to 0. *)
Definition size_of_float (x : spec_float) : Z :=
  match x with
  | S754_finite false m e =>
      u64 (if 0 <=? e then Z.pos m * 2 ^ e else Z.pos m / 2 ^ (- e))
  | _ => 0
  end.

(** [1.05f] *)
Definition default_load_factor : spec_float := S754_finite false 8808038 (-23).

Definition threshold_for (bucket_count : Z) (load_factor : spec_float) : Z :=
  size_of_float (float_mul (float_of_size bucket_count) load_factor).

(** * Memory *)

(** The places that hold a [Node*]: slot [i] of bucket list [b], or the [next_]
    field of node [n]. *)
Definition Loc : Type := (nat * nat) + nat.
Definition Slot (b i : nat) : Loc := inl (b, i).
Definition Next (n : nat) : Loc := inr n.

Inductive Obj := ONode (n : nat) | OBucketList (b : nat).

#[export] Instance Obj_eq_dec : EqDecision Obj.
Proof. solve_decision. Defined.

Section segment.
Context {K V : Type} `{EqDecision K} (HashFn : K -> Z) (ShardBits : Z).

Record Node := mkNode { key : K; value : V; refcount_ : Z }.

(** [ptrs] has no entry for a null pointer. *)
Record Segment := mkSegment {
  nodes : gmap nat Node;
  ptrs : gmap Loc nat;
  lists : gmap nat Z;
  bucket_list_ : nat;
  size_ : Z;
  load_factor_ : spec_float;
  load_factor_cnt_threshold_ : Z;
  retired : list Obj;
  next_id : nat
}.

Definition set_nodes (x : gmap nat Node) (s : Segment) : Segment :=
  mkSegment x (ptrs s) (lists s) (bucket_list_ s) (size_ s) (load_factor_ s)
    (load_factor_cnt_threshold_ s) (retired s) (next_id s).
Definition set_ptrs (x : gmap Loc nat) (s : Segment) : Segment :=
  mkSegment (nodes s) x (lists s) (bucket_list_ s) (size_ s) (load_factor_ s)
    (load_factor_cnt_threshold_ s) (retired s) (next_id s).
Definition set_lists (x : gmap nat Z) (s : Segment) : Segment :=
  mkSegment (nodes s) (ptrs s) x (bucket_list_ s) (size_ s) (load_factor_ s)
    (load_factor_cnt_threshold_ s) (retired s) (next_id s).
Definition set_bucket_list (x : nat) (s : Segment) : Segment :=
  mkSegment (nodes s) (ptrs s) (lists s) x (size_ s) (load_factor_ s)
    (load_factor_cnt_threshold_ s) (retired s) (next_id s).
Definition set_size (x : Z) (s : Segment) : Segment :=
  mkSegment (nodes s) (ptrs s) (lists s) (bucket_list_ s) x (load_factor_ s)
    (load_factor_cnt_threshold_ s) (retired s) (next_id s).
Definition set_load (lf : spec_float) (th : Z) (s : Segment) : Segment :=
  mkSegment (nodes s) (ptrs s) (lists s) (bucket_list_ s) (size_ s) lf th (retired s) (next_id s).
Definition set_retired (x : list Obj) (s : Segment) : Segment :=
  mkSegment (nodes s) (ptrs s) (lists s) (bucket_list_ s) (size_ s) (load_factor_ s)
    (load_factor_cnt_threshold_ s) x (next_id s).
Definition set_next_id (x : nat) (s : Segment) : Segment :=
  mkSegment (nodes s) (ptrs s) (lists s) (bucket_list_ s) (size_ s) (load_factor_ s)
    (load_factor_cnt_threshold_ s) (retired s) x.

(** [load] and [store] of an atomic pointer. *)
Definition load (l : Loc) (s : Segment) : option nat := ptrs s !! l.
Definition store (l : Loc) (v : option nat) (s : Segment) : Segment :=
  set_ptrs (match v with Some n => <[l := n]> (ptrs s) | None => delete l (ptrs s) end) s.

Open Scope wizard_scope.

(** * Nodes *)

(** [new Node(key, value)]: one reference, no successor. *)
Definition new_node (k : K) (v : V) (s : Segment) : nat * Segment :=
  let n := next_id s in
  (n, set_next_id (S n) (set_nodes (<[n := mkNode k v 1]> (nodes s)) s)).

Definition retire (o : Obj) (s : Segment) : Segment := set_retired (retired s ++ [o]) s.

Definition acquire (n : nat) (s : Segment) : option Segment :=
  nd <-? nodes s !! n;
  Some (set_nodes (<[n := mkNode (key nd) (value nd) (u16 (refcount_ nd + 1))]> (nodes s)) s).

Definition release (n : nat) (s : Segment) : option Segment :=
  nd <-? nodes s !! n;
  guard negb (refcount_ nd =? 0);
  let s1 := set_nodes (<[n := mkNode (key nd) (value nd) (u16 (refcount_ nd - 1))]> (nodes s)) s in
  Some (if refcount_ nd =? 1 then retire (ONode n) s1 else s1).

(** [if (p) p->acquire()] and [if (p) p->release()]. *)
Definition acquire_opt (p : option nat) (s : Segment) : option Segment :=
  match p with Some n => acquire n s | None => Some s end.
Definition release_opt (p : option nat) (s : Segment) : option Segment :=
  match p with Some n => release n s | None => Some s end.

(** * Bucket lists *)

Definition new_bucket_list (count : Z) (s : Segment) : nat * Segment :=
  let b := next_id s in
  (b, set_next_id (S b) (set_lists (<[b := count]> (lists s)) s)).

(** Access to slot [i] of bucket list [b]. *)
Definition get_atomic_head (b : nat) (i : Z) (s : Segment) : option Loc :=
  c <-? lists s !! b;
  guard ((0 <=? i) && (i <? c));
  Some (Slot b (Z.to_nat i)).

Definition bucket_id (hash count : Z) : Z := Z.land (Z.shiftr hash ShardBits) (u64 (count - 1)).

(** [~NodeT] and [~BucketList], when the domain deletes a retired object. *)
Definition delete_node (n : nat) (s : Segment) : option Segment :=
  nd <-? nodes s !! n;
  let next := load (Next n) s in
  release_opt next (set_nodes (delete n (nodes s)) (store (Next n) None s)).

Fixpoint release_slots (b : nat) (js : list nat) (s : Segment) : option Segment :=
  match js with
  | [] => Some s
  | i :: js =>
      let head := load (Slot b i) s in
      s1 <-? release_opt head (store (Slot b i) None s);
      release_slots b js s1
  end.

Definition delete_bucket_list (b : nat) (s : Segment) : option Segment :=
  c <-? lists s !! b;
  s1 <-? release_slots b (seq 0 (Z.to_nat c)) s;
  Some (set_lists (delete b (lists s1)) s1).

(** The domain deletes the [i]-th retired object. *)
Definition reclaim (i : nat) (s : Segment) : option Segment :=
  o <-? retired s !! i;
  let s1 := set_retired (delete i (retired s)) s in
  match o with
  | ONode n => delete_node n s1
  | OBucketList b => delete_bucket_list b s1
  end.

(** * Operations *)

Definition set_load_factor (lf : spec_float) (s : Segment) : option Segment :=
  c <-? lists s !! bucket_list_ s;
  Some (set_load lf (threshold_for c lf) s).

Definition null_segment : Segment :=
  mkSegment ∅ ∅ ∅ 0 0 default_load_factor 0 [] 0.

Definition ConcurrentHashMapSegment (buckets_count : Z) (lf : spec_float) : option Segment :=
  c <-? nextPowTwo buckets_count;
  let (b, s) := new_bucket_list c null_segment in
  set_load_factor lf (set_bucket_list b s).

(** Walk a chain from the place [prev]; [fuel] bounds the nodes visited. *)
Fixpoint scan (fuel : nat) (k : K) (prev : Loc) (s : Segment) : option (Loc * option nat) :=
  match load prev s with
  | None => Some (prev, None)
  | Some n =>
      nd <-? nodes s !! n;
      if decide (k = key nd) then Some (prev, Some n)
      else match fuel with
           | O => None
           | S fuel => scan fuel k (Next n) s
           end
  end.

Definition fuel_of (s : Segment) : nat := size (nodes s).

(** [rehash]: the nodes of one old bucket are copied to the front of the new
    buckets. *)
Fixpoint rehash_chain (fuel : nat) (new_list : nat) (new_cnt : Z) (p : option nat) (s : Segment) :
    option Segment :=
  match p with
  | None => Some s
  | Some n =>
      match fuel with
      | O => None
      | S fuel =>
          nd <-? nodes s !! n;
          let (new, s1) := new_node (key nd) (value nd) s in
          slot <-? get_atomic_head new_list (bucket_id (HashFn (key nd)) new_cnt) s1;
          let s2 := store (Next new) (load slot s1) s1 in
          let s3 := store slot (Some new) s2 in
          rehash_chain fuel new_list new_cnt (load (Next n) s3) s3
      end
  end.

Fixpoint rehash_buckets (fuel : nat) (old_list new_list : nat) (new_cnt : Z) (js : list nat)
    (s : Segment) : option Segment :=
  match js with
  | [] => Some s
  | i :: js =>
      s1 <-? rehash_chain fuel new_list new_cnt (load (Slot old_list i) s) s;
      rehash_buckets fuel old_list new_list new_cnt js s1
  end.

(** The new bucket list with its copies, before it is stored. *)
Definition rehash_copy (new_bucket_cnt : Z) (s : Segment) : option (nat * Segment) :=
  let old := bucket_list_ s in
  old_cnt <-? lists s !! old;
  let s1 := set_load (load_factor_ s) (threshold_for new_bucket_cnt (load_factor_ s)) s in
  let (new, s2) := new_bucket_list new_bucket_cnt s1 in
  s3 <-? rehash_buckets (fuel_of s) old new new_bucket_cnt (seq 0 (Z.to_nat old_cnt)) s2;
  Some (new, s3).

(** [bucket_list_.store(new); old->retire()] *)
Definition swap_bucket_list (old new : nat) (s : Segment) : Segment :=
  retire (OBucketList old) (set_bucket_list new s).

Definition rehash (new_bucket_cnt : Z) (s : Segment) : option Segment :=
  r <-? rehash_copy new_bucket_cnt s;
  Some (swap_bucket_list (bucket_list_ s) (fst r) (snd r)).

(** What [insert_internal] does under the mutex, with the node to release after it. *)
Definition insert_locked (hash : Z) (k : K) (new : nat) (s : Segment) :
    option (bool * option nat * Segment) :=
  c0 <-? lists s !! bucket_list_ s;
  s <-? (if load_factor_cnt_threshold_ s <=? size_ s then rehash (u64 (Z.shiftl c0 1)) s else Some s);
  c <-? lists s !! bucket_list_ s;
  slot <-? get_atomic_head (bucket_list_ s) (bucket_id hash c) s;
  let head := load slot s in
  r <-? scan (fuel_of s) k slot s;
  match r with
  | (prev, Some n) =>
      let node_next := load (Next n) s in
      s1 <-? acquire_opt node_next s;
      let s2 := store (Next new) node_next s1 in
      Some (true, Some n, store prev (Some new) s2)
  | (_, None) =>
      let s1 := set_size (u64 (size_ s + 1)) s in
      let s2 := store (Next new) head s1 in
      Some (true, None, store slot (Some new) s2)
  end.

Definition insert_internal (hash : Z) (k : K) (new : nat) (s : Segment) : option (bool * Segment) :=
  r <-? insert_locked hash k new s;
  s1 <-? release_opt (snd (fst r)) (snd r);
  Some (fst (fst r), s1).

Definition emplace (hash : Z) (k : K) (new : nat) (s : Segment) : option (bool * Segment) :=
  insert_internal hash k new s.

(** The node made for a refused insertion is deleted; [insert_internal] accepts
    every one. *)
Definition insert (hash : Z) (k : K) (v : V) (s : Segment) : option (bool * Segment) :=
  let (new, s1) := new_node k v s in
  nd <-? nodes s1 !! new;
  r <-? insert_internal hash (key nd) new s1;
  if fst r then Some r
  else s2 <-? delete_node new (snd r); Some (false, s2).

(** What [erase] does under the mutex, with the node to release after it. *)
Definition erase_locked (hash : Z) (k : K) (s : Segment) : option (option nat * Segment) :=
  c <-? lists s !! bucket_list_ s;
  slot <-? get_atomic_head (bucket_list_ s) (bucket_id hash c) s;
  r <-? scan (fuel_of s) k slot s;
  match r with
  | (_, None) => Some (None, s)
  | (prev, Some n) =>
      let s1 := set_size (u64 (size_ s - 1)) s in
      let node_next := load (Next n) s1 in
      s2 <-? acquire_opt node_next s1;
      Some (Some n, store prev node_next s2)
  end.

Definition erase (hash : Z) (k : K) (s : Segment) : option Segment :=
  r <-? erase_locked hash k s;
  release_opt (fst r) (snd r).

(** An iterator: the node it stands on and the bucket it came from. *)
Record Iterator := mkIterator { node_ : option nat; it_list : nat; it_bucket : Z }.

Definition find (hash : Z) (k : K) (s : Segment) : option (option Iterator) :=
  c <-? lists s !! bucket_list_ s;
  slot <-? get_atomic_head (bucket_list_ s) (bucket_id hash c) s;
  r <-? scan (fuel_of s) k slot s;
  match r with
  | (_, Some n) => Some (Some (mkIterator (Some n) (bucket_list_ s) (bucket_id hash c)))
  | (_, None) => Some None
  end.

Definition deref (it : Iterator) (s : Segment) : option V :=
  n <-? node_ it;
  nd <-? nodes s !! n;
  Some (value nd).

Fixpoint advanceBucketIfAtEnd (fuel : nat) (it : Iterator) (s : Segment) : option Iterator :=
  match node_ it with
  | Some _ => Some it
  | None =>
      let id := it_bucket it + 1 in
      c <-? lists s !! it_list it;
      if c <=? id then Some (mkIterator None (it_list it) id)
      else
        slot <-? get_atomic_head (it_list it) id s;
        match fuel with
        | O => None
        | S fuel => advanceBucketIfAtEnd fuel (mkIterator (load slot s) (it_list it) id) s
        end
  end.

Definition cbegin (s : Segment) : option Iterator :=
  c <-? lists s !! bucket_list_ s;
  slot <-? get_atomic_head (bucket_list_ s) 0 s;
  advanceBucketIfAtEnd (Z.to_nat c) (mkIterator (load slot s) (bucket_list_ s) 0) s.

(** [operator==] compares the nodes only; [cend()] has none. *)
Definition at_end (it : Iterator) : bool := match node_ it with None => true | Some _ => false end.

Definition iter_next (it : Iterator) (s : Segment) : option Iterator :=
  n <-? node_ it;
  c <-? lists s !! it_list it;
  advanceBucketIfAtEnd (Z.to_nat c) (mkIterator (load (Next n) s) (it_list it) (it_bucket it)) s.

(** The values met by [for (it = cbegin(); it != cend(); ++it)]. *)
Fixpoint traverse (fuel : nat) (it : Iterator) (s : Segment) : option (list V) :=
  if at_end it then Some []
  else match fuel with
       | O => None
       | S fuel =>
           v <-? deref it s;
           it1 <-? iter_next it s;
           vs <-? traverse fuel it1 s;
           Some (v :: vs)
       end.

(** [clear] makes an empty bucket list of the size of the current one before it takes the
    mutex, stores it under the mutex, and retires the list it had read. *)
Definition clear_prepare (s : Segment) : option (nat * nat * Segment) :=
  let old := bucket_list_ s in
  c <-? lists s !! old;
  let (b, s1) := new_bucket_list c s in
  Some (old, b, s1).

Definition clear_locked (b : nat) (s : Segment) : Segment := set_size 0 (set_bucket_list b s).

Definition clear (s : Segment) : option Segment :=
  r <-? clear_prepare s;
  let '(old, b, s1) := r in
  Some (retire (OBucketList old) (clear_locked b s1)).
Close Scope wizard_scope.
End segment.

Arguments Node : clear implicits.
Arguments Segment : clear implicits.

(** * References *)

Section proofs.
Context {K V : Type} {EqK : EqDecision K} {CountableK : Countable K} (HashFn : K -> Z) (ShardBits : Z).
Implicit Types (s : Segment K V) (ext : list nat) (n : nat) (l : Loc).

Definition vals (ps : gmap Loc nat) : list nat := (map_to_list ps).*2.
Definition opt_list (p : option nat) : list nat := match p with Some n => [n] | None => [] end.

(** All references: the pointers in memory, and the ones [ext] the running
    operation owns. *)
Definition holders s ext : list nat := vals (ptrs s) ++ ext.
Definition count n (L : list nat) : nat := length (filter (fun m => m = n) L).

Lemma count_perm n L L' : L ≡ₚ L' -> count n L = count n L'.
Proof. intros Hp. unfold count. by rewrite Hp. Qed.

Lemma count_cons n m L : count n (m :: L) = ((if decide (m = n) then 1 else 0) + count n L)%nat.
Proof. unfold count. rewrite filter_cons. by destruct (decide (m = n)). Qed.

Lemma count_pos n L : (0 < count n L)%nat <-> n ∈ L.
Proof.
  unfold count. split.
  - intros H. destruct (filter _ L) as [|m F] eqn:E; [simpl in H; lia|].
    assert (m ∈ filter (fun m => m = n) L) as Hm by (rewrite E; left).
    by apply list_elem_of_filter in Hm as [-> ?].
  - intros H. destruct (filter (fun m => m = n) L) as [|m F] eqn:E; [|simpl; lia].
    assert (n ∈ filter (fun m => m = n) L) as Hn by (by apply list_elem_of_filter).
    rewrite E in Hn. by apply elem_of_nil in Hn.
Qed.

Lemma count_zero n L : count n L = 0%nat <-> n ∉ L.
Proof. rewrite <-count_pos. lia. Qed.

Lemma vals_store ps l v :
  vals ps ≡ₚ opt_list (ps !! l) ++ vals (delete l ps) /\
  vals (match v with Some n => <[l := n]> ps | None => delete l ps end)
    ≡ₚ opt_list v ++ vals (delete l ps).
Proof.
  unfold vals. split.
  - destruct (ps !! l) as [n|] eqn:Hl; simpl; [|by rewrite delete_id].
    rewrite <-(insert_delete_id ps l n Hl) at 1.
    by rewrite map_to_list_insert by apply lookup_delete_eq.
  - destruct v as [n|]; simpl; [|done].
    rewrite <-(insert_delete_eq ps). by rewrite map_to_list_insert by apply lookup_delete_eq.
Qed.

Lemma elem_of_vals ps n : n ∈ vals ps <-> exists l, ps !! l = Some n.
Proof.
  unfold vals. rewrite list_elem_of_fmap. split.
  - intros ([l m] & -> & Hl%elem_of_map_to_list). by exists l.
  - intros (l & Hl). exists (l, n). split; [done|by apply elem_of_map_to_list].
Qed.

(** Where a pointer may live. *)
Definition loc_ok s l : Prop :=
  match l with
  | inl (b, i) => exists c, lists s !! b = Some c /\ Z.of_nat i < c
  | inr n => is_Some (nodes s !! n)
  end.

Record Own ext s : Prop := {
  own_target : forall n, n ∈ holders s ext -> is_Some (nodes s !! n);
  own_loc : forall l n, ptrs s !! l = Some n -> loc_ok s l;
  own_count : forall n nd, nodes s !! n = Some nd ->
    refcount_ nd = Z.of_nat (count n (holders s ext)) /\ refcount_ nd < 2 ^ 16;
  own_retired : forall n, is_Some (nodes s !! n) ->
    (n ∉ holders s ext <-> ONode n ∈ retired s);
  own_retired_node : forall n, ONode n ∈ retired s -> is_Some (nodes s !! n);
  own_retired_list : forall b, OBucketList b ∈ retired s ->
    is_Some (lists s !! b) /\ b <> bucket_list_ s;
  own_nodup : NoDup (retired s);
  own_fresh_node : forall n, is_Some (nodes s !! n) -> (n < next_id s)%nat;
  own_fresh_list : forall b, is_Some (lists s !! b) -> (b < next_id s)%nat
}.

(** [Own] sees pointers only through the references they make. *)
Lemma Own_ptrs ext ext' s ps :
  Own ext s -> vals ps ++ ext' ≡ₚ holders s ext ->
  (forall l n, ps !! l = Some n -> loc_ok s l) -> Own ext' (set_ptrs ps s).
Proof.
  intros [H1 H2 H3 H4 H5 H6 H7 H8 H9] Hp Hl. constructor; simpl; try done; unfold holders; simpl.
  - intros n. rewrite Hp. apply H1.
  - intros n nd Hn. rewrite (count_perm _ _ _ Hp). by apply H3.
  - intros n. rewrite Hp. apply H4.
Qed.

Lemma Own_store ext ext' s l v :
  Own ext s -> opt_list (load l s) ++ ext ≡ₚ opt_list v ++ ext' -> (is_Some v -> loc_ok s l) ->
  Own ext' (store l v s).
Proof.
  intros H Hp Hl. apply (Own_ptrs ext); [done| |].
  - unfold holders. destruct (vals_store (ptrs s) l v) as [H1 H2]. rewrite H1, H2.
    unfold load in Hp. rewrite <-!app_assoc.
    rewrite (Permutation_app_comm (opt_list (ptrs s !! l))), (Permutation_app_comm (opt_list v)).
    rewrite <-!app_assoc. rewrite Permutation_app_comm with (l := ext').
    rewrite Permutation_app_comm with (l := ext). by rewrite Hp.
  - intros l' n Hl'. destruct v as [m|].
    + apply lookup_insert_Some in Hl' as [[<- _]|[_ Hl']]; [by apply Hl|]. by eapply (own_loc ext).
    + apply lookup_delete_Some in Hl' as [_ Hl']. by eapply (own_loc ext).
Qed.

(** Two states that differ in reference counts and retirement only. *)
Definition entry s n : option (K * V) := (fun nd => (key nd, value nd)) <$> nodes s !! n.

Record same_map s s' : Prop := {
  sm_ptrs : ptrs s' = ptrs s;
  sm_lists : lists s' = lists s;
  sm_cur : bucket_list_ s' = bucket_list_ s;
  sm_size : size_ s' = size_ s;
  sm_entry : forall n, entry s' n = entry s n;
  sm_dom : size (nodes s') = size (nodes s);
  sm_id : next_id s' = next_id s;
  sm_retired : forall b, OBucketList b ∈ retired s' <-> OBucketList b ∈ retired s
}.

Lemma set_refcount_entry s n nd r m :
  nodes s !! n = Some nd ->
  (fun nd => (key nd, value nd)) <$> <[n := mkNode (key nd) (value nd) r]> (nodes s) !! m = entry s m.
Proof.
  intros Hn. unfold entry. destruct (decide (m = n)) as [->|].
  - by rewrite lookup_insert_eq, Hn.
  - by rewrite lookup_insert_ne.
Qed.

Lemma set_refcount_same s n nd r :
  nodes s !! n = Some nd -> same_map s (set_nodes (<[n := mkNode (key nd) (value nd) r]> (nodes s)) s).
Proof.
  intros Hn. constructor; simpl; try done.
  - intros m. unfold entry at 1. simpl. by apply set_refcount_entry.
  - by rewrite map_size_insert_Some by by exists nd.
Qed.

Lemma insert_is_Some {A} (m : gmap nat A) n x k :
  is_Some (m !! n) -> is_Some (<[n := x]> m !! k) <-> is_Some (m !! k).
Proof.
  intros Hn. destruct (decide (k = n)) as [->|]; [by rewrite lookup_insert_eq|by rewrite lookup_insert_ne].
Qed.

(** Changing one reference count along with the references. *)
Lemma Own_refcount ext ext' s n nd r rt :
  Own ext s -> nodes s !! n = Some nd ->
  (forall m, m <> n -> count m (holders s ext') = count m (holders s ext)) ->
  r = Z.of_nat (count n (holders s ext')) -> r < 2 ^ 16 ->
  rt = retired s /\ (0 < count n (holders s ext'))%nat /\ (0 < count n (holders s ext))%nat \/
  rt = retired s ++ [ONode n] /\ count n (holders s ext') = 0%nat /\ (0 < count n (holders s ext))%nat ->
  (forall m, m ∈ ext' -> m = n \/ m ∈ ext) ->
  Own ext' (set_retired rt (set_nodes (<[n := mkNode (key nd) (value nd) r]> (nodes s)) s)).
Proof.
  intros [H1 H2 H3 H4 H5 H6 H7 H8 H9] Hn Hother Hr Hr16 Hrt Hext.
  assert (HS : is_Some (nodes s !! n)) by by exists nd.
  assert (Hin : forall m, m <> n -> m ∈ holders s ext' <-> m ∈ holders s ext).
  { intros m Hm. rewrite <-!count_pos. by rewrite Hother. }
  assert (Hnr : (0 < count n (holders s ext))%nat -> ONode n ∉ retired s).
  { intros Hc Hret. apply count_pos in Hc. by apply H4 in Hret. }
  constructor; simpl.
  - intros m Hm. rewrite insert_is_Some by done. apply H1.
    unfold holders in *. simpl in Hm. apply elem_of_app. apply elem_of_app in Hm as [?|Hm]; [by left|].
    destruct (decide (m = n)) as [->|Hne]; [|destruct (Hext m Hm); [done|by right]].
    apply elem_of_app. apply count_pos. by destruct Hrt as [(_ & _ & ?)|(_ & _ & ?)].
  - intros l m Hl. specialize (H2 l m Hl). destruct l as [[b i]|k]; simpl in *; [done|].
    by rewrite insert_is_Some.
  - intros m md. unfold holders. simpl. intros [[<- <-]|[Hne Hm]]%lookup_insert_Some; [done|].
    change (vals (ptrs s) ++ ext') with (holders s ext'). rewrite Hother by done. by apply H3.
  - intros m. unfold holders. simpl. change (vals (ptrs s) ++ ext') with (holders s ext').
    rewrite insert_is_Some by done. intros Hm.
    destruct Hrt as [(-> & Hc & Hc0)|(-> & Hc & Hc0)]; destruct (decide (m = n)) as [->|Hne].
    + apply count_pos in Hc. specialize (Hnr Hc0). tauto.
    + rewrite Hin by done. by apply H4.
    + apply count_zero in Hc. set_solver.
    + rewrite Hin by done. rewrite H4 by done. set_solver.
  - intros m Hm. rewrite insert_is_Some by done.
    destruct Hrt as [(-> & _)|(-> & _)]; [by apply H5|].
    apply elem_of_app in Hm as [Hm|Hm]; [by apply H5|].
    apply list_elem_of_singleton in Hm. by injection Hm as ->.
  - intros b Hb. apply H6. destruct Hrt as [(-> & _)|(-> & _)]; set_solver.
  - destruct Hrt as [(-> & _)|(-> & _ & Hc0)]; [done|]. apply NoDup_app. split_and!; [done| |apply NoDup_singleton].
    intros o Ho ->%list_elem_of_singleton. by apply (Hnr Hc0).
  - intros m. rewrite insert_is_Some by done. apply H8.
  - done.
Qed.

Lemma holders_cons s ext n : holders s (n :: ext) ≡ₚ n :: holders s ext.
Proof. unfold holders. by rewrite Permutation_middle. Qed.

Lemma acquire_spec ext s n nd :
  Own ext s -> nodes s !! n = Some nd -> n ∈ holders s ext -> refcount_ nd < 2 ^ 16 - 1 ->
  exists s', acquire n s = Some s' /\ Own (n :: ext) s' /\ same_map s s'.
Proof.
  intros H Hn Hin Hr. unfold acquire. rewrite Hn. eexists. split; [done|].
  split; [|by apply set_refcount_same].
  pose proof (own_count _ _ H n nd Hn) as [Hc _]. apply count_pos in Hin.
  assert (Hcn : forall m, count m (holders s (n :: ext)) =
    ((if decide (n = m) then 1 else 0) + count m (holders s ext))%nat).
  { intros m. rewrite (count_perm _ _ _ (holders_cons s ext n)). apply count_cons. }
  rewrite u16_small by lia.
  apply (Own_refcount ext (n :: ext) s n nd _ (retired s) H Hn).
  - intros m Hm. rewrite Hcn, decide_False by done. done.
  - rewrite Hcn, decide_True by done. lia.
  - lia.
  - left. rewrite Hcn, decide_True by done. split; [done|lia].
  - intros m. set_solver.
Qed.

Lemma release_spec ext s n :
  Own (n :: ext) s -> exists s', release n s = Some s' /\ Own ext s' /\ same_map s s'.
Proof.
  intros H. unfold release.
  assert (Hin : n ∈ holders s (n :: ext)) by (unfold holders; set_solver).
  destruct (own_target _ _ H n Hin) as [nd Hn]. rewrite Hn.
  pose proof (own_count _ _ H n nd Hn) as [Hc Hc16].
  assert (Hcn : forall m, count m (holders s (n :: ext)) =
    ((if decide (n = m) then 1 else 0) + count m (holders s ext))%nat).
  { intros m. rewrite (count_perm _ _ _ (holders_cons s ext n)). apply count_cons. }
  pose proof (Hcn n) as Hcnn. rewrite decide_True in Hcnn by done.
  rewrite (proj2 (Z.eqb_neq _ 0)) by lia. simpl.
  rewrite u16_small by lia.
  eexists. split; [done|]. split.
  - destruct (Z.eqb_spec (refcount_ nd) 1) as [E|E].
    + apply (Own_refcount (n :: ext) ext s n nd _ _ H Hn); [|lia|lia| |set_solver].
      * intros m Hm. rewrite Hcn. by rewrite decide_False.
      * right. split; [done|]. lia.
    + apply (Own_refcount (n :: ext) ext s n nd _ (retired s) H Hn); [|lia|lia| |set_solver].
      * intros m Hm. rewrite Hcn. by rewrite decide_False.
      * left. split; [done|]. lia.
  - pose proof (set_refcount_same s n nd (refcount_ nd - 1) Hn) as [S1 S2 S3 S4 S5 S6 S7 S8].
    destruct (_ =? _); constructor; try done. intros b. simpl. set_solver.
Qed.

Lemma new_node_spec ext s k v n s' :
  Own ext s -> new_node k v s = (n, s') ->
  Own (n :: ext) s' /\ n = next_id s /\ nodes s' = <[n := mkNode k v 1]> (nodes s) /\
  nodes s !! n = None /\ ptrs s' = ptrs s /\ lists s' = lists s /\ bucket_list_ s' = bucket_list_ s /\
  size_ s' = size_ s /\ retired s' = retired s /\ load_factor_ s' = load_factor_ s /\
  load_factor_cnt_threshold_ s' = load_factor_cnt_threshold_ s /\ next_id s' = S n /\
  load (Next n) s' = None.
Proof.
  intros H Hnew. unfold new_node in Hnew. injection Hnew as <- <-. simpl.
  pose proof H as [H1 H2 H3 H4 H5 H6 H7 H8 H9].
  assert (Hnone : nodes s !! next_id s = None).
  { apply eq_None_not_Some. intros Hs. apply H8 in Hs. lia. }
  assert (Hout : next_id s ∉ holders s ext).
  { intros Hin. apply H1 in Hin. rewrite Hnone in Hin. by destruct Hin. }
  assert (Hnext : ptrs s !! Next (next_id s) = None).
  { apply eq_None_not_Some. intros [m Hm]. apply H2 in Hm. simpl in Hm. rewrite Hnone in Hm.
    by destruct Hm. }
  split; [|split_and!; done]. constructor; simpl.
  - intros m Hm. change (m ∈ holders s (next_id s :: ext)) in Hm. rewrite holders_cons in Hm.
    apply elem_of_cons in Hm as [->|Hm]; [by rewrite lookup_insert_eq|].
    apply lookup_insert_is_Some. destruct (decide (next_id s = m)); [by left|right]. auto.
  - intros l m Hl. specialize (H2 l m Hl). destruct l as [[b i]|k']; simpl in *; [done|].
    apply lookup_insert_is_Some'. by right.
  - intros m md. change (vals _ ++ _) with (holders s (next_id s :: ext)).
    change (holders (set_next_id _ _) (next_id s :: ext)) with (holders s (next_id s :: ext)).
    rewrite (count_perm _ _ _ (holders_cons s ext _)), count_cons.
    intros [[<- <-]|[Hne Hm]]%lookup_insert_Some; simpl.
    + rewrite decide_True by done. apply count_zero in Hout. lia.
    + rewrite decide_False by done. by apply H3.
  - intros m. change (holders (set_next_id _ _) (next_id s :: ext)) with (holders s (next_id s :: ext)).
    rewrite holders_cons. intros Hm. destruct (decide (m = next_id s)) as [->|Hne].
    + split; [set_solver|]. intros Hr. apply H5 in Hr. rewrite Hnone in Hr. by destruct Hr.
    + rewrite lookup_insert_ne in Hm by done. rewrite <-H4 by done. set_solver.
  - intros m Hm. apply lookup_insert_is_Some'. right. auto.
  - done.
  - done.
  - intros m [<-|[_ Hm]]%lookup_insert_is_Some; [lia|]. apply H8 in Hm. lia.
  - intros b Hb. apply H9 in Hb. lia.
Qed.

Lemma new_bucket_list_spec ext s c b s' :
  Own ext s -> new_bucket_list c s = (b, s') ->
  Own ext s' /\ b = next_id s /\ lists s' = <[b := c]> (lists s) /\ lists s !! b = None /\
  nodes s' = nodes s /\ ptrs s' = ptrs s /\ bucket_list_ s' = bucket_list_ s /\
  size_ s' = size_ s /\ retired s' = retired s /\ (forall i, ptrs s !! Slot b i = None).
Proof.
  intros H Hnew. unfold new_bucket_list in Hnew. injection Hnew as <- <-. simpl.
  pose proof H as [H1 H2 H3 H4 H5 H6 H7 H8 H9].
  assert (Hnone : lists s !! next_id s = None).
  { apply eq_None_not_Some. intros Hs. apply H9 in Hs. lia. }
  split; [|split_and!; try done].
  - constructor; simpl; try done.
    + intros l m Hl. specialize (H2 l m Hl). destruct l as [[b i]|k']; simpl in *; [|done].
      destruct H2 as (c' & Hc' & ?). exists c'. split; [|done].
      rewrite lookup_insert_ne; [done|]. intros <-. by rewrite Hnone in Hc'.
    + intros b Hb. destruct (H6 b Hb) as [? ?]. split; [|done].
      apply lookup_insert_is_Some'. by right.
    + intros n Hn. apply H8 in Hn. lia.
    + intros b [<-|[_ Hb]]%lookup_insert_is_Some; [lia|]. apply H9 in Hb. lia.
  - intros i. apply eq_None_not_Some. intros [m Hm]. apply H2 in Hm as (c' & Hc' & _).
    by rewrite Hnone in Hc'.
Qed.

(** * Chains *)

Fixpoint chain (ps : gmap Loc nat) (l : Loc) (L : list nat) : Prop :=
  match L with
  | [] => ps !! l = None
  | n :: L => ps !! l = Some n /\ chain ps (Next n) L
  end.

(** The place that holds the pointer after the nodes [L] of a chain from [l]. *)
Definition last_loc (l : Loc) (L : list nat) : Loc :=
  match last L with Some n => Next n | None => l end.

Lemma last_loc_cons l n L : last_loc l (n :: L) = last_loc (Next n) L.
Proof. unfold last_loc. rewrite last_cons. by destruct (last L). Qed.

Lemma last_loc_elem l L : last_loc l L ∈ l :: (Next <$> L).
Proof.
  revert l. induction L as [|n L IH]; intros l; [left|]. rewrite last_loc_cons. right. apply IH.
Qed.

Lemma ptr_chain_agree ps ps' l L :
  (forall l', l' ∈ l :: (Next <$> L) -> ps' !! l' = ps !! l') -> chain ps l L -> chain ps' l L.
Proof.
  revert l. induction L as [|n L IH]; intros l Hag; simpl.
  - intros Hl. rewrite Hag; [done|left].
  - intros [Hl Hc]. split; [rewrite Hag; [done|left]|]. apply IH; [|done].
    intros l' Hl'. apply Hag. by right.
Qed.

Lemma chain_tail ps l L T : chain ps l (L ++ T) -> chain ps (last_loc l L) T.
Proof.
  revert l. induction L as [|n L IH]; intros l; [done|]. intros [_ Hc]. rewrite last_loc_cons. by apply IH.
Qed.

(** Replace the tail of a chain by redirecting one pointer. *)
Lemma chain_splice ps ps' l L T T' :
  NoDup (l :: (Next <$> L)) -> chain ps l (L ++ T) ->
  (forall l', l' ∈ l :: (Next <$> L) -> l' <> last_loc l L -> ps' !! l' = ps !! l') ->
  chain ps' (last_loc l L) T' -> chain ps' l (L ++ T').
Proof.
  revert l. induction L as [|n L IH]; intros l Hnd Hc Hag HT; [done|].
  destruct Hc as [Hl Hc]. rewrite last_loc_cons in *. csimpl in *. split.
  - rewrite Hag; [done|left|]. intros ->. apply NoDup_cons in Hnd as [Hnd _].
    apply Hnd, last_loc_elem.
  - apply IH; [by apply NoDup_cons in Hnd as [_ ?]|done| |done].
    intros l' Hl' Hne. apply Hag; [by right|done].
Qed.

Lemma chain_refs ps l L n : chain ps l L -> n ∈ L -> n ∈ vals ps.
Proof.
  revert l. induction L as [|m L IH]; intros l; [by intros _ ?%elem_of_nil|].
  intros [Hl Hc] [->|Hin]%elem_of_cons; [apply elem_of_vals; by exists l|eauto].
Qed.

Lemma NoDup_locs b i L : NoDup L -> NoDup (Slot b i :: (Next <$> L)).
Proof.
  intros Hnd. constructor; [|apply NoDup_fmap_2; [by intros ? ? [=]|done]].
  intros (n & Hn & _)%list_elem_of_fmap. done.
Qed.

Lemma nodup_size {A} (m : gmap nat A) L :
  NoDup L -> (forall n, n ∈ L -> is_Some (m !! n)) -> (length L <= size m)%nat.
Proof.
  intros Hnd Hin. rewrite <-(size_dom (D := gset nat)). rewrite <-(size_list_to_set (C := gset nat) L) by done.
  apply subseteq_size. intros n Hn%elem_of_list_to_set. apply elem_of_dom. auto.
Qed.

(** [scan] stops at the first node with the key, or at the end. *)
Lemma scan_spec fuel k l s L :
  chain (ptrs s) l L -> (forall n, n ∈ L -> is_Some (nodes s !! n)) -> (length L <= fuel)%nat ->
  (scan fuel k l s = Some (last_loc l L, None) /\
    forall n nd, n ∈ L -> nodes s !! n = Some nd -> key nd <> k) \/
  (exists L1 n L2 nd, L = L1 ++ n :: L2 /\ nodes s !! n = Some nd /\ key nd = k /\
    scan fuel k l s = Some (last_loc l L1, Some n)).
Proof.
  revert l fuel. induction L as [|n L IH]; intros l fuel Hc Hin Hf.
  - left. split; [|by intros ? ? ?%elem_of_nil]. simpl in Hc. destruct fuel; simpl; unfold load; by rewrite Hc.
  - destruct Hc as [Hl Hc]. destruct (Hin n) as [nd Hn]; [left|].
    destruct fuel as [|fuel]; [simpl in Hf; lia|]. simpl. unfold load. rewrite Hl, Hn.
    destruct (decide (k = key nd)) as [->|Hne].
    + right. exists [], n, L, nd. done.
    + destruct (IH (Next n) fuel Hc) as [[-> Hno]|(L1 & m & L2 & md & -> & Hm & Hk & ->)].
      * intros m Hm. apply Hin. by right.
      * simpl in Hf. lia.
      * left. rewrite last_loc_cons. split; [done|].
        intros m md [->|Hm]%elem_of_cons Hmd; [|by eapply Hno]. by simplify_eq.
      * right. exists (n :: L1), m, L2, md. by rewrite last_loc_cons.
Qed.

(** * The map a segment stands for *)

Definition in_bucket (k : K) (c : Z) : nat := Z.to_nat (bucket_id ShardBits (HashFn k) c).

Definition entries s (Ls : list (list nat)) : list (K * V) := omap (entry s) (mjoin Ls).

Record Buckets s (b : nat) (c : Z) (Ls : list (list nat)) : Prop := {
  bk_length : Z.of_nat (length Ls) = c;
  bk_chain : forall i L, Ls !! i = Some L -> chain (ptrs s) (Slot b i) L;
  bk_nodup : NoDup (mjoin Ls);
  bk_node : forall i L n, Ls !! i = Some L -> n ∈ L -> exists nd, nodes s !! n = Some nd /\
    in_bucket (key nd) c = i
}.

Lemma elem_of_mjoin (Ls : list (list nat)) n : n ∈ mjoin Ls <-> exists i L, Ls !! i = Some L /\ n ∈ L.
Proof.
  rewrite list_elem_of_join. split.
  - intros (L & Hn & (i & Hi)%list_elem_of_lookup). eauto.
  - intros (i & L & Hi & Hn). exists L. split; [done|by eapply list_elem_of_lookup_2].
Qed.

Lemma mjoin_update (Ls : list (list nat)) i L :
  Ls !! i = Some L -> exists R, mjoin Ls ≡ₚ L ++ R /\
    forall L', mjoin (<[i := L']> Ls) ≡ₚ L' ++ R.
Proof.
  intros Hi. exists (mjoin (take i Ls) ++ mjoin (drop (S i) Ls)).
  assert (Hlt : (i < length Ls)%nat) by by eapply lookup_lt_Some. split.
  - rewrite <-(take_drop_middle Ls i L Hi) at 1. rewrite join_app. simpl.
    rewrite !app_assoc. by rewrite (Permutation_app_comm (mjoin _) L).
  - intros L'. rewrite insert_take_drop by done. rewrite join_app. simpl.
    rewrite !app_assoc. by rewrite (Permutation_app_comm (mjoin _) L').
Qed.

Record Func s (M : gmap K V) (Ls : list (list nat)) : Prop := {
  rp_list : lists s !! bucket_list_ s = Some (Z.of_nat (length Ls));
  rp_pos : (0 < length Ls)%nat;
  rp_buckets : Buckets s (bucket_list_ s) (Z.of_nat (length Ls)) Ls;
  rp_keys : NoDup ((entries s Ls).*1);
  rp_map : M = list_to_map (entries s Ls);
  rp_size : size_ s = Z.of_nat (length (mjoin Ls))
}.

Definition Repr ext s (M : gmap K V) (Ls : list (list nat)) : Prop := Own ext s /\ Func s M Ls.

(** No reference count is about to overflow. *)
Definition few s : Prop := forall n nd, nodes s !! n = Some nd -> refcount_ nd < 2 ^ 16 - 1.

Lemma land_le x m : 0 <= x -> 0 <= m -> 0 <= Z.land x m <= m.
Proof.
  intros Hx Hm. split; [apply Z.land_nonneg; by left|].
  rewrite <-(Z2N.id x), <-(Z2N.id m) by done. rewrite <-N2Z.inj_land.
  apply N2Z.inj_le, N.land_le_r.
Qed.

Lemma bucket_id_range hash c :
  0 <= hash -> 1 <= c <= 2 ^ 64 -> 0 <= bucket_id ShardBits hash c < c.
Proof.
  intros Hh Hc. unfold bucket_id.
  assert (0 <= Z.shiftr hash ShardBits) by (by apply Z.shiftr_nonneg).
  rewrite u64_small by lia. pose proof (land_le (Z.shiftr hash ShardBits) (c - 1)). lia.
Qed.

Lemma get_atomic_head_spec b c i s :
  lists s !! b = Some c -> 0 <= i < c -> get_atomic_head b i s = Some (Slot b (Z.to_nat i)).
Proof.
  intros Hb Hi. unfold get_atomic_head. rewrite Hb.
  by rewrite (proj2 (Z.leb_le _ _)), (proj2 (Z.ltb_lt _ _)) by lia.
Qed.

(** Put a fresh node in front of a chain. *)
Definition push_front (slot : Loc) (new : nat) s : Segment K V :=
  store slot (Some new) (store (Next new) (load slot s) s).

Lemma push_front_lookup slot new s l :
  slot <> Next new ->
  ptrs (push_front slot new s) !! l =
    if decide (l = slot) then Some new
    else if decide (l = Next new) then ptrs s !! slot else ptrs s !! l.
Proof.
  intros Hne. unfold push_front, store, load. simpl.
  destruct (decide (l = slot)) as [->|Hl]; [by rewrite lookup_insert_eq|].
  rewrite lookup_insert_ne by done.
  destruct (decide (l = Next new)) as [->|Hl'].
  - destruct (ptrs s !! slot); [by rewrite lookup_insert_eq|by rewrite lookup_delete_eq].
  - destruct (ptrs s !! slot); [by rewrite lookup_insert_ne|by rewrite lookup_delete_ne].
Qed.

Lemma push_front_own ext slot new s :
  Own (new :: ext) s -> load (Next new) s = None -> loc_ok s slot -> slot <> Next new ->
  Own ext (push_front slot new s).
Proof.
  intros H Hnext Hslot Hne. unfold push_front.
  destruct (own_target _ _ H new ltac:(unfold holders; set_solver)) as [nd Hnd].
  set (ps1 := match load slot s with Some n => <[Next new := n]> (ptrs s) | None => delete (Next new) (ptrs s) end).
  change (store slot (Some new) _) with (set_ptrs (<[slot := new]> ps1) s).
  apply (Own_ptrs (new :: ext)); [done| |].
  - destruct (vals_store (ptrs s) (Next new) (load slot s)) as [H1 H2]. fold ps1 in H2.
    unfold load in Hnext. rewrite Hnext in H1. simpl in H1. rewrite <-H1 in H2.
    destruct (vals_store ps1 slot (Some new)) as [H3 H4]. rewrite H4.
    assert (ps1 !! slot = load slot s) as E.
    { unfold ps1. destruct (load slot s) eqn:El; [by rewrite lookup_insert_ne|by rewrite lookup_delete_ne]. }
    rewrite E, H2 in H3. apply Permutation_app_inv_l in H3. rewrite <-H3. simpl.
    unfold holders. by rewrite Permutation_middle.
  - intros l n Hl. apply lookup_insert_Some in Hl as [[<- _]|[_ Hl]]; [done|].
    unfold ps1 in Hl. destruct (load slot s) as [h|].
    + apply lookup_insert_Some in Hl as [[<- _]|[_ Hl]]; [by exists nd|]. by eapply own_loc.
    + apply lookup_delete_Some in Hl as [_ Hl]. by eapply own_loc.
Qed.

Lemma NoDup_mjoin_chain (Ls : list (list nat)) i L : NoDup (mjoin Ls) -> Ls !! i = Some L -> NoDup L.
Proof.
  intros Hnd Hi. destruct (mjoin_update Ls i L Hi) as (R & HR & _). rewrite HR in Hnd.
  by apply NoDup_app in Hnd as [? _].
Qed.

Lemma mjoin_unique (Ls : list (list nat)) i j L L' n :
  NoDup (mjoin Ls) -> Ls !! i = Some L -> Ls !! j = Some L' -> n ∈ L -> n ∈ L' -> i = j.
Proof.
  intros Hnd Hi Hj Hn Hn'. destruct (decide (i = j)) as [|Hne]; [done|exfalso].
  destruct (mjoin_update Ls i L Hi) as (R & HR & HR'). rewrite HR in Hnd.
  apply NoDup_app in Hnd as (_ & Hd & _). apply (Hd n Hn).
  assert (n ∈ mjoin (<[i := []]> Ls)) as Hin.
  { apply elem_of_mjoin. exists j, L'. by rewrite list_lookup_insert_ne. }
  rewrite HR' in Hin. done.
Qed.

Lemma chain_move ps ps' l l' L :
  chain ps l L -> ps' !! l' = ps !! l -> (forall n, n ∈ L -> ps' !! Next n = ps !! Next n) ->
  chain ps' l' L.
Proof.
  destruct L as [|n L]; simpl; [by intros -> ->|].
  intros [Hl Hc] He Hag. split; [by rewrite He|]. apply (ptr_chain_agree ps); [|done].
  intros l'' Hl''. change (l'' ∈ Next <$> (n :: L)) in Hl''.
  apply list_elem_of_fmap in Hl'' as (m & -> & Hm). by apply Hag.
Qed.

Lemma mjoin_insert_front (Ls : list (list nat)) i L n :
  Ls !! i = Some L -> mjoin (<[i := n :: L]> Ls) ≡ₚ n :: mjoin Ls.
Proof. intros Hi. destruct (mjoin_update Ls i L Hi) as (R & -> & HR). by rewrite HR. Qed.

(** Pushing a node whose key belongs to slot [i] extends bucket [i]. *)
Lemma push_front_buckets s b c Ls i L new nd :
  Buckets s b c Ls -> Ls !! i = Some L -> nodes s !! new = Some nd ->
  in_bucket (key nd) c = i -> new ∉ mjoin Ls ->
  Buckets (push_front (Slot b i) new s) b c (<[i := new :: L]> Ls).
Proof.
  intros [H1 H2 H3 H4] Hi Hnew Hb Hfresh.
  assert (Hag : forall n, n ∈ mjoin Ls -> ptrs (push_front (Slot b i) new s) !! Next n = ptrs s !! Next n).
  { intros n Hn. rewrite push_front_lookup by done. rewrite !decide_False; [done| |done].
    intros [= ->]. done. }
  assert (Hin : forall j L' n, Ls !! j = Some L' -> n ∈ L' -> n ∈ mjoin Ls)
    by (intros; apply elem_of_mjoin; eauto).
  constructor.
  - by rewrite length_insert.
  - intros j L' [(<- & <- & Hlt)|[Hne Hj]]%list_lookup_insert_Some.
    + split.
      * rewrite push_front_lookup by done. by rewrite decide_True.
      * apply (chain_move (ptrs s) _ (Slot b i)); [by apply H2| |eauto].
        rewrite push_front_lookup by done. by rewrite decide_False, decide_True.
    + apply (chain_move (ptrs s) _ (Slot b j)); [by apply H2| |eauto].
      rewrite push_front_lookup by done. rewrite !decide_False; [done|done|]. by intros [= ->].
  - rewrite (mjoin_insert_front _ _ _ _ Hi). by apply NoDup_cons.
  - intros j L' n [(<- & <- & Hlt)|[Hne Hj]]%list_lookup_insert_Some Hn.
    + apply elem_of_cons in Hn as [->|Hn]; [by exists nd|]. by apply (H4 i L).
    + by apply (H4 j L').
Qed.

Lemma entries_perm s Ls Ls' : mjoin Ls ≡ₚ mjoin Ls' -> entries s Ls ≡ₚ entries s Ls'.
Proof. intros Hp. unfold entries. by rewrite Hp. Qed.

Lemma entries_ext s s' Ls :
  (forall n, n ∈ mjoin Ls -> entry s' n = entry s n) -> entries s' Ls = entries s Ls.
Proof.
  intros He. unfold entries. induction (mjoin Ls) as [|n L IH]; [done|]. csimpl.
  rewrite He by left. rewrite IH; [done|]. intros m Hm. apply He. by right.
Qed.

Lemma entries_push s b i new Ls L k v :
  Ls !! i = Some L -> entry s new = Some (k, v) ->
  entries (push_front (Slot b i) new s) (<[i := new :: L]> Ls) ≡ₚ (k, v) :: entries s Ls.
Proof.
  intros Hi Hnew. unfold entries. rewrite (mjoin_insert_front _ _ _ _ Hi). csimpl.
  change (entry (push_front _ _ s)) with (entry s). by rewrite Hnew.
Qed.

(** * Rehashing *)

(** Places that existed in [s0]. *)
Definition old_loc s0 (nb : nat) l : Prop :=
  match l with inl (b, _) => b <> nb | inr n => is_Some (nodes s0 !! n) end.

(** [s] is [s0] with a bucket list [nb] of fresh copies of the entries [E]. *)
Record Copy ext s0 (nb : nat) (cnt : Z) s (Ls : list (list nat)) (E : list (K * V)) : Prop := {
  cp_own : Own ext s;
  cp_list : lists s !! nb = Some cnt;
  cp_buckets : Buckets s nb cnt Ls;
  cp_fresh : forall n, n ∈ mjoin Ls -> nodes s0 !! n = None;
  cp_entries : entries s Ls ≡ₚ E;
  cp_nodes : forall n nd, nodes s0 !! n = Some nd -> nodes s !! n = Some nd;
  cp_copied : forall n nd, nodes s !! n = Some nd -> nodes s0 !! n = Some nd \/ refcount_ nd = 1;
  cp_ptrs : forall l, old_loc s0 nb l -> ptrs s !! l = ptrs s0 !! l;
  cp_lists : forall b, b <> nb -> lists s !! b = lists s0 !! b;
  cp_cur : bucket_list_ s = bucket_list_ s0;
  cp_size : size_ s = size_ s0;
  cp_retired : retired s = retired s0
}.

Lemma Copy_step ext s0 nb cnt s Ls E n nd :
  Copy ext s0 nb cnt s Ls E -> 1 <= cnt <= 2 ^ 64 -> (forall k, 0 <= HashFn k) ->
  nodes s !! n = Some nd ->
  let s1 := snd (new_node (key nd) (value nd) s) in
  let slot := Slot nb (in_bucket (key nd) cnt) in
  get_atomic_head nb (bucket_id ShardBits (HashFn (key nd)) cnt) s1 = Some slot /\
  exists Ls', Copy ext s0 nb cnt (push_front slot (next_id s) s1) Ls' ((key nd, value nd) :: E).
Proof.
  intros [C1 C2 C3 C4 C5 C6 C7 C8 C9 C10 C11 C12] Hcnt Hhash Hn s1 slot.
  set (new := next_id s).
  destruct (new_node_spec ext s (key nd) (value nd) new s1 C1 eq_refl)
    as (O1 & _ & N1 & Hnone & P1 & L1 & B1 & S1 & R1 & _ & _ & I1 & Hnext).
  clearbody s1.
  pose proof (bucket_id_range (HashFn (key nd)) cnt (Hhash _) Hcnt) as Hrng.
  pose proof (bk_length _ _ _ _ C3) as Hlen.
  destruct (lookup_lt_is_Some_2 Ls (in_bucket (key nd) cnt)) as [L HL]; [unfold in_bucket; lia|].
  assert (Hfresh : new ∉ mjoin Ls).
  { intros Hin. apply elem_of_mjoin in Hin as (i & L' & Hi & Hin).
    destruct (bk_node _ _ _ _ C3 i L' new Hi Hin) as (nd' & Hnd' & _). congruence. }
  assert (Hnew0 : nodes s0 !! new = None).
  { apply eq_None_not_Some. intros [md Hmd]. apply C6 in Hmd. congruence. }
  assert (Hb1 : Buckets s1 nb cnt Ls).
  { destruct C3 as [D1 D2 D3 D4]. constructor; [done| |done|].
    - intros i L' Hi. rewrite P1. by apply D2.
    - intros i L' m Hi Hm. destruct (D4 i L' m Hi Hm) as (md & Hmd & ?). exists md. split; [|done].
      rewrite N1, lookup_insert_ne; [done|]. intros <-. apply Hfresh, elem_of_mjoin. eauto. }
  assert (Hnew1 : nodes s1 !! new = Some (mkNode (key nd) (value nd) 1))
    by (rewrite N1; by rewrite lookup_insert_eq).
  split; [apply (get_atomic_head_spec nb cnt); [by rewrite L1|done]|].
  exists (<[in_bucket (key nd) cnt := new :: L]> Ls). constructor.
  - apply push_front_own; [done|done| |done]. exists cnt. rewrite L1.
    split; [done|]. unfold in_bucket. lia.
  - unfold push_front, store, set_ptrs. simpl. by rewrite L1.
  - by apply (push_front_buckets s1 nb cnt Ls _ L new _ Hb1 HL Hnew1).
  - intros m. rewrite (mjoin_insert_front _ _ _ _ HL). intros [->|Hm]%elem_of_cons; [done|by apply C4].
  - rewrite (entries_push s1 nb _ new Ls L (key nd) (value nd) HL); [|unfold entry; by rewrite Hnew1].
    apply Permutation_cons; [done|]. rewrite <-C5. apply reflexive_eq, entries_ext.
    intros m Hm. unfold entry. rewrite N1, lookup_insert_ne; [done|]. by intros <-.
  - intros m md Hm. simpl. rewrite N1, lookup_insert_ne; [by apply C6|]. intros <-. congruence.
  - intros m md. simpl. rewrite N1. intros [[<- <-]|[_ Hm]]%lookup_insert_Some; [by right|]. by apply C7.
  - intros l Hl. rewrite push_front_lookup by done. rewrite P1.
    destruct (decide (l = slot)) as [->|]; [by destruct Hl|].
    destruct (decide (l = Next new)) as [->|]; [|by apply C8].
    simpl in Hl. rewrite Hnew0 in Hl. by destruct Hl.
  - intros b Hb. unfold push_front, store, set_ptrs. simpl. rewrite L1. by apply C9.
  - simpl. by rewrite B1.
  - simpl. by rewrite S1.
  - simpl. by rewrite R1.
Qed.

Lemma rehash_chain_spec ext s0 nb cnt T : forall fuel l s Ls E,
  Copy ext s0 nb cnt s Ls E -> 1 <= cnt <= 2 ^ 64 -> (forall k, 0 <= HashFn k) ->
  chain (ptrs s0) l T -> old_loc s0 nb l -> (forall n, n ∈ T -> is_Some (nodes s0 !! n)) ->
  (length T <= fuel)%nat ->
  exists s' Ls' E', rehash_chain HashFn ShardBits fuel nb cnt (load l s) s = Some s' /\
    Copy ext s0 nb cnt s' Ls' E' /\ E' ≡ₚ omap (entry s0) T ++ E.
Proof.
  induction T as [|n T IH]; intros fuel l s Ls E HC Hcnt Hhash Hch Hl Hin Hf; simpl in Hch.
  - exists s, Ls, E. unfold load. rewrite (cp_ptrs _ _ _ _ _ _ _ HC l Hl), Hch.
    by destruct fuel.
  - destruct Hch as [Hln Hch]. destruct (Hin n) as [nd Hn]; [left|].
    destruct fuel as [|fuel]; [simpl in Hf; lia|].
    unfold load at 1. rewrite (cp_ptrs _ _ _ _ _ _ _ HC l Hl), Hln. simpl.
    pose proof (cp_nodes _ _ _ _ _ _ _ HC n nd Hn) as Hns. rewrite Hns.
    destruct (Copy_step ext s0 nb cnt s Ls E n nd HC Hcnt Hhash Hns) as (Hslot & Ls1 & HC1).
    unfold new_node in Hslot, HC1. simpl in Hslot, HC1. rewrite Hslot.
    edestruct (IH fuel (Next n)) as (s' & Ls' & E' & Hrun & HC' & HE'); [exact HC1|done|done|done| | |simpl in Hf; lia|].
    + by exists nd.
    + intros m Hm. apply Hin. by right.
    + exists s', Ls', E'. split; [exact Hrun|]. split; [done|]. rewrite HE'. csimpl.
      unfold entry at 2. rewrite Hn. simpl. by rewrite Permutation_middle.
Qed.

Lemma rehash_buckets_spec ext s0 nb cnt old (Ls0 : list (list nat)) fuel : forall js s Ls E,
  Copy ext s0 nb cnt s Ls E -> 1 <= cnt <= 2 ^ 64 -> (forall k, 0 <= HashFn k) -> old <> nb ->
  (forall i, i ∈ js -> exists L, Ls0 !! i = Some L /\ chain (ptrs s0) (Slot old i) L /\
     (forall n, n ∈ L -> is_Some (nodes s0 !! n)) /\ (length L <= fuel)%nat) ->
  exists s' Ls' E', rehash_buckets HashFn ShardBits fuel old nb cnt js s = Some s' /\
    Copy ext s0 nb cnt s' Ls' E' /\
    E' ≡ₚ (js ≫= fun i => omap (entry s0) (default [] (Ls0 !! i))) ++ E.
Proof.
  induction js as [|i js IH]; intros s Ls E HC Hcnt Hhash Hne Hjs; simpl; [by exists s, Ls, E|].
  destruct (Hjs i) as (L & HL & Hch & Hin & Hf); [left|].
  destruct (rehash_chain_spec ext s0 nb cnt L fuel (Slot old i) s Ls E HC Hcnt Hhash Hch Hne Hin Hf)
    as (s1 & Ls1 & E1 & -> & HC1 & HE1).
  destruct (IH s1 Ls1 E1 HC1 Hcnt Hhash Hne) as (s' & Ls' & E' & -> & HC' & HE').
  { intros j Hj. apply Hjs. by right. }
  exists s', Ls', E'. split; [done|]. split; [done|]. rewrite HE', HE1, HL. simpl.
  rewrite !app_assoc. by rewrite (Permutation_app_comm (omap _ L)).
Qed.

Lemma bind_ext_in {B C} (f g : B -> list C) (L : list B) :
  (forall x, x ∈ L -> f x = g x) -> L ≫= f = L ≫= g.
Proof.
  induction L as [|x L IH]; intros Hfg; csimpl; [done|].
  rewrite Hfg by left. f_equal. apply IH. intros y Hy. apply Hfg. by right.
Qed.

Lemma bind_seq_default {B} (f : list nat -> list B) (Ls : list (list nat)) :
  (forall L1 L2, f (L1 ++ L2) = f L1 ++ f L2) -> f [] = [] ->
  (seq 0 (length Ls) ≫= fun i => f (default [] (Ls !! i))) = f (mjoin Ls).
Proof.
  intros Happ Hnil.
  assert (forall k, (seq k (length Ls) ≫= fun i => f (default [] (Ls !! (i - k)%nat))) = f (mjoin Ls)) as Hk.
  { induction Ls as [|L Ls IH]; intros k; simpl; [done|].
    rewrite Nat.sub_diag. simpl. rewrite Happ. f_equal. rewrite <-(IH (S k)).
    apply bind_ext_in. intros i Hi. apply elem_of_seq in Hi.
    by replace (i - k)%nat with (S (i - S k)) by lia. }
  rewrite <-(Hk 0%nat). apply bind_ext_in. intros i _. by rewrite Nat.sub_0_r.
Qed.

Lemma empty_buckets s b c (Ls : list (list nat)) :
  Ls = replicate (Z.to_nat c) [] -> 0 <= c -> (forall i, ptrs s !! Slot b i = None) -> Buckets s b c Ls.
Proof.
  intros -> Hc Hnone. constructor.
  - rewrite length_replicate. lia.
  - intros i L [-> _]%lookup_replicate. apply Hnone.
  - assert (mjoin (replicate (Z.to_nat c) ([] : list nat)) = []) as ->; [|constructor].
    induction (Z.to_nat c); simpl; done.
  - intros i L n [-> _]%lookup_replicate Hn. by apply elem_of_nil in Hn.
Qed.

Lemma mjoin_replicate_nil c : mjoin (replicate c ([] : list nat)) = [].
Proof. induction c; simpl; done. Qed.

Lemma Repr_node ext s M Ls i L n :
  Repr ext s M Ls -> Ls !! i = Some L -> n ∈ L -> is_Some (nodes s !! n).
Proof. intros H Hi Hn. destruct (bk_node _ _ _ _ (rp_buckets _ _ _ (proj2 H)) i L n Hi Hn) as (nd & ? & _). by exists nd. Qed.

Lemma Repr_fuel ext s M Ls i L :
  Repr ext s M Ls -> Ls !! i = Some L -> (length L <= fuel_of s)%nat.
Proof.
  intros H Hi. apply nodup_size.
  - eapply NoDup_mjoin_chain; [apply (bk_nodup _ _ _ _ (rp_buckets _ _ _ (proj2 H)))|done].
  - intros n. by eapply Repr_node.
Qed.

(** [retire] of the bucket list that was current. *)
Lemma Own_retire_list ext s old b :
  Own ext s -> bucket_list_ s = old -> is_Some (lists s !! old) -> b <> old ->
  OBucketList b ∉ retired s ->
  Own ext (retire (OBucketList old) (set_bucket_list b s)).
Proof.
  intros [H1 H2 H3 H4 H5 H6 H7 H8 H9] Hold Hs Hne Hb. constructor; simpl; try done.
  - intros n Hn. rewrite H4 by done. rewrite elem_of_app, list_elem_of_singleton. naive_solver.
  - intros n [Hn|Hn%list_elem_of_singleton]%elem_of_app; [by apply H5|done].
  - intros b' [Hb'|Hb'%list_elem_of_singleton]%elem_of_app.
    + split; [by apply H6|]. intros ->. done.
    + injection Hb' as ->. done.
  - apply NoDup_app. split_and!; [done| |apply NoDup_singleton].
    intros o Ho ->%list_elem_of_singleton. apply H6 in Ho as [_ Ho]. by apply Ho.
Qed.

(** ** What a walk that started before a step can rely on after it *)

Definition owner l : Obj := match l with inl (b, _) => OBucketList b | inr n => ONode n end.

Definition all_kept (o : Obj) : Prop := True.

(** The objects [keep] stay allocated with their contents and their pointers. *)
Record Frozen (keep : Obj -> Prop) s s' : Prop := {
  fz_entry : forall n e, keep (ONode n) -> entry s n = Some e -> entry s' n = Some e;
  fz_list : forall b c, keep (OBucketList b) -> lists s !! b = Some c -> lists s' !! b = Some c;
  fz_ptrs : forall l, keep (owner l) -> loc_ok s l -> ptrs s' !! l = ptrs s !! l
}.

(** The value a walk along the nodes [L] finds for the key [k]. *)
Fixpoint first_value s (k : K) (L : list nat) : option V :=
  match L with
  | [] => None
  | n :: L =>
      match entry s n with
      | Some (k', v) => if decide (k = k') then Some v else first_value s k L
      | None => first_value s k L
      end
  end.

(** Every chain from a place of a kept object still ends, and for each key it gives what
    it gave before or what the new map [M'] gives. *)
Record Evolves (keep : Obj -> Prop) s s' (M' : gmap K V) : Prop := {
  ev_entry : forall n e, keep (ONode n) -> entry s n = Some e -> entry s' n = Some e;
  ev_list : forall b c, keep (OBucketList b) -> lists s !! b = Some c -> lists s' !! b = Some c;
  ev_chain : forall l L, keep (owner l) -> loc_ok s l -> chain (ptrs s) l L -> exists L',
    chain (ptrs s') l L' /\
    forall k, first_value s' k L' = first_value s k L \/ first_value s' k L' = M' !! k
}.

Lemma entry_is_Some s n : is_Some (entry s n) <-> is_Some (nodes s !! n).
Proof. unfold entry. by rewrite fmap_is_Some. Qed.

Lemma chain_live ext s l L n : Own ext s -> chain (ptrs s) l L -> n ∈ L -> is_Some (nodes s !! n).
Proof.
  intros HO Hc Hn. apply (own_target _ _ HO). unfold holders. apply elem_of_app. left. by eapply chain_refs.
Qed.

Lemma chain_det ps l L L' : chain ps l L -> chain ps l L' -> L = L'.
Proof.
  revert l L'. induction L as [|n L IH]; intros l [|n' L'] H H'; simpl in *; [done|..].
  - destruct H'. congruence.
  - destruct H. congruence.
  - destruct H as [E H], H' as [E' H']. rewrite E in E'. injection E' as <-. f_equal. by eapply IH.
Qed.

Lemma first_value_agree s s' k L :
  (forall n, n ∈ L -> entry s' n = entry s n) -> first_value s' k L = first_value s k L.
Proof.
  induction L as [|n L IH]; intros H; simpl; [done|]. rewrite H by (by left).
  rewrite IH; [done|]. intros m Hm. apply H. by right.
Qed.

Lemma first_value_app s k L T :
  first_value s k (L ++ T) = match first_value s k L with Some v => Some v | None => first_value s k T end.
Proof.
  induction L as [|n L IH]; simpl; [done|]. destruct (entry s n) as [[k' v]|]; [|done].
  by destruct (decide (k = k')).
Qed.

Lemma same_frozen s s' : same_map s s' -> Frozen all_kept s s'.
Proof.
  intros S. constructor.
  - intros n e _. by rewrite (sm_entry _ _ S).
  - intros b c _. by rewrite (sm_lists _ _ S).
  - intros l _ _. by rewrite (sm_ptrs _ _ S).
Qed.

Lemma frozen_loc s s' l : Frozen all_kept s s' -> loc_ok s l -> loc_ok s' l.
Proof.
  intros [F1 F2 _]. destruct l as [[b i]|n]; simpl.
  - intros (c & Hc & Hi). exists c. split; [by apply F2|done].
  - rewrite <-!entry_is_Some. intros [e He]. exists e. by apply F1.
Qed.

Lemma frozen_trans s s1 s2 : Frozen all_kept s s1 -> Frozen all_kept s1 s2 -> Frozen all_kept s s2.
Proof.
  intros F G. constructor.
  - intros n e ? ?. apply G; [done|]. by apply F.
  - intros b c ? ?. apply G; [done|]. by apply F.
  - intros l ? Hl. rewrite (fz_ptrs _ _ _ G); [by apply F|done|by eapply frozen_loc].
Qed.

Lemma frozen_chain keep ext s s' l L :
  Frozen keep s s' -> Own ext s -> (forall n, n ∈ vals (ptrs s) -> keep (ONode n)) ->
  keep (owner l) -> loc_ok s l -> chain (ptrs s) l L ->
  chain (ptrs s') l L /\ forall n, n ∈ L -> entry s' n = entry s n.
Proof.
  intros F HO Hk Hl Hok Hc.
  assert (Hlive : forall n, n ∈ L -> keep (ONode n) /\ is_Some (nodes s !! n)).
  { intros n Hn. split; [by eapply Hk, chain_refs|by eapply chain_live]. } split.
  - eapply ptr_chain_agree; [|exact Hc]. intros l' [->|(n & -> & Hn)%list_elem_of_fmap]%elem_of_cons.
    + by apply F.
    + apply F; by apply Hlive.
  - intros n Hn. destruct (Hlive n Hn) as [Hkn [e He]%entry_is_Some]. rewrite He. by apply F.
Qed.

Lemma frozen_evolves keep ext s s' M' :
  Frozen keep s s' -> Own ext s -> (forall n, n ∈ vals (ptrs s) -> keep (ONode n)) -> Evolves keep s s' M'.
Proof.
  intros F HO Hk. constructor; [apply F|apply F|]. intros l L Hl Hok Hc.
  destruct (frozen_chain keep ext s s' l L F HO Hk Hl Hok Hc) as [Hc' He]. exists L. split; [done|].
  intros k. left. by apply first_value_agree.
Qed.

(** One pointer, at the end of [L1] in the chain from [slot], is redirected. *)
Lemma redirect_chain ps ps' prev new T T' : forall l L,
  (forall l', l' <> prev -> l' <> Next new -> ps' !! l' = ps !! l') ->
  chain ps prev T -> chain ps' prev T' -> l <> Next new -> new ∉ L -> chain ps l L ->
  chain ps' l L \/ exists A, L = A ++ T /\ chain ps' l (A ++ T').
Proof.
  intros l L Hag HT HT'. revert l. induction L as [|n L IH]; intros l Hl Hnew Hc.
  - destruct (decide (l = prev)) as [->|Hne].
    + right. exists []. split; [by eapply chain_det|done].
    + left. simpl in *. by rewrite Hag.
  - destruct (decide (l = prev)) as [->|Hne].
    + right. exists []. split; [by eapply chain_det|done].
    + destruct Hc as [Hn Hc]. assert (ps' !! l = Some n) by (by rewrite Hag).
      destruct (IH (Next n)) as [Hc'|(A & -> & Hc')]; [|set_solver|done|by left|].
      * intros [= ->]. apply Hnew. by left.
      * right. by exists (n :: A).
Qed.

Lemma redirect_evolves ext s0 s s' M' slot L1 T T' new :
  Own ext s0 -> Frozen all_kept s0 s -> nodes s0 !! new = None ->
  chain (ptrs s) slot (L1 ++ T) ->
  (forall l, l <> last_loc slot L1 -> l <> Next new -> ptrs s' !! l = ptrs s !! l) ->
  chain (ptrs s') (last_loc slot L1) T' ->
  (forall m, entry s' m = entry s m) -> lists s' = lists s ->
  (forall q, first_value s' q T' = first_value s q T \/ first_value s' q T' = M' !! q) ->
  Evolves all_kept s0 s' M'.
Proof.
  intros HO F Hnew Hc Hag HT' He Hl HT. constructor.
  - intros n e _ Hn. rewrite He. by apply F.
  - intros b c _ Hb. rewrite Hl. by apply F.
  - intros l L _ Hok HcL. destruct (frozen_chain all_kept ext s0 s l L F HO) as [HcL' HeL]; [done..|].
    assert (Hl' : l <> Next new) by (intros ->; simpl in Hok; rewrite Hnew in Hok; by destruct Hok).
    assert (HnL : new ∉ L).
    { intros Hin. destruct (chain_live _ _ _ _ _ HO HcL Hin) as [? ?]. congruence. }
    assert (HL : forall k A, A ⊆ L -> first_value s' k A = first_value s0 k A).
    { intros k A HA. apply first_value_agree. intros n Hn. rewrite He. by apply HeL, HA. }
    destruct (redirect_chain (ptrs s) (ptrs s') (last_loc slot L1) new T T' l L) as [Hc'|(A & -> & Hc')]; try done.
    + by apply chain_tail.
    + exists L. split; [done|]. intros k. left. by apply HL.
    + exists (A ++ T'). split; [done|]. intros k. rewrite !first_value_app. rewrite HL by set_solver.
      destruct (first_value s0 k A); [by left|].
      replace (first_value s0 k T) with (first_value s k T); [apply HT|].
      apply first_value_agree. intros n Hn. apply HeL. set_solver.
Qed.

Record Extends s s' : Prop := {
  ext_node : forall n nd, nodes s !! n = Some nd -> nodes s' !! n = Some nd;
  ext_next : forall n, is_Some (nodes s !! n) -> load (Next n) s' = load (Next n) s;
  ext_list : forall b c, lists s !! b = Some c -> lists s' !! b = Some c;
  ext_slot : forall b i, is_Some (lists s !! b) -> load (Slot b i) s' = load (Slot b i) s;
  ext_few : few s -> few s'
}.

Lemma extends_frozen s s' : Extends s s' -> Frozen all_kept s s'.
Proof.
  intros [E1 E2 E3 E4 _]. constructor.
  - intros n e _. unfold entry. rewrite !fmap_Some. intros (nd & Hn & ->). exists nd. split; [by apply E1|done].
  - intros b c _. apply E3.
  - intros [[b i]|n] _; simpl; [|apply E2]. intros (c & Hc & _). apply E4. by exists c.
Qed.

(** Where every node is allocated, every node has an entry. *)
Lemma entries_length t Ks : (forall n, n ∈ mjoin Ks -> is_Some (nodes t !! n)) ->
  length (entries t Ks) = length (mjoin Ks).
Proof.
  intros Hk. unfold entries. induction (mjoin Ks) as [|n L IH]; [done|]. csimpl.
  destruct (Hk n) as [nd Hnd]; [left|]. unfold entry at 1. rewrite Hnd. simpl.
  rewrite IH; [done|]. intros m Hm. apply Hk. by right.
Qed.

(** Copying starts with empty buckets. *)
Lemma Copy_start ext s1 nb cnt s2 :
  Own ext s1 -> 1 <= cnt <= 2 ^ 64 -> new_bucket_list cnt s1 = (nb, s2) -> Copy ext s2 nb cnt s2 (replicate (Z.to_nat cnt) []) [].
Proof.
  intros HO Hcnt Hnb. destruct (new_bucket_list_spec ext s1 cnt nb s2 HO Hnb)
    as (HO2 & Hb & HL2 & HL1 & HN2 & HP2 & HB2 & HS2 & HR2 & Hnull).
  constructor; try done.
  - rewrite HL2. by rewrite lookup_insert_eq.
  - apply empty_buckets; [done|lia|]. intros i. by rewrite HP2.
  - intros n. rewrite mjoin_replicate_nil. by intros ?%elem_of_nil.
  - unfold entries. by rewrite mjoin_replicate_nil.
  - by left.
Qed.

Lemma rehash_spec ext s M Ls cnt :
  Repr ext s M Ls -> 1 <= cnt <= 2 ^ 64 -> (forall k, 0 <= HashFn k) ->
  exists s' Ls', rehash HashFn ShardBits cnt s = Some s' /\ Repr ext s' M Ls' /\
    Z.of_nat (length Ls') = cnt /\ Extends s s' /\
    (forall n, n ∈ mjoin Ls' -> nodes s !! n = None).
Proof.
  intros H Hcnt Hhash. pose proof H as [HO [Hlist Hpos HB Hkeys HM Hsz]].
  unfold rehash, rehash_copy. rewrite Hlist.
  set (s1 := set_load _ _ s).
  assert (HO1 : Own ext s1) by (by destruct HO).
  destruct (new_bucket_list cnt s1) as [nb s2] eqn:Hnb.
  destruct (new_bucket_list_spec ext s1 cnt nb s2 HO1 Hnb)
    as (HO2 & Hb & HL2 & HL1 & HN2 & HP2 & HB2 & HS2 & HR2 & Hnull).
  simpl in *.
  assert (Hcur : is_Some (lists s !! bucket_list_ s)) by by rewrite Hlist.
  assert (Hne : bucket_list_ s <> nb) by (intros E; rewrite E, HL1 in Hcur; by destruct Hcur).
  pose proof (Copy_start ext s1 nb cnt s2 HO1 Hcnt Hnb) as HC.
  destruct (rehash_buckets_spec ext s2 nb cnt (bucket_list_ s) Ls (fuel_of s)
    (seq 0 (Z.to_nat (Z.of_nat (length Ls)))) s2 _ [] HC Hcnt Hhash Hne)
    as (s3 & Ls' & E' & -> & HC' & HE').
  { intros i [_ Hi]%elem_of_seq. destruct (lookup_lt_is_Some_2 Ls i) as [L HL]; [lia|].
    exists L. split_and!; [done|rewrite HP2; by apply (bk_chain _ _ _ _ HB)| |by eapply Repr_fuel].
    intros n Hn. rewrite HN2. by eapply Repr_node. }
  destruct HC' as [C1 C2 C3 C4 C5 C6 C7 C8 C9 C10 C11 C12].
  assert (HEs : entries s3 Ls' ≡ₚ entries s Ls).
  { rewrite C5, HE', app_nil_r, Nat2Z.id.
    rewrite (bind_seq_default (omap (entry s2)) Ls); [|intros; apply omap_app|done].
    apply reflexive_eq. unfold entries, entry. by rewrite HN2. }
  assert (Hlen : Z.of_nat (length Ls') = cnt) by apply C3.
  exists (retire (OBucketList (bucket_list_ s)) (set_bucket_list nb s3)), Ls'.
  split; [done|]. split_and!.
  - assert (Hown : Own ext (retire (OBucketList (bucket_list_ s)) (set_bucket_list nb s3))).
    { apply Own_retire_list; [done|congruence| |done|].
      - rewrite C9, HL2, lookup_insert_ne by done. done.
      - rewrite C12, HR2. intros Hin. apply (own_retired_list _ _ HO) in Hin as [Hin _].
        rewrite HL1 in Hin. by destruct Hin. }
    split; [done|]. constructor; simpl.
    + by rewrite Hlen.
    + lia.
    + rewrite Hlen. destruct C3 as [D1 D2 D3 D4]. by constructor.
    + change (entries _ Ls') with (entries s3 Ls'). by rewrite HEs.
    + change (entries _ Ls') with (entries s3 Ls').
      rewrite HM. symmetry. apply list_to_map_proper; [by rewrite HEs|done].
    + rewrite C11, HS2, Hsz. f_equal.
      rewrite <-(entries_length s Ls), <-(entries_length s3 Ls'), HEs; [done| |].
      * intros n (i & L & Hi & Hn)%elem_of_mjoin.
        destruct (bk_node _ _ _ _ C3 i L n Hi Hn) as (nd & ? & _). by exists nd.
      * intros n (i & L & Hi & Hn)%elem_of_mjoin. by eapply Repr_node.
  - done.
  - constructor; simpl.
    + intros n nd Hn. apply C6. by rewrite HN2.
    + intros n Hn. unfold load. simpl. rewrite (C8 (Next n)); [by rewrite HP2|]. simpl. by rewrite HN2.
    + intros b c Hbc. assert (b <> nb) by (intros ->; rewrite HL1 in Hbc; done).
      rewrite C9, HL2 by done. by rewrite lookup_insert_ne.
    + intros b i Hbi. assert (b <> nb) by (intros ->; rewrite HL1 in Hbi; by destruct Hbi).
      unfold load. simpl. by rewrite (C8 (Slot b i)), HP2.
    + intros Hfew n nd Hn. simpl in Hn. apply C7 in Hn as [Hn|Hn]; [|lia].
      rewrite HN2 in Hn. by eapply Hfew.
  - intros n Hn. rewrite <-HN2. by apply C4.
Qed.

(** Rehashing into zero buckets fails at the first element. *)
Lemma rehash_buckets_zero old nb fuel s js :
  lists s !! nb = Some 0 -> (exists i, i ∈ js /\ is_Some (load (Slot old i) s)) ->
  rehash_buckets HashFn ShardBits fuel old nb 0 js s = None.
Proof.
  intros Hl. induction js as [|i js IH]; intros (j & Hj & Hs); [by apply elem_of_nil in Hj|]. simpl.
  destruct (load (Slot old i) s) as [n|] eqn:Hi.
  - destruct fuel as [|fuel]; [done|]. simpl. destruct (nodes s !! n) as [nd|]; [|done].
    unfold get_atomic_head. simpl. rewrite Hl.
    assert ((0 <=? bucket_id ShardBits (HashFn (key nd)) 0) && (bucket_id ShardBits (HashFn (key nd)) 0 <? 0) = false)
      as ->; [|done]. apply andb_false_iff.
    destruct (Z.leb_spec 0 (bucket_id ShardBits (HashFn (key nd)) 0)); [right; apply Z.ltb_ge; lia|by left].
  - assert (rehash_chain HashFn ShardBits fuel nb 0 None s = Some s) as -> by (by destruct fuel).
    apply IH. apply elem_of_cons in Hj as [->|Hj]; [|by exists j]. rewrite Hi in Hs. by destruct Hs.
Qed.

Lemma rehash_zero s M Ls : Repr [] s M Ls -> M <> ∅ -> rehash HashFn ShardBits 0 s = None.
Proof.
  intros [HO [Hlist Hpos HB Hkeys HM Hsz]] Hne. unfold rehash, rehash_copy. rewrite Hlist.
  destruct (new_bucket_list 0 _) as [nb s2] eqn:Hnb. unfold new_bucket_list in Hnb. injection Hnb as <- <-.
  rewrite rehash_buckets_zero; [done|simpl; by rewrite lookup_insert_eq|].
  destruct (mjoin Ls) as [|n R] eqn:E.
  { exfalso. apply Hne. rewrite HM. unfold entries. by rewrite E. }
  assert (n ∈ mjoin Ls) as (i & L & Hi & Hn)%elem_of_mjoin by (rewrite E; left).
  exists i. split; [apply elem_of_seq; apply lookup_lt_Some in Hi; lia|].
  pose proof (bk_chain _ _ _ _ HB i L Hi) as Hc. unfold load. simpl.
  destruct L as [|m L]; [by apply elem_of_nil in Hn|]. destruct Hc as [-> _]. by eexists.
Qed.

(** * Splicing a bucket *)

Lemma entry_node s n k v : entry s n = Some (k, v) <-> exists nd, nodes s !! n = Some nd /\ key nd = k /\ value nd = v.
Proof.
  unfold entry. rewrite fmap_Some. split.
  - intros (nd & Hn & [= -> ->]). by exists nd.
  - intros (nd & Hn & <- & <-). by exists nd.
Qed.

Lemma Buckets_same s s' b c Ls : same_map s s' -> Buckets s b c Ls -> Buckets s' b c Ls.
Proof.
  intros S [H1 H2 H3 H4]. constructor; [done| |done|].
  - intros i L Hi. rewrite (sm_ptrs _ _ S). by apply H2.
  - intros i L n Hi Hn. destruct (H4 i L n Hi Hn) as (nd & Hnd & Hb).
    assert (entry s' n = Some (key nd, value nd)) as He.
    { rewrite (sm_entry _ _ S). unfold entry. by rewrite Hnd. }
    apply entry_node in He as (nd' & ? & Hk & _). exists nd'. by rewrite Hk.
Qed.

Lemma Func_same s s' M Ls : same_map s s' -> Func s M Ls -> Func s' M Ls.
Proof.
  intros S [H1 H2 H3 H4 H5 H6].
  assert (He : entries s' Ls = entries s Ls) by (apply entries_ext; intros; apply S).
  constructor; rewrite ?(sm_lists _ _ S), ?(sm_cur _ _ S), ?(sm_size _ _ S), ?He; try done.
  by eapply Buckets_same.
Qed.

Lemma last_loc_case b i L : last_loc (Slot b i) L = Slot b i \/ exists n, n ∈ L /\ last_loc (Slot b i) L = Next n.
Proof.
  unfold last_loc. destruct (last L) as [n|] eqn:E; [right|by left].
  exists n. split; [|done]. apply last_Some in E as (L0 & ->). set_solver.
Qed.

Lemma splice_buckets s s' b c (Ls : list (list nat)) i L1 T T' :
  Buckets s b c Ls -> Ls !! i = Some (L1 ++ T) ->
  (forall l, l <> last_loc (Slot b i) L1 -> (exists j, l = Slot b j) \/ (exists m, l = Next m /\ m ∈ mjoin Ls) ->
    ptrs s' !! l = ptrs s !! l) ->
  chain (ptrs s') (last_loc (Slot b i) L1) T' ->
  (forall n, n ∈ mjoin Ls -> entry s' n = entry s n) ->
  (forall n, n ∈ T' -> n ∈ T \/ exists k v, entry s' n = Some (k, v) /\ in_bucket k c = i) ->
  NoDup (mjoin (<[i := L1 ++ T']> Ls)) ->
  Buckets s' b c (<[i := L1 ++ T']> Ls).
Proof.
  intros [H1 H2 H3 H4] Hi Hag HT Hent HT' Hnd.
  assert (Hin : forall j L n, Ls !! j = Some L -> n ∈ L -> n ∈ mjoin Ls)
    by (intros; apply elem_of_mjoin; eauto).
  pose proof (NoDup_mjoin_chain Ls i (L1 ++ T) H3 Hi) as HndL.
  assert (Hnode : forall j L n, Ls !! j = Some L -> n ∈ L -> exists nd, nodes s' !! n = Some nd /\ in_bucket (key nd) c = j).
  { intros j L n Hj Hn. destruct (H4 j L n Hj Hn) as (nd & Hnd' & Hb).
    assert (entry s' n = Some (key nd, value nd)) as He
      by (rewrite Hent by eauto; unfold entry; by rewrite Hnd').
    apply entry_node in He as (nd' & ? & Hk & _). exists nd'. by rewrite Hk. }
  constructor; [by rewrite length_insert| |done|].
  - intros j L [(<- & <- & Hlt)|[Hne Hj]]%list_lookup_insert_Some.
    + apply (chain_splice (ptrs s) _ _ _ T); [|by apply H2| |done].
      * apply NoDup_locs. by apply NoDup_app in HndL as [? _].
      * intros l Hl Hll. apply Hag; [done|]. apply elem_of_cons in Hl as [->|Hl]; [left; by exists i|right].
        apply list_elem_of_fmap in Hl as (m & -> & Hm). exists m. split; [done|].
        apply (Hin i (L1 ++ T)); [done|set_solver].
    + apply (ptr_chain_agree (ptrs s)); [|by apply H2]. intros l Hl. apply Hag.
      * intros ->. destruct (last_loc_case b i L1) as [E|(m & Hm & E)]; rewrite E in Hl.
        -- apply elem_of_cons in Hl as [[= ->]|(? & ? & _)%list_elem_of_fmap]; [by destruct Hne|done].
        -- apply elem_of_cons in Hl as [?|(m' & [= <-] & Hm')%list_elem_of_fmap]; [done|].
           apply Hne. apply (mjoin_unique Ls i j (L1 ++ T) L m); [done..|set_solver|done].
      * apply elem_of_cons in Hl as [->|(m & -> & Hm)%list_elem_of_fmap]; [left; by exists j|right].
        exists m. split; [done|by eapply Hin].
  - intros j L n [(<- & <- & Hlt)|[Hne Hj]]%list_lookup_insert_Some Hn; [|by eapply Hnode].
    apply elem_of_app in Hn as [Hn|Hn]; [apply (Hnode i (L1 ++ T)); [done|set_solver]|].
    destruct (HT' n Hn) as [HnT|(k & v & He & Hb)]; [apply (Hnode i (L1 ++ T)); [done|set_solver]|].
    apply entry_node in He as (nd & ? & <- & _). by exists nd.
Qed.

(** In a chain the successor of a node is the head of the rest. *)
Lemma chain_next ps l L1 n L2 : chain ps l (L1 ++ n :: L2) -> ps !! Next n = head L2 /\ ps !! last_loc l L1 = Some n.
Proof.
  intros Hc. apply chain_tail in Hc as [Hl Hc]. split; [|done].
  destruct L2; simpl in *; [done|by destruct Hc].
Qed.

Lemma acquire_opt_spec ext s p :
  Own ext s -> (forall n, p = Some n -> n ∈ holders s ext) -> few s ->
  exists s', acquire_opt p s = Some s' /\ Own (opt_list p ++ ext) s' /\ same_map s s'.
Proof.
  intros H Hp Hfew. destruct p as [n|]; simpl.
  - destruct (own_target _ _ H n (Hp n eq_refl)) as [nd Hn].
    apply (acquire_spec ext s n nd); [done|done|by apply Hp|by eapply Hfew].
  - exists s. split_and!; [done|done|]. by constructor.
Qed.

Lemma release_opt_spec ext s p :
  Own (opt_list p ++ ext) s -> exists s', release_opt p s = Some s' /\ Own ext s' /\ same_map s s'.
Proof.
  intros H. destruct p as [n|]; simpl; [by apply release_spec|].
  exists s. split_and!; [done|done|]. by constructor.
Qed.

(** * The operations *)

Section operations.
Context (Hhash : forall k, 0 <= HashFn k).

Lemma elem_of_entries s Ls k v : (k, v) ∈ entries s Ls <-> exists n, n ∈ mjoin Ls /\ entry s n = Some (k, v).
Proof. unfold entries. rewrite list_elem_of_omap. done. Qed.

Lemma key_in_entries s Ls k : k ∈ (entries s Ls).*1 <-> exists n v, n ∈ mjoin Ls /\ entry s n = Some (k, v).
Proof.
  rewrite list_elem_of_fmap. split.
  - intros ([k' v] & -> & (n & ? & ?)%elem_of_entries). eauto.
  - intros (n & v & ? & ?). exists (k, v). split; [done|]. apply elem_of_entries. eauto.
Qed.

(** Where [scan] leads from the bucket of [k]. *)
Lemma lookup_spec s M Ls k :
  Func s M Ls -> Z.of_nat (length Ls) <= 2 ^ 64 ->
  let c := Z.of_nat (length Ls) in
  let i := in_bucket k c in
  let slot := Slot (bucket_list_ s) i in
  get_atomic_head (bucket_list_ s) (bucket_id ShardBits (HashFn k) c) s = Some slot /\
  exists L, Ls !! i = Some L /\
    ((scan (fuel_of s) k slot s = Some (last_loc slot L, None) /\ M !! k = None /\
       k ∉ (entries s Ls).*1) \/
     (exists L1 n L2 v, L = L1 ++ n :: L2 /\ entry s n = Some (k, v) /\ M !! k = Some v /\
       scan (fuel_of s) k slot s = Some (last_loc slot L1, Some n))).
Proof.
  intros H Hle c i slot. pose proof H as [Hlist Hpos HB Hkeys HM Hsz].
  pose proof (bucket_id_range (HashFn k) c (Hhash k) ltac:(unfold c; lia)) as Hrng.
  split; [by apply (get_atomic_head_spec _ c)|].
  destruct (lookup_lt_is_Some_2 Ls i) as [L HL]; [unfold i, in_bucket; lia|].
  exists L. split; [done|].
  assert (Hin : forall n, n ∈ L -> is_Some (nodes s !! n)).
  { intros n Hn. destruct (bk_node _ _ _ _ HB i L n HL Hn) as (nd & ? & _). by exists nd. }
  assert (Hlen : (length L <= fuel_of s)%nat).
  { apply nodup_size; [|done]. eapply NoDup_mjoin_chain; [apply HB|exact HL]. }
  destruct (scan_spec (fuel_of s) k slot s L (bk_chain _ _ _ _ HB i L HL) Hin Hlen)
    as [[Hs Hno]|(L1 & n & L2 & nd & -> & Hn & Hk & Hs)].
  - left. assert (k ∉ (entries s Ls).*1) as Hk.
    { intros (n & v & Hn & He)%key_in_entries. apply elem_of_mjoin in Hn as (j & L' & Hj & Hn).
      apply entry_node in He as (nd & Hnd & Hkn & _).
      destruct (bk_node _ _ _ _ HB j L' n Hj Hn) as (nd' & Hnd' & Hb).
      rewrite Hnd in Hnd'. injection Hnd' as <-. rewrite Hkn in Hb. fold c i in Hb.
      assert (j = i) as -> by (by rewrite <-Hb).
      rewrite HL in Hj. injection Hj as <-. by eapply Hno. }
    split_and!; [done| |done]. rewrite HM. by apply not_elem_of_list_to_map_1.
  - right. exists L1, n, L2, (value nd). split_and!; [done| | |done].
    + unfold entry. by rewrite Hn, <-Hk.
    + rewrite HM. apply elem_of_list_to_map_1; [done|]. apply elem_of_entries. exists n.
      split; [apply elem_of_mjoin; exists i, (L1 ++ n :: L2); split; [done|set_solver]|].
      unfold entry. by rewrite Hn, <-Hk.
Qed.

Lemma length_mjoin_entries s b c Ls : Buckets s b c Ls -> length (entries s Ls) = length (mjoin Ls).
Proof.
  intros HB. assert (forall n, n ∈ mjoin Ls -> is_Some (entry s n)) as Hn.
  { intros n (i & L & Hi & Hn)%elem_of_mjoin. destruct (bk_node _ _ _ _ HB i L n Hi Hn) as (nd & Hnd & _).
    unfold entry. rewrite Hnd. by eexists. }
  unfold entries. induction (mjoin Ls) as [|n L IH]; [done|]. csimpl.
  destruct (Hn n) as [e ->]; [left|]. simpl. rewrite IH; [done|]. intros m Hm. apply Hn. by right.
Qed.

Lemma size_of_map s M Ls : Func s M Ls -> size_ s = Z.of_nat (size M).
Proof.
  intros [_ _ HB Hkeys -> Hsz]. rewrite Hsz, <-(length_mjoin_entries _ _ _ _ HB).
  rewrite <-(length_map_to_list (M := gmap K)). by rewrite map_to_list_to_map.
Qed.

(** Insertion of a key that is absent. *)
Lemma insert_absent ext s M Ls k v new L :
  Repr (new :: ext) s M Ls -> Ls !! in_bucket k (Z.of_nat (length Ls)) = Some L ->
  entry s new = Some (k, v) -> new ∉ mjoin Ls -> load (Next new) s = None ->
  M !! k = None -> k ∉ (entries s Ls).*1 -> size_ s < 2 ^ 64 - 1 ->
  let slot := Slot (bucket_list_ s) (in_bucket k (Z.of_nat (length Ls))) in
  Repr ext (push_front slot new (set_size (u64 (size_ s + 1)) s)) (<[k := v]> M)
    (<[in_bucket k (Z.of_nat (length Ls)) := new :: L]> Ls).
Proof.
  intros [HO [Hlist Hpos HB Hkeys HM Hsz]] HL Hent Hfresh Hnext HMk Hk Hlt slot.
  set (s1 := set_size _ s).
  assert (HO1 : Own (new :: ext) s1) by (by destruct HO).
  assert (HB1 : Buckets s1 (bucket_list_ s) (Z.of_nat (length Ls)) Ls) by (by destruct HB).
  apply entry_node in Hent as He. destruct He as (nd & Hnd & Hkey & Hval).
  assert (Hilt : (in_bucket k (Z.of_nat (length Ls)) < length Ls)%nat) by by eapply lookup_lt_Some.
  split.
  - apply push_front_own; [done|done| |done]. exists (Z.of_nat (length Ls)). split; [done|lia].
  - assert (Hents : entries (push_front slot new s1) (<[in_bucket k (Z.of_nat (length Ls)) := new :: L]> Ls)
      ≡ₚ (k, v) :: entries s Ls) by (by apply (entries_push s1 _ _ new Ls L)).
    constructor.
    + simpl. by rewrite length_insert.
    + by rewrite length_insert.
    + rewrite length_insert. change (bucket_list_ (push_front slot new s1)) with (bucket_list_ s).
      apply (push_front_buckets s1 _ _ Ls _ L new nd HB1 HL Hnd); [by rewrite Hkey|done].
    + rewrite Hents. csimpl. by apply NoDup_cons.
    + rewrite HM. rewrite (list_to_map_proper (entries (push_front slot new s1) _) ((k, v) :: entries s Ls));
        [done| |done].
      rewrite Hents. csimpl. by apply NoDup_cons.
    + simpl. rewrite Hsz, (mjoin_insert_front _ _ _ _ HL), u64_small by lia. simpl. lia.
Qed.

(** The chain from a node on after its predecessor has been redirected. *)
Lemma replace_func s s' M Ls k v v0 new L1 n L2 i :
  Func s M Ls -> Ls !! i = Some (L1 ++ n :: L2) -> i = in_bucket k (Z.of_nat (length Ls)) ->
  entry s n = Some (k, v0) -> new ∉ mjoin Ls ->
  lists s' = lists s -> bucket_list_ s' = bucket_list_ s -> size_ s' = size_ s ->
  (forall m, entry s' m = entry s m) -> entry s new = Some (k, v) ->
  ptrs s' !! last_loc (Slot (bucket_list_ s) i) L1 = Some new ->
  ptrs s' !! Next new = ptrs s !! Next n ->
  (forall l, l <> last_loc (Slot (bucket_list_ s) i) L1 -> l <> Next new -> ptrs s' !! l = ptrs s !! l) ->
  Func s' (<[k := v]> M) (<[i := L1 ++ new :: L2]> Ls).
Proof.
  intros H HL Hi Hent Hfresh E1 E2 E3 Hents Hnew Hp1 Hp2 Hp3.
  pose proof H as [Hlist Hpos HB Hkeys HM Hsz].
  destruct (mjoin_update Ls i _ HL) as (R & HR & HR').
  set (rest := L1 ++ L2 ++ R).
  assert (HR1 : mjoin Ls ≡ₚ n :: rest) by (rewrite HR; unfold rest; solve_Permutation).
  assert (HR2 : mjoin (<[i := L1 ++ new :: L2]> Ls) ≡ₚ new :: rest)
    by (rewrite HR'; unfold rest; solve_Permutation).
  pose proof (bk_nodup _ _ _ _ HB) as Hnd. rewrite HR1 in Hnd. apply NoDup_cons in Hnd as [Hn Hnd].
  assert (Hnewrest : new ∉ rest) by (rewrite HR1 in Hfresh; set_solver).
  assert (Hnd2 : NoDup (mjoin (<[i := L1 ++ new :: L2]> Ls)))
    by (rewrite HR2; by apply NoDup_cons).
  assert (Ee1 : entries s Ls ≡ₚ (k, v0) :: omap (entry s) rest).
  { unfold entries. rewrite HR1. csimpl. by rewrite Hent. }
  assert (Ee2 : entries s' (<[i := L1 ++ new :: L2]> Ls) ≡ₚ (k, v) :: omap (entry s) rest).
  { rewrite (entries_ext s s') by (intros; apply Hents). unfold entries. rewrite HR2. csimpl. by rewrite Hnew. }
  assert (Hk : NoDup (((k, v) :: omap (entry s) rest).*1)) by (by rewrite Ee1 in Hkeys).
  constructor; rewrite ?E1, ?E2, ?E3, ?length_insert; try done.
  - apply (splice_buckets s s' _ _ Ls i L1 (n :: L2) (new :: L2)); try done.
    + intros l Hne [[j ->]|(m & -> & Hm)]; apply Hp3; try done. intros [= ->]. done.
    + split; [done|]. apply (bk_chain _ _ _ _ HB) in HL as Hc. apply chain_tail in Hc as [_ Hc].
      apply (chain_move (ptrs s) _ (Next n)); [done|done|]. intros m Hm. apply Hp3.
      * intros E. destruct (last_loc_case (bucket_list_ s) i L1) as [E'|(m' & Hm' & E')]; rewrite E' in E; [done|].
        injection E as ->. unfold rest in Hnd. rewrite NoDup_app in Hnd. destruct Hnd as (_ & Hd & _).
        apply (Hd m' Hm'). set_solver.
      * intros [= ->]. apply Hnewrest. unfold rest. set_solver.
    + intros m [->|Hm]%elem_of_cons; [right|left; set_solver]. exists k, v.
      by rewrite Hents.
  - by rewrite Ee2.
  - rewrite HM. rewrite (list_to_map_proper (entries s Ls) _ Hkeys Ee1).
    rewrite (list_to_map_proper (entries s' _) ((k, v) :: omap (entry s) rest)); [|by rewrite Ee2|done].
    simpl. by rewrite insert_insert_eq.
  - rewrite Hsz, HR1, HR2. done.
Qed.

(** Own through the pointer updates of a replacement or removal. *)
Lemma load_store l v l' s : load l' (store l v s) = if decide (l' = l) then v else load l' s.
Proof.
  unfold load, store. simpl. destruct (decide (l' = l)) as [->|Hne].
  - destruct v; [by rewrite lookup_insert_eq|by rewrite lookup_delete_eq].
  - destruct v; [by rewrite lookup_insert_ne|by rewrite lookup_delete_ne].
Qed.

Lemma loc_ok_last s M Ls i L1 T :
  Func s M Ls -> Ls !! i = Some (L1 ++ T) -> loc_ok s (last_loc (Slot (bucket_list_ s) i) L1).
Proof.
  intros [Hlist Hpos HB _ _ _] HL.
  destruct (last_loc_case (bucket_list_ s) i L1) as [->|(m & Hm & ->)]; simpl.
  - exists (Z.of_nat (length Ls)). split; [done|]. apply lookup_lt_Some in HL. lia.
  - destruct (bk_node _ _ _ _ HB i _ m HL) as (nd & ? & _); [set_solver|by exists nd].
Qed.

Lemma replace_spec ext s M Ls k v v0 new L1 n L2 :
  Repr (new :: ext) s M Ls -> few s -> Ls !! in_bucket k (Z.of_nat (length Ls)) = Some (L1 ++ n :: L2) ->
  entry s n = Some (k, v0) -> entry s new = Some (k, v) -> new ∉ mjoin Ls -> load (Next new) s = None ->
  let prev := last_loc (Slot (bucket_list_ s) (in_bucket k (Z.of_nat (length Ls)))) L1 in
  exists s1, acquire_opt (load (Next n) s) s = Some s1 /\
    let s3 := store prev (Some new) (store (Next new) (load (Next n) s) s1) in
    Repr (n :: ext) s3 (<[k := v]> M) (<[in_bucket k (Z.of_nat (length Ls)) := L1 ++ new :: L2]> Ls) /\
    (forall l, l <> prev -> l <> Next new -> ptrs s3 !! l = ptrs s !! l) /\
    (forall m, entry s3 m = entry s m) /\ lists s3 = lists s /\ bucket_list_ s3 = bucket_list_ s.
Proof.
  intros [HO HF] Hfew HL Hent Hnew Hfresh Hnext prev.
  pose proof (bk_chain _ _ _ _ (rp_buckets _ _ _ HF) _ _ HL) as Hch.
  destruct (chain_next _ _ _ _ _ Hch) as [Hnn Hpn].
  destruct (acquire_opt_spec (new :: ext) s (load (Next n) s) HO) as (s1 & Hs1 & HO1 & S1); [|done|].
  { intros m Hm. unfold holders. apply elem_of_app. left. apply elem_of_vals. by exists (Next n). }
  exists s1. set (nx := load (Next n) s) in *.
  assert (Hprev : prev <> Next new).
  { unfold prev. destruct (last_loc_case (bucket_list_ s) (in_bucket k (Z.of_nat (length Ls))) L1)
      as [->|(m & Hm & ->)]; [done|]. intros [= ->]. apply Hfresh, elem_of_mjoin. eexists _, _.
    split; [exact HL|set_solver]. }
  apply entry_node in Hnew as Hnd. destruct Hnd as (nd & Hnd & _).
  assert (Hdom1 : is_Some (nodes s1 !! new)).
  { pose proof (sm_entry _ _ S1 new) as E. rewrite Hnew in E. apply entry_node in E as (? & ? & _). by eexists. }
  assert (HO2 : Own (new :: ext) (store (Next new) nx s1)).
  { apply (Own_store (opt_list nx ++ new :: ext)); [done| |done].
    unfold load. rewrite (sm_ptrs _ _ S1). unfold load in Hnext. by rewrite Hnext. }
  set (s3 := store prev (Some new) (store (Next new) nx s1)).
  assert (HO3 : Own (n :: ext) s3).
  { apply (Own_store (new :: ext)); [done| |].
    - rewrite load_store, decide_False by done. unfold load. rewrite (sm_ptrs _ _ S1).
      unfold prev. rewrite Hpn. simpl. solve_Permutation.
    - intros _. pose proof (loc_ok_last s M Ls _ L1 _ HF HL) as Hok. fold prev in Hok.
      destruct prev as [[b j]|m]; simpl in *; [by rewrite (sm_lists _ _ S1)|].
      destruct Hok as [md Hmd]. pose proof (sm_entry _ _ S1 m) as E. unfold entry in E. rewrite Hmd in E.
      apply fmap_Some in E as (? & ? & _). by eexists. }
  split; [done|].
  assert (Hptr : forall l, ptrs s3 !! l = if decide (l = prev) then Some new
    else if decide (l = Next new) then nx else ptrs s !! l).
  { intros l. change (ptrs s3 !! l) with (load l s3). unfold s3.
    rewrite !load_store. unfold load. by rewrite (sm_ptrs _ _ S1). }
  assert (Hag : forall l, l <> prev -> l <> Next new -> ptrs s3 !! l = ptrs s !! l)
    by (intros l Hl1 Hl2; rewrite Hptr; by rewrite !decide_False).
  split; [split; [done|]|].
  - apply (replace_func s s3 M Ls k v v0 new L1 n L2 (in_bucket k (Z.of_nat (length Ls)))); try done; try apply S1.
    + rewrite Hptr. by rewrite decide_True.
    + rewrite Hptr. by rewrite decide_False, decide_True.
  - split_and!; [done|apply S1..].
Qed.

(** What the insertion of a fresh node needs. *)
Record Fresh s (Ls : list (list nat)) (new : nat) (k : K) (v : V) : Prop := {
  fr_entry : entry s new = Some (k, v);
  fr_out : new ∉ mjoin Ls;
  fr_next : load (Next new) s = None
}.

Lemma insert_rehashed ext s M Ls k v new c0 :
  Repr (new :: ext) s M Ls -> few s -> Fresh s Ls new k v -> Z.of_nat (length Ls) < 2 ^ 62 ->
  c0 = Z.of_nat (length Ls) ->
  exists s1 Ls1,
    (if load_factor_cnt_threshold_ s <=? size_ s then rehash HashFn ShardBits (u64 (Z.shiftl c0 1)) s
     else Some s) = Some s1 /\
    Repr (new :: ext) s1 M Ls1 /\ few s1 /\ Fresh s1 Ls1 new k v /\ Z.of_nat (length Ls1) <= 2 ^ 63 /\
    size_ s1 = size_ s /\ Frozen all_kept s s1.
Proof.
  intros H Hfew [F1 F2 F3] Hlen ->. pose proof (rp_pos _ _ _ (proj2 H)) as Hpos.
  destruct (_ <=? _); [|exists s, Ls; split_and!; try done; lia].
  rewrite Z.shiftl_mul_pow2, u64_small by lia.
  destruct (rehash_spec (new :: ext) s M Ls (Z.of_nat (length Ls) * 2 ^ 1) H ltac:(lia) Hhash)
    as (s1 & Ls1 & Hs1 & H1 & Hl1 & E & Hnew). pose proof E as [E1 E2 _ _ E3].
  exists s1, Ls1. apply entry_node in F1 as (nd & Hnd & Hk & Hv).
  split_and!; [done|done|by apply E3| |lia| |by apply extends_frozen].
  - constructor.
    + apply entry_node. exists nd. split; [by apply E1|done].
    + intros Hin. apply Hnew in Hin. congruence.
    + rewrite E2; [done|by exists nd].
  - rewrite (size_of_map _ _ _ (proj2 H1)), (size_of_map _ _ _ (proj2 H)). done.
Qed.

(** The locked part of an insertion; [s0] is a state before the node was made. *)
Lemma insert_locked_spec ext s M Ls k v new :
  Repr (new :: ext) s M Ls -> few s -> Fresh s Ls new k v -> Z.of_nat (length Ls) < 2 ^ 62 ->
  size_ s < 2 ^ 64 - 1 ->
  exists node s' Ls', insert_locked HashFn ShardBits (HashFn k) k new s = Some (true, node, s') /\
    Repr (opt_list node ++ ext) s' (<[k := v]> M) Ls' /\
    forall s0, Own ext s0 -> Frozen all_kept s0 s -> nodes s0 !! new = None ->
      Evolves all_kept s0 s' (<[k := v]> M).
Proof.
  intros H Hfew HF Hlen Hsz. unfold insert_locked.
  rewrite (rp_list _ _ _ (proj2 H)).
  destruct (insert_rehashed ext s M Ls k v new _ H Hfew HF Hlen eq_refl)
    as (s1 & Ls1 & -> & H1 & Hfew1 & [F1 F2 F3] & Hlen1 & Hsz1 & Hfz).
  rewrite (rp_list _ _ _ (proj2 H1)).
  destruct (lookup_spec s1 M Ls1 k (proj2 H1) ltac:(lia)) as (-> & L & HL & [(-> & HMk & Hk)|Hfound]).
  - set (slot := Slot (bucket_list_ s1) (in_bucket k (Z.of_nat (length Ls1)))).
    set (s' := push_front slot new (set_size (u64 (size_ s1 + 1)) s1)).
    exists None, s'. eexists. split; [done|].
    pose proof (insert_absent ext s1 M Ls1 k v new L H1 HL F1 F2 F3 HMk Hk ltac:(lia)) as H'. split; [exact H'|].
    intros s0 HO F0 Hnew. pose proof (bk_chain _ _ _ _ (rp_buckets _ _ _ (proj2 H1)) _ _ HL) as Hch.
    apply (redirect_evolves ext s0 s1 s' _ slot [] L (new :: L) new HO); try done.
    + by eapply frozen_trans.
    + intros l Hl1 Hl2. unfold s'. rewrite push_front_lookup by done. unfold last_loc in Hl1. simpl in Hl1.
      by rewrite !decide_False.
    + eapply (bk_chain _ _ _ _ (rp_buckets _ _ _ (proj2 H'))).
      apply list_lookup_insert_eq. by eapply lookup_lt_Some.
    + intros q. simpl. change (entry s' new) with (entry s1 new). rewrite F1. case_decide as Hq; [right|left].
      * by rewrite Hq, lookup_insert_eq.
      * by apply first_value_agree.
  - destruct Hfound as (L1 & n & L2 & v0 & -> & Hent & HMk & ->).
    destruct (replace_spec ext s1 M Ls1 k v v0 new L1 n L2 H1 Hfew1 HL Hent F1 F2 F3)
      as (s2 & -> & H' & Hag & He & Hl & Hcur).
    set (s3 := store (last_loc _ _) (Some new) _) in *. clearbody s3. eexists (Some n), s3, _. split; [done|]. split; [exact H'|].
    intros s0 HO F0 Hnew. pose proof (bk_chain _ _ _ _ (rp_buckets _ _ _ (proj2 H1)) _ _ HL) as Hch.
    assert (Hlt : (in_bucket k (Z.of_nat (length Ls1)) < length Ls1)%nat) by by eapply lookup_lt_Some.
    pose proof (bk_chain _ _ _ _ (rp_buckets _ _ _ (proj2 H')) _ _ (list_lookup_insert_eq _ _ _ Hlt)) as Hch'.
    rewrite Hcur in Hch'.
    eapply (redirect_evolves ext s0 s1 s3 _ _ L1 (n :: L2) (new :: L2) new HO); [|done|exact Hch|exact Hag| |exact He|exact Hl|].
    + by eapply frozen_trans.
    + by apply chain_tail.
    + intros q. cbn [first_value]. rewrite He, F1, Hent. case_decide as Hq; [right; by rewrite Hq, lookup_insert_eq|left].
      by apply first_value_agree.
Qed.

Lemma insert_internal_spec ext s M Ls k v new :
  Repr (new :: ext) s M Ls -> few s -> Fresh s Ls new k v -> Z.of_nat (length Ls) < 2 ^ 62 ->
  size_ s < 2 ^ 64 - 1 ->
  exists s' Ls', insert_internal HashFn ShardBits (HashFn k) k new s = Some (true, s') /\
    Repr ext s' (<[k := v]> M) Ls'.
Proof.
  intros H Hfew HF Hlen Hsz. unfold insert_internal.
  destruct (insert_locked_spec ext s M Ls k v new H Hfew HF Hlen Hsz) as (node & s1 & Ls' & -> & [HO1 HF1] & _).
  cbn [fst snd]. destruct (release_opt_spec ext s1 node HO1) as (s' & -> & HO' & S').
  exists s', Ls'. split; [done|]. split; [done|]. by eapply Func_same.
Qed.

Lemma new_node_repr ext s M Ls k v n s' :
  Repr ext s M Ls -> few s -> new_node k v s = (n, s') ->
  Repr (n :: ext) s' M Ls /\ few s' /\ Fresh s' Ls n k v /\ size_ s' = size_ s /\
  nodes s' !! n = Some (mkNode k v 1) /\ nodes s !! n = None /\ Frozen all_kept s s'.
Proof.
  intros [HO HF] Hfew Hn.
  destruct (new_node_spec ext s k v n s' HO Hn)
    as (HO' & -> & HN & Hnone & HP & HL & HC & HS & HR & _ & _ & _ & Hnext).
  assert (Hout : next_id s ∉ mjoin Ls).
  { intros (i & L & Hi & Hin)%elem_of_mjoin.
    destruct (bk_node _ _ _ _ (rp_buckets _ _ _ HF) i L _ Hi Hin) as (nd & Hnd & _). congruence. }
  assert (Hent : forall m, m ∈ mjoin Ls -> entry s' m = entry s m).
  { intros m Hm. unfold entry. rewrite HN, lookup_insert_ne; [done|]. by intros <-. }
  assert (Hnew : nodes s' !! next_id s = Some (mkNode k v 1)) by (rewrite HN; by rewrite lookup_insert_eq).
  split_and!; try done.
  - split; [done|]. destruct HF as [F1 F2 [B1 B2 B3 B4] F4 F5 F6].
    constructor; rewrite ?HL, ?HC, ?HS, ?(entries_ext s s' Ls Hent); try done.
    constructor; try done.
    + intros i L Hi. rewrite HP. by apply B2.
    + intros i L m Hi Hm. destruct (B4 i L m Hi Hm) as (nd & Hnd & Hb). exists nd. split; [|done].
      rewrite HN, lookup_insert_ne; [done|]. intros <-. apply Hout, elem_of_mjoin. eauto.
  - intros m md. rewrite HN. intros [[<- <-]|[_ Hm]]%lookup_insert_Some; [simpl; lia|by eapply Hfew].
  - constructor; [|done|done]. unfold entry. by rewrite Hnew.
  - constructor.
    + intros m e _ Hm. unfold entry in *. rewrite HN, lookup_insert_ne; [done|]. intros <-. by rewrite Hnone in Hm.
    + intros b c _. by rewrite HL.
    + intros l _ _. by rewrite HP.
Qed.

Lemma insert_spec ext s M Ls k v :
  Repr ext s M Ls -> few s -> Z.of_nat (length Ls) < 2 ^ 62 -> size_ s < 2 ^ 64 - 1 ->
  exists s' Ls', insert HashFn ShardBits (HashFn k) k v s = Some (true, s') /\ Repr ext s' (<[k := v]> M) Ls'.
Proof.
  intros H Hfew Hlen Hsz. unfold insert. destruct (new_node k v s) as [n s1] eqn:Hn.
  destruct (new_node_repr ext s M Ls k v n s1 H Hfew Hn) as (H1 & Hfew1 & HF1 & Hsz1 & -> & _). simpl.
  destruct (insert_internal_spec ext s1 M Ls k v n H1 Hfew1 HF1 Hlen ltac:(lia)) as (s' & Ls' & -> & H').
  by exists s', Ls'.
Qed.

Lemma remove_func s s' M Ls k v0 L1 n L2 i :
  Func s M Ls -> Ls !! i = Some (L1 ++ n :: L2) ->
  entry s n = Some (k, v0) ->
  lists s' = lists s -> bucket_list_ s' = bucket_list_ s -> size_ s' = size_ s - 1 ->
  (forall m, entry s' m = entry s m) ->
  ptrs s' !! last_loc (Slot (bucket_list_ s) i) L1 = ptrs s !! Next n ->
  (forall l, l <> last_loc (Slot (bucket_list_ s) i) L1 -> ptrs s' !! l = ptrs s !! l) ->
  Func s' (delete k M) (<[i := L1 ++ L2]> Ls).
Proof.
  intros H HL Hent E1 E2 E3 Hents Hp1 Hp3.
  pose proof H as [Hlist Hpos HB Hkeys HM Hsz].
  destruct (mjoin_update Ls i _ HL) as (R & HR & HR').
  set (rest := L1 ++ L2 ++ R).
  assert (HR1 : mjoin Ls ≡ₚ n :: rest) by (rewrite HR; unfold rest; solve_Permutation).
  assert (HR2 : mjoin (<[i := L1 ++ L2]> Ls) ≡ₚ rest)
    by (rewrite HR'; unfold rest; solve_Permutation).
  pose proof (bk_nodup _ _ _ _ HB) as Hnd. rewrite HR1 in Hnd. apply NoDup_cons in Hnd as [Hn Hnd].
  assert (Ee1 : entries s Ls ≡ₚ (k, v0) :: omap (entry s) rest).
  { unfold entries. rewrite HR1. csimpl. by rewrite Hent. }
  assert (Ee2 : entries s' (<[i := L1 ++ L2]> Ls) ≡ₚ omap (entry s) rest).
  { rewrite (entries_ext s s') by (intros; apply Hents). unfold entries. by rewrite HR2. }
  assert (Hk : NoDup (((k, v0) :: omap (entry s) rest).*1)) by (by rewrite Ee1 in Hkeys).
  csimpl in Hk. apply NoDup_cons in Hk as [Hk1 Hk2].
  constructor; rewrite ?E1, ?E2, ?E3, ?length_insert; try done.
  - apply (splice_buckets s s' _ _ Ls i L1 (n :: L2) L2); try done.
    + intros l Hne _. by apply Hp3.
    + apply (bk_chain _ _ _ _ HB) in HL as Hc. apply chain_tail in Hc as [_ Hc].
      apply (chain_move (ptrs s) _ (Next n)); [done|done|]. intros m Hm. apply Hp3.
      intros E. destruct (last_loc_case (bucket_list_ s) i L1) as [E'|(m' & Hm' & E')]; rewrite E' in E; [done|].
      injection E as ->. unfold rest in Hnd. rewrite NoDup_app in Hnd. destruct Hnd as (_ & Hd & _).
      apply (Hd m' Hm'). set_solver.
    + intros m Hm. left. set_solver.
    + by rewrite HR2.
  - by rewrite Ee2.
  - rewrite HM. rewrite (list_to_map_proper (entries s Ls) _ Hkeys Ee1).
    rewrite (list_to_map_proper (entries s' _) (omap (entry s) rest)); [|by rewrite Ee2|done].
    simpl. rewrite delete_insert_id; [done|]. by apply not_elem_of_list_to_map_1.
  - rewrite Hsz, HR1, HR2. simpl. lia.
Qed.

(** The chain of the bucket of [k] finds the map's value. *)
Lemma bucket_value s M Ls k L :
  Func s M Ls -> Ls !! in_bucket k (Z.of_nat (length Ls)) = Some L -> first_value s k L = M !! k.
Proof.
  intros [Hlist Hpos HB Hkeys HM Hsz] HL.
  assert (Hfv : forall L', (forall n, n ∈ L' -> n ∈ L) ->
    match first_value s k L' with
    | Some v => exists n, n ∈ L' /\ entry s n = Some (k, v)
    | None => forall n v, n ∈ L' -> entry s n <> Some (k, v)
    end).
  { induction L' as [|n L' IH]; intros Hin; simpl; [by intros n v ?%elem_of_nil|].
    assert (IH' := IH (fun m Hm => Hin m (list_elem_of_further _ _ _ Hm))).
    assert (Hskip : (forall v, entry s n <> Some (k, v)) ->
      match first_value s k L' with
      | Some v => exists m, m ∈ n :: L' /\ entry s m = Some (k, v)
      | None => forall m v, m ∈ n :: L' -> entry s m <> Some (k, v)
      end).
    { intros Hn. destruct (first_value s k L').
      - destruct IH' as (m & ? & ?). exists m. split; [by right|done].
      - intros m v [->|Hm]%elem_of_cons; [done|by apply IH']. }
    destruct (entry s n) as [[k' v]|] eqn:En; [|by apply Hskip].
    case_decide as Hk; [subst k'; exists n; split; [by left|done]|]. apply Hskip. congruence. }
  specialize (Hfv L (fun _ H => H)). rewrite HM. destruct (first_value s k L) as [v|].
  - destruct Hfv as (n & Hn & He). symmetry. apply elem_of_list_to_map_1; [done|].
    apply elem_of_entries. exists n. split; [apply elem_of_mjoin; eauto|done].
  - symmetry. apply not_elem_of_list_to_map_1. intros (n & v & Hn & He)%key_in_entries.
    apply elem_of_mjoin in Hn as (j & L' & Hj & Hn). pose proof He as (nd & Hnd & Hkn & _)%entry_node.
    destruct (bk_node _ _ _ _ HB j L' n Hj Hn) as (nd' & Hnd' & Hb). rewrite Hnd in Hnd'. injection Hnd' as <-.
    rewrite Hkn in Hb. rewrite Hb in HL. rewrite Hj in HL. injection HL as ->. by eapply Hfv.
Qed.

Lemma erase_locked_spec ext s M Ls k :
  Repr ext s M Ls -> few s -> Z.of_nat (length Ls) < 2 ^ 62 -> size_ s < 2 ^ 64 ->
  exists node s' Ls', erase_locked ShardBits (HashFn k) k s = Some (node, s') /\
    Repr (opt_list node ++ ext) s' (delete k M) Ls' /\ Evolves all_kept s s' (delete k M).
Proof.
  intros H Hfew Hlen Hsz64. pose proof H as [HO HF]. unfold erase_locked. rewrite (rp_list _ _ _ HF).
  destruct (lookup_spec s M Ls k HF ltac:(lia)) as (-> & L & HL & [(-> & HMk & Hk)|Hfound]).
  - exists None, s, Ls. rewrite delete_id by done. split_and!; [done..|].
    by eapply frozen_evolves; [constructor|exact HO|].
  - destruct Hfound as (L1 & n & L2 & v0 & -> & Hent & HMk & ->).
    set (i := in_bucket k (Z.of_nat (length Ls))) in *.
    set (prev := last_loc (Slot (bucket_list_ s) i) L1).
    pose proof (bk_chain _ _ _ _ (rp_buckets _ _ _ HF) _ _ HL) as Hch.
    destruct (chain_next _ _ _ _ _ Hch) as [Hnn Hpn].
    assert (Hsz : 1 <= size_ s).
    { rewrite (size_of_map _ _ _ HF). assert (size M <> 0%nat); [|lia].
      intros E. apply map_size_empty_inv in E as ->. done. }
    set (s1 := set_size (u64 (size_ s - 1)) s).
    assert (HO1 : Own ext s1) by (by destruct HO).
    destruct (acquire_opt_spec ext s1 (load (Next n) s1) HO1) as (s2 & -> & HO2 & S2); [|done|].
    { intros m Hm. unfold holders. apply elem_of_app. left. apply elem_of_vals. by exists (Next n). }
    change (load (Next n) s1) with (load (Next n) s) in *. set (nx := load (Next n) s) in *.
    set (s3 := store prev nx s2).
    assert (HO3 : Own (n :: ext) s3).
    { apply (Own_store (opt_list nx ++ ext)); [done| |].
      - unfold load. rewrite (sm_ptrs _ _ S2). change (ptrs s1) with (ptrs s).
        unfold prev. rewrite Hpn. simpl. solve_Permutation.
      - intros _. pose proof (loc_ok_last s M Ls i L1 _ HF HL) as Hok. fold prev in Hok.
        destruct prev as [[b j]|m]; simpl in *; [by rewrite (sm_lists _ _ S2)|].
        destruct Hok as [md Hmd]. pose proof (sm_entry _ _ S2 m) as E. unfold entry in E. simpl in E.
        rewrite Hmd in E. apply fmap_Some in E as (? & ? & _). by eexists. }
    assert (Hptr : forall l, ptrs s3 !! l = if decide (l = prev) then nx else ptrs s !! l).
    { intros l. change (ptrs s3 !! l) with (load l s3). unfold s3.
      rewrite load_store. unfold load. by rewrite (sm_ptrs _ _ S2). }
    assert (Hag : forall l, l <> prev -> ptrs s3 !! l = ptrs s !! l) by (intros l Hl; rewrite Hptr; by rewrite decide_False).
    assert (HF' : Func s3 (delete k M) (<[i := L1 ++ L2]> Ls)).
    { apply (remove_func s s3 M Ls k v0 L1 n L2 i); try done; try apply S2.
      - change (size_ s3) with (size_ s2). rewrite (sm_size _ _ S2). simpl. apply u64_small. lia.
      - rewrite Hptr. by rewrite decide_True. }
    exists (Some n), s3, (<[i := L1 ++ L2]> Ls). split; [done|]. split; [by split|].
    assert (Hlt : (i < length Ls)%nat) by by eapply lookup_lt_Some.
    pose proof (list_lookup_insert_eq Ls i (L1 ++ L2) Hlt) as HL'.
    pose proof (bk_chain _ _ _ _ (rp_buckets _ _ _ HF') _ _ HL') as Hch'.
    replace (bucket_list_ s3) with (bucket_list_ s) in Hch' by (symmetry; apply S2).
    eapply (redirect_evolves ext s s s3 _ _ L1 (n :: L2) L2 (next_id s) HO); [| |exact Hch| |by apply chain_tail|apply S2|apply S2|].
    + by constructor.
    + apply eq_None_not_Some. intros Hn%(own_fresh_node _ _ HO). lia.
    + intros l Hl _. by apply Hag.
    + intros q. cbn [first_value]. rewrite Hent.
      assert (E : forall T, first_value s3 q T = first_value s q T)
        by (intros T; apply first_value_agree; intros; apply S2).
      rewrite E. case_decide as Hq; [|by left]. right. subst q. rewrite lookup_delete_eq.
      assert (Hb : first_value s3 k (L1 ++ L2) = None).
      { rewrite (bucket_value s3 (delete k M) (<[i := L1 ++ L2]> Ls) k _ HF'); [apply lookup_delete_eq|].
        by rewrite length_insert. }
      rewrite E, first_value_app in Hb. by destruct (first_value s k L1).
Qed.

Lemma erase_spec ext s M Ls k :
  Repr ext s M Ls -> few s -> Z.of_nat (length Ls) < 2 ^ 62 -> size_ s < 2 ^ 64 ->
  exists s' Ls', erase ShardBits (HashFn k) k s = Some s' /\ Repr ext s' (delete k M) Ls'.
Proof.
  intros H Hfew Hlen Hsz. unfold erase.
  destruct (erase_locked_spec ext s M Ls k H Hfew Hlen Hsz) as (node & s1 & Ls' & -> & [HO1 HF1] & _).
  cbn [fst snd]. destruct (release_opt_spec ext s1 node HO1) as (s' & -> & HO' & S').
  exists s', Ls'. split; [done|]. split; [done|]. by eapply Func_same.
Qed.

Lemma find_spec s M Ls k :
  Func s M Ls -> Z.of_nat (length Ls) <= 2 ^ 64 ->
  match M !! k with
  | Some v => exists it, find ShardBits (HashFn k) k s = Some (Some it) /\ deref it s = Some v
  | None => find ShardBits (HashFn k) k s = Some None
  end.
Proof.
  intros HF Hlen. unfold find. rewrite (rp_list _ _ _ HF).
  destruct (lookup_spec s M Ls k HF Hlen) as (-> & L & HL & [(-> & -> & Hk)|Hfound]); [done|].
  destruct Hfound as (L1 & n & L2 & v0 & -> & Hent & -> & ->).
  eexists. split; [done|]. unfold deref. simpl. apply entry_node in Hent as (nd & -> & _ & ->). done.
Qed.

Lemma clear_spec ext s M Ls :
  Repr ext s M Ls -> exists s' Ls', clear s = Some s' /\ Repr ext s' ∅ Ls' /\ length Ls' = length Ls /\
    Frozen all_kept s s'.
Proof.
  intros [HO [Hlist Hpos HB Hkeys HM Hsz]]. unfold clear, clear_prepare. rewrite Hlist.
  destruct (new_bucket_list (Z.of_nat (length Ls)) s) as [nb s2] eqn:Hnb.
  destruct (new_bucket_list_spec ext s _ nb s2 HO Hnb)
    as (HO2 & Hb & HL2 & HL1 & HN2 & HP2 & HB2 & HS2 & HR2 & Hnull).
  assert (Hne : nb <> bucket_list_ s) by (intros ->; by rewrite HL1 in Hlist).
  exists (retire (OBucketList (bucket_list_ s)) (set_size 0 (set_bucket_list nb s2))),
    (replicate (length Ls) []).
  split; [done|]. split; [|split; [by rewrite length_replicate|constructor]]. 1: split.
  - assert (Own ext (retire (OBucketList (bucket_list_ s)) (set_bucket_list nb s2))) as [].
    { apply Own_retire_list; [done|done| |done|].
      - rewrite HL2, lookup_insert_ne by done. by rewrite Hlist.
      - rewrite HR2. intros Hin. apply (own_retired_list _ _ HO) in Hin as [Hin _].
        rewrite HL1 in Hin. by destruct Hin. }
    by constructor.
  - constructor; simpl; rewrite ?length_replicate.
    + rewrite HL2. by rewrite lookup_insert_eq.
    + done.
    + apply empty_buckets; [by rewrite Nat2Z.id|lia|]. intros i. simpl. by rewrite HP2.
    + unfold entries. rewrite mjoin_replicate_nil. constructor.
    + unfold entries. by rewrite mjoin_replicate_nil.
    + by rewrite mjoin_replicate_nil.
  - intros n e _. unfold entry. simpl. by rewrite HN2.
  - intros b c _ Hbc. simpl. rewrite HL2, lookup_insert_ne; [done|]. intros <-. congruence.
  - intros l _ _. simpl. by rewrite HP2.
Qed.

Lemma set_load_factor_spec ext s M Ls lf :
  Repr ext s M Ls -> exists s', set_load_factor lf s = Some s' /\ Repr ext s' M Ls /\ Frozen all_kept s s'.
Proof.
  intros [[O1 O2 O3 O4 O5 O6 O7 O8 O9] [F1 F2 [B1 B2 B3 B4] F4 F5 F6]]. unfold set_load_factor. rewrite F1.
  eexists. split; [done|]. split; [|by constructor]. split; [by constructor|]. by constructor.
Qed.

Lemma ctor_spec c lf :
  0 <= c <= 2 ^ 61 -> exists s Ls, ConcurrentHashMapSegment (K := K) (V := V) c lf = Some s /\
    Repr [] s ∅ Ls /\ few s /\ Z.of_nat (length Ls) <= 2 ^ 61.
Proof.
  intros Hc. assert (exists b, nextPowTwo c = Some (2 ^ b) /\ 0 <= b <= 61) as (b & Hb & Hb61).
  { destruct (decide (c = 0)) as [->|]; [by exists 0|]. exists (Z.log2_up c).
    rewrite nextPowTwo_log2_up by lia. split; [done|]. split; [apply Z.log2_up_nonneg|].
    apply Z.log2_up_le_pow2; lia. }
  unfold ConcurrentHashMapSegment. rewrite Hb. simpl. unfold set_load_factor. simpl.
  rewrite lookup_insert_eq. eexists _, (replicate (Z.to_nat (2 ^ b)) []).
  assert (0 < 2 ^ b) by (apply Z.pow_pos_nonneg; lia).
  assert (2 ^ b <= 2 ^ 61) by (apply Z.pow_le_mono_r; lia).
  split; [done|]. rewrite length_replicate. split_and!; [| |lia].
  - split.
    + constructor; simpl; try done.
      * unfold holders, vals. simpl. rewrite map_to_list_empty. by intros n ?%elem_of_nil.
      * by intros n [? ?].
      * by intros n ?%elem_of_nil.
      * by intros n ?%elem_of_nil.
      * constructor.
      * by intros n [? ?].
      * intros b' [<-|[_ Hb']]%lookup_insert_is_Some; [lia|]. by destruct Hb'.
    + constructor; simpl; rewrite ?length_replicate.
      * rewrite lookup_insert_eq. f_equal. lia.
      * lia.
      * apply empty_buckets; [f_equal; lia|lia|done].
      * unfold entries. rewrite mjoin_replicate_nil. constructor.
      * unfold entries. by rewrite mjoin_replicate_nil.
      * by rewrite mjoin_replicate_nil.
  - by intros n nd.
Qed.

(** * Reclamation *)

Lemma Own_unretire ext s i o :
  Own ext s -> retired s !! i = Some o ->
  NoDup (delete i (retired s)) /\ (forall o', o' ∈ delete i (retired s) <-> o' ∈ retired s /\ o' <> o).
Proof.
  intros H Hi. pose proof (own_nodup _ _ H) as Hnd.
  rewrite (delete_Permutation _ _ _ Hi) in Hnd. apply NoDup_cons in Hnd as [Ho Hnd].
  split; [done|]. intros o'.
  assert (o' ∈ retired s <-> o' ∈ o :: delete i (retired s)) as ->
    by (by rewrite <-(delete_Permutation _ _ _ Hi)).
  rewrite elem_of_cons.
  split; [|naive_solver]. intros Hin. split; [by right|]. intros ->. done.
Qed.

Lemma Repr_unchanged ext s s' M Ls :
  Func s M Ls -> Own ext s' -> lists s' !! bucket_list_ s = lists s !! bucket_list_ s ->
  bucket_list_ s' = bucket_list_ s -> size_ s' = size_ s ->
  (forall n, n ∈ mjoin Ls -> entry s' n = entry s n) ->
  (forall n, n ∈ mjoin Ls -> ptrs s' !! Next n = ptrs s !! Next n) ->
  (forall i, ptrs s' !! Slot (bucket_list_ s) i = ptrs s !! Slot (bucket_list_ s) i) ->
  Repr ext s' M Ls.
Proof.
  intros [F1 F2 [B1 B2 B3 B4] F4 F5 F6] HO E1 E2 E3 E4 E5 E6. split; [done|].
  constructor; rewrite ?E2, ?E1, ?E3, ?(entries_ext s s' Ls E4); try done.
  constructor; try done.
  - intros i L Hi. apply (chain_move (ptrs s) _ (Slot (bucket_list_ s) i)); [by apply B2|done|].
    intros n Hn. apply E5, elem_of_mjoin. eauto.
  - intros i L n Hi Hn. destruct (B4 i L n Hi Hn) as (nd & Hnd & Hb).
    assert (entry s' n = Some (key nd, value nd)) as He.
    { rewrite E4; [unfold entry; by rewrite Hnd|]. apply elem_of_mjoin. eauto. }
    apply entry_node in He as (nd' & ? & Hk & _). exists nd'. by rewrite Hk.
Qed.

Lemma chain_node_held s M Ls n : Func s M Ls -> n ∈ mjoin Ls -> n ∈ vals (ptrs s).
Proof.
  intros HF (i & L & Hi & Hn)%elem_of_mjoin.
  eapply chain_refs; [apply (bk_chain _ _ _ _ (rp_buckets _ _ _ HF) i L Hi)|done].
Qed.

(** Deleting a retired node leaves its successor's reference to the caller. *)
Lemma Own_delete_node ext s i n nd :
  Own ext s -> retired s !! i = Some (ONode n) -> nodes s !! n = Some nd ->
  Own (opt_list (load (Next n) s) ++ ext)
    (set_nodes (delete n (nodes s)) (store (Next n) None (set_retired (delete i (retired s)) s))).
Proof.
  intros HO Hi Hn. pose proof HO as [H1 H2 H3 H4 H5 H6 H7 H8 H9].
  destruct (Own_unretire ext s i _ HO Hi) as [Hnd Hdel].
  assert (Hret : ONode n ∈ retired s) by by eapply list_elem_of_lookup_2.
  assert (Hout' : n ∉ holders s ext) by (by apply H4; [exists nd|]).
  set (nx := load (Next n) s). set (s2 := set_nodes _ _).
  assert (Hhold : holders s2 (opt_list nx ++ ext) ≡ₚ holders s ext).
  { unfold holders, s2. simpl. destruct (vals_store (ptrs s) (Next n) None) as [E1 E2].
    rewrite E2, E1. simpl. unfold nx, load. rewrite <-!app_assoc. solve_Permutation. }
  assert (Hnot : n ∉ holders s2 (opt_list nx ++ ext)) by (by rewrite Hhold).
  assert (Hdom : forall m, m <> n -> nodes s2 !! m = nodes s !! m).
  { intros m Hm. unfold s2. simpl. by rewrite lookup_delete_ne. }
  constructor.
  - intros m Hm. assert (m <> n) by (intros ->; done). rewrite Hdom by done. apply H1. by rewrite <-Hhold.
  - intros l m Hl. unfold s2 in Hl. simpl in Hl. apply lookup_delete_Some in Hl as [Hl' Hl].
    specialize (H2 l m Hl). destruct l as [b|m']; simpl in *; [done|].
    rewrite lookup_delete_ne; [done|]. intros ->. done.
  - intros m md Hm. rewrite (count_perm _ _ _ Hhold). apply H3.
    unfold s2 in Hm. simpl in Hm. by apply lookup_delete_Some in Hm as [_ ?].
  - intros m Hm. assert (m <> n) as Hmn by (intros ->; unfold s2 in Hm; simpl in Hm;
      rewrite lookup_delete_eq in Hm; by destruct Hm).
    rewrite Hdom in Hm by done. rewrite Hhold. change (retired s2) with (delete i (retired s)).
    rewrite Hdel. rewrite H4 by done. naive_solver.
  - intros m. change (retired s2) with (delete i (retired s)). rewrite Hdel. intros [Hm Hne].
    rewrite Hdom by congruence. by apply H5.
  - intros b. change (retired s2) with (delete i (retired s)). rewrite Hdel. intros [Hb _]. by apply H6.
  - done.
  - intros m Hm. apply H8. unfold s2 in Hm. simpl in Hm. destruct Hm as [md Hm].
    apply lookup_delete_Some in Hm as [_ ?]. by exists md.
  - done.
Qed.

Lemma reclaim_node_spec ext s M Ls i n :
  Repr ext s M Ls -> retired s !! i = Some (ONode n) ->
  exists s', reclaim i s = Some s' /\ Repr ext s' M Ls /\ Frozen (fun o => o <> ONode n) s s'.
Proof.
  intros [HO HF] Hi. unfold reclaim. rewrite Hi. unfold delete_node. simpl.
  pose proof HO as [H1 H2 H3 H4 H5 H6 H7 H8 H9].
  destruct (Own_unretire ext s i _ HO Hi) as [Hnd Hdel].
  assert (Hret : ONode n ∈ retired s) by by eapply list_elem_of_lookup_2.
  destruct (H5 n Hret) as [nd Hn]. rewrite Hn.
  assert (Hout' : n ∉ holders s ext) by (by apply H4; [exists nd|]).
  assert (Hout : n ∉ vals (ptrs s)) by (unfold holders in Hout'; set_solver).
  change (load (Next n) (set_retired (delete i (retired s)) s)) with (load (Next n) s).
  pose proof (Own_delete_node ext s i n nd HO Hi Hn) as HO2.
  set (nx := load (Next n) s) in *.
  set (s2 := set_nodes (delete n (nodes s)) (store (Next n) None (set_retired (delete i (retired s)) s))) in *.
  assert (Hdom : forall m, m <> n -> nodes s2 !! m = nodes s !! m).
  { intros m Hm. unfold s2. simpl. by rewrite lookup_delete_ne. }
  destruct (release_opt_spec ext s2 nx HO2) as (s' & Hs' & HO' & S').
  exists s'. split; [exact Hs'|].
  assert (Hent : forall m, m <> n -> entry s' m = entry s m).
  { intros m Hm. rewrite (sm_entry _ _ S'). unfold entry. by rewrite Hdom. }
  assert (Hptr : forall l, l <> Next n -> ptrs s' !! l = ptrs s !! l).
  { intros l Hl. rewrite (sm_ptrs _ _ S'). unfold s2. simpl. by rewrite lookup_delete_ne. }
  split; [|constructor].
  2: { intros m e Hm. rewrite Hent; [done|]. congruence. }
  2: { intros b c _. by rewrite (sm_lists _ _ S'). }
  2: { intros l Hl _. apply Hptr. intros ->. by apply Hl. }
  assert (Hne : forall m, m ∈ mjoin Ls -> m <> n).
  { intros m Hm ->. apply Hout. by eapply chain_node_held. }
  apply (Repr_unchanged ext s); [done|done|by rewrite (sm_lists _ _ S')|by rewrite (sm_cur _ _ S')|
    by rewrite (sm_size _ _ S')|..].
  - intros m Hm. by apply Hent, Hne.
  - intros m Hm. apply Hptr. intros [= ->]. by apply (Hne n).
  - intros j. by apply Hptr.
Qed.

Lemma release_slots_spec ext M Ls b c js : forall s,
  Repr ext s M Ls -> b <> bucket_list_ s -> lists s !! b = Some c -> OBucketList b ∉ retired s ->
  exists s', release_slots b js s = Some s' /\ Repr ext s' M Ls /\ lists s' = lists s /\
    bucket_list_ s' = bucket_list_ s /\ (OBucketList b ∉ retired s') /\
    (forall i n, ptrs s' !! Slot b i = Some n -> (i ∉ js) /\ is_Some (ptrs s !! Slot b i)) /\
    (forall m, entry s' m = entry s m) /\
    (forall l, owner l <> OBucketList b -> ptrs s' !! l = ptrs s !! l).
Proof.
  induction js as [|j js IH]; intros s [HO HF] Hb Hl Hret; simpl.
  { exists s. split_and!; try done. intros i n Hi. split; [apply not_elem_of_nil|by exists n]. }
  set (h := load (Slot b j) s).
  assert (HO1 : Own (opt_list h ++ ext) (store (Slot b j) None s))
    by (apply (Own_store ext); [done|done|by intros [? ?]]).
  destruct (release_opt_spec ext _ h HO1) as (s1 & -> & HO2 & S1).
  assert (Hp : forall l, l <> Slot b j -> ptrs s1 !! l = ptrs s !! l).
  { intros l Hne. rewrite (sm_ptrs _ _ S1). simpl. by rewrite lookup_delete_ne. }
  assert (HR : Repr ext s1 M Ls).
  { apply (Repr_unchanged ext s); [done|done|by rewrite (sm_lists _ _ S1)|by rewrite (sm_cur _ _ S1)|
      by rewrite (sm_size _ _ S1)|..].
    - intros n _. by rewrite (sm_entry _ _ S1).
    - intros n _. by apply Hp.
    - intros i. apply Hp. by intros [= E _]. }
  destruct (IH s1 HR) as (s' & -> & HR' & E1 & E2 & E3 & E4 & E5 & E6).
  - by rewrite (sm_cur _ _ S1).
  - by rewrite (sm_lists _ _ S1).
  - by rewrite (sm_retired _ _ S1).
  - exists s'. split_and!; [done|done|by rewrite E1, (sm_lists _ _ S1)|by rewrite E2, (sm_cur _ _ S1)|done|..].
    + intros i n Hi. destruct (E4 i n Hi) as [Hjs [m Hm]].
      destruct (decide (i = j)) as [->|Hne].
      * rewrite (sm_ptrs _ _ S1) in Hm. simpl in Hm. by rewrite lookup_delete_eq in Hm.
      * split; [set_solver|]. rewrite Hp in Hm by (by intros [= ->]). by exists m.
    + intros m. rewrite E5. by rewrite (sm_entry _ _ S1).
    + intros l Hlo. rewrite E6 by done. apply Hp. intros ->. by apply Hlo.
Qed.

Lemma reclaim_list_spec ext s M Ls i b :
  Repr ext s M Ls -> retired s !! i = Some (OBucketList b) ->
  exists s', reclaim i s = Some s' /\ Repr ext s' M Ls /\ Frozen (fun o => o <> OBucketList b) s s'.
Proof.
  intros [HO HF] Hi. unfold reclaim. rewrite Hi. unfold delete_bucket_list. simpl.
  destruct (Own_unretire ext s i _ HO Hi) as [Hnd Hdel].
  assert (Hret : OBucketList b ∈ retired s) by by eapply list_elem_of_lookup_2.
  pose proof HO as [H1 H2 H3 H4 H5 H6 H7 H8 H9].
  destruct (H6 b Hret) as [[c Hc] Hcur]. rewrite Hc.
  set (s1 := set_retired (delete i (retired s)) s).
  assert (HR1 : Repr ext s1 M Ls).
  { apply (Repr_unchanged ext s); try done. constructor; try done.
    - intros n Hn. change (retired s1) with (delete i (retired s)).
      change (holders s1 ext) with (holders s ext). rewrite Hdel, H4 by done. naive_solver.
    - intros n. change (retired s1) with (delete i (retired s)). rewrite Hdel. intros [? _]. by apply H5.
    - intros b'. change (retired s1) with (delete i (retired s)). rewrite Hdel. intros [? _]. by apply H6. }
  destruct (release_slots_spec ext M Ls b c (seq 0 (Z.to_nat c)) s1 HR1 Hcur Hc)
    as (s2 & -> & [HO2 HF2] & E1 & E2 & E3 & E4 & E5 & E6).
  { change (retired s1) with (delete i (retired s)). rewrite Hdel. naive_solver. }
  exists (set_lists (delete b (lists s2)) s2). split; [done|].
  assert (Hcur2 : b <> bucket_list_ s2) by (by rewrite E2).
  split; [|constructor].
  2: { intros n e _. change (entry (set_lists (delete b (lists s2)) s2) n) with (entry s2 n). by rewrite E5. }
  2: { intros b' c' Hb' Hc'. simpl. rewrite E1, lookup_delete_ne; [done|]. intros <-. by apply Hb'. }
  2: { intros l Hl _. simpl. by rewrite E6. }
  apply (Repr_unchanged ext s2); try done.
  - destruct HO2 as [G1 G2 G3 G4 G5 G6 G7 G8 G9]. constructor; try done.
    + intros l n Hl. pose proof (G2 l n Hl) as Hok. destruct l as [[b' j]|m]; simpl in *; [|done].
      destruct Hok as (c' & Hc' & Hj). exists c'. split; [|done].
      rewrite lookup_delete_ne; [done|]. intros <-.
      rewrite E1 in Hc'. simpl in Hc'. rewrite Hc in Hc'. injection Hc' as <-.
      destruct (E4 j n Hl) as [Hjs _]. apply Hjs, elem_of_seq. lia.
    + intros b' Hb'. simpl in *. destruct (G6 b' Hb') as [? ?]. split; [|done].
      rewrite lookup_delete_ne; [done|]. intros <-. done.
    + intros b' [c' Hb']. simpl in Hb'. apply lookup_delete_Some in Hb' as [_ Hb']. apply G9. by exists c'.
  - simpl. by rewrite lookup_delete_ne.
Qed.

Lemma reclaim_spec ext s M Ls i o :
  Repr ext s M Ls -> retired s !! i = Some o ->
  exists s', reclaim i s = Some s' /\ Repr ext s' M Ls /\ Frozen (fun o' => o' <> o) s s'.
Proof.
  intros H Hi. destruct o as [n|b]; [by eapply reclaim_node_spec|by eapply reclaim_list_spec].
Qed.

(** * Iteration *)

(** The iterator stands on the first of the remaining nodes [R]. *)
Definition At s Ls (it : Iterator) (R : list nat) : Prop :=
  match R with
  | [] => node_ it = None
  | n :: R => exists j L1 L2, node_ it = Some n /\ it_list it = bucket_list_ s /\
      it_bucket it = Z.of_nat j /\ Ls !! j = Some (L1 ++ n :: L2) /\
      R = L2 ++ mjoin (drop (S j) Ls)
  end.

Lemma advance_spec s M Ls j L1 T : Func s M Ls -> forall fuel p,
  Ls !! j = Some (L1 ++ T) -> p = head T -> (length Ls <= j + fuel)%nat ->
  exists it, advanceBucketIfAtEnd fuel (mkIterator p (bucket_list_ s) (Z.of_nat j)) s = Some it /\
    At s Ls it (T ++ mjoin (drop (S j) Ls)).
Proof.
  intros HF fuel. revert j L1 T. induction fuel as [|fuel IH]; intros j L1 T p HL -> Hf.
  - apply lookup_lt_Some in HL. lia.
  - destruct T as [|n T]; simpl.
    + pose proof (rp_list _ _ _ HF) as Hlist. simpl in *. rewrite Hlist.
      destruct (Z.leb_spec (Z.of_nat (length Ls)) (Z.of_nat j + 1)) as [Hle|Hlt].
      * eexists. split; [done|]. rewrite drop_ge by lia. done.
      * rewrite (get_atomic_head_spec _ _ _ _ Hlist) by lia.
        replace (Z.to_nat (Z.of_nat j + 1)) with (S j) by lia.
        replace (Z.of_nat j + 1) with (Z.of_nat (S j)) by lia.
        destruct (lookup_lt_is_Some_2 Ls (S j)) as [L HLj]; [lia|].
        rewrite (drop_S Ls L (S j) HLj). apply (IH (S j) [] L); [done| |lia].
        pose proof (bk_chain _ _ _ _ (rp_buckets _ _ _ HF) _ _ HLj) as Hc.
        unfold load. destruct L; simpl in Hc |- *; [done|by destruct Hc].
    + eexists. split; [done|]. exists j, L1, T. done.
Qed.

Lemma iter_next_spec s M Ls it n R :
  Func s M Ls -> At s Ls it (n :: R) ->
  exists it', iter_next it s = Some it' /\ At s Ls it' R.
Proof.
  intros HF (j & L1 & L2 & Hn & Hl & Hb & HL & ->). unfold iter_next.
  rewrite Hn, Hl, Hb, (rp_list _ _ _ HF).
  pose proof (bk_chain _ _ _ _ (rp_buckets _ _ _ HF) _ _ HL) as Hc.
  destruct (chain_next _ _ _ _ _ Hc) as [Hnext _].
  apply (advance_spec s M Ls j (L1 ++ [n]) L2 HF); [by rewrite <-app_assoc|done|lia].
Qed.

Lemma cbegin_spec s M Ls : Func s M Ls -> exists it, cbegin s = Some it /\ At s Ls it (mjoin Ls).
Proof.
  intros HF. unfold cbegin. pose proof (rp_list _ _ _ HF) as Hlist. pose proof (rp_pos _ _ _ HF) as Hpos.
  rewrite Hlist. rewrite (get_atomic_head_spec _ _ _ _ Hlist) by lia.
  destruct (lookup_lt_is_Some_2 Ls 0) as [L HL]; [lia|].
  assert (Hm : mjoin Ls = L ++ mjoin (drop 1 Ls)).
  { destruct Ls as [|L' Ls]; [done|]. simpl in HL. injection HL as ->. simpl. by rewrite drop_0. }
  rewrite Hm. apply (advance_spec s M Ls 0 [] L HF); [done| |lia].
  pose proof (bk_chain _ _ _ _ (rp_buckets _ _ _ HF) _ _ HL) as Hc.
  unfold load. change (Z.to_nat 0) with 0%nat. destruct L; simpl in Hc |- *; [done|by destruct Hc].
Qed.

Lemma segment_traverse_spec s M Ls R : forall fuel it,
  Func s M Ls -> At s Ls it R -> (forall n, n ∈ R -> is_Some (nodes s !! n)) -> (length R <= fuel)%nat ->
  traverse fuel it s = Some ((omap (entry s) R).*2).
Proof.
  induction R as [|n R IH]; intros fuel it HF Hat Hin Hf.
  - simpl in Hat. destruct fuel; simpl; unfold at_end; by rewrite Hat.
  - destruct fuel as [|fuel]; [simpl in Hf; lia|].
    destruct (iter_next_spec s M Ls it n R HF Hat) as (it' & Hnext & Hat').
    destruct Hat as (j & L1 & L2 & Hn & _). destruct (Hin n) as [nd Hnd]; [left|].
    simpl. unfold at_end. rewrite Hn. unfold deref. rewrite Hn, Hnd, Hnext. csimpl.
    rewrite (IH fuel it' HF Hat'); [|intros m Hm; apply Hin; by right|simpl in Hf; lia].
    unfold entry at 2. rewrite Hnd. done.
Qed.
End operations.
End proofs.

(** * A segment as a map *)

Section refinement.
Context {K V : Type} {EqK : EqDecision K} {CountableK : Countable K} (HashFn : K -> Z) (ShardBits : Z).

(** [SReclaim i] lets the hazard-pointer domain delete a retired object, at a
    moment of its own choice. *)
Inductive SegOp :=
  | SInsert (k : K) (v : V) | SErase (k : K) | SFind (k : K) | SSize | SClear
  | SRehash (n : Z) | SLoadFactor (lf : spec_float) | STraverse | SReclaim (i : nat).
Inductive SegRes := RUnit | RBool (b : bool) | RFind (v : option V) | RSize (n : Z) | RVals (vs : list V).

Open Scope wizard_scope.

Definition seg_step (o : SegOp) (s : Segment K V) : option (SegRes * Segment K V) :=
  match o with
  | SInsert k v => r <-? insert HashFn ShardBits (HashFn k) k v s; Some (RBool (fst r), snd r)
  | SErase k => s1 <-? erase ShardBits (HashFn k) k s; Some (RUnit, s1)
  | SFind k =>
      r <-? find ShardBits (HashFn k) k s;
      match r with
      | Some it => v <-? deref it s; Some (RFind (Some v), s)
      | None => Some (RFind None, s)
      end
  | SSize => Some (RSize (size_ s), s)
  | SClear => s1 <-? clear s; Some (RUnit, s1)
  | SRehash n => s1 <-? rehash HashFn ShardBits n s; Some (RUnit, s1)
  | SLoadFactor lf => s1 <-? set_load_factor lf s; Some (RUnit, s1)
  | STraverse =>
      it <-? cbegin s;
      vs <-? traverse (S (fuel_of s)) it s;
      Some (RVals vs, s)
  | SReclaim i =>
      if decide (i < length (retired s))%nat then s1 <-? reclaim i s; Some (RUnit, s1)
      else Some (RUnit, s)
  end.

Fixpoint seg_run (os : list SegOp) (s : Segment K V) : option (list SegRes) :=
  match os with
  | [] => Some []
  | o :: os => r <-? seg_step o s; rs <-? seg_run os (snd r); Some (fst r :: rs)
  end.
Close Scope wizard_scope.

(** The specification: a finite map. *)
Definition seg_spec (o : SegOp) (r : SegRes) (M M' : gmap K V) : Prop :=
  match o with
  | SInsert k v => r = RBool true /\ M' = <[k := v]> M
  | SErase k => r = RUnit /\ M' = delete k M
  | SFind k => r = RFind (M !! k) /\ M' = M
  | SSize => r = RSize (Z.of_nat (size M)) /\ M' = M
  | SClear => r = RUnit /\ M' = ∅
  | SRehash _ | SLoadFactor _ | SReclaim _ => r = RUnit /\ M' = M
  | STraverse => exists vs, r = RVals vs /\ vs ≡ₚ (map_to_list M).*2 /\ M' = M
  end.

Fixpoint conforms (os : list SegOp) (rs : list SegRes) (M : gmap K V) : Prop :=
  match os, rs with
  | [], [] => True
  | o :: os, r :: rs => exists M', seg_spec o r M M' /\ conforms os rs M'
  | _, _ => False
  end.

(** Sizes at which no machine integer overflows: reference counts below 2^16 - 1,
    fewer than 2^62 buckets, fewer than 2^64 - 1 elements. *)
Definition small (s : Segment K V) : bool :=
  forallb (fun p => refcount_ (snd p) <? 2 ^ 16 - 1) (map_to_list (nodes s)) &&
  match lists s !! bucket_list_ s with Some c => c <? 2 ^ 62 | None => false end &&
  (size_ s <? 2 ^ 64 - 1).

Fixpoint all_small (os : list SegOp) (s : Segment K V) : bool :=
  small s &&
  match os with
  | [] => true
  | o :: os => match seg_step o s with Some (_, s') => all_small os s' | None => true end
  end.

Definition op_ok (o : SegOp) : Prop := match o with SRehash n => 1 <= n <= 2 ^ 62 | _ => True end.

Lemma small_spec s M Ls :
  Func HashFn ShardBits s M Ls -> small s = true ->
  few s /\ Z.of_nat (length Ls) < 2 ^ 62 /\ size_ s < 2 ^ 64 - 1.
Proof.
  intros HF Hs. unfold small in Hs. rewrite (rp_list _ _ _ _ _ HF) in Hs. wz_bool.
  split_and!; [|done|done]. intros n nd Hn.
  rewrite forallb_forall in *. apply Z.ltb_lt. apply (H (n, nd)).
  by apply list_elem_of_In, elem_of_map_to_list.
Qed.

Lemma seg_step_spec s M Ls o :
  (forall k, 0 <= HashFn k) -> Repr HashFn ShardBits [] s M Ls -> small s = true -> op_ok o ->
  exists r s' M' Ls', seg_step o s = Some (r, s') /\ seg_spec o r M M' /\
    Repr HashFn ShardBits [] s' M' Ls'.
Proof.
  intros Hhash H Hsm Hok. pose proof H as [HO HF].
  destruct (small_spec s M Ls HF Hsm) as (Hfew & Hlen & Hsz).
  destruct o as [k v|k|k| | |n|lf| |i]; cbn [seg_step seg_spec].
  - destruct (insert_spec HashFn ShardBits Hhash [] s M Ls k v H Hfew Hlen Hsz) as (s' & Ls' & -> & H').
    by eexists _, s', _, Ls'.
  - destruct (erase_spec HashFn ShardBits Hhash [] s M Ls k H Hfew Hlen ltac:(lia)) as (s' & Ls' & -> & H').
    by eexists _, s', _, Ls'.
  - pose proof (find_spec HashFn ShardBits Hhash s M Ls k HF ltac:(lia)) as Hf.
    destruct (M !! k) as [v|].
    + destruct Hf as (it & -> & ->). by eexists _, s, _, Ls.
    + rewrite Hf. by eexists _, s, _, Ls.
  - eexists _, s, _, Ls. split_and!; [done| |done|done].
    by rewrite (size_of_map HashFn ShardBits s M Ls HF).
  - destruct (clear_spec HashFn ShardBits [] s M Ls H) as (s' & Ls' & -> & H' & _). by eexists _, s', _, Ls'.
  - destruct (rehash_spec HashFn ShardBits [] s M Ls n H) as (s' & Ls' & -> & H' & _); [simpl in Hok; lia|done|].
    by eexists _, s', _, Ls'.
  - destruct (set_load_factor_spec HashFn ShardBits [] s M Ls lf H) as (s' & -> & H' & _). by eexists _, s', _, Ls.
  - destruct (cbegin_spec HashFn ShardBits s M Ls HF) as (it & -> & Hat).
    rewrite (segment_traverse_spec HashFn ShardBits s M Ls (mjoin Ls) (S (fuel_of s)) it HF Hat).
    + eexists _, s, _, Ls. split_and!; [done| |done]. eexists. split_and!; [done| |done].
      change (omap (entry s) (mjoin Ls)) with (entries s Ls).
      rewrite (rp_map _ _ _ _ _ HF), map_to_list_to_map; [done|]. apply HF.
    + intros n (i & L & Hi & Hn)%elem_of_mjoin. by eapply (Repr_node HashFn ShardBits).
    + transitivity (fuel_of s); [|lia]. apply nodup_size; [apply (bk_nodup _ _ _ _ _ _ (rp_buckets _ _ _ _ _ HF))|].
      intros n (i & L & Hi & Hn)%elem_of_mjoin. by eapply (Repr_node HashFn ShardBits).
  - destruct (decide _) as [Hi|]; [|by eexists _, s, _, Ls].
    destruct (lookup_lt_is_Some_2 _ _ Hi) as [obj Hobj].
    destruct (reclaim_spec HashFn ShardBits Hhash [] s M Ls i obj H Hobj) as (s' & -> & H' & _). by eexists _, s', _, Ls.
Qed.

Lemma seg_run_spec os : forall s M Ls,
  (forall k, 0 <= HashFn k) -> Repr HashFn ShardBits [] s M Ls -> all_small os s = true -> Forall op_ok os ->
  exists rs, seg_run os s = Some rs /\ conforms os rs M.
Proof.
  induction os as [|o os IH]; intros s M Ls Hhash H Hall Hok; [by exists []|].
  cbn [all_small] in Hall. apply andb_true_iff in Hall as [Hsm Hall].
  apply Forall_cons in Hok as [Ho Hok].
  destruct (seg_step_spec s M Ls o Hhash H Hsm Ho) as (r & s' & M' & Ls' & Hst & Hsp & H').
  rewrite Hst in Hall. destruct (IH s' M' Ls' Hhash H' Hall Hok) as (rs & Hrs & Hc).
  exists (r :: rs). cbn [seg_run]. rewrite Hst. cbn [fst snd]. rewrite Hrs. split; [done|].
  by exists M'.
Qed.
End refinement.

(** * Properties *)


(** Two keys in one bucket, a replacement, a removal, a rehash and all the
    deletions that follow. *)
Definition demo_ops : list (SegOp (K := Z) (V := Z)) :=
  [SInsert 1 10; SInsert 2 20; SInsert 1 11; STraverse; SErase 2; SRehash 2; SReclaim 0; SReclaim 0;
   SFind 1; SReclaim 0; SReclaim 0; SSize; SFind 2].

