(* ===== verification/HashReaders.v ===== *)
(** Readers of a hash-map segment that run while writers and the reclamation of retired
    memory go on (src/src/concurrent/concurrent_hashmap_detail.h).

    The segment and its operations are those of HashSegment.v. A writer's critical section is
    one step, the release of the node it unlinked, which comes after the mutex is given back,
    is another, and so is each deletion of a retired object. A reader takes one step per
    access to shared memory, with three hazard pointers; a deletion never takes an object that
    a reader has protected ([Hazptr.v] proves that of the hazard pointers). [None] is
    undefined behaviour, in particular a dangling pointer. *)
From Stdlib Require Import Floats.SpecFloat.
From S2P Require Import Prelude Bits HashSegment.

(** * Readers *)

(** The [std::atomic<T*>&] that [get_protected] is given. *)
Inductive Src := SrcList | SrcLoc (l : Loc).

(** The hazard pointers: [holder_bucket] and [holder_node] of the iterator, and the
    [holder_next] of [find]. *)
Inductive Holder := HBucket | HNode | HNext.

(** The next access of a reader. *)
Inductive RPC :=
| PLoad (h : Holder) (x : Src)
| PSet (h : Holder) (x : Src) (p : option nat)
| PCheck (h : Holder) (x : Src) (p : option nat)
| PClear (h : Holder) (x : Src) (p : option nat)
| PKey (n : nat)
| PInit
| PHead (b : nat)
| PDone (found : bool)
| PGone.

Section readers.
Context {K V : Type} {EqK : EqDecision K} {CountableK : Countable K} (HashFn : K -> Z) (ShardBits : Z).
Implicit Types (s : Segment K V).

Open Scope wizard_scope.

Definition src_load (x : Src) s : option (option nat) :=
  match x with
  | SrcList => Some (Some (bucket_list_ s))
  | SrcLoc (inl (b, i)) => l <-? get_atomic_head b (Z.of_nat i) s; Some (load l s)
  | SrcLoc (inr n) => _ <-? nodes s !! n; Some (load (Next n) s)
  end.

(** A call of [find], and the iterator it fills; [find]'s own [bucket_list] and [bucket_id]
    are kept in the iterator. [h_...] are the pointers whose protection is established;
    [iterating] is set once the iterator moves; [since] is the number of maps the segment had
    stood for, but for the last, when the call began. *)
Record Reader := mkReader {
  r_key : K; since : nat; iterating : bool; pc : RPC; it : Iterator;
  h_bucket : option nat; h_node : option nat; h_next : option nat
}.

Definition goto (p : RPC) (r : Reader) : Reader :=
  mkReader (r_key r) (since r) (iterating r) p (it r) (h_bucket r) (h_node r) (h_next r).
Definition set_it (i : Iterator) (r : Reader) : Reader :=
  mkReader (r_key r) (since r) (iterating r) (pc r) i (h_bucket r) (h_node r) (h_next r).

(** What the hazard pointer [h] protects. *)
Definition hold (h : Holder) (p : option nat) (r : Reader) : Reader :=
  match h with
  | HBucket => mkReader (r_key r) (since r) (iterating r) (pc r) (it r) p (h_node r) (h_next r)
  | HNode => mkReader (r_key r) (since r) (iterating r) (pc r) (it r) (h_bucket r) p (h_next r)
  | HNext => mkReader (r_key r) (since r) (iterating r) (pc r) (it r) (h_bucket r) (h_node r) p
  end.

(** [holder_next.swap(iter.holder_node)] *)
Definition swap_holders (r : Reader) : Reader :=
  mkReader (r_key r) (since r) (iterating r) (pc r) (it r) (h_bucket r) (h_next r) (h_node r).

Definition find_start (k : K) (t : nat) : Reader :=
  mkReader k t false (PLoad HBucket SrcList) (mkIterator None 0 0) None None None.

(** [find] returns: [holder_next] is destroyed. *)
Definition find_return (found : bool) (r : Reader) : Reader := hold HNext None (goto (PDone found) r).

(** [advanceBucketIfAtEnd] once the iterator has reached [p]. *)
Definition arrive (p : option nat) (r : Reader) s : option Reader :=
  let '(b, id) := (it_list (it r), it_bucket (it r)) in
  match p with
  | Some n => Some (goto (PDone true) (set_it (mkIterator p b id) r))
  | None =>
      c <-? lists s !! b;
      let r := set_it (mkIterator None b (id + 1)) r in
      Some (if c <=? id + 1 then goto (PDone true) r
            else goto (PLoad HNode (SrcLoc (Slot b (Z.to_nat (id + 1))))) r)
  end.

(** What follows a successful [get_protected]. *)
Definition protected_next (h : Holder) (p : option nat) (r : Reader) s : option Reader :=
  let r := hold h p r in
  if iterating r then arrive p r s else
  match h with
  | HBucket =>
      b <-? p;
      c <-? lists s !! b;
      let id := bucket_id ShardBits (HashFn (r_key r)) c in
      Some (goto (PLoad HNode (SrcLoc (Slot b (Z.to_nat id)))) (set_it (mkIterator None b id) r))
  | _ =>
      let r := match h with HNext => swap_holders r | _ => r end in
      Some (match p with Some n => goto (PKey n) r | None => find_return false r end)
  end.

Definition reader_step s (r : Reader) : option Reader :=
  match pc r with
  | PLoad h x => p <-? src_load x s; Some (goto (PSet h x p) r)
  | PSet h x p => Some (goto (PCheck h x p) (hold h None r))
  | PCheck h x p =>
      p' <-? src_load x s;
      if decide (p' = p) then protected_next h p r s else Some (goto (PClear h x p') r)
  | PClear h x p => Some (goto (PSet h x p) r)
  | PKey n =>
      nd <-? nodes s !! n;
      if decide (r_key r = key nd)
      then Some (find_return true (set_it (mkIterator (Some n) (it_list (it r)) (it_bucket (it r))) r))
      else Some (goto (PLoad HNext (SrcLoc (Next n))) r)
  | PInit => Some (goto (PHead (bucket_list_ s)) r)
  | PHead b =>
      l <-? get_atomic_head b 0 s;
      arrive (load l s) (set_it (mkIterator None b 0) r) s
  | PDone _ | PGone => Some r
  end.

(** [cbegin]: a new iterator and its [init]. *)
Definition begin_start (k : K) (t : nat) : Reader :=
  mkReader k t true PInit (mkIterator None 0 0) None None None.

(** [operator++] *)
Definition incr_start (r : Reader) : option Reader :=
  n <-? node_ (it r);
  Some (mkReader (r_key r) (since r) true (PLoad HNode (SrcLoc (Next n))) (it r) (h_bucket r) (h_node r) (h_next r)).

(** The iterator is destroyed. *)
Definition drop (r : Reader) : Reader :=
  mkReader (r_key r) (since r) (iterating r) PGone (mkIterator None 0 0) None None None.

(** * Interleavings *)

(** The segment, the nodes that writers have unlinked and not released yet, the readers, and
    the maps the segment has stood for. *)
Record Config := mkConfig {
  seg : Segment K V; pend : list nat; readers : list Reader; hist : list (gmap K V)
}.

Definition now (c : Config) : gmap K V := default ∅ (last (hist c)).

Definition set_readers (rs : list Reader) (c : Config) : Config := mkConfig (seg c) (pend c) rs (hist c).

Definition held (r : Reader) : list Obj :=
  (OBucketList <$> opt_list (h_bucket r)) ++ (ONode <$> opt_list (h_node r) ++ opt_list (h_next r)).

(** [AClear] and [ARehash] stand for calls that no other writer overlaps: [clear] reads the
    list it replaces before it takes the mutex, [rehash] called from [reserve] takes none. *)
Inductive Act :=
| AInsert (k : K) (v : V) | AErase (k : K) | AClear | ARehash (n : Z) | ALoadFactor (lf : spec_float)
| ARelease (j : nat) | AReclaim (i : nat)
| AFind (k : K) | ABegin (k : K) | AReader (i : nat) | ADeref (i : nat) | AIncr (i : nat) | ADrop (i : nat).

Definition done (r : Reader) : bool := match pc r with PDone _ => true | _ => false end.

(** An act that is not enabled does nothing. *)
Definition step (a : Act) (c : Config) : option Config :=
  match a with
  | AInsert k v =>
      let (new, s) := new_node k v (seg c) in
      r <-? insert_locked HashFn ShardBits (HashFn k) k new s;
      Some (mkConfig (snd r) (opt_list (snd (fst r)) ++ pend c) (readers c) (hist c ++ [<[k := v]> (now c)]))
  | AErase k =>
      r <-? erase_locked ShardBits (HashFn k) k (seg c);
      Some (mkConfig (snd r) (opt_list (fst r) ++ pend c) (readers c) (hist c ++ [delete k (now c)]))
  | AClear => s <-? clear (seg c); Some (mkConfig s (pend c) (readers c) (hist c ++ [∅]))
  | ARehash n => s <-? rehash HashFn ShardBits n (seg c); Some (mkConfig s (pend c) (readers c) (hist c))
  | ALoadFactor lf => s <-? set_load_factor lf (seg c); Some (mkConfig s (pend c) (readers c) (hist c))
  | ARelease j =>
      match pend c !! j with
      | Some n => s <-? release n (seg c); Some (mkConfig s (delete j (pend c)) (readers c) (hist c))
      | None => Some c
      end
  | AReclaim i =>
      match retired (seg c) !! i with
      | Some o =>
          if decide (Forall (fun r => o ∉ held r) (readers c))
          then s <-? reclaim i (seg c); Some (mkConfig s (pend c) (readers c) (hist c))
          else Some c
      | None => Some c
      end
  | AFind k => Some (set_readers (readers c ++ [find_start k (pred (length (hist c)))]) c)
  | ABegin k => Some (set_readers (readers c ++ [begin_start k (pred (length (hist c)))]) c)
  | AReader i =>
      match readers c !! i with
      | Some r => r <-? reader_step (seg c) r; Some (set_readers (<[i := r]> (readers c)) c)
      | None => Some c
      end
  | ADeref i =>
      match readers c !! i with
      | Some r =>
          if done r && negb (at_end (it r)) then _ <-? deref (it r) (seg c); Some c else Some c
      | None => Some c
      end
  | AIncr i =>
      match readers c !! i with
      | Some r =>
          if done r && negb (at_end (it r))
          then r <-? incr_start r; Some (set_readers (<[i := r]> (readers c)) c) else Some c
      | None => Some c
      end
  | ADrop i =>
      match readers c !! i with
      | Some r => if done r then Some (set_readers (<[i := drop r]> (readers c)) c) else Some c
      | None => Some c
      end
  end.

Fixpoint run (l : list Act) (c : Config) : option Config :=
  match l with
  | [] => Some c
  | a :: l => c <-? step a c; run l c
  end.
Close Scope wizard_scope.

Definition start s : Config := mkConfig s [] [] [∅].

(** No machine integer is about to overflow in any state of the run. *)
Fixpoint all_small_c (l : list Act) (c : Config) : bool :=
  small (seg c) &&
  match l with
  | [] => true
  | a :: l => match step a c with Some c' => all_small_c l c' | None => true end
  end.

Definition act_ok (a : Act) : Prop := match a with ARehash n => 1 <= n <= 2 ^ 62 | _ => True end.

(** The objects that the next access of a reader, or a use of its iterator, dereferences. *)
Definition src_obj (x : Src) : list Obj := match x with SrcList => [] | SrcLoc l => [owner l] end.

Definition touches (a : Act) (r : Reader) : list Obj :=
  match a with
  | AReader _ =>
      match pc r with
      | PLoad h x => src_obj x
      | PCheck h x p => src_obj x ++ if iterating r then [OBucketList (it_list (it r))] else []
      | PKey n => [ONode n]
      | PHead b => [OBucketList b]
      | _ => []
      end
  | ADeref _ => if done r then ONode <$> opt_list (node_ (it r)) else []
  | _ => []
  end.
End readers.

(** * Invariants *)

Section proofs.
Context {K V : Type} {EqK : EqDecision K} {CountableK : Countable K} (HashFn : K -> Z) (ShardBits : Z).
Implicit Types (s : Segment K V) (r : Reader (K := K)) (H : list (gmap K V)).

Definition live s (o : Obj) : Prop :=
  match o with ONode n => is_Some (nodes s !! n) | OBucketList b => is_Some (lists s !! b) end.

(** Where a reader is about to look. *)
Definition pc_at (p : RPC) : option (Holder * Src) :=
  match p with PLoad h x | PSet h x _ | PCheck h x _ | PClear h x _ => Some (h, x) | _ => None end.
Definition pc_src (p : RPC) : option Src :=
  match p with PHead b => Some (SrcLoc (Slot b 0)) | _ => snd <$> pc_at p end.

(** What holds of every reader, iterators included. *)
Record reader_base s r : Prop := {
  rb_held : forall o, o ∈ held r -> live s o;
  rb_slot : forall b i, pc_src (pc r) = Some (SrcLoc (Slot b i)) -> h_bucket r = Some b -> loc_ok s (Slot b i);
  rb_bucket : 0 <= it_bucket (it r);
  rb_kind : forall h x, pc_at (pc r) = Some (h, x) -> (h = HBucket <-> x = SrcList)
}.

(** The segment stood for a map with the value [v] for the key of [r], since [r] began. *)
Definition was H r (v : option V) : Prop :=
  exists t M, (since r <= t)%nat /\ H !! t = Some M /\ M !! r_key r = v.

(** The place a reader looks at belongs to an object it protects. *)
Definition src_held (h : Holder) (l : Loc) r : Prop :=
  match h, l with
  | HNode, inl (b, _) => h_bucket r = Some b
  | HNext, inr n => h_node r = Some n
  | _, _ => False
  end.

(** A walk from [l] gives a value that the map had. *)
Definition walk s H r (l : Loc) : Prop :=
  loc_ok s l /\ exists L, chain (ptrs s) l L /\ was H r (first_value s (r_key r) L).

(** What holds of a call of [find]. *)
Definition find_ok s H r : Prop :=
  match pc r with
  | PLoad h x | PSet h x _ | PCheck h x _ | PClear h x _ => node_ (it r) = None /\
      match x with
      | SrcList => h = HBucket
      | SrcLoc l => src_held h l r /\ walk s H r l
      end
  | PKey n => node_ (it r) = None /\ h_node r = Some n /\
      exists L, chain (ptrs s) (Next n) L /\ was H r (first_value s (r_key r) (n :: L))
  | PDone true => exists n v, node_ (it r) = Some n /\ h_node r = Some n /\
      entry s n = Some (r_key r, v) /\ was H r (Some v)
  | PDone false => node_ (it r) = None /\ was H r None
  | PInit | PHead _ => False
  | PGone => True
  end.

Definition reader_ok s H r : Prop :=
  reader_base s r /\ (since r < length H)%nat /\ (iterating r = false -> find_ok s H r).

(** ** Steps of the others *)

Lemma was_mono H H' r v : H `prefix_of` H' -> was H r v -> was H' r v.
Proof. intros Hp (t & M & Ht & HM & Hv). exists t, M. split_and!; [done| |done]. by eapply prefix_lookup_Some. Qed.

Lemma was_last H M r : last H = Some M -> (since r < length H)%nat -> was H r (M !! r_key r).
Proof.
  intros HM Hl. exists (pred (length H)), M. split_and!; [lia| |done]. by rewrite <-last_lookup.
Qed.

Lemma live_evolves keep s s' (M' : gmap K V) o : Evolves keep s s' M' -> keep o -> live s o -> live s' o.
Proof.
  intros [E1 E2 _] Hk. destruct o as [n|b]; simpl.
  - rewrite <-!entry_is_Some. intros [e He]. exists e. by apply E1.
  - intros [c Hc]. exists c. by apply E2.
Qed.

Lemma loc_evolves keep s s' (M' : gmap K V) l : Evolves keep s s' M' -> keep (owner l) -> loc_ok s l -> loc_ok s' l.
Proof.
  intros E Hk. destruct l as [[b i]|n]; simpl in *.
  - intros (c & Hc & Hi). exists c. split; [by eapply (ev_list _ _ _ _ E)|done].
  - by apply (live_evolves _ _ _ _ (ONode n) E).
Qed.

Lemma walk_evolves keep s s' (M' : gmap K V) H H' r l :
  Evolves keep s s' M' -> keep (owner l) -> H `prefix_of` H' -> last H' = Some M' -> (since r < length H)%nat ->
  walk s H r l -> walk s' H' r l.
Proof.
  intros E Hk Hp HM Hl (Hok & L & Hc & Hw). split; [by eapply loc_evolves|].
  destruct (ev_chain _ _ _ _ E l L Hk Hok Hc) as (L' & Hc' & HL). exists L'. split; [done|].
  apply prefix_length in Hp as Hlen. destruct (HL (r_key r)) as [->| ->].
  - by eapply was_mono.
  - apply was_last; [done|lia].
Qed.

Lemma elem_of_held o r : o ∈ held r <->
  (exists b, o = OBucketList b /\ h_bucket r = Some b) \/ (exists n, o = ONode n /\ (h_node r = Some n \/ h_next r = Some n)).
Proof.
  unfold held. destruct (h_bucket r), (h_node r), (h_next r); simpl; set_solver.
Qed.

Lemma src_held_owner h l r : src_held h l r -> owner l ∈ held r.
Proof. rewrite elem_of_held. destruct h, l as [[b i]|n]; simpl; try done; eauto 10. Qed.

Lemma reader_ok_evolves keep s s' (M' : gmap K V) H H' r :
  Evolves keep s s' M' -> H `prefix_of` H' -> last H' = Some M' -> (forall o, o ∈ held r -> keep o) ->
  reader_ok s H r -> reader_ok s' H' r.
Proof.
  intros E Hp HM Hk ([B1 B2 B3 B4] & Hs & Hf). apply prefix_length in Hp as Hlen. split; [constructor|split; [lia|]].
  - intros o Ho. by eapply live_evolves; [|apply Hk|apply B1].
  - intros b i Hsrc Hb. eapply loc_evolves; [done| |by apply B2]. apply Hk, elem_of_held. eauto.
  - done.
  - done.
  - intros Hi. specialize (Hf Hi). unfold find_ok in *.
    assert (Hsrc : forall h x, node_ (it r) = None /\
        match x with SrcList => h = HBucket | SrcLoc l => src_held h l r /\ walk s H r l end ->
      node_ (it r) = None /\ match x with SrcList => h = HBucket | SrcLoc l => src_held h l r /\ walk s' H' r l end).
    { intros h [|l] [Hn Hx]; split; [done..|]. destruct Hx as [Hh Hw]. split; [done|].
      eapply walk_evolves; [done|by eapply Hk, src_held_owner|done..]. }
    destruct (pc r) as [h x|h x p|h x p|h x p|n| | |[]|]; try done; try (by apply Hsrc).
    + destruct Hf as (Hit & Hn & L & Hc & Hw). split; [done|]. split; [done|].
      assert (Hkn : keep (ONode n)) by (apply Hk, elem_of_held; eauto 10).
      assert (Hlv : is_Some (nodes s !! n)) by (apply (B1 (ONode n)), elem_of_held; eauto 10).
      destruct (ev_chain _ _ _ _ E (Next n) L Hkn Hlv Hc) as (L' & Hc' & HL). exists L'. split; [done|].
      apply entry_is_Some in Hlv as [[k v] He]. simpl in *.
      rewrite (ev_entry _ _ _ _ E n _ Hkn He). rewrite He in Hw. case_decide; [by eapply was_mono|].
      destruct (HL (r_key r)) as [->| ->]; [by eapply was_mono|apply was_last; [done|lia]].
    + destruct Hf as (n & v & Hn & Hh & He & Hw). exists n, v. split_and!; [done..| |by eapply was_mono].
      apply (ev_entry _ _ _ _ E); [|done]. apply Hk, elem_of_held. eauto 10.
    + destruct Hf as [Hn Hw]. split; [done|]. by eapply was_mono.
Qed.
(** ** Steps of a reader *)

Lemma base_loc s r l : reader_base s r -> pc_src (pc r) = Some (SrcLoc l) -> owner l ∈ held r -> loc_ok s l.
Proof.
  intros [B1 B2 _ _] Hp Ho. destruct l as [[b i]|n]; [|by apply (B1 (ONode n))].
  apply B2; [done|]. apply elem_of_held in Ho as [(b' & [= ->] & Hb)|(n & ? & _)]; done.
Qed.

Lemma src_load_ok s l : loc_ok s l -> src_load (SrcLoc l) s = Some (ptrs s !! l).
Proof.
  destruct l as [[b i]|n]; simpl.
  - intros (c & Hc & Hi). rewrite (get_atomic_head_spec b c (Z.of_nat i) s Hc) by lia. by rewrite Nat2Z.id.
  - by intros [nd ->].
Qed.

Lemma src_load_inv s l p : src_load (SrcLoc l) s = Some p -> p = ptrs s !! l.
Proof.
  destruct l as [[b i]|n]; simpl.
  - unfold get_atomic_head. destruct (lists s !! b); [|done]. simpl. destruct (_ && _); [|done]. simpl.
    rewrite Nat2Z.id. by intros [= <-].
  - destruct (nodes s !! n); [|done]. by intros [= <-].
Qed.

(** A reader only minds its protections shrinking in that they still name live objects. *)
Lemma base_shrink s r r' : reader_base s r -> (forall o, o ∈ held r' -> o ∈ held r) ->
  (pc_src (pc r') = pc_src (pc r) /\ pc_at (pc r') = pc_at (pc r) \/ pc_src (pc r') = None) ->
  (h_bucket r' = h_bucket r \/ h_bucket r' = None) -> 0 <= it_bucket (it r') -> reader_base s r'.
Proof.
  intros [B1 B2 B3 B4] Hh Hp Hb Hid. constructor; [by intros o Ho; apply B1, Hh| |done|].
  - intros b i Hsrc Hbk. destruct Hp as [[Hp _]|Hp]; [|congruence].
    destruct Hb as [Hb|Hb]; [|congruence]. apply B2; congruence.
  - intros h x Hx. destruct Hp as [[_ Hp]|Hp]; [apply B4; congruence|].
    destruct (pc r'); simpl in *; congruence.
Qed.

Lemma arrive_base s r p r' : reader_base s r -> arrive p r s = Some r' ->
  reader_base s r' /\ iterating r' = iterating r /\ since r' = since r.
Proof.
  intros B. pose proof (rb_bucket _ _ B) as Hb. unfold arrive. destruct p as [n|].
  - intros [= <-]. split; [|done]. apply (base_shrink s r); simpl; auto.
  - destruct (lists s !! it_list (it r)) as [c|] eqn:Hc; [|done]. intros [= <-].
    destruct (Z.leb_spec c (it_bucket (it r) + 1)); (split; [|done]).
    + apply (base_shrink s r); simpl; auto; lia.
    + constructor; simpl; [apply B| |lia|by intros h x [= <- <-]].
      intros b i [= <- <-] _. exists c. split; [done|]. lia.
Qed.

Section step.
Context (Hhash : forall k, 0 <= HashFn k) (ext : list nat) (s : Segment K V) (M : gmap K V) (Ls : list (list nat)) (H : list (gmap K V)).
Context (HR : Repr HashFn ShardBits ext s M Ls) (Hlen : Z.of_nat (length Ls) < 2 ^ 62) (HM : last H = Some M).

Lemma target_live l n : ptrs s !! l = Some n -> live s (ONode n).
Proof.
  intros Hl. apply (own_target _ _ (proj1 HR)). unfold holders. apply elem_of_app. left.
  apply elem_of_vals. by exists l.
Qed.

Lemma cur_list : lists s !! bucket_list_ s = Some (Z.of_nat (length Ls)) /\ (0 < length Ls)%nat.
Proof. split; apply (proj2 HR). Qed.

(** After a successful [get_protected] the holder holds a live object. *)
Lemma hold_base r h x p : reader_base s r -> src_load x s = Some p -> pc_at (pc r) = Some (h, x) ->
  forall o, o ∈ held (hold h p r) -> live s o.
Proof.
  intros B Hl Hx%(rb_kind _ _ B) o Ho.
  assert (Hp' : forall q, p = Some q -> live s (match h with HBucket => OBucketList q | _ => ONode q end)).
  { intros q ->. destruct x as [|l].
    - assert (h = HBucket) as -> by (by apply Hx). injection Hl as <-. exists (Z.of_nat (length Ls)). apply cur_list.
    - apply src_load_inv in Hl. destruct h; [by assert (SrcLoc l = SrcList) by (by apply Hx)|by eapply target_live..]. }
  pose proof (rb_held _ _ B) as B1. destruct h; apply elem_of_held in Ho; simpl in Ho.
  - destruct Ho as [(b & -> & ->)|(n & -> & Hn)]; [by apply (Hp' b)|apply B1, elem_of_held; eauto].
  - destruct Ho as [(b & -> & Hb)|(n & -> & [->|Hn])]; [apply B1, elem_of_held; eauto|by apply (Hp' n)|apply B1, elem_of_held; eauto 10].
  - destruct Ho as [(b & -> & Hb)|(n & -> & [Hn| ->])]; [apply B1, elem_of_held; eauto|apply B1, elem_of_held; eauto 10|by apply (Hp' n)].
Qed.

Lemma protected_next_ok r h x p r' :
  reader_ok s H r -> src_load x s = Some p -> pc r = PCheck h x p -> protected_next HashFn ShardBits h p r s = Some r' ->
  reader_ok s H r'.
Proof.
  intros (B & Hs & Hf) Hl Hpc Hst. pose proof cur_list as [Hcur Hpos].
  pose proof (hold_base r h x p B Hl) as Hheld. rewrite Hpc in Hheld. specialize (Hheld eq_refl).
  pose proof (rb_bucket _ _ B) as Hid. unfold protected_next in Hst.
  assert (Hit : iterating (hold h p r) = iterating r) by by destruct h. rewrite Hit in Hst.
  destruct (iterating r) eqn:Ei.
  { assert (B' : reader_base s (goto PGone (hold h p r))).
    { constructor; simpl; [|done|by destruct h|done]. intros o Ho. apply Hheld. by destruct h. }
    assert (Ha : arrive p (goto PGone (hold h p r)) s = Some r').
    { rewrite <-Hst. unfold arrive. by destruct h, p. }
    destruct (arrive_base _ _ _ _ B' Ha) as (B2 & Hi2 & Hs2). split; [done|]. split.
    - rewrite Hs2. by destruct h.
    - rewrite Hi2. simpl. rewrite Hit. done. }
  specialize (Hf eq_refl). unfold find_ok in Hf. rewrite Hpc in Hf. destruct Hf as [Hnode Hf].
  destruct x as [|l].
  - subst h. injection Hl as <-. simpl in Hst. rewrite Hcur in Hst. injection Hst as <-.
    set (c := Z.of_nat (length Ls)) in *.
    pose proof (bucket_id_range ShardBits (HashFn (r_key r)) c (Hhash _) ltac:(lia)) as Hrng.
    destruct (lookup_lt_is_Some_2 Ls (in_bucket HashFn ShardBits (r_key r) c)) as [L HL];
      [unfold in_bucket; lia|].
    assert (Hok : loc_ok s (Slot (bucket_list_ s) (Z.to_nat (bucket_id ShardBits (HashFn (r_key r)) c))))
      by (exists c; split; [done|lia]).
    split; [constructor; simpl|split; [done|]].
    + apply Hheld.
    + intros b i [= <- <-] _. exact Hok.
    + lia.
    + by intros h x [= <- <-].
    + intros _. unfold find_ok. simpl. split; [done|]. split; [done|]. split; [exact Hok|].
      exists L. split; [apply (bk_chain _ _ _ _ _ _ (rp_buckets _ _ _ _ _ (proj2 HR)) _ _ HL)|].
      change (was H r (first_value s (r_key r) L)).
      rewrite (bucket_value HashFn ShardBits s M Ls _ L (proj2 HR) HL). by apply was_last.
  - destruct Hf as [Hsh (Hok & L & Hc & Hw)]. apply src_load_inv in Hl.
    assert (Hnext : exists r0, (forall o, o ∈ held r0 -> live s o) /\ iterating r0 = false /\ since r0 = since r /\
      r_key r0 = r_key r /\ it r0 = it r /\ h_node r0 = p /\
      r' = match p with Some n => goto (PKey n) r0 | None => find_return false r0 end).
    { destruct h; [by destruct l|..]; injection Hst as <-.
      - exists (hold HNode p r). split_and!; done.
      - exists (swap_holders (hold HNext p r)). split_and!; try done. intros o Ho. apply Hheld.
        apply elem_of_held. apply elem_of_held in Ho. simpl in *. naive_solver. }
    destruct Hnext as (r0 & Hh0 & Hi0 & Hs0 & Hk0 & Hit0 & Hn0 & ->).
    destruct p as [n|]; simpl; (split; [constructor; simpl|split; [simpl; by rewrite Hs0|intros _; unfold find_ok; simpl]]);
      rewrite ?Hit0; try done.
    + split; [done|]. split; [done|]. destruct L as [|n' L]; simpl in Hc; [congruence|].
      destruct Hc as [Hn Hc]. assert (n' = n) as -> by congruence. exists L. split; [done|].
      unfold was in *. simpl. simpl in Hw. by rewrite Hk0, Hs0.
    + intros o Ho. apply Hh0. apply elem_of_held in Ho. apply elem_of_held. simpl in Ho. naive_solver.
    + split; [done|]. destruct L as [|n L]; [|simpl in Hc; destruct Hc; congruence].
      unfold was in *. simpl in *. by rewrite Hk0, Hs0.
Qed.

Lemma reader_step_preserves r r' :
  reader_ok s H r -> reader_step HashFn ShardBits s r = Some r' -> reader_ok s H r'.
Proof.
  intros Hok Hst. pose proof Hok as (B & Hs & Hf). pose proof (rb_bucket _ _ B) as Hid.
  unfold reader_step in Hst. destruct (pc r) as [h x|h x p|h x p|h x p|n| |b|f|] eqn:Hpc.
  - destruct (src_load x s) as [p|]; [|done]. injection Hst as <-. split; [|split; [done|]].
    + apply (base_shrink s r); simpl; rewrite ?Hpc; auto.
    + intros Hi. specialize (Hf Hi). unfold find_ok in *. rewrite Hpc in Hf. done.
  - injection Hst as <-. split; [|split; [by destruct h|]].
    + apply (base_shrink s r); [done| |simpl; rewrite ?Hpc; auto|destruct h; simpl; auto|by destruct h].
      intros o. rewrite !elem_of_held. destruct h; simpl; naive_solver.
    + intros Hi. assert (Hi' : iterating r = false) by by destruct h.
      specialize (Hf Hi'). unfold find_ok in *. rewrite Hpc in Hf. simpl.
      destruct Hf as [Hn Hf]. split; [by destruct h|]. destruct x as [|l]; [done|]. destruct Hf as [Hsh Hw].
      split; [destruct h, l as [[b i]|m]; done|]. by destruct h.
  - destruct (src_load x s) as [p'|] eqn:Hl; [|done]. case_decide as E.
    + subst p'. by eapply protected_next_ok.
    + injection Hst as <-. split; [|split; [done|]].
      * apply (base_shrink s r); simpl; rewrite ?Hpc; auto.
      * intros Hi. specialize (Hf Hi). unfold find_ok in *. rewrite Hpc in Hf. done.
  - injection Hst as <-. split; [|split; [done|]].
    + apply (base_shrink s r); simpl; rewrite ?Hpc; auto.
    + intros Hi. specialize (Hf Hi). unfold find_ok in *. rewrite Hpc in Hf. done.
  - destruct (nodes s !! n) as [nd|] eqn:Hn; [|done]. case_decide as Hk; injection Hst as <-.
    + split; [|split; [done|]].
      * apply (base_shrink s r); simpl; auto. intros o. rewrite !elem_of_held. simpl. naive_solver.
      * intros Hi. specialize (Hf Hi). unfold find_ok in *. rewrite Hpc in Hf. simpl.
        destruct Hf as (_ & Hh & L & _ & Hw). exists n, (value nd). split_and!; [done|done| |].
        -- apply entry_node. by exists nd.
        -- simpl in Hw. unfold entry in Hw. rewrite Hn in Hw. simpl in Hw. by rewrite decide_True in Hw.
    + split; [|split; [done|]].
      * constructor; simpl; [apply B|done|done|]. by intros h x [= <- <-].
      * intros Hi. specialize (Hf Hi). unfold find_ok in *. rewrite Hpc in Hf. simpl.
        destruct Hf as (Hit & Hh & L & Hc & Hw). split; [done|]. split; [done|]. split; [by exists nd|].
        exists L. split; [done|]. simpl in Hw. unfold entry in Hw. rewrite Hn in Hw. simpl in Hw.
        by rewrite decide_False in Hw.
  - injection Hst as <-. split; [|split; [done|]].
    + constructor; simpl; [apply B| |done|done]. intros b i [= <- <-] _. pose proof cur_list as [Hc Hpos].
      exists (Z.of_nat (length Ls)). split; [done|lia].
    + intros Hi. specialize (Hf Hi). unfold find_ok in Hf. by rewrite Hpc in Hf.
  - destruct (get_atomic_head b 0 s) as [l|]; [|done]. simpl in Hst.
    assert (B' : reader_base s (goto PGone (set_it (mkIterator None b 0) r))).
    { constructor; simpl; [apply B|done|done|done]. }
    assert (Ha : arrive (load l s) (goto PGone (set_it (mkIterator None b 0) r)) s = Some r')
      by (rewrite <-Hst; unfold arrive; by destruct (load l s)).
    destruct (arrive_base _ _ _ _ B' Ha) as (B2 & Hi2 & Hs2). split; [done|]. split; [by rewrite Hs2|].
    rewrite Hi2. simpl. intros Hi. specialize (Hf Hi). unfold find_ok in Hf. by rewrite Hpc in Hf.
  - by injection Hst as <-.
  - by injection Hst as <-.
Qed.

(** A reader that protects what it looks at does not fail. *)
Lemma reader_step_total r i : reader_base s r ->
  (forall o, o ∈ touches (AReader (K := K) (V := V) i) r -> o ∈ held r) -> is_Some (reader_step HashFn ShardBits s r).
Proof.
  intros B Ht. pose proof cur_list as [Hcur Hpos].
  assert (Hsrc : forall x, pc_src (pc r) = Some x -> (forall o, o ∈ src_obj x -> o ∈ held r) ->
    is_Some (src_load x s)).
  { intros [|l] Hx Ho; [by eexists|]. rewrite src_load_ok; [by eexists|].
    apply (base_loc s r l B Hx), Ho. by left. }
  unfold reader_step, touches in *. destruct (pc r) as [h x|h x p|h x p|h x p|n| |b|f|] eqn:Hpc.
  - destruct (Hsrc x eq_refl Ht) as [p ->]. by eexists.
  - by eexists.
  - destruct (Hsrc x eq_refl) as [p' Hp']; [intros o Ho; apply Ht, elem_of_app; by left|]. rewrite Hp'.
    case_decide as E; [|by eexists]. subst p'. unfold protected_next.
    assert (Hit : iterating (hold h p r) = iterating r) by by destruct h. rewrite Hit.
    destruct (iterating r).
    + unfold arrive. destruct p as [n|]; [by eexists|].
      assert (Hl : live s (OBucketList (it_list (it r)))) by (apply (rb_held _ _ B), Ht; set_solver).
      destruct Hl as [c Hc]. destruct h; simpl; rewrite Hc; by eexists.
    + destruct h; [|by eexists..]. assert (x = SrcList) as -> by (apply (rb_kind _ _ B HBucket x); [by rewrite Hpc|done]).
      injection Hp' as <-. simpl. rewrite Hcur. by eexists.
  - by eexists.
  - destruct (rb_held _ _ B (ONode n)) as [nd ->]; [apply Ht; by left|]. simpl. case_decide; by eexists.
  - by eexists.
  - assert (Hb : OBucketList b ∈ held r) by (apply Ht; by left).
    assert (Hok : loc_ok s (Slot b 0)) by (apply (base_loc s r); [done|by rewrite Hpc|done]).
    destruct Hok as (c & Hc & Hi). rewrite (get_atomic_head_spec b c 0 s Hc) by (simpl in Hi; lia). simpl.
    unfold arrive. destruct (load _ s); simpl; [by eexists|]. rewrite Hc. by eexists.
  - by eexists.
  - by eexists.
Qed.
End step.

(** [find] protects whatever it looks at, and so does the iterator it fills. *)
Lemma find_touches s H r (a : Act (K := K) (V := V)) : reader_ok s H r -> iterating r = false -> forall o, o ∈ touches a r -> o ∈ held r.
Proof.
  intros (_ & _ & Hf) Hi o Ho. specialize (Hf Hi). unfold find_ok, touches, done in *.
  assert (Hx : forall h x P, P /\ match x with SrcList => h = HBucket | SrcLoc l => src_held h l r /\ walk s H r l end ->
    o ∈ src_obj x -> o ∈ held r).
  { intros h [|l] P [_ Hl]; [by intros ?%elem_of_nil|]. intros ->%list_elem_of_singleton. eapply src_held_owner, Hl. }
  destruct a; try (by apply elem_of_nil in Ho).
  - rewrite Hi, ?app_nil_r in Ho. destruct (pc r) as [h x|h x p|h x p|h x p|n| |b|f|]; try (by apply elem_of_nil in Ho); try done.
    + by eapply Hx.
    + rewrite app_nil_r in Ho. by eapply Hx.
    + apply list_elem_of_singleton in Ho as ->. apply elem_of_held. right. exists n. tauto.
  - destruct (pc r) as [| | | | | | |[]|]; try (by apply elem_of_nil in Ho).
    + destruct Hf as (n & v & Hn & Hh & _). rewrite Hn in Ho. simpl in Ho. apply list_elem_of_singleton in Ho as ->.
      apply elem_of_held. right. exists n. tauto.
    + destruct Hf as [Hn _]. rewrite Hn in Ho. by apply elem_of_nil in Ho.
Qed.
End proofs.

(** * Every interleaving *)

Section interleavings.
Context {K V : Type} {EqK : EqDecision K} {CountableK : Countable K} (HashFn : K -> Z) (ShardBits : Z).
Context (Hhash : forall k, 0 <= HashFn k).
Implicit Types (s : Segment K V) (c : Config (K := K) (V := V)) (a : Act (K := K) (V := V)).

Record sound c : Prop := {
  so_repr : exists Ls, Repr HashFn ShardBits (pend c) (seg c) (now c) Ls;
  so_hist : last (hist c) = Some (now c);
  so_readers : Forall (reader_ok (seg c) (hist c)) (readers c)
}.

Lemma Own_perm ext ext' s : ext ≡ₚ ext' -> Own ext s -> Own ext' s.
Proof.
  intros Hp HO. replace s with (set_ptrs (ptrs s) s) by by destruct s.
  apply (Own_ptrs ext); [done|unfold holders; by rewrite Hp|apply HO].
Qed.

(** A writer's step moves every reader along. *)
Lemma sound_evolves keep c s' (M' : gmap K V) pend' H' :
  sound c -> Evolves keep (seg c) s' M' -> (exists Ls, Repr HashFn ShardBits pend' s' M' Ls) ->
  hist c `prefix_of` H' -> last H' = Some M' ->
  (forall r o, r ∈ readers c -> o ∈ held r -> keep o) ->
  sound (mkConfig s' pend' (readers c) H').
Proof.
  intros [Hr Hh Hrd] E HR' Hp HM Hk. assert (Hnow : now (mkConfig s' pend' (readers c) H') = M') by (unfold now; simpl; by rewrite HM).
  constructor; rewrite ?Hnow; simpl; [done|done|].
  rewrite Forall_forall in *. intros r Hin. eapply reader_ok_evolves; [exact E|done|done| |by apply Hrd].
  intros o. by apply Hk.
Qed.

Lemma sound_frozen keep c s' pend' :
  sound c -> Frozen keep (seg c) s' -> (exists Ls, Repr HashFn ShardBits pend' s' (now c) Ls) ->
  (forall n, n ∈ vals (ptrs (seg c)) -> keep (ONode n)) ->
  (forall r o, r ∈ readers c -> o ∈ held r -> keep o) ->
  sound (mkConfig s' pend' (readers c) (hist c)).
Proof.
  intros Hs F HR' Hv Hk. destruct (so_repr c Hs) as (Ls & HO & _).
  eapply sound_evolves; [done|by eapply frozen_evolves|done|done|apply Hs|done].
Qed.

Lemma sound_readers c rs : sound c -> Forall (reader_ok (seg c) (hist c)) rs -> sound (set_readers rs c).
Proof. intros [H1 H2 H3] Hrs. by constructor. Qed.

Lemma sound_reader_add c r : sound c -> reader_ok (seg c) (hist c) r -> sound (set_readers (readers c ++ [r]) c).
Proof.
  intros Hs Hr. apply sound_readers; [done|]. apply Forall_app. split; [apply Hs|by constructor].
Qed.

Lemma sound_reader_set c i r : sound c -> reader_ok (seg c) (hist c) r -> sound (set_readers (<[i := r]> (readers c)) c).
Proof. intros Hs Hr. apply sound_readers; [done|]. apply Forall_insert; [apply Hs|done]. Qed.

(** The only failures: an iterator's access to an object that it does not protect. *)
Definition unprotected a c : Prop :=
  exists i r o, (a = AReader i \/ a = ADeref i) /\ readers c !! i = Some r /\ o ∈ touches a r /\ o ∉ held r.

Lemma all_held_dec a r : {forall o, o ∈ touches a r -> o ∈ held r} + {exists o, o ∈ touches a r /\ o ∉ held r}.
Proof.
  destruct (decide (Forall (fun o => o ∈ held r) (touches a r))) as [Hd|Hd].
  - left. by rewrite Forall_forall in Hd.
  - right. apply not_Forall_Exists in Hd; [|apply _]. by apply Exists_exists in Hd.
Qed.

Lemma writer_step_sound a c : sound c -> small (seg c) = true -> act_ok a ->
  match a with AInsert _ _ | AErase _ | AClear | ARehash _ | ALoadFactor _ | ARelease _ | AReclaim _ => True | _ => False end ->
  exists c', step HashFn ShardBits a c = Some c' /\ sound c'.
Proof.
  intros Hs Hsm Hok Ha. pose proof Hs as [[Ls HR] Hh Hrd].
  destruct (small_spec HashFn ShardBits _ _ _ (proj2 HR) Hsm) as (Hfew & Hlen & Hsz).
  destruct a as [k v|k| |n|lf|j|i| | | | | | ]; try done; cbn [step].
  - destruct (new_node k v (seg c)) as [new s1] eqn:Hn.
    destruct (new_node_repr HashFn ShardBits (pend c) _ _ Ls k v new s1 HR Hfew Hn)
      as (H1 & Hfew1 & HF1 & Hsz1 & _ & Hnone & Hfz).
    destruct (insert_locked_spec HashFn ShardBits Hhash (pend c) s1 _ Ls k v new H1 Hfew1 HF1 Hlen ltac:(lia))
      as (node & s' & Ls' & -> & H' & Hev). eexists. split; [done|]. cbn [fst snd].
    eapply sound_evolves; [done|by apply (Hev (seg c)); [apply HR| |]|by eexists|by eexists|apply last_snoc|done].
  - destruct (erase_locked_spec HashFn ShardBits Hhash (pend c) _ _ Ls k HR Hfew Hlen ltac:(lia))
      as (node & s' & Ls' & -> & H' & Hev). eexists. split; [done|]. cbn [fst snd].
    eapply sound_evolves; [done|exact Hev|by eexists|by eexists|apply last_snoc|done].
  - destruct (clear_spec HashFn ShardBits (pend c) _ _ Ls HR) as (s' & Ls' & -> & H' & _ & Hfz).
    eexists. split; [done|].
    eapply sound_evolves; [done|by eapply frozen_evolves; [|apply HR|]|by eexists|by eexists|apply last_snoc|done].
  - destruct (rehash_spec HashFn ShardBits (pend c) _ _ Ls n HR ltac:(simpl in Hok; lia) Hhash)
      as (s' & Ls' & -> & H' & _ & He & _).
    eexists. split; [done|]. eapply sound_frozen; [done|by apply extends_frozen|by eexists|done..].
  - destruct (set_load_factor_spec HashFn ShardBits (pend c) _ _ Ls lf HR) as (s' & -> & H' & Hfz).
    eexists. split; [done|]. eapply sound_frozen; [done|done|by eexists|done..].
  - destruct (pend c !! j) as [n|] eqn:Hj; [|by exists c].
    destruct (release_spec (delete j (pend c)) (seg c) n) as (s' & -> & HO' & Sm).
    { eapply Own_perm; [|apply HR]. by apply delete_Permutation. }
    eexists. split; [done|]. eapply sound_frozen; [done|by apply same_frozen| |done..].
    exists Ls. split; [done|]. eapply Func_same; [done|apply HR].
  - destruct (retired (seg c) !! i) as [o|] eqn:Hi; [|by exists c].
    case_decide as Hun; [|by exists c].
    destruct (reclaim_spec HashFn ShardBits Hhash (pend c) _ _ Ls i o HR Hi) as (s' & -> & H' & Hfz).
    eexists. split; [done|]. eapply sound_frozen; [done|exact Hfz|by eexists| |].
    + intros n Hn <-. apply list_elem_of_lookup_2 in Hi as Hret.
      assert (Hin : n ∈ holders (seg c) (pend c)) by (unfold holders; set_solver).
      pose proof (own_target _ _ (proj1 HR) n Hin) as Hl. by apply (own_retired _ _ (proj1 HR) n Hl) in Hret.
    + intros r o' Hr Ho ->. rewrite Forall_forall in Hun. by apply (Hun r).
Qed.

Lemma start_reader_ok c k : sound c -> reader_ok (seg c) (hist c) (find_start k (pred (length (hist c)))) /\
  reader_ok (seg c) (hist c) (begin_start k (pred (length (hist c)))).
Proof.
  intros [_ Hh _]. assert (Hl : (pred (length (hist c)) < length (hist c))%nat).
  { destruct (hist c); [done|]. simpl. lia. }
  split; (split; [constructor; simpl; [by intros o ?%elem_of_nil|done..|]|split; [done|]]); try done.
  by intros h x [= <- <-].
Qed.

Lemma config_step_sound a c : sound c -> small (seg c) = true -> act_ok a ->
  match step HashFn ShardBits a c with Some c' => sound c' | None => unprotected a c end.
Proof.
  intros Hs Hsm Hok.
  destruct a as [k v|k| |n|lf|j|i|k|k|i|i|i|i] eqn:Ea;
    try (rewrite <-Ea in *; destruct (writer_step_sound a c Hs Hsm Hok ltac:(by rewrite Ea)) as (c' & -> & Hc'); exact Hc').
  - cbn [step]. apply sound_reader_add; [done|]. by apply start_reader_ok.
  - cbn [step]. apply sound_reader_add; [done|]. by apply start_reader_ok.
  - cbn [step]. destruct (readers c !! i) as [r|] eqn:Hr; [|done].
    pose proof Hs as [[Ls HR] Hh Hrd]. pose proof (Forall_lookup_1 _ _ _ _ Hrd Hr) as Hrok.
    destruct (small_spec HashFn ShardBits _ _ _ (proj2 HR) Hsm) as (Hfew & Hlen & Hsz).
    destruct (reader_step HashFn ShardBits (seg c) r) as [r'|] eqn:Hst.
    + apply sound_reader_set; [done|]. by eapply (reader_step_preserves HashFn ShardBits Hhash).
    + destruct (all_held_dec (AReader i) r) as [Hh'|(o & Ho & Hno)]; [|exists i, r, o; eauto].
      destruct (reader_step_total HashFn ShardBits Hhash (pend c) (seg c) _ Ls (hist c) HR Hlen Hh r i (proj1 Hrok) Hh') as [? E]. congruence.
  - cbn [step]. destruct (readers c !! i) as [r|] eqn:Hr; [|done].
    destruct (done r && negb (at_end (it r))) eqn:Ed; [|done].
    pose proof Hs as [_ _ Hrd]. pose proof (Forall_lookup_1 _ _ _ _ Hrd Hr) as (B & _).
    apply andb_true_iff in Ed as [Hd He]. unfold at_end, deref in *.
    destruct (node_ (it r)) as [n|] eqn:Hn; [|done].
    destruct (nodes (seg c) !! n) as [nd|] eqn:Hnd; [done|].
    exists i, r, (ONode n). split; [by right|]. split; [done|]. unfold touches. rewrite Hd, Hn. simpl.
    split; [by left|]. intros Hin. destruct (rb_held _ _ B _ Hin) as [? ?]. congruence.
  - cbn [step]. destruct (readers c !! i) as [r|] eqn:Hr; [|done].
    destruct (done r && negb (at_end (it r))) eqn:Ed; [|done].
    pose proof Hs as [_ _ Hrd]. pose proof (Forall_lookup_1 _ _ _ _ Hrd Hr) as (B & Hl & _).
    apply andb_true_iff in Ed as [Hd He]. unfold at_end, incr_start in *.
    destruct (node_ (it r)) as [n|] eqn:Hn; [|done]. simpl. apply sound_reader_set; [done|].
    split; [constructor; simpl; [apply B|done|apply B|by intros h x [= <- <-]]|by split].
  - cbn [step]. destruct (readers c !! i) as [r|] eqn:Hr; [|done].
    destruct (done r) eqn:Ed; [|done].
    pose proof Hs as [_ _ Hrd]. pose proof (Forall_lookup_1 _ _ _ _ Hrd Hr) as (B & Hl & _).
    apply sound_reader_set; [done|]. split; [constructor; simpl; [by intros o ?%elem_of_nil|done..]|by split].
Qed.

Lemma run_sound_c l : forall c c', sound c -> all_small_c HashFn ShardBits l c = true -> Forall act_ok l ->
  run HashFn ShardBits l c = Some c' -> sound c' /\ small (seg c') = true.
Proof.
  induction l as [|a l IH]; intros c c' Hs Hsm Hok; cbn [run all_small_c] in *; apply andb_true_iff in Hsm as [Hsm Hall].
  - by intros [= <-].
  - apply Forall_cons in Hok as [Ha Hok]. pose proof (config_step_sound a c Hs Hsm Ha) as Hst.
    destruct (step HashFn ShardBits a c) as [c1|]; [|done]. by apply IH.
Qed.
End interleavings.

(** * A reader left alone *)

Section alone.
Context {K V : Type} {EqK : EqDecision K} {CountableK : Countable K} (HashFn : K -> Z) (ShardBits : Z).
Context (Hhash : forall k, 0 <= HashFn k).
Context (ext : list nat) (s : Segment K V) (M : gmap K V) (Ls : list (list nat)) (H : list (gmap K V)).
Context (HR : Repr HashFn ShardBits ext s M Ls) (Hlen : Z.of_nat (length Ls) < 2 ^ 62) (HM : last H = Some M).

Open Scope wizard_scope.
Fixpoint reader_steps (n : nat) (r : Reader) : option Reader :=
  match n with O => Some r | S n => r <-? reader_step HashFn ShardBits s r; reader_steps n r end.
Close Scope wizard_scope.

(** [r] is in [find], and [n] steps of its own end it. *)
Definition ends_in (n : nat) (r : Reader) : Prop := exists r', reader_steps n r = Some r' /\ done r' = true.

Lemma ends_step n r r' : reader_step HashFn ShardBits s r = Some r' -> ends_in n r' -> ends_in (S n) r.
Proof. intros Hst (r2 & Hn & Hd). exists r2. simpl. by rewrite Hst. Qed.

Lemma ends_mono n m r : (n <= m)%nat -> ends_in n r -> ends_in m r.
Proof.
  revert m r. induction n as [|n IH]; intros m r Hle (r' & Hn & Hd).
  - injection Hn as <-. exists r. split; [|done]. clear Hle. induction m as [|m IH]; [done|]. simpl.
    unfold done in Hd. unfold reader_step. destruct (pc r); done.
  - destruct m as [|m]; [lia|]. simpl in Hn. destruct (reader_step HashFn ShardBits s r) as [r1|] eqn:Hst; [|done].
    apply (ends_step m r r1 Hst), IH; [lia|]. by exists r'.
Qed.

(** [get_protected] when nothing else moves: at most one mismatch, then the check succeeds. *)
Lemma protect_ends h x p0 m : src_load x s = Some p0 ->
  (forall r, pc r = PCheck h x p0 -> iterating r = false -> ends_in m r) ->
  forall r, pc_at (pc r) = Some (h, x) -> iterating r = false -> ends_in (5 + m) r.
Proof.
  intros Hl Hm. assert (Hset : forall r, pc r = PSet h x p0 -> iterating r = false -> ends_in (1 + m) r).
  { intros r Hpc Hi. eapply ends_step; [unfold reader_step; rewrite Hpc; reflexivity|]. apply Hm; [done|by destruct h]. }
  assert (Hcheck : forall r p, pc r = PCheck h x p -> iterating r = false -> ends_in (3 + m) r).
  { intros r p Hpc Hi. destruct (decide (p0 = p)) as [->|Hne]; [eapply ends_mono; [|by apply Hm]; lia|].
    eapply ends_step; [unfold reader_step; rewrite Hpc, Hl, decide_False by done; reflexivity|].
    eapply ends_step; [reflexivity|]. by apply Hset. }
  intros r Hpc Hi. destruct (pc r) as [h' x'|h' x' p|h' x' p|h' x' p|n| |b|f|] eqn:E; simpl in Hpc; try done;
    injection Hpc as -> ->.
  - eapply ends_mono; [|eapply ends_step; [unfold reader_step; rewrite E, Hl; reflexivity|by apply Hset]]. lia.
  - eapply ends_mono; [|eapply ends_step; [unfold reader_step; rewrite E; reflexivity|]].
    2: apply (Hcheck _ p); [done|by destruct h]. lia.
  - eapply ends_mono; [|by eapply Hcheck]. lia.
  - eapply ends_step; [unfold reader_step; rewrite E; reflexivity|].
    eapply ends_step; [reflexivity|]. apply (Hcheck _ p); [done|by destruct h].
Qed.

(** From the load of a place on: six accesses for the place, seven for each node. *)
Lemma walk_ends L : forall h l, h <> HBucket -> loc_ok s l -> chain (ptrs s) l L ->
  forall r, pc_at (pc r) = Some (h, SrcLoc l) -> iterating r = false -> ends_in (6 + 7 * length L) r.
Proof.
  induction L as [|n L IH]; intros h l Hh Hok Hc.
  - intros r Hpc Hi. eapply ends_mono; [|eapply (protect_ends h (SrcLoc l) None 1); [| |exact Hpc|exact Hi]]; [simpl; lia| |].
    + rewrite src_load_ok by done. by simpl in Hc; rewrite Hc.
    + clear r Hpc Hi. intros r Hpc Hi. simpl in Hc.
      destruct h; [done|..]; (eapply ends_step; [unfold reader_step; rewrite Hpc, (src_load_ok s l Hok), decide_True by done;
        unfold protected_next; simpl; rewrite Hi; reflexivity|eexists; split; [reflexivity|done]]).
  - destruct Hc as [Hn Hc]. intros r Hpc Hi.
    eapply ends_mono; [|eapply (protect_ends h (SrcLoc l) (Some n) (2 + (6 + 7 * length L))); [| |exact Hpc|exact Hi]];
      [simpl; lia|by rewrite src_load_ok, Hn|].
    clear r Hpc Hi. intros r Hpc Hi.
    assert (Hl : live s (ONode n)) by (eapply target_live; [apply HR|exact Hn]). destruct Hl as [nd Hnd].
    assert (Hkey : forall r', pc r' = PKey n -> iterating r' = false -> ends_in (1 + (6 + 7 * length L)) r').
    { intros r' Hp' Hi'. destruct (decide (r_key r' = key nd)) as [Hk|Hk].
      - eapply ends_mono; [|eapply (ends_step 0); [unfold reader_step; rewrite Hp', Hnd, decide_True by done; reflexivity|]];
          [lia|]. eexists. split; [reflexivity|done].
      - eapply ends_step; [unfold reader_step; rewrite Hp', Hnd, decide_False by done; reflexivity|].
        apply (IH HNext (Next n)); [done|by exists nd|done|done|done]. }
    destruct h; [done|..]; (eapply ends_step; [unfold reader_step; rewrite Hpc, (src_load_ok s l Hok), decide_True by done;
      unfold protected_next; simpl; rewrite Hi; reflexivity|by apply Hkey]).
Qed.

Lemma find_ends r : reader_ok s H r -> iterating r = false -> pc r <> PGone -> exists n, ends_in n r.
Proof.
  intros Hok Hi Hg. pose proof Hok as (B & Hs & Hf). specialize (Hf Hi). unfold find_ok in Hf.
  assert (Hat : forall h x, pc_at (pc r) = Some (h, x) ->
    match x with SrcList => h = HBucket | SrcLoc l => src_held h l r /\ walk s H r l end -> exists n, ends_in n r).
  { intros h [|l] Hpc Hx.
    - subst h. pose proof (cur_list HashFn ShardBits ext s M Ls HR) as [Hcur Hpos].
      set (c := Z.of_nat (length Ls)) in *.
      eexists (5 + (1 + (6 + 7 * fuel_of s)))%nat.
      eapply ends_mono; [|eapply (protect_ends HBucket SrcList (Some (bucket_list_ s))
        (1 + (6 + 7 * fuel_of s))); [done| |done|done]]; [lia|].
      intros r1 Hpc1 Hi1. eapply ends_step.
      { unfold reader_step. rewrite Hpc1. simpl. rewrite decide_True by done. unfold protected_next. simpl. rewrite Hi1, Hcur. reflexivity. }
      pose proof (bucket_id_range ShardBits (HashFn (r_key r1)) c (Hhash _) ltac:(lia)) as Hrng.
      destruct (lookup_lt_is_Some_2 Ls (in_bucket HashFn ShardBits (r_key r1) c)) as [L HL]; [unfold in_bucket; lia|].
      eapply ends_mono; [|eapply (walk_ends L HNode (Slot (bucket_list_ s) (in_bucket HashFn ShardBits (r_key r1) c)))]; try done.
      + pose proof (Repr_fuel HashFn ShardBits ext s M Ls _ L HR HL). lia.
      + exists c. split; [done|]. unfold in_bucket. lia.
      + apply (bk_chain _ _ _ _ _ _ (rp_buckets _ _ _ _ _ (proj2 HR)) _ _ HL).
    - destruct Hx as [Hh (Hlok & L & Hc & _)]. eexists. eapply (walk_ends L h l); [by destruct h|done..]. }
  destruct (pc r) as [h x|h x p|h x p|h x p|n| |b|f|] eqn:Hpc; try done.
  - by apply (Hat h x eq_refl), Hf.
  - by apply (Hat h x eq_refl), Hf.
  - by apply (Hat h x eq_refl), Hf.
  - by apply (Hat h x eq_refl), Hf.
  - destruct Hf as (_ & Hn & L & Hc & _).
    assert (Hl : live s (ONode n)) by (apply (rb_held _ _ B), elem_of_held; eauto 10). destruct Hl as [nd Hnd].
    destruct (decide (r_key r = key nd)) as [Hk|Hk].
    + exists 1%nat. eapply ends_step; [unfold reader_step; rewrite Hpc, Hnd, decide_True by done; reflexivity|].
      eexists. split; [reflexivity|done].
    + eexists. eapply ends_step; [unfold reader_step; rewrite Hpc, Hnd, decide_False by done; reflexivity|].
      apply (walk_ends L HNext (Next n)); [done|by exists nd|done|done|done].
  - exists 0%nat. exists r. split; [done|]. unfold done. by rewrite Hpc.
Qed.
End alone.

(** * Properties *)

Section properties.
Context {K V : Type} {EqK : EqDecision K} {CountableK : Countable K} (HashFn : K -> Z) (ShardBits : Z).
Context (Hhash : forall k, 0 <= HashFn k).
Implicit Types (s : Segment K V) (c : Config (K := K) (V := V)) (a : Act (K := K) (V := V)).

Lemma start_sound cnt lf s : 0 <= cnt <= 2 ^ 61 -> ConcurrentHashMapSegment cnt lf = Some s ->
  sound HashFn ShardBits (start s).
Proof.
  intros Hc Hs. destruct (ctor_spec (V := V) HashFn ShardBits cnt lf Hc) as (s' & Ls & Hs' & HR & _).
  rewrite Hs in Hs'. injection Hs' as <-. constructor; [by exists Ls|done|constructor].
Qed.

Lemma run_reader i n : forall c r r', readers c !! i = Some r ->
  reader_steps HashFn ShardBits (seg c) n r = Some r' ->
  exists c', run HashFn ShardBits (replicate n (AReader i)) c = Some c' /\ readers c' !! i = Some r' /\
    hist c' = hist c.
Proof.
  induction n as [|n IH]; intros c r r' Hr Hn; simpl in Hn.
  - injection Hn as <-. by exists c.
  - destruct (reader_step HashFn ShardBits (seg c) r) as [r1|] eqn:Hst; [|done].
    cbn [replicate run step]. rewrite Hr, Hst.
    destruct (IH (set_readers (<[i := r1]> (readers c)) c) r1 r') as (c' & ? & ? & ?); [|exact Hn|by exists c'].
    apply list_lookup_insert_eq. by eapply lookup_lt_Some.
Qed.
End properties.


(** C27: whatever the others have left behind, a call of [find] that is then left alone returns:
    it waits for nobody. *)
Theorem find_finishes_alone {K V} {EqK : EqDecision K} {CK : Countable K} (HashFn : K -> Z) ShardBits cnt lf
    (s : Segment K V) l c i r :
  (forall k, 0 <= HashFn k) -> 0 <= cnt <= 2 ^ 61 -> ConcurrentHashMapSegment cnt lf = Some s ->
  Forall act_ok l -> all_small_c HashFn ShardBits l (start s) = true ->
  run HashFn ShardBits l (start s) = Some c ->
  readers c !! i = Some r -> iterating r = false -> pc r <> PGone ->
  exists n c' r', run HashFn ShardBits (replicate n (AReader i)) c = Some c' /\ readers c' !! i = Some r' /\
    done r' = true.
Proof.
  intros Hhash Hc Hs Hok Hsm Hrun Hr Hi Hg.
  destruct (run_sound_c HashFn ShardBits Hhash l _ _ (start_sound HashFn ShardBits _ _ _ Hc Hs) Hsm Hok Hrun) as [Hso Hsmall].
  pose proof Hso as [[Ls HR] Hh Hrd].
  destruct (small_spec HashFn ShardBits _ _ _ (proj2 HR) Hsmall) as (_ & Hlen & _).
  destruct (find_ends HashFn ShardBits Hhash (pend c) (seg c) _ Ls (hist c) HR Hlen r) as (n & r' & Hn & Hd); [|done|done|].
  { by eapply Forall_lookup_1. }
  destruct (run_reader HashFn ShardBits i n c r r' Hr Hn) as (c' & Hc' & Hr' & _). eauto 10.
Qed.

(** ** Examples *)

(** One bucket, that will hold 3, 2, 1 in this order, and a load factor of 8. *)
Definition demo_load_factor : spec_float := S754_finite false 8388608 (-20).
Definition demo_segment1 : Segment Z Z :=
  set_load demo_load_factor 8 (set_bucket_list 0 (snd (new_bucket_list 1 null_segment))).
Definition inserts : list (Act (K := Z) (V := Z)) := [AInsert 1 10; AInsert 2 20; AInsert 3 30].
Definition go (n : nat) : list (Act (K := Z) (V := Z)) := replicate n (AReader 0).

Definition at_start (l : list (Act (K := Z) (V := Z))) : option (Config (K := Z) (V := Z)) := run Z.abs 0 l (start demo_segment1).

(** A [find] of 1 stands on 3 when 3 and then 2 are erased; 3 is kept while it is protected,
    and 2 while 3 points to it. *)
Definition demo_find : list (Act (K := Z) (V := Z)) :=
  inserts ++ [AFind 1] ++ go 7 ++
  [AErase 3; ARelease 0; AReclaim 0; AErase 2; ARelease 0; AReclaim 0; AReclaim 1] ++ go 8.

Definition demo_config : Config (K := Z) (V := Z) := default (start demo_segment1) (at_start demo_find).


Lemma find_finishes_alone_witness :
  exists n c' r', run Z.abs 0 (replicate n (AReader 0)) (default (start demo_segment1) (at_start (take 15 demo_find))) = Some c' /\
    readers c' !! 0%nat = Some r' /\ done r' = true.
Proof.
  eapply (find_finishes_alone Z.abs 0 0 demo_load_factor demo_segment1 (take 15 demo_find) _ 0);
    [apply Z.abs_nonneg|lia|vm_compute; reflexivity|by repeat constructor|vm_compute; reflexivity
    |vm_compute; reflexivity|vm_compute; reflexivity|reflexivity|done].
Defined.

(** [++] overwrites the protection of the node whose [next_] it reads a second time. *)
Lemma incr_reads_freed : exists c,
  at_start (inserts ++ [AFind 3] ++ go 7 ++ [AIncr 0] ++ go 2 ++ [AErase 3; ARelease 0; AReclaim 0]) = Some c /\
  step Z.abs 0 (AReader 0) c = None.
Proof. eexists. split; [vm_compute; reflexivity|vm_compute; reflexivity]. Qed.

(** [cbegin] protects neither the bucket list it starts from nor the first node. *)
Lemma begin_reads_freed : exists c,
  at_start (inserts ++ [ABegin 0] ++ go 1 ++ [AClear; AReclaim 0]) = Some c /\
  step Z.abs 0 (AReader 0) c = None.
Proof. eexists. split; [vm_compute; reflexivity|vm_compute; reflexivity]. Qed.

Open Scope wizard_scope.

(** Two calls of [clear] that both read the bucket list before either takes the mutex retire
    it twice, and the domain deletes it twice. *)
Definition two_clears (s : Segment Z Z) : option (Segment Z Z) :=
  r1 <-? clear_prepare s;
  r2 <-? clear_prepare (snd r1);
  let s1 := clear_locked (snd (fst r1)) (snd r2) in
  let s2 := clear_locked (snd (fst r2)) s1 in
  Some (retire (OBucketList (fst (fst r2))) (retire (OBucketList (fst (fst r1))) s2)).

Lemma clears_race : exists s, two_clears demo_segment1 = Some s /\
  retired s = [OBucketList 0; OBucketList 0] /\ (s1 <-? reclaim 0 s; reclaim 0 s1) = None.
Proof. eexists. split; [vm_compute; reflexivity|]. split; [done|vm_compute; reflexivity]. Qed.

(** [reserve] calls [rehash] without the mutex: what is inserted while it copies is lost. *)
Definition rehash_overlaps_insert (s : Segment Z Z) : option (Segment Z Z) :=
  r <-? rehash_copy Z.abs 0 2 s;
  i <-? insert Z.abs 0 5 5 50 (snd r);
  Some (swap_bucket_list (bucket_list_ s) (fst r) (snd i)).

Lemma rehash_loses_insert : exists s, rehash_overlaps_insert demo_segment1 = Some s /\ find 0 5 5 s = Some None.
Proof. eexists. split; [vm_compute; reflexivity|vm_compute; reflexivity]. Qed.
