(* ===== verification/HashMap.v ===== *)
(** The sharded map of src/src/concurrent/concurrent_hashmap.h over the segments of
    file HashSegment.

    The low [ShardBits] bits of a key's hash choose the segment, the other bits the
    bucket.  A segment is created on first use.  Iteration is modelled with its
    access to the array of segments: reading past the array is [None]. *)
From Stdlib Require Import Floats.SpecFloat.
From S2P Require Import Prelude Bits HashSegment.

Section hashmap.
Context {K V : Type} {EqK : EqDecision K} {CountableK : Countable K} (HashFn : K -> Z) (ShardBits : Z).

Definition NumShards : Z := Z.shiftl 1 ShardBits.

Record ConcurrentHashMap := mkMap {
  init_capacity_ : Z;
  segments_ : list (option (Segment K V));
  map_load_factor_ : spec_float
}.

Definition set_segments (l : list (option (Segment K V))) (m : ConcurrentHashMap) : ConcurrentHashMap :=
  mkMap (init_capacity_ m) l (map_load_factor_ m).

Definition no_segments : list (option (Segment K V)) := replicate (Z.to_nat NumShards) None.

(** The default constructor and the one with a capacity. *)
Definition ctor_default : ConcurrentHashMap := mkMap 8 no_segments default_load_factor.

Open Scope wizard_scope.

Definition ctor (init_capacity : Z) : option ConcurrentHashMap :=
  c <-? nextPowTwo init_capacity;
  Some (mkMap c no_segments default_load_factor).

Definition pickSegment (k : K) : Z := Z.land (HashFn k) (NumShards - 1).

(** An access [segments_[i]]. *)
Definition load_segment (i : Z) (m : ConcurrentHashMap) : option (option (Segment K V)) :=
  guard (0 <=? i);
  segments_ m !! Z.to_nat i.

Definition store_segment (i : Z) (s : Segment K V) (m : ConcurrentHashMap) : ConcurrentHashMap :=
  set_segments (<[Z.to_nat i := Some s]> (segments_ m)) m.

(** [ensureSegment]; with one caller the compare-and-exchange succeeds. *)
Definition ensureSegment (i : Z) (m : ConcurrentHashMap) : option (Segment K V * ConcurrentHashMap) :=
  o <-? load_segment i m;
  match o with
  | Some s => Some (s, m)
  | None =>
      s <-? ConcurrentHashMapSegment (Z.shiftr (init_capacity_ m) ShardBits) (map_load_factor_ m);
      Some (s, store_segment i s m)
  end.

Definition map_insert (k : K) (v : V) (m : ConcurrentHashMap) : option (bool * ConcurrentHashMap) :=
  let i := pickSegment k in
  r <-? ensureSegment i m;
  let (s, m1) := r in
  r <-? insert HashFn ShardBits (HashFn k) k v s;
  Some (fst r, store_segment i (snd r) m1).

(** The node is made before its segment is looked up. *)
Definition map_emplace (k : K) (v : V) (m : ConcurrentHashMap) : option (bool * ConcurrentHashMap) :=
  let i := pickSegment k in
  r <-? ensureSegment i m;
  let (s, m1) := r in
  let (new, s1) := new_node k v s in
  r <-? emplace HashFn ShardBits (HashFn k) k new s1;
  if fst r then Some (true, store_segment i (snd r) m1)
  else s2 <-? delete_node new (snd r); Some (false, store_segment i s2 m1).

Definition map_find (k : K) (m : ConcurrentHashMap) : option (option V) :=
  o <-? load_segment (pickSegment k) m;
  match o with
  | None => Some None
  | Some s =>
      r <-? find ShardBits (HashFn k) k s;
      match r with
      | Some it => v <-? deref it s; Some (Some v)
      | None => Some None
      end
  end.

Definition map_erase (k : K) (m : ConcurrentHashMap) : option ConcurrentHashMap :=
  o <-? load_segment (pickSegment k) m;
  match o with
  | None => Some m
  | Some s => s1 <-? erase ShardBits (HashFn k) k s; Some (store_segment (pickSegment k) s1 m)
  end.

(** A loop over the array of segments. *)
Fixpoint for_segments (f : Segment K V -> option (Segment K V)) (l : list (option (Segment K V))) :
    option (list (option (Segment K V))) :=
  match l with
  | [] => Some []
  | None :: l => l1 <-? for_segments f l; Some (None :: l1)
  | Some s :: l => s1 <-? f s; l1 <-? for_segments f l; Some (Some s1 :: l1)
  end.

Definition map_clear (m : ConcurrentHashMap) : option ConcurrentHashMap :=
  l <-? for_segments clear (segments_ m); Some (set_segments l m).

Definition reserve (capacity : Z) (m : ConcurrentHashMap) : option ConcurrentHashMap :=
  l <-? for_segments (rehash HashFn ShardBits (Z.shiftr capacity ShardBits)) (segments_ m);
  Some (set_segments l m).

Definition map_size (m : ConcurrentHashMap) : Z :=
  foldl (fun result o => match o with Some s => u64 (result + size_ s) | None => result end) 0
    (segments_ m).

(** The domain deletes the [j]-th object retired by segment [i]. *)
Definition map_reclaim (i : Z) (j : nat) (m : ConcurrentHashMap) : option ConcurrentHashMap :=
  o <-? load_segment i m;
  match o with
  | Some s =>
      if decide (j < length (retired s))%nat
      then s1 <-? reclaim j s; Some (store_segment i s1 m)
      else Some m
  | None => Some m
  end.

(** * Iteration *)

Record ConstIterator := mkConstIterator { it_ : Iterator; segment_ : Z }.

(** [ConstIterator::next]; [fuel] bounds the segments visited. *)
Fixpoint next (fuel : nat) (it : ConstIterator) (m : ConcurrentHashMap) :
    option (ConstIterator * ConcurrentHashMap) :=
  r <-? ensureSegment (segment_ it) m;
  let (_, m1) := r in
  if at_end (it_ it) && (segment_ it <? NumShards) then
    match fuel with
    | O => None
    | S fuel =>
        let i := segment_ it + 1 in
        seg <-? load_segment i m1;
        match seg with
        | Some s =>
            if i <? NumShards then it2 <-? cbegin s; next fuel (mkConstIterator it2 i) m1
            else next fuel (mkConstIterator (it_ it) i) m1
        | None => next fuel (mkConstIterator (it_ it) i) m1
        end
    end
  else Some (it, m1).

Definition next_fuel : nat := S (Z.to_nat NumShards).

Definition map_cbegin (m : ConcurrentHashMap) : option (ConstIterator * ConcurrentHashMap) :=
  r <-? ensureSegment 0 m;
  let (s, m1) := r in
  it <-? cbegin s;
  next next_fuel (mkConstIterator it 0) m1.

Definition map_next (it : ConstIterator) (m : ConcurrentHashMap) :
    option (ConstIterator * ConcurrentHashMap) :=
  o <-? load_segment (segment_ it) m;
  s <-? o;
  it2 <-? iter_next (it_ it) s;
  next next_fuel (mkConstIterator it2 (segment_ it)) m.
Close Scope wizard_scope.

(** * The map it stands for *)

Section proofs.
Context (Hhash : forall k, 0 <= HashFn k) (Hbits : 0 <= ShardBits <= 30).

Definition shard (k : K) : nat := Z.to_nat (pickSegment k).

Lemma NumShards_pow : NumShards = 2 ^ ShardBits.
Proof. unfold NumShards. rewrite Z.shiftl_mul_pow2 by lia. lia. Qed.

Lemma pickSegment_range k : 0 <= pickSegment k < NumShards.
Proof.
  unfold pickSegment. rewrite NumShards_pow, land_pow2_mask by lia. apply mod_pow2_range. lia.
Qed.

Lemma shard_lt k : (shard k < Z.to_nat NumShards)%nat.
Proof. unfold shard. pose proof (pickSegment_range k). lia. Qed.

(** The part of [M] that lives in segment [i]. *)
Definition part (i : nat) (M : gmap K V) : gmap K V := filter (fun kv => shard kv.1 = i) M.

Definition seg_repr (o : option (Segment K V)) (X : gmap K V) : Prop :=
  match o with
  | None => X = ∅
  | Some s => exists Ls, Repr HashFn ShardBits [] s X Ls
  end.

Record map_repr (m : ConcurrentHashMap) (M : gmap K V) : Prop := {
  mr_length : length (segments_ m) = Z.to_nat NumShards;
  mr_capacity : 0 <= init_capacity_ m <= 2 ^ 61;
  mr_segment : forall i o, segments_ m !! i = Some o -> seg_repr o (part i M)
}.

Lemma part_insert i k v M :
  part i (<[k := v]> M) = if decide (shard k = i) then <[k := v]> (part i M) else part i M.
Proof.
  unfold part. destruct (decide (shard k = i)) as [E|E].
  - by rewrite map_filter_insert_True.
  - by apply map_filter_insert_not'; intros; simpl.
Qed.

Lemma part_delete i k M :
  part i (delete k M) = if decide (shard k = i) then delete k (part i M) else part i M.
Proof.
  unfold part. rewrite map_filter_delete. destruct (decide (shard k = i)) as [E|E]; [done|].
  apply delete_id. apply map_lookup_filter_None. right. intros v _. done.
Qed.

Lemma part_lookup k M : part (shard k) M !! k = M !! k.
Proof.
  unfold part. destruct (M !! k) as [v|] eqn:E.
  - by apply map_lookup_filter_Some.
  - apply map_lookup_filter_None. by left.
Qed.

Lemma part_size M : Z.of_nat (size M) = foldr (fun i z => Z.of_nat (size (part i M)) + z) 0 (seq 0 (Z.to_nat NumShards)).
Proof.
  induction M as [|k v M Hk IH] using map_ind.
  - rewrite map_size_empty. induction (seq 0 (Z.to_nat NumShards)) as [|i js IH]; [done|]. simpl.
    rewrite <-IH. unfold part. by rewrite map_filter_empty.
  - rewrite map_size_insert_None by done.
    assert (Hp : forall i, Z.of_nat (size (part i (<[k := v]> M))) =
      Z.of_nat (size (part i M)) + (if decide (shard k = i) then 1 else 0)).
    { intros i. rewrite part_insert. destruct (decide _) as [<-|]; [|lia].
      rewrite map_size_insert_None; [lia|]. by rewrite part_lookup. }
    assert (Hs : forall js, NoDup js ->
      foldr (fun i z => Z.of_nat (size (part i (<[k := v]> M))) + z) 0 js =
      foldr (fun i z => Z.of_nat (size (part i M)) + z) 0 js + (if decide (shard k ∈ js) then 1 else 0)).
    { induction js as [|i js IHj]; intros Hnd; simpl; [done|].
      apply NoDup_cons in Hnd as [Hi Hnd]. rewrite Hp, (IHj Hnd).
      destruct (decide (shard k = i)) as [<-|Hne].
      - rewrite (decide_False (P := shard k ∈ js)) by done. rewrite decide_True by left. lia.
      - destruct (decide (shard k ∈ js)) as [Hin|Hin].
        + rewrite decide_True by by right. lia.
        + rewrite decide_False; [lia|]. intros [?|?]%elem_of_cons; done. }
    rewrite (Hs _ (NoDup_seq 0 _)), <-IH. rewrite decide_True; [lia|].
    apply elem_of_seq. pose proof (shard_lt k). lia.
Qed.

Lemma load_segment_spec m M k :
  map_repr m M -> exists o, load_segment (pickSegment k) m = Some o /\ seg_repr o (part (shard k) M) /\
    segments_ m !! shard k = Some o.
Proof.
  intros [H1 _ H3]. pose proof (pickSegment_range k) as Hr. pose proof (shard_lt k) as Hlt.
  destruct (lookup_lt_is_Some_2 (segments_ m) (shard k)) as [o Ho]; [lia|].
  exists o. split_and!; [|by apply H3|done]. unfold load_segment.
  rewrite (proj2 (Z.leb_le _ _)) by lia. exact Ho.
Qed.

(** Every segment is small. *)
Definition map_small (m : ConcurrentHashMap) : bool :=
  forallb (fun o => match o with Some s => small s | None => true end) (segments_ m).

Lemma map_small_lookup m i s : map_small m = true -> segments_ m !! i = Some (Some s) -> small s = true.
Proof.
  unfold map_small. rewrite forallb_forall. intros H Hi.
  apply (H (Some s)). apply list_elem_of_In. by eapply list_elem_of_lookup_2.
Qed.

(** [ensureSegment] yields a segment for the key's part of the map. *)
Lemma ensureSegment_spec m M k :
  map_repr m M -> map_small m = true ->
  exists s m1 Ls, ensureSegment (pickSegment k) m = Some (s, m1) /\
    Repr HashFn ShardBits [] s (part (shard k) M) Ls /\
    few s /\ Z.of_nat (length Ls) < 2 ^ 62 /\ size_ s < 2 ^ 64 - 1 /\
    (forall s', store_segment (pickSegment k) s' m1 = store_segment (pickSegment k) s' m).
Proof.
  intros H Hsm. destruct (load_segment_spec m M k H) as (o & Hl & Hr & Ho).
  unfold ensureSegment. rewrite Hl. destruct o as [s|].
  - destruct Hr as [Ls Hr]. exists s, m, Ls.
    destruct (small_spec _ _ s _ Ls (proj2 Hr) (map_small_lookup _ _ _ Hsm Ho)) as (? & ? & ?). done.
  - simpl in Hr. pose proof (mr_capacity _ _ H) as Hcap.
    assert (0 <= Z.shiftr (init_capacity_ m) ShardBits <= 2 ^ 61) as Hc.
    { rewrite Z.shiftr_div_pow2 by lia. assert (1 <= 2 ^ ShardBits) by (apply (Z.pow_le_mono_r 2 0); lia).
      split; [apply Z.div_pos; lia|]. transitivity (init_capacity_ m); [|lia]. apply Z.div_le_upper_bound; nia. }
    destruct (ctor_spec (V := V) HashFn ShardBits (Z.shiftr (init_capacity_ m) ShardBits) (map_load_factor_ m) Hc)
      as (s & Ls & -> & HR & Hfew & Hlen).
    exists s, (store_segment (pickSegment k) s m), Ls. rewrite Hr.
    split_and!; [done|done|done|lia| |].
    + rewrite (size_of_map _ _ _ _ _ (proj2 HR)), map_size_empty. lia.
    + intros s'. unfold store_segment, set_segments. simpl. by rewrite list_insert_insert_eq.
Qed.

Lemma store_repr m M M' k s :
  map_repr m M -> seg_repr (Some s) (part (shard k) M') ->
  (forall i, i <> shard k -> part i M' = part i M) ->
  map_repr (store_segment (pickSegment k) s m) M'.
Proof.
  intros [H1 H2 H3] Hs Hother. constructor; simpl; [by rewrite length_insert|done|].
  intros i o. intros [(<- & <- & _)|[Hne Hi]]%list_lookup_insert_Some; [done|].
  rewrite Hother by (unfold shard; congruence). by apply H3.
Qed.

Lemma map_insert_spec m M k v :
  map_repr m M -> map_small m = true ->
  exists m', map_insert k v m = Some (true, m') /\ map_repr m' (<[k := v]> M).
Proof.
  intros H Hsm. destruct (ensureSegment_spec m M k H Hsm)
    as (s & m1 & Ls & He & HR & Hfew & Hlen & Hsz & Hst).
  unfold map_insert. rewrite He.
  destruct (insert_spec HashFn ShardBits Hhash [] s _ Ls k v HR Hfew Hlen Hsz) as (s' & Ls' & -> & HR').
  cbn [fst snd]. rewrite Hst. eexists. split; [done|]. apply (store_repr m M); [done| |].
  - rewrite part_insert, decide_True by done. by exists Ls'.
  - intros i Hi. rewrite part_insert. by rewrite decide_False.
Qed.

Lemma map_emplace_spec m M k v :
  map_repr m M -> map_small m = true ->
  exists m', map_emplace k v m = Some (true, m') /\ map_repr m' (<[k := v]> M).
Proof.
  intros H Hsm. destruct (ensureSegment_spec m M k H Hsm)
    as (s & m1 & Ls & He & HR & Hfew & Hlen & Hsz & Hst).
  unfold map_emplace. rewrite He. destruct (new_node k v s) as [n s1] eqn:Hn.
  destruct (new_node_repr HashFn ShardBits [] s _ Ls k v n s1 HR Hfew Hn) as (H1 & Hfew1 & HF1 & Hsz1 & _).
  destruct (insert_internal_spec HashFn ShardBits Hhash [] s1 _ Ls k v n H1 Hfew1 HF1 Hlen ltac:(lia))
    as (s' & Ls' & Hi & HR').
  unfold emplace. rewrite Hi. cbn [fst snd]. rewrite Hst. eexists. split; [done|].
  apply (store_repr m M); [done| |].
  - rewrite part_insert, decide_True by done. by exists Ls'.
  - intros i Hne. rewrite part_insert. by rewrite decide_False.
Qed.

Lemma map_find_spec m M k : map_repr m M -> map_small m = true -> map_find k m = Some (M !! k).
Proof.
  intros H Hsm. destruct (load_segment_spec m M k H) as (o & Hl & Hr & Ho).
  unfold map_find. rewrite Hl, <-(part_lookup k M). destruct o as [s|]; simpl in Hr.
  - destruct Hr as [Ls HR].
    destruct (small_spec _ _ s _ Ls (proj2 HR) (map_small_lookup _ _ _ Hsm Ho)) as (_ & Hlen & _).
    pose proof (find_spec HashFn ShardBits Hhash s _ Ls k (proj2 HR) ltac:(lia)) as Hf.
    destruct (part (shard k) M !! k); [|by rewrite Hf]. destruct Hf as (it & -> & ->). done.
  - by rewrite Hr.
Qed.

Lemma map_erase_spec m M k :
  map_repr m M -> map_small m = true ->
  exists m', map_erase k m = Some m' /\ map_repr m' (delete k M).
Proof.
  intros H Hsm. destruct (load_segment_spec m M k H) as (o & Hl & Hr & Ho).
  unfold map_erase. rewrite Hl. destruct o as [s|]; simpl in Hr.
  - destruct Hr as [Ls HR].
    destruct (small_spec _ _ s _ Ls (proj2 HR) (map_small_lookup _ _ _ Hsm Ho)) as (Hfew & Hlen & Hsz).
    destruct (erase_spec HashFn ShardBits Hhash [] s _ Ls k HR Hfew Hlen ltac:(lia)) as (s' & Ls' & -> & HR').
    eexists. split; [done|]. apply (store_repr m M); [done| |].
    + rewrite part_delete, decide_True by done. by exists Ls'.
    + intros i Hi. rewrite part_delete. by rewrite decide_False.
  - exists m. split; [done|]. destruct H as [H1 H2 H3]. constructor; [done|done|].
    intros i o Hi. rewrite part_delete. destruct (decide (shard k = i)) as [<-|]; [|by apply H3].
    rewrite Ho in Hi. injection Hi as <-. simpl. by rewrite Hr, delete_empty.
Qed.

Lemma for_segments_spec f (P : nat -> gmap K V) (P' : nat -> gmap K V) l : forall k,
  (forall i o, l !! i = Some o -> seg_repr o (P (k + i)%nat)) ->
  (forall i, P i = ∅ -> P' i = ∅) ->
  (forall i s Ls, Repr HashFn ShardBits [] s (P i) Ls -> exists s', f s = Some s' /\ seg_repr (Some s') (P' i)) ->
  exists l', for_segments f l = Some l' /\ length l' = length l /\
    forall i o, l' !! i = Some o -> seg_repr o (P' (k + i)%nat).
Proof.
  induction l as [|o l IH]; intros k Hl He Hf; simpl; [by exists []|].
  destruct (IH (S k)) as (l' & -> & Hlen & Hl'); [|done|done|].
  { intros i o' Hi. replace (S k + i)%nat with (k + S i)%nat by lia. by apply Hl. }
  pose proof (Hl 0%nat o eq_refl) as Ho. rewrite Nat.add_0_r in Ho.
  assert (Hcons : forall o', seg_repr o' (P' k) -> forall i o2, (o' :: l') !! i = Some o2 ->
    seg_repr o2 (P' (k + i)%nat)).
  { intros o' Ho' [|i] o2 Hi; simpl in Hi; [injection Hi as <-; by rewrite Nat.add_0_r|].
    replace (k + S i)%nat with (S k + i)%nat by lia. by apply Hl'. }
  destruct o as [s|].
  - destruct Ho as [Ls HR]. destruct (Hf k s Ls HR) as (s' & -> & Hs').
    exists (Some s' :: l'). simpl. split_and!; [done|by rewrite Hlen|by apply Hcons].
  - exists (None :: l'). simpl. split_and!; [done|by rewrite Hlen|]. apply Hcons. simpl. by apply He.
Qed.

Lemma part_empty i : part i ∅ = ∅.
Proof. unfold part. by rewrite map_filter_empty. Qed.

Lemma map_clear_spec m M : map_repr m M -> exists m', map_clear m = Some m' /\ map_repr m' ∅.
Proof.
  intros [H1 H2 H3]. unfold map_clear.
  destruct (for_segments_spec clear (fun i => part i M) (fun i => part i ∅) (segments_ m) 0)
    as (l' & -> & Hlen & Hl'); [done|intros; apply part_empty| |].
  { intros i s Ls HR. destruct (clear_spec HashFn ShardBits [] s _ Ls HR) as (s' & Ls' & -> & HR' & _).
    exists s'. rewrite part_empty. split; [done|by exists Ls']. }
  eexists. split; [done|]. constructor; simpl; [by rewrite Hlen|done|done].
Qed.

Lemma reserve_spec m M n :
  map_repr m M -> NumShards <= n < 2 ^ 64 -> exists m', reserve n m = Some m' /\ map_repr m' M.
Proof.
  intros [H1 H2 H3] Hn. unfold reserve. rewrite NumShards_pow in Hn.
  assert (1 <= Z.shiftr n ShardBits <= 2 ^ 64) as Hc.
  { rewrite Z.shiftr_div_pow2 by lia. assert (1 <= 2 ^ ShardBits) by (apply (Z.pow_le_mono_r 2 0); lia).
    split; [apply Z.div_le_lower_bound; lia|]. apply Z.div_le_upper_bound; nia. }
  destruct (for_segments_spec (rehash HashFn ShardBits (Z.shiftr n ShardBits)) (fun i => part i M) (fun i => part i M)
    (segments_ m) 0) as (l' & -> & Hlen & Hl'); [done|done| |].
  { intros i s Ls HR. destruct (rehash_spec HashFn ShardBits [] s _ Ls _ HR Hc Hhash) as (s' & Ls' & -> & HR' & _).
    exists s'. split; [done|by exists Ls']. }
  eexists. split; [done|]. constructor; simpl; [by rewrite Hlen|done|done].
Qed.

Lemma map_size_spec m M : map_repr m M -> Z.of_nat (size M) < 2 ^ 64 -> map_size m = Z.of_nat (size M).
Proof.
  intros [H1 _ H3]. rewrite part_size. unfold map_size. rewrite <-H1.
  assert (Hgen : forall l k acc, 0 <= acc ->
    (forall i o, l !! i = Some o -> seg_repr o (part (k + i)%nat M)) ->
    acc + foldr (fun i z => Z.of_nat (size (part i M)) + z) 0 (seq k (length l)) < 2 ^ 64 ->
    foldl (fun r o => match o with Some s => u64 (r + size_ s) | None => r end) acc l =
    acc + foldr (fun i z => Z.of_nat (size (part i M)) + z) 0 (seq k (length l))).
  { assert (Hnn : forall js, 0 <= foldr (fun i z => Z.of_nat (size (part i M)) + z) 0 js)
      by (induction js; simpl; lia).
    induction l as [|o l IH]; intros k acc Hacc Hl Hlt; simpl in *; [lia|].
    pose proof (Hl 0%nat o eq_refl) as Ho. rewrite Nat.add_0_r in Ho.
    pose proof (Hnn (seq (S k) (length l))).
    assert (Hl2 : forall i o', l !! i = Some o' -> seg_repr o' (part (S k + i)%nat M)).
    { intros i o' Hi. replace (S k + i)%nat with (k + S i)%nat by lia. by apply Hl. }
    destruct o as [s|].
    - destruct Ho as [Ls HR]. pose proof (size_of_map _ _ _ _ _ (proj2 HR)) as Hs.
      rewrite u64_small by lia. rewrite (IH (S k)) by (done || lia). lia.
    - simpl in Ho. rewrite Ho, map_size_empty in *. rewrite (IH (S k)) by (done || lia). lia. }
  intros Hlt. rewrite (Hgen (segments_ m) 0%nat 0); [lia|lia|done|lia].
Qed.

Lemma map_reclaim_spec m M k j :
  map_repr m M -> exists m', map_reclaim (pickSegment k) j m = Some m' /\ map_repr m' M.
Proof.
  intros H. destruct (load_segment_spec m M k H) as (o & Hl & Hr & Ho).
  unfold map_reclaim. rewrite Hl. destruct o as [s|]; [|by exists m].
  destruct (decide _) as [Hj|]; [|by exists m]. destruct Hr as [Ls HR].
  destruct (lookup_lt_is_Some_2 _ _ Hj) as [obj Hobj].
  destruct (reclaim_spec HashFn ShardBits Hhash [] s _ Ls j obj HR Hobj) as (s' & -> & HR' & _).
  eexists. split; [done|]. apply (store_repr m M); [done|by exists Ls|done].
Qed.

Lemma map_ctor_repr c m : 0 <= c <= 2 ^ 61 -> ctor c = Some m -> map_repr m ∅.
Proof.
  intros Hc Hm. unfold ctor in Hm. destruct (nextPowTwo c) as [c'|] eqn:E; [|done].
  injection Hm as <-. constructor; simpl.
  - apply length_replicate.
  - destruct (decide (c = 0)) as [->|]; [by injection E as <-|].
    rewrite nextPowTwo_log2_up in E by lia. injection E as <-.
    split; [apply Z.pow_nonneg; lia|]. apply Z.pow_le_mono_r; [lia|]. apply Z.log2_up_le_pow2; lia.
  - intros i o [-> _]%lookup_replicate. simpl. apply part_empty.
Qed.
End proofs.

(** * Runs *)

Inductive MapOp :=
  | MInsert (k : K) (v : V) | MEmplace (k : K) (v : V) | MErase (k : K) | MFind (k : K) | MSize
  | MClear | MReserve (n : Z)
  (* deletion of the [j]-th object retired by the segment of [k] *)
  | MReclaim (k : K) (j : nat).
Inductive MapRes := MUnit | MBool (b : bool) | MValue (v : option V) | MNum (n : Z).

Open Scope wizard_scope.

Definition map_step (o : MapOp) (m : ConcurrentHashMap) : option (MapRes * ConcurrentHashMap) :=
  match o with
  | MInsert k v => r <-? map_insert k v m; Some (MBool (fst r), snd r)
  | MEmplace k v => r <-? map_emplace k v m; Some (MBool (fst r), snd r)
  | MErase k => m1 <-? map_erase k m; Some (MUnit, m1)
  | MFind k => r <-? map_find k m; Some (MValue r, m)
  | MSize => Some (MNum (map_size m), m)
  | MClear => m1 <-? map_clear m; Some (MUnit, m1)
  | MReserve n => m1 <-? reserve n m; Some (MUnit, m1)
  | MReclaim k j => m1 <-? map_reclaim (pickSegment k) j m; Some (MUnit, m1)
  end.

(** The specification: a finite map. *)
Definition map_spec (o : MapOp) (M : gmap K V) : MapRes * gmap K V :=
  match o with
  | MInsert k v | MEmplace k v => (MBool true, <[k := v]> M)
  | MErase k => (MUnit, delete k M)
  | MFind k => (MValue (M !! k), M)
  | MSize => (MNum (Z.of_nat (size M)), M)
  | MClear => (MUnit, ∅)
  | MReserve _ | MReclaim _ _ => (MUnit, M)
  end.

Fixpoint map_run (os : list MapOp) (m : ConcurrentHashMap) : option (list MapRes) :=
  match os with
  | [] => Some []
  | o :: os => r <-? map_step o m; rs <-? map_run os (snd r); Some (fst r :: rs)
  end.
Close Scope wizard_scope.

Fixpoint map_spec_run (os : list MapOp) (M : gmap K V) : list MapRes :=
  match os with
  | [] => []
  | o :: os => fst (map_spec o M) :: map_spec_run os (snd (map_spec o M))
  end.

Fixpoint map_all_small (os : list MapOp) (m : ConcurrentHashMap) : bool :=
  map_small m &&
  match os with
  | [] => true
  | o :: os => match map_step o m with Some (_, m') => map_all_small os m' | None => true end
  end.

Definition map_op_ok (o : MapOp) : Prop :=
  match o with MReserve n => NumShards <= n < 2 ^ 64 | _ => True end.

Lemma map_step_spec m M o :
  (forall k, 0 <= HashFn k) -> 0 <= ShardBits <= 30 ->
  map_repr m M -> map_small m = true -> Z.of_nat (size M) < 2 ^ 64 -> map_op_ok o ->
  exists m', map_step o m = Some (fst (map_spec o M), m') /\ map_repr m' (snd (map_spec o M)).
Proof.
  intros Hhash Hbits H Hsm Hsz Hok. destruct o as [k v|k v|k|k| | |n|k j]; simpl.
  - destruct (map_insert_spec Hhash Hbits m M k v H Hsm) as (m' & -> & H'). by exists m'.
  - destruct (map_emplace_spec Hhash Hbits m M k v H Hsm) as (m' & -> & H'). by exists m'.
  - destruct (map_erase_spec Hhash Hbits m M k H Hsm) as (m' & -> & H'). by exists m'.
  - rewrite (map_find_spec Hhash Hbits m M k H Hsm). by exists m.
  - rewrite (map_size_spec Hbits m M H Hsz). by exists m.
  - destruct (map_clear_spec m M H) as (m' & -> & H'). by exists m'.
  - destruct (reserve_spec Hhash Hbits m M n H Hok) as (m' & -> & H'). by exists m'.
  - destruct (map_reclaim_spec Hhash Hbits m M k j H) as (m' & -> & H'). by exists m'.
Qed.

(** The number of keys grows by at most one per operation. *)
Lemma map_spec_size o M : (size (snd (map_spec o M)) <= S (size M))%nat.
Proof.
  destruct o; simpl; try lia.
  - rewrite map_size_insert. destruct (M !! k); simpl; unfold id; lia.
  - rewrite map_size_insert. destruct (M !! k); simpl; unfold id; lia.
  - rewrite map_size_delete. destruct (M !! k); simpl; unfold id; lia.
  - rewrite map_size_empty. lia.
Qed.

Lemma map_run_spec os : forall m M,
  (forall k, 0 <= HashFn k) -> 0 <= ShardBits <= 30 ->
  map_repr m M -> map_all_small os m = true -> Forall map_op_ok os ->
  Z.of_nat (size M + length os) < 2 ^ 64 ->
  map_run os m = Some (map_spec_run os M).
Proof.
  induction os as [|o os IH]; intros m M Hhash Hbits H Hall Hok Hlen; [done|].
  apply Forall_cons in Hok as [Ho Hok]. cbn [map_all_small] in Hall.
  apply andb_true_iff in Hall as [Hsm Hall]. simpl in Hlen.
  destruct (map_step_spec m M o Hhash Hbits H Hsm ltac:(lia) Ho) as (m' & Hst & H').
  cbn [map_run map_spec_run]. rewrite Hst in *. cbn [fst snd].
  pose proof (map_spec_size o M). by rewrite (IH m' _ Hhash Hbits H' Hall Hok) by lia.
Qed.
End hashmap.

Arguments ConcurrentHashMap : clear implicits.

(** * Properties *)


Definition demo_map_ops : list (MapOp (K := Z) (V := Z)) :=
  [MInsert 1 10; MInsert 5 50; MEmplace 2 20; MInsert 1 11; MFind 1; MErase 5; MReclaim 5 0; MSize;
   MReserve 8; MReclaim 1 0; MFind 2; MClear; MFind 2].


(** Iteration leaves the array of segments: an iterator that has met the last
    element looks for the next segment until it reads [segments_[NumShards]], which
    does not exist.  So even [cbegin] of an empty map is out of bounds. *)
Theorem iteration_overruns {K V} {EqK : EqDecision K} {CK : Countable K} (m : ConcurrentHashMap K V) ShardBits
    fuel it :
  0 <= ShardBits <= 30 -> length (segments_ m) = Z.to_nat (NumShards ShardBits) ->
  node_ (it_ it) = None ->
  (forall (i : nat) s, segment_ it < Z.of_nat i -> segments_ m !! i = Some (Some s) ->
    exists it', cbegin s = Some it' /\ node_ it' = None) ->
  0 <= segment_ it < NumShards ShardBits ->
  next ShardBits fuel it m = None.
Proof.
  intros Hbits. revert it m.
  induction fuel as [|fuel IH]; intros [i seg] m Hlen Hnode Hempty Hseg; simpl in *.
  { destruct (ensureSegment ShardBits seg m) as [[s0 m1]|]; [|done].
    unfold at_end. rewrite Hnode. by rewrite (proj2 (Z.ltb_lt seg _)) by lia. }
  destruct (ensureSegment ShardBits seg m) as [[s0 m1]|] eqn:He; [|done].
  unfold at_end. rewrite Hnode. rewrite (proj2 (Z.ltb_lt seg _)) by lia. simpl.
  assert (length (segments_ m1) = length (segments_ m) /\
    forall j : nat, seg < Z.of_nat j -> segments_ m1 !! j = segments_ m !! j) as [Hl1 Hs1].
  { unfold ensureSegment in He. destruct (load_segment seg m) as [[s|]|]; [|..|done].
    { injection He as <- <-. done. }
    destruct (ConcurrentHashMapSegment _ _) as [s|]; [|done]. injection He as <- <-. simpl.
    rewrite length_insert. split; [done|]. intros j Hj. apply list_lookup_insert_ne. lia. }
  unfold load_segment at 1. rewrite (proj2 (Z.leb_le _ _)) by lia.
  destruct (segments_ m1 !! Z.to_nat (seg + 1)) as [o|] eqn:Ho; [|done].
  assert (Hlt : seg + 1 < NumShards ShardBits).
  { apply lookup_lt_Some in Ho. lia. }
  assert (Hempty1 : forall (j : nat) s, seg + 1 < Z.of_nat j -> segments_ m1 !! j = Some (Some s) ->
    exists it', cbegin s = Some it' /\ node_ it' = None).
  { intros j s Hj. rewrite Hs1 by lia. apply Hempty. lia. }
  destruct o as [s|].
  - rewrite (proj2 (Z.ltb_lt _ _)) by lia. rewrite Hs1 in Ho by lia.
    destruct (Hempty (Z.to_nat (seg + 1)) s) as (it' & -> & Hn); [lia|done|].
    apply IH; simpl; [congruence|done|done|lia].
  - apply IH; simpl; [congruence|done|done|lia].
Qed.

Lemma iteration_overruns_witness :
  next 8 (next_fuel 8) (mkConstIterator (mkIterator None 0 1) 0)
    (mkMap 8 (replicate 256 (None : option (Segment Z Z))) default_load_factor) = None.
Proof.
  apply iteration_overruns; [lia|reflexivity|reflexivity| |change (NumShards 8) with 256; simpl; lia].
  intros i s _ Hi. cbn [segments_] in Hi. apply lookup_replicate in Hi as [? _]. discriminate.
Defined.

(** [reserve] with a capacity below the number of segments asks every existing
    segment for zero buckets: as soon as the map holds an element, rehashing indexes
    outside the empty bucket array. *)
Theorem small_reserve_breaks {K V} {EqK : EqDecision K} {CK : Countable K} (HashFn : K -> Z) ShardBits
    (m : ConcurrentHashMap K V) M n :
  0 <= ShardBits <= 30 -> map_repr HashFn ShardBits m M -> M <> ∅ -> 0 <= n < NumShards ShardBits ->
  reserve HashFn ShardBits n m = None.
Proof.
  intros Hbits H HM Hn.
  destruct (map_choose M HM) as (k & v & Hkv).
  destruct (load_segment_spec HashFn ShardBits Hbits m M k H) as (o & _ & Hr & Ho).
  assert (Hp : part HashFn ShardBits (shard HashFn ShardBits k) M !! k = Some v) by (by rewrite part_lookup).
  destruct o as [s|]; [|simpl in Hr; by rewrite Hr in Hp]. destruct Hr as [Ls HR].
  unfold reserve. assert (Z.shiftr n ShardBits = 0) as ->.
  { rewrite Z.shiftr_div_pow2 by lia. apply Z.div_small. rewrite NumShards_pow in Hn by lia. lia. }
  assert (rehash HashFn ShardBits 0 s = None) as Hs.
  { eapply rehash_zero; [exact HR|]. intros E. by rewrite E in Hp. }
  assert (Hfor : forall l i, l !! i = Some (Some s) -> for_segments (rehash HashFn ShardBits 0) l = None).
  { induction l as [|o l IH]; intros [|i] Hi; simpl in *; try done.
    - injection Hi as ->. by rewrite Hs.
    - rewrite (IH i Hi). destruct o as [s'|]; [by destruct (rehash HashFn ShardBits 0 s')|done]. }
  by rewrite (Hfor _ _ Ho).
Qed.

(** A map with one segment that holds one element. *)
Definition demo_segment : Segment Z Z :=
  mkSegment {[1%nat := mkNode 5 7 1]} {[Slot 0 0 := 1%nat]} {[0%nat := 1]} 0 1 default_load_factor 1 [] 2.

Lemma small_reserve_breaks_witness :
  reserve Z.abs 0 0 (mkMap 1 [Some demo_segment] default_load_factor) = None.
Proof.
  apply (small_reserve_breaks Z.abs 0 _ {[5 := 7]} 0); [lia| |done|change (NumShards 0) with 1; lia].
  constructor; [done|simpl; lia|].
  intros [|i] o Hi; simpl in Hi; [|done]. injection Hi as <-.
  destruct (insert_spec Z.abs 0 Z.abs_nonneg []
    (set_load default_load_factor 1 (set_bucket_list 0 (snd (new_bucket_list 1 null_segment)))) ∅ [[]] 5 7)
    as (s' & Ls' & Hs' & HR').
  - destruct (ctor_spec (V := Z) Z.abs 0 0 default_load_factor ltac:(lia)) as (s & Ls & Hs & HR & _ & _).
    assert (s = set_load default_load_factor 1 (set_bucket_list 0 (snd (new_bucket_list 1 null_segment)))) as ->.
    { vm_compute in Hs. vm_compute. congruence. }
    assert (length Ls = 1%nat) as HLs by (pose proof (rp_list _ _ _ _ _ (proj2 HR)) as E; change (Some 1 = Some (Z.of_nat (length Ls))) in E; injection E; lia).
    assert (Ls = [[]]) as <-; [|done].
    destruct Ls as [|L [|]]; simpl in HLs; try lia.
    pose proof (size_of_map _ _ _ _ _ (proj2 HR)) as E. pose proof (rp_size _ _ _ _ _ (proj2 HR)) as E2.
    simpl in E, E2. destruct L; [done|simpl in E2; lia].
  - intros n nd Hn. by vm_compute in Hn.
  - simpl. lia.
  - simpl. lia.
  - exists Ls'. replace (part Z.abs 0 0 {[5 := 7]}) with (<[5 := 7]> (∅ : gmap Z Z)) by (vm_compute; reflexivity).
    replace demo_segment with s'; [done|]. vm_compute in Hs'. vm_compute. congruence.
Defined.
