(* ===== verification/HashShards.v ===== *)
(** Any number of threads on the sharded map of src/src/concurrent/concurrent_hashmap.h: the
    array of atomic segment pointers, the race of [ensureSegment], and the calls of [insert],
    [emplace], [find], [erase] and [size] between them.

    A thread takes one step per access to the array and one per allocation or deletion of a
    segment. A call on a segment is one step: writers of a segment hold its mutex, and
    HashReaders.v shows that its lock-free [find] answers for one moment of the call. What the
    map needs of a segment is the interface [SegmentOps] with [SegmentLaws]; the segment of
    HashSegment.v implements it. [clear] and [reserve] may not run concurrently
    ([HashReaders.clears_race], [HashReaders.rehash_loses_insert]) and are in HashMap.v. *)
From Stdlib Require Import Floats.SpecFloat.
From S2P Require Import Prelude Bits HashSegment HashMap.

(** * What the map needs of a segment *)

Class SegmentOps (K V S : Type) := {
  seg_new : Z -> spec_float -> option S;
  seg_insert : K -> V -> S -> option (bool * S);
  seg_emplace : K -> V -> S -> option (bool * S);
  seg_find : K -> S -> option (option V);
  seg_erase : K -> S -> option S;
  seg_size : S -> Z;
  (* deletion of the [j]-th object the segment has retired *)
  seg_reclaim : nat -> S -> option S;
  (* no machine integer of the segment is close to its limit *)
  seg_small : S -> bool
}.

Class SegmentLaws (K V S : Type) `{Countable K} {O : SegmentOps K V S} := {
  seg_is : S -> gmap K V -> Prop;
  seg_new_is c lf : 0 <= c <= 2 ^ 61 -> exists s, seg_new c lf = Some s /\ seg_is s ∅;
  seg_insert_is k v s X : seg_is s X -> seg_small s = true ->
    exists s', seg_insert k v s = Some (true, s') /\ seg_is s' (<[k := v]> X);
  seg_emplace_is k v s X : seg_is s X -> seg_small s = true ->
    exists s', seg_emplace k v s = Some (true, s') /\ seg_is s' (<[k := v]> X);
  seg_find_is k s X : seg_is s X -> seg_small s = true -> seg_find k s = Some (X !! k);
  seg_erase_is k s X : seg_is s X -> seg_small s = true ->
    exists s', seg_erase k s = Some s' /\ seg_is s' (delete k X);
  seg_size_is s X : seg_is s X -> seg_size s = Z.of_nat (size X);
  seg_reclaim_is j s X : seg_is s X -> exists s', seg_reclaim j s = Some s' /\ seg_is s' X
}.

(** * Threads *)

Inductive Call {K V : Type} :=
  | CInsert (k : K) (v : V) | CEmplace (k : K) (v : V) | CFind (k : K) | CErase (k : K) | CSize.
Arguments Call : clear implicits.

(** The next access of a thread: load the pointer of its segment, allocate a segment, exchange
    the pointer, delete the segment that lost against [q], call the segment; [size] loads and
    asks one segment after the other. *)
Inductive MPC {V : Type} :=
  | MLoad | MNew | MCas (p : nat) | MLost (p q : nat) | MCall (p : nat)
  | MSizeLoad (i : nat) (result : Z) | MSizeCall (i : nat) (result : Z) (p : nat)
  | MDone (r : MapRes (V := V)).
Arguments MPC : clear implicits.

Section shards.
Context {K V S : Type} `{Countable K} {O : SegmentOps K V S} (HashFn : K -> Z) (ShardBits : Z).

(** [since] is the length of the log when the call began, [seen] what it was when [size] asked
    each segment. *)
Record Thread := mkThread { call : Call K V; mpc : MPC V; since : nat; seen : list nat }.

(** The log of the calls that took effect is a history. *)
Record World := mkWorld {
  pointers : list (option nat);
  heap : gmap nat S;
  capacity_ : Z;
  load_factor_ : spec_float;
  threads : list Thread;
  log : list (nat * Call K V * MapRes (V := V))
}.

Definition set_pointers x w := mkWorld x (heap w) (capacity_ w) (load_factor_ w) (threads w) (log w).
Definition set_heap x w := mkWorld (pointers w) x (capacity_ w) (load_factor_ w) (threads w) (log w).
Definition set_threads x w := mkWorld (pointers w) (heap w) (capacity_ w) (load_factor_ w) x (log w).
Definition set_log x w := mkWorld (pointers w) (heap w) (capacity_ w) (load_factor_ w) (threads w) x.

(** The operation of the sequential map that a call stands for. *)
Definition op_of (c : Call K V) : MapOp (K := K) (V := V) :=
  match c with
  | CInsert k v => MInsert k v | CEmplace k v => MEmplace k v | CFind k => MFind k
  | CErase k => MErase k | CSize => MSize
  end.

Definition key_of (c : Call K V) : option K :=
  match c with CInsert k _ | CEmplace k _ | CFind k | CErase k => Some k | CSize => None end.

(** [pickSegment]. *)
Definition shard_of (k : K) : nat := shard HashFn ShardBits k.

Definition goto (i : nat) (p : MPC V) (t : Thread) (w : World) : World :=
  set_threads (<[i := mkThread (call t) p (since t) (seen t)]> (threads w)) w.

(** The call of thread [i] takes effect and returns [r]. *)
Definition finish (i : nat) (r : MapRes (V := V)) (t : Thread) (w : World) : World :=
  set_log (log w ++ [(i, call t, r)]) (goto i (MDone r) t w).

(** The address a new segment gets: the one asked for, if it is free. *)
Definition alloc (a : nat) (h : gmap nat S) : nat :=
  match h !! a with None => a | Some _ => new_id h end.

Open Scope wizard_scope.

(** A call on a segment. *)
Definition seg_call (c : Call K V) (s : S) : option (MapRes (V := V) * S) :=
  match c with
  | CInsert k v => r <-? seg_insert k v s; Some (MBool (fst r), snd r)
  | CEmplace k v => r <-? seg_emplace k v s; Some (MBool (fst r), snd r)
  | CFind k => r <-? seg_find k s; Some (MValue r, s)
  | CErase k => s1 <-? seg_erase k s; Some (MUnit, s1)
  | CSize => None
  end.

(** The segment pointer was null. *)
Definition on_null (i : nat) (t : Thread) (w : World) : World :=
  match call t with
  | CFind _ => finish i (MValue None) t w
  | CErase _ => finish i MUnit t w
  | _ => goto i MNew t w
  end.

(** One step of thread [i]; [a] is the address it gets if it allocates. *)
Definition thread_step (i a : nat) (t : Thread) (w : World) : option World :=
  match mpc t with
  | MLoad =>
      k <-? key_of (call t);
      o <-? pointers w !! shard_of k;
      Some (match o with Some p => goto i (MCall p) t w | None => on_null i t w end)
  | MNew =>
      s <-? seg_new (Z.shiftr (capacity_ w) ShardBits) (load_factor_ w);
      let p := alloc a (heap w) in
      Some (goto i (MCas p) t (set_heap (<[p := s]> (heap w)) w))
  | MCas p =>
      k <-? key_of (call t);
      o <-? pointers w !! shard_of k;
      Some (match o with
            | None => goto i (MCall p) t (set_pointers (<[shard_of k := Some p]> (pointers w)) w)
            | Some q => goto i (MLost p q) t w
            end)
  | MLost p q =>
      _ <-? heap w !! p;
      Some (goto i (MCall q) t (set_heap (delete p (heap w)) w))
  | MCall p =>
      s <-? heap w !! p;
      r <-? seg_call (call t) s;
      Some (finish i (fst r) t (set_heap (<[p := snd r]> (heap w)) w))
  | MSizeLoad j result =>
      if decide (j < Z.to_nat (NumShards ShardBits))%nat then
        o <-? pointers w !! j;
        Some (match o with
              | Some p => goto i (MSizeCall j result p) t w
              | None => goto i (MSizeLoad (j + 1) result)
                          (mkThread (call t) (mpc t) (since t) (seen t ++ [length (log w)])) w
              end)
      else Some (goto i (MDone (MNum result)) t w)
  | MSizeCall j result p =>
      s <-? heap w !! p;
      Some (goto i (MSizeLoad (j + 1) (u64 (result + seg_size s)))
              (mkThread (call t) (mpc t) (since t) (seen t ++ [length (log w)])) w)
  | MDone _ => Some w
  end.

(** A new call, the next step of a thread, the deletion of a retired object of a segment. *)
Inductive Act := AStart (c : Call K V) | AThread (i a : nat) | AReclaim (p j : nat).

Definition start_thread (c : Call K V) (n : nat) : Thread :=
  mkThread c (match c with CSize => MSizeLoad 0 0 | _ => MLoad end) n [].

Definition step (a : Act) (w : World) : option World :=
  match a with
  | AStart c => Some (set_threads (threads w ++ [start_thread c (length (log w))]) w)
  | AThread i a =>
      match threads w !! i with
      | Some t => thread_step i a t w
      | None => Some w
      end
  | AReclaim p j =>
      match heap w !! p with
      | Some s => s1 <-? seg_reclaim j s; Some (set_heap (<[p := s1]> (heap w)) w)
      | None => Some w
      end
  end.

Fixpoint run (l : list Act) (w : World) : option World :=
  match l with
  | [] => Some w
  | a :: l => w1 <-? step a w; run l w1
  end.
Close Scope wizard_scope.

(** A map as the constructors leave it. *)
Definition start (capacity : Z) (lf : spec_float) : World :=
  mkWorld (replicate (Z.to_nat (NumShards ShardBits)) None) ∅ capacity lf [] [].

Definition world_small (w : World) : bool :=
  forallb (fun p => seg_small (snd p)) (map_to_list (heap w)).

Fixpoint all_small (l : list Act) (w : World) : bool :=
  world_small w &&
  match l with
  | [] => true
  | a :: l => match step a w with Some w1 => all_small l w1 | None => true end
  end.

(** * Histories *)

(** The map after the first [n] calls of the log. *)
Definition map_at (n : nat) (lg : list (nat * Call K V * MapRes (V := V))) : gmap K V :=
  foldl (fun M e => snd (map_spec (op_of (snd (fst e))) M)) ∅ (take n lg).

(** Every call of the log returned what the map of that moment says. *)
Definition legal (lg : list (nat * Call K V * MapRes (V := V))) : Prop :=
  forall n i c r, lg !! n = Some (i, c, r) -> r = fst (map_spec (op_of c) (map_at n lg)).

(** What [size] adds up: the sizes the segments had at the moments [ts]. *)
Fixpoint sizes_at (lg : list (nat * Call K V * MapRes (V := V))) (j : nat) (ts : list nat) (result : Z) : Z :=
  match ts with
  | [] => result
  | t :: ts => sizes_at lg (j + 1) ts
                 (u64 (result + Z.of_nat (size (part HashFn ShardBits j (map_at t lg)))))
  end.
End shards.

Arguments Thread : clear implicits.
Arguments World : clear implicits.
Arguments Act : clear implicits.

(** * The interface is implemented *)

Section segment.
Context {K V : Type} `{Countable K} (HashFn : K -> Z) (ShardBits : Z).

Open Scope wizard_scope.

(** The node of [emplace] is made by the map and deleted by it if it is refused. *)
Definition emplace_node (k : K) (v : V) (s : Segment K V) : option (bool * Segment K V) :=
  let (new, s1) := new_node k v s in
  r <-? emplace HashFn ShardBits (HashFn k) k new s1;
  if fst r then Some r else s2 <-? delete_node new (snd r); Some (false, s2).

Definition find_value (k : K) (s : Segment K V) : option (option V) :=
  r <-? find ShardBits (HashFn k) k s;
  match r with Some it => v <-? deref it s; Some (Some v) | None => Some None end.

Definition reclaim_some (j : nat) (s : Segment K V) : option (Segment K V) :=
  if decide (j < length (retired s))%nat then reclaim j s else Some s.
Close Scope wizard_scope.

#[export] Instance segment_ops : SegmentOps K V (Segment K V) := {
  seg_new := ConcurrentHashMapSegment;
  seg_insert k v s := insert HashFn ShardBits (HashFn k) k v s;
  seg_emplace := emplace_node;
  seg_find := find_value;
  seg_erase k s := erase ShardBits (HashFn k) k s;
  seg_size s := size_ s;
  seg_reclaim := reclaim_some;
  seg_small := small
}.

Definition repr (s : Segment K V) (X : gmap K V) : Prop := exists Ls, Repr HashFn ShardBits [] s X Ls.

Lemma repr_small s X :
  repr s X -> small s = true -> exists Ls, Repr HashFn ShardBits [] s X Ls /\ few s /\
    Z.of_nat (length Ls) < 2 ^ 62 /\ size_ s < 2 ^ 64 - 1.
Proof. intros (Ls & HR) Hs. exists Ls. split; [done|]. by apply (small_spec _ _ s X Ls (proj2 HR)). Qed.

Context (Hhash : forall k, 0 <= HashFn k).

#[export] Instance segment_laws : SegmentLaws K V (Segment K V).
Proof.
  apply (Build_SegmentLaws K V _ _ _ _ repr).
  - intros c lf Hc. destruct (ctor_spec (V := V) HashFn ShardBits c lf Hc) as (s & Ls & Hs & HR & _).
    exists s. split; [done|]. by exists Ls.
  - intros k v s X HX Hs. destruct (repr_small s X HX Hs) as (Ls & HR & Hfew & Hlen & Hsz).
    destruct (insert_spec HashFn ShardBits Hhash [] s X Ls k v HR Hfew Hlen Hsz) as (s' & Ls' & ? & ?).
    exists s'. split; [done|]. by exists Ls'.
  - intros k v s X HX Hs. destruct (repr_small s X HX Hs) as (Ls & HR & Hfew & Hlen & Hsz).
    cbn [seg_emplace segment_ops]. unfold emplace_node. destruct (new_node k v s) as [n s1] eqn:Hn.
    destruct (new_node_repr HashFn ShardBits [] s _ Ls k v n s1 HR Hfew Hn) as (H1 & Hfew1 & HF1 & Hsz1 & _).
    destruct (insert_internal_spec HashFn ShardBits Hhash [] s1 _ Ls k v n H1 Hfew1 HF1 Hlen ltac:(lia))
      as (s' & Ls' & Hi & HR').
    unfold emplace. rewrite Hi. exists s'. split; [done|]. by exists Ls'.
  - intros k s X HX Hs. destruct (repr_small s X HX Hs) as (Ls & HR & Hfew & Hlen & Hsz).
    cbn [seg_find segment_ops]. unfold find_value.
    pose proof (find_spec HashFn ShardBits Hhash s X Ls k (proj2 HR) ltac:(lia)) as Hf.
    destruct (X !! k); [|by rewrite Hf]. destruct Hf as (it & -> & ->). done.
  - intros k s X HX Hs. destruct (repr_small s X HX Hs) as (Ls & HR & Hfew & Hlen & Hsz).
    destruct (erase_spec HashFn ShardBits Hhash [] s X Ls k HR Hfew Hlen ltac:(lia)) as (s' & Ls' & ? & ?).
    exists s'. split; [done|]. by exists Ls'.
  - intros s X (Ls & HR). apply (size_of_map _ _ _ _ _ (proj2 HR)).
  - intros j s X (Ls & HR). cbn [seg_reclaim segment_ops]. unfold reclaim_some.
    destruct (decide _) as [Hj|]; [|exists s; split; [done|by exists Ls]].
    destruct (lookup_lt_is_Some_2 _ _ Hj) as [o Ho].
    destruct (reclaim_spec HashFn ShardBits Hhash [] s X Ls j o HR Ho) as (s' & ? & ? & _).
    exists s'. split; [done|]. by exists Ls.
Defined.
End segment.

(** * What concurrent calls preserve *)

Section proofs.
Context {K V S : Type} `{Countable K} {O : SegmentOps K V S} {L : SegmentLaws K V S}
  (HashFn : K -> Z) (ShardBits : Z) (Hbits : 0 <= ShardBits <= 30).
Implicit Types (c : Call K V) (t : Thread K V) (w : World K V S) (M X : gmap K V).

Notation part := (part HashFn ShardBits).
Notation shard_of := (shard_of HashFn ShardBits).
Notation events := (list (nat * Call K V * MapRes (V := V))).
Notation shards := (Z.to_nat (NumShards ShardBits)).

(** ** One call *)

Lemma keyed_result c k M :
  key_of c = Some k ->
  fst (map_spec (op_of c) M) = fst (map_spec (op_of c) (part (shard_of k) M)).
Proof. destruct c; intros [= ->]; cbn [op_of map_spec fst]; [done..| |done]. by rewrite part_lookup. Qed.

Lemma keyed_part c k M j :
  key_of c = Some k ->
  part j (snd (map_spec (op_of c) M)) =
    if decide (shard_of k = j) then snd (map_spec (op_of c) (part j M)) else part j M.
Proof.
  intros Hk. destruct c; simplify_eq/=; change (shard_of k) with (shard HashFn ShardBits k);
    rewrite ?part_insert, ?part_delete; by destruct (decide _).
Qed.

Lemma seg_call_spec c k s X :
  key_of c = Some k -> seg_is s X -> seg_small s = true ->
  exists s', seg_call c s = Some (fst (map_spec (op_of c) X), s') /\ seg_is s' (snd (map_spec (op_of c) X)).
Proof.
  intros Hk HX Hs. destruct c as [k' v|k' v|k'|k'|]; simplify_eq/=.
  - destruct (seg_insert_is k v s X HX Hs) as (s' & -> & ?). by exists s'.
  - destruct (seg_emplace_is k v s X HX Hs) as (s' & -> & ?). by exists s'.
  - rewrite (seg_find_is k s X HX Hs). by exists s.
  - destruct (seg_erase_is k s X HX Hs) as (s' & -> & ?). by exists s'.
Qed.

Lemma map_at_app (lg lg' : events) n : (n <= length lg)%nat -> map_at n (lg ++ lg') = map_at n lg.
Proof. intros Hn. unfold map_at. by rewrite take_app_le. Qed.

Lemma map_at_snoc (lg : events) i c r :
  map_at (length (lg ++ [(i, c, r)])) (lg ++ [(i, c, r)]) = snd (map_spec (op_of c) (map_at (length lg) lg)).
Proof. unfold map_at. by rewrite !firstn_all, foldl_app. Qed.

Lemma sizes_at_app (lg lg' : events) ts : forall j result,
  Forall (fun n => (n <= length lg)%nat) ts ->
  sizes_at HashFn ShardBits (lg ++ lg') j ts result = sizes_at HashFn ShardBits lg j ts result.
Proof.
  induction ts as [|n ts IH]; intros j result Hts; [done|]. apply Forall_cons in Hts as [Hn Hts].
  cbn [sizes_at]. rewrite map_at_app by done. by apply IH.
Qed.

Lemma sizes_at_snoc (lg : events) ts n : forall j result,
  sizes_at HashFn ShardBits lg j (ts ++ [n]) result =
    u64 (sizes_at HashFn ShardBits lg j ts result + Z.of_nat (size (part (j + length ts) (map_at n lg)))).
Proof.
  induction ts as [|m ts IH]; intros j result; cbn [sizes_at app length].
  - by rewrite Nat.add_0_r.
  - rewrite IH. do 3 f_equal. f_equal. f_equal. lia.
Qed.

(** ** The invariant *)

Definition private t : option nat := match mpc t with MCas p | MLost p _ => Some p | _ => None end.

(** The segments somebody owns: those of the array, and those of threads in [ensureSegment]. *)
Definition owned (ptrs : list (option nat)) (ths : list (Thread K V)) : list nat :=
  omap id ptrs ++ omap private ths.

Definition shard_is (h : gmap nat S) (o : option nat) X : Prop :=
  match o with Some p => exists s, h !! p = Some s /\ seg_is s X | None => X = ∅ end.

Record SharedOk (ptrs : list (option nat)) (h : gmap nat S) (own : list nat) M : Prop := {
  so_length : length ptrs = shards;
  so_nodup : NoDup own;
  so_heap : forall p, p ∈ own <-> is_Some (h !! p);
  so_shard : forall j o, ptrs !! j = Some o -> shard_is h o (part j M)
}.

Definition mine (i : nat) (lg : events) : events := filter (fun e => e.1.1 = i) lg.

(** The moments [ts] come one after the other, from [n] on. *)
Definition in_order (n : nat) (ts : list nat) : Prop :=
  forall a m, ts !! a = Some m -> (n <= m)%nat /\ forall b m', (a <= b)%nat -> ts !! b = Some m' -> (m <= m')%nat.

(** The thread's pointers, what it does to the array, and its entry in the log. *)
Definition pointer_ok (ptrs : list (option nat)) t : Prop :=
  match mpc t with
  | MLoad | MNew | MCas _ => is_Some (key_of (call t))
  | MLost _ p | MCall p => exists k, key_of (call t) = Some k /\ ptrs !! shard_of k = Some (Some p)
  | MSizeLoad _ _ => call t = CSize
  | MSizeCall j _ p => call t = CSize /\ ptrs !! j = Some (Some p)
  | MDone _ => True
  end.

Definition logged (i : nat) t (lg : events) : Prop :=
  match mpc t with
  | MDone r => call t <> CSize -> mine i lg = [(i, call t, r)] /\
      exists n, (since t <= n)%nat /\ lg !! n = Some (i, call t, r)
  | _ => mine i lg = []
  end.

Definition sum_ok t (lg : events) : Prop :=
  match mpc t with
  | MSizeLoad j z | MSizeCall j z _ => j = length (seen t) /\ (j <= shards)%nat /\
      z = sizes_at HashFn ShardBits lg 0 (seen t) 0 /\ 0 <= z < 2 ^ 64
  | MDone r => call t = CSize -> r = MNum (sizes_at HashFn ShardBits lg 0 (seen t) 0) /\
      length (seen t) = shards
  | _ => True
  end.

Record ThreadOk (ptrs : list (option nat)) (h : gmap nat S) (lg : events) (i : nat) t : Prop := {
  to_since : (since t <= length lg)%nat;
  to_seen : in_order (since t) (seen t) /\ Forall (fun n => (n <= length lg)%nat) (seen t);
  to_pointer : pointer_ok ptrs t;
  to_private : forall p, private t = Some p -> exists s, h !! p = Some s /\ seg_is s ∅;
  to_logged : logged i t lg;
  to_sum : sum_ok t lg
}.

Record Inv w : Prop := {
  inv_shared : SharedOk (pointers w) (heap w) (owned (pointers w) (threads w)) (map_at (length (log w)) (log w));
  inv_threads : forall i t, threads w !! i = Some t -> ThreadOk (pointers w) (heap w) (log w) i t;
  inv_capacity : 0 <= capacity_ w <= 2 ^ 61;
  inv_legal : legal (log w);
  inv_nobody : forall i, (length (threads w) <= i)%nat -> mine i (log w) = []
}.

(** What may change around a thread that does not move. *)
Lemma ThreadOk_mono ptrs h lg ptrs' h' lg' ev i t :
  ThreadOk ptrs h lg i t ->
  (forall j p, ptrs !! j = Some (Some p) -> ptrs' !! j = Some (Some p)) ->
  (forall p, private t = Some p -> h' !! p = h !! p) ->
  lg' = lg ++ ev -> mine i ev = [] ->
  ThreadOk ptrs' h' lg' i t.
Proof.
  intros [H1 [H2 H2'] H3 H4 H5 H6] Hp Hh -> Hev.
  assert (Hm : mine i (lg ++ ev) = mine i lg) by (unfold mine in *; rewrite filter_app, Hev; apply app_nil_r).
  constructor.
  - rewrite length_app. lia.
  - split; [done|]. eapply Forall_impl; [exact H2'|]. intros n Hn. rewrite length_app. simpl in Hn |- *. lia.
  - unfold pointer_ok in *. destruct (mpc t); naive_solver.
  - intros p Hpt. rewrite (Hh p Hpt). by apply H4.
  - unfold logged in *. rewrite Hm. destruct (mpc t); try done. intros Hc.
    destruct (H5 Hc) as (? & n & ? & Hn). split; [done|]. exists n. split; [done|].
    by apply lookup_app_l_Some.
  - unfold sum_ok in *. by rewrite sizes_at_app.
Qed.

Lemma owned_insert ptrs ths i t :
  ths !! i = Some t -> exists R, owned ptrs ths ≡ₚ omap private [t] ++ R /\
    forall t', owned ptrs (<[i := t']> ths) ≡ₚ omap private [t'] ++ R.
Proof.
  intros Hi. destruct (omap_insert_perm private ths i t Hi) as (R & H1 & H2).
  exists (omap id ptrs ++ R). unfold owned. split; [|intros t'].
  - rewrite H1. rewrite !app_assoc. by rewrite (Permutation_app_comm (omap id ptrs)).
  - rewrite H2. rewrite !app_assoc. by rewrite (Permutation_app_comm (omap id ptrs)).
Qed.

Lemma owned_install ptrs ths j p :
  ptrs !! j = Some None -> owned (<[j := Some p]> ptrs) ths ≡ₚ p :: owned ptrs ths.
Proof.
  intros Hj. destruct (omap_insert_perm id ptrs j None Hj) as (R & H1 & H2).
  unfold owned. by rewrite (H2 (Some p)), H1.
Qed.

Lemma SharedOk_perm ptrs h own own' M : own ≡ₚ own' -> SharedOk ptrs h own M -> SharedOk ptrs h own' M.
Proof.
  intros Hp [H1 H2 H3 H4]. constructor; [done| | |done].
  - by rewrite <-Hp.
  - intros p. by rewrite <-Hp.
Qed.

#[local] Instance SharedOk_proper ptrs h :
  Proper ((≡ₚ) ==> eq ==> iff) (SharedOk ptrs h).
Proof. intros own own' Hp M M' <-. split; by apply SharedOk_perm. Qed.

(** A thread that moves without touching the log. *)
Lemma Inv_move w i t t' ptrs' h' :
  Inv w -> threads w !! i = Some t ->
  SharedOk ptrs' h' (owned ptrs' (<[i := t']> (threads w))) (map_at (length (log w)) (log w)) ->
  (forall j p, pointers w !! j = Some (Some p) -> ptrs' !! j = Some (Some p)) ->
  (forall i' t2 p, i <> i' -> threads w !! i' = Some t2 -> private t2 = Some p -> h' !! p = heap w !! p) ->
  ThreadOk ptrs' h' (log w) i t' ->
  Inv (mkWorld ptrs' h' (capacity_ w) (load_factor_ w) (<[i := t']> (threads w)) (log w)).
Proof.
  intros [H1 H2 H3 H4 H5] Hi Hs Hp Hh Ht. constructor; simpl; [done| |done|done|].
  - intros i' t2 [(<- & <- & _)|[Hne Hi']]%list_lookup_insert_Some; [done|].
    eapply (ThreadOk_mono _ _ _ _ _ _ []); [by apply H2|done| |by rewrite app_nil_r|done].
    intros p Hpt. by eapply Hh.
  - intros i'. rewrite length_insert. apply H5.
Qed.

Lemma owned_pointer ptrs ths j p : ptrs !! j = Some (Some p) -> p ∈ owned ptrs ths.
Proof.
  intros Hj. apply elem_of_app. left. apply list_elem_of_omap. exists (Some p). split; [|done].
  by eapply list_elem_of_lookup_2.
Qed.

Lemma owned_private ptrs ths i t p : ths !! i = Some t -> private t = Some p -> p ∈ owned ptrs ths.
Proof.
  intros Hi Hp. apply elem_of_app. right. apply list_elem_of_omap. exists t. split; [|done].
  by eapply list_elem_of_lookup_2.
Qed.

(** Nobody else owns what thread [i] owns, and the array does not hold it. *)
Lemma private_not_installed ptrs ths i t p j :
  NoDup (owned ptrs ths) -> ths !! i = Some t -> private t = Some p -> ptrs !! j <> Some (Some p).
Proof.
  intros (_ & Hd & _)%NoDup_app Hi Hp Hj. apply (Hd p); apply list_elem_of_omap.
  - exists (Some p). split; [|done]. by eapply list_elem_of_lookup_2.
  - exists t. split; [|done]. by eapply list_elem_of_lookup_2.
Qed.

Lemma private_unique ptrs ths i i' t t' p :
  NoDup (owned ptrs ths) -> ths !! i = Some t -> private t = Some p ->
  ths !! i' = Some t' -> private t' = Some p -> i = i'.
Proof.
  intros (_ & _ & Hd)%NoDup_app. revert i i'.
  induction ths as [|t0 ths IH]; intros [|i] [|i'] Hi Hp Hi' Hp'; simplify_eq/=; [done| | |].
  - rewrite Hp in Hd. apply NoDup_cons in Hd as [Hd _]. destruct Hd. apply list_elem_of_omap.
    exists t'. split; [by eapply list_elem_of_lookup_2|done].
  - rewrite Hp' in Hd. apply NoDup_cons in Hd as [Hd _]. destruct Hd. apply list_elem_of_omap.
    exists t. split; [by eapply list_elem_of_lookup_2|done].
  - f_equal. eapply IH; [|done..]. destruct (private t0); [by apply NoDup_cons in Hd as [_ ?]|done].
Qed.

(** Two shards do not share a segment. *)
Lemma pointers_distinct ptrs ths j j' p :
  NoDup (owned ptrs ths) -> ptrs !! j = Some (Some p) -> ptrs !! j' = Some (Some p) -> j = j'.
Proof.
  intros (Hd & _)%NoDup_app. revert j j'.
  induction ptrs as [|o ptrs IH]; intros [|j] [|j'] Hj Hj'; simplify_eq/=; [done| | |].
  - apply NoDup_cons in Hd as [Hd _]. destruct Hd. apply list_elem_of_omap.
    exists (Some p). split; [by eapply list_elem_of_lookup_2|done].
  - apply NoDup_cons in Hd as [Hd _]. destruct Hd. apply list_elem_of_omap.
    exists (Some p). split; [by eapply list_elem_of_lookup_2|done].
  - f_equal. eapply IH; [|done..]. destruct o; [by apply NoDup_cons in Hd as [_ ?]|done].
Qed.

Lemma mine_snoc i i' c r (lg : events) :
  mine i (lg ++ [(i', c, r)]) = mine i lg ++ (if decide (i' = i) then [(i', c, r)] else []).
Proof. unfold mine. rewrite filter_app. f_equal. Qed.

Lemma legal_snoc (lg : events) i c r :
  legal lg -> r = fst (map_spec (op_of c) (map_at (length lg) lg)) -> legal (lg ++ [(i, c, r)]).
Proof.
  intros Hl Hr n i' c' r' [Hn|[Hge Hn]]%lookup_app_Some.
  - rewrite map_at_app by (apply lookup_lt_Some in Hn; lia). by eapply Hl.
  - apply list_lookup_singleton_Some in Hn as [Hn [= <- <- <-]].
    replace n with (length lg) by lia. by rewrite map_at_app.
Qed.

(** A call that takes effect on its segment. *)
Lemma Inv_finish w i t k h' M :
  M = map_at (length (log w)) (log w) ->
  Inv w -> threads w !! i = Some t -> key_of (call t) = Some k -> private t = None ->
  mine i (log w) = [] ->
  (forall p, is_Some (h' !! p) <-> is_Some (heap w !! p)) ->
  (forall p o, pointers w !! shard_of k <> Some (Some p) -> o = heap w !! p -> h' !! p = o) ->
  (forall o, pointers w !! shard_of k = Some o ->
    shard_is h' o (snd (map_spec (op_of (call t)) (part (shard_of k) M)))) ->
  Inv (finish i (fst (map_spec (op_of (call t)) M)) t (set_heap h' w)).
Proof.
  intros HM [Hs Ht Hc Hl Hn] Hi Hk Hp Hm Hdom Hh Hsh. subst M. set (M := map_at _ _) in *. pose proof Hs as [S1 S2 S3 S4].
  destruct (owned_insert (pointers w) _ _ _ Hi) as (R & HR & HR').
  set (t' := mkThread (call t) (MDone (fst (map_spec (op_of (call t)) M))) (since t) (seen t)).
  assert (Hown : owned (pointers w) (<[i := t']> (threads w)) ≡ₚ owned (pointers w) (threads w))
    by (rewrite HR', HR; cbn; by rewrite Hp).
  pose proof (Ht _ _ Hi) as [T1 T2 T3 T4 T5 T6].
  constructor; simpl.
  - fold t'. rewrite Hown, map_at_snoc. fold M. constructor; [done|done| |].
    + intros p. rewrite Hdom. apply S3.
    + intros j o Hj. rewrite (keyed_part _ _ _ _ Hk). destruct (decide _) as [<-|Hne]; [by apply Hsh|].
      pose proof (S4 j o Hj) as Hjs. destruct o as [p|]; [|done]. simpl in Hjs |- *.
      rewrite (Hh p (heap w !! p)); [done| |done].
      intros Hp'. apply Hne. by eapply pointers_distinct.
  - fold t'. intros i' t2 [(<- & <- & _)|[Hne Hi']]%list_lookup_insert_Some.
    + constructor; simpl.
      * rewrite length_app. lia.
      * split; [apply T2|]. eapply Forall_impl; [apply T2|]. intros n Hn'. rewrite length_app. simpl in *. lia.
      * done.
      * done.
      * unfold logged. simpl. intros _. rewrite mine_snoc, Hm, decide_True by done. split; [done|].
        exists (length (log w)). split; [done|]. by rewrite lookup_app_r, Nat.sub_diag by done.
      * unfold sum_ok. simpl. intros E. rewrite E in Hk. done.
    + eapply (ThreadOk_mono _ _ _ _ _ _ [_]); [by apply Ht|done| |done|].
      * intros p Hpt. apply Hh; [|done]. by eapply private_not_installed.
      * change [(i, call t, ?r)] with ([] ++ [(i, call t, r)]). rewrite mine_snoc. by rewrite decide_False.
  - done.
  - by apply legal_snoc.
  - intros i'. rewrite length_insert. intros Hle. rewrite mine_snoc, (Hn i' Hle). simpl.
    rewrite decide_False; [done|]. intros <-. apply lookup_lt_Some in Hi. lia.
Qed.

Lemma set_heap_id w : set_heap (heap w) w = w.
Proof. by destruct w. Qed.

Lemma world_small_lookup w p s : world_small w = true -> heap w !! p = Some s -> seg_small s = true.
Proof.
  unfold world_small. rewrite forallb_forall. intros Hs Hp. apply (Hs (p, s)).
  by apply list_elem_of_In, elem_of_map_to_list.
Qed.

Lemma shard_of_lookup w k : Inv w -> is_Some (pointers w !! shard_of k).
Proof.
  intros [Hs _ _ _ _]. apply lookup_lt_is_Some_2. rewrite (so_length _ _ _ _ Hs).
  by apply shard_lt.
Qed.

Lemma alloc_fresh a (h : gmap nat S) : h !! alloc a h = None.
Proof. unfold alloc. destruct (h !! a) eqn:E; [apply new_id_fresh|done]. Qed.

(** Steps that leave the array and the heap alone. *)
Lemma Inv_quiet w i t t' :
  Inv w -> threads w !! i = Some t -> private t' = private t ->
  ThreadOk (pointers w) (heap w) (log w) i t' ->
  Inv (set_threads (<[i := t']> (threads w)) w).
Proof.
  intros HI Hi Hp Ht. apply (Inv_move w i t); [done..| |done|done|done].
  destruct (owned_insert (pointers w) _ _ _ Hi) as (R & HR & HR'). rewrite HR'. cbn in HR |- *. rewrite Hp, <-HR. apply HI.
Qed.

Lemma goto_ok w i t p :
  Inv w -> threads w !! i = Some t ->
  let t' := mkThread (call t) p (since t) (seen t) in
  private t' = private t -> pointer_ok (pointers w) t' -> logged i t' (log w) -> sum_ok t' (log w) ->
  Inv (goto i p t w).
Proof.
  intros HI Hi t' Hp Hpt Hlg Hsum. apply Inv_quiet with (t := t); [done..|].
  destruct (inv_threads _ HI _ _ Hi) as [T1 T2 T3 T4 T5 T6]. constructor; [done..| |done|done].
  fold t'. rewrite Hp. done.
Qed.

Lemma load_step_ok w i t k :
  Inv w -> threads w !! i = Some t -> mpc t = MLoad -> key_of (call t) = Some k ->
  exists o, pointers w !! shard_of k = Some o /\
    Inv (match o with Some p => goto i (MCall p) t w | None => on_null i t w end).
Proof.
  intros HI Hi Hpc Hk. destruct (shard_of_lookup w k HI) as [o Ho]. exists o. split; [done|].
  pose proof (inv_threads _ HI _ _ Hi) as [T1 T2 T3 T4 T5 T6].
  assert (Hm : mine i (log w) = []) by (unfold logged in T5; by rewrite Hpc in T5).
  assert (Hpr : private t = None) by (unfold private; by rewrite Hpc).
  destruct o as [p|].
  - apply goto_ok; try done. by exists k.
  - pose proof (so_shard _ _ _ _ (inv_shared _ HI) _ _ Ho) as Hempty. simpl in Hempty.
    assert (Hfin : forall r, r = fst (map_spec (op_of (call t)) (∅ : gmap K V)) ->
      snd (map_spec (op_of (call t)) (∅ : gmap K V)) = ∅ -> Inv (finish i r t w)).
    { intros r -> He. rewrite <-(set_heap_id w), <-Hempty, <-(keyed_result _ _ _ Hk).
      apply (Inv_finish w i t k); [done..|by intros ? ? _ ->|].
      intros o. rewrite Ho, Hempty. by intros [= <-]. }
    unfold on_null. destruct (call t) as [k' v|k' v|k'|k'|] eqn:Hc; simplify_eq/=.
    + apply goto_ok; try done; unfold private, pointer_ok; simpl; by rewrite ?Hpc, ?Hc.
    + apply goto_ok; try done; unfold private, pointer_ok; simpl; by rewrite ?Hpc, ?Hc.
    + apply Hfin; [done|done].
    + apply Hfin; [done|]. apply delete_empty.
Qed.

Lemma new_step_ok w i a t :
  Inv w -> threads w !! i = Some t -> mpc t = MNew ->
  exists s, seg_new (Z.shiftr (capacity_ w) ShardBits) (load_factor_ w) = Some s /\
    let p := alloc a (heap w) in Inv (goto i (MCas p) t (set_heap (<[p := s]> (heap w)) w)).
Proof.
  intros HI Hi Hpc. pose proof (inv_threads _ HI _ _ Hi) as [T1 T2 T3 T4 T5 T6].
  pose proof (inv_capacity _ HI) as Hcap.
  destruct (seg_new_is (Z.shiftr (capacity_ w) ShardBits) (load_factor_ w)) as (s & Hs & Hse).
  { rewrite Z.shiftr_div_pow2 by lia. assert (1 <= 2 ^ ShardBits) by (apply (Z.pow_le_mono_r 2 0); lia).
    split; [apply Z.div_pos; lia|]. transitivity (capacity_ w); [|lia]. apply Z.div_le_upper_bound; nia. }
  exists s. split; [done|]. intros p. pose proof (alloc_fresh a (heap w)) as Hp. fold p in Hp.
  destruct (inv_shared _ HI) as [S1 S2 S3 S4].
  destruct (owned_insert (pointers w) _ _ _ Hi) as (R & HR & HR').
  assert (Hpr : private t = None) by (unfold private; by rewrite Hpc).
  assert (Hnew : p ∉ owned (pointers w) (threads w)) by (rewrite S3, Hp; by intros [? ?]).
  assert (Hh : forall q, q ∈ owned (pointers w) (threads w) -> <[p := s]> (heap w) !! q = heap w !! q)
    by (intros q Hq; apply lookup_insert_ne; by intros ->).
  apply (Inv_move w i t); simpl; try done.
  - rewrite HR'. cbn in HR |- *. rewrite Hpr in HR. rewrite <-HR. constructor; [done| | |].
    + by constructor.
    + intros q. rewrite elem_of_cons, S3. destruct (decide (q = p)) as [->|Hne].
      * rewrite lookup_insert_eq. split; [done|by left].
      * rewrite lookup_insert_ne by done. naive_solver.
    + intros j o Hj. specialize (S4 j o Hj). destruct o as [q|]; [|done]. simpl in S4 |- *.
      rewrite Hh; [done|]. by eapply owned_pointer.
  - intros i' t2 q Hne Hi' Hq. apply Hh. by eapply owned_private.
  - constructor; try done.
    + unfold pointer_ok in *. by rewrite Hpc in T3.
    + intros q [= <-]. exists s. by rewrite lookup_insert_eq.
    + unfold logged in *. by rewrite Hpc in T5.
Qed.

Lemma cas_step_ok w i t p k :
  Inv w -> threads w !! i = Some t -> mpc t = MCas p -> key_of (call t) = Some k ->
  exists o, pointers w !! shard_of k = Some o /\
    Inv (match o with
         | None => goto i (MCall p) t (set_pointers (<[shard_of k := Some p]> (pointers w)) w)
         | Some q => goto i (MLost p q) t w
         end).
Proof.
  intros HI Hi Hpc Hk. destruct (shard_of_lookup w k HI) as [o Ho]. exists o. split; [done|].
  pose proof (inv_threads _ HI _ _ Hi) as [T1 T2 T3 T4 T5 T6].
  assert (Hm : mine i (log w) = []) by (unfold logged in T5; by rewrite Hpc in T5).
  assert (Hpr : private t = Some p) by (unfold private; by rewrite Hpc).
  destruct o as [q|].
  - apply goto_ok; try done. by exists k.
  - destruct (inv_shared _ HI) as [S1 S2 S3 S4].
    destruct (owned_insert (pointers w) _ _ _ Hi) as (R & HR & HR').
    apply (Inv_move w i t); simpl; try done.
    + rewrite (owned_install _ _ _ _ Ho), HR'. cbn.
      cbn in HR. rewrite Hpr in HR. rewrite <-HR. constructor.
      * by rewrite length_insert.
      * done.
      * done.
      * intros j o [(<- & <- & _)|[_ Hj]]%list_lookup_insert_Some; [|by apply S4].
        rewrite (S4 _ _ Ho : part _ _ = ∅). by apply T4.
    + intros j q Hj. rewrite list_lookup_insert_ne; [done|]. intros <-. by rewrite Ho in Hj.
    + constructor; try done. exists k. split; [done|]. apply list_lookup_insert_eq. by eapply lookup_lt_Some.
Qed.

Lemma lost_step_ok w i t p q :
  Inv w -> threads w !! i = Some t -> mpc t = MLost p q ->
  is_Some (heap w !! p) /\ Inv (goto i (MCall q) t (set_heap (delete p (heap w)) w)).
Proof.
  intros HI Hi Hpc. pose proof (inv_threads _ HI _ _ Hi) as [T1 T2 T3 T4 T5 T6].
  assert (Hpr : private t = Some p) by (unfold private; by rewrite Hpc).
  destruct (T4 p Hpr) as (s & Hs & _). split; [by exists s|].
  destruct (inv_shared _ HI) as [S1 S2 S3 S4].
  destruct (owned_insert (pointers w) _ _ _ Hi) as (R & HR & HR').
  cbn in HR. rewrite Hpr in HR. cbn in HR.
  assert (Hnd : (p ∉ R) /\ NoDup R) by (rewrite HR in S2; by apply NoDup_cons in S2).
  apply (Inv_move w i t); simpl; try done.
  - rewrite HR'. cbn. constructor; [done|by apply Hnd| |].
    + intros r. destruct (decide (r = p)) as [->|Hne].
      * rewrite lookup_delete_eq. split; [intros Hin; by destruct Hnd|by intros [? ?]].
      * rewrite lookup_delete_ne by done. rewrite <-S3, HR, elem_of_cons. naive_solver.
    + intros j o Hj. pose proof (S4 j o Hj) as Hjs. destruct o as [r|]; [|done]. simpl in Hjs |- *.
      rewrite lookup_delete_ne; [done|]. intros <-. by eapply private_not_installed.
  - intros i' t2 r Hne Hi' Hr. apply lookup_delete_ne. intros <-. apply Hne. by eapply private_unique.
  - constructor; try done.
    + unfold pointer_ok in *. by rewrite Hpc in T3.
    + unfold logged in *. by rewrite Hpc in T5.
Qed.

Lemma call_step_ok w i t p :
  Inv w -> world_small w = true -> threads w !! i = Some t -> mpc t = MCall p ->
  exists s r, heap w !! p = Some s /\ seg_call (call t) s = Some r /\
    Inv (finish i (fst r) t (set_heap (<[p := snd r]> (heap w)) w)).
Proof.
  intros HI Hsm Hi Hpc. pose proof (inv_threads _ HI _ _ Hi) as [T1 T2 T3 T4 T5 T6].
  unfold pointer_ok in T3. rewrite Hpc in T3. destruct T3 as (k & Hk & Hp).
  destruct (so_shard _ _ _ _ (inv_shared _ HI) _ _ Hp) as (s & Hs & HX).
  destruct (seg_call_spec _ k s _ Hk HX (world_small_lookup _ _ _ Hsm Hs)) as (s' & Hcall & HX').
  exists s, (fst (map_spec (op_of (call t)) (part (shard_of k) (map_at (length (log w)) (log w)))), s').
  split_and!; [done|done|]. cbn [fst snd]. rewrite <-(keyed_result _ _ _ Hk).
  apply (Inv_finish w i t k); try done.
  - unfold private. by rewrite Hpc.
  - unfold logged in T5. by rewrite Hpc in T5.
  - intros q. destruct (decide (q = p)) as [->|Hne].
    + rewrite lookup_insert_eq. naive_solver.
    + by rewrite lookup_insert_ne.
  - intros q o Hq ->. apply lookup_insert_ne. intros <-. done.
  - intros o Ho. rewrite Hp in Ho. injection Ho as <-. exists s'. by rewrite lookup_insert_eq.
Qed.

Lemma in_order_snoc n ts m :
  in_order n ts -> Forall (fun m' => (m' <= m)%nat) ts -> (n <= m)%nat -> in_order n (ts ++ [m]).
Proof.
  intros Ho Hle Hn a x [Ha|[Hge Ha]]%lookup_app_Some.
  - destruct (Ho a x Ha) as [H1 H2]. split; [done|].
    intros b y Hab [Hb|[_ Hb]]%lookup_app_Some; [by eapply H2|].
    apply list_lookup_singleton_Some in Hb as [_ <-]. rewrite Forall_lookup in Hle. by eapply Hle.
  - apply list_lookup_singleton_Some in Ha as [Ha <-]. split; [done|].
    intros b y Hab Hb. apply lookup_lt_Some in Hb as Hlt. rewrite length_app in Hlt. simpl in Hlt.
    rewrite lookup_app_r in Hb by lia. by apply list_lookup_singleton_Some in Hb as [_ <-].
Qed.

(** [size] adds one segment. *)
Lemma Inv_count w i t j z z' :
  Inv w -> threads w !! i = Some t -> (mpc t = MSizeLoad j z \/ exists p, mpc t = MSizeCall j z p) ->
  (j < shards)%nat ->
  z' = u64 (z + Z.of_nat (size (part j (map_at (length (log w)) (log w))))) ->
  Inv (goto i (MSizeLoad (j + 1) z') (mkThread (call t) (mpc t) (since t) (seen t ++ [length (log w)])) w).
Proof.
  intros HI Hi Hpc Hj ->. pose proof (inv_threads _ HI _ _ Hi) as [T1 [T2 T2'] T3 T4 T5 T6].
  assert (Hc : call t = CSize /\ mine i (log w) = [] /\ private t = None /\
    j = length (seen t) /\ z = sizes_at HashFn ShardBits (log w) 0 (seen t) 0).
  { unfold pointer_ok, logged, private, sum_ok in *. destruct Hpc as [E|[p E]]; rewrite E in *; naive_solver. }
  destruct Hc as (Hc & Hm & Hpr & Hlen & Hz).
  apply Inv_quiet with (t := t); [done..|]. constructor; simpl; try done.
  - split; [by apply in_order_snoc|]. apply Forall_app. split; [done|]. by apply Forall_singleton.
  - unfold sum_ok. simpl. rewrite length_app, sizes_at_snoc. simpl. rewrite <-Hlen, <-Hz.
    split_and!; [lia|lia|done|apply u64_range..].
Qed.

Lemma size_step_ok w i t j z :
  Inv w -> threads w !! i = Some t -> mpc t = MSizeLoad j z ->
  if decide (j < shards)%nat then
    exists o, pointers w !! j = Some o /\
      Inv (match o with
           | Some p => goto i (MSizeCall j z p) t w
           | None => goto i (MSizeLoad (j + 1) z)
                       (mkThread (call t) (mpc t) (since t) (seen t ++ [length (log w)])) w
           end)
  else Inv (goto i (MDone (MNum z)) t w).
Proof.
  intros HI Hi Hpc. pose proof (inv_threads _ HI _ _ Hi) as [T1 T2 T3 T4 T5 T6].
  unfold pointer_ok, logged, sum_ok in T3, T5, T6. rewrite Hpc in T3, T5, T6.
  destruct T6 as (Hlen & Hle & Hz & Hrange).
  assert (Hpr : private t = None) by (unfold private; by rewrite Hpc).
  destruct (decide _) as [Hj|Hj].
  - destruct (lookup_lt_is_Some_2 (pointers w) j) as [o Ho].
    { by rewrite (so_length _ _ _ _ (inv_shared _ HI)). }
    exists o. split; [done|]. destruct o as [p|].
    + by apply goto_ok.
    + apply (Inv_count w i t j z); [done|done|by left|done|].
      rewrite (so_shard _ _ _ _ (inv_shared _ HI) _ _ Ho : part _ _ = ∅), map_size_empty.
      by rewrite Z.add_0_r, u64_small.
  - apply goto_ok; try done.
    unfold sum_ok. simpl. intros _. split; [by rewrite <-Hz|lia].
Qed.

Lemma size_call_ok w i t j z p :
  Inv w -> threads w !! i = Some t -> mpc t = MSizeCall j z p ->
  exists s, heap w !! p = Some s /\
    Inv (goto i (MSizeLoad (j + 1) (u64 (z + seg_size s)))
           (mkThread (call t) (mpc t) (since t) (seen t ++ [length (log w)])) w).
Proof.
  intros HI Hi Hpc. pose proof (inv_threads _ HI _ _ Hi) as [T1 T2 T3 T4 T5 T6].
  unfold pointer_ok in T3. rewrite Hpc in T3. destruct T3 as [_ Hp].
  destruct (so_shard _ _ _ _ (inv_shared _ HI) _ _ Hp) as (s & Hs & HX). exists s. split; [done|].
  apply (Inv_count w i t j z); [done|done|by right; exists p| |by rewrite (seg_size_is _ _ HX)].
  apply lookup_lt_Some in Hp. by rewrite (so_length _ _ _ _ (inv_shared _ HI)) in Hp.
Qed.

Lemma thread_step_ok w i a t :
  Inv w -> world_small w = true -> threads w !! i = Some t ->
  exists w', thread_step HashFn ShardBits i a t w = Some w' /\ Inv w'.
Proof.
  intros HI Hsm Hi. pose proof (to_pointer _ _ _ _ _ (inv_threads _ HI _ _ Hi)) as Hp.
  unfold thread_step. unfold pointer_ok in Hp. destruct (mpc t) as [| |p|p q|p|j z|j z p|r] eqn:Hpc.
  - destruct Hp as [k Hk]. rewrite Hk. destruct (load_step_ok w i t k HI Hi Hpc Hk) as (o & -> & ?). eauto.
  - destruct (new_step_ok w i a t HI Hi Hpc) as (s & -> & ?). eauto.
  - destruct Hp as [k Hk]. rewrite Hk. destruct (cas_step_ok w i t p k HI Hi Hpc Hk) as (o & -> & ?). eauto.
  - destruct (lost_step_ok w i t p q HI Hi Hpc) as ([s ->] & ?). eauto.
  - destruct (call_step_ok w i t p HI Hsm Hi Hpc) as (s & r & -> & -> & ?). eauto.
  - pose proof (size_step_ok w i t j z HI Hi Hpc) as Hst. destruct (decide _); [|eauto].
    destruct Hst as (o & -> & ?). eauto.
  - destruct (size_call_ok w i t j z p HI Hi Hpc) as (s & -> & ?). rewrite Hpc in *. eauto.
  - eauto.
Qed.

Lemma reclaim_step_ok w p j s :
  Inv w -> heap w !! p = Some s ->
  exists s', seg_reclaim j s = Some s' /\ Inv (set_heap (<[p := s']> (heap w)) w).
Proof.
  intros [[S1 S2 S3 S4] Ht Hc Hl Hn] Hs.
  assert (Hin : p ∈ owned (pointers w) (threads w)) by (apply S3; by exists s).
  assert (Hcell : forall X q, (exists s0, heap w !! q = Some s0 /\ seg_is s0 X) -> q = p ->
    exists s', seg_reclaim j s = Some s' /\ seg_is s' X).
  { intros X q (s0 & Hq & HX) ->. rewrite Hs in Hq. injection Hq as <-. by apply seg_reclaim_is. }
  assert (exists X, seg_is s X) as [X HX].
  { apply elem_of_app in Hin as [Hin|Hin]; apply list_elem_of_omap in Hin as (x & Hx & E).
    - apply list_elem_of_lookup in Hx as [jj Hjj]. simpl in E. rewrite E in Hjj.
      destruct (S4 _ _ Hjj) as (s0 & Hs0 & ?). rewrite Hs in Hs0. injection Hs0 as <-. eauto.
    - apply list_elem_of_lookup in Hx as [i Hi].
      destruct (to_private _ _ _ _ _ (Ht _ _ Hi) _ E) as (s0 & Hs0 & ?).
      rewrite Hs in Hs0. injection Hs0 as <-. eauto. }
  destruct (seg_reclaim_is j s X HX) as (s' & Hr & _). exists s'. split; [done|].
  assert (Hkeep : forall Y q, (exists s0, heap w !! q = Some s0 /\ seg_is s0 Y) ->
    exists s0, <[p := s']> (heap w) !! q = Some s0 /\ seg_is s0 Y).
  { intros Y q Hq. destruct (decide (q = p)) as [->|Hne].
    - destruct (Hcell Y p Hq eq_refl) as (s2 & Hs2 & ?). rewrite Hr in Hs2. injection Hs2 as <-.
      exists s'. by rewrite lookup_insert_eq.
    - by rewrite lookup_insert_ne. }
  constructor; simpl; [|intros i t Hi|done..].
  - constructor; [done|done| |].
    + intros q. destruct (decide (q = p)) as [->|Hne].
      * rewrite lookup_insert_eq. split; [by intros; eexists|done].
      * by rewrite lookup_insert_ne.
    + intros jj o Ho. specialize (S4 jj o Ho). destruct o as [q|]; [|done]. by apply Hkeep.
  - destruct (Ht i t Hi) as [T1 T2 T3 T4 T5 T6]. constructor; try done. intros q Hq. by apply Hkeep, T4.
Qed.

Lemma start_step_ok w c :
  Inv w -> Inv (set_threads (threads w ++ [start_thread c (length (log w))]) w).
Proof.
  intros [Hs Ht Hc Hl Hn]. set (t' := start_thread c (length (log w))).
  assert (Hpr : private t' = None) by (by destruct c).
  constructor; simpl; [| |done|done|].
  - apply (SharedOk_perm _ _ (owned (pointers w) (threads w))); [|done].
    unfold owned. rewrite omap_app. cbn. rewrite Hpr. by rewrite app_nil_r.
  - intros i t [Hi|[Hge Hi]]%lookup_app_Some; [by apply Ht|].
    apply list_lookup_singleton_Some in Hi as [Hi <-].
    assert (Hm : mine i (log w) = []) by (apply Hn; lia). constructor.
    + done.
    + split; [intros a m Ha; by apply lookup_nil in Ha || done|by constructor].
    + destruct c; by eexists || done.
    + rewrite Hpr. done.
    + by destruct c.
    + destruct c; try done. unfold sum_ok. simpl. split_and!; (done || lia).
  - intros i. rewrite length_app. intros Hle. apply Hn. lia.
Qed.

Lemma step_ok w a :
  Inv w -> world_small w = true -> exists w', step HashFn ShardBits a w = Some w' /\ Inv w'.
Proof.
  intros HI Hsm. destruct a as [c|i a|p j]; cbn [step].
  - eexists. split; [done|]. by apply start_step_ok.
  - destruct (threads w !! i) as [t|] eqn:Hi; [by apply thread_step_ok|eauto].
  - destruct (heap w !! p) as [s|] eqn:Hs; [|eauto].
    destruct (reclaim_step_ok w p j s HI Hs) as (s' & -> & ?). eauto.
Qed.

Lemma Inv_start cap lf : 0 <= cap <= 2 ^ 61 -> Inv (start ShardBits cap lf).
Proof.
  intros Hc. unfold start. constructor; simpl; [|intros i t Hi; by apply lookup_nil in Hi || done|done| |done].
  - constructor.
    + apply length_replicate.
    + unfold owned. rewrite app_nil_r. induction shards; [constructor|done].
    + intros p. rewrite lookup_empty. split; [|by intros [? ?]]. unfold owned. rewrite app_nil_r.
      intros (x & [-> _]%elem_of_replicate & E)%list_elem_of_omap. done.
    + intros j o [-> _]%lookup_replicate. apply part_empty.
  - intros n i c r Hn. by apply lookup_nil in Hn || done.
Qed.

Lemma run_ok l : forall w,
  Inv w -> all_small HashFn ShardBits l w = true -> exists w', run HashFn ShardBits l w = Some w' /\ Inv w'.
Proof.
  induction l as [|a l IH]; intros w HI Hall; cbn [run]; [by exists w|].
  cbn [all_small] in Hall. apply andb_true_iff in Hall as [Hsm Hall].
  destruct (step_ok w a HI Hsm) as (w1 & Hst & H1). rewrite Hst in *. by apply IH.
Qed.
End proofs.

(** ** The array *)

Section pointers.
Context {K V S : Type} `{Countable K} {O : SegmentOps K V S} (HashFn : K -> Z) (ShardBits : Z).
Implicit Types (w : World K V S).

Lemma step_pointers a w w' j p :
  step HashFn ShardBits a w = Some w' -> pointers w !! j = Some (Some p) -> pointers w' !! j = Some (Some p).
Proof.
  intros Hst Hj. destruct a as [c|i a|q n]; cbn [step] in Hst.
  - by injection Hst as <-.
  - destruct (threads w !! i) as [t|]; [|by injection Hst as <-].
    unfold thread_step, on_null, finish in Hst. destruct (mpc t); try case_decide; wz_run; try done;
      repeat case_match; try done; simpl in *.
    rewrite list_lookup_insert_ne; [done|]. congruence.
  - destruct (heap w !! q); wz_run; done.
Qed.

Lemma run_pointers l : forall w w' j p,
  run HashFn ShardBits l w = Some w' -> pointers w !! j = Some (Some p) -> pointers w' !! j = Some (Some p).
Proof.
  induction l as [|a l IH]; intros w w' j p Hr Hj; cbn [run] in Hr; [by injection Hr as <-|].
  wz_run. eapply IH; [done|]. by eapply step_pointers.
Qed.

Lemma shards_run_app l1 l2 : forall w,
  run HashFn ShardBits (l1 ++ l2) w =
    match run HashFn ShardBits l1 w with Some w1 => run HashFn ShardBits l2 w1 | None => None end.
Proof.
  induction l1 as [|a l1 IH]; intros w; [done|]. cbn [run app].
  destruct (step HashFn ShardBits a w); [apply IH|done].
Qed.
End pointers.

(** * Concrete runs *)

Definition demo_start : World Z Z (Segment Z Z) := start 1 4 default_load_factor.

Definition demo_run (l : list (Act Z Z)) : option (World Z Z (Segment Z Z)) :=
  run (O := segment_ops Z.abs 1) Z.abs 1 l demo_start.

(** Two insertions into the same empty shard, which both make a segment, then a [find] and a
    [size]. *)
Definition demo_race : list (Act Z Z) :=
  [AStart (CInsert 2 20); AStart (CEmplace 4 40); AThread 0 0; AThread 1 0; AThread 0 0; AThread 1 0;
   AThread 1 0; AThread 0 0].
Definition demo_calls : list (Act Z Z) :=
  demo_race ++ [AThread 0 0; AThread 0 0; AThread 1 0; AReclaim 1 0; AStart (CFind 2); AThread 2 0; AThread 2 0;
   AStart CSize; AThread 3 0; AThread 3 0; AThread 3 0; AThread 3 0].

(** The segment that lost the exchange is destroyed while it owns its bucket array, and
    [~ConcurrentHashMapSegment] does not free that. *)
Lemma lost_segment_leaks : exists w, demo_run demo_race = Some w /\
  exists t s, threads w !! 0%nat = Some t /\ mpc t = MLost 0 1 /\ heap w !! 0%nat = Some s /\
    lists s !! bucket_list_ s = Some 2 /\
    (heap <$> step (O := segment_ops Z.abs 1) Z.abs 1 (AThread 0 0) w) = Some (delete 0%nat (heap w)).
Proof. wz_eval. eexists _, _. split_and!; vm_compute; reflexivity. Qed.

(** [size] adds up what the segments held at different moments: here it returns 2 although the
    map never had more than one key. *)
Definition demo_size : list (Act Z Z) :=
  [AStart (CInsert 2 20); AThread 0 0; AThread 0 0; AThread 0 0; AThread 0 0;
   AStart CSize; AThread 1 0; AThread 1 0;
   AStart (CErase 2); AThread 2 0; AThread 2 0;
   AStart (CInsert 3 30); AThread 3 1; AThread 3 1; AThread 3 1; AThread 3 1;
   AThread 1 0; AThread 1 0; AThread 1 0].

Lemma size_never_held : exists w, demo_run demo_size = Some w /\
  (mpc <$> threads w !! 1%nat) = Some (MDone (MNum 2)) /\
  forall n, (size (map_at n (log w)) <= 1)%nat.
Proof.
  wz_eval. split; [reflexivity|]. intros [|[|[|[|n]]]]; apply Nat.leb_le; vm_compute; reflexivity.
Qed.

(** * Properties *)



(** C19: all threads use one segment per shard: once the array has a segment for a shard it
    keeps it, whatever else runs, and the segment is alive. No two shards share a segment,
    and when no thread is in [ensureSegment] there are no other segments: the ones that lost
    the race are gone. *)
Theorem one_segment_per_shard {K V} {EqK : EqDecision K} {CK : Countable K} (HashFn : K -> Z) ShardBits cap lf
    (l1 l2 : list (Act K V)) w1 w2 :
  (forall k, 0 <= HashFn k) -> 0 <= ShardBits <= 30 -> 0 <= cap <= 2 ^ 61 ->
  all_small (O := segment_ops HashFn ShardBits) HashFn ShardBits (l1 ++ l2) (start ShardBits cap lf) = true ->
  run (O := segment_ops HashFn ShardBits) HashFn ShardBits l1 (start ShardBits cap lf) = Some w1 ->
  run (O := segment_ops HashFn ShardBits) HashFn ShardBits l2 w1 = Some w2 ->
  (forall j p, pointers w1 !! j = Some (Some p) ->
    pointers w2 !! j = Some (Some p) /\ is_Some (heap w2 !! p)) /\
  (forall j j' p, pointers w2 !! j = Some (Some p) -> pointers w2 !! j' = Some (Some p) -> j = j') /\
  ((forall i t, threads w2 !! i = Some t -> private t = None) ->
    forall p, is_Some (heap w2 !! p) -> exists j, pointers w2 !! j = Some (Some p)).
Proof.
  intros Hhash Hbits Hcap Hall Hr1 Hr2.
  destruct (run_ok (O := segment_ops HashFn ShardBits) (L := segment_laws HashFn ShardBits Hhash)
    HashFn ShardBits Hbits _ _ (Inv_start HashFn ShardBits cap lf Hcap) Hall) as (w & Hr & HI).
  rewrite shards_run_app, Hr1, Hr2 in Hr. injection Hr as <-.
  destruct (inv_shared _ _ _ HI) as [S1 S2 S3 S4].
  split_and!.
  - intros j p Hj. pose proof (run_pointers _ _ _ _ _ _ _ Hr2 Hj) as Hj2. split; [done|].
    destruct (S4 _ _ Hj2) as (s & Hs & _). by exists s.
  - intros j j' p Hj Hj'. by eapply pointers_distinct.
  - intros Hnone p Hp. apply S3, elem_of_app in Hp as [Hp|Hp]; apply list_elem_of_omap in Hp as (x & Hx & E).
    + apply list_elem_of_lookup in Hx as [j Hj]. exists j. by rewrite Hj, <-E.
    + apply list_elem_of_lookup in Hx as [i Hi]. by rewrite (Hnone i x Hi) in E.
Qed.

Lemma one_segment_per_shard_witness : exists w1 w2 : World Z Z (Segment Z Z), demo_run demo_race = Some w1 /\
  (pointers w1 = [Some 1%nat; None] /\ pointers w2 !! 0%nat = Some (Some 1%nat)) /\
  (forall p, is_Some (heap w2 !! p) -> exists j, pointers w2 !! j = Some (Some p)).
Proof.
  destruct (demo_run demo_race) as [w1|] eqn:H1; [|vm_compute in H1; discriminate].
  destruct (run (O := segment_ops Z.abs 1) Z.abs 1 (drop 8 demo_calls) w1) as [w2|] eqn:H2;
    [|vm_compute in H1; injection H1 as <-; vm_compute in H2; discriminate].
  exists w1, w2. split; [done|].
  destruct (one_segment_per_shard Z.abs 1 4 default_load_factor demo_race (drop 8 demo_calls) w1 w2)
    as (Hp & _ & Ho); [apply Z.abs_nonneg|lia|lia|vm_compute; reflexivity|exact H1|exact H2|].
  assert (pointers w1 = [Some 1%nat; None]) as E by (vm_compute in H1; injection H1 as <-; reflexivity).
  split; [split; [done|]|].
  - by apply (Hp 0%nat); rewrite E.
  - apply Ho. vm_compute in H1. injection H1 as <-. vm_compute in H2. injection H2 as <-.
    intros [|[|[|[|i]]]] t Hi; simpl in Hi; try discriminate; injection Hi as <-; reflexivity.
Defined.
