(* ===== verification/SkipList.v ===== *)
(** The skip list of src/src/container/skiplist.h and skiplist-inl.h.

    Nodes live in an explicit heap; a node is its height, its datum and its array of
    [height] forward pointers.  [None] is undefined behaviour: a dangling pointer, a
    failed [assert(i < height_)], an index outside a vector or a table.  The element
    type, its order [Comp] and its [operator==] are parameters, as in the template;
    [exp(1)] of the C library and the number drawn for each insertion are parameters. *)
From Stdlib Require Import Floats.SpecFloat.
From stdpp Require Import sorting.
From S2P Require Import Prelude.

Open Scope wizard_scope.

(** * The table of heights *)

(** [enum { kMaxHeight = 64 }] *)
Definition kMaxHeight : Z := 64.

(** IEEE double arithmetic, and its conversion to [size_t]. *)
Definition dbl_mul (x y : spec_float) : spec_float := SFmul 53 1024 x y.
Definition dbl_add (x y : spec_float) : spec_float := SFadd 53 1024 x y.
Definition dbl_sub (x y : spec_float) : spec_float := SFsub 53 1024 x y.
Definition dbl_div (x y : spec_float) : spec_float := SFdiv 53 1024 x y.
Definition dbl_of_Z (n : Z) : spec_float := binary_normalize 53 1024 n 0 false.
Definition kMaxSizeLimit : Z := 2 ^ 64 - 1.

Definition size_of_double (x : spec_float) : Z :=
  match x with
  | S754_finite false m e =>
      if 0 <=? e then Z.pos m * 2 ^ e else Z.pos m / 2 ^ (- e)
  | _ => 0
  end.

Section tables.
Context (kProbInv : spec_float).

Definition kProb : spec_float := dbl_div (dbl_of_Z 1) kProbInv.

Record Tables := mkTables { lookupTable_ : list spec_float; sizeLimitTable_ : list Z }.

(** One round [i] of the loop of [initLookupTable]; [acc] holds [p], [sizeLimit] and
    the tables filled so far. *)
Definition initLookupTable_round (acc : spec_float * spec_float * Tables) (i : nat)
    : option (spec_float * spec_float * Tables) :=
  let '(p, sizeLimit, t) := acc in
  let p := dbl_mul p kProb in
  let sizeLimit := dbl_mul sizeLimit kProbInv in
  l <-? lookupTable_ t !! (i - 1)%nat;
  Some (p, sizeLimit,
    mkTables (lookupTable_ t ++ [dbl_add l p])
      (sizeLimitTable_ t ++
        [if SFltb (dbl_of_Z kMaxSizeLimit) sizeLimit then kMaxSizeLimit
         else size_of_double sizeLimit])).

Fixpoint initLookupTable_loop (idxs : list nat) (acc : spec_float * spec_float * Tables)
    : option (spec_float * spec_float * Tables) :=
  match idxs with
  | [] => Some acc
  | i :: idxs => acc <-? initLookupTable_round acc i; initLookupTable_loop idxs acc
  end.

Definition initLookupTable : option Tables :=
  let p := dbl_sub (dbl_of_Z 1) kProb in
  r <-? initLookupTable_loop (seq 1 62) (p, dbl_of_Z 1, mkTables [p] [1]);
  let '(_, _, t) := r in
  Some (mkTables (lookupTable_ t ++ [dbl_of_Z 1]) (sizeLimitTable_ t ++ [kMaxSizeLimit])).
End tables.

(** [getHeight(maxHeight)] for the number [p] drawn by [randomProb()]. *)
Fixpoint getHeight_loop (t : Tables) (p : spec_float) (maxHeight : Z) (idxs : list nat)
    : option Z :=
  match idxs with
  | [] => Some maxHeight
  | i :: idxs =>
      l <-? lookupTable_ t !! i;
      if SFltb p l then Some (Z.of_nat i + 1) else getHeight_loop t p maxHeight idxs
  end.

Definition getHeight (t : Tables) (p : spec_float) (maxHeight : Z) : option Z :=
  getHeight_loop t p maxHeight (seq 0 (Z.to_nat maxHeight)).

Definition getSizeLimit (t : Tables) (height : Z) : option Z :=
  if 0 <=? height then sizeLimitTable_ t !! Z.to_nat height else None.

Section skiplist.
Context {T : Type} (Comp eqT : T -> T -> bool) (dflt : T) (MAX_HEIGHT : Z) (tbl : Tables).

(** * Nodes *)

(** The fields [height_], [data_] and [skip_]. *)
Record SkipListNode := mkNode { height_ : Z; data_ : T; skip_ : list (option positive) }.
Abbreviation Heap := (gmap positive SkipListNode).

(** [SkipListNode::create]: the allocator returns an address that is not in use and
    the constructor clears the [height] pointers. *)
Definition create (h : Heap) (height : Z) (data : T) : positive * Heap :=
  let a := fresh (dom h) in
  (a, <[a := mkNode (u8 height) data (replicate (Z.to_nat (u8 height)) None)]> h).

Definition destroy (h : Heap) (a : positive) : option Heap :=
  match h !! a with Some _ => Some (delete a h) | None => None end.

Definition skip (h : Heap) (a : positive) (i : Z) : option (option positive) :=
  n <-? h !! a;
  guard (0 <=? i) && (i <? height_ n);
  skip_ n !! Z.to_nat i.

Definition set_skip (h : Heap) (a : positive) (i : Z) (p : option positive) : option Heap :=
  n <-? h !! a;
  guard (0 <=? i) && (i <? height_ n);
  Some (<[a := mkNode (height_ n) (data_ n) (<[Z.to_nat i := p]> (skip_ n))]> h).

Fixpoint copy_skip_loop (h : Heap) (new_head old_head : positive) (idxs : list nat)
    : option Heap :=
  match idxs with
  | [] => Some h
  | i :: idxs =>
      p <-? skip h old_head (Z.of_nat i);
      h <-? set_skip h new_head (Z.of_nat i) p;
      copy_skip_loop h new_head old_head idxs
  end.

Definition copy_skip_pointer (h : Heap) (new_head old_head : positive) : option Heap :=
  o <-? h !! old_head;
  copy_skip_loop h new_head old_head (seq 0 (Z.to_nat (height_ o))).

(** * The list *)

Record SkipList := mkSkipList { heap : Heap; head_ : positive; size_ : Z }.

Definition ctor (init_height : Z) : SkipList :=
  let (a, h) := create ∅ init_height dflt in mkSkipList h a 0.

(** [~SkipList]: walk the bottom layer and destroy every node. *)
Fixpoint dtor_loop (fuel : nat) (h : Heap) (node : option positive) : option Heap :=
  match node with
  | None => Some h
  | Some a =>
      match fuel with
      | O => None
      | S fuel =>
          node_next <-? skip h a 0;
          h <-? destroy h a;
          dtor_loop fuel h node_next
      end
  end.

Definition dtor (s : SkipList) : option Heap :=
  dtor_loop (size (heap s)) (heap s) (Some (head_ s)).

Definition height (s : SkipList) : option Z := n <-? heap s !! head_ s; Some (height_ n).
Definition maxLayer (s : SkipList) : option Z := h <-? height s; Some (h - 1).
Definition size_of (s : SkipList) : Z := i32 (size_ s).

(** The inner loop of [_search_equal_or_greater]: move right on layer [i] as long as
    the next datum is less than [data].  The result is [cur] and [next]. *)
Fixpoint search_layer (fuel : nat) (h : Heap) (data : T) (i : Z) (cur : positive)
    (next : option positive) : option (positive * option positive) :=
  match next with
  | None => Some (cur, None)
  | Some n =>
      nd <-? h !! n;
      if Comp (data_ nd) data then
        match fuel with
        | O => None
        | S fuel => next <-? skip h n i; search_layer fuel h data i n next
        end
      else Some (cur, Some n)
  end.

(** The outer loop over the layers [idxs]; [prevs] is the vector of predecessors, null
    where it was not set yet. *)
Fixpoint search_loop (fuel : nat) (h : Heap) (data : T) (idxs : list nat) (cur : positive)
    (next : option positive) (prevs : list (option positive))
    : option (option positive * list (option positive)) :=
  match idxs with
  | [] => Some (next, prevs)
  | i :: idxs =>
      next <-? skip h cur (Z.of_nat i);
      r <-? search_layer fuel h data (Z.of_nat i) cur next;
      let (cur, next) := r in
      guard (i <? length prevs)%nat;
      search_loop fuel h data idxs cur next (<[i := Some cur]> prevs)
  end.

Definition _search_equal_or_greater (s : SkipList) (data : T) (prevs : list (option positive))
    : option (option positive * list (option positive)) :=
  top <-? maxLayer s;
  search_loop (size (heap s)) (heap s) data (rev (seq 0 (Z.to_nat (top + 1))))
    (head_ s) None prevs.

(** The overload without predecessors. *)
Fixpoint search_only_loop (fuel : nat) (h : Heap) (data : T) (idxs : list nat) (cur : positive)
    (next : option positive) : option (option positive) :=
  match idxs with
  | [] => Some next
  | i :: idxs =>
      next <-? skip h cur (Z.of_nat i);
      r <-? search_layer fuel h data (Z.of_nat i) cur next;
      let (cur, next) := r in
      search_only_loop fuel h data idxs cur next
  end.

Definition _search_only (s : SkipList) (data : T) : option (option positive) :=
  top <-? maxLayer s;
  search_only_loop (size (heap s)) (heap s) data (rev (seq 0 (Z.to_nat (top + 1))))
    (head_ s) None.

(** [node != nullptr && node->data() == data] *)
Definition holds (h : Heap) (node : option positive) (data : T) : option bool :=
  match node with
  | None => Some false
  | Some a => nd <-? h !! a; Some (eqT (data_ nd) data)
  end.

Definition grow_height (s : SkipList) (new_height : Z) : option SkipList :=
  h <-? height s;
  if new_height <=? h then Some s else
  let (new_head, hp) := create (heap s) new_height dflt in
  hp <-? copy_skip_pointer hp new_head (head_ s);
  hp <-? destroy hp (head_ s);
  Some (mkSkipList hp new_head (size_ s)).

(** [prevs[l]->skip(l)] *)
Definition prev_at (prevs : list (option positive)) (l : nat) : option positive :=
  match prevs !! l with Some (Some p) => Some p | _ => None end.

(** The loop that links a new node, layer by layer from the top. *)
Fixpoint link_loop (h : Heap) (new_node : positive) (prevs : list (option positive))
    (layers : list nat) : option Heap :=
  match layers with
  | [] => Some h
  | l :: layers =>
      p <-? prev_at prevs l;
      nx <-? skip h p (Z.of_nat l);
      h <-? set_skip h new_node (Z.of_nat l) nx;
      h <-? set_skip h p (Z.of_nat l) (Some new_node);
      link_loop h new_node prevs layers
  end.

(** [insert(data, is_force_insert)]; [p] is the number drawn for the node's height. *)
Definition insert (s : SkipList) (p : spec_float) (data : T) (is_force_insert : bool)
    : option (bool * SkipList) :=
  current_height <-? height s;
  let newSize := u64 (size_ s + 1) in
  sizeLimit <-? getSizeLimit tbl current_height;
  s <-? (if (current_height <? MAX_HEIGHT) && (sizeLimit <? newSize)
         then grow_height s (current_height + 1) else Some s);
  ht <-? height s;
  node_height <-? getHeight tbl p ht;
  r <-? _search_equal_or_greater s data (replicate (Z.to_nat ht) None);
  let (next_node, prevs) := r in
  is_exist <-? holds (heap s) next_node data;
  if (is_exist && is_force_insert) || negb is_exist then
    let (new_node, hp) := create (heap s) node_height data in
    hp <-? link_loop hp new_node prevs (rev (seq 0 (Z.to_nat node_height)));
    Some (is_exist, mkSkipList hp (head_ s) (u64 (size_ s + 1)))
  else Some (is_exist, s).

(** The loop that unlinks a node. *)
Fixpoint unlink_loop (h : Heap) (node : positive) (prevs : list (option positive))
    (layers : list nat) : option Heap :=
  match layers with
  | [] => Some h
  | l :: layers =>
      p <-? prev_at prevs l;
      nx <-? skip h node (Z.of_nat l);
      h <-? set_skip h p (Z.of_nat l) nx;
      unlink_loop h node prevs layers
  end.

Definition remove (s : SkipList) (data : T) : option (bool * SkipList) :=
  ht <-? height s;
  r <-? _search_equal_or_greater s data (replicate (Z.to_nat ht) None);
  let (to_delete_node, prevs) := r in
  match to_delete_node with
  | None => Some (false, s)
  | Some d =>
      nd <-? heap s !! d;
      if negb (eqT (data_ nd) data) then Some (false, s) else
      hp <-? unlink_loop (heap s) d prevs (rev (seq 0 (Z.to_nat (height_ nd))));
      hp <-? destroy hp d;
      Some (true, mkSkipList hp (head_ s) (u64 (size_ s - 1)))
  end.

Definition find (s : SkipList) (data : T) : option bool :=
  node <-? _search_only s data;
  holds (heap s) node data.

(** What [print_layer] writes: the data of one layer; its length is the count [n]. *)
Fixpoint print_layer (fuel : nat) (h : Heap) (layer : Z) (node : option positive)
    : option (list T) :=
  match node with
  | None => Some []
  | Some a =>
      match fuel with
      | O => None
      | S fuel =>
          nd <-? h !! a;
          next <-? skip h a layer;
          r <-? print_layer fuel h layer next;
          Some (data_ nd :: r)
      end
  end.

Fixpoint print_loop (s : SkipList) (layers : list nat) : option (list (list T)) :=
  match layers with
  | [] => Some []
  | l :: layers =>
      start <-? skip (heap s) (head_ s) (Z.of_nat l);
      x <-? print_layer (size (heap s)) (heap s) (Z.of_nat l) start;
      r <-? print_loop s layers;
      Some (x :: r)
  end.

(** [print]: the layers from the top, and whether it reports an invalid size; [n] is
    the count of the last layer printed. *)
Definition print (s : SkipList) : option (list (list T) * bool) :=
  top <-? maxLayer s;
  ls <-? print_loop s (rev (seq 0 (Z.to_nat (top + 1))));
  let n := match last ls with Some l => Z.of_nat (length l) | None => 0 end in
  Some (ls, negb (size_ s =? n)).

(** * Segments of a layer *)

Implicit Types h : Heap.
Implicit Types l : list positive.

(** What unlinking and linking leave alone: the height and the datum of a node. *)
Definition info h (a : positive) : option (Z * T) :=
  (fun n => (height_ n, data_ n)) <$> h !! a.

(** Every node has as many pointers as its height says. *)
Definition arrays_ok h : Prop :=
  forall a n, h !! a = Some n -> Z.of_nat (length (skip_ n)) = height_ n.

Definition hd_or (e : option positive) l : option positive :=
  match l with [] => e | a :: _ => Some a end.

Definition last_or (a : positive) l : positive := default a (last l).

(** The nodes [l] are linked in this order on layer [i], the last one to [e]. *)
Fixpoint seg h (i : nat) l (e : option positive) : Prop :=
  match l with
  | [] => True
  | a :: l => skip h a (Z.of_nat i) = Some (hd_or e l) /\ seg h i l e
  end.

Definition tall h (i : nat) (a : positive) : Prop :=
  exists n, h !! a = Some n /\ Z.of_nat i < height_ n.

#[local] Instance tall_dec h i a : Decision (tall h i a).
Proof.
  destruct (h !! a) as [n|] eqn:E.
  - destruct (decide (Z.of_nat i < height_ n)).
    + left. by exists n.
    + right. intros (n' & E' & ?). rewrite E in E'. simplify_eq. lia.
  - right. intros (n' & E' & ?). by rewrite E in E'.
Defined.

(** The nodes of [l] that reach layer [i]. *)
Definition layer h (i : nat) l : list positive := filter (tall h i) l.

Lemma seg_app h i l1 l2 e : seg h i (l1 ++ l2) e <-> seg h i l1 (hd_or e l2) /\ seg h i l2 e.
Proof.
  induction l1 as [|a l1 IH]; simpl; [tauto|]. rewrite IH.
  assert (hd_or e (l1 ++ l2) = hd_or (hd_or e l2) l1) as -> by by destruct l1. tauto.
Qed.

Lemma seg_ext h h' i l e :
  (forall a, a ∈ l -> skip h' a (Z.of_nat i) = skip h a (Z.of_nat i)) ->
  seg h i l e -> seg h' i l e.
Proof.
  induction l as [|a l IH]; simpl; [done|]. intros Hext [H1 H2]. split.
  - rewrite Hext by left. done.
  - apply IH; [|done]. intros. apply Hext. by right.
Qed.

Lemma last_or_app a l1 b l2 : last_or a (l1 ++ b :: l2) = last_or b l2.
Proof.
  unfold last_or. rewrite last_app_cons. destruct l2; [done|].
  rewrite last_cons_cons. destruct (last _) eqn:E; [done|].
  by apply last_None in E.
Qed.

Lemma last_or_elem a l : last_or a l ∈ a :: l.
Proof.
  unfold last_or. destruct (last l) eqn:E; [|by left].
  right. by apply last_Some_elem_of.
Qed.

Lemma last_or_split a l : exists l1, a :: l = l1 ++ [last_or a l].
Proof.
  destruct l as [|b l] using rev_ind; [by exists []|].
  exists (a :: l). unfold last_or. by rewrite last_snoc.
Qed.

Lemma layer_app h i l1 l2 : layer h i (l1 ++ l2) = layer h i l1 ++ layer h i l2.
Proof. apply filter_app. Qed.

Lemma tall_info h h' i a : info h' a = info h a -> tall h' i a <-> tall h i a.
Proof.
  intros Hi. assert (Ht : forall h0, tall h0 i a <-> exists x, info h0 a = Some x /\ Z.of_nat i < x.1).
  { intros h0. unfold tall, info. destruct (h0 !! a); naive_solver. }
  by rewrite !Ht, Hi.
Qed.

Lemma layer_info h h' i l :
  (forall a, a ∈ l -> info h' a = info h a) -> layer h' i l = layer h i l.
Proof.
  unfold layer. induction l as [|a l IH]; intros Hi; [done|].
  rewrite !filter_cons, IH by (intros; apply Hi; by right).
  pose proof (tall_info h h' i a (Hi a ltac:(by left))).
  repeat case_decide; naive_solver.
Qed.

Lemma layer_all h i l : (forall a, a ∈ l -> tall h i a) -> layer h i l = l.
Proof.
  unfold layer. induction l as [|a l IH]; intros Hl; [done|].
  rewrite filter_cons, decide_True by (apply Hl; by left).
  by rewrite IH by (intros; apply Hl; by right).
Qed.

Lemma layer_mono h i j l a : (j <= i)%nat -> a ∈ layer h i l -> a ∈ layer h j l.
Proof.
  unfold layer. rewrite !list_elem_of_filter. intros ? [(n & ? & ?) ?].
  split; [|done]. exists n. split; [done|lia].
Qed.

(** * The primitive operations on the heap *)

Lemma info_Some h a : is_Some (h !! a) <-> is_Some (info h a).
Proof. unfold info. by rewrite fmap_is_Some. Qed.

Lemma skip_is_Some h a n i :
  arrays_ok h -> h !! a = Some n -> 0 <= i < height_ n -> is_Some (skip h a i).
Proof.
  intros Hok Ha Hi. unfold skip. rewrite Ha.
  rewrite (proj2 (Z.leb_le _ _)), (proj2 (Z.ltb_lt _ _)) by lia. simpl.
  specialize (Hok _ _ Ha). apply lookup_lt_is_Some. lia.
Qed.

Lemma set_skip_spec h a i p n :
  arrays_ok h -> h !! a = Some n -> 0 <= i < height_ n ->
  exists h', set_skip h a i p = Some h' /\ arrays_ok h' /\
    (forall b, info h' b = info h b) /\
    (forall b j, skip h' b j = if decide (b = a /\ j = i) then Some p else skip h b j).
Proof.
  intros Hok Ha Hi. unfold set_skip. rewrite Ha.
  rewrite (proj2 (Z.leb_le _ _)), (proj2 (Z.ltb_lt _ _)) by lia. simpl.
  eexists. split; [done|]. pose proof (Hok _ _ Ha) as Hlen. split_and!.
  - intros b m. destruct (decide (b = a)) as [->|].
    + rewrite lookup_insert_eq. intros [= <-]. simpl. by rewrite length_insert.
    + rewrite lookup_insert_ne by done. apply Hok.
  - intros b. unfold info. destruct (decide (b = a)) as [->|].
    + by rewrite lookup_insert_eq, Ha.
    + by rewrite lookup_insert_ne.
  - intros b j. unfold skip. destruct (decide (b = a)) as [->|].
    + rewrite lookup_insert_eq, Ha. simpl. case_decide as Hd.
      * destruct Hd as [_ ->].
        rewrite (proj2 (Z.leb_le _ _)), (proj2 (Z.ltb_lt _ _)) by lia. simpl.
        apply list_lookup_insert_eq. lia.
      * wz_if; [|done]. apply list_lookup_insert_ne. intros E. apply Hd. split; [done|lia].
    + rewrite lookup_insert_ne by done. case_decide; naive_solver.
Qed.

Lemma create_spec h ht d :
  0 <= ht < 2 ^ 8 -> arrays_ok h ->
  exists a h', create h ht d = (a, h') /\ h !! a = None /\ arrays_ok h' /\
    dom h' = {[a]} ∪ dom h /\ delete a h' = h /\
    (forall b, info h' b = if decide (b = a) then Some (ht, d) else info h b) /\
    (forall b j, skip h' b j =
      if decide (b = a) then if decide (0 <= j < ht) then Some None else None
      else skip h b j).
Proof.
  intros Hht Hok. unfold create. rewrite (Z.mod_small ht) || replace (u8 ht) with ht
    by (symmetry; apply Z.mod_small; lia).
  set (a := fresh (dom h)). assert (Ha : h !! a = None).
  { apply not_elem_of_dom, is_fresh. }
  eexists a, _. split; [done|]. split_and!.
  - done.
  - intros b n. destruct (decide (b = a)) as [->|].
    + rewrite lookup_insert_eq. intros [= <-]. simpl. rewrite length_replicate. lia.
    + rewrite lookup_insert_ne by done. apply Hok.
  - apply dom_insert_L.
  - by apply delete_insert_id.
  - intros b. unfold info. case_decide; subst.
    + by rewrite lookup_insert_eq.
    + by rewrite lookup_insert_ne.
  - intros b j. unfold skip. case_decide as E.
    + subst b. rewrite lookup_insert_eq. simpl. case_decide.
      * rewrite (proj2 (Z.leb_le _ _)), (proj2 (Z.ltb_lt _ _)) by lia. simpl.
        apply lookup_replicate_2. lia.
      * wz_if; [lia|done].
    + by rewrite lookup_insert_ne.
Qed.

(** * The loops *)

Lemma search_layer_spec h data i l e cur fuel :
  seg h i l e -> (length l <= fuel)%nat ->
  (forall a, a ∈ l -> exists ht d, info h a = Some (ht, d) /\ Comp d data = true) ->
  (forall a, e = Some a -> exists ht d, info h a = Some (ht, d) /\ Comp d data = false) ->
  search_layer fuel h data (Z.of_nat i) cur (hd_or e l) = Some (last_or cur l, e).
Proof.
  intros Hseg Hf Hlt He. revert cur fuel Hf. induction l as [|a l IH]; intros cur fuel Hf; simpl.
  - destruct e as [a|]; [|by destruct fuel].
    destruct (He a eq_refl) as (ht & d & Ha & Hc). unfold info in Ha.
    destruct fuel; simpl; destruct (h !! a) as [n|]; simplify_eq/=; by rewrite Hc.
  - destruct Hseg as [Hs Hseg]. destruct fuel as [|fuel]; [simpl in Hf; lia|]. simpl.
    destruct (Hlt a ltac:(by left)) as (ht & d & Ha & Hc). unfold info in Ha.
    destruct (h !! a) as [n|] eqn:E; simplify_eq/=. rewrite Hc, Hs.
    rewrite IH; [|done|intros; apply Hlt; by right|lia]. f_equal. f_equal.
    destruct l as [|b l]; [done|]. unfold last_or. rewrite last_cons_cons.
    destruct (last (b :: l)) eqn:El; [done|]. by apply last_None in El.
Qed.

(** The predecessor on layer [i] of the first node that is not below the datum. *)
Definition pred h (hd : positive) (lo : list positive) (i : nat) : positive :=
  last_or hd (layer h i lo).

Lemma search_loop_spec h data hd lo hi fuel n cur next prevs :
  (length lo <= fuel)%nat -> (n <= length prevs)%nat ->
  (forall i, (i < n)%nat -> seg h i (hd :: layer h i lo ++ layer h i hi) None) ->
  (forall i, (i < n)%nat -> cur ∈ hd :: layer h i lo) ->
  (forall a, a ∈ lo -> exists ht d, info h a = Some (ht, d) /\ Comp d data = true) ->
  (forall a, a ∈ hi -> exists ht d, info h a = Some (ht, d) /\ Comp d data = false) ->
  exists prevs',
    search_loop fuel h data (rev (seq 0 n)) cur next prevs =
      Some (if decide (n = 0%nat) then next else hd_or None (layer h 0 hi), prevs') /\
    length prevs' = length prevs /\
    (forall i, (i < n)%nat -> prev_at prevs' i = Some (pred h hd lo i)) /\
    (forall i, (n <= i)%nat -> prevs' !! i = prevs !! i).
Proof.
  intros Hf. revert cur next prevs.
  induction n as [|n IH]; intros cur next prevs Hn Hseg Hcur Hlo Hhi.
  { exists prevs. split_and!; [done|done|lia|done]. }
  rewrite seq_S, rev_unit. cbn [search_loop]. rewrite Nat.add_0_l.
  destruct (list_elem_of_split _ _ (Hcur n ltac:(lia))) as (l1 & l2 & Hsplit).
  pose proof (Hseg n ltac:(lia)) as Hs.
  change (hd :: layer h n lo ++ layer h n hi) with ((hd :: layer h n lo) ++ layer h n hi) in Hs.
  rewrite Hsplit, <-app_assoc in Hs. apply seg_app in Hs as [_ [Hs1 Hs2]].
  rewrite Hs1. fold (app l2 (layer h n hi)) in *. apply seg_app in Hs2 as [Hs2 _].
  replace (hd_or None (l2 ++ layer h n hi)) with (hd_or (hd_or None (layer h n hi)) l2)
    by by destruct l2.
  assert (Hl2 : forall a, a ∈ l2 -> a ∈ layer h n lo).
  { intros a Ha. destruct l1 as [|b l1]; simplify_eq/=; [done|].
    rewrite H0. set_solver. }
  assert (Hpred : last_or cur l2 = pred h hd lo n).
  { unfold pred. destruct l1 as [|b l1]; simplify_eq/=; [done|].
    rewrite H0. by rewrite last_or_app. }
  rewrite search_layer_spec; [|done| | |].
  2:{ etrans; [|done]. etrans; [|apply (length_filter (tall h n))].
      transitivity (length (hd :: layer h n lo) - 1)%nat; [|simpl; unfold layer; lia].
      rewrite Hsplit, length_app. simpl. lia. }
  2:{ intros a Ha%Hl2. apply list_elem_of_filter in Ha as [_ ?]. by apply Hlo. }
  2:{ intros a Ha. destruct (layer h n hi) as [|b l] eqn:E; simplify_eq/=.
      assert (a ∈ layer h n hi) as Ha by (rewrite E; by left).
      apply list_elem_of_filter in Ha as [_ ?]. by apply Hhi. }
  rewrite (proj2 (Nat.ltb_lt _ _)) by lia. rewrite Hpred.
  destruct (IH (pred h hd lo n) (hd_or None (layer h n hi)) (<[n := Some (pred h hd lo n)]> prevs))
    as (prevs' & E & Hlen & H1 & H2).
  - rewrite length_insert. lia.
  - intros. apply Hseg. lia.
  - intros i Hi. pose proof (last_or_elem hd (layer h n lo)) as Hel.
    fold (pred h hd lo n) in Hel.
    apply elem_of_cons in Hel as [->|Hel]; [by left|right].
    apply (layer_mono h n); [lia|done].
  - done.
  - done.
  - exists prevs'. rewrite E. split_and!.
    + destruct (decide (n = 0%nat)) as [->|]; repeat case_decide; done || lia.
    + by rewrite Hlen, length_insert.
    + intros i Hi. destruct (decide (i = n)) as [->|]; [|apply H1; lia].
      unfold prev_at. rewrite H2, list_lookup_insert_eq by lia. done.
    + intros i Hi. rewrite H2 by lia. apply list_lookup_insert_ne. lia.
Qed.

Lemma search_only_agrees h data fuel idxs cur next prevs r prevs' :
  search_loop fuel h data idxs cur next prevs = Some (r, prevs') ->
  search_only_loop fuel h data idxs cur next = Some r.
Proof.
  revert cur next prevs. induction idxs as [|i idxs IH]; simpl; intros cur next prevs H.
  { by simplify_eq. }
  destruct (skip h cur (Z.of_nat i)); [|done].
  destruct (search_layer _ _ _ _ _ _) as [[c x]|]; [|done].
  destruct (i <? length prevs)%nat; [|done]. eauto.
Qed.

Lemma link_loop_spec h new prevs (p : nat -> positive) (q : nat -> option positive) n ht d :
  arrays_ok h -> info h new = Some (ht, d) -> Z.of_nat n <= ht ->
  (forall i, (i < n)%nat -> prev_at prevs i = Some (p i) /\ p i <> new /\
     tall h i (p i) /\ skip h (p i) (Z.of_nat i) = Some (q i)) ->
  exists h', link_loop h new prevs (rev (seq 0 n)) = Some h' /\ arrays_ok h' /\
    (forall b, info h' b = info h b) /\
    (forall b i, skip h' b (Z.of_nat i) =
       if decide (i < n)%nat then
         if decide (b = new) then Some (q i)
         else if decide (b = p i) then Some (Some new) else skip h b (Z.of_nat i)
       else skip h b (Z.of_nat i)).
Proof.
  revert h. induction n as [|n IH]; intros h Hok Hnew Hn Hp.
  { exists h. split_and!; [done..|]. intros b i. by case_decide; [lia|]. }
  rewrite seq_S, rev_unit. cbn [link_loop]. rewrite Nat.add_0_l.
  destruct (Hp n ltac:(lia)) as (-> & Hne & (np & Hnp & Htall) & ->).
  assert (exists m, h !! new = Some m /\ height_ m = ht) as (m & Hm & Hmh).
  { unfold info in Hnew. destruct (h !! new); naive_solver. }
  destruct (set_skip_spec h new (Z.of_nat n) (q n) m Hok Hm ltac:(lia)) as (h1 & -> & Hok1 & Hi1 & Hs1).
  assert (exists np1, h1 !! p n = Some np1 /\ height_ np1 = height_ np) as (np1 & Hnp1 & Hh1).
  { specialize (Hi1 (p n)). unfold info in Hi1. rewrite Hnp in Hi1.
    destruct (h1 !! p n); naive_solver. }
  destruct (set_skip_spec h1 (p n) (Z.of_nat n) (Some new) np1 Hok1 Hnp1 ltac:(lia))
    as (h2 & -> & Hok2 & Hi2 & Hs2).
  destruct (IH h2) as (h' & E & Hok' & Hi' & Hs'); [done|by rewrite Hi2, Hi1|lia| |].
  { intros i Hi. destruct (Hp i ltac:(lia)) as (? & ? & Ht & Hsk). split_and!; [done..| |].
    - by apply (tall_info h h2 i (p i)); [rewrite Hi2, Hi1|].
    - rewrite Hs2, Hs1. repeat case_decide; naive_solver lia. }
  exists h'. split_and!; [done..| |].
  - intros b. by rewrite Hi', Hi2, Hi1.
  - intros b i. rewrite Hs', !Hs2, !Hs1.
    destruct (decide (i = n)) as [->|]; repeat case_decide; naive_solver lia.
Qed.

Lemma unlink_loop_spec h node prevs (p : nat -> positive) (q : nat -> option positive) n :
  arrays_ok h ->
  (forall i, (i < n)%nat -> prev_at prevs i = Some (p i) /\ p i <> node /\
     tall h i (p i) /\ skip h node (Z.of_nat i) = Some (q i)) ->
  exists h', unlink_loop h node prevs (rev (seq 0 n)) = Some h' /\ arrays_ok h' /\
    (forall b, info h' b = info h b) /\
    (forall b i, skip h' b (Z.of_nat i) =
       if decide (i < n)%nat then if decide (b = p i) then Some (q i) else skip h b (Z.of_nat i)
       else skip h b (Z.of_nat i)).
Proof.
  revert h. induction n as [|n IH]; intros h Hok Hp.
  { exists h. split_and!; [done..|]. intros b i. by case_decide; [lia|]. }
  rewrite seq_S, rev_unit. cbn [unlink_loop]. rewrite Nat.add_0_l.
  destruct (Hp n ltac:(lia)) as (-> & Hne & (np & Hnp & Htall) & ->).
  destruct (set_skip_spec h (p n) (Z.of_nat n) (q n) np Hok Hnp ltac:(lia))
    as (h2 & -> & Hok2 & Hi2 & Hs2).
  destruct (IH h2) as (h' & E & Hok' & Hi' & Hs'); [done| |].
  { intros i Hi. destruct (Hp i ltac:(lia)) as (? & ? & Ht & Hsk). split_and!; [done..| |].
    - by apply (tall_info h h2 i (p i)).
    - rewrite Hs2. case_decide; naive_solver lia. }
  exists h'. split_and!; [done..| |].
  - intros b. by rewrite Hi', Hi2.
  - intros b i. rewrite Hs', !Hs2.
    destruct (decide (i = n)) as [->|]; repeat case_decide; naive_solver lia.
Qed.

Lemma copy_skip_loop_spec h new old idxs :
  arrays_ok h -> new <> old ->
  (forall i, i ∈ idxs -> tall h i new /\ tall h i old) ->
  exists h', copy_skip_loop h new old idxs = Some h' /\ arrays_ok h' /\
    (forall b, info h' b = info h b) /\
    (forall b i, skip h' b (Z.of_nat i) =
       if decide (b = new /\ i ∈ idxs) then skip h old (Z.of_nat i) else skip h b (Z.of_nat i)).
Proof.
  intros Hok Hne. revert h Hok. induction idxs as [|j idxs IH]; intros h Hok Ht; simpl.
  { exists h. split_and!; [done..|]. intros b i. case_decide; [set_solver|done]. }
  destruct (Ht j ltac:(by left)) as [(nn & Hnn & Hjn) (no & Hno & Hjo)].
  destruct (skip_is_Some h old no (Z.of_nat j) Hok Hno ltac:(lia)) as [x Hx]. rewrite Hx.
  destruct (set_skip_spec h new (Z.of_nat j) x nn Hok Hnn ltac:(lia)) as (h2 & -> & Hok2 & Hi2 & Hs2).
  destruct (IH h2 Hok2) as (h' & E & Hok' & Hi' & Hs').
  { intros i Hi. destruct (Ht i ltac:(by right)).
    by split; apply (tall_info h h2 i). }
  exists h'. split_and!; [done..| |].
  - intros b. by rewrite Hi', Hi2.
  - intros b i. rewrite Hs', !Hs2.
    destruct (decide (i = j)) as [->|]; repeat case_decide; set_solver by lia.
Qed.

(** * The sorted list it stands for *)

Fixpoint sorted_insert (d : T) (ds : list T) : list T :=
  match ds with
  | [] => [d]
  | x :: ds => if Comp x d then x :: sorted_insert d ds else d :: x :: ds
  end.

Fixpoint sorted_remove (d : T) (ds : list T) : list T :=
  match ds with
  | [] => []
  | x :: ds => if eqT x d then ds else x :: sorted_remove d ds
  end.

Definition mem (d : T) (ds : list T) : bool := existsb (fun x => eqT x d) ds.

Abbreviation Sorted := (StronglySorted (fun x y => Comp y x = false)).

(** [Comp] is a strict total order and [operator==] its equality. *)
Record OrderLaws : Prop := {
  comp_irrefl : forall x, Comp x x = false;
  comp_trans : forall x y z, Comp x y = true -> Comp y z = true -> Comp x z = true;
  comp_total : forall x y, Comp x y = false -> Comp y x = false -> x = y;
  eqT_eq : forall x y, eqT x y = true <-> x = y
}.

Abbreviation Below d := (fun x => Comp x d = true).
Abbreviation NotBelow d := (fun x => Comp x d = false).

Section sorted.
Context (Laws : OrderLaws).

Lemma comp_trans_neg x y z : Comp y x = false -> Comp z y = false -> Comp z x = false.
Proof.
  intros H1 H2. destruct (Comp z x) eqn:E; [|done].
  destruct (Comp x y) eqn:E'; [by rewrite (comp_trans Laws _ _ _ E E') in H2|].
  rewrite (comp_total Laws _ _ H1 E') in H2. congruence.
Qed.

(** Every sorted list splits into what is below [d] and the rest. *)
Lemma sorted_split d ds :
  Sorted ds -> exists dlo dhi, ds = dlo ++ dhi /\ Forall (Below d) dlo /\ Forall (NotBelow d) dhi.
Proof.
  induction ds as [|x ds IH]; [by exists [], []|]. intros [Hs Hx]%StronglySorted_cons.
  destruct (Comp x d) eqn:E.
  - destruct (IH Hx) as (dlo & dhi & -> & ? & ?). exists (x :: dlo), dhi. split; [done|].
    split; [by constructor|done].
  - exists [], (x :: ds). split; [done|]. split; [done|]. constructor; [done|].
    eapply Forall_impl; [exact Hs|]. intros y Hy. simpl in *. by apply comp_trans_neg with x.
Qed.

Lemma sorted_insert_split d dlo dhi :
  Forall (Below d) dlo -> Forall (NotBelow d) dhi -> sorted_insert d (dlo ++ dhi) = dlo ++ d :: dhi.
Proof.
  induction 1 as [|x dlo Hx _ IH]; intros Hhi; simpl; [|by rewrite Hx, IH].
  destruct Hhi as [|x dhi Hx]; [done|]. simpl. by rewrite Hx.
Qed.

Lemma below_neq d x : Comp x d = true -> eqT x d = false.
Proof.
  intros Hx. destruct (eqT x d) eqn:E; [|done]. apply (eqT_eq Laws) in E. subst.
  by rewrite (comp_irrefl Laws) in Hx.
Qed.

Lemma mem_split d dlo dhi :
  Sorted (dlo ++ dhi) -> Forall (Below d) dlo -> Forall (NotBelow d) dhi ->
  mem d (dlo ++ dhi) = match dhi with x :: _ => eqT x d | [] => false end.
Proof.
  intros Hs Hlo Hhi. unfold mem. rewrite existsb_app.
  assert (existsb (fun x => eqT x d) dlo = false) as ->; simpl.
  { apply not_true_iff_false. intros (x & Hx & E)%existsb_exists. apply list_elem_of_In in Hx.
    rewrite Forall_forall in Hlo. by rewrite below_neq in E by auto. }
  apply StronglySorted_app_1_r in Hs. destruct dhi as [|x dhi]; [done|]. simpl.
  destruct (eqT x d) eqn:E; [done|]. simpl.
  apply not_true_iff_false. intros (y & Hy & Ey)%existsb_exists.
  apply list_elem_of_In in Hy. apply (eqT_eq Laws) in Ey. subst y.
  apply StronglySorted_cons in Hs as [Hs _]. rewrite Forall_forall in Hs.
  apply Forall_cons in Hhi as [Hx _]. specialize (Hs _ Hy). simpl in *.
  rewrite (comp_total Laws _ _ Hs Hx) in E.
  assert (eqT x x = true) by by apply (eqT_eq Laws). congruence.
Qed.

Lemma sorted_remove_split d x dlo dhi :
  Forall (Below d) dlo -> eqT x d = true -> sorted_remove d (dlo ++ x :: dhi) = dlo ++ dhi.
Proof.
  induction 1 as [|y dlo Hy _ IH]; intros E; simpl; [by rewrite E|].
  rewrite below_neq by done. by rewrite IH.
Qed.

Lemma sorted_put d dlo dhi :
  Sorted (dlo ++ dhi) -> Forall (Below d) dlo -> Forall (NotBelow d) dhi ->
  Sorted (dlo ++ d :: dhi).
Proof.
  intros (H1 & H2 & H3)%StronglySorted_app Hlo Hhi. rewrite !Forall_forall in *.
  apply StronglySorted_app. split_and!; [|done|].
  - intros x y Hx [->|Hy]%elem_of_cons; [|by apply H1].
    specialize (Hlo _ Hx). simpl in Hlo. destruct (Comp d x) eqn:E; [|done].
    pose proof (comp_trans Laws _ _ _ E Hlo) as E'. by rewrite (comp_irrefl Laws) in E'.
  - apply StronglySorted_cons. split; [|done]. by apply Forall_forall.
Qed.

Lemma sorted_drop dlo x dhi : Sorted (dlo ++ x :: dhi) -> Sorted (dlo ++ dhi).
Proof.
  intros (H1 & H2 & [H3 H4]%StronglySorted_cons)%StronglySorted_app.
  apply StronglySorted_app. split_and!; [|done..]. intros y z Hy Hz. apply H1; [done|].
  by right.
Qed.
End sorted.

(** * The invariant *)

Record Inv (s : SkipList) (H : Z) (ns : list positive) (ds : list T) : Prop := {
  inv_ok : arrays_ok (heap s);
  inv_head : info (heap s) (head_ s) = Some (H, dflt);
  inv_H : 1 <= H <= 63;
  inv_nodup : NoDup (head_ s :: ns);
  inv_dom : forall a, is_Some (heap s !! a) <-> a ∈ head_ s :: ns;
  inv_data : Forall2 (fun a d => exists ht, info (heap s) a = Some (ht, d) /\ 1 <= ht <= H) ns ds;
  inv_seg : forall i, Z.of_nat i < H -> seg (heap s) i (head_ s :: layer (heap s) i ns) None;
  inv_sorted : Sorted ds;
  inv_size : size_ s = Z.of_nat (length ds)
}.

Lemma inv_height s H ns ds : Inv s H ns ds -> height s = Some H.
Proof.
  intros I. pose proof (inv_head _ _ _ _ I) as Hh. unfold info in Hh. unfold height.
  destruct (heap s !! head_ s); naive_solver.
Qed.

Lemma inv_heap_size s H ns ds : Inv s H ns ds -> size (heap s) = S (length ns).
Proof.
  intros I. rewrite <-(size_dom (D := gset positive)).
  replace (dom (heap s)) with (list_to_set (head_ s :: ns) : gset positive).
  - by rewrite size_list_to_set by apply (inv_nodup _ _ _ _ I).
  - apply set_eq. intros a. rewrite elem_of_list_to_set, elem_of_dom.
    by rewrite (inv_dom _ _ _ _ I).
Qed.

Lemma seg_skip h i l a e : seg h i l e -> a ∈ l -> exists p, skip h a (Z.of_nat i) = Some p.
Proof.
  induction l as [|b l IH]; simpl; [set_solver|]. intros [H1 H2] [->|Ha]%elem_of_cons; eauto.
Qed.

(** The search on a list that satisfies the invariant. *)
Lemma search_inv (Laws : OrderLaws) s H ns ds d :
  Inv s H ns ds ->
  exists lo hi dlo dhi prevs,
    ns = lo ++ hi /\ ds = dlo ++ dhi /\ Forall (Below d) dlo /\ Forall (NotBelow d) dhi /\
    length lo = length dlo /\
    _search_equal_or_greater s d (replicate (Z.to_nat H) None) = Some (hd_or None hi, prevs) /\
    _search_only s d = Some (hd_or None hi) /\
    (forall i, Z.of_nat i < H -> prev_at prevs i = Some (pred (heap s) (head_ s) lo i)).
Proof.
  intros I. destruct (sorted_split Laws d ds (inv_sorted _ _ _ _ I)) as (dlo & dhi & -> & Hlo & Hhi).
  pose proof (inv_data _ _ _ _ I) as Hd. apply Forall2_app_inv_r in Hd as (lo & hi & Hdlo & Hdhi & ->).
  pose proof (inv_H _ _ _ _ I) as HH.
  assert (Hinfo : forall la dl P, Forall2 (fun a d => exists ht, info (heap s) a = Some (ht, d) /\ 1 <= ht <= H) la dl ->
            Forall P dl -> forall a, a ∈ la -> exists ht d, info (heap s) a = Some (ht, d) /\ P d).
  { intros la dl P HF HP a [k Hk]%list_elem_of_lookup. rewrite Forall_lookup in HP.
    destruct (Forall2_lookup_l _ _ _ _ _ HF Hk) as (d' & Hd' & ht & ? & ?). eauto. }
  destruct (search_loop_spec (heap s) d (head_ s) lo hi (size (heap s)) (Z.to_nat H) (head_ s) None
    (replicate (Z.to_nat H) None)) as (prevs & E & Hlen & Hp & _).
  - rewrite (inv_heap_size _ _ _ _ I), length_app. lia.
  - by rewrite length_replicate.
  - intros i Hi. rewrite <-layer_app. apply (inv_seg _ _ _ _ I). lia.
  - intros. by left.
  - eauto.
  - eauto.
  - rewrite decide_False in E by lia.
    assert (layer (heap s) 0 hi = hi) as El.
    { apply layer_all. intros a Ha.
      apply list_elem_of_lookup in Ha as [k Hk].
      destruct (Forall2_lookup_l _ _ _ _ _ Hdhi Hk) as (d' & _ & ht & Hi & ?).
      unfold tall. unfold info in Hi. destruct (heap s !! a); simplify_eq/=. naive_solver lia. }
    rewrite El in E. exists lo, hi, dlo, dhi, prevs. split_and!; [done..| | | |].
    + by apply Forall2_length in Hdlo.
    + unfold _search_equal_or_greater, maxLayer. rewrite (inv_height _ _ _ _ I).
      replace (H - 1 + 1) with H by lia. done.
    + unfold _search_only, maxLayer. rewrite (inv_height _ _ _ _ I).
      replace (H - 1 + 1) with H by lia. by eapply search_only_agrees.
    + intros i Hi. apply Hp. lia.
Qed.

(** The predecessor of layer [i] in a list that is split as [lo ++ hi]. *)
Lemma pred_facts s H lo hi ds i :
  Inv s H (lo ++ hi) ds -> Z.of_nat i < H ->
  let p := pred (heap s) (head_ s) lo i in
  tall (heap s) i p /\ p ∈ head_ s :: lo /\
  skip (heap s) p (Z.of_nat i) = Some (hd_or None (layer (heap s) i hi)) /\
  seg (heap s) i (layer (heap s) i hi) None /\
  exists l1, head_ s :: layer (heap s) i lo = l1 ++ [p] /\ (p ∉ l1) /\
    seg (heap s) i l1 (Some p).
Proof.
  intros I Hi p. pose proof (inv_seg _ _ _ _ I i Hi) as Hseg.
  destruct (last_or_split (head_ s) (layer (heap s) i lo)) as [l1 Hl1].
  fold (pred (heap s) (head_ s) lo i) p in Hl1.
  rewrite layer_app in Hseg.
  change (seg (heap s) i ((head_ s :: layer (heap s) i lo) ++ layer (heap s) i hi) None) in Hseg.
  rewrite Hl1, <-app_assoc in Hseg. apply seg_app in Hseg as [Hs1 Hs2].
  simpl in Hs1, Hs2. destruct Hs2 as [Hs2 Hs3].
  pose proof (last_or_elem (head_ s) (layer (heap s) i lo)) as Hel.
  fold (pred (heap s) (head_ s) lo i) p in Hel.
  assert (Hnd : NoDup (head_ s :: layer (heap s) i lo)).
  { pose proof (inv_nodup _ _ _ _ I) as [Hn1 Hn2]%NoDup_cons. apply NoDup_app in Hn2 as (Hn2 & _).
    apply NoDup_cons. split; [|by apply NoDup_filter].
    intros [_ ?]%list_elem_of_filter. set_solver. }
  rewrite Hl1 in Hnd. apply NoDup_app in Hnd as (_ & Hnd & _).
  split_and!; [| |done|done|].
  - apply elem_of_cons in Hel as [Hp|Hel].
    + rewrite Hp. pose proof (inv_head _ _ _ _ I) as Hh. unfold info in Hh. unfold tall.
      destruct (heap s !! head_ s); naive_solver lia.
    + by apply list_elem_of_filter in Hel as [? _].
  - apply elem_of_cons in Hel as [Hp|Hel]; [rewrite Hp; by left|].
    apply list_elem_of_filter in Hel as [_ ?]. by right.
  - exists l1. split_and!; [done| |done]. intros Hin. apply (Hnd p Hin). by left.
Qed.

Lemma getHeight_range p H :
  (length (lookupTable_ tbl) = 64)%nat -> 1 <= H <= 64 ->
  exists nh, getHeight tbl p H = Some nh /\ 1 <= nh <= H.
Proof.
  intros Hlen HH. unfold getHeight.
  assert (Hrange : forall i, i ∈ seq 0 (Z.to_nat H) -> Z.of_nat i < H).
  { intros i Hi%elem_of_seq. lia. }
  revert Hrange. induction (seq 0 (Z.to_nat H)) as [|i idxs IH]; intros Hrange; simpl.
  { exists H. split; [done|lia]. }
  pose proof (Hrange i ltac:(by left)).
  destruct (lookup_lt_is_Some_2 (lookupTable_ tbl) i) as [l ->]; [lia|].
  destruct (SFltb p l); [exists (Z.of_nat i + 1); split; [done|lia]|].
  apply IH. intros. apply Hrange. by right.
Qed.

Lemma ctor_inv H : 1 <= H <= 63 -> Inv (ctor H) H [] [].
Proof.
  intros HH. unfold ctor.
  destruct (create_spec ∅ H dflt) as (a & h & E & _ & Hok & Hdom & _ & Hi & Hs); [lia|done|].
  rewrite E. split; cbn [heap head_ size_].
  - done.
  - by rewrite Hi, decide_True.
  - done.
  - repeat constructor. set_solver.
  - intros b. rewrite <-elem_of_dom, Hdom. set_solver.
  - constructor.
  - intros i Hlt. simpl. split; [|done]. rewrite Hs, !decide_True by (done || lia). done.
  - constructor.
  - done.
Qed.

(** [destroy] of an allocated node. *)
Lemma destroy_spec h a :
  arrays_ok h -> is_Some (h !! a) ->
  exists h', destroy h a = Some h' /\ arrays_ok h' /\
    (forall b, info h' b = if decide (b = a) then None else info h b) /\
    (forall b i, b <> a -> skip h' b i = skip h b i).
Proof.
  intros Hok [n Hn]. unfold destroy. rewrite Hn. eexists. split; [done|]. split_and!.
  - intros b m [_ Hb]%lookup_delete_Some. by apply Hok in Hb.
  - intros b. unfold info. case_decide; subst; [by rewrite lookup_delete_eq|].
    by rewrite lookup_delete_ne.
  - intros b i Hb. unfold skip. by rewrite lookup_delete_ne.
Qed.

(** The memory after [grow_height]. *)
Lemma grow_heap s H ns ds :
  Inv s H ns ds -> H + 1 <= 63 ->
  exists a h, grow_height s (H + 1) = Some (mkSkipList h a (size_ s)) /\
    heap s !! a = None /\ arrays_ok h /\
    (forall b, info h b = if decide (b = a) then Some (H + 1, dflt)
                          else if decide (b = head_ s) then None else info (heap s) b) /\
    (forall b i, b <> head_ s -> skip h b (Z.of_nat i) =
       if decide (b = a) then
         if decide (Z.of_nat i < H) then skip (heap s) (head_ s) (Z.of_nat i)
         else if decide (Z.of_nat i < H + 1) then Some None else None
       else skip (heap s) b (Z.of_nat i)).
Proof.
  intros I HH. unfold grow_height. rewrite (inv_height _ _ _ _ I).
  rewrite (proj2 (Z.leb_gt _ _)) by lia. pose proof (inv_H _ _ _ _ I).
  destruct (create_spec (heap s) (H + 1) dflt) as (a & h1 & -> & Ha & Hok1 & Hdom1 & _ & Hi1 & Hs1);
    [lia|apply (inv_ok _ _ _ _ I)|].
  pose proof (inv_head _ _ _ _ I) as Hh.
  assert (Hne : a <> head_ s) by (intros ->; unfold info in Hh; by rewrite Ha in Hh).
  assert (Hinfo1 : info h1 (head_ s) = Some (H, dflt)) by by rewrite Hi1, decide_False.
  assert (exists o, h1 !! head_ s = Some o /\ height_ o = H) as (o & Ho & HoH).
  { unfold info in Hinfo1. destruct (h1 !! head_ s); naive_solver. }
  unfold copy_skip_pointer. rewrite Ho, HoH.
  destruct (copy_skip_loop_spec h1 a (head_ s) (seq 0 (Z.to_nat H)) Hok1) as (h2 & -> & Hok2 & Hi2 & Hs2).
  { done. }
  { intros i Hi%elem_of_seq. split.
    - specialize (Hi1 a). rewrite decide_True in Hi1 by done. unfold info in Hi1. unfold tall.
      destruct (h1 !! a); naive_solver lia.
    - exists o. split; [done|lia]. }
  destruct (destroy_spec h2 (head_ s) Hok2) as (h3 & -> & Hok3 & Hi3 & Hs3).
  { apply info_Some. rewrite Hi2, Hinfo1. eauto. }
  exists a, h3. split_and!; [done..| |].
  - intros b. rewrite Hi3, Hi2, Hi1. repeat case_decide; congruence.
  - intros b i Hb. rewrite Hs3, Hs2, !Hs1, (decide_False (P := head_ s = a)) by done.
    assert (i ∈ seq 0 (Z.to_nat H) <-> Z.of_nat i < H) by (rewrite elem_of_seq; lia).
    repeat case_decide; naive_solver lia.
Qed.

(** Heights may be bounded by more. *)
Lemma data_mono h h' ns ds H H' :
  H <= H' -> (forall a, a ∈ ns -> info h' a = info h a) ->
  Forall2 (fun a d => exists ht, info h a = Some (ht, d) /\ 1 <= ht <= H) ns ds ->
  Forall2 (fun a d => exists ht, info h' a = Some (ht, d) /\ 1 <= ht <= H') ns ds.
Proof.
  intros HH Hi. induction 1 as [|a d ns ds (ht & E & ?) _ IH]; constructor.
  - exists ht. rewrite Hi by (by left). split; [done|lia].
  - apply IH. intros. apply Hi. by right.
Qed.

(** The top layer of a list that has just grown is empty. *)
Lemma layer_top s H ns ds i :
  Inv s H ns ds -> H <= Z.of_nat i -> layer (heap s) i ns = [].
Proof.
  intros I Hi. destruct (layer (heap s) i ns) as [|b l] eqn:E; [done|].
  assert (b ∈ layer (heap s) i ns) as Hb by (rewrite E; by left).
  apply list_elem_of_filter in Hb as [(nd & Hn & ?) [k Hk]%list_elem_of_lookup].
  destruct (Forall2_lookup_l _ _ _ _ _ (inv_data _ _ _ _ I) Hk) as (d & _ & ht & Hx & ?).
  unfold info in Hx. rewrite Hn in Hx. simplify_eq/=. lia.
Qed.

Lemma inv_mem s H ns ds a : Inv s H ns ds -> a ∈ ns -> a <> head_ s /\ is_Some (heap s !! a).
Proof.
  intros I Ha. pose proof (inv_nodup _ _ _ _ I) as [Hn _]%NoDup_cons. split; [set_solver|].
  apply (inv_dom _ _ _ _ I). by right.
Qed.

Lemma grow_inv s H ns ds :
  Inv s H ns ds -> H + 1 <= 63 ->
  exists s', grow_height s (H + 1) = Some s' /\ Inv s' (H + 1) ns ds.
Proof.
  intros I HH. destruct (grow_heap s H ns ds I HH) as (a & h & E & Ha & Hok & Hi & Hs).
  eexists. split; [exact E|]. pose proof (inv_H _ _ _ _ I).
  assert (Hns : forall b, b ∈ ns -> b <> head_ s /\ b <> a).
  { intros b Hb. destruct (inv_mem _ _ _ _ b I Hb) as [? [n Hn]]. split; congruence. }
  assert (Hinfo : forall b, b ∈ ns -> info h b = info (heap s) b).
  { intros b [? ?]%Hns. by rewrite Hi, !decide_False. }
  assert (Hh : a <> head_ s).
  { intros ->. pose proof (inv_head _ _ _ _ I) as E'. unfold info in E'. by rewrite Ha in E'. }
  split; cbn [heap head_ size_].
  - done.
  - by rewrite Hi, decide_True.
  - lia.
  - pose proof (inv_nodup _ _ _ _ I) as [_ ?]%NoDup_cons.
    apply NoDup_cons. split; [|done]. by intros [_ ?]%Hns.
  - intros b. rewrite info_Some, Hi. pose proof (inv_dom _ _ _ _ I b) as Hd.
    rewrite info_Some in Hd. specialize (Hns b). rewrite elem_of_cons in *.
    repeat case_decide; subst; naive_solver.
  - eapply data_mono; [|exact Hinfo|apply (inv_data _ _ _ _ I)]. lia.
  - intros i Hlt. rewrite (layer_info (heap s)) by done. simpl.
    rewrite Hs, decide_True by done. case_decide as Hc.
    + destruct (inv_seg _ _ _ _ I i Hc) as [H1 H2]. split; [done|].
      apply seg_ext with (heap s); [|done]. intros b [_ [? ?]%Hns]%list_elem_of_filter.
      by rewrite Hs, decide_False.
    + rewrite decide_True, (layer_top s H ns ds) by (done || lia). done.
  - apply (inv_sorted _ _ _ _ I).
  - apply (inv_size _ _ _ _ I).
Qed.

(** The memory after a node of height [nh] was linked between [lo] and [hi]. *)
Lemma link_heap s H lo hi ds d nh prevs :
  Inv s H (lo ++ hi) ds -> 1 <= nh <= H ->
  (forall i, Z.of_nat i < H -> prev_at prevs i = Some (pred (heap s) (head_ s) lo i)) ->
  exists a h0 h, create (heap s) nh d = (a, h0) /\
    link_loop h0 a prevs (rev (seq 0 (Z.to_nat nh))) = Some h /\
    heap s !! a = None /\ arrays_ok h /\
    (forall b, info h b = if decide (b = a) then Some (nh, d) else info (heap s) b) /\
    (forall b i, skip h b (Z.of_nat i) =
       if decide (Z.of_nat i < nh) then
         if decide (b = a) then Some (hd_or None (layer (heap s) i hi))
         else if decide (b = pred (heap s) (head_ s) lo i) then Some (Some a)
         else skip (heap s) b (Z.of_nat i)
       else if decide (b = a) then None else skip (heap s) b (Z.of_nat i)).
Proof.
  intros I Hnh Hprevs. pose proof (inv_H _ _ _ _ I).
  destruct (create_spec (heap s) nh d) as (a & h1 & E & Ha & Hok1 & _ & _ & Hi1 & Hs1);
    [lia|apply (inv_ok _ _ _ _ I)|].
  assert (Hpa : forall i, Z.of_nat i < H -> pred (heap s) (head_ s) lo i <> a).
  { intros i Hi Hp. destruct (pred_facts s H lo hi ds i I Hi) as ((n & Hn & _) & _). congruence. }
  destruct (link_loop_spec h1 a prevs (pred (heap s) (head_ s) lo)
    (fun i => hd_or None (layer (heap s) i hi)) (Z.to_nat nh) nh d) as (h & E2 & Hok & Hi & Hs).
  - done.
  - by rewrite Hi1, decide_True.
  - lia.
  - intros i Hlt. assert (Z.of_nat i < H) as HiH by lia.
    destruct (pred_facts s H lo hi ds i I HiH) as (Ht & _ & Hsk & _).
    split_and!; [by apply Hprevs|by apply Hpa| |].
    + apply (tall_info (heap s)); [|done]. by rewrite Hi1, decide_False by auto.
    + by rewrite Hs1, decide_False by auto.
  - exists a, h1, h. split_and!; [done..| |].
    + intros b. by rewrite Hi, Hi1.
    + intros b i. rewrite Hs, !Hs1. repeat case_decide; done || lia.
Qed.

Lemma layer_cons h i a l :
  layer h i (a :: l) = if decide (tall h i a) then a :: layer h i l else layer h i l.
Proof. unfold layer. by rewrite filter_cons. Qed.

(** The layers after linking. *)
Lemma link_seg s H lo hi ds d nh a h i :
  Inv s H (lo ++ hi) ds -> heap s !! a = None -> Z.of_nat i < H ->
  (forall b, info h b = if decide (b = a) then Some (nh, d) else info (heap s) b) ->
  (forall b, skip h b (Z.of_nat i) =
     if decide (Z.of_nat i < nh) then
       if decide (b = a) then Some (hd_or None (layer (heap s) i hi))
       else if decide (b = pred (heap s) (head_ s) lo i) then Some (Some a)
       else skip (heap s) b (Z.of_nat i)
     else if decide (b = a) then None else skip (heap s) b (Z.of_nat i)) ->
  seg h i (head_ s :: layer h i (lo ++ a :: hi)) None.
Proof.
  intros I Ha HiH Hi Hs.
  assert (Hmem : forall b, b ∈ head_ s :: lo ++ hi -> b <> a).
  { intros b Hb%(inv_dom _ _ _ _ I) ->. destruct Hb. congruence. }
  assert (Hl : forall l, (forall b, b ∈ l -> b ∈ lo ++ hi) -> layer h i l = layer (heap s) i l).
  { intros l Hin. apply layer_info. intros b Hb. rewrite Hi, decide_False; [done|].
    apply Hmem. right. by apply Hin. }
  rewrite layer_app, layer_cons, !Hl by set_solver.
  destruct (pred_facts s H lo hi ds i I HiH) as (_ & _ & Hsk & Hhi & l1 & El1 & Hnin & Hl1).
  set (p := pred (heap s) (head_ s) lo i) in *.
  pose proof (inv_nodup _ _ _ _ I) as Hnd.
  assert (Hhd : forall b, b ∈ l1 ++ [p] -> b ∈ head_ s :: lo).
  { intros b. rewrite <-El1, !elem_of_cons. unfold layer. rewrite list_elem_of_filter. tauto. }
  assert (Hphi : forall b, b ∈ layer (heap s) i hi -> b <> p /\ b <> a).
  { intros b [_ Hb]%list_elem_of_filter. split; [|apply Hmem; set_solver]. intros ->.
    change (NoDup ((head_ s :: lo) ++ hi)) in Hnd. apply NoDup_app in Hnd as (_ & Hnd & _).
    apply (Hnd p); [|done]. apply Hhd. set_solver. }
  destruct (decide (tall h i a)) as [Ht|Ht].
  - change (seg h i ((head_ s :: layer (heap s) i lo) ++ a :: layer (heap s) i hi) None).
    assert (Z.of_nat i < nh) as Hn.
    { destruct Ht as (n & Hn & ?). specialize (Hi a). rewrite decide_True in Hi by done.
      unfold info in Hi. rewrite Hn in Hi. simplify_eq/=. done. }
    rewrite El1, <-app_assoc. apply seg_app. split; [|split; [|split]].
    + apply seg_ext with (heap s); [|done]. intros b Hb.
      assert (b <> a) by (apply Hmem; specialize (Hhd b); set_solver).
      rewrite Hs, decide_True, !decide_False by (done || congruence). done.
    + rewrite Hs, decide_True, decide_False, decide_True; [done..| |done].
      apply Hmem. specialize (Hhd p). set_solver.
    + by rewrite Hs, decide_True, decide_True.
    + apply seg_ext with (heap s); [|done]. intros b [? ?]%Hphi.
      by rewrite Hs, decide_True, !decide_False.
  - assert (~ Z.of_nat i < nh) as Hn.
    { intros Hn. apply Ht. specialize (Hi a). rewrite decide_True in Hi by done.
      unfold info in Hi. unfold tall. destruct (h !! a); naive_solver. }
    rewrite <-layer_app. apply seg_ext with (heap s); [|by apply (inv_seg _ _ _ _ I)].
    intros b Hb. rewrite Hs, decide_False, decide_False; [done| |done]. apply Hmem.
    apply elem_of_cons in Hb as [->|[_ ?]%list_elem_of_filter]; [by left|by right].
Qed.

Lemma link_inv (Laws : OrderLaws) s H lo hi dlo dhi d nh prevs :
  Inv s H (lo ++ hi) (dlo ++ dhi) -> length lo = length dlo ->
  Forall (Below d) dlo -> Forall (NotBelow d) dhi ->
  1 <= nh <= H -> Z.of_nat (length (dlo ++ dhi)) + 1 < 2 ^ 64 ->
  (forall i, Z.of_nat i < H -> prev_at prevs i = Some (pred (heap s) (head_ s) lo i)) ->
  exists a h0 h, create (heap s) nh d = (a, h0) /\
    link_loop h0 a prevs (rev (seq 0 (Z.to_nat nh))) = Some h /\
    Inv (mkSkipList h (head_ s) (u64 (size_ s + 1))) H (lo ++ a :: hi) (dlo ++ d :: dhi).
Proof.
  intros I Hlen Hlo Hhi Hnh Hsz Hprevs.
  destruct (link_heap s H lo hi _ d nh prevs I Hnh Hprevs) as (a & h0 & h & E1 & E2 & Ha & Hok & Hi & Hs).
  exists a, h0, h. split_and!; [done..|].
  assert (Hmem : forall b, b ∈ head_ s :: lo ++ hi -> b <> a).
  { intros b Hb%(inv_dom _ _ _ _ I) ->. destruct Hb. congruence. }
  assert (Hinfo : forall b, b ∈ lo ++ hi -> info h b = info (heap s) b).
  { intros b Hb. rewrite Hi, decide_False; [done|]. apply Hmem. by right. }
  pose proof (inv_data _ _ _ _ I) as Hd. apply Forall2_app_inv in Hd as [Hd1 Hd2]; [|done].
  split; cbn [heap head_ size_].
  - done.
  - rewrite Hi, decide_False; [apply (inv_head _ _ _ _ I)|]. apply Hmem. by left.
  - apply (inv_H _ _ _ _ I).
  - pose proof (inv_nodup _ _ _ _ I) as Hnd.
    rewrite <-(Permutation_middle lo hi a). rewrite (Permutation_swap a (head_ s)).
    apply NoDup_cons. split; [|done]. intros Hin. by apply (Hmem a Hin).
  - intros b. rewrite info_Some, Hi. pose proof (inv_dom _ _ _ _ I b) as Hdom.
    rewrite info_Some in Hdom. case_decide; [subst; set_solver|]. rewrite Hdom. set_solver.
  - apply Forall2_app; [|constructor].
    + eapply data_mono; [done| |done]. intros; apply Hinfo; set_solver.
    + exists nh. by rewrite Hi, decide_True.
    + eapply data_mono; [done| |done]. intros; apply Hinfo; set_solver.
  - intros i HiH. eapply link_seg; eauto.
  - apply sorted_put; [done|apply (inv_sorted _ _ _ _ I)|done|done].
  - rewrite (inv_size _ _ _ _ I), u64_small by lia. rewrite !length_app. simpl. lia.
Qed.

(** The memory after the node [x] was unlinked and destroyed. *)
Lemma unlink_heap s H lo x hi ds n prevs :
  Inv s H (lo ++ x :: hi) ds -> heap s !! x = Some n ->
  (forall i, Z.of_nat i < H -> prev_at prevs i = Some (pred (heap s) (head_ s) lo i)) ->
  exists h0 h, unlink_loop (heap s) x prevs (rev (seq 0 (Z.to_nat (height_ n)))) = Some h0 /\
    destroy h0 x = Some h /\ arrays_ok h /\
    (forall b, info h b = if decide (b = x) then None else info (heap s) b) /\
    (forall b i, b <> x -> Z.of_nat i < H -> skip h b (Z.of_nat i) =
       if decide (b = pred (heap s) (head_ s) lo i) then Some (hd_or None (layer (heap s) i hi))
       else skip (heap s) b (Z.of_nat i)) /\
    height_ n <= H.
Proof.
  intros I Hn Hprevs.
  assert (HnH : height_ n <= H).
  { pose proof (inv_data _ _ _ _ I) as Hd. apply Forall2_app_inv_l in Hd as (d1 & d2 & _ & Hd & _).
    apply Forall2_cons_inv_l in Hd as (d & d3 & (ht & E & ?) & _ & _).
    unfold info in E. rewrite Hn in E. simplify_eq/=. lia. }
  pose proof (inv_nodup _ _ _ _ I) as Hnd.
  assert (Hpx : forall i, Z.of_nat i < H -> pred (heap s) (head_ s) lo i <> x).
  { intros i Hi Hp. destruct (pred_facts s H lo _ ds i I Hi) as (_ & Hin & _).
    change (NoDup ((head_ s :: lo) ++ x :: hi)) in Hnd. apply NoDup_app in Hnd as (_ & Hnd & _).
    apply (Hnd x); [by rewrite <-Hp at 1|by left]. }
  assert (Hskx : forall i, Z.of_nat i < H -> layer (heap s) i (x :: hi) =
            if decide (Z.of_nat i < height_ n) then x :: layer (heap s) i hi else layer (heap s) i hi).
  { intros i Hi. rewrite layer_cons. assert (tall (heap s) i x <-> Z.of_nat i < height_ n).
    { unfold tall. rewrite Hn. naive_solver. }
    destruct (decide (tall (heap s) i x)), (decide (Z.of_nat i < height_ n)); tauto. }
  destruct (unlink_loop_spec (heap s) x prevs (pred (heap s) (head_ s) lo)
    (fun i => hd_or None (layer (heap s) i hi)) (Z.to_nat (height_ n))) as (h0 & E & Hok & Hi & Hs).
  - apply (inv_ok _ _ _ _ I).
  - intros i Hlt. assert (Z.of_nat i < H) as HiH by lia.
    destruct (pred_facts s H lo _ ds i I HiH) as (Ht & _ & _ & Hsk & _).
    rewrite Hskx, decide_True in Hsk by lia. destruct Hsk as [Hsk _]. auto.
  - destruct (destroy_spec h0 x Hok) as (h & E2 & Hok2 & Hi2 & Hs2).
    { apply info_Some. rewrite Hi. apply info_Some. eauto. }
    exists h0, h. split_and!; [done..| | |done].
    + intros b. by rewrite Hi2, Hi.
    + intros b i Hb HiH. rewrite Hs2, Hs by done.
      destruct (pred_facts s H lo _ ds i I HiH) as (_ & _ & Hsk & _). rewrite Hskx in Hsk by done.
      repeat case_decide; subst; done || lia.
Qed.

Lemma unlink_seg s H lo x hi ds h i :
  Inv s H (lo ++ x :: hi) ds -> Z.of_nat i < H ->
  (forall b i, b <> x -> Z.of_nat i < H -> skip h b (Z.of_nat i) =
     if decide (b = pred (heap s) (head_ s) lo i) then Some (hd_or None (layer (heap s) i hi))
     else skip (heap s) b (Z.of_nat i)) ->
  NoDup (head_ s :: lo ++ hi) -> (forall b, b ∈ head_ s :: lo ++ hi -> b <> x) ->
  seg h i (head_ s :: layer (heap s) i (lo ++ hi)) None.
Proof.
  intros I HiH Hs Hnd Hmem. rewrite layer_app.
  destruct (pred_facts s H lo _ ds i I HiH) as (_ & _ & _ & Hhi & l1 & El1 & Hnin & Hl1).
  change (seg h i ((head_ s :: layer (heap s) i lo) ++ layer (heap s) i hi) None).
  set (p := pred (heap s) (head_ s) lo i) in *.
  assert (Hall : forall b, b ∈ (l1 ++ [p]) ++ layer (heap s) i hi -> b <> x).
  { rewrite <-El1. intros b Hb. apply Hmem. cbn [app] in Hb. rewrite <-layer_app in Hb.
    apply elem_of_cons in Hb as [->|[_ ?]%list_elem_of_filter]; [by left|by right]. }
  assert (Hphi : p ∉ layer (heap s) i hi).
  { intros [_ Hp]%list_elem_of_filter. change (NoDup ((head_ s :: lo) ++ hi)) in Hnd.
    apply NoDup_app in Hnd as (_ & Hnd & _). apply (Hnd p); [|done].
    assert (p ∈ head_ s :: layer (heap s) i lo) as Hp2 by (rewrite El1; set_solver).
    apply elem_of_cons in Hp2 as [Hp2|[_ ?]%list_elem_of_filter]; [rewrite Hp2; by left|by right]. }
  rewrite El1, <-app_assoc in *. apply seg_app. split; [|split].
  - apply seg_ext with (heap s); [|done]. intros b Hb.
    rewrite Hs, decide_False; [done|by intros ->|apply Hall; set_solver|done].
  - rewrite Hs, decide_True; [done..|apply Hall; set_solver|done].
  - apply seg_ext with (heap s).
    + intros b Hb. rewrite Hs, decide_False; [done|by intros ->|apply Hall; set_solver|done].
    + rewrite layer_cons in Hhi. destruct (decide _); [by destruct Hhi|done].
Qed.

Lemma unlink_inv s H lo x hi dlo dx dhi n prevs :
  Inv s H (lo ++ x :: hi) (dlo ++ dx :: dhi) -> length lo = length dlo ->
  heap s !! x = Some n -> Z.of_nat (length (dlo ++ dx :: dhi)) < 2 ^ 64 ->
  (forall i, Z.of_nat i < H -> prev_at prevs i = Some (pred (heap s) (head_ s) lo i)) ->
  exists h0 h, unlink_loop (heap s) x prevs (rev (seq 0 (Z.to_nat (height_ n)))) = Some h0 /\
    destroy h0 x = Some h /\
    Inv (mkSkipList h (head_ s) (u64 (size_ s - 1))) H (lo ++ hi) (dlo ++ dhi).
Proof.
  intros I Hlen Hn Hsz Hprevs.
  destruct (unlink_heap s H lo x hi _ n prevs I Hn Hprevs) as (h0 & h & E1 & E2 & Hok & Hi & Hs & _).
  exists h0, h. split_and!; [done..|].
  pose proof (inv_nodup _ _ _ _ I) as Hnd.
  rewrite <-(Permutation_middle lo hi x), (Permutation_swap x (head_ s)) in Hnd.
  apply NoDup_cons in Hnd as [Hx Hnd].
  assert (Hmem : forall b, b ∈ head_ s :: lo ++ hi -> b <> x) by (intros b Hb ->; done).
  assert (Hinfo : forall b, b ∈ lo ++ hi -> info h b = info (heap s) b).
  { intros b Hb. rewrite Hi, decide_False; [done|]. apply Hmem. by right. }
  pose proof (inv_data _ _ _ _ I) as Hd. apply Forall2_app_inv in Hd as [Hd1 Hd2]; [|done].
  apply Forall2_cons in Hd2 as [_ Hd2].
  split; cbn [heap head_ size_].
  - done.
  - rewrite Hi, decide_False; [apply (inv_head _ _ _ _ I)|]. apply Hmem. by left.
  - apply (inv_H _ _ _ _ I).
  - done.
  - intros b. rewrite info_Some, Hi. pose proof (inv_dom _ _ _ _ I b) as Hdom.
    rewrite info_Some in Hdom. specialize (Hmem b). case_decide.
    + split; [by intros []|]. intros ?%Hmem. done.
    + rewrite Hdom. set_solver.
  - apply Forall2_app; (eapply data_mono; [done| |done]); intros; apply Hinfo; set_solver.
  - intros i HiH. rewrite (layer_info (heap s)) by done. by eapply unlink_seg; eauto.
  - by apply sorted_drop with dx, (inv_sorted _ _ _ _ I).
  - rewrite (inv_size _ _ _ _ I), !length_app in *. simpl in *. rewrite u64_small by lia. lia.
Qed.

(** * Operations and their sorted-list specification *)

Inductive Op :=
  | OInsert (p : spec_float) (d : T) (is_force_insert : bool)
  | ORemove (d : T) | OFind (d : T) | OSize | OPrint.

(** A printed list shows its bottom layer and whether the size was reported invalid. *)
Inductive Res := RBool (b : bool) | RSize (n : Z) | RPrint (bottom : option (list T)) (bad : bool).

Definition exec (op : Op) (s : SkipList) : option (Res * SkipList) :=
  match op with
  | OInsert p d f => r <-? insert s p d f; Some (RBool (fst r), snd r)
  | ORemove d => r <-? remove s d; Some (RBool (fst r), snd r)
  | OFind d => b <-? find s d; Some (RBool b, s)
  | OSize => Some (RSize (size_of s), s)
  | OPrint => r <-? print s; Some (RPrint (last (fst r)) (snd r), s)
  end.

Fixpoint run (ops : list Op) (s : SkipList) : option (list Res * SkipList) :=
  match ops with
  | [] => Some ([], s)
  | op :: ops =>
      r <-? exec op s;
      t <-? run ops (snd r);
      Some (fst r :: fst t, snd t)
  end.

Definition spec (op : Op) (ds : list T) : Res * list T :=
  match op with
  | OInsert _ d f =>
      (RBool (mem d ds), if mem d ds && negb f then ds else sorted_insert d ds)
  | ORemove d => (RBool (mem d ds), if mem d ds then sorted_remove d ds else ds)
  | OFind d => (RBool (mem d ds), ds)
  | OSize => (RSize (Z.of_nat (length ds)), ds)
  | OPrint => (RPrint (Some ds) false, ds)
  end.

Fixpoint spec_run (ops : list Op) (ds : list T) : list Res * list T :=
  match ops with
  | [] => ([], ds)
  | op :: ops =>
      let (r, ds) := spec op ds in
      let (rs, ds) := spec_run ops ds in (r :: rs, ds)
  end.

Section operations.
Context (Laws : OrderLaws) (HMAX : 0 <= MAX_HEIGHT <= 63).
Context (Htbl : length (lookupTable_ tbl) = 64%nat /\ length (sizeLimitTable_ tbl) = 64%nat).

Lemma holds_inv s H lo hi dlo dhi d :
  Inv s H (lo ++ hi) (dlo ++ dhi) -> length lo = length dlo ->
  Forall (Below d) dlo -> Forall (NotBelow d) dhi ->
  holds (heap s) (hd_or None hi) d = Some (mem d (dlo ++ dhi)).
Proof.
  intros I Hlen Hlo Hhi. rewrite (mem_split Laws); [|apply (inv_sorted _ _ _ _ I)|done|done].
  pose proof (inv_data _ _ _ _ I) as Hd. apply Forall2_app_inv in Hd as [_ Hd]; [|done].
  destruct Hd as [|x dx hi dhi (ht & Hx & _)]; [done|]. simpl.
  unfold info in Hx. destruct (heap s !! x); by simplify_eq/=.
Qed.

Lemma insert_inv s H ns ds p d f :
  Inv s H ns ds -> Z.of_nat (length ds) + 1 < 2 ^ 64 ->
  exists s' H' ns', insert s p d f = Some (mem d ds, s') /\
    Inv s' H' ns' (if mem d ds && negb f then ds else sorted_insert d ds) /\
    H <= H' <= H `max` MAX_HEIGHT.
Proof.
  intros I Hsz. unfold insert. rewrite (inv_height _ _ _ _ I). pose proof (inv_H _ _ _ _ I).
  unfold getSizeLimit. rewrite (proj2 (Z.leb_le _ _)) by lia.
  destruct Htbl as [Hl1 Hl2].
  destruct (lookup_lt_is_Some_2 (sizeLimitTable_ tbl) (Z.to_nat H)) as [lim ->]; [lia|].
  assert (exists s1 H1, (if (H <? MAX_HEIGHT) && (lim <? u64 (size_ s + 1))
            then grow_height s (H + 1) else Some s) = Some s1 /\
            Inv s1 H1 ns ds /\ H <= H1 <= H `max` MAX_HEIGHT) as (s1 & H1 & -> & I1 & HH1).
  { wz_if; [|exists s, H; split_and!; done || lia].
    destruct (grow_inv s H ns ds I) as (s1 & ? & ?); [lia|].
    exists s1, (H + 1). split_and!; done || lia. }
  clear I lim. rewrite (inv_height _ _ _ _ I1). pose proof (inv_H _ _ _ _ I1).
  destruct (getHeight_range p H1 Hl1) as (nh & -> & Hnh); [lia|].
  destruct (search_inv Laws s1 H1 ns ds d I1)
    as (lo & hi & dlo & dhi & prevs & -> & -> & Hlo & Hhi & Hlen & -> & _ & Hprevs).
  rewrite (holds_inv s1 H1 lo hi dlo dhi d) by done. set (m := mem d (dlo ++ dhi)).
  assert ((m && f) || negb m = negb (m && negb f)) as -> by by destruct m, f.
  destruct (m && negb f); cbn [negb]; [by exists s1, H1, (lo ++ hi)|].
  destruct (link_inv Laws s1 H1 lo hi dlo dhi d nh prevs) as (a & h0 & h & -> & -> & I2); [done..|].
  eexists _, H1, _. split_and!; [done| |lia|lia]. by rewrite sorted_insert_split.
Qed.

Lemma remove_inv s H ns ds d :
  Inv s H ns ds -> Z.of_nat (length ds) < 2 ^ 64 ->
  exists s' ns', remove s d = Some (mem d ds, s') /\
    Inv s' H ns' (if mem d ds then sorted_remove d ds else ds).
Proof.
  intros I Hsz. unfold remove. rewrite (inv_height _ _ _ _ I).
  destruct (search_inv Laws s H ns ds d I)
    as (lo & hi & dlo & dhi & prevs & -> & -> & Hlo & Hhi & Hlen & -> & _ & Hprevs).
  pose proof (holds_inv s H lo hi dlo dhi d I Hlen Hlo Hhi) as Hh.
  destruct hi as [|x hi]; simpl in *; [injection Hh as <-; eauto|].
  destruct (heap s !! x) as [n|] eqn:Hx; [|done]. injection Hh as Hm. rewrite Hm.
  destruct (mem d (dlo ++ dhi)) eqn:Em; simpl; [|eauto].
  pose proof (inv_data _ _ _ _ I) as Hd. apply Forall2_app_inv in Hd as [_ Hd]; [|done].
  apply Forall2_cons_inv_l in Hd as (dx & dhi' & (ht & E & _) & _ & ->).
  unfold info in E. rewrite Hx in E. simplify_eq/=.
  destruct (unlink_inv s H lo x hi dlo (data_ n) dhi' n prevs) as (h0 & h & -> & -> & I2); [done..|].
  rewrite (sorted_remove_split Laws) by done. eauto.
Qed.

Lemma find_inv s H ns ds d : Inv s H ns ds -> find s d = Some (mem d ds).
Proof.
  intros I. unfold find.
  destruct (search_inv Laws s H ns ds d I)
    as (lo & hi & dlo & dhi & prevs & -> & -> & Hlo & Hhi & Hlen & _ & -> & _).
  by eapply holds_inv.
Qed.

(** Walking a layer shows the data of its nodes. *)
Lemma print_layer_spec h i l fuel :
  seg h i l None -> (length l <= fuel)%nat -> (forall a, a ∈ l -> is_Some (h !! a)) ->
  exists r, print_layer fuel h (Z.of_nat i) (hd_or None l) = Some r /\
    Forall2 (fun a d => exists ht, info h a = Some (ht, d)) l r.
Proof.
  intros Hs Hf Hin. revert fuel Hf.
  induction l as [|a l IH]; intros fuel Hf; [exists []; by destruct fuel|].
  destruct fuel as [|fuel]; [simpl in Hf; lia|]. destruct Hs as [Hs1 Hs2]. simpl.
  destruct (Hin a ltac:(by left)) as [n Hn]. rewrite Hn, Hs1.
  destruct (IH Hs2 ltac:(intros; apply Hin; by right) fuel) as (r & -> & Hr); [simpl in Hf; lia|].
  eexists. split; [done|]. constructor; [|done]. exists (height_ n). unfold info. by rewrite Hn.
Qed.

Lemma data_unique h H ns ds r :
  Forall2 (fun a d => exists ht, info h a = Some (ht, d) /\ 1 <= ht <= H) ns ds ->
  Forall2 (fun a d => exists ht, info h a = Some (ht, d)) ns r -> r = ds.
Proof.
  intros Hd. revert r. induction Hd as [|a d ns ds (ht & E & _) _ IH]; intros r Hr.
  - by apply Forall2_nil_inv_l in Hr.
  - apply Forall2_cons_inv_l in Hr as (d' & r' & (ht' & E') & Hr & ->).
    rewrite E in E'. injection E' as <- <-. f_equal. by apply IH.
Qed.

Lemma print_loop_spec s H ns ds n :
  Inv s H ns ds -> Z.of_nat n <= H ->
  exists ls, print_loop s (rev (seq 0 n)) = Some ls /\
    length ls = n /\ (n <> 0%nat -> last ls = Some ds).
Proof.
  intros I. induction n as [|n IH]; intros Hn; [by exists []|].
  rewrite seq_S, rev_unit, Nat.add_0_l. cbn [print_loop].
  destruct (inv_seg _ _ _ _ I n ltac:(lia)) as [-> Hs].
  destruct (print_layer_spec (heap s) n (layer (heap s) n ns) (size (heap s))) as (r & -> & Hr).
  - done.
  - rewrite (inv_heap_size _ _ _ _ I). unfold layer. pose proof (length_filter (tall (heap s) n) ns). lia.
  - intros a [_ Ha]%list_elem_of_filter. by eapply inv_mem.
  - destruct IH as (ls & -> & Hlen & Hls); [lia|]. exists (r :: ls).
    split; [done|]. split; [by rewrite <-Hlen|]. intros _.
    destruct n as [|n]; [|specialize (Hls ltac:(done)); by destruct ls].
    destruct ls; [|done]. change (Some r = Some ds). f_equal. pose proof (inv_data _ _ _ _ I) as Hd.
    rewrite layer_all in Hr.
    + by eapply data_unique.
    + intros a [k Hk]%list_elem_of_lookup. destruct (Forall2_lookup_l _ _ _ _ _ Hd Hk) as (d & _ & ht & E & ?).
      unfold info in E. unfold tall. destruct (heap s !! a); naive_solver lia.
Qed.

Lemma print_inv s H ns ds :
  Inv s H ns ds -> exists ls, print s = Some (ls, false) /\ last ls = Some ds.
Proof.
  intros I. unfold print, maxLayer. rewrite (inv_height _ _ _ _ I). pose proof (inv_H _ _ _ _ I).
  replace (H - 1 + 1) with H by lia.
  destruct (print_loop_spec s H ns ds (Z.to_nat H) I) as (ls & -> & _ & Hls); [lia|].
  exists ls. rewrite Hls by lia. by rewrite (inv_size _ _ _ _ I), Z.eqb_refl.
Qed.

(** The destructor frees every node. *)
Lemma dtor_loop_spec l : forall h fuel,
  seg h 0 l None -> NoDup l -> (forall a, is_Some (h !! a) <-> a ∈ l) -> (length l <= fuel)%nat ->
  dtor_loop fuel h (hd_or None l) = Some ∅.
Proof.
  induction l as [|a l IH]; intros h fuel Hs Hnd Hdom Hf.
  - assert (h = ∅) as ->; [|by destruct fuel].
    apply map_empty. intros b. apply eq_None_not_Some. rewrite Hdom. set_solver.
  - destruct fuel as [|fuel]; [simpl in Hf; lia|]. destruct Hs as [Hs1 Hs2]. simpl.
    apply NoDup_cons in Hnd as [Hna Hnd].
    change 0 with (Z.of_nat 0). rewrite Hs1. unfold destroy.
    destruct (proj2 (Hdom a) ltac:(by left)) as [n ->]. apply IH; [|done| |simpl in Hf; lia].
    + apply seg_ext with h; [|done]. intros b Hb. unfold skip. rewrite lookup_delete_ne; [done|].
      by intros ->.
    + intros b. rewrite lookup_delete_is_Some, Hdom, elem_of_cons. naive_solver.
Qed.

Lemma dtor_inv s H ns ds : Inv s H ns ds -> dtor s = Some ∅.
Proof.
  intros I. pose proof (inv_H _ _ _ _ I). unfold dtor.
  change (Some (head_ s)) with (hd_or None (head_ s :: ns)).
  apply dtor_loop_spec; [|apply (inv_nodup _ _ _ _ I)|apply (inv_dom _ _ _ _ I)|].
  - pose proof (inv_seg _ _ _ _ I 0%nat ltac:(lia)) as Hs. rewrite layer_all in Hs; [done|].
    intros a [k Hk]%list_elem_of_lookup.
    destruct (Forall2_lookup_l _ _ _ _ _ (inv_data _ _ _ _ I) Hk) as (d & _ & ht & E & ?).
    unfold info in E. unfold tall. destruct (heap s !! a); naive_solver lia.
  - by rewrite (inv_heap_size _ _ _ _ I).
Qed.

Lemma exec_inv s H ns ds op :
  Inv s H ns ds -> Z.of_nat (length ds) + 1 < 2 ^ 31 ->
  exists s' H' ns', exec op s = Some (fst (spec op ds), s') /\
    Inv s' H' ns' (snd (spec op ds)) /\ H <= H' <= H `max` MAX_HEIGHT.
Proof.
  intros I Hsz. destruct op as [p d f|d|d| |]; cbn [exec spec].
  - destruct (insert_inv s H ns ds p d f I) as (s' & H' & ns' & -> & I' & ?); [lia|].
    by exists s', H', ns'.
  - destruct (remove_inv s H ns ds d I) as (s' & ns' & -> & I'); [lia|].
    exists s', H, ns'. split_and!; done || lia.
  - rewrite (find_inv s H ns ds d I). exists s, H, ns. split_and!; done || lia.
  - exists s, H, ns. unfold size_of. rewrite (inv_size _ _ _ _ I), i32_small by lia.
    split_and!; done || lia.
  - destruct (print_inv s H ns ds I) as (ls & -> & Hls). exists s, H, ns. cbn [fst snd].
    rewrite Hls. split_and!; done || lia.
Qed.

Lemma spec_length op ds : (length (snd (spec op ds)) <= length ds + 1)%nat.
Proof.
  assert (Hi : forall d, length (sorted_insert d ds) = (length ds + 1)%nat).
  { intros d. induction ds as [|x l IH]; simpl; [done|]. destruct (Comp x d); simpl; lia. }
  assert (Hr : forall d, (length (sorted_remove d ds) <= length ds)%nat).
  { intros d. clear Hi. induction ds as [|x l IH]; simpl; [done|]. destruct (eqT x d); simpl; lia. }
  destruct op as [p d f|d|d| |]; cbn [spec snd]; try lia; wz_if; rewrite ?Hi; try lia.
  specialize (Hr d). lia.
Qed.

Lemma run_inv ops : forall s H ns ds,
  Inv s H ns ds -> Z.of_nat (length ds + length ops) < 2 ^ 31 ->
  exists s' H' ns', run ops s = Some (fst (spec_run ops ds), s') /\
    Inv s' H' ns' (snd (spec_run ops ds)) /\ H <= H' <= H `max` MAX_HEIGHT.
Proof.
  induction ops as [|op ops IH]; intros s H ns ds I Hsz; cbn [run spec_run].
  { exists s, H, ns. split_and!; done || lia. }
  simpl in Hsz. destruct (exec_inv s H ns ds op I) as (s1 & H1 & ns1 & -> & I1 & HH1); [lia|].
  pose proof (spec_length op ds) as Hl. destruct (spec op ds) as [r ds1]. simpl in *.
  destruct (IH s1 H1 ns1 ds1 I1) as (s2 & H2 & ns2 & -> & I2 & HH2); [lia|].
  destruct (spec_run ops ds1) as [rs ds2]. exists s2, H2, ns2. split_and!; done || lia.
Qed.
End operations.
End skiplist.

Arguments OrderLaws {_}.

(** The tables have [kMaxHeight] entries whatever [exp] returns. *)
Lemma initLookupTable_loop_length e n : forall k p lim t,
  (1 <= k)%nat -> length (lookupTable_ t) = k -> length (sizeLimitTable_ t) = k ->
  exists p' lim' t', initLookupTable_loop e (seq k n) (p, lim, t) = Some (p', lim', t') /\
    length (lookupTable_ t') = (k + n)%nat /\ length (sizeLimitTable_ t') = (k + n)%nat.
Proof.
  induction n as [|n IH]; intros k p lim t Hk H1 H2; cbn [seq initLookupTable_loop].
  { exists p, lim, t. split_and!; [done|lia|lia]. }
  unfold initLookupTable_round.
  destruct (lookup_lt_is_Some_2 (lookupTable_ t) (k - 1)) as [l ->]; [lia|].
  edestruct (IH (S k)) as (p' & lim' & t' & -> & H3 & H4).
  4:{ exists p', lim', t'. split_and!; [done|lia|lia]. }
  all: cbn [lookupTable_ sizeLimitTable_]; rewrite ?length_app; simpl; lia.
Qed.

Lemma initLookupTable_length e : exists t, initLookupTable e = Some t /\
  length (lookupTable_ t) = 64%nat /\ length (sizeLimitTable_ t) = 64%nat.
Proof.
  unfold initLookupTable.
  destruct (initLookupTable_loop_length e 62 1 (dbl_sub (dbl_of_Z 1) (kProb e)) (dbl_of_Z 1)
    (mkTables [dbl_sub (dbl_of_Z 1) (kProb e)] [1])) as (p & lim & t & -> & H1 & H2); [done..|].
  eexists. split; [done|]. cbn [lookupTable_ sizeLimitTable_]. rewrite !length_app, H1, H2. done.
Qed.

(** * Properties *)

(** C7: for every order that is a strict total order, whatever heights are drawn and
    whatever [exp] returns, every sequence of fewer than 2^31 insertions (plain or
    forced), removals, searches, size queries and prints on a fresh skip list runs
    without undefined behaviour and answers like a sorted list of data: insertion
    reports whether the datum was there and puts it before its equals, removal takes
    the first equal one away, [find] is membership, [size] is the length, the bottom
    layer prints the whole list, and [print] never reports an invalid size. *)
Theorem skiplist_refines_sorted_list {T : Type} (Comp eqT : T -> T -> bool) (dflt : T)
    (MAX_HEIGHT : Z) (expOne : spec_float) (init_height : Z) (ops : list (Op (T := T))) :
  OrderLaws Comp eqT -> 0 <= MAX_HEIGHT <= 63 -> 1 <= init_height <= 63 ->
  Z.of_nat (length ops) < 2 ^ 31 ->
  exists t s H, initLookupTable expOne = Some t /\
    run Comp eqT dflt MAX_HEIGHT t ops (ctor dflt init_height) =
      Some (fst (spec_run Comp eqT ops []), s) /\
    height s = Some H /\ init_height <= H <= init_height `max` MAX_HEIGHT.
Proof.
  intros Laws HM HH Hops. destruct (initLookupTable_length expOne) as (t & Ht & Hl).
  destruct (run_inv Comp eqT dflt MAX_HEIGHT t Laws HM Hl ops (ctor dflt init_height)
    init_height [] [] (ctor_inv Comp eqT dflt init_height HH)) as (s & H & ns & E & I & HH').
  { simpl. lia. }
  exists t, s, H. split_and!; [done..|by eapply inv_height|lia|lia].
Qed.

(** The libm value of [exp(1)], and a draw of a low and of a high node. *)
Definition exp1 : spec_float := S754_finite false 6121026514868073 (-51).
Definition lowDraw : spec_float := S754_finite false 1 (-2).
Definition highDraw : spec_float := S754_finite false 8556839292003942 (-53).

Definition sample_ops : list (Op (T := Z)) :=
  [OInsert lowDraw 5 false; OInsert highDraw 3 false; OInsert highDraw 9 false;
   OInsert lowDraw 5 false; OInsert highDraw 5 true; OFind 4; OFind 5; OPrint;
   ORemove 5; OFind 5; ORemove 5; OFind 5; ORemove 5; OSize].

Lemma Z_OrderLaws : OrderLaws Z.ltb Z.eqb.
Proof.
  split; intros x; [apply Z.ltb_irrefl|..]; intros y.
  - intros z. rewrite !Z.ltb_lt. lia.
  - rewrite !Z.ltb_ge. lia.
  - apply Z.eqb_eq.
Qed.

Lemma skiplist_refines_sorted_list_witness :
  (exists t s H, initLookupTable exp1 = Some t /\
    run Z.ltb Z.eqb 0 24 t sample_ops (ctor 0 1) =
      Some (fst (spec_run Z.ltb Z.eqb sample_ops []), s) /\
    height s = Some H /\ 1 <= H <= 1 `max` 24) /\
  fst (spec_run Z.ltb Z.eqb sample_ops []) =
    [RBool false; RBool false; RBool false; RBool true; RBool true; RBool false; RBool true;
     RPrint (Some [3; 5; 5; 9]) false; RBool true; RBool true; RBool true; RBool false;
     RBool false; RSize 2].
Proof.
  split; [|vm_compute; reflexivity].
  apply (skiplist_refines_sorted_list Z.ltb Z.eqb 0 24 exp1 1 sample_ops Z_OrderLaws); simpl; lia.
Defined.

(** The destructor frees every node of a list that any sequence of operations
    left behind, each exactly once: its run is defined and the heap ends empty. *)
Theorem skiplist_destructor_frees_all {T : Type} (Comp eqT : T -> T -> bool) (dflt : T)
    (MAX_HEIGHT : Z) (expOne : spec_float) (init_height : Z) (ops : list (Op (T := T))) t rs s :
  OrderLaws Comp eqT -> 0 <= MAX_HEIGHT <= 63 -> 1 <= init_height <= 63 ->
  Z.of_nat (length ops) < 2 ^ 31 -> initLookupTable expOne = Some t ->
  run Comp eqT dflt MAX_HEIGHT t ops (ctor dflt init_height) = Some (rs, s) ->
  size (heap s) = S (length (snd (spec_run Comp eqT ops []))) /\ dtor s = Some ∅.
Proof.
  intros Laws HM HH Hops Ht Hrun. destruct (initLookupTable_length expOne) as (t' & Ht' & Hl).
  rewrite Ht in Ht'. injection Ht' as <-.
  destruct (run_inv Comp eqT dflt MAX_HEIGHT t Laws HM Hl ops (ctor dflt init_height)
    init_height [] [] (ctor_inv Comp eqT dflt init_height HH)) as (s' & H & ns & E & I & HH').
  { simpl. lia. }
  rewrite E in Hrun. injection Hrun as <- <-. split; [|by eapply dtor_inv].
  rewrite (inv_heap_size _ _ _ _ _ _ I). f_equal. by eapply Forall2_length, inv_data.
Qed.

Definition sample_tables : Tables := default (mkTables [] []) (initLookupTable exp1).
Definition sample_end : SkipList (T := Z) :=
  match run Z.ltb Z.eqb 0 24 sample_tables (take 8 sample_ops) (ctor 0 1) with
  | Some r => snd r
  | None => ctor 0 1
  end.

Lemma skiplist_destructor_frees_all_witness :
  size (heap sample_end) = 5%nat /\ dtor sample_end = Some ∅.
Proof.
  apply (skiplist_destructor_frees_all Z.ltb Z.eqb 0 24 exp1 1 (take 8 sample_ops) sample_tables
    (fst (spec_run Z.ltb Z.eqb (take 8 sample_ops) [])) sample_end Z_OrderLaws);
    [lia|lia|simpl; lia| |]; vm_compute; reflexivity.
Defined.
