(* ===== verification/CountedQueue.v ===== *)
(** The reference-counted queue of src/src/nonlock_free_queue.h (class LockFreeQueue).

    Every thread runs [push] or [pop] cut at its accesses to shared memory: a load, an
    exchange, a strong compare-and-exchange, a read or write of a plain field, a
    [delete].  Memory is sequentially consistent; a [CountedNodePtr] and a
    [NodeCounter] are exchanged as one word.  An access to a node that is not allocated
    is the outcome [UAF], an increment of an [int] that is at its maximum the outcome
    [Overflow].  The allocator may return any address that is not in use.

    [pushed], [npopped] and [rets] are a history no operation reads: the values in the
    order in which the tail was swung, the number of times the head was advanced, and
    the values that were returned, each with the number of the advance it belongs to. *)
From S2P Require Import Prelude.

(** * Data *)

Section data.
Context {V : Type} `{EqDecision V}.

Record CountedNodePtr := mkPtr { external_count : Z; ptr : option nat }.
Record NodeCounter := mkCounter { internal_count : Z; external_counters : Z }.
Record Node := mkNode { data : option V; count : NodeCounter; next : CountedNodePtr }.

#[export] Instance CountedNodePtr_eq_dec : EqDecision CountedNodePtr.
Proof. solve_decision. Defined.
#[export] Instance NodeCounter_eq_dec : EqDecision NodeCounter.
Proof. solve_decision. Defined.

(** The bit fields [internal_count:30] and [external_counters:2]. *)
Definition u30 (x : Z) : Z := x mod 2 ^ 30.
Definition u2 (x : Z) : Z := x mod 2 ^ 2.

(** [Node::Node] *)
Definition new_node : Node := mkNode None (mkCounter 0 2) (mkPtr 0 None).

Record Shared := mkShared {
  heap : gmap nat Node;
  head : CountedNodePtr;
  tail : CountedNodePtr;
  pushed : list V;
  npopped : nat;
  rets : list (nat * V)
}.

Definition set_heap (h : gmap nat Node) (s : Shared) : Shared :=
  mkShared h (head s) (tail s) (pushed s) (npopped s) (rets s).
Definition set_head (c : CountedNodePtr) (s : Shared) : Shared :=
  mkShared (heap s) c (tail s) (pushed s) (npopped s) (rets s).
Definition set_tail (c : CountedNodePtr) (s : Shared) : Shared :=
  mkShared (heap s) (head s) c (pushed s) (npopped s) (rets s).
Definition log_push (v : V) (s : Shared) : Shared :=
  mkShared (heap s) (head s) (tail s) (pushed s ++ [v]) (npopped s) (rets s).
Definition log_pop (s : Shared) : Shared :=
  mkShared (heap s) (head s) (tail s) (pushed s) (S (npopped s)) (rets s).
Definition log_ret (k : nat) (v : V) (s : Shared) : Shared :=
  mkShared (heap s) (head s) (tail s) (pushed s) (npopped s) (rets s ++ [(k, v)]).

(** [LockFreeQueue::LockFreeQueue], with its dummy node at address [a]. *)
Definition LockFreeQueue (a : nat) : Shared :=
  let node_ptr := mkPtr 0 (Some a) in
  mkShared {[a := new_node]} node_ptr node_ptr [] 0 [].

(** * Control points *)

(** What follows [release_ref] or [free_external_counter]: the next round of [push]
    or [pop], or the return from it; [pop] returns the value of its advance [k]. *)
Inductive Cont :=
  | KPush (v : V) (n : nat) (old_tail : CountedNodePtr)
  | KPop (old_head : CountedNodePtr)
  | KDone
  | KRet (k : nat) (v : option V).

Inductive Local :=
  | Idle
  (* push: [new_next.ptr] is [n] *)
  | PushLoad (v : V) (n : nat)
  | PushInc (v : V) (n : nat) (old_tail : CountedNodePtr)
  | PushData (v : V) (n : nat) (old_tail : CountedNodePtr)
  | PushNext (v : V) (n : nat) (old_tail : CountedNodePtr)
  | PushSwing (v : V) (n : nat) (old_tail : CountedNodePtr)
  (* pop *)
  | PopLoad
  | PopInc (old_head : CountedNodePtr)
  | PopTail (old_head : CountedNodePtr)
  | PopNext (old_head : CountedNodePtr)
  | PopCas (old_head : CountedNodePtr) (nx : CountedNodePtr)
  | PopData (old_head : CountedNodePtr) (k : nat)
  (* free_external_counter *)
  | FreeLoad (old_node_ptr : CountedNodePtr) (c : Cont)
  | FreeCas (old_node_ptr : CountedNodePtr) (old_counter : NodeCounter) (c : Cont)
  (* release_ref *)
  | RelLoad (this : nat) (c : Cont)
  | RelCas (this : nat) (old_counter : NodeCounter) (c : Cont)
  (* delete, by either *)
  | Delete (this : nat) (c : Cont).

(** A call is a value to push, with the address [new Node] returns, or a pop. *)
Inductive Act := Call_push (v : V) (a : nat) | Call_pop | Go.

Inductive Outcome := Ok (l : Local) (s : Shared) | UAF | Overflow | Disabled.

(** Use the node behind a pointer. *)
Definition with_node (p : option nat) (s : Shared) (f : nat -> Node -> Outcome) : Outcome :=
  match p with
  | Some a => match heap s !! a with Some nd => f a nd | None => UAF end
  | None => UAF
  end.

Definition put_node (a : nat) (nd : Node) (s : Shared) : Shared :=
  set_heap (<[a := nd]> (heap s)) s.
Definition set_count (c : NodeCounter) (nd : Node) : Node := mkNode (data nd) c (next nd).
Definition set_data (d : option V) (nd : Node) : Node := mkNode d (count nd) (next nd).
Definition set_next (p : CountedNodePtr) (nd : Node) : Node := mkNode (data nd) (count nd) p.

(** [++new_counter.external_count] *)
Definition inc (c : CountedNodePtr) : option CountedNodePtr :=
  if external_count c <? 2 ^ 31 - 1 then Some (mkPtr (external_count c + 1) (ptr c)) else None.

(** [new_counter] of [release_ref] and of [free_external_counter]. *)
Definition released (c : NodeCounter) : NodeCounter :=
  mkCounter (u30 (internal_count c - 1)) (external_counters c).
Definition freed (external : Z) (c : NodeCounter) : NodeCounter :=
  mkCounter (u30 (internal_count c + (external - 2))) (u2 (external_counters c - 1)).

Definition resume (c : Cont) (s : Shared) : Outcome :=
  match c with
  | KPush v n old_tail => Ok (PushInc v n old_tail) s
  | KPop old_head => Ok (PopInc old_head) s
  | KDone => Ok Idle s
  | KRet k (Some v) => Ok Idle (log_ret k v s)
  | KRet k None => Ok Idle s
  end.

Definition zero : NodeCounter := mkCounter 0 0.

(** [if (!new_counter.internal_count && !new_counter.external_counters) delete] *)
Definition drop_or_resume (a : nat) (new_counter : NodeCounter) (c : Cont) (s : Shared) : Outcome :=
  if decide (new_counter = zero) then Ok (Delete a c) s else resume c s.

(** One step of a thread at control point [l]. *)
Definition tstep (act : Act) (l : Local) (s : Shared) : Outcome :=
  match l, act with
  | Idle, Call_push v a =>
      match heap s !! a with
      | None => Ok (PushLoad v a) (put_node a new_node s)
      | Some _ => Disabled
      end
  | Idle, Call_pop => Ok PopLoad s
  | PushLoad v n, Go => Ok (PushInc v n (tail s)) s
  | PushInc v n old_tail, Go =>
      match inc old_tail with
      | None => Overflow
      | Some new_counter =>
          if decide (tail s = old_tail)
          then Ok (PushData v n new_counter) (set_tail new_counter s)
          else Ok (PushInc v n (tail s)) s
      end
  | PushData v n old_tail, Go =>
      with_node (ptr old_tail) s (fun a nd =>
        match data nd with
        | None => Ok (PushNext v n old_tail) (put_node a (set_data (Some v) nd) s)
        | Some _ => Ok (RelLoad a (KPush v n old_tail)) s
        end)
  | PushNext v n old_tail, Go =>
      with_node (ptr old_tail) s (fun a nd =>
        Ok (PushSwing v n old_tail) (put_node a (set_next (mkPtr 1 (Some n)) nd) s))
  | PushSwing v n _, Go =>
      Ok (FreeLoad (tail s) KDone) (log_push v (set_tail (mkPtr 1 (Some n)) s))
  | PopLoad, Go => Ok (PopInc (head s)) s
  | PopInc old_head, Go =>
      match inc old_head with
      | None => Overflow
      | Some new_counter =>
          if decide (head s = old_head)
          then Ok (PopTail new_counter) (set_head new_counter s)
          else Ok (PopInc (head s)) s
      end
  | PopTail old_head, Go =>
      if decide (ptr old_head = ptr (tail s))
      then match ptr old_head with
           | Some a => Ok (RelLoad a KDone) s
           | None => UAF
           end
      else Ok (PopNext old_head) s
  | PopNext old_head, Go =>
      with_node (ptr old_head) s (fun _ nd => Ok (PopCas old_head (next nd)) s)
  | PopCas old_head nx, Go =>
      if decide (head s = old_head)
      then Ok (PopData old_head (npopped s)) (log_pop (set_head nx s))
      else match ptr old_head with
           | Some a => Ok (RelLoad a (KPop (head s))) s
           | None => UAF
           end
  | PopData old_head k, Go =>
      with_node (ptr old_head) s (fun a nd =>
        Ok (FreeLoad old_head (KRet k (data nd))) (put_node a (set_data None nd) s))
  | FreeLoad old_node_ptr c, Go =>
      with_node (ptr old_node_ptr) s (fun a nd => Ok (FreeCas old_node_ptr (count nd) c) s)
  | FreeCas old_node_ptr old_counter c, Go =>
      with_node (ptr old_node_ptr) s (fun a nd =>
        let new_counter := freed (external_count old_node_ptr) old_counter in
        if decide (count nd = old_counter)
        then drop_or_resume a new_counter c (put_node a (set_count new_counter nd) s)
        else Ok (FreeCas old_node_ptr (count nd) c) s)
  | RelLoad this c, Go =>
      with_node (Some this) s (fun a nd => Ok (RelCas a (count nd) c) s)
  | RelCas this old_counter c, Go =>
      with_node (Some this) s (fun a nd =>
        let new_counter := released old_counter in
        if decide (count nd = old_counter)
        then drop_or_resume a new_counter c (put_node a (set_count new_counter nd) s)
        else Ok (RelCas a (count nd) c) s)
  | Delete this c, Go =>
      with_node (Some this) s (fun a _ => resume c (set_heap (delete a (heap s)) s))
  | _, _ => Disabled
  end.

(** * The system *)

Record State := mkState { shared : Shared; threads : list Local }.

(** A step of thread [i]: the new state, or the undefined behaviour it runs into. *)
Inductive SysOutcome := SOk (s : State) | SUAF | SOverflow | SDisabled.

Definition sys_step (i : nat) (act : Act) (s : State) : SysOutcome :=
  match threads s !! i with
  | Some l =>
      match tstep act l (shared s) with
      | Ok l' s' => SOk (mkState s' (<[i := l']> (threads s)))
      | UAF => SUAF
      | Overflow => SOverflow
      | Disabled => SDisabled
      end
  | None => SDisabled
  end.

Fixpoint sys_run (sched : list (nat * Act)) (s : State) : SysOutcome :=
  match sched with
  | [] => SOk s
  | (i, act) :: sched =>
      match sys_step i act s with
      | SOk s' => sys_run sched s'
      | o => o
      end
  end.

Definition start (a n : nat) : State := mkState (LockFreeQueue a) (replicate n Idle).

(** Thread [i] takes [n] steps. *)
Definition go (i n : nat) : list (nat * Act) := replicate n (i, Go).
(** * What a thread holds *)

(** Counted references to [a]: taken by an increment, given back by [release_ref] or
    [free_external_counter]. *)
Definition refs (a : nat) (l : Local) : Z :=
  match l with
  | PushData _ _ c | PushNext _ _ c | PushSwing _ _ c
  | PopTail c | PopNext c | PopCas c _ | PopData c _ | FreeLoad c _ | FreeCas c _ _ =>
      ind (ptr c = Some a)
  | RelLoad b _ | RelCas b _ _ => ind (b = a)
  | _ => 0
  end.

(** Counted pointers to [a] taken out of the queue and not yet freed, and the
    increments they carry. *)
Definition hands (a : nat) (l : Local) : Z :=
  match l with
  | PopData c _ | FreeLoad c _ | FreeCas c _ _ => ind (ptr c = Some a)
  | _ => 0
  end.

Definition carried (a : nat) (l : Local) : Z :=
  match l with
  | PopData c _ | FreeLoad c _ | FreeCas c _ _ => ind (ptr c = Some a) * (external_count c - 1)
  | _ => 0
  end.

(** Nodes of [push] that are not linked yet, nodes about to be deleted, nodes whose
    datum is about to be taken. *)
Definition private (a : nat) (l : Local) : Z :=
  match l with
  | PushLoad _ n | PushInc _ n _ | PushData _ n _ | PushNext _ n _ | PushSwing _ n _ => ind (n = a)
  | _ => 0
  end.

Definition deleting (a : nat) (l : Local) : Z :=
  match l with Delete b _ => ind (b = a) | _ => 0 end.

Definition taking (a : nat) (l : Local) : Z :=
  match l with PopData c _ => ind (ptr c = Some a) | _ => 0 end.

(** Advances of the head whose value was not returned yet. *)
Definition cont_ticket (k : nat) (c : Cont) : Z :=
  match c with KRet j _ => ind (j = k) | _ => 0 end.

Definition ticket (k : nat) (l : Local) : Z :=
  match l with
  | PopData _ j => ind (j = k)
  | FreeLoad _ c | FreeCas _ _ c | RelLoad _ c | RelCas _ _ c | Delete _ c => cont_ticket k c
  | _ => 0
  end.

(** * The invariant of one producer [p] and any number of consumers *)

Section invariant.
Context (p : nat) (leaked : gset nat).

(** The counters of [a] that are not freed: one for its place in the queue, one for
    being the tail, both for a node of a running [push], and those in hand. *)
Definition counters (ch : list nat) (s : State) (a : nat) : Z :=
  ind (a ∈ ch) + ind (ptr (tail (shared s)) = Some a) +
  2 * total (private a) (threads s) + total (hands a) (threads s).

(** The increments recorded in counters of [a] that are not freed. *)
Definition increments (s : State) (a : nat) : Z :=
  ind (ptr (head (shared s)) = Some a) * (external_count (head (shared s)) - 1) +
  ind (ptr (tail (shared s)) = Some a) * (external_count (tail (shared s)) - 1) +
  total (carried a) (threads s).

Record node_acct (ch : list nat) (s : State) (a : nat) : Prop := {
  na_place : ind (a ∈ ch) + total (private a) (threads s) + total (taking a) (threads s) <= 1;
  na_private : 0 < total (private a) (threads s) -> total (refs a) (threads s) = 0;
  na_two : counters ch s a <= 2;
  na_node :
    match heap (shared s) !! a with
    | Some nd =>
        if decide (a ∈ leaked) then
          total (refs a) (threads s) = 0 /\ counters ch s a = 0 /\
          total (deleting a) (threads s) = 0
        else
          external_counters (count nd) = counters ch s a /\
          internal_count (count nd) = u30 (total (refs a) (threads s) - increments s a) /\
          total (deleting a) (threads s) =
            ind (total (refs a) (threads s) + counters ch s a = 0)
    | None =>
        total (refs a) (threads s) = 0 /\ counters ch s a = 0 /\
        total (deleting a) (threads s) = 0
    end
}.

(** A running [push] that has put its datum, and the node it has linked. *)
Definition pending (l : Local) : option (V * option nat) :=
  match l with
  | PushNext v _ _ => Some (v, None)
  | PushSwing v n _ => Some (v, Some n)
  | _ => None
  end.

(** The queue is the chain of nodes from the head to the tail; the datum of its [j]-th
    node is the value the [npopped + j]-th push left. *)
Record queue_ok (ch : list nat) (s : Shared) (producer : option (V * option nat)) : Prop := {
  qo_head : exists h, ch !! 0%nat = Some h /\ ptr (head s) = Some h;
  qo_nodup : NoDup ch;
  qo_links : forall j a b, ch !! j = Some a -> ch !! S j = Some b ->
    exists nd, heap s !! a = Some nd /\ next nd = mkPtr 1 (Some b) /\
      data nd = pushed s !! (npopped s + j)%nat;
  qo_length : (length (pushed s) + 1 = npopped s + length ch)%nat;
  qo_tail : exists t nd, last ch = Some t /\ ptr (tail s) = Some t /\ heap s !! t = Some nd /\
    data nd = fst <$> producer /\
    (forall v n, producer = Some (v, Some n) -> next nd = mkPtr 1 (Some n))
}.

Definition cont_ok (s : Shared) (c : Cont) : Prop :=
  match c with
  | KPush _ _ _ => False
  | KRet k d => exists v, d = Some v /\ pushed s !! k = Some v
  | _ => True
  end.

(** A node a consumer holds has left the queue or is its first. *)
Definition held_ok (ch : list nat) (c : CountedNodePtr) (P : nat -> Prop) : Prop :=
  exists a, ptr c = Some a /\ (a ∈ ch -> ch !! 0%nat = Some a /\ P a).

Definition local_ok (ch : list nat) (s : Shared) (i : nat) (l : Local) : Prop :=
  match l with
  | Idle | PopLoad | PopInc _ => True
  | PushLoad v n | PushInc v n _ => i = p /\ heap s !! n = Some new_node
  | PushData v n c | PushNext v n c | PushSwing v n c =>
      i = p /\ heap s !! n = Some new_node /\ ptr c = ptr (tail s)
  | PopTail c => held_ok ch c (fun _ => True)
  | PopNext c => held_ok ch c (fun _ => is_Some (ch !! 1%nat))
  | PopCas c nx => held_ok ch c (fun _ => exists b, ch !! 1%nat = Some b /\ nx = mkPtr 1 (Some b))
  | PopData c k => exists a nd, ptr c = Some a /\ heap s !! a = Some nd /\
      data nd = pushed s !! k /\ (k < npopped s)%nat
  | FreeLoad c k | FreeCas c _ k => is_Some (ptr c) /\ cont_ok s k
  | RelLoad _ k | RelCas _ _ k | Delete _ k => cont_ok s k
  end.

Record Inv (s : State) (ch : list nat) : Prop := {
  inv_queue : queue_ok ch (shared s) (threads s !! p ≫= pending);
  inv_acct : forall a, node_acct ch s a;
  inv_local : forall i l, threads s !! i = Some l -> local_ok ch (shared s) i l;
  inv_leaked : forall a, a ∈ leaked -> is_Some (heap (shared s) !! a);
  inv_threads : Z.of_nat (length (threads s)) < 2 ^ 30
}.

Record InvT (s : State) : Prop := {
  inv_ticket : forall k, total (fun r => ind (fst r = k)) (rets (shared s)) +
    total (ticket k) (threads s) = ind (k < npopped (shared s))%nat;
  inv_rets : forall k v, (k, v) ∈ rets (shared s) -> pushed (shared s) !! k = Some v
}.

(** * Counting *)

Implicit Types (a b n k i : nat) (l : Local) (s : Shared) (ts : list Local) (ch : list nat).

Lemma refs_range a l : 0 <= refs a l <= 1.
Proof. destruct l; simpl; try apply ind_range; lia. Qed.
Lemma hands_range a l : 0 <= hands a l <= 1.
Proof. destruct l; simpl; try apply ind_range; lia. Qed.
Lemma private_range a l : 0 <= private a l <= 1.
Proof. destruct l; simpl; try apply ind_range; lia. Qed.
Lemma deleting_range a l : 0 <= deleting a l <= 1.
Proof. destruct l; simpl; try apply ind_range; lia. Qed.
Lemma taking_range a l : 0 <= taking a l <= hands a l.
Proof.
  destruct l; simpl; try lia; match goal with |- context [ind ?P] => pose proof (ind_range P) end; lia.
Qed.

Lemma totals_nonneg a ts :
  0 <= total (refs a) ts /\ 0 <= total (hands a) ts /\ 0 <= total (private a) ts /\
  0 <= total (deleting a) ts /\ 0 <= total (taking a) ts <= total (hands a) ts.
Proof.
  split_and!; try (apply total_nonneg || apply total_le); intros l _;
    (apply refs_range || apply hands_range || apply private_range || apply deleting_range
     || apply taking_range).
Qed.

(** A thread's share of a total, alone and together with another thread's. *)
Lemma holds_le (f : Local -> Z) ts i l :
  (forall l, 0 <= f l) -> ts !! i = Some l -> f l <= total f ts.
Proof. intros Hf Hl. apply total_elem; [done|]. by eapply list_elem_of_lookup_2. Qed.

(** No one carries increments of a node that is in no hand. *)
Lemma carried_zero a ts : total (hands a) ts = 0 -> total (carried a) ts = 0.
Proof.
  induction ts as [|l ts IH]; simpl; [done|]. intros H.
  pose proof (hands_range a l). destruct (totals_nonneg a ts) as (_ & ? & _).
  rewrite IH by lia. assert (hands a l = 0) as Hl by lia.
  destruct l; simpl in *; try done; rewrite Hl; lia.
Qed.

Lemma refs_le_threads a ts : total (refs a) ts <= Z.of_nat (length ts).
Proof.
  etrans; [apply (total_le _ (fun _ => 1))|rewrite total_const; lia]. intros; apply refs_range.
Qed.

(** Two threads hold nothing but what the totals allow. *)
Lemma holds_le2 (f : Local -> Z) ts i l j l' :
  (forall l, 0 <= f l) -> i <> j -> ts !! i = Some l -> ts !! j = Some l' ->
  f l + f l' <= total f ts.
Proof. intros Hf Hij Hi Hj. by eapply total_two. Qed.


(** * Steps that change nothing but the control point *)

Definition same_holdings (l l' : Local) : Prop :=
  pending l' = pending l /\
  forall a, refs a l' = refs a l /\ hands a l' = hands a l /\ carried a l' = carried a l /\
    private a l' = private a l /\ deleting a l' = deleting a l /\ taking a l' = taking a l.

Lemma producer_insert ts i l l' :
  ts !! i = Some l -> pending l' = pending l -> (<[i := l']> ts !! p) ≫= pending = ts !! p ≫= pending.
Proof.
  intros Hi Hp. destruct (decide (i = p)) as [->|].
  - rewrite list_lookup_insert_eq by (by eapply lookup_lt_Some). rewrite Hi. simpl. done.
  - by rewrite list_lookup_insert_ne.
Qed.

Lemma inv_quiet s ts ch i l l' :
  Inv (mkState s ts) ch -> ts !! i = Some l -> same_holdings l l' -> local_ok ch s i l' ->
  Inv (mkState s (<[i := l']> ts)) ch.
Proof.
  intros [Hq Ha Hl Hlk Hn] Hi [Hp Hs] Hok. constructor; cbn [shared threads] in *.
  - by rewrite (producer_insert ts i l l').
  - intros a. destruct (Hs a) as (H1 & H2 & H3 & H4 & H5 & H6). destruct (Ha a) as [A1 A2 A3 A4].
    unfold counters, increments in *. cbn [shared threads] in *.
    assert (E : forall f, f l' = f l -> total f (<[i := l']> ts) = total f ts).
    { intros f Hf. rewrite (total_insert f ts i l l' Hi). lia. }
    constructor; unfold counters, increments; cbn [shared threads]; rewrite !E by done; done.
  - intros j l0 Hj. destruct (decide (i = j)) as [->|].
    + rewrite list_lookup_insert_eq in Hj by (by eapply lookup_lt_Some). by simplify_eq.
    + rewrite list_lookup_insert_ne in Hj by done. by apply Hl.
  - done.
  - by rewrite length_insert.
Qed.

(** The other threads' control points stay valid when the memory they use does. *)
Lemma local_ok_others ch s s' j l :
  local_ok ch s j l -> pushed s' = pushed s -> npopped s' = npopped s ->
  ptr (tail s') = ptr (tail s) ->
  (forall n, 0 < private n l -> heap s' !! n = heap s !! n) ->
  (forall n, 0 < taking n l -> data <$> heap s' !! n = data <$> heap s !! n) ->
  local_ok ch s' j l.
Proof.
  intros Hl Hp Hn Ht Hh Hd.
  assert (Hone : forall n, 0 < ind (n = n)) by (intros; rewrite ind_true; done).
  destruct l; cbn [local_ok cont_ok] in *; rewrite ?Hp, ?Hn, ?Ht in *; try done.
  1-5: destruct_and!; rewrite Hh by apply Hone; done.
  - destruct Hl as (a & nd & Hptr & Hheap & Hdata & Hlt). exists a.
    specialize (Hd a ltac:(simpl; by rewrite Hptr, ind_true)). rewrite Hheap in Hd.
    destruct (heap s' !! a) as [nd'|]; [|done]. exists nd'. simplify_eq/=.
    split_and!; [done|done|congruence|done].
  - unfold cont_ok in *. destruct c; rewrite ?Hp; done.
  - unfold cont_ok in *. destruct c; rewrite ?Hp; done.
  - unfold cont_ok in *. destruct c; rewrite ?Hp; done.
  - unfold cont_ok in *. destruct c; rewrite ?Hp; done.
  - unfold cont_ok in *. destruct c; rewrite ?Hp; done.
Qed.

(** * Steps that change one node *)

(** All but the heap and the returned values is the same. *)
Definition same_but_heap (s s' : Shared) : Prop :=
  head s' = head s /\ tail s' = tail s /\ pushed s' = pushed s /\ npopped s' = npopped s.

Lemma queue_ok_heap ch s s' pr :
  queue_ok ch s pr ->
  ptr (head s') = ptr (head s) -> ptr (tail s') = ptr (tail s) ->
  pushed s' = pushed s -> npopped s' = npopped s ->
  (forall a nd, a ∈ ch -> heap s !! a = Some nd ->
    exists nd', heap s' !! a = Some nd' /\ data nd' = data nd /\ next nd' = next nd) ->
  queue_ok ch s' pr.
Proof.
  intros [H1 H2 H3 H4 H5] Hh Ht Hp Hn Hk. constructor; rewrite ?Hh, ?Ht, ?Hp, ?Hn; try done.
  - intros j a b Ha Hb. destruct (H3 j a b Ha Hb) as (nd & Hnd & E1 & E2).
    destruct (Hk a nd) as (nd' & ? & D1 & D2); [by eapply list_elem_of_lookup_2|done|].
    exists nd'. rewrite D1, D2. done.
  - destruct H5 as (t & nd & Hl & Hpt & Hnd & E1 & E2).
    destruct (Hk t nd) as (nd' & ? & D1 & D2); [by apply last_Some_elem_of|done|].
    exists t, nd'. rewrite D1, D2. done.
Qed.

Lemma queue_head_in ch s pr a : queue_ok ch s pr -> ptr (head s) = Some a -> a ∈ ch.
Proof.
  intros Hq Ha. destruct (qo_head _ _ _ Hq) as (h & Hh & E).
  rewrite E in Ha. simplify_eq. by eapply list_elem_of_lookup_2.
Qed.

(** A node without counters has no increments recorded either. *)
Lemma increments_zero ch s ts a :
  (ptr (head s) = Some a -> a ∈ ch) -> counters ch (mkState s ts) a = 0 -> increments (mkState s ts) a = 0.
Proof.
  intros Hq. unfold counters, increments. cbn [shared threads]. intros Hc.
  destruct (totals_nonneg a ts) as (_ & ? & ? & _).
  pose proof (ind_range (a ∈ ch)). pose proof (ind_range (ptr (tail s) = Some a)).
  assert (ind (a ∈ ch) = 0) as Hch by lia.
  rewrite carried_zero by lia. rewrite (ind_false (ptr (head s) = Some a)).
  - rewrite (ind_false (ptr (tail s) = Some a)); [lia|]. intros E.
    rewrite (ind_true (ptr (tail s) = Some a)) in Hc by done. lia.
  - intros E. rewrite (ind_true (a ∈ ch)) in Hch; [done|]. by apply Hq.
Qed.

Lemma u30_small x : 0 <= x < 2 ^ 30 -> u30 x = x.
Proof. apply Z.mod_small. Qed.

Lemma u30_shift x y : u30 (u30 x + y) = u30 (x + y).
Proof. unfold u30. by rewrite Zplus_mod_idemp_l. Qed.

(** Releasing a counted reference, [h = 0], or freeing a counter with its [e - 1]
    increments, [h = 1]. *)
Definition settled (h e : Z) (c : NodeCounter) : NodeCounter :=
  mkCounter (u30 (internal_count c + (h * (e - 1) - 1))) (u2 (external_counters c - h)).

Definition drops (b : nat) (h e : Z) (l : Local) : Prop :=
  pending l = None /\
  forall a, refs a l = ind (b = a) /\ hands a l = h * ind (b = a) /\
    carried a l = h * ind (b = a) * (e - 1) /\ private a l = 0 /\ deleting a l = 0 /\ taking a l = 0.

Definition holds_only_deleting (b : nat) (z : Z) (l : Local) : Prop :=
  pending l = None /\
  forall a, refs a l = 0 /\ hands a l = 0 /\ carried a l = 0 /\ private a l = 0 /\
    deleting a l = z * ind (b = a) /\ taking a l = 0.

Lemma acct_settle s s' ts ch i l l' b nd h e :
  Inv (mkState s ts) ch -> ts !! i = Some l -> heap s !! b = Some nd ->
  h = 0 \/ h = 1 -> drops b h e l ->
  same_but_heap s s' -> heap s' = <[b := set_count (settled h e (count nd)) nd]> (heap s) ->
  holds_only_deleting b (ind (settled h e (count nd) = zero)) l' ->
  forall a, node_acct ch (mkState s' (<[i := l']> ts)) a.
Proof.
  intros I Hi Hb Hh [_ Hd] (Hhd & Htl & _ & _) Hheap [_ Hl'] a.
  pose proof (inv_queue _ _ I) as Hq. pose proof (inv_threads _ _ I) as Hth.
  destruct (Hd a) as (D1 & D2 & D3 & D4 & D5 & D6). destruct (Hl' a) as (L1 & L2 & L3 & L4 & L5 & L6).
  destruct (inv_acct _ _ I a) as [A1 A2 A3 A4].
  assert (Hcnt : counters ch (mkState s' (<[i := l']> ts)) a =
                 counters ch (mkState s ts) a - h * ind (b = a)).
  { unfold counters. cbn [shared threads]. rewrite Htl, !(total_insert _ ts i l l' Hi). lia. }
  assert (Hinc : increments (mkState s' (<[i := l']> ts)) a =
                 increments (mkState s ts) a - h * ind (b = a) * (e - 1)).
  { unfold increments. cbn [shared threads]. rewrite Hhd, Htl, !(total_insert _ ts i l l' Hi). lia. }
  pose proof (holds_le (refs a) ts i l (fun l => proj1 (refs_range a l)) Hi) as Hr.
  pose proof (holds_le (hands a) ts i l (fun l => proj1 (hands_range a l)) Hi) as Hn.
  destruct (totals_nonneg a ts) as (T1 & T2 & T3 & T4 & T5). pose proof (ind_range (b = a)) as Hba.
  pose proof (refs_le_threads a ts) as Hle. cbn [shared threads] in *.
  constructor; rewrite ?Hcnt, ?Hinc; cbn [shared threads]; rewrite ?(total_insert _ ts i l l' Hi);
    rewrite ?D1, ?D4, ?D5, ?D6, ?L1, ?L4, ?L5, ?L6; [lia|lia|nia|].
  destruct (decide (b = a)) as [->|Hne].
  2:{ rewrite Hheap, lookup_insert_ne by done. rewrite (ind_false (b = a)) by done.
      repeat rewrite ?Z.mul_0_r, ?Z.mul_0_l, ?Z.sub_0_r, ?Z.add_0_r. done. }
  rewrite Hheap, lookup_insert_eq. rewrite Hb in A4. rewrite (ind_true (a = a)) in * by done.
  destruct (decide (a ∈ leaked)); [lia|]. destruct A4 as (E1 & E2 & E3).
  assert (Hc0 : counters ch (mkState s ts) a >= h).
  { unfold counters. cbn [shared threads]. pose proof (ind_range (a ∈ ch)).
    pose proof (ind_range (ptr (tail s) = Some a)). lia. }
  assert (Hu2 : u2 (external_counters (count nd) - h) = counters ch (mkState s ts) a - h).
  { rewrite E1. apply Z.mod_small. lia. }
  assert (Hu30 : u30 (internal_count (count nd) + (h * (e - 1) - 1)) =
    u30 (total (refs a) ts - 1 - (increments (mkState s ts) a - h * (e - 1)))).
  { rewrite E2, u30_shift. f_equal. lia. }
  cbn [set_count count external_counters internal_count settled].
  split_and!; [rewrite Hu2; lia|rewrite Hu30; f_equal; lia|].
  rewrite E3, (ind_false (total (refs a) ts + _ = 0)) by lia.
  rewrite Z.mul_1_r. assert (Hz : settled h e (count nd) = zero <->
    u30 (total (refs a) ts - 1 - (increments (mkState s ts) a - h * (e - 1))) = 0 /\
    counters ch (mkState s ts) a - h = 0).
  { unfold settled, zero. rewrite Hu2, Hu30. split; [by intros [= -> ->]|by intros [-> ->]]. }
  rewrite (ind_iff _ _ Hz).
  assert (Hx : counters ch (mkState s ts) a - h = 0 -> increments (mkState s ts) a - h * (e - 1) = 0).
  { intros Hc. rewrite Z.mul_1_r in Hinc. rewrite <-Hinc.
    apply (increments_zero ch s' (<[i:=l']> ts)); [|lia]. rewrite Hhd. by eapply queue_head_in. }
  assert (Hiff : u30 (total (refs a) ts - 1 - (increments (mkState s ts) a - h * (e - 1))) = 0 /\
      counters ch (mkState s ts) a - h = 0 <->
    total (refs a) ts - 1 + 0 + (counters ch (mkState s ts) a - h * 1) = 0).
  { split.
    - intros [H1 H2]. rewrite (Hx H2), u30_small in H1 by lia. lia.
    - intros H1. assert (counters ch (mkState s ts) a - h = 0) as H2 by lia.
      rewrite (Hx H2), u30_small by lia. lia. }
  rewrite (ind_iff _ _ Hiff). lia.
Qed.

(** The control points of the other threads survive a change of node [b] that keeps
    its datum, unless [b] is private to them. *)
Lemma others_ok s s' ts ch i l l' b nd nd' :
  Inv (mkState s ts) ch -> ts !! i = Some l -> heap s !! b = Some nd ->
  same_but_heap s s' -> heap s' = <[b := nd']> (heap s) ->
  (forall j l0, i <> j -> ts !! j = Some l0 -> private b l0 = 0) ->
  data nd' = data nd \/ (forall j l0, i <> j -> ts !! j = Some l0 -> taking b l0 = 0) ->
  local_ok ch s' i l' ->
  forall j l0, <[i := l']> ts !! j = Some l0 -> local_ok ch s' j l0.
Proof.
  intros I Hi Hb (Hhd & Htl & Hp & Hn) Hheap Hpv Hdata Hl' j l0 Hj.
  destruct (decide (i = j)) as [->|Hij].
  { rewrite list_lookup_insert_eq in Hj by (by eapply lookup_lt_Some). by simplify_eq. }
  rewrite list_lookup_insert_ne in Hj by done.
  apply (local_ok_others ch s); [by apply (inv_local _ _ I)|done|done|by rewrite Htl| |].
  - intros n Hpr. rewrite Hheap, lookup_insert_ne; [done|]. intros <-.
    rewrite (Hpv j l0) in Hpr by done. lia.
  - intros n Htk. rewrite Hheap. destruct (decide (b = n)) as [<-|]; [|by rewrite lookup_insert_ne].
    rewrite lookup_insert_eq, Hb. simpl. destruct Hdata as [->|Hdata]; [done|].
    rewrite (Hdata j l0) in Htk by done. lia.
Qed.

(** A node with a counted reference is private to nobody. *)
Lemma refs_not_private s ts ch i l b :
  Inv (mkState s ts) ch -> ts !! i = Some l -> 0 < refs b l ->
  forall j l0, ts !! j = Some l0 -> private b l0 = 0.
Proof.
  intros I Hi Hr j l0 Hj. destruct (inv_acct _ _ I b) as [_ A2 _ _]. cbn [threads] in A2.
  pose proof (holds_le (refs b) ts i l (fun l => proj1 (refs_range b l)) Hi).
  pose proof (holds_le (private b) ts j l0 (fun l => proj1 (private_range b l)) Hj).
  pose proof (private_range b l0). lia.
Qed.

Lemma same_but_heap_queue ch s s' pr b nd nd' :
  queue_ok ch s pr -> same_but_heap s s' -> heap s !! b = Some nd ->
  heap s' = <[b := nd']> (heap s) -> data nd' = data nd -> next nd' = next nd -> queue_ok ch s' pr.
Proof.
  intros Hq (Hhd & Htl & Hp & Hn) Hb Hheap Hd Hnx.
  eapply queue_ok_heap; [done|by rewrite Hhd|by rewrite Htl|done|done|].
  intros a nd0 _ Ha. rewrite Hheap. destruct (decide (b = a)) as [->|].
  - rewrite lookup_insert_eq. simplify_eq. eauto.
  - rewrite lookup_insert_ne by done. eauto.
Qed.

Lemma inv_settle s s' ts ch i l l' b nd h e :
  Inv (mkState s ts) ch -> ts !! i = Some l -> heap s !! b = Some nd ->
  h = 0 \/ h = 1 -> drops b h e l ->
  same_but_heap s s' -> heap s' = <[b := set_count (settled h e (count nd)) nd]> (heap s) ->
  holds_only_deleting b (ind (settled h e (count nd) = zero)) l' ->
  local_ok ch s' i l' ->
  Inv (mkState s' (<[i := l']> ts)) ch.
Proof.
  intros I Hi Hb Hh Hd Hs Hheap Hl' Hok. constructor; cbn [shared threads].
  - rewrite (producer_insert ts i l l') by (done || by rewrite (proj1 Hd), (proj1 Hl')).
    eapply same_but_heap_queue; [apply (inv_queue _ _ I)|done|done|done|done|done].
  - by eapply acct_settle.
  - eapply (others_ok s); [done..| |by left|done]. intros j l0 _ Hj.
    apply (refs_not_private s ts ch i l b I Hi) with j; [|done].
    destruct Hd as [_ Hd]. destruct (Hd b) as (-> & _). by rewrite ind_true.
  - intros a Ha. rewrite Hheap. destruct (decide (b = a)) as [->|].
    + rewrite lookup_insert_eq. eauto.
    + rewrite lookup_insert_ne by done. by apply (inv_leaked _ _ I).
  - rewrite length_insert. apply (inv_threads _ _ I).
Qed.

(** Deleting a node nobody counts on any more. *)
Lemma inv_delete s s' ts ch i l l' b nd :
  Inv (mkState s ts) ch -> ts !! i = Some l -> heap s !! b = Some nd ->
  holds_only_deleting b 1 l ->
  same_but_heap s s' -> heap s' = delete b (heap s) ->
  holds_only_deleting b 0 l' ->
  local_ok ch s' i l' ->
  Inv (mkState s' (<[i := l']> ts)) ch.
Proof.
  intros I Hi Hb [Hp Hl] Hs Hheap [Hp' Hl'] Hok. destruct Hs as (Hhd & Htl & Hpu & Hn).
  pose proof (inv_acct _ _ I b) as [A1 A2 A3 A4]. cbn [shared threads] in A4. rewrite Hb in A4.
  pose proof (holds_le (deleting b) ts i l (fun l => proj1 (deleting_range b l)) Hi) as Hdel.
  destruct (Hl b) as (L1 & L2 & L3 & L4 & L5 & L6). rewrite ind_true in L5 by done.
  destruct (decide (b ∈ leaked)) as [Hlk|Hlk]; [lia|]. destruct A4 as (E1 & E2 & E3).
  pose proof (ind_range (total (refs b) ts + counters ch (mkState s ts) b = 0)) as Hr.
  assert (Hz : total (refs b) ts + counters ch (mkState s ts) b = 0).
  { unfold ind in E3. case_decide; [done|lia]. }
  assert (Hc : counters ch (mkState s ts) b = 0 /\ total (refs b) ts = 0 /\
    (b ∉ ch) /\ total (hands b) ts = 0 /\ total (private b) ts = 0 /\
    total (taking b) ts = 0 /\ ptr (tail s) <> Some b).
  { unfold counters in *. cbn [shared threads] in *.
    destruct (totals_nonneg b ts) as (? & ? & ? & ? & ?).
    pose proof (ind_range (b ∈ ch)). pose proof (ind_range (ptr (tail s) = Some b)).
    split_and!; try lia.
    - intros Hin. rewrite (ind_true (b ∈ ch)) in Hz by done. lia.
    - intros Hin. rewrite (ind_true (ptr (tail s) = Some b)) in Hz by done. lia. }
  destruct Hc as (C1 & C2 & C3 & C4 & C5 & C6 & C7).
  constructor; cbn [shared threads].
  - rewrite (producer_insert ts i l l') by (done || by rewrite Hp, Hp').
    eapply queue_ok_heap; [apply (inv_queue _ _ I)|cbn; congruence..|].
    intros a nd0 Ha Hnd0. exists nd0. rewrite Hheap, lookup_delete_ne by (by intros <-). done.
  - intros a. destruct (Hl a) as (M1 & M2 & M3 & M4 & M5 & M6).
    destruct (Hl' a) as (N1 & N2 & N3 & N4 & N5 & N6). destruct (inv_acct _ _ I a) as [B1 B2 B3 B4].
    unfold counters, increments in *. cbn [shared threads] in *.
    constructor; unfold counters, increments; cbn [shared threads];
      rewrite ?Htl, ?Hhd, !(total_insert _ ts i l l' Hi); [lia| |lia|].
    { intros Hpv. rewrite M1, N1. rewrite B2; lia. }
    destruct (decide (b = a)) as [<-|Hne].
    + rewrite Hheap, lookup_delete_eq. lia.
    + rewrite Hheap, lookup_delete_ne by done. rewrite (ind_false (b = a)) in * by done.
      rewrite M1, M2, M3, M4, M5, N1, N2, N3, N4, N5, !Z.mul_0_r, !Z.add_0_r, !Z.sub_0_r. done.
  - intros j l0 Hj. destruct (decide (i = j)) as [->|Hij].
    { rewrite list_lookup_insert_eq in Hj by (by eapply lookup_lt_Some). by simplify_eq. }
    rewrite list_lookup_insert_ne in Hj by done.
    apply (local_ok_others ch s); [by apply (inv_local _ _ I)|done|done|by rewrite Htl| |].
    + intros n Hpr. rewrite Hheap, lookup_delete_ne; [done|]. intros <-.
      pose proof (holds_le (private b) ts j l0 (fun l => proj1 (private_range b l)) Hj). lia.
    + intros n Htk. rewrite Hheap, lookup_delete_ne; [done|]. intros <-.
      pose proof (holds_le (taking b) ts j l0 (fun l => proj1 (taking_range b l)) Hj). lia.
  - intros a Ha. rewrite Hheap, lookup_delete_ne; [by apply (inv_leaked _ _ I)|]. by intros <-.
  - rewrite length_insert. apply (inv_threads _ _ I).
Qed.

(** [resume] with a valid continuation of a consumer or of a finished push. *)
Lemma resume_spec ch s c :
  cont_ok s c ->
  exists l' s', resume c s = Ok l' s' /\ heap s' = heap s /\ same_but_heap s s' /\
    (forall b, holds_only_deleting b 0 l') /\ (forall i, local_ok ch s' i l') /\
    (forall k, total (fun r => ind (fst r = k)) (rets s') + ticket k l' =
       total (fun r => ind (fst r = k)) (rets s) + cont_ticket k c) /\
    (forall k v, (k, v) ∈ rets s' -> (k, v) ∈ rets s \/ pushed s !! k = Some v).
Proof.
  destruct c as [v n c|c| |k d]; simpl; intros Hc; [done|..|destruct Hc as (v & -> & Hv)];
    eexists _, _; (split; [done|]); unfold same_but_heap, holds_only_deleting; cbn -[total];
    (split_and!; try done); try (intros; lia); try (intros; by left).
  - intros j. rewrite total_app. cbn. lia.
  - intros j w Hin. apply elem_of_app in Hin as [Hin|[= -> ->]%list_elem_of_singleton]; auto.
Qed.

(** * Steps that change the ends of the queue *)

Lemma queue_tail_in ch s pr a : queue_ok ch s pr -> ptr (tail s) = Some a -> a ∈ ch.
Proof.
  intros Hq Ha. destruct (qo_tail _ _ _ Hq) as (t & nd & Hl & E & _).
  rewrite E in Ha. simplify_eq. by apply last_Some_elem_of.
Qed.

(** A node of the queue is allocated, counted, and neither private, being deleted nor
    losing its datum. *)
Lemma chain_node s ts ch a :
  Inv (mkState s ts) ch -> a ∈ ch ->
  (exists nd, heap s !! a = Some nd) /\ (a ∉ leaked) /\ 1 <= counters ch (mkState s ts) a /\
  total (private a) ts = 0 /\ total (taking a) ts = 0.
Proof.
  intros I Ha. destruct (inv_acct _ _ I a) as [A1 A2 A3 A4]. cbn [shared threads] in *.
  destruct (totals_nonneg a ts) as (? & ? & ? & ? & ?). rewrite ind_true in A1 by done.
  assert (1 <= counters ch (mkState s ts) a).
  { unfold counters. cbn [shared threads]. rewrite ind_true by done.
    pose proof (ind_range (ptr (tail s) = Some a)). lia. }
  destruct (heap s !! a) as [nd|]; [|lia]. case_decide; [lia|].
  split_and!; [eauto|done|done|lia|lia].
Qed.

(** An increment of a counter of node [b] of the queue. *)
Lemma acct_inc s s' ts ch i l l' b :
  Inv (mkState s ts) ch -> ts !! i = Some l -> b ∈ ch ->
  heap s' = heap s -> ptr (tail s') = ptr (tail s) ->
  (forall a, refs a l' = refs a l + ind (b = a) /\ hands a l' = hands a l /\
    carried a l' = carried a l /\ private a l' = private a l /\
    deleting a l' = deleting a l /\ taking a l' = taking a l) ->
  (forall a ts', total (carried a) ts' = total (carried a) ts ->
    increments (mkState s' ts') a = increments (mkState s ts) a + ind (b = a)) ->
  forall a, node_acct ch (mkState s' (<[i := l']> ts)) a.
Proof.
  intros I Hi Hb Hheap Htl Hl Hinc a. destruct (Hl a) as (L1 & L2 & L3 & L4 & L5 & L6).
  destruct (chain_node s ts ch b I Hb) as ([nd Hnd] & Hlk & Hc1 & Hpv & Htk).
  destruct (inv_acct _ _ I a) as [A1 A2 A3 A4]. cbn [shared threads] in *.
  assert (Hcnt : counters ch (mkState s' (<[i := l']> ts)) a = counters ch (mkState s ts) a).
  { unfold counters. cbn [shared threads]. rewrite Htl, !(total_insert _ ts i l l' Hi). lia. }
  constructor; rewrite ?Hcnt; cbn [shared threads].
  - rewrite !(total_insert _ ts i l l' Hi). lia.
  - rewrite !(total_insert _ ts i l l' Hi), L1, L4. intros Hp. rewrite A2 by lia.
    rewrite (ind_false (b = a)); [lia|]. intros ->. lia.
  - done.
  - rewrite Hheap, Hinc by (rewrite (total_insert _ ts i l l' Hi); lia).
    rewrite !(total_insert _ ts i l l' Hi), L1, L5.
    destruct (decide (b = a)) as [<-|Hne].
    + rewrite Hnd in *. rewrite decide_False in * by done. rewrite ind_true by done.
      destruct A4 as (E1 & E2 & E3). destruct (totals_nonneg b ts) as (? & _).
      split_and!; [done|rewrite E2; f_equal; lia|].
      rewrite (ind_false (total (refs b) ts - _ + _ + _ = 0)) by lia.
      rewrite (ind_false (total (refs b) ts + _ = 0)) in E3 by lia. lia.
    + rewrite (ind_false (b = a)) by done.
      replace (total (refs a) ts - refs a l + (refs a l + 0)) with (total (refs a) ts) by lia.
      replace (total (deleting a) ts - deleting a l + deleting a l) with (total (deleting a) ts) by lia.
      by rewrite Z.add_0_r.
Qed.

Lemma inc_Some c c' : inc c = Some c' -> c' = mkPtr (external_count c + 1) (ptr c).
Proof. unfold inc. wz_if; [|done]. by intros [= <-]. Qed.

Lemma inv_pop_inc s ts ch i c :
  Inv (mkState s ts) ch -> ts !! i = Some (PopInc (head s)) -> inc (head s) = Some c ->
  Inv (mkState (set_head c s) (<[i := PopTail c]> ts)) ch.
Proof.
  intros I Hi ->%inc_Some. pose proof (inv_queue _ _ I) as Hq. cbn [shared threads] in Hq.
  destruct (qo_head _ _ _ Hq) as (h & Hh & Ehd).
  assert (Hin : h ∈ ch) by by eapply list_elem_of_lookup_2.
  constructor; cbn [shared threads].
  - rewrite (producer_insert ts i (PopInc (head s))) by done.
    eapply queue_ok_heap; [done..|]. intros a nd _ Ha. eauto.
  - eapply (acct_inc s); [done|done|done|done|done| |].
    + intros a. cbn. rewrite (ind_iff (ptr (head s) = Some a) (h = a)); [lia|].
      rewrite Ehd. naive_solver.
    + intros a ts' Ht. unfold increments. cbn [shared threads set_head head tail ptr external_count].
      rewrite Ht, (ind_iff (ptr (head s) = Some a) (h = a)); [lia|]. rewrite Ehd. naive_solver.
  - intros j l0 Hj. destruct (decide (i = j)) as [->|Hij].
    + rewrite list_lookup_insert_eq in Hj by (by eapply lookup_lt_Some). simplify_eq.
      exists h. cbn [ptr]. done.
    + rewrite list_lookup_insert_ne in Hj by done. apply (local_ok_others ch s); try done.
      by apply (inv_local _ _ I).
  - apply (inv_leaked _ _ I).
  - rewrite length_insert. apply (inv_threads _ _ I).
Qed.

Lemma inv_push_inc s ts ch i v n c :
  Inv (mkState s ts) ch -> ts !! i = Some (PushInc v n (tail s)) -> inc (tail s) = Some c ->
  Inv (mkState (set_tail c s) (<[i := PushData v n c]> ts)) ch.
Proof.
  intros I Hi ->%inc_Some. pose proof (inv_queue _ _ I) as Hq. cbn [shared threads] in Hq.
  destruct (qo_tail _ _ _ Hq) as (t & nd & Hlast & Etl & _).
  assert (Hin : t ∈ ch) by by apply last_Some_elem_of.
  constructor; cbn [shared threads].
  - rewrite (producer_insert ts i (PushInc v n (tail s))) by done.
    eapply queue_ok_heap; [done..|]. intros a nd0 _ Ha. eauto.
  - eapply (acct_inc s); [done|done|done|done|done| |].
    + intros a. cbn. rewrite (ind_iff (ptr (tail s) = Some a) (t = a)); [lia|].
      rewrite Etl. naive_solver.
    + intros a ts' Ht. unfold increments. cbn [shared threads set_tail head tail ptr external_count].
      rewrite Ht, (ind_iff (ptr (tail s) = Some a) (t = a)); [lia|]. rewrite Etl. naive_solver.
  - intros j l0 Hj. destruct (decide (i = j)) as [->|Hij].
    + rewrite list_lookup_insert_eq in Hj by (by eapply lookup_lt_Some). simplify_eq.
      pose proof (inv_local _ _ I _ _ Hi) as [-> Hn]. done.
    + rewrite list_lookup_insert_ne in Hj by done. apply (local_ok_others ch s); try done.
      by apply (inv_local _ _ I).
  - apply (inv_leaked _ _ I).
  - rewrite length_insert. apply (inv_threads _ _ I).
Qed.

(** A new node. *)
Lemma inv_alloc s ts ch v n :
  Inv (mkState s ts) ch -> ts !! p = Some Idle -> heap s !! n = None ->
  Inv (mkState (put_node n new_node s) (<[p := PushLoad v n]> ts)) ch.
Proof.
  intros I Hi Hn. pose proof (inv_queue _ _ I) as Hq. cbn [shared threads] in Hq.
  destruct (inv_acct _ _ I n) as [A1 A2 A3 A4]. cbn [shared threads] in *. rewrite Hn in A4.
  assert (Hlk : n ∉ leaked).
  { intros Hlk. destruct (inv_leaked _ _ I n Hlk) as [nd Hnd]. cbn in Hnd. congruence. }
  assert (Hinc : increments (mkState s ts) n = 0).
  { apply (increments_zero ch); [by apply (queue_head_in ch s (ts !! p ≫= pending))|lia]. }
  assert (Hpl : ind (n ∈ ch) = 0 /\ total (private n) ts = 0 /\ total (taking n) ts = 0).
  { unfold counters in A4. cbn [shared threads] in A4.
    destruct (totals_nonneg n ts) as (? & ? & ? & ? & ?).
    pose proof (ind_range (n ∈ ch)). pose proof (ind_range (ptr (tail s) = Some n)). lia. }
  assert (Hnch : n ∉ ch). { intros Hin. rewrite (ind_true (n ∈ ch)) in Hpl by done. lia. }
  constructor; cbn [shared threads].
  - rewrite (producer_insert ts p Idle) by done.
    eapply queue_ok_heap; [done..|]. intros a nd Ha Hnd. exists nd. cbn [put_node set_heap heap].
    rewrite lookup_insert_ne; [done|]. by intros <-.
  - intros a. destruct (inv_acct _ _ I a) as [B1 B2 B3 B4]. unfold counters, increments in *.
    cbn [shared threads put_node set_heap heap head tail] in *.
    constructor; unfold counters, increments; cbn [shared threads put_node set_heap heap head tail];
      rewrite !(total_insert _ ts p Idle _ Hi);
      cbn [refs hands carried private deleting taking];
      (destruct (decide (n = a)) as [<-|Hne];
       [rewrite (ind_true (n = n)) by done|rewrite (ind_false (n = a)) by done]).
    1-6: try lia; intros; rewrite ?B2; lia.
    + rewrite lookup_insert_eq, decide_False by done. cbn [new_node count external_counters internal_count].
      split_and!; [lia| |rewrite ind_false; lia].
      transitivity (u30 0); [done|f_equal; lia].
    + rewrite lookup_insert_ne by done. by rewrite !Z.add_0_r, !Z.sub_0_r.
  - intros j l0 Hj. destruct (decide (p = j)) as [<-|Hij].
    + rewrite list_lookup_insert_eq in Hj by (by eapply lookup_lt_Some). simplify_eq.
      split; [done|]. cbn. by rewrite lookup_insert_eq.
    + rewrite list_lookup_insert_ne in Hj by done. apply (local_ok_others ch s); try done.
      * by apply (inv_local _ _ I).
      * intros m Hm. cbn [put_node set_heap heap]. rewrite lookup_insert_ne; [done|]. intros <-.
        pose proof (holds_le (private n) ts j l0 (fun l => proj1 (private_range n l)) Hj). lia.
      * intros m Hm. cbn [put_node set_heap heap]. rewrite lookup_insert_ne; [done|]. intros <-.
        pose proof (holds_le (taking n) ts j l0 (fun l => proj1 (taking_range n l)) Hj). lia.
  - intros a Ha. cbn [put_node set_heap heap]. rewrite lookup_insert_ne; [by apply (inv_leaked _ _ I)|].
    by intros <-.
  - rewrite length_insert. apply (inv_threads _ _ I).
Qed.

(** The datum or the [next] of a node of the queue, or of one whose datum a consumer
    takes, is written. *)
Lemma acct_same_count s s' ts ch i l l' :
  Inv (mkState s ts) ch -> ts !! i = Some l -> head s' = head s -> tail s' = tail s ->
  (forall a, count <$> heap s' !! a = count <$> heap s !! a) ->
  (forall a, refs a l' = refs a l /\ hands a l' = hands a l /\ carried a l' = carried a l /\
    private a l' = private a l /\ deleting a l' = deleting a l /\ taking a l' <= taking a l) ->
  forall a, node_acct ch (mkState s' (<[i := l']> ts)) a.
Proof.
  intros I Hi Hhd Htl Hc Hl a. destruct (Hl a) as (L1 & L2 & L3 & L4 & L5 & L6).
  destruct (inv_acct _ _ I a) as [A1 A2 A3 A4]. specialize (Hc a).
  assert (E : forall f, f l' = f l -> total f (<[i := l']> ts) = total f ts).
  { intros f Hf. rewrite (total_insert f ts i l l' Hi). lia. }
  unfold counters, increments in *. cbn [shared threads] in *.
  constructor; unfold counters, increments; cbn [shared threads];
    rewrite ?Hhd, ?Htl, ?(E _ L1), ?(E _ L2), ?(E _ L3), ?(E _ L4), ?(E _ L5); try done.
  - rewrite (total_insert _ ts i l l' Hi). lia.
  - destruct (heap s' !! a) as [nd'|], (heap s !! a) as [nd|]; simplify_eq/=; [|done].
    rewrite Hc. done.
Qed.

Lemma count_put s b nd nd' :
  heap s !! b = Some nd -> count nd' = count nd ->
  forall a, count <$> heap (put_node b nd' s) !! a = count <$> heap s !! a.
Proof.
  intros Hb Hc a. cbn [put_node set_heap heap]. destruct (decide (b = a)) as [<-|].
  - by rewrite lookup_insert_eq, Hb; simpl; rewrite Hc.
  - by rewrite lookup_insert_ne.
Qed.

(** Only the last node of the queue has no successor in it. *)
Lemma link_not_last ch j a b t : NoDup ch -> ch !! j = Some a -> ch !! S j = Some b -> last ch = Some t -> a <> t.
Proof.
  intros Hnd Ha Hb Ht ->. rewrite last_lookup in Ht.
  pose proof (NoDup_lookup _ _ _ _ Hnd Ha Ht). apply lookup_lt_Some in Hb. lia.
Qed.

(** [push] writes its datum, then the [next], of the last node. *)
Lemma inv_push_write s ts ch v n c t nd nd' l l' :
  Inv (mkState s ts) ch -> ts !! p = Some l -> local_ok ch s p l' ->
  ptr (tail s) = Some t -> heap s !! t = Some nd -> count nd' = count nd ->
  (forall a, refs a l' = refs a l /\ hands a l' = hands a l /\ carried a l' = carried a l /\
    private a l' = private a l /\ deleting a l' = deleting a l /\ taking a l' <= taking a l) ->
  private n l = 1 -> l' = PushNext v n c \/ l' = PushSwing v n c ->
  data nd' = fst <$> pending l' ->
  (forall v n, pending l' = Some (v, Some n) -> next nd' = mkPtr 1 (Some n)) ->
  Inv (mkState (put_node t nd' s) (<[p := l']> ts)) ch.
Proof.
  intros I Hi Hok Ht Hnd Hc Hl Hpn Hl' Hd Hnx. pose proof (inv_queue _ _ I) as Hq.
  cbn [shared threads] in Hq. assert (Hin : t ∈ ch) by by eapply queue_tail_in.
  destruct (chain_node s ts ch t I Hin) as (_ & Hlk & _ & Hpv & Htk).
  constructor; cbn [shared threads].
  - destruct Hq as [H1 H2 H3 H4 H5]. constructor; try done.
    + intros j a b Ha Hb. destruct (H3 j a b Ha Hb) as (nda & ? & ?). exists nda.
      cbn [put_node set_heap heap]. rewrite lookup_insert_ne; [done|]. intros <-.
      destruct H5 as (t' & nd0 & Hlast & E & _). rewrite Ht in E. simplify_eq.
      exact (link_not_last ch j _ b _ H2 Ha Hb Hlast eq_refl).
    + destruct H5 as (t' & nd0 & Hlast & E & _). rewrite Ht in E. simplify_eq.
      exists t', nd'. cbn [put_node set_heap heap tail]. rewrite lookup_insert_eq.
      rewrite list_lookup_insert_eq by (by eapply lookup_lt_Some). done.
  - eapply (acct_same_count s); [done|done|done|done| |done]. by eapply count_put.
  - intros j l0 Hj. eapply (others_ok s _ ts ch p l l' t nd nd'); try done.
    + intros k l1 _ Hk. pose proof (holds_le (private t) ts k l1 (fun l => proj1 (private_range t l)) Hk).
      pose proof (private_range t l1). lia.
    + right. intros k l1 _ Hk. pose proof (holds_le (taking t) ts k l1 (fun l => proj1 (taking_range t l)) Hk).
      pose proof (taking_range t l1). lia.
    + assert (n <> t).
      { intros ->. pose proof (holds_le (private t) ts p l (fun l => proj1 (private_range t l)) Hi). lia. }
      destruct Hl' as [-> | ->]; cbn [local_ok put_node set_heap heap tail] in *;
        rewrite lookup_insert_ne by done; done.
  - intros a Ha. cbn [put_node set_heap heap]. rewrite lookup_insert_ne; [by apply (inv_leaked _ _ I)|].
    by intros <-.
  - rewrite length_insert. apply (inv_threads _ _ I).
Qed.

(** [push] swings the tail to its node. *)
Definition swung (s : Shared) (v : V) (n : nat) : Shared :=
  log_push v (set_tail (mkPtr 1 (Some n)) s).

Lemma swing_facts s ts ch v n c :
  Inv (mkState s ts) ch -> ts !! p = Some (PushSwing v n c) ->
  heap s !! n = Some new_node /\ ptr c = ptr (tail s) /\ (n ∉ ch) /\
  total (refs n) ts = 0 /\ queue_ok ch s (Some (v, Some n)).
Proof.
  intros I Hi. pose proof (inv_queue _ _ I) as Hq. cbn [shared threads] in Hq. rewrite Hi in Hq.
  destruct (inv_local _ _ I _ _ Hi) as (_ & Hn & Hc). cbn [shared] in Hn, Hc.
  assert (Hpv : 1 <= total (private n) ts).
  { pose proof (holds_le (private n) ts p _ (fun l => proj1 (private_range n l)) Hi) as Hx.
    cbn in Hx. by rewrite ind_true in Hx. }
  destruct (inv_acct _ _ I n) as [A1 A2 A3 A4]. cbn [shared threads] in *.
  destruct (totals_nonneg n ts) as (? & ? & ? & ? & ?).
  split_and!; [done|done| |lia|done].
  intros Hin. rewrite (ind_true (n ∈ ch)) in A1 by done. lia.
Qed.

Lemma queue_swing ch s v n :
  queue_ok ch s (Some (v, Some n)) -> heap s !! n = Some new_node -> n ∉ ch ->
  queue_ok (ch ++ [n]) (swung s v n) None.
Proof.
  intros [(h & Hh & Ehd) Hnd Hlinks Hlen (t & nd & Hlast & Etl & Ht & Hd & Hnx)] Hn Hnch.
  cbn [fmap option_fmap option_map fst] in Hd. specialize (Hnx v n eq_refl).
  constructor; cbn.
  - exists h. split; [|done]. by apply lookup_app_l_Some.
  - apply NoDup_app. split_and!; [done|set_solver|apply NoDup_singleton].
  - intros j a b Ha Hb. destruct (decide (S j < length ch)%nat).
    + rewrite lookup_app_l in Ha, Hb by lia. destruct (Hlinks j a b Ha Hb) as (nda & ? & ? & Hda).
      exists nda. split_and!; [done|done|]. rewrite Hda. symmetry. apply lookup_app_l.
      lia.
    + pose proof (lookup_lt_Some _ _ _ Hb) as Hlt. rewrite length_app in Hlt. simpl in Hlt.
      rewrite lookup_app_l in Ha by lia. rewrite last_lookup in Hlast.
      replace j with (Nat.pred (length ch)) in * by lia. rewrite Hlast in Ha. simplify_eq.
      rewrite lookup_app_r in Hb by lia.
      replace (S (Nat.pred (length ch)) - length ch)%nat with 0%nat in Hb by lia. simplify_eq/=.
      exists nd. split_and!; [done|done|]. rewrite Hd. symmetry.
      rewrite lookup_app_r by lia.
      by replace (npopped s + Nat.pred (length ch) - length (pushed s))%nat with 0%nat by lia.
  - rewrite !length_app. simpl. lia.
  - exists n, new_node. rewrite last_snoc. done.
Qed.

Lemma acct_swing s ts ch v n c :
  Inv (mkState s ts) ch -> ts !! p = Some (PushSwing v n c) ->
  forall a, node_acct (ch ++ [n]) (mkState (swung s v n) (<[p := FreeLoad (tail s) KDone]> ts)) a.
Proof.
  intros I Hi. destruct (swing_facts s ts ch v n c I Hi) as (Hn & Hc & Hnch & _ & Hq).
  destruct (qo_tail _ _ _ Hq) as (t & nd & _ & Etl & _).
  intros a. destruct (inv_acct _ _ I a) as [B1 B2 B3 B4].
  assert (Hia : ind (a ∈ ch ++ [n]) = ind (a ∈ ch) + ind (n = a)).
  { destruct (decide (n = a)) as [<-|].
    - rewrite (ind_true (n = n)), (ind_false (n ∈ ch)), ind_true by (done || set_solver). lia.
    - rewrite (ind_false (n = a)) by done. rewrite Z.add_0_r. apply ind_iff. set_solver. }
  assert (Hpt : ind (ptr (tail s) = Some a) = ind (t = a)).
  { apply ind_iff. rewrite Etl. naive_solver. }
  assert (Htna : ind (Some n = Some a) = ind (n = a)) by (apply ind_iff; naive_solver).
  assert (Hcnt : counters (ch ++ [n]) (mkState (swung s v n)
    (<[p := FreeLoad (tail s) KDone]> ts)) a = counters ch (mkState s ts) a).
  { unfold counters. cbn [shared threads swung log_push set_tail tail ptr].
    rewrite !(total_insert _ ts p _ _ Hi). cbn [private hands]. lia. }
  assert (Hinc : increments (mkState (swung s v n)
    (<[p := FreeLoad (tail s) KDone]> ts)) a = increments (mkState s ts) a).
  { unfold increments. cbn [shared threads swung log_push set_tail head tail ptr external_count].
    rewrite !(total_insert _ ts p _ _ Hi). cbn [carried]. lia. }
  constructor; rewrite ?Hcnt, ?Hinc; cbn [shared threads swung log_push set_tail heap];
    rewrite ?(total_insert _ ts p _ _ Hi); cbn [private taking refs deleting];
    rewrite ?Hc; cbn [shared threads] in *; [lia| |done|].
  - pose proof (ind_range (n = a)). intros Hx. rewrite B2; lia.
  - by rewrite !Z.sub_0_r, !Z.add_0_r, Z.sub_add.
Qed.

Lemma local_swing s ts ch v n c :
  Inv (mkState s ts) ch -> ts !! p = Some (PushSwing v n c) ->
  forall j l0, <[p := FreeLoad (tail s) KDone]> ts !! j = Some l0 ->
    local_ok (ch ++ [n]) (swung s v n) j l0.
Proof.
  intros I Hi. destruct (swing_facts s ts ch v n c I Hi) as (Hn & Hc & Hnch & Hrn & Hq).
  destruct (qo_tail _ _ _ Hq) as (t & nd & _ & Etl & _).
  destruct (qo_head _ _ _ Hq) as (h & Hh & _). pose proof (qo_length _ _ _ Hq) as Hlen.
  intros j l0 Hj. destruct (decide (p = j)) as [<-|Hij].
  { rewrite list_lookup_insert_eq in Hj by (by eapply lookup_lt_Some). simplify_eq.
    cbn. split; [by rewrite Etl|done]. }
  rewrite list_lookup_insert_ne in Hj by done.
  pose proof (inv_local _ _ I _ _ Hj) as Hl. cbn [shared] in Hl.
  assert (Hr : refs n l0 = 0).
  { pose proof (holds_le (refs n) ts j l0 (fun l => proj1 (refs_range n l)) Hj).
    pose proof (refs_range n l0). lia. }
  assert (Hheld : forall c0 P Q, ind (ptr c0 = Some n) = 0 -> (forall a, P a -> Q a) ->
    held_ok ch c0 P -> held_ok (ch ++ [n]) c0 Q).
  { intros c0 P Q Hne HPQ (a & Ea & Hx). exists a. split; [done|].
    intros [Hina|Hina%list_elem_of_singleton]%elem_of_app.
    - destruct (Hx Hina) as [? ?]. split; [by apply lookup_app_l_Some|auto].
    - subst. by rewrite ind_true in Hne. }
  assert (Hcont : forall k : Cont, cont_ok s k -> cont_ok (swung s v n) k).
  { intros []; cbn; try done. intros (w & ? & ?). exists w. split; [done|]. by apply lookup_app_l_Some. }
  destruct l0; cbn [local_ok refs] in *; try (by auto); try (destruct_and!; congruence).
  - eapply Hheld; [done| |done]. done.
  - eapply Hheld; [done| |done]. intros a [b Hb]. exists b. by apply lookup_app_l_Some.
  - eapply Hheld; [done| |done]. intros a (b & Hb & E). exists b. split; [by apply lookup_app_l_Some|done].
  - destruct Hl as (a & nda & ? & ? & Hda & Hlt). exists a, nda. cbn [swung log_push set_tail heap pushed npopped].
    split_and!; [done|done| |done]. rewrite Hda. symmetry. apply lookup_app_l. 
    apply lookup_lt_Some in Hh. lia.
  - destruct_and!. auto.
  - destruct_and!. auto.
Qed.

Lemma inv_swing s ts ch v n c :
  Inv (mkState s ts) ch -> ts !! p = Some (PushSwing v n c) ->
  Inv (mkState (swung s v n) (<[p := FreeLoad (tail s) KDone]> ts)) (ch ++ [n]).
Proof.
  intros I Hi. destruct (swing_facts s ts ch v n c I Hi) as (Hn & Hc & Hnch & _ & Hq).
  constructor; cbn [shared threads].
  - rewrite list_lookup_insert_eq by (by eapply lookup_lt_Some). by apply queue_swing.
  - by eapply acct_swing.
  - by eapply local_swing.
  - apply (inv_leaked _ _ I).
  - rewrite length_insert. apply (inv_threads _ _ I).
Qed.

(** [pop] advances the head. *)
Lemma acct_pop_cas s ts ch i h b (c := head s) :
  Inv (mkState s ts) (h :: b :: ch) -> ptr c = Some h ->
  ts !! i = Some (PopCas c (mkPtr 1 (Some b))) ->
  forall a, node_acct (b :: ch)
    (mkState (log_pop (set_head (mkPtr 1 (Some b)) s)) (<[i := PopData c (npopped s)]> ts)) a.
Proof.
  intros I Hh Hi a. destruct (inv_acct _ _ I a) as [B1 B2 B3 B4].
  pose proof (qo_nodup _ _ _ (inv_queue _ _ I)) as [Hnin _]%NoDup_cons.
  assert (Hia : ind (a ∈ h :: b :: ch) = ind (a ∈ b :: ch) + ind (ptr c = Some a)).
  { rewrite Hh. destruct (decide (h = a)) as [<-|].
    - rewrite (ind_true (h ∈ h :: b :: ch)), (ind_false (h ∈ b :: ch)), ind_true by (done || by left). lia.
    - rewrite (ind_false (Some h = Some a)) by congruence. rewrite Z.add_0_r. apply ind_iff. set_solver. }
  assert (Hcnt : counters (b :: ch) (mkState (log_pop (set_head (mkPtr 1 (Some b)) s))
    (<[i := PopData c (npopped s)]> ts)) a = counters (h :: b :: ch) (mkState s ts) a).
  { unfold counters. cbn [shared threads log_pop set_head tail].
    rewrite !(total_insert _ ts i _ _ Hi). cbn [private hands]. lia. }
  assert (Hinc : increments (mkState (log_pop (set_head (mkPtr 1 (Some b)) s))
    (<[i := PopData c (npopped s)]> ts)) a = increments (mkState s ts) a).
  { unfold increments. cbn [shared threads log_pop set_head head tail external_count ptr].
    rewrite !(total_insert _ ts i _ _ Hi). cbn [carried]. fold c. lia. }
  constructor; rewrite ?Hcnt, ?Hinc; cbn [shared threads log_pop set_head heap];
    rewrite ?(total_insert _ ts i _ _ Hi); cbn [private taking refs deleting shared threads] in *;
    [lia|intros; rewrite B2; lia|done|].
  by rewrite !Z.sub_0_r, !Z.add_0_r, Z.sub_add.
Qed.

Lemma inv_pop_cas s ts ch i c nx :
  Inv (mkState s ts) ch -> ts !! i = Some (PopCas c nx) -> head s = c ->
  exists ch', Inv (mkState (log_pop (set_head nx s)) (<[i := PopData c (npopped s)]> ts)) ch'.
Proof.
  intros I Hi <-. pose proof (inv_queue _ _ I) as Hq. cbn [shared threads] in Hq.
  destruct Hq as [(h & Hh & Ehd) Hnd Hlinks Hlen (t & nd & Hlast & Etl & Ht & Hd & Hnx)].
  destruct (inv_local _ _ I _ _ Hi) as (h' & Eh' & Hx). rewrite Ehd in Eh'. injection Eh' as <-.
  destruct Hx as (_ & b & Hb & ->); [by eapply list_elem_of_lookup_2|].
  destruct ch as [|h0 [|b0 ch]]; [done..|]. injection Hh as ->. injection Hb as ->. exists (b :: ch).
  pose proof (acct_pop_cas s ts ch i h b I Ehd Hi) as Hacct.
  constructor; cbn [shared threads].
  - rewrite (producer_insert ts i (PopCas (head s) (mkPtr 1 (Some b)))) by done. constructor; cbn.
    + by exists b.
    + by apply NoDup_cons in Hnd as [_ ?].
    + intros j a a' Ha Ha'. destruct (Hlinks (S j) a a' Ha Ha') as (nda & ? & ? & Hda).
      exists nda. split_and!; [done|done|]. rewrite Hda. f_equal. lia.
    + simpl in Hlen. lia.
    + exists t, nd. by rewrite last_cons_cons in Hlast.
  - done.
  - intros j l0 Hj. destruct (decide (i = j)) as [<-|Hij].
    { rewrite list_lookup_insert_eq in Hj by (by eapply lookup_lt_Some). simplify_eq.
      destruct (Hlinks 0%nat h b eq_refl eq_refl) as (ndh & ? & ? & Hdh).
      exists h, ndh. cbn. rewrite Nat.add_0_r in Hdh. split_and!; [done|done|done|lia]. }
    rewrite list_lookup_insert_ne in Hj by done.
    pose proof (inv_local _ _ I _ _ Hj) as Hl. cbn [shared] in Hl.
    assert (Hheld : forall c0 P Q, held_ok (h :: b :: ch) c0 P -> held_ok (b :: ch) c0 Q).
    { intros c0 P Q (a & Ea & Hx). exists a. split; [done|]. intros Hin. exfalso.
      destruct (Hx ltac:(by right)) as [E _]. simplify_eq/=. by apply NoDup_cons in Hnd as [? _]. }
    destruct l0; cbn [local_ok] in *; try done; try (by eapply Hheld).
    destruct Hl as (a & nda & ? & ? & ? & ?). exists a, nda. cbn. split_and!; [done|done|done|lia].
  - apply (inv_leaked _ _ I).
  - rewrite length_insert. apply (inv_threads _ _ I).
Qed.

(** [pop] takes the datum of the node it removed. *)
Lemma inv_pop_data s ts ch i c k a nd :
  Inv (mkState s ts) ch -> ts !! i = Some (PopData c k) -> ptr c = Some a -> heap s !! a = Some nd ->
  Inv (mkState (put_node a (set_data None nd) s) (<[i := FreeLoad c (KRet k (data nd))]> ts)) ch.
Proof.
  intros I Hi Ha Hnd. pose proof (inv_queue _ _ I) as Hq. cbn [shared threads] in Hq.
  destruct (inv_acct _ _ I a) as [A1 A2 A3 A4]. cbn [shared threads] in *.
  pose proof (holds_le (taking a) ts i _ (fun l => proj1 (taking_range a l)) Hi) as Ht.
  cbn in Ht. rewrite ind_true in Ht by done. destruct (totals_nonneg a ts) as (_ & _ & ? & _ & ?).
  assert (Hnin : a ∉ ch). { intros Hin. rewrite (ind_true (a ∈ ch)) in A1 by done. lia. }
  destruct (inv_local _ _ I _ _ Hi) as (a' & nd' & Ea & Hnd' & Hd & Hk). cbn [shared] in *.
  rewrite Ha in Ea. injection Ea as <-. rewrite Hnd in Hnd'. injection Hnd' as <-.
  constructor; cbn [shared threads].
  - rewrite (producer_insert ts i (PopData c k)) by done.
    eapply queue_ok_heap; [done..|]. intros b ndb Hb Hndb. exists ndb. cbn [put_node set_heap heap].
    rewrite lookup_insert_ne; [done|]. by intros <-.
  - eapply (acct_same_count s); [done|done|done|done|by eapply count_put|].
    intros b. cbn. pose proof (ind_range (ptr c = Some b)). lia.
  - eapply (others_ok s); [done|done|done|by split_and!|done| | |].
    + intros j l0 _ Hj. pose proof (holds_le (private a) ts j l0 (fun l => proj1 (private_range a l)) Hj).
      pose proof (private_range a l0). pose proof (ind_range (a ∈ ch)). lia.
    + right. intros j l0 Hij Hj.
      pose proof (holds_le2 (taking a) ts i _ j l0 (fun l => proj1 (taking_range a l)) Hij Hi Hj) as H2.
      cbn in H2. rewrite (ind_true (ptr c = Some a)) in H2 by done.
      pose proof (taking_range a l0). pose proof (ind_range (a ∈ ch)). lia.
    + cbn. split; [by rewrite Ha|]. rewrite Hd.
      destruct (lookup_lt_is_Some_2 (pushed s) k) as [v Hv]; [|eauto].
      pose proof (qo_length _ _ _ Hq). destruct (qo_head _ _ _ Hq) as (h & Hh & _).
      apply lookup_lt_Some in Hh. lia.
  - intros b Hb. cbn [put_node set_heap heap]. destruct (decide (a = b)) as [<-|].
    + rewrite lookup_insert_eq. eauto.
    + rewrite lookup_insert_ne by done. by apply (inv_leaked _ _ I).
  - rewrite length_insert. apply (inv_threads _ _ I).
Qed.

(** * Every step keeps the invariant *)

Lemma invT_keep s s' ts i l l' :
  InvT (mkState s ts) -> ts !! i = Some l -> npopped s' = npopped s ->
  pushed s `prefix_of` pushed s' ->
  (forall k, total (fun r => ind (fst r = k)) (rets s') + ticket k l' =
             total (fun r => ind (fst r = k)) (rets s) + ticket k l) ->
  (forall k v, (k, v) ∈ rets s' -> (k, v) ∈ rets s \/ pushed s !! k = Some v) ->
  InvT (mkState s' (<[i := l']> ts)).
Proof.
  intros [H1 H2] Hi Hn [ws Hp] Ht Hr. constructor; cbn [shared threads] in *.
  - intros k. rewrite Hn, (total_insert _ ts i l l' Hi). specialize (H1 k). specialize (Ht k). lia.
  - intros k v [Hin|Hin]%Hr; rewrite Hp; apply lookup_app_l_Some; auto.
Qed.

Lemma invT_same s s' ts i l l' :
  InvT (mkState s ts) -> ts !! i = Some l -> npopped s' = npopped s ->
  pushed s `prefix_of` pushed s' -> rets s' = rets s -> (forall k, ticket k l' = ticket k l) ->
  InvT (mkState s' (<[i := l']> ts)).
Proof.
  intros I Hi Hn Hp Hr Ht. eapply invT_keep; [done..|by intros k; rewrite Hr, Ht|].
  rewrite Hr. auto.
Qed.

Lemma invT_pop_cas s ts i c nx :
  InvT (mkState s ts) -> ts !! i = Some (PopCas c nx) ->
  InvT (mkState (log_pop (set_head nx s)) (<[i := PopData c (npopped s)]> ts)).
Proof.
  intros [H1 H2] Hi. constructor; cbn [shared threads log_pop set_head rets npopped pushed] in *; [|done].
  intros k. specialize (H1 k). rewrite (total_insert _ ts i _ _ Hi). cbn [ticket].
  destruct (decide (k < npopped s)%nat).
  - rewrite (ind_true (k < npopped s)%nat) in H1 by done. rewrite (ind_true (k < S _)%nat) by lia.
    rewrite (ind_false (npopped s = k)) by lia. lia.
  - rewrite (ind_false (k < npopped s)%nat) in H1 by done.
    rewrite (ind_iff (k < S (npopped s))%nat (npopped s = k)) by lia. lia.
Qed.

(** What a step leads to: never a use after free. *)
Definition preserved (i : nat) (ts : list Local) (o : Outcome) : Prop :=
  match o with
  | Ok l' s' => (exists ch, Inv (mkState s' (<[i := l']> ts)) ch) /\ InvT (mkState s' (<[i := l']> ts))
  | UAF => False
  | _ => True
  end.

Lemma preserved_quiet s ts ch i l l' :
  Inv (mkState s ts) ch -> InvT (mkState s ts) -> ts !! i = Some l -> same_holdings l l' ->
  (forall k, ticket k l' = ticket k l) -> local_ok ch s i l' -> preserved i ts (Ok l' s).
Proof.
  intros I IT Hi Hs Ht Hok. split; [exists ch; by eapply inv_quiet|]. by eapply invT_same.
Qed.

(** A node to which a thread holds a counted reference is allocated. *)
Lemma held_node s ts ch i l b :
  Inv (mkState s ts) ch -> ts !! i = Some l -> 0 < refs b l + hands b l + deleting b l ->
  exists nd, heap s !! b = Some nd.
Proof.
  intros I Hi Hr. destruct (inv_acct _ _ I b) as [_ _ _ A4]. cbn [shared threads] in A4.
  destruct (heap s !! b) as [nd|]; [eauto|].
  pose proof (holds_le (refs b) ts i l (fun l => proj1 (refs_range b l)) Hi).
  pose proof (holds_le (deleting b) ts i l (fun l => proj1 (deleting_range b l)) Hi).
  pose proof (holds_le (hands b) ts i l (fun l => proj1 (hands_range b l)) Hi).
  unfold counters in A4. cbn [shared threads] in A4. destruct (totals_nonneg b ts) as (? & ? & ? & ? & ?).
  pose proof (ind_range (b ∈ ch)). pose proof (ind_range (ptr (tail s) = Some b)). lia.
Qed.

Lemma preserved_settle s ts ch i l b nd h e c :
  Inv (mkState s ts) ch -> InvT (mkState s ts) -> ts !! i = Some l -> heap s !! b = Some nd ->
  h = 0 \/ h = 1 -> drops b h e l -> cont_ok s c -> (forall k, ticket k l = cont_ticket k c) ->
  preserved i ts (drop_or_resume b (settled h e (count nd)) c
    (put_node b (set_count (settled h e (count nd)) nd) s)).
Proof.
  intros I IT Hi Hnd Hh Hd Hc Ht. unfold drop_or_resume. case_decide as Hz.
  - split.
    + exists ch. eapply inv_settle; [done|done|done|done|done|by split_and!|done| |done].
      rewrite ind_true by done. split; [done|]. intros a. cbn. lia.
    + by eapply (invT_same s).
  - set (s1 := put_node _ _ s).
    destruct (resume_spec ch s1 c) as (l' & s' & -> & Hheap & Hs & Hl & Hok & Htk & Hr); [by destruct c|].
    destruct Hs as (H1 & H2 & H3 & H4). split.
    + exists ch. eapply inv_settle; [done|done|done|done|done|by split_and!|by rewrite Hheap| |done].
      by rewrite ind_false.
    + eapply (invT_keep s); [done|done|done|by rewrite H3| |].
      * intros k. rewrite Htk, Ht. done.
      * intros k v Hin. by apply Hr.
Qed.

Lemma tstep_pushdata s ts ch i v n old_tail :
  Inv (mkState s ts) ch -> InvT (mkState s ts) -> ts !! i = Some (PushData v n old_tail) ->
  preserved i ts (tstep Go (PushData v n old_tail) s).
Proof.
  intros I IT Hi. pose proof (inv_local _ _ I _ _ Hi) as Hok. cbn [shared local_ok] in Hok.
  pose proof (inv_queue _ _ I) as Hq. cbn [shared threads] in Hq.
  cbn [tstep].
  destruct Hok as (-> & Hn & Hp). destruct (qo_tail _ _ _ Hq) as (t & nd & _ & Et & Hnd & Hd & _).
  rewrite Hi in Hd. rewrite Hp, Et. cbn [with_node]. rewrite Hnd.
  assert (data nd = None) as -> by done. split; [exists ch|by eapply (invT_same s)].
  eapply inv_push_write; [done|done|by rewrite <-Hp in Et|done|done|done| | |by left|done|done].
  - intros a. cbn. lia.
  - cbn. by rewrite ind_true.
Qed.

Lemma tstep_pushnext s ts ch i v n old_tail :
  Inv (mkState s ts) ch -> InvT (mkState s ts) -> ts !! i = Some (PushNext v n old_tail) ->
  preserved i ts (tstep Go (PushNext v n old_tail) s).
Proof.
  intros I IT Hi. pose proof (inv_local _ _ I _ _ Hi) as Hok. cbn [shared local_ok] in Hok.
  pose proof (inv_queue _ _ I) as Hq. cbn [shared threads] in Hq.
  cbn [tstep].
  destruct Hok as (-> & Hn & Hp). destruct (qo_tail _ _ _ Hq) as (t & nd & _ & Et & Hnd & Hd & _).
  rewrite Hi in Hd. rewrite Hp, Et. cbn [with_node]. rewrite Hnd.
  split; [exists ch|by eapply (invT_same s)].
  eapply inv_push_write; [done|done|by rewrite <-Hp in Et|done|done|done| | |by right|done|].
  - intros a. cbn. lia.
  - cbn. by rewrite ind_true.
  - by intros ? ? [= <- <-].
Qed.

Lemma tstep_freecas s ts ch i old_node_ptr old_counter c :
  Inv (mkState s ts) ch -> InvT (mkState s ts) -> ts !! i = Some (FreeCas old_node_ptr old_counter c) ->
  preserved i ts (tstep Go (FreeCas old_node_ptr old_counter c) s).
Proof.
  intros I IT Hi. pose proof (inv_local _ _ I _ _ Hi) as Hok. cbn [shared local_ok] in Hok.
  assert (Hsame : forall l', same_holdings (FreeCas old_node_ptr old_counter c) l' -> (forall k, ticket k l' = ticket k (FreeCas old_node_ptr old_counter c)) ->
    local_ok ch s i l' -> preserved i ts (Ok l' s)) by (intros; by eapply preserved_quiet).
  cbn [tstep].
  destruct Hok as [[a Ea] Hc]. destruct (held_node s ts ch i _ a I Hi) as [nd Hnd].
  { cbn. rewrite ind_true; [lia|done]. }
  rewrite Ea. cbn [with_node]. rewrite Hnd. case_decide as E; [|apply Hsame; try done; by split; [exists a|]].
  subst old_counter.
  assert (freed (external_count old_node_ptr) (count nd) = settled 1 (external_count old_node_ptr) (count nd))
    as -> by (unfold freed, settled; f_equal; f_equal; lia).
  eapply preserved_settle; [done|done|done|done|by right| |done|done]. split; [done|].
  intros b. cbn. rewrite !Ea, (ind_iff (Some a = Some b) (a = b)) by naive_solver.
  split_and!; lia.
Qed.

Lemma tstep_relcas s ts ch i this old_counter c :
  Inv (mkState s ts) ch -> InvT (mkState s ts) -> ts !! i = Some (RelCas this old_counter c) ->
  preserved i ts (tstep Go (RelCas this old_counter c) s).
Proof.
  intros I IT Hi. pose proof (inv_local _ _ I _ _ Hi) as Hok. cbn [shared local_ok] in Hok.
  assert (Hsame : forall l', same_holdings (RelCas this old_counter c) l' -> (forall k, ticket k l' = ticket k (RelCas this old_counter c)) ->
    local_ok ch s i l' -> preserved i ts (Ok l' s)) by (intros; by eapply preserved_quiet).
  cbn [tstep].
  destruct (held_node s ts ch i _ this I Hi) as [nd Hnd].
  { cbn. rewrite ind_true; [lia|done]. }
  cbn [with_node]. rewrite Hnd. case_decide as E; [|by apply Hsame]. subst old_counter.
  assert (E2 : external_counters (count nd) = u2 (external_counters (count nd) - 0)).
  { destruct (inv_acct _ _ I this) as [_ _ A3 A4]. cbn [shared threads] in *. rewrite Hnd in A4.
    destruct (totals_nonneg this ts) as (? & ? & ? & ? & ?).
    pose proof (holds_le (refs this) ts i _ (fun l => proj1 (refs_range this l)) Hi) as Hr.
    cbn in Hr. rewrite ind_true in Hr by done.
    assert (0 <= counters ch (mkState s ts) this).
    { unfold counters. cbn [shared threads]. pose proof (ind_range (this ∈ ch)).
      pose proof (ind_range (ptr (tail s) = Some this)). lia. }
    case_decide; [lia|]. destruct A4 as [-> _]. rewrite Z.sub_0_r. symmetry. apply Z.mod_small. lia. }
  assert (released (count nd) = settled 0 1 (count nd)) as ->.
  { unfold released, settled. rewrite <-E2. f_equal. }
  eapply preserved_settle; [done|done|done|done|by left| |done|done]. split; [done|].
  intros b. cbn. split_and!; lia.
Qed.

Lemma tstep_delete s ts ch i this c :
  Inv (mkState s ts) ch -> InvT (mkState s ts) -> ts !! i = Some (Delete this c) ->
  preserved i ts (tstep Go (Delete this c) s).
Proof.
  intros I IT Hi. pose proof (inv_local _ _ I _ _ Hi) as Hok. cbn [shared local_ok] in Hok.
  cbn [tstep].
  destruct (held_node s ts ch i _ this I Hi) as [nd Hnd].
  { cbn. rewrite ind_true; [lia|done]. }
  cbn [with_node]. rewrite Hnd. set (s1 := set_heap _ s).
  destruct (resume_spec ch s1 c) as (l' & s' & -> & Hheap & Hs & Hl & Hlok & Htk & Hr); [by destruct c|].
  destruct Hs as (H1 & H2 & H3 & H4). split.
  - exists ch. eapply inv_delete; [done|done|done| |by split_and!|by rewrite Hheap|done|done].
    split; [done|]. intros a. cbn. lia.
  - eapply (invT_keep s); [done|done|done|by rewrite H3|by intros k; rewrite Htk|].
    intros k v Hin. by apply Hr.
Qed.

Lemma tstep_inv s ts ch i l act :
  Inv (mkState s ts) ch -> InvT (mkState s ts) -> ts !! i = Some l ->
  (forall v a, act = Call_push v a -> i = p) -> preserved i ts (tstep act l s).
Proof.
  intros I IT Hi Hact. pose proof (inv_local _ _ I _ _ Hi) as Hok. cbn [shared] in Hok.
  pose proof (inv_queue _ _ I) as Hq. cbn [shared threads] in Hq.
  assert (Hsame : forall l', same_holdings l l' -> (forall k, ticket k l' = ticket k l) ->
    local_ok ch s i l' -> preserved i ts (Ok l' s)) by (intros; by eapply preserved_quiet).
  destruct l, act; try done.
  - cbn [tstep]. destruct (heap s !! a) eqn:Ha; [done|]. rewrite (Hact v a eq_refl) in *. split.
    + exists ch. by apply inv_alloc.
    + by eapply (invT_same s).
  - cbn [tstep]. by apply Hsame.
  - cbn [tstep]. by apply Hsame.
  - cbn [tstep]. destruct (inc old_tail) as [c|] eqn:Hc; [|done]. case_decide as E; [|by apply Hsame]. subst old_tail.
    split; [exists ch; by apply inv_push_inc|]. by eapply (invT_same s).
  - by eapply tstep_pushdata.
  - by eapply tstep_pushnext.
  - cbn [tstep]. destruct Hok as (-> & Hn & Hp). split; [exists (ch ++ [n]); by eapply inv_swing|].
    eapply (invT_same s); try done. by exists [v].
  - cbn [tstep]. by apply Hsame.
  - cbn [tstep]. destruct (inc old_head) as [c|] eqn:Hc; [|done]. case_decide as E; [|by apply Hsame]. subst old_head.
    split; [exists ch; by apply inv_pop_inc|]. by eapply (invT_same s).
  - cbn [tstep]. destruct Hok as (a & Ea & Hx). case_decide as E.
    + rewrite Ea. apply Hsame; [|done|done]. split; [done|]. intros b. cbn.
      split_and!; try done. apply ind_iff. rewrite Ea. naive_solver.
    + apply Hsame; [done|done|]. exists a. split; [done|]. intros Hin.
      destruct (Hx Hin) as [H0 _]. split; [done|]. destruct ch as [|x [|y ch]]; [done| |by eexists].
      destruct (qo_tail _ _ _ Hq) as (t & nd & Hl & Et & _). cbn in H0, Hl. congruence.
  - cbn [tstep]. destruct Hok as (a & Ea & Hx). destruct (held_node s ts ch i _ a I Hi) as [nd Hnd].
    { cbn. rewrite ind_true; [lia|done]. }
    rewrite Ea. cbn [with_node]. rewrite Hnd. apply Hsame; [done|done|]. exists a.
    split; [done|]. intros Hin. destruct (Hx Hin) as [H0 [b Hb]]. split; [done|].
    destruct (qo_links _ _ _ Hq 0%nat a b H0 Hb) as (nd' & Hnd' & Hnx & _).
    exists b. split; [done|]. congruence.
  - cbn [tstep]. case_decide as E.
    + destruct (inv_pop_cas s ts ch i old_head nx I Hi E) as [ch' I'].
      split; [by exists ch'|by apply invT_pop_cas].
    + destruct Hok as (a & Ea & Hx). rewrite Ea. apply Hsame; [|done|done]. split; [done|].
      intros b. cbn. split_and!; try done. apply ind_iff. rewrite Ea. naive_solver.
  - cbn [tstep]. destruct Hok as (a & nd & Ea & Hnd & Hd & Hk). rewrite Ea. cbn [with_node]. rewrite Hnd.
    split; [exists ch; by eapply inv_pop_data|]. by eapply (invT_same s).
  - cbn [tstep]. destruct Hok as [[a Ea] Hc]. destruct (held_node s ts ch i _ a I Hi) as [nd Hnd].
    { cbn. rewrite ind_true; [lia|done]. }
    rewrite Ea. cbn [with_node]. rewrite Hnd. apply Hsame; [done|done|]. by split; [exists a|].
  - by eapply tstep_freecas.
  - cbn [tstep]. destruct (held_node s ts ch i _ this I Hi) as [nd Hnd].
    { cbn. rewrite ind_true; [lia|done]. }
    cbn [with_node]. rewrite Hnd. by apply Hsame.
  - by eapply tstep_relcas.
  - by eapply tstep_delete.
Qed.

Lemma sys_run_inv sched : forall (s : State) ch,
  Inv s ch -> InvT s -> (forall i v a, (i, Call_push v a) ∈ sched -> i = p) ->
  match sys_run sched s with
  | SOk s' => (exists ch', Inv s' ch') /\ InvT s'
  | SUAF => False
  | _ => True
  end.
Proof.
  induction sched as [|[i act] sched IH]; intros s ch I IT Hp; cbn [sys_run]; [eauto|].
  unfold sys_step. destruct (threads s !! i) as [l|] eqn:Hl; [|done].
  destruct s as [s ts]. cbn [shared threads] in *.
  pose proof (tstep_inv s ts ch i l act I IT Hl) as H.
  assert (Hpres : preserved i ts (tstep act l s)).
  { apply H. intros v a ->. eapply Hp. by left. }
  destruct (tstep act l s) as [l' s'| | |]; try done. destruct Hpres as [[ch' I'] IT'].
  apply (IH _ ch' I' IT'). intros j v a Hin. eapply Hp. by right.
Qed.

(** Between calls every node is in the queue, or was leaked. *)
Lemma idle_nodes (s : State) ch :
  Inv s ch -> (forall i l, threads s !! i = Some l -> l = Idle) ->
  size (heap (shared s)) = (length ch + size leaked)%nat.
Proof.
  intros I Hidle. destruct s as [s ts]. cbn [shared threads] in *.
  assert (Hz : forall f, f Idle = 0 -> total f ts = 0).
  { intros f Hf. rewrite (total_ext f (fun _ => 0)); [by rewrite total_const|].
    intros l [i Hi]%list_elem_of_lookup. by rewrite (Hidle i l Hi). }
  assert (Hch : forall a, a ∈ ch -> a ∉ leaked) by (intros a Ha; by eapply chain_node).
  assert (Hdom : dom (heap s) = list_to_set ch ∪ leaked).
  { apply set_eq. intros a. rewrite elem_of_dom, elem_of_union, elem_of_list_to_set. split.
    - intros [nd Hnd]. destruct (decide (a ∈ leaked)) as [|Hlk]; [by right|left].
      destruct (inv_acct _ _ I a) as [_ _ _ A4]. cbn [shared threads] in A4. rewrite Hnd in A4.
      rewrite decide_False in A4 by done. destruct A4 as (_ & _ & A4). unfold counters in A4.
      cbn [shared threads] in A4. rewrite !Hz in A4 by done.
      destruct (decide (a ∈ ch)) as [|Hn]; [done|exfalso].
      rewrite (ind_false (a ∈ ch)) in A4 by done. rewrite (ind_false (ptr (tail s) = Some a)) in A4.
      + by rewrite ind_true in A4.
      + intros E. apply Hn. by eapply queue_tail_in; [apply (inv_queue _ _ I)|].
    - intros [Ha|Ha]; [|by apply (inv_leaked _ _ I)].
      destruct (chain_node s ts ch a I Ha) as ([nd ?] & _). eauto. }
  rewrite <-(size_dom (D := gset nat)), Hdom, size_union.
  - rewrite size_list_to_set; [done|]. apply (qo_nodup _ _ _ (inv_queue _ _ I)).
  - intros a. rewrite elem_of_list_to_set. intros Ha ?. by apply (Hch a).
Qed.

(** Every advance of the head returned its value once. *)
Lemma idle_rets (s : State) :
  InvT s -> (forall i l, threads s !! i = Some l -> l = Idle) ->
  fst <$> rets (shared s) ≡ₚ seq 0 (npopped (shared s)).
Proof.
  intros [IT _] Hidle. destruct s as [s ts]. cbn [shared threads] in *.
  assert (Hz : forall k, total (ticket k) ts = 0).
  { intros k. rewrite (total_ext _ (fun _ => 0)); [by rewrite total_const|].
    intros l [i Hi]%list_elem_of_lookup. by rewrite (Hidle i l Hi). }
  assert (Hc : forall k (rs : list (nat * V)), 0 <= total (fun r => ind (fst r = k)) rs /\
    (0 < total (fun r => ind (fst r = k)) rs <-> k ∈ fst <$> rs)).
  { intros k rs. induction rs as [|[j w] rs [IH1 IH2]]; cbn;
      [split; [done|]; split; [lia|by intros ?%elem_of_nil]|].
    rewrite elem_of_cons, <-IH2. fold (total (fun r => ind (fst r = k)) rs).
    destruct (decide (j = k)) as [->|Hjk].
    - rewrite (ind_true (k = k)) by done. split; [lia|]. split; [by left|lia].
    - rewrite (ind_false (j = k)) by done. split; [lia|]. split; [intros; right; lia|].
      intros [->|?]; [done|lia]. }
  apply NoDup_Permutation; [|apply NoDup_seq|].
  - assert (Hle : forall k, total (fun r => ind (fst r = k)) (rets s) <= 1).
    { intros k. specialize (IT k). rewrite Hz in IT. pose proof (ind_range (k < npopped s)%nat). lia. }
    clear IT. revert Hle. generalize (rets s) as rs.
    induction rs as [|[j w] rs IH]; intros Hle; cbn; [constructor|]. constructor.
    + intros Hin%Hc. specialize (Hle j). rewrite total_cons in Hle. cbn [fst] in Hle. rewrite ind_true in Hle by done. lia.
    + apply IH. intros k. specialize (Hle k). rewrite total_cons in Hle. cbn [fst] in Hle.
      pose proof (ind_range (j = k)). lia.
  - intros k. rewrite elem_of_seq, <-(proj2 (Hc k (rets s))). specialize (IT k). rewrite Hz in IT.
    unfold ind in IT at 2. case_decide; lia.
Qed.
End invariant.

(** * Warming up *)

(** The producer [p] pushes [v] and pops it, before anybody else starts; the allocator
    returns address 1 for the node. *)
Definition warm_up (p : nat) (v : V) : list (nat * Act) :=
  ((p, Call_push v 1%nat) :: go p 7) ++ ((p, Call_pop) :: go p 8).

(** One thread alone. *)
Fixpoint solo_run (acts : list Act) (l : Local) (s : Shared) : Outcome :=
  match acts with
  | [] => Ok l s
  | act :: acts => match tstep act l s with Ok l' s' => solo_run acts l' s' | o => o end
  end.

Lemma solo_sys_run p acts : forall l s l' s' ts,
  solo_run acts l s = Ok l' s' -> ts !! p = Some l ->
  sys_run (pair p <$> acts) (mkState s ts) = SOk (mkState s' (<[p := l']> ts)).
Proof.
  induction acts as [|act acts IH]; intros l s l' s' ts Hr Hl; cbn in *.
  { simplify_eq. by rewrite list_insert_id. }
  unfold sys_step. cbn [shared threads]. rewrite Hl.
  destruct (tstep act l s) as [l1 s1| | |]; simplify_eq.
  erewrite IH; [|done|apply list_lookup_insert_eq; by eapply lookup_lt_Some].
  by rewrite list_insert_insert_eq.
Qed.

Lemma sys_run_app s1 s2 (s : State) : sys_run (s1 ++ s2) s =
  match sys_run s1 s with SOk s' => sys_run s2 s' | o => o end.
Proof.
  revert s. induction s1 as [|[i act] s1 IH]; intros s; cbn; [done|].
  by destruct (sys_step i act s).
Qed.

(** The queue is empty, its node has the two counters of a new node, and the first dummy
    is lost: its reference count stays 2 short of zero. *)
Definition warmed (v : V) : Shared :=
  mkShared (<[1%nat := new_node]> {[0%nat := mkNode None (mkCounter (2 ^ 30 - 2) 0) (mkPtr 1 (Some 1%nat))]})
    (mkPtr 1 (Some 1%nat)) (mkPtr 1 (Some 1%nat)) [v] 1 [(0%nat, v)].

Lemma warm_up_run p v n :
  (p < n)%nat -> sys_run (warm_up p v) (start 0 n) = SOk (mkState (warmed v) (replicate n Idle)).
Proof.
  intros Hp. unfold start.
  replace (warm_up p v) with (pair p <$> (Call_push v 1%nat :: replicate 7 Go ++ Call_pop :: replicate 8 Go))
    by done.
  rewrite (solo_sys_run p _ Idle _ Idle (warmed v)).
  - by rewrite list_insert_id by (apply lookup_replicate_2; lia).
  - vm_compute. reflexivity.
  - apply lookup_replicate_2. lia.
Qed.

Lemma warmed_inv p v n :
  Z.of_nat n < 2 ^ 30 -> Inv p {[0%nat]} (mkState (warmed v) (replicate n Idle)) [1%nat].
Proof.
  intros Hn.
  assert (Hz : forall f, f Idle = 0 -> total f (replicate n Idle) = 0).
  { intros f Hf. rewrite (total_ext f (fun _ => 0)); [by rewrite total_const|].
    by intros l [-> _]%elem_of_replicate. }
  constructor; cbn [shared threads].
  - assert (replicate n Idle !! p ≫= pending = None) as ->.
    { destruct (replicate n Idle !! p) eqn:E; [|done]. by apply lookup_replicate in E as [-> _]. }
    constructor; cbn.
    + by exists 1%nat.
    + apply NoDup_singleton.
    + by intros [] a b.
    + done.
    + by exists 1%nat, new_node.
  - intros a. constructor; unfold counters, increments; cbn [shared threads];
      rewrite ?(Hz (refs a)), ?(Hz (private a)), ?(Hz (taking a)), ?(Hz (hands a)),
        ?(Hz (carried a)), ?(Hz (deleting a)) by done; cbn [warmed head tail ptr external_count heap].
    + pose proof (ind_range (a ∈ [1%nat])). lia.
    + done.
    + pose proof (ind_range (a ∈ [1%nat])). pose proof (ind_range (Some 1%nat = Some a)). lia.
    + destruct (decide (a = 1%nat)) as [->|].
      { rewrite lookup_insert_eq, decide_False by set_solver. vm_compute. done. }
      rewrite lookup_insert_ne by done.
      rewrite (ind_false (a ∈ _)), (ind_false (Some 1%nat = Some a)) by (congruence || set_solver).
      destruct (decide (a = 0%nat)) as [->|].
      * rewrite lookup_singleton_eq, decide_True by set_solver. done.
      * by rewrite lookup_singleton_ne.
  - intros i l Hl. apply lookup_replicate in Hl as [-> _]. done.
  - intros a ->%elem_of_singleton. eexists. vm_compute. done.
  - by rewrite length_replicate.
Qed.

Lemma warmed_invT v n : InvT (mkState (warmed v) (replicate n Idle)).
Proof.
  constructor; cbn [shared threads warmed rets npopped pushed].
  - intros k. rewrite (total_ext (ticket k) (fun _ => 0)).
    + rewrite total_const, total_cons. cbn [fst total foldr]. unfold ind. repeat case_decide; lia.
    + by intros l [-> _]%elem_of_replicate.
  - by intros k w [= -> ->]%list_elem_of_singleton.
Qed.
End data.

(** * Properties *)


(** A producer and two consumers whose steps interleave. *)
Definition sample_sched : list (nat * Act) :=
  (0%nat, Call_push 8 2%nat) :: go 0 7 ++ [(1%nat, Call_pop)] ++ go 1 3 ++
  [(2%nat, Call_pop)] ++ go 2 4 ++ [(0%nat, Call_push 9 3%nat)] ++ go 0 4 ++ go 1 2 ++
  go 2 4 ++ go 0 3 ++ go 1 12.

Definition sample_end : State :=
  match sys_run (warm_up 0 7 ++ sample_sched) (start 0 3) with SOk s => s | _ => start 0 3 end.


(** The constructor gives the first node an external count of 0 where every node of
    [push] starts with 1, so its reference count is two short: with one producer and
    three consumers from the start, a schedule in which the third consumer advances the
    head lets it delete the node while the first two still hold counted references to
    it, and the first then reads the count of the deleted node. *)
Theorem initial_count_use_after_free :
  sys_run ((0%nat, Call_push 7 1%nat) :: go 0 7 ++ [(1%nat, Call_pop)] ++ go 1 3 ++
    [(2%nat, Call_pop)] ++ go 2 3 ++ [(3%nat, Call_pop)] ++ go 3 9 ++ go 1 1) (start 0 4) = SUAF.
Proof. vm_compute. reflexivity. Qed.

(** Two producers: the first, about to store its datum in the last node, is overtaken by
    a push and a pop that leave the datum of that node null again. *)
Definition overtaken : list (nat * Act) :=
  [(1%nat, Call_push 10 2%nat)] ++ go 1 2 ++ [(0%nat, Call_push 20 3%nat)] ++ go 0 7 ++
  [(2%nat, Call_pop)] ++ go 2 8 ++ go 1 5.

Definition overtaken_end : State :=
  match sys_run (warm_up 0 7 ++ overtaken) (start 0 3) with SOk s => s | _ => start 0 3 end.

(** With two producers the queue breaks although the pushes and the pop ran to
    their end: [pop] resets the datum of the node it removes to null, so a push that
    still refers to that node stores its datum there and moves the tail to a node that
    is not linked to the queue.  The next pop returns null although 10 was pushed and
    never popped, and the one after it follows a null pointer. *)
Theorem two_producers_break :
  threads overtaken_end = [Idle; Idle; Idle] /\
  pushed (shared overtaken_end) = [7; 20; 10] /\
  rets (shared overtaken_end) = [(0%nat, 7); (1%nat, 20)] /\
  (exists s, sys_run ([(2%nat, Call_pop)] ++ go 2 8) overtaken_end = SOk s /\
     threads s = [Idle; Idle; Idle] /\ npopped (shared s) = 3%nat /\
     rets (shared s) = [(0%nat, 7); (1%nat, 20)]) /\
  sys_run ([(2%nat, Call_pop)] ++ go 2 8 ++ [(2%nat, Call_pop)] ++ go 2 4) overtaken_end = SUAF.
Proof.
  split; [vm_compute; reflexivity|]. split; [vm_compute; reflexivity|].
  split; [vm_compute; reflexivity|]. split; [|vm_compute; reflexivity].
  eexists. split; [vm_compute; reflexivity|]. vm_compute. done.
Qed.
