(* ===== verification/HelpingQueue.v ===== *)
(** The lock-free queue of src/src/lock_free_queue.h and lock_free_queue.hpp, in which a
    push that finds another one halfway helps it.

    Threads run [push] and [pop] cut at their accesses to shared memory, as in file
    CountedQueue, whose counted pointers, counters and nodes have the same fields here.
    [compare_exchange_weak] may fail spuriously ([GoFail]).  Two fields are left
    uninitialised by the source and are parameters: [junk], the [data] of a new node,
    and [c0], the external count of the pointers to the first node.  The allocator
    returns an address that is not in use. *)
From S2P Require Import Prelude CountedQueue.

Open Scope wizard_scope.

Section queue.
Context {V : Type} (junk : option V).

(** [Node::Node]: [data] is not initialised. *)
Definition new_node : Node (V := V) := mkNode junk (mkCounter 0 2) (mkPtr 0 None).

(** [rets] lists what the calls of [pop] returned; no operation reads it. *)
Record Queue := mkQueue {
  qheap : gmap nat (Node (V := V));
  qhead : CountedNodePtr;
  qtail : CountedNodePtr;
  _size : Z;
  rets : list (option V)
}.

Definition set_qheap (h : gmap nat (Node (V := V))) (q : Queue) : Queue :=
  mkQueue h (qhead q) (qtail q) (_size q) (rets q).
Definition set_qhead (c : CountedNodePtr) (q : Queue) : Queue :=
  mkQueue (qheap q) c (qtail q) (_size q) (rets q).
Definition set_qtail (c : CountedNodePtr) (q : Queue) : Queue :=
  mkQueue (qheap q) (qhead q) c (_size q) (rets q).
Definition log (r : option V) (q : Queue) : Queue :=
  mkQueue (qheap q) (qhead q) (qtail q) (_size q) (rets q ++ [r]).
Definition put (a : nat) (nd : Node (V := V)) (q : Queue) : Queue :=
  set_qheap (<[a := nd]> (qheap q)) q.

(** [LockFreeQueue::LockFreeQueue] *)
Definition LockFreeQueue (c0 : Z) : Queue :=
  let tmp := mkPtr c0 (Some 0%nat) in mkQueue {[0%nat := new_node]} tmp tmp 0 [].

Definition queue_size (q : Queue) : Z := _size q.
Definition queue_empty (q : Queue) : bool := bool_decide (ptr (qhead q) = ptr (qtail q)).

(** * Control points *)

(** What follows [release_ref] or [free_external_counter]: the next round of [push]
    with its [new_next] and [old_tail], of [pop] with its [old_head], the end of [push],
    or the return of a value from [pop]. *)
Inductive Cont :=
  | KPush (v : V) (new_next old_tail : CountedNodePtr)
  | KPop (old_head : CountedNodePtr)
  | KDone
  | KRet (r : option V).

Inductive Local :=
  | Idle
  | PushLoad (v : V) (new_next : CountedNodePtr)
  | PushInc (v : V) (new_next old_tail : CountedNodePtr)
  | PushData (v : V) (new_next old_tail : CountedNodePtr)
  (* the datum is stored, the exchange of [next] is next *)
  | PushNext (v : V) (new_next old_tail : CountedNodePtr)
  (* another push stored its datum *)
  | PushHelp (v : V) (new_next old_tail : CountedNodePtr)
  (* set_new_tail(old_tail, new_tail), entered with [current_tail_ptr]; on return [push]
     ends or loops *)
  | SetTail (current : nat) (old_tail new_tail : CountedNodePtr) (loop : option (V * CountedNodePtr))
  | PopLoad
  | PopInc (old_head : CountedNodePtr)
  | PopTail (old_head : CountedNodePtr)
  | PopNext (old_head : CountedNodePtr)
  | PopCas (old_head : CountedNodePtr) (nx : CountedNodePtr)
  | PopData (old_head : CountedNodePtr)
  | FreeLoad (old_node_ptr : CountedNodePtr) (c : Cont)
  | FreeCas (old_node_ptr : CountedNodePtr) (old_counter : NodeCounter) (c : Cont)
  | RelLoad (this : nat) (c : Cont)
  | RelCas (this : nat) (old_counter : NodeCounter) (c : Cont)
  | Delete (this : nat) (c : Cont).

Inductive Act := Call_push (v : V) | Call_pop | Go | GoFail.

Inductive Outcome := Ok (l : Local) (q : Queue) | UAF | Overflow | Disabled.

Definition with_node (p : option nat) (q : Queue) (f : nat -> Node -> Outcome) : Outcome :=
  match p with
  | Some a => match qheap q !! a with Some nd => f a nd | None => UAF end
  | None => UAF
  end.

Definition resume (c : Cont) (q : Queue) : Outcome :=
  match c with
  | KPush v new_next old_tail => Ok (PushInc v new_next old_tail) q
  | KPop old_head => Ok (PopInc old_head) q
  | KDone => Ok Idle q
  | KRet r => Ok Idle (log r q)
  end.

Definition drop_or_resume (a : nat) (new_counter : NodeCounter) (c : Cont) (q : Queue) : Outcome :=
  if decide (new_counter = zero) then Ok (Delete a c) q else resume c q.

(** One round of [increase_external_count]: whether the exchange succeeded, and the new
    [old_counter]; [None] is the overflow of an [int]. *)
Definition increase_external_count (counter old_counter : CountedNodePtr)
    : option (bool * CountedNodePtr) :=
  new_counter <-? inc old_counter;
  Some (if decide (counter = old_counter) then (true, new_counter) else (false, counter)).

(** The steps of [free_external_counter] and [release_ref]. *)
Definition count_step (l : Local) (q : Queue) : Outcome :=
  match l with
  | FreeLoad old_node_ptr c =>
      with_node (ptr old_node_ptr) q (fun a nd => Ok (FreeCas old_node_ptr (count nd) c) q)
  | FreeCas old_node_ptr old_counter c =>
      with_node (ptr old_node_ptr) q (fun a nd =>
        let new_counter := freed (external_count old_node_ptr) old_counter in
        if decide (count nd = old_counter)
        then drop_or_resume a new_counter c (put a (set_count new_counter nd) q)
        else Ok (FreeCas old_node_ptr (count nd) c) q)
  | RelLoad this c => with_node (Some this) q (fun a nd => Ok (RelCas a (count nd) c) q)
  | RelCas this old_counter c =>
      with_node (Some this) q (fun a nd =>
        let new_counter := released old_counter in
        if decide (count nd = old_counter)
        then drop_or_resume a new_counter c (put a (set_count new_counter nd) q)
        else Ok (RelCas a (count nd) c) q)
  | Delete this c =>
      with_node (Some this) q (fun a _ => resume c (set_qheap (delete a (qheap q)) q))
  | _ => Disabled
  end.

(** After the loop of [set_new_tail]. *)
Definition set_tail_end (current : nat) (old_tail : CountedNodePtr)
    (loop : option (V * CountedNodePtr)) (q : Queue) : Outcome :=
  let c := match loop with Some (v, new_next) => KPush v new_next old_tail | None => KDone end in
  if decide (ptr old_tail = Some current) then Ok (FreeLoad old_tail c) q
  else Ok (RelLoad current c) q.

Definition tstep (act : Act) (l : Local) (q : Queue) : Outcome :=
  match l, act with
  | Idle, Call_push v =>
      let a := fresh (dom (qheap q)) in Ok (PushLoad v (mkPtr 1 (Some a))) (put a new_node q)
  | Idle, Call_pop => Ok PopLoad q
  | PushLoad v new_next, Go => Ok (PushInc v new_next (qtail q)) q
  | PushInc v new_next old_tail, Go =>
      match increase_external_count (qtail q) old_tail with
      | None => Overflow
      | Some (true, c) => Ok (PushData v new_next c) (set_qtail c q)
      | Some (false, c) => Ok (PushInc v new_next c) q
      end
  | PushData v new_next old_tail, Go =>
      with_node (ptr old_tail) q (fun a nd =>
        match data nd with
        | None => Ok (PushNext v new_next old_tail) (put a (set_data (Some v) nd) q)
        | Some _ => Ok (PushHelp v new_next old_tail) q
        end)
  | PushNext v new_next old_tail, Go =>
      with_node (ptr old_tail) q (fun a nd =>
        if decide (next nd = mkPtr 0 None)
        then Ok (SetTail a old_tail new_next None) (put a (set_next new_next nd) q)
        else
          (* delete new_next.ptr; new_next = old_next *)
          with_node (ptr new_next) q (fun n _ =>
            Ok (SetTail a old_tail (next nd) None) (set_qheap (delete n (qheap q)) q)))
  | PushHelp v new_next old_tail, Go =>
      with_node (ptr old_tail) q (fun a nd =>
        if decide (next nd = mkPtr 0 None)
        then
          (* old_next = new_next; new_next.ptr = new Node *)
          let b := fresh (dom (qheap q)) in
          Ok (SetTail a old_tail new_next (Some (v, mkPtr (external_count new_next) (Some b))))
            (put b new_node (put a (set_next new_next nd) q))
        else Ok (SetTail a old_tail (next nd) (Some (v, new_next))) q)
  | SetTail current old_tail new_tail loop, Go =>
      if decide (qtail q = old_tail)
      then set_tail_end current old_tail loop (set_qtail new_tail q)
      else if decide (ptr (qtail q) = Some current)
      then set_tail_end current (qtail q) loop q
      else Ok (SetTail current (qtail q) new_tail loop) q
  | SetTail current old_tail new_tail loop, GoFail =>
      if decide (ptr (qtail q) = Some current)
      then set_tail_end current (qtail q) loop q
      else Ok (SetTail current (qtail q) new_tail loop) q
  | PopLoad, Go => Ok (PopInc (qhead q)) q
  | PopInc old_head, Go =>
      match increase_external_count (qhead q) old_head with
      | None => Overflow
      | Some (true, c) => Ok (PopTail c) (set_qhead c q)
      | Some (false, c) => Ok (PopInc c) q
      end
  | PopTail old_head, Go =>
      if decide (ptr old_head = ptr (qtail q)) then Ok Idle (log None q)
      else Ok (PopNext old_head) q
  | PopNext old_head, Go =>
      with_node (ptr old_head) q (fun _ nd => Ok (PopCas old_head (next nd)) q)
  | PopCas old_head nx, Go =>
      if decide (qhead q = old_head) then Ok (PopData old_head) (set_qhead nx q)
      else match ptr old_head with
           | Some a => Ok (RelLoad a (KPop (qhead q))) q
           | None => UAF
           end
  | PopData old_head, Go =>
      with_node (ptr old_head) q (fun a nd =>
        Ok (FreeLoad old_head (KRet (data nd))) (put a (set_data None nd) q))
  | _, Go => count_step l q
  | _, _ => Disabled
  end.

(** * One thread alone *)

(** Run to the end of the call, at most [fuel] steps, without spurious failures. *)
Fixpoint finish (fuel : nat) (l : Local) (q : Queue) : option Queue :=
  match l with
  | Idle => Some q
  | _ =>
      match fuel with
      | O => None
      | S fuel => match tstep Go l q with Ok l q => finish fuel l q | _ => None end
      end
  end.

Inductive Call := Push (v : V) | Pop.

Definition call (fuel : nat) (c : Call) (q : Queue) : option Queue :=
  match tstep (match c with Push v => Call_push v | Pop => Call_pop end) Idle q with
  | Ok l q => finish fuel l q
  | _ => None
  end.

Fixpoint calls (fuel : nat) (cs : list Call) (q : Queue) : option Queue :=
  match cs with
  | [] => Some q
  | c :: cs => match call fuel c q with Some q => calls fuel cs q | None => None end
  end.

(** The queue it stands for, with the values [pop] returned. *)
Definition spec_call (c : Call) (st : list V * list (option V)) : list V * list (option V) :=
  match c, st with
  | Push v, (vs, rs) => (vs ++ [v], rs)
  | Pop, ([], rs) => ([], rs ++ [None])
  | Pop, (v :: vs, rs) => (vs, rs ++ [Some v])
  end.

(** Unfold one step. *)
Ltac run := cbn [tstep count_step with_node put set_qheap set_qtail set_qhead log qheap qhead qtail _size rets
  ptr external_count data next count set_data set_next set_count resume].

(** * The invariant between the calls of one thread *)

(** The chain [ch] from the head to the tail holds the values [vs]; its nodes but the
    last have one counter left; no external count has reached [B]. *)
Record qinv (B : Z) (q : Queue) (vs : list V) (ch : list nat) : Prop := {
  qi_head : exists h, ch !! 0%nat = Some h /\ ptr (qhead q) = Some h;
  qi_nodup : NoDup ch;
  qi_links : forall j a b, ch !! j = Some a -> ch !! S j = Some b ->
    exists nd, qheap q !! a = Some nd /\ data nd = vs !! j /\ next nd = mkPtr 1 (Some b) /\
      external_counters (count nd) = 1;
  qi_tail : exists t nd, last ch = Some t /\ ptr (qtail q) = Some t /\ qheap q !! t = Some nd /\
    data nd = None /\ next nd = mkPtr 0 None /\ external_counters (count nd) = 2;
  qi_length : (length ch = length vs + 1)%nat;
  qi_bounds : external_count (qhead q) <= B /\ external_count (qtail q) <= B;
  qi_size : _size q = 0
}.

Lemma inc_ok c : external_count c < 2 ^ 31 - 1 -> inc c = Some (mkPtr (external_count c + 1) (ptr c)).
Proof. intros. unfold inc. by rewrite (proj2 (Z.ltb_lt _ _)). Qed.

Lemma freed_not_zero e c : external_counters c = 2 -> freed e c <> zero.
Proof. unfold freed, zero. intros ->. intros [= _]. Qed.

Lemma fin n l q l' q' r :
  l <> Idle -> tstep Go l q = Ok l' q' -> finish n l' q' = r -> finish (S n) l q = r.
Proof. intros Hl Ht <-. destruct l; [done|..]; cbn [finish]; by rewrite Ht. Qed.

(** What a push leaves behind. *)
Definition after_push (v : V) (t : nat) (nd : Node (V := V)) (q : Queue) : Queue :=
  let a := fresh (dom (qheap q)) in
  mkQueue (<[t := mkNode (Some v) (freed (external_count (qtail q) + 1) (count nd)) (mkPtr 1 (Some a))]>
             (<[a := new_node]> (qheap q)))
    (qhead q) (mkPtr 1 (Some a)) (_size q) (rets q).

Lemma push_runs v q t (nd : Node (V := V)) :
  ptr (qtail q) = Some t -> external_count (qtail q) < 2 ^ 31 - 1 -> qheap q !! t = Some nd ->
  data nd = None -> next nd = mkPtr 0 None -> external_counters (count nd) = 2 ->
  call 20 (Push v) q = Some (after_push v t nd q).
Proof.
  intros Ht He Hnd Hd Hnx Hc. unfold call. cbn [tstep]. set (a := fresh (dom (qheap q))).
  assert (Hta : a <> t).
  { intros <-. apply (is_fresh (dom (qheap q))). apply elem_of_dom. by exists nd. }
  destruct q as [h hd [e tp] sz rs]. cbn [qtail qheap ptr external_count] in *. subst tp.
  eapply fin; [done|run; done|]. eapply fin; [done|run; unfold increase_external_count; rewrite inc_ok, decide_True; done|].
  eapply fin; [done|run; rewrite lookup_insert_ne, Hnd by done; run; rewrite Hd; done|].
  eapply fin; [done|run; rewrite lookup_insert_eq; run; rewrite Hnx, decide_True; done|].
  eapply fin; [done|run; rewrite decide_True by done; unfold set_tail_end; by rewrite decide_True|].
  eapply fin; [done|run; rewrite lookup_insert_eq; done|].
  eapply fin; [done|run; rewrite lookup_insert_eq; run; rewrite decide_True by done;
    unfold drop_or_resume; rewrite decide_False by (by apply freed_not_zero); done|].
  cbn [finish]. unfold after_push, put, set_qheap, set_qtail. run. by rewrite !insert_insert_eq.
Qed.

Lemma push_qinv v q B vs ch :
  junk = None -> qinv B q vs ch -> B < 2 ^ 31 - 1 -> 1 <= B ->
  exists q' ch', call 20 (Push v) q = Some q' /\ qinv (B + 1) q' (vs ++ [v]) ch' /\ rets q' = rets q.
Proof.
  intros Hj [(h & Hh & Ehd) Hnd Hlinks (t & nd & Hlast & Etl & Ht & Hd & Hnx & Hc) Hlen [Hb1 Hb2] Hsz] HB HB1.
  exists (after_push v t nd q), (ch ++ [fresh (dom (qheap q))]).
  split; [apply push_runs; done || lia|]. split; [|done].
  set (a := fresh (dom (qheap q))).
  assert (Hdom : forall b x, qheap q !! b = Some x -> a <> b).
  { intros b x Hb <-. apply (is_fresh (dom (qheap q))), elem_of_dom. by exists x. }
  assert (Hach : a ∉ ch).
  { intros [j Hj']%list_elem_of_lookup. destruct (ch !! S j) as [b|] eqn:E.
    - destruct (Hlinks j a b Hj' E) as (x & Hx & _). by apply (Hdom _ _ Hx).
    - apply (Hdom _ _ Ht). rewrite last_lookup in Hlast. apply lookup_ge_None in E.
      apply lookup_lt_Some in Hj' as Hlt. replace j with (Nat.pred (length ch)) in Hj' by lia. congruence. }
  constructor; cbn.
  - exists h. split; [by apply lookup_app_l_Some|done].
  - apply NoDup_app. split_and!; [done|set_solver|apply NoDup_singleton].
  - intros j x y Hx Hy. destruct (decide (S j < length ch)%nat).
    + rewrite lookup_app_l in Hx, Hy by lia. destruct (Hlinks j x y Hx Hy) as (ndx & Hndx & ? & ? & ?).
      pose proof (link_not_last ch j x y t Hnd Hx Hy Hlast) as Hxt.
      exists ndx. fold a. rewrite lookup_insert_ne by congruence. rewrite lookup_insert_ne by (by apply (Hdom _ _ Hndx)).
      split_and!; try done. rewrite lookup_app_l by lia. done.
    + apply lookup_lt_Some in Hy as Hlt. rewrite length_app in Hlt. simpl in Hlt.
      rewrite lookup_app_l in Hx by lia. rewrite last_lookup in Hlast.
      replace j with (Nat.pred (length ch)) in * by lia. rewrite Hlast in Hx. injection Hx as <-.
      rewrite lookup_app_r in Hy by lia.
      replace (S (Nat.pred (length ch)) - length ch)%nat with 0%nat in Hy by lia. injection Hy as <-.
      rewrite lookup_insert_eq. eexists. split; [done|]. cbn. split_and!; [|done|by rewrite Hc].
      rewrite lookup_app_r by lia. by replace (Nat.pred (length ch) - length vs)%nat with 0%nat by lia.
  - exists a, new_node. rewrite last_snoc. fold a.
    rewrite lookup_insert_ne, lookup_insert_eq by (symmetry; by apply (Hdom _ _ Ht)).
    split_and!; try done.
  - rewrite !length_app. simpl. lia.
  - lia.
  - done.
Qed.

(** What a pop of a non-empty queue leaves behind. *)
Definition after_pop (h : nat) (nd : Node (V := V)) (q : Queue) : Queue :=
  let c := freed (external_count (qhead q) + 1) (count nd) in
  mkQueue (if decide (c = zero) then delete h (qheap q) else <[h := mkNode None c (next nd)]> (qheap q))
    (next nd) (qtail q) (_size q) (rets q ++ [data nd]).

Lemma pop_runs q h (nd : Node (V := V)) :
  ptr (qhead q) = Some h -> ptr (qtail q) <> Some h -> external_count (qhead q) < 2 ^ 31 - 1 ->
  qheap q !! h = Some nd -> call 20 Pop q = Some (after_pop h nd q).
Proof.
  intros Hh Ht He Hnd. unfold call. cbn [tstep].
  destruct q as [hp [e hd] tl sz rs]. cbn [qhead qtail qheap ptr external_count] in *. subst hd.
  eapply fin; [done|run; done|]. eapply fin; [done|run; unfold increase_external_count; rewrite inc_ok, decide_True; done|].
  eapply fin; [done|run; rewrite decide_False by congruence; done|].
  eapply fin; [done|run; rewrite Hnd; done|]. eapply fin; [done|run; by rewrite decide_True|].
  eapply fin; [done|run; rewrite Hnd; done|].
  eapply fin; [done|run; rewrite lookup_insert_eq; done|].
  unfold after_pop. cbn [qhead qtail qheap external_count rets _size].
  unfold drop_or_resume in *. set (c := freed _ _). destruct (decide (c = zero)) as [E|E].
  - eapply fin; [done|run; rewrite lookup_insert_eq; run; rewrite decide_True by done;
      unfold drop_or_resume; fold c; rewrite decide_True by done; done|].
    eapply fin; [done|run; unfold put, set_qheap; run; rewrite lookup_insert_eq; done|].
    cbn [finish]. unfold put, set_qheap, set_qhead, log. run. by rewrite !insert_insert_eq, delete_insert_eq.
  - eapply fin; [done|run; rewrite lookup_insert_eq; run; rewrite decide_True by done;
      unfold drop_or_resume; fold c; rewrite decide_False by done; done|].
    cbn [finish]. unfold put, set_qheap, set_qhead, log. run. by rewrite !insert_insert_eq.
Qed.

Lemma pop_empty_runs q h :
  ptr (qhead q) = Some h -> ptr (qtail q) = Some h -> external_count (qhead q) < 2 ^ 31 - 1 ->
  call 20 Pop q =
    Some (mkQueue (qheap q) (mkPtr (external_count (qhead q) + 1) (Some h)) (qtail q) (_size q) (rets q ++ [None])).
Proof.
  intros Hh Ht He. unfold call. cbn [tstep].
  destruct q as [hp [e hd] tl sz rs]. cbn [qhead qtail qheap ptr external_count] in *. subst hd.
  eapply fin; [done|run; done|]. eapply fin; [done|run; unfold increase_external_count; rewrite inc_ok, decide_True; done|].
  eapply fin; [done|run; rewrite decide_True by done; done|]. done.
Qed.

Lemma pop_qinv q B vs ch :
  qinv B q vs ch -> B < 2 ^ 31 - 1 -> 1 <= B ->
  exists q' ch', call 20 Pop q = Some q' /\ qinv (B + 1) q' (tl vs) ch' /\
    rets q' = rets q ++ [hd_error vs].
Proof.
  intros [(h & Hh & Ehd) Hnd Hlinks (t & nd & Hlast & Etl & Ht & Hd & Hnx & Hc) Hlen [Hb1 Hb2] Hsz] HB HB1.
  destruct ch as [|h0 ch]; [done|]. injection Hh as ->.
  destruct ch as [|b ch].
  - injection Hlast as ->. destruct vs; [|simpl in Hlen; lia].
    eexists _, [t]. split; [by apply (pop_empty_runs q t); [done|done|lia]|]. split; [|done].
    constructor; cbn.
    + by exists t.
    + done.
    + by intros [] ? ?.
    + by exists t, nd.
    + done.
    + lia.
    + done.
  - destruct vs as [|v vs]; [simpl in Hlen; lia|].
    destruct (Hlinks 0%nat h b eq_refl eq_refl) as (ndh & Hndh & Hdh & Hnxh & Hch).
    assert (Hht : h <> t).
    { intros ->. rewrite last_cons_cons in Hlast. apply last_Some_elem_of in Hlast.
      apply NoDup_cons in Hnd as [? _]. done. }
    eexists _, (b :: ch). split; [apply (pop_runs q h ndh); [done|congruence|lia|done]|].
    split; [|cbn; by rewrite Hdh].
    assert (Hother : forall x nd', x <> h -> qheap q !! x = Some nd' ->
      qheap (after_pop h ndh q) !! x = Some nd').
    { intros x nd' Hx Hnd'. cbn. case_decide.
      - by rewrite lookup_delete_ne.
      - by rewrite lookup_insert_ne. }
    constructor.
    + exists b. cbn. by rewrite Hnxh.
    + by apply NoDup_cons in Hnd as [_ ?].
    + intros j x y Hx Hy. destruct (Hlinks (S j) x y Hx Hy) as (ndx & ? & ? & ? & ?).
      exists ndx. split_and!; try done. apply Hother; [|done]. intros ->.
      apply NoDup_cons in Hnd as [Hnin _]. apply Hnin. by eapply list_elem_of_lookup_2.
    + exists t, nd. rewrite last_cons_cons in Hlast. split_and!; try done. by apply Hother.
    + simpl in *. lia.
    + cbn. rewrite Hnxh. cbn. lia.
    + done.
Qed.

Lemma calls_qinv cs : forall q B vs ch,
  junk = None -> qinv B q vs ch -> 1 <= B -> B + Z.of_nat (length cs) < 2 ^ 31 ->
  exists q' ch', calls 20 cs q = Some q' /\ qinv (B + Z.of_nat (length cs)) q'
      (fst (foldl (flip spec_call) (vs, rets q) cs)) ch' /\
    rets q' = snd (foldl (flip spec_call) (vs, rets q) cs).
Proof.
  induction cs as [|c cs IH]; intros q B vs ch Hj I HB1 HB; cbn [calls foldl].
  { exists q, ch. split_and!; [done| |done]. simpl. by rewrite Z.add_0_r. }
  simpl length in *.
  assert (H : exists q1 ch1, call 20 c q = Some q1 /\
    qinv (B + 1) q1 (fst (spec_call c (vs, rets q))) ch1 /\ rets q1 = snd (spec_call c (vs, rets q))).
  { destruct c as [v|].
    - destruct (push_qinv v q B vs ch Hj I) as (q1 & ch1 & ? & ? & ?); [lia|lia|]. by exists q1, ch1.
    - destruct (pop_qinv q B vs ch I) as (q1 & ch1 & ? & ? & ?); [lia|lia|].
      exists q1, ch1. by destruct vs. }
  destruct H as (q1 & ch1 & -> & I1 & Hr1).
  destruct (IH q1 (B + 1) _ ch1 Hj I1) as (q2 & ch2 & -> & I2 & Hr2); [lia|lia|].
  exists q2, ch2. unfold flip at 2 4. rewrite Hr1 in *. rewrite <-!surjective_pairing in *.
  split_and!; [done| |done]. by replace (B + Z.of_nat (S (length cs))) with (B + 1 + Z.of_nat (length cs)) by lia.
Qed.

Lemma initial_qinv c0 B : junk = None -> c0 <= B -> qinv B (LockFreeQueue c0) [] [0%nat].
Proof.
  intros Hj HB. constructor; cbn.
  - by exists 0%nat.
  - apply NoDup_singleton.
  - by intros [] ? ?.
  - exists 0%nat, new_node. unfold new_node. rewrite Hj. done.
  - done.
  - done.
  - done.
Qed.

Lemma qinv_empty B q vs ch : qinv B q vs ch -> queue_empty q = bool_decide (vs = []).
Proof.
  intros [(h & Hh & Ehd) Hnd Hlinks (t & nd & Hlast & Etl & _) Hlen _ _].
  unfold queue_empty. apply bool_decide_ext. rewrite Ehd, Etl.
  destruct ch as [|h0 ch]; [done|]. injection Hh as ->. split.
  - intros [= ->]. rewrite last_lookup in Hlast.
    pose proof (NoDup_lookup (t :: ch) 0 _ t Hnd eq_refl Hlast). destruct vs; simpl in *; [done|lia].
  - intros ->. destruct ch; [|simpl in Hlen; lia]. by injection Hlast as ->.
Qed.

(** * Several threads *)

Inductive SysOutcome := SOk (q : Queue) (ts : list Local) | SUAF | SOther.

Fixpoint sys_run (sched : list (nat * Act)) (q : Queue) (ts : list Local) : SysOutcome :=
  match sched with
  | [] => SOk q ts
  | (i, act) :: sched =>
      match ts !! i with
      | Some l =>
          match tstep act l q with
          | Ok l' q' => sys_run sched q' (<[i := l']> ts)
          | UAF => SUAF
          | _ => SOther
          end
      | None => SOther
      end
  end.

Definition go (i n : nat) : list (nat * Act) := replicate n (i, Go).
End queue.

(** * Properties *)



(** The first push is about to swing the tail when the second one counts itself in. *)
Definition gives_up : list (nat * Act) :=
  (0%nat, Call_push 1) :: go 0 4 ++ (1%nat, Call_push 2) :: go 1 2 ++ go 0 3.

(** [set_new_tail] gives up on the exchange as soon as the tail's count changed, and
    frees the tail's counter although the tail still points to that node.  Without any
    spurious failure, with a first node counted correctly and zeroed memory: (1) a push
    interrupted by a second one returns, and the pop that follows returns null; (2) when
    the second push then frees the same counter again, two pops delete the node the head
    still points to, and one of them reads it. *)
Theorem set_new_tail_gives_up :
  (exists q ts, sys_run None (gives_up ++ (0%nat, Call_pop) :: go 0 3)
      (LockFreeQueue None 1) [Idle; Idle; Idle; Idle] = SOk q ts /\
    ts !! 0%nat = Some Idle /\ rets q = [None]) /\
  sys_run None (gives_up ++ go 1 6 ++ (2%nat, Call_pop) :: go 2 2 ++ (3%nat, Call_pop) :: go 3 4 ++
     go 2 7 ++ go 3 4 ++ go 2 1)
    (LockFreeQueue None 1) [Idle; Idle; Idle; Idle] = SUAF.
Proof.
  split; [|vm_compute; reflexivity].
  eexists _, _. split; [vm_compute; reflexivity|]. by split.
Qed.
