(* ===== verification/LinkedQueues.v ===== *)
(** The single-producer single-consumer queue of src/src/queue.h and queue.hpp, and the
    stack of src/src/hazptr_stack.h, under concurrency.

    The operations are cut at their accesses to shared memory; memory is sequentially
    consistent.  An access to a node that is not allocated is [None].  The allocator may
    return any address that is not in use. *)
From S2P Require Import Prelude.

Open Scope wizard_scope.

(** * SPSCQueue *)

Module Spsc.
Section spsc.
Context {V : Type}.

(** [data] is the [shared_ptr], null or holding a value. *)
Record Node := mkNode { data : option V; next : option nat }.
Definition new_node : Node := mkNode None None.

(** [pushed] and [popped] record the values pushed, when the tail is stored, and the
    values returned; no operation reads them. *)
Record SPSCQueue := mkQueue {
  heap : gmap nat Node;
  head : nat;
  tail : nat;
  _size : Z;
  pushed : list V;
  popped : list (option V)
}.

Definition set_heap (h : gmap nat Node) (q : SPSCQueue) : SPSCQueue :=
  mkQueue h (head q) (tail q) (_size q) (pushed q) (popped q).
Definition set_head (a : nat) (q : SPSCQueue) : SPSCQueue :=
  mkQueue (heap q) a (tail q) (_size q) (pushed q) (popped q).
Definition store_tail (a : nat) (v : V) (q : SPSCQueue) : SPSCQueue :=
  mkQueue (heap q) (head q) a (_size q) (pushed q ++ [v]) (popped q).
Definition returned (r : option V) (q : SPSCQueue) : SPSCQueue :=
  mkQueue (heap q) (head q) (tail q) (_size q) (pushed q) (popped q ++ [r]).

(** [SPSCQueue::SPSCQueue], its dummy at address [a]. *)
Definition ctor (a : nat) : SPSCQueue := mkQueue {[a := new_node]} a a 0 [] [].

Definition size (q : SPSCQueue) : Z := _size q.
Definition is_empty (q : SPSCQueue) : bool := bool_decide (head q = tail q).

(** [push(new_value)] *)
Inductive Producer :=
  | PIdle
  | PLoad (v : V)
  | PSwap (v : V) (old_tail : nat)
  | PNew (v : V) (old_tail : nat)
  | PLink (v : V) (old_tail dummy : nat)
  | PStore (v : V) (dummy : nat).

(** [pop()], with [pop_head()] inlined. *)
Inductive Consumer :=
  | CIdle
  | CLoad
  | CTail (old_head : nat)
  | CNext (old_head : nat)
  | CStore (old_head : nat) (nx : option nat)
  | CData (old_head : nat)
  | CDelete (old_head : nat) (res : option V).

Record State := mkState { queue : SPSCQueue; producer : Producer; consumer : Consumer }.

(** Start a push or a pop, or let one of the two go on; [a] is the address [new Node]
    returns if that is the next step. *)
Inductive Act := Push (v : V) | Produce (a : nat) | Pop | Consume.

(** Nothing happens when a call starts before the last one returned, or when the
    address is in use. *)
Definition pstep (a : nat) (l : Producer) (q : SPSCQueue) : option (Producer * SPSCQueue) :=
  match l with
  | PIdle => Some (PIdle, q)
  | PLoad v => Some (PSwap v (tail q), q)
  | PSwap v old_tail =>
      nd <-? heap q !! old_tail;
      Some (PNew v old_tail, set_heap (<[old_tail := mkNode (Some v) (next nd)]> (heap q)) q)
  | PNew v old_tail =>
      match heap q !! a with
      | None => Some (PLink v old_tail a, set_heap (<[a := new_node]> (heap q)) q)
      | Some _ => Some (l, q)
      end
  | PLink v old_tail dummy =>
      nd <-? heap q !! old_tail;
      Some (PStore v dummy, set_heap (<[old_tail := mkNode (data nd) (Some dummy)]> (heap q)) q)
  | PStore v dummy => Some (PIdle, store_tail dummy v q)
  end.

Definition cstep (l : Consumer) (q : SPSCQueue) : option (Consumer * SPSCQueue) :=
  match l with
  | CIdle => Some (CIdle, q)
  | CLoad => Some (CTail (head q), q)
  | CTail old_head =>
      if decide (old_head = tail q) then Some (CIdle, returned None q)
      else Some (CNext old_head, q)
  | CNext old_head => nd <-? heap q !! old_head; Some (CStore old_head (next nd), q)
  | CStore old_head nx => n <-? nx; Some (CData old_head, set_head n q)
  | CData old_head => nd <-? heap q !! old_head; Some (CDelete old_head (data nd), q)
  | CDelete old_head res =>
      _ <-? heap q !! old_head;
      Some (CIdle, returned res (set_heap (delete old_head (heap q)) q))
  end.

Definition step (act : Act) (s : State) : option State :=
  match act, s with
  | Push v, mkState q PIdle c => Some (mkState q (PLoad v) c)
  | Pop, mkState q p CIdle => Some (mkState q p CLoad)
  | Push _, _ | Pop, _ => Some s
  | Produce a, mkState q p c => r <-? pstep a p q; Some (mkState (snd r) (fst r) c)
  | Consume, mkState q p c => r <-? cstep c q; Some (mkState (snd r) p (fst r))
  end.

Fixpoint run (acts : list Act) (s : State) : option State :=
  match acts with
  | [] => Some s
  | act :: acts => s <-? step act s; run acts s
  end.

Definition start (a : nat) : State := mkState (ctor a) PIdle CIdle.

(** * The invariant *)

(** The node a running push has allocated, and the node a running pop has removed with
    the value it will return. *)
Definition dummy_of (p : Producer) : option nat :=
  match p with PLink _ _ d | PStore _ d => Some d | _ => None end.
Definition removed_of (c : Consumer) : option nat :=
  match c with CData h | CDelete h _ => Some h | _ => None end.

(** The last node of the queue, as the producer has left it. *)
Definition tail_node (p : Producer) : Node :=
  match p with
  | PNew v _ | PLink v _ _ => mkNode (Some v) None
  | PStore v d => mkNode (Some v) (Some d)
  | _ => new_node
  end.

Definition producer_ok (t : nat) (p : Producer) : Prop :=
  match p with PSwap _ t' | PNew _ t' | PLink _ t' _ => t' = t | _ => True end.

Definition consumer_ok (ch : list nat) (h : gmap nat Node) (inflight : list V) (c : Consumer) : Prop :=
  match c with
  | CIdle | CLoad => inflight = []
  | CTail o => inflight = [] /\ ch !! 0%nat = Some o
  | CNext o => inflight = [] /\ ch !! 0%nat = Some o /\ is_Some (ch !! 1%nat)
  | CStore o nx => inflight = [] /\ ch !! 0%nat = Some o /\ nx = ch !! 1%nat /\ is_Some nx
  | CData o => exists v nx, inflight = [v] /\ h !! o = Some (mkNode (Some v) nx)
  | CDelete o r => exists v, inflight = [v] /\ r = Some v /\ is_Some (h !! o)
  end.

Record Inv (s : State) (ch : list nat) (vs inflight : list V) : Prop := {
  i_head : ch !! 0%nat = Some (head (queue s));
  i_tail : last ch = Some (tail (queue s));
  i_nodup : NoDup (ch ++ option_list (dummy_of (producer s)) ++ option_list (removed_of (consumer s)));
  i_length : length ch = (length vs + 1)%nat;
  i_links : forall j a b, ch !! j = Some a -> ch !! S j = Some b ->
    exists v, vs !! j = Some v /\ heap (queue s) !! a = Some (mkNode (Some v) (Some b));
  i_last : heap (queue s) !! tail (queue s) = Some (tail_node (producer s));
  i_dummy : forall d, dummy_of (producer s) = Some d -> heap (queue s) !! d = Some new_node;
  i_producer : producer_ok (tail (queue s)) (producer s);
  i_consumer : consumer_ok ch (heap (queue s)) inflight (consumer s);
  i_history : pushed (queue s) = omap id (popped (queue s)) ++ inflight ++ vs;
  i_dom : forall a, is_Some (heap (queue s) !! a) <->
    a ∈ ch ++ option_list (dummy_of (producer s)) ++ option_list (removed_of (consumer s));
  i_size : _size (queue s) = 0
}.

Lemma last_not_linked (ch : list nat) j a b t :
  NoDup ch -> ch !! j = Some a -> ch !! S j = Some b -> last ch = Some t -> a <> t.
Proof.
  intros Hnd Ha Hb Ht ->. rewrite last_lookup in Ht.
  pose proof (NoDup_lookup _ _ _ _ Hnd Ha Ht). apply lookup_lt_Some in Hb. lia.
Qed.

Lemma inv_nodup_ch s ch vs infl : Inv s ch vs infl -> NoDup ch.
Proof. intros I. pose proof (i_nodup _ _ _ _ I) as H. by apply NoDup_app in H as [? _]. Qed.

Lemma inv_tail_in s ch vs infl : Inv s ch vs infl -> tail (queue s) ∈ ch.
Proof. intros I. apply last_Some_elem_of, (i_tail _ _ _ _ I). Qed.

(** The removed node is neither in the queue nor the new dummy. *)
Lemma inv_removed s ch vs infl o :
  Inv s ch vs infl -> removed_of (consumer s) = Some o ->
  (o ∉ ch) /\ dummy_of (producer s) <> Some o.
Proof.
  intros I Ho. pose proof (i_nodup _ _ _ _ I) as H. rewrite Ho in H. simpl in H.
  apply NoDup_app in H as (_ & H1 & H2). split.
  - intros Hin. apply (H1 o Hin). set_solver.
  - intros E. rewrite E in H2. simpl in H2. apply NoDup_cons in H2 as [H2 _]. set_solver.
Qed.

(** A write to the last node of the queue. *)
Lemma inv_write_tail q p c ch vs infl p' nd :
  Inv (mkState q p c) ch vs infl -> dummy_of p' = dummy_of p -> producer_ok (tail q) p' ->
  tail_node p' = nd -> Inv (mkState (set_heap (<[tail q := nd]> (heap q)) q) p' c) ch vs infl.
Proof.
  intros I Hd Hok Hn. pose proof (inv_nodup_ch _ _ _ _ I) as Hnd. pose proof (inv_tail_in _ _ _ _ I) as Hin.
  pose proof (i_nodup _ _ _ _ I) as Hnodup. destruct I as [I1 I2 I3 I4 I5 I6 I7 I8 I9 I10 I11 I12].
  cbn [queue producer consumer] in *. constructor; cbn [queue producer consumer set_heap heap head tail
    pushed popped _size]; try done.
  - by rewrite Hd.
  - intros j a b Ha Hb. destruct (I5 j a b Ha Hb) as (v & ? & ?). exists v. split; [done|].
    rewrite lookup_insert_ne; [done|]. intros E. by apply (last_not_linked ch j a b (tail q)).
  - by rewrite lookup_insert_eq, Hn.
  - intros d. rewrite Hd. intros Ed. rewrite lookup_insert_ne; [by apply I7|]. intros <-.
    rewrite Ed in Hnodup. apply NoDup_app in Hnodup as (_ & H & _). apply (H (tail q) Hin). set_solver.
  - destruct c; simpl in *; try done.
    + destruct I9 as (v & nx & -> & Ho). exists v, nx. split; [done|]. rewrite lookup_insert_ne; [done|].
      intros <-. apply NoDup_app in Hnodup as (_ & H & _). apply (H (tail q) Hin). set_solver.
    + destruct I9 as (v & -> & -> & Ho). exists v. split_and!; [done..|].
      destruct (decide (tail q = old_head)) as [->|]; [by rewrite lookup_insert_eq|].
      by rewrite lookup_insert_ne.
  - intros a. rewrite Hd, <-I11. destruct (decide (tail q = a)) as [<-|].
    + rewrite lookup_insert_eq, I6. split; eauto.
    + by rewrite lookup_insert_ne.
Qed.

(** A step that leaves the memory alone. *)
Lemma inv_local q p c ch vs infl p' c' :
  Inv (mkState q p c) ch vs infl -> dummy_of p' = dummy_of p -> producer_ok (tail q) p' ->
  tail_node p' = tail_node p -> removed_of c' = removed_of c ->
  consumer_ok ch (heap q) infl c' -> Inv (mkState q p' c') ch vs infl.
Proof.
  intros [I1 I2 I3 I4 I5 I6 I7 I8 I9 I10 I11 I12] Hd Hok Hn Hr Hc. cbn [queue producer consumer] in *.
  constructor; cbn [queue producer consumer]; rewrite ?Hd, ?Hr, ?Hn; done.
Qed.

(** The producer allocates its dummy. *)
Lemma new_dummy_inv q v c ch vs infl a :
  Inv (mkState q (PNew v (tail q)) c) ch vs infl -> heap q !! a = None ->
  Inv (mkState (set_heap (<[a := new_node]> (heap q)) q) (PLink v (tail q) a) c) ch vs infl.
Proof.
  intros I Ha. pose proof (i_consumer _ _ _ _ I) as Hc.
  destruct I as [I1 I2 I3 I4 I5 I6 I7 I8 I9 I10 I11 I12]. cbn [queue producer consumer dummy_of] in *.
  assert (Hna : a ∉ ch ++ option_list (removed_of c)).
  { intros Hin. destruct (proj2 (I11 a)) as [nd Hnd]; [set_solver|congruence]. }
  assert (Hother : forall b nd, heap q !! b = Some nd -> <[a:=new_node]> (heap q) !! b = Some nd).
  { intros b nd Hb. rewrite lookup_insert_ne; [done|congruence]. }
  constructor; cbn [queue producer consumer dummy_of set_heap heap head tail pushed popped _size]; try done.
  - simpl. rewrite Permutation_app_comm. simpl. rewrite Permutation_app_comm.
    apply NoDup_cons. simpl in I3. done.
  - intros j x y Hx Hy. destruct (I5 j x y Hx Hy) as (w & ? & ?). exists w. auto.
  - by apply Hother.
  - intros d [= <-]. by rewrite lookup_insert_eq.
  - destruct c; simpl in *; try done.
    + destruct Hc as (w & nx & -> & Ho). exists w, nx. auto.
    + destruct Hc as (w & -> & -> & [nd Ho]). exists w. split_and!; [done..|]. rewrite (Hother _ nd Ho). eauto.
  - intros b. rewrite lookup_insert_is_Some', I11. set_solver.
Qed.

(** The new dummy becomes the tail. *)
Lemma store_tail_inv q v d c ch vs infl :
  Inv (mkState q (PStore v d) c) ch vs infl ->
  Inv (mkState (store_tail d v q) PIdle c) (ch ++ [d]) (vs ++ [v]) infl.
Proof.
  intros I. pose proof (i_producer _ _ _ _ I) as Hp. pose proof (i_last _ _ _ _ I) as Hl.
  pose proof (i_consumer _ _ _ _ I) as Hc. cbn [queue producer consumer producer_ok tail_node] in *.
  destruct I as [I1 I2 I3 I4 I5 I6 I7 I8 I9 I10 I11 I12]. cbn [queue producer consumer dummy_of tail_node] in *.
  assert (Hch0 : forall k x, ch !! k = Some x -> (ch ++ [d]) !! k = Some x) by (intros; by apply lookup_app_l_Some).
  constructor; cbn [queue producer consumer dummy_of store_tail heap head tail pushed popped _size]; try done.
  + by apply Hch0.
  + by rewrite last_snoc.
  + simpl in *. by rewrite <-app_assoc.
  + rewrite !length_app. simpl. lia.
  + intros j x y Hx Hy. destruct (decide (S j < length ch)%nat).
    * rewrite lookup_app_l in Hx, Hy by lia. destruct (I5 j x y Hx Hy) as (w & Hw & ?).
      exists w. split; [by apply lookup_app_l_Some|done].
    * apply lookup_lt_Some in Hy as Hlt. rewrite length_app in Hlt. simpl in Hlt.
      rewrite lookup_app_l in Hx by lia. rewrite last_lookup in I2.
      replace j with (Nat.pred (length ch)) in * by lia. rewrite I2 in Hx. injection Hx as <-.
      rewrite lookup_app_r in Hy by lia.
      replace (S (Nat.pred (length ch)) - length ch)%nat with 0%nat in Hy by lia. injection Hy as <-.
      exists v. split; [|done]. rewrite lookup_app_r by lia.
      by replace (Nat.pred (length ch) - length vs)%nat with 0%nat by lia.
  + by apply I7.
  + destruct c; simpl in *; try done.
    * destruct Hc as [? ?]. auto.
    * destruct Hc as (? & ? & [x ?]). split_and!; eauto.
    * destruct Hc as (? & ? & -> & [x ?]). split_and!; [done|auto| |eauto]. symmetry. rewrite H1. auto.
  + rewrite I10. by rewrite <-!app_assoc.
  + intros b. rewrite I11. simpl. by rewrite <-app_assoc.
Qed.

Lemma spsc_pstep_inv q p c ch vs infl a :
  Inv (mkState q p c) ch vs infl ->
  exists p' q' ch' vs', pstep a p q = Some (p', q') /\ Inv (mkState q' p' c) ch' vs' infl.
Proof.
  intros I. pose proof (i_producer _ _ _ _ I) as Hp. pose proof (i_last _ _ _ _ I) as Hl.
  pose proof (i_consumer _ _ _ _ I) as Hc. cbn [queue producer consumer] in *.
  assert (Hsame : exists p' q' ch' vs', Some (p, q) = Some (p', q') /\ Inv (mkState q' p' c) ch' vs' infl).
  { by exists p, q, ch, vs. }
  destruct p as [|v|v t|v t|v t d|v d]; cbn [pstep producer_ok tail_node] in *.
  - done.
  - exists (PSwap v (tail q)), q, ch, vs. split; [done|]. by apply (inv_local q (PLoad v) c).
  - subst t. rewrite Hl. eexists (PNew v (tail q)), _, ch, vs. split; [done|].
    by apply (inv_write_tail q (PSwap v (tail q))).
  - destruct (heap q !! a) eqn:Ha; [done|]. subst t.
    eexists (PLink v (tail q) a), _, ch, vs. split; [done|].
    by apply new_dummy_inv.
  - subst t. rewrite Hl. eexists (PStore v d), _, ch, vs. split; [done|].
    by apply (inv_write_tail q (PLink v (tail q) d)).
  - exists PIdle, (store_tail d v q), (ch ++ [d]), (vs ++ [v]). split; [done|].
    by apply store_tail_inv.
Qed.

(** The consumer moves [_head] past the dummy. *)
Lemma spsc_store_inv q p o nx ch vs infl :
  Inv (mkState q p (CStore o nx)) ch vs infl ->
  exists c' q' ch' vs' infl', cstep (CStore o nx) q = Some (c', q') /\ Inv (mkState q' p c') ch' vs' infl'.
Proof.
  intros I. pose proof (i_consumer _ _ _ _ I) as Hc. cbn [queue producer consumer cstep consumer_ok] in *.
  destruct Hc as (-> & Ho & -> & [b Hb]). rewrite Hb.
  destruct (i_links _ _ _ _ I 0%nat o b Ho Hb) as (v & Hv & Hn).
  destruct ch as [|o' [|b' ch]]; [done..|]. injection Ho as ->. injection Hb as ->.
  destruct vs as [|v' vs]; [done|]. injection Hv as ->.
  eexists (CData o), _, (b :: ch), vs, [v]. split; [done|].
  destruct I as [I1 I2 I3 I4 I5 I6 I7 I8 I9 I10 I11 I12]. cbn [queue producer consumer removed_of] in *.
  constructor; cbn [queue producer consumer removed_of set_head heap head tail pushed popped _size]; try done.
  - rewrite app_nil_r in I3. simpl. rewrite app_comm_cons, !app_assoc.
    rewrite Permutation_app_comm. simpl. done.
  - simpl in *. lia.
  - intros j x y Hx Hy. apply (I5 (S j) x y Hx Hy).
  - exists v, (Some b). by split.
  - intros a. rewrite I11. simpl. set_solver.
Qed.

(** The old dummy is deleted. *)
Lemma spsc_delete_inv q p o r ch vs infl :
  Inv (mkState q p (CDelete o r)) ch vs infl ->
  exists c' q' ch' vs' infl', cstep (CDelete o r) q = Some (c', q') /\ Inv (mkState q' p c') ch' vs' infl'.
Proof.
  intros I. pose proof (i_consumer _ _ _ _ I) as Hc. cbn [queue producer consumer cstep consumer_ok] in *.
  destruct Hc as (v & -> & -> & [nd Ho]). rewrite Ho.
  destruct (inv_removed _ _ _ _ o I eq_refl) as [Hoc Hod].
  pose proof (inv_tail_in _ _ _ _ I) as Hin.
  eexists CIdle, _, ch, vs, []. split; [done|].
  destruct I as [I1 I2 I3 I4 I5 I6 I7 I8 I9 I10 I11 I12]. cbn [queue producer consumer removed_of] in *.
  assert (Hother : forall b x, b <> o -> heap q !! b = Some x -> delete o (heap q) !! b = Some x)
    by (intros; by rewrite lookup_delete_ne).
  constructor; cbn [queue producer consumer removed_of set_heap returned heap head tail pushed popped _size]; try done.
  - simpl in I3. rewrite app_nil_r. rewrite app_assoc in I3. by apply NoDup_app in I3 as [? _].
  - intros j x y Hx Hy. destruct (I5 j x y Hx Hy) as (w & ? & ?). exists w. split; [done|].
    apply Hother; [|done]. intros ->. apply Hoc. by eapply list_elem_of_lookup_2.
  - apply Hother; [|done]. intros E. by rewrite E in Hin.
  - intros d Hd. apply Hother; [|by apply I7]. intros ->. done.
  - rewrite I10, omap_app. simpl. by rewrite <-app_assoc.
  - intros a. rewrite lookup_delete_is_Some, I11. simpl. split; [set_solver|].
    intros Ha. split; [|set_solver]. intros <-. apply elem_of_app in Ha as [|Ha]; [done|].
    rewrite app_nil_r in Ha. destruct (dummy_of p) as [d|]; simpl in Ha; [|by apply elem_of_nil in Ha].
    apply list_elem_of_singleton in Ha. by subst.
Qed.

Lemma spsc_cstep_inv q p c ch vs infl :
  Inv (mkState q p c) ch vs infl ->
  exists c' q' ch' vs' infl', cstep c q = Some (c', q') /\ Inv (mkState q' p c') ch' vs' infl'.
Proof.
  intros I. pose proof (i_consumer _ _ _ _ I) as Hc. pose proof (i_producer _ _ _ _ I) as Hp.
  cbn [queue producer consumer] in *.
  destruct c as [| |o|o|o nx|o|o r]; cbn [cstep consumer_ok] in *.
  - by exists CIdle, q, ch, vs, infl.
  - exists (CTail (head q)), q, ch, vs, infl. split; [done|]. apply (inv_local q p CLoad); try done.
    split; [done|]. apply (i_head _ _ _ _ I).
  - destruct Hc as [-> Ho]. case_decide as E.
    + eexists CIdle, _, ch, vs, []. split; [done|].
      destruct I as [I1 I2 I3 I4 I5 I6 I7 I8 I9 I10 I11 I12].
      constructor; cbn in *; try done. rewrite omap_app. simpl. by rewrite app_nil_r.
    + exists (CNext o), q, ch, vs, []. split; [done|]. apply (inv_local q p (CTail o)); try done.
      split_and!; [done..|]. pose proof (i_tail _ _ _ _ I) as Hl. cbn in Hl.
      destruct ch as [|x [|y ch]]; [done| |by eexists]. simpl in *. congruence.
  - destruct Hc as (-> & Ho & [b Hb]). destruct (i_links _ _ _ _ I 0%nat o b Ho Hb) as (v & Hv & Hn).
    cbn in Hn. rewrite Hn. exists (CStore o (Some b)), q, ch, vs, []. split; [done|].
    apply (inv_local q p (CNext o)); try done.
  - by eapply spsc_store_inv.
  - destruct Hc as (v & nx & -> & Ho). rewrite Ho.
    eexists (CDelete o (Some v)), q, ch, vs, [v]. split; [done|].
    apply (inv_local q p (CData o)); try done. exists v. split_and!; eauto.
  - by eapply spsc_delete_inv.
Qed.

Lemma spsc_start_inv a : Inv (start a) [a] [] [].
Proof.
  constructor; cbn; try done.
  - apply NoDup_singleton.
  - by rewrite lookup_singleton_eq.
  - intros b. split.
    + intros [nd [-> _]%lookup_singleton_Some]. by left.
    + intros ->%list_elem_of_singleton. rewrite lookup_singleton_eq. eauto.
Qed.

Lemma spsc_run_inv acts : forall s ch vs infl, Inv s ch vs infl ->
  exists s' ch' vs' infl', run acts s = Some s' /\ Inv s' ch' vs' infl'.
Proof.
  induction acts as [|act acts IH]; intros s ch vs infl I; cbn [run].
  { by exists s, ch, vs, infl. }
  assert (H : exists s' ch' vs' infl', step act s = Some s' /\ Inv s' ch' vs' infl').
  { destruct s as [q p c]. destruct act as [v|a| |]; cbn [step].
    - destruct p; try (eexists _, ch, vs, infl; split; [done|exact I]).
      exists (mkState q (PLoad v) c), ch, vs, infl. split; [done|].
      apply (inv_local q PIdle c); try done. apply (i_consumer _ _ _ _ I).
    - destruct (spsc_pstep_inv q p c ch vs infl a I) as (p' & q' & ch' & vs' & -> & I').
      by exists (mkState q' p' c), ch', vs', infl.
    - destruct c; try (eexists _, ch, vs, infl; split; [done|exact I]).
      exists (mkState q p CLoad), ch, vs, infl. split; [done|].
      apply (inv_local q p CIdle); try done; [apply (i_producer _ _ _ _ I)|apply (i_consumer _ _ _ _ I)].
    - destruct (spsc_cstep_inv q p c ch vs infl I) as (c' & q' & ch' & vs' & infl' & -> & I').
      by exists (mkState q' p c'), ch', vs', infl'. }
  destruct H as (s' & ch' & vs' & infl' & -> & I'). by eapply IH.
Qed.
End spsc.
End Spsc.

(** * HazptrStack *)

Module Stack.
Section stack.
Context {V : Type}.

(** A node's value and its [next], uninitialised (null) until [push] sets it. *)
Record Node := mkNode { data : V; next : option nat }.

(** [popped] and [events] are a history no operation reads: what the pops returned, and
    the successful exchanges of the head, a pushed value or [None] for a pop. *)
Record HazptrStack := mkStack {
  heap : gmap nat Node; _head : option nat;
  popped : list (option V); events : list (option V)
}.

Definition ctor : HazptrStack := mkStack ∅ None [] [].

Inductive Local :=
  | Idle
  (* push: the node is private until the exchange; [next] is the expected head *)
  | PushLoad (node : nat)
  | PushCas (node : nat)
  | PopLoad
  (* the [next] of [old_head] is read for the exchange *)
  | PopNext (old_head : nat)
  | PopCas (old_head : nat) (nx : option nat)
  | PopData (old_head : nat)
  | PopDelete (old_head : nat) (res : V).

(** [GoFail]: the weak exchange fails although it could have succeeded. *)
Inductive Act := Push (v : V) (a : nat) | Pop | Go | GoFail.

Definition set_next (a : nat) (p : option nat) (s : HazptrStack) : option HazptrStack :=
  nd <-? heap s !! a;
  Some (mkStack (<[a := mkNode (data nd) p]> (heap s)) (_head s) (popped s) (events s)).

Definition returned (r : option V) (s : HazptrStack) : HazptrStack :=
  mkStack (heap s) (_head s) (popped s ++ [r]) (events s).

(** [while (old_head && !compare_exchange(old_head, old_head->next))]: null ends the
    loop and [pop] returns an empty pointer. *)
Definition pop_loop (old_head : option nat) (s : HazptrStack) : Local * HazptrStack :=
  match old_head with
  | None => (Idle, returned None s)
  | Some a => (PopNext a, s)
  end.

Definition tstep (act : Act) (l : Local) (s : HazptrStack) : option (Local * HazptrStack) :=
  match l, act with
  | Idle, Push v a =>
      match heap s !! a with
      | None => Some (PushLoad a, mkStack (<[a := mkNode v None]> (heap s)) (_head s) (popped s) (events s))
      | Some _ => Some (l, s)
      end
  | Idle, Pop => Some (PopLoad, s)
  | PushLoad node, Go => s <-? set_next node (_head s) s; Some (PushCas node, s)
  | PushCas node, Go =>
      nd <-? heap s !! node;
      if decide (_head s = next nd)
      then Some (Idle, mkStack (heap s) (Some node) (popped s) (events s ++ [Some (data nd)]))
      else s <-? set_next node (_head s) s; Some (PushCas node, s)
  | PushCas node, GoFail => s <-? set_next node (_head s) s; Some (PushCas node, s)
  | PopLoad, Go => Some (pop_loop (_head s) s)
  | PopNext old_head, Go => nd <-? heap s !! old_head; Some (PopCas old_head (next nd), s)
  | PopCas old_head nx, Go =>
      if decide (_head s = Some old_head)
      then Some (PopData old_head, mkStack (heap s) nx (popped s) (events s ++ [None]))
      else Some (pop_loop (_head s) s)
  | PopCas _ _, GoFail => Some (pop_loop (_head s) s)
  | PopData old_head, Go => nd <-? heap s !! old_head; Some (PopDelete old_head (data nd), s)
  | PopDelete old_head res, Go =>
      _ <-? heap s !! old_head;
      Some (Idle, returned (Some res) (mkStack (delete old_head (heap s)) (_head s) (popped s) (events s)))
  | _, _ => Some (l, s)
  end.

Record State := mkState { stack : HazptrStack; threads : list Local }.

Definition step (i : nat) (act : Act) (s : State) : option State :=
  l <-? threads s !! i;
  r <-? tstep act l (stack s);
  Some (mkState (snd r) (<[i := fst r]> (threads s))).

Fixpoint run (sched : list (nat * Act)) (s : State) : option State :=
  match sched with
  | [] => Some s
  | (i, act) :: sched => s <-? step i act s; run sched s
  end.

Definition go (i n : nat) : list (nat * Act) := replicate n (i, Go).

(** * The invariant with one popping thread *)

Section one_popper.
Context (popper : nat).

(** The node of a running push, still private. *)
Definition private_of (l : Local) : option nat :=
  match l with PushLoad n | PushCas n => Some n | _ => None end.

Definition removed_of (l : Local) : option nat :=
  match l with PopData o | PopDelete o _ => Some o | _ => None end.

(** The linked list of the stack: the nodes [ch] with the values [vs]. *)
Fixpoint linked (h : gmap nat Node) (p : option nat) (ch : list nat) (vs : list V) : Prop :=
  match ch, vs with
  | [], [] => p = None
  | a :: ch, v :: vs => p = Some a /\ exists nx, h !! a = Some (mkNode v nx) /\ linked h nx ch vs
  | _, _ => False
  end.

Definition local_ok (ch : list nat) (s : HazptrStack) (i : nat) (l : Local) : Prop :=
  match l with
  | Idle => True
  | PushLoad n | PushCas n => (n ∉ ch) /\ is_Some (heap s !! n)
  | PopLoad => i = popper
  | PopNext o => i = popper /\ o ∈ ch
  | PopCas o nx => i = popper /\ o ∈ ch /\ exists nd, heap s !! o = Some nd /\ nx = next nd
  | PopData o => i = popper /\ (o ∉ ch) /\ is_Some (heap s !! o)
  | PopDelete o _ => i = popper /\ (o ∉ ch) /\ is_Some (heap s !! o)
  end.

(** Distinct threads hold distinct nodes. *)
Definition apart (ts : list Local) : Prop :=
  forall i j l l' n, i <> j -> ts !! i = Some l -> ts !! j = Some l' ->
    private_of l = Some n -> private_of l' <> Some n /\ removed_of l' <> Some n.

(** What a sequential stack does on the exchanges, and the values it pops. *)
Definition replay1 (st : list V * list V) (e : option V) : list V * list V :=
  match e, st with
  | Some v, (vs, out) => (v :: vs, out)
  | None, (v :: vs, out) => (vs, out ++ [v])
  | None, ([], out) => ([], out)
  end.
Definition replay (es : list (option V)) : list V * list V := foldl replay1 ([], []) es.

(** The value of a pop between its exchange and its return. *)
Definition inflight (s : HazptrStack) (l : option Local) : list V :=
  match l with
  | Some (PopData o) => option_list (data <$> heap s !! o)
  | Some (PopDelete _ r) => [r]
  | _ => []
  end.

Record Inv (s : State) (ch : list nat) (vs : list V) : Prop := {
  i_linked : linked (heap (stack s)) (_head (stack s)) ch vs;
  i_nodup : NoDup ch;
  i_local : forall i l, threads s !! i = Some l -> local_ok ch (stack s) i l;
  i_apart : apart (threads s);
  i_history : replay (events (stack s)) =
    (vs, omap id (popped (stack s)) ++ inflight (stack s) (threads s !! popper))
}.

Lemma linked_frame h h' p ch vs :
  (forall a, a ∈ ch -> h' !! a = h !! a) -> linked h p ch vs -> linked h' p ch vs.
Proof.
  revert p vs. induction ch as [|a ch IH]; intros p [|v vs] Hh; simpl; try done.
  intros (-> & nx & Ha & Hl). split; [done|]. exists nx. rewrite Hh by (by left).
  split; [done|]. apply IH; [|done]. intros. apply Hh. by right.
Qed.

Lemma linked_alloc h p ch vs a : linked h p ch vs -> a ∈ ch -> is_Some (h !! a).
Proof.
  revert p vs. induction ch as [|b ch IH]; intros p [|v vs]; simpl; try done; [set_solver|].
  intros (-> & nx & Hb & Hl) [->|Ha]%elem_of_cons; eauto.
Qed.

(** A node some thread uses is allocated. *)
Lemma local_alloc ch s i l vs n :
  linked (heap s) (_head s) ch vs -> local_ok ch s i l ->
  private_of l = Some n \/ removed_of l = Some n -> is_Some (heap s !! n).
Proof. intros Hl. destruct l; simpl; intros Hok [E|E]; simplify_eq; tauto. Qed.

(** The pieces of the invariant after thread [i] moved from [l] to [l']. *)
Lemma inv_step s ts ch vs i l l' s' ch' vs' :
  Inv (mkState s ts) ch vs -> ts !! i = Some l ->
  linked (heap s') (_head s') ch' vs' -> NoDup ch' -> local_ok ch' s' i l' ->
  (forall j lj, i <> j -> ts !! j = Some lj -> local_ok ch s j lj -> local_ok ch' s' j lj) ->
  (forall n, private_of l' = Some n \/ removed_of l' = Some n -> 
     private_of l = Some n \/ removed_of l = Some n \/
     (forall j lj, i <> j -> ts !! j = Some lj -> private_of lj <> Some n /\ removed_of lj <> Some n)) ->
  (forall n, removed_of l = Some n -> private_of l' <> Some n) ->
  (forall n, private_of l = Some n -> removed_of l' <> Some n) ->
  replay (events s') = (vs', omap id (popped s') ++
    inflight s' (if decide (i = popper) then Some l' else ts !! popper)) ->
  Inv (mkState s' (<[i := l']> ts)) ch' vs'.
Proof.
  intros [I1 I2 I3 I4 I5] Hi Hl Hnd Hok Hothers Hnew Hrp Hpr Hhist. cbn [stack threads] in *.
  assert (Hlook : forall j, <[i := l']> ts !! j = if decide (i = j) then Some l' else ts !! j).
  { intros j. destruct (decide (i = j)) as [<-|]; [|by rewrite list_lookup_insert_ne].
    apply list_lookup_insert_eq. by eapply lookup_lt_Some. }
  constructor; cbn [stack threads]; try done.
  - intros j lj. rewrite Hlook. destruct (decide (i = j)) as [<-|]; [intros; by simplify_eq|].
    intros Hj. eapply Hothers; [done|done|by apply I3].
  - intros j k lj lk n Hjk. rewrite !Hlook. intros Hj Hk Hp.
    destruct (decide (i = j)) as [<-|Hij].
    + injection Hj as <-. rewrite decide_False in Hk by done.
      destruct (Hnew n (or_introl Hp)) as [Hx|[Hx|Hx]].
      * by eapply (I4 i k).
      * exfalso. by eapply Hrp.
      * by eapply Hx.
    + destruct (decide (i = k)) as [<-|Hik]; [|by eapply (I4 j k)]. injection Hk as <-.
      destruct (I4 j i lj l n) as [H1 H2]; [done..|].
      assert (Hne : ~ (private_of l' = Some n \/ removed_of l' = Some n)); [|tauto].
      intros Hx. destruct (Hnew n Hx) as [?|[?|Hy]]; [done|done|]. by destruct (Hy j lj).
  - rewrite Hlook. done.
Qed.

Lemma history_of s ts ch vs :
  Inv (mkState s ts) ch vs ->
  replay (events s) = (vs, omap id (popped s) ++ inflight s (ts !! popper)).
Proof. apply i_history. Qed.

(** The memory changes only at the private node [n] of thread [i]. *)
Lemma others_frame ch s s' n (i j : nat) lj :
  (forall b, b <> n -> heap s' !! b = heap s !! b) -> is_Some (heap s' !! n) -> n ∉ ch ->
  i <> j -> private_of lj <> Some n -> removed_of lj <> Some n ->
  local_ok ch s j lj -> local_ok ch s' j lj.
Proof.
  intros Hb Hn Hnch Hij Hp Hr. destruct lj as [|m|m| |o|o nx|o|o r]; simpl in *; try done.
  - rewrite Hb by congruence. done.
  - rewrite Hb by congruence. done.
  - intros (? & Ho & nd & ? & ?). split_and!; [done|done|]. exists nd. rewrite Hb; [done|]. by intros ->.
  - rewrite Hb by congruence. done.
  - rewrite Hb by congruence. done.
Qed.

Lemma inflight_frame s s' (ts : list Local) n :
  (forall b, b <> n -> heap s' !! b = heap s !! b) ->
  (forall l, ts !! popper = Some l -> removed_of l <> Some n) ->
  inflight s' (ts !! popper) = inflight s (ts !! popper).
Proof.
  intros Hb Hr. destruct (ts !! popper) as [[| | | | | |o|]|]; simpl; try done.
  rewrite Hb; [done|]. intros ->. by apply (Hr _ eq_refl).
Qed.

(** [push] writes the [next] of its node. *)
Lemma push_write_inv s ts ch vs i l n p :
  Inv (mkState s ts) ch vs -> ts !! i = Some l -> l = PushLoad n \/ l = PushCas n ->
  exists s', set_next n p s = Some s' /\ Inv (mkState s' (<[i := PushCas n]> ts)) ch vs.
Proof.
  intros I Hi Hl. assert (Hp : private_of l = Some n) by (destruct Hl; by subst).
  pose proof (i_local _ _ _ I _ _ Hi) as Hok. cbn [stack] in Hok.
  assert (Hok' : (n ∉ ch) /\ is_Some (heap s !! n)) by (destruct Hl; by subst).
  destruct Hok' as [Hn [nd Hnd]]. unfold set_next. rewrite Hnd. eexists. split; [done|].
  assert (Hheap : forall b, b <> n ->
    heap (mkStack (<[n := mkNode (data nd) p]> (heap s)) (_head s) (popped s) (events s)) !! b = heap s !! b).
  { intros b Hb. cbn. by rewrite lookup_insert_ne. }
  pose proof (i_apart _ _ _ I) as Hap. cbn [threads] in Hap.
  eapply inv_step; [done|done|..]; try done.
  - cbn. eapply linked_frame; [|apply (i_linked _ _ _ I)]. intros b Hb. apply Hheap. by intros ->.
  - apply (i_nodup _ _ _ I).
  - cbn. by rewrite lookup_insert_eq.
  - intros j lj Hij Hj. destruct (Hap i j l lj n Hij Hi Hj Hp).
    eapply (others_frame ch s _ n i); try done. cbn. by rewrite lookup_insert_eq.
  - intros m [[= <-]|?]; [|done]. by left.
  - intros m Hr. destruct Hl; by subst.
  - cbn [events popped]. rewrite (history_of _ _ _ _ I). f_equal. f_equal.
    case_decide; subst.
    + rewrite Hi. by destruct Hl; subst.
    + symmetry. eapply inflight_frame; [done|]. intros lp Hlp. by eapply (Hap i popper).
Qed.

(** A step of the popping thread, or any step, that leaves the memory alone. *)
Lemma quiet_inv s ts ch vs i l l' :
  Inv (mkState s ts) ch vs -> ts !! i = Some l -> local_ok ch s i l' ->
  private_of l' = private_of l -> removed_of l' = removed_of l ->
  inflight s (Some l') = inflight s (Some l) ->
  Inv (mkState s (<[i := l']> ts)) ch vs.
Proof.
  intros I Hi Hok Hp Hr Hf. pose proof (i_apart _ _ _ I) as Hap. cbn [threads] in Hap.
  eapply inv_step; [done|done|..]; try done.
  - apply (i_linked _ _ _ I).
  - apply (i_nodup _ _ _ I).
  - intros n. rewrite Hp, Hr. tauto.
  - intros n Hn. rewrite Hp. intros Hx. destruct l; simpl in *; congruence.
  - intros n Hn. rewrite Hr. intros Hx. destruct l; simpl in *; congruence.
  - rewrite (history_of _ _ _ _ I). f_equal. f_equal.
    case_decide; subst; [by rewrite Hi, Hf|done].
Qed.

(** What [pop] does with a head it has loaded. *)
Lemma pop_loop_inv s ts ch vs i l :
  Inv (mkState s ts) ch vs -> ts !! i = Some l -> i = popper ->
  l = PopLoad \/ (exists o nx, l = PopCas o nx) ->
  Inv (mkState (snd (pop_loop (_head s) s)) (<[i := fst (pop_loop (_head s) s)]> ts)) ch vs.
Proof.
  intros I Hi Hip Hl. assert (Hp : private_of l = None /\ removed_of l = None /\ inflight s (Some l) = []).
  { by destruct Hl as [-> | (o & nx & ->)]. }
  destruct Hp as (Hp & Hr & Hf). pose proof (i_linked _ _ _ I) as Hlk. cbn [stack] in Hlk.
  unfold pop_loop. destruct (_head s) as [a|] eqn:Eh; cbn [fst snd].
  - apply quiet_inv with l; try done. split; [done|]. destruct ch as [|b ch], vs; simpl in Hlk; try done.
    destruct Hlk as [[= ->] _]. by left.
  - eapply inv_step; [done|done|..]; try done.
    + cbn. by rewrite Eh.
    + apply (i_nodup _ _ _ I).
    + intros n [?|?]; done.
    + cbn [returned events popped]. rewrite (history_of _ _ _ _ I).
      f_equal. rewrite omap_app. simpl. rewrite app_nil_r. f_equal.
      rewrite decide_True by done. rewrite <-Hip, Hi, Hf. done.
Qed.

Lemma push_cas_inv s ts ch vs i n nd :
  Inv (mkState s ts) ch vs -> ts !! i = Some (PushCas n) -> heap s !! n = Some nd -> _head s = next nd ->
  Inv (mkState (mkStack (heap s) (Some n) (popped s) (events s ++ [Some (data nd)])) (<[i := Idle]> ts))
    (n :: ch) (data nd :: vs).
Proof.
  intros I Hi Hnd Hh. destruct (i_local _ _ _ I _ _ Hi) as [Hn _].
  pose proof (i_apart _ _ _ I) as Hap. cbn [threads] in Hap.
  eapply inv_step; [done|done|..]; try done.
  - cbn. split; [done|]. exists (next nd). rewrite Hnd. split; [by destruct nd|].
    rewrite <-Hh. apply (i_linked _ _ _ I).
  - apply NoDup_cons. split; [done|apply (i_nodup _ _ _ I)].
  - intros j lj Hij Hj. destruct (Hap i j _ lj n Hij Hi Hj eq_refl) as [H1 H2].
    destruct lj; simpl in *; rewrite ?not_elem_of_cons, ?elem_of_cons; naive_solver.
  - intros m [?|?]; done.
  - cbn [events popped]. unfold replay. rewrite foldl_app.
    pose proof (i_history _ _ _ I) as Hhist. unfold replay in Hhist. cbn [stack threads] in Hhist.
    rewrite Hhist. cbn. f_equal. f_equal. case_decide; subst; [by rewrite Hi|done].
Qed.

Lemma pop_cas_inv s ts ch vs i o nx :
  Inv (mkState s ts) ch vs -> ts !! i = Some (PopCas o nx) -> _head s = Some o ->
  exists ch' vs', Inv (mkState (mkStack (heap s) nx (popped s) (events s ++ [None])) (<[i := PopData o]> ts)) ch' vs'.
Proof.
  intros I Hi Hh. destruct (i_local _ _ _ I _ _ Hi) as (-> & Ho & nd & Hnd & ->). cbn [stack] in *.
  pose proof (i_linked _ _ _ I) as Hlk. pose proof (i_nodup _ _ _ I) as Hnd0. cbn [stack] in Hlk.
  destruct ch as [|a ch], vs as [|v vs]; simpl in Hlk; try done; [congruence|].
  destruct Hlk as (E & nx & Ha & Hlk). rewrite Hh in E. injection E as <-.
  rewrite Hnd in Ha. injection Ha as ->. cbn [next]. exists ch, vs.
  pose proof Hnd0 as [Hnin Hnd']%NoDup_cons.
  eapply inv_step; [done|done|..]; try done.
  - intros j lj Hij Hj Hlj. destruct lj; simpl in *; try done; try (by destruct Hlj);
      destruct Hlj as [?%not_elem_of_cons ?]; tauto.
  - intros m [|[= <-]]; [done|]. right. right. intros j lj Hij Hj.
    pose proof (i_local _ _ _ I _ _ Hj) as Hok. cbn [stack] in Hok.
    destruct lj; simpl in *; (split; [|try done]); intros [= ->]; destruct Hok; set_solver.
  - cbn [events popped]. unfold replay. rewrite foldl_app.
    pose proof (i_history _ _ _ I) as Hhist. unfold replay in Hhist. cbn [stack threads] in Hhist.
    rewrite Hhist, Hi. cbn. rewrite decide_True by done. cbn. rewrite Hnd. cbn.
    by rewrite app_nil_r.
Qed.

(** [push] allocates its node. *)
Lemma push_alloc_inv s ts ch vs i v a :
  Inv (mkState s ts) ch vs -> ts !! i = Some Idle -> heap s !! a = None ->
  Inv (mkState (mkStack (<[a := mkNode v None]> (heap s)) (_head s) (popped s) (events s)) (<[i := PushLoad a]> ts)) ch vs.
Proof.
  intros I Hi Ha.
  assert (Hfresh : forall j lj, ts !! j = Some lj -> private_of lj <> Some a /\ removed_of lj <> Some a).
  { intros j lj Hj. pose proof (i_local _ _ _ I _ _ Hj) as Hlj. cbn [stack] in Hlj.
    assert (Hx : ~ (private_of lj = Some a \/ removed_of lj = Some a)); [|tauto]. intros Hx.
    destruct (local_alloc ch s j lj vs a (i_linked _ _ _ I) Hlj Hx). congruence. }
  assert (Hnch : a ∉ ch).
  { intros Hin. destruct (linked_alloc _ _ _ _ _ (i_linked _ _ _ I) Hin). cbn in *. congruence. }
  assert (Hheap : forall b, b <> a ->
    heap (mkStack (<[a := mkNode v None]> (heap s)) (_head s) (popped s) (events s)) !! b = heap s !! b).
  { intros b Hb. cbn. by rewrite lookup_insert_ne. }
  eapply inv_step; [done|done|..]; try done.
  - cbn. eapply linked_frame; [|apply (i_linked _ _ _ I)]. intros b Hb. apply Hheap. by intros ->.
  - apply (i_nodup _ _ _ I).
  - cbn. by rewrite lookup_insert_eq.
  - intros j lj Hij Hj. destruct (Hfresh j lj Hj).
    eapply (others_frame ch s _ a i); try done. cbn. by rewrite lookup_insert_eq.
  - intros m [[= <-]|?]; [|done]. right. right. intros j lj _. apply Hfresh.
  - cbn [events popped]. rewrite (history_of _ _ _ _ I). f_equal. f_equal.
    case_decide; subst; [by rewrite Hi|]. symmetry. eapply inflight_frame; [done|].
    intros lp Hlp. by eapply Hfresh.
Qed.

Lemma stack_tstep_inv s ts ch vs i l act :
  Inv (mkState s ts) ch vs -> ts !! i = Some l -> (act = Pop -> i = popper) ->
  exists l' s' ch' vs', tstep act l s = Some (l', s') /\ Inv (mkState s' (<[i := l']> ts)) ch' vs'.
Proof.
  intros I Hi Hact. pose proof (i_local _ _ _ I _ _ Hi) as Hok. cbn [stack] in Hok.
  pose proof (i_apart _ _ _ I) as Hap. cbn [threads] in Hap.
  assert (Hsame : exists l' s' ch' vs', Some (l, s) = Some (l', s') /\ Inv (mkState s' (<[i := l']> ts)) ch' vs').
  { exists l, s, ch, vs. split; [done|]. by rewrite list_insert_id. }
  destruct l as [|n|n| |o|o nx|o|o r], act as [v a| | |]; cbn [tstep]; try done.
  - destruct (heap s !! a) eqn:Ha; [done|]. eexists (PushLoad a), _, ch, vs. split; [done|].
    by apply push_alloc_inv.
  - exists PopLoad, s, ch, vs. split; [done|]. apply quiet_inv with Idle; try done. by apply Hact.
  - destruct (push_write_inv s ts ch vs i (PushLoad n) n (_head s) I Hi) as (s' & -> & I'); [by left|].
    by exists (PushCas n), s', ch, vs.
  - destruct Hok as [Hn [nd Hnd]]. rewrite Hnd. case_decide as E.
    + eexists Idle, _, (n :: ch), (data nd :: vs). split; [done|]. by apply push_cas_inv.
    + destruct (push_write_inv s ts ch vs i (PushCas n) n (_head s) I Hi) as (s' & -> & I'); [by right|].
      by exists (PushCas n), s', ch, vs.
  - destruct (push_write_inv s ts ch vs i (PushCas n) n (_head s) I Hi) as (s' & -> & I'); [by right|].
    by exists (PushCas n), s', ch, vs.
  - eexists _, _, ch, vs. split; [by rewrite <-surjective_pairing|].
    by apply (pop_loop_inv s ts ch vs i PopLoad); [|by rewrite Hi| |left].
  - destruct Hok as [-> Ho]. destruct (linked_alloc _ _ _ _ _ (i_linked _ _ _ I) Ho) as [nd Hnd].
    cbn in Hnd. rewrite Hnd. exists (PopCas o (next nd)), s, ch, vs. split; [done|].
    apply quiet_inv with (PopNext o); try done. split_and!; eauto.
  - case_decide as E.
    + destruct (pop_cas_inv s ts ch vs i o nx I Hi E) as (ch' & vs' & I'). eauto 10.
    + eexists _, _, ch, vs. split; [by rewrite <-surjective_pairing|].
      apply (pop_loop_inv s ts ch vs i (PopCas o nx)); [done|done|by destruct Hok|]. right. eauto.
  - eexists _, _, ch, vs. split; [by rewrite <-surjective_pairing|].
    apply (pop_loop_inv s ts ch vs i (PopCas o nx)); [done|done|by destruct Hok|]. right. eauto.
  - destruct Hok as (-> & Ho & [nd Hnd]). rewrite Hnd. exists (PopDelete o (data nd)), s, ch, vs.
    split; [done|]. apply quiet_inv with (PopData o); try done.
    cbn. by rewrite Hnd.
  - destruct Hok as (-> & Ho & [nd Hnd]). rewrite Hnd. eexists Idle, _, ch, vs. split; [done|].
    eapply inv_step; [done|done|..]; try done.
    + cbn. eapply linked_frame; [|apply (i_linked _ _ _ I)]. intros b Hb.
      rewrite lookup_delete_ne; [done|]. by intros ->.
    + apply (i_nodup _ _ _ I).
    + intros j lj Hij Hj Hlj. pose proof (Hap j popper lj _ o ltac:(done) Hj Hi) as Hx.
      destruct lj; simpl in *; try done; try (by naive_solver).
      * rewrite lookup_delete_ne; [done|]. intros ->. by destruct (Hx eq_refl).
      * rewrite lookup_delete_ne; [done|]. intros ->. by destruct (Hx eq_refl).
    + intros m [?|?]; done.
    + cbn [returned events popped]. rewrite (history_of _ _ _ _ I).
      rewrite Hi. cbn. rewrite decide_True by done. cbn. by rewrite omap_app, app_nil_r.
Qed.

Lemma stack_run_inv sched : forall s ch vs,
  Inv s ch vs -> (forall i, (i, Pop) ∈ sched -> i = popper) ->
  (forall i a, (i, a) ∈ sched -> (i < length (threads s))%nat) ->
  exists s' ch' vs', run sched s = Some s' /\ Inv s' ch' vs'.
Proof.
  induction sched as [|[i act] sched IH]; intros s ch vs I Hp Hb; cbn [run]; [by exists s, ch, vs|].
  unfold step. destruct (lookup_lt_is_Some_2 (threads s) i) as [l Hl]; [eapply Hb; by left|].
  rewrite Hl. destruct s as [s ts]. cbn [stack threads] in *.
  destruct (stack_tstep_inv s ts ch vs i l act I Hl) as (l' & s' & ch' & vs' & -> & I').
  { intros ->. apply Hp. by left. }
  apply (IH _ ch' vs' I').
  - intros j Hj. apply Hp. by right.
  - intros j a Hj. cbn. rewrite length_insert. eapply Hb. by right.
Qed.

Lemma stack_start_inv n : Inv (mkState ctor (replicate n Idle)) [] [].
Proof.
  constructor; cbn; try done.
  - constructor.
  - by intros i l [-> _]%lookup_replicate.
  - by intros i j l l' m _ [-> _]%lookup_replicate.
  - destruct (replicate n Idle !! popper) eqn:E; [|done]. by apply lookup_replicate in E as [-> _].
Qed.
End one_popper.
End stack.
End Stack.

(** * Properties *)

(** C31: with one producer and one consumer, under every interleaving and whatever
    addresses the allocator returns, no freed or null node is accessed; the values popped
    so far are a prefix of the values pushed, in order; [pop] returns null only when it
    has taken all of them; between calls the nodes in memory are one for each value
    left and the dummy; [empty] is right; and [size] is 0 whatever the queue holds. *)
Theorem spsc_fifo {V} (a : nat) (acts : list (Spsc.Act (V := V))) :
  exists s rest, Spsc.run acts (Spsc.start a) = Some s /\
    let q := Spsc.queue s in
    Spsc.pushed q = omap id (Spsc.popped q) ++ rest /\
    (forall h, Spsc.consumer s = Spsc.CTail h -> h = Spsc.tail q -> rest = []) /\
    (Spsc.producer s = Spsc.PIdle -> Spsc.consumer s = Spsc.CIdle ->
       base.size (Spsc.heap q) = S (length rest) /\ Spsc.is_empty q = bool_decide (rest = [])) /\
    Spsc.size q = 0.
Proof.
  destruct (Spsc.spsc_run_inv acts _ _ _ _ (Spsc.spsc_start_inv a)) as (s & ch & vs & infl & -> & I).
  exists s, (infl ++ vs). split; [done|]. cbn zeta.
  pose proof (Spsc.i_consumer _ _ _ _ I) as Hc. pose proof (Spsc.inv_nodup_ch _ _ _ _ I) as Hnd.
  assert (Hone : ch !! 0%nat = Some (Spsc.tail (Spsc.queue s)) -> vs = []).
  { intros H0. pose proof (Spsc.i_tail _ _ _ _ I) as Hl. rewrite last_lookup in Hl.
    pose proof (NoDup_lookup _ _ _ _ Hnd H0 Hl). pose proof (Spsc.i_length _ _ _ _ I).
    apply nil_length_inv. lia. }
  split_and!; [apply (Spsc.i_history _ _ _ _ I)| | |apply (Spsc.i_size _ _ _ _ I)].
  - intros h E ->. rewrite E in Hc. destruct Hc as [-> H0]. by rewrite Hone.
  - intros Ep Ec. rewrite Ec in Hc. simpl in Hc. subst infl. split.
    + rewrite <-(size_dom (D := gset nat)).
      replace (dom (Spsc.heap (Spsc.queue s))) with (list_to_set ch : gset nat).
      * rewrite size_list_to_set by done. rewrite (Spsc.i_length _ _ _ _ I). simpl. lia.
      * apply set_eq. intros b. rewrite elem_of_list_to_set, elem_of_dom, (Spsc.i_dom _ _ _ _ I), Ep, Ec.
        simpl. by rewrite app_nil_r.
    + unfold Spsc.is_empty. apply bool_decide_ext. simpl. split.
      * intros E. apply Hone. rewrite <-E. apply (Spsc.i_head _ _ _ _ I).
      * intros ->. pose proof (Spsc.i_length _ _ _ _ I) as Hlen. pose proof (Spsc.i_head _ _ _ _ I) as H0.
        pose proof (Spsc.i_tail _ _ _ _ I) as Hl. destruct ch as [|x [|y ch]]; simpl in *; try lia.
        congruence.
Qed.


(** Two pushes race, then a pop overlaps a push that reuses no address. *)
Definition stack_sched : list (nat * Stack.Act (V := Z)) :=
  [(0%nat, Stack.Push 1 0%nat); (1%nat, Stack.Push 2 1%nat); (0%nat, Stack.Go); (1%nat, Stack.Go)] ++
  Stack.go 0 1 ++ Stack.go 1 2 ++ [(2%nat, Stack.Pop)] ++ Stack.go 2 3 ++
  [(0%nat, Stack.Push 3 5%nat)] ++ Stack.go 0 2 ++ Stack.go 2 2 ++ [(2%nat, Stack.Pop)] ++ Stack.go 2 5.

Definition stack_end : Stack.State (V := Z) :=
  match Stack.run stack_sched (Stack.mkState Stack.ctor (replicate 3 Stack.Idle)) with
  | Some s => s | None => Stack.mkState Stack.ctor [] end.


(** With two popping threads the second reads the [next] of the node the first one has
    deleted: despite its name the stack has no hazard pointers. *)
Lemma hazptr_stack_two_poppers :
  Stack.run ((0%nat, Stack.Push 1 0%nat) :: Stack.go 0 2 ++ [(0%nat, Stack.Pop); (1%nat, Stack.Pop)] ++
    Stack.go 1 1 ++ Stack.go 0 5 ++ Stack.go 1 1)
    (Stack.mkState Stack.ctor [Stack.Idle; Stack.Idle]) = None.
Proof. vm_compute. reflexivity. Qed.
