(* ===== verification/Hazptr.v ===== *)
(** The hazard pointers of src/src/concurrent/hazptr.h and hazptr.hpp: the list of
    records, the holders and their [try_protect], the threads' retired lists, the
    manager's retired list and its reclamation, and the destructors.

    Any number of threads run the operations below, interleaved access by access (each
    atomic load, store, exchange and [fetch_add] is one step; accesses to memory that only
    the thread can reach are grouped). The memory is sequentially consistent. [None] is
    undefined behaviour: an access to a record or an object that is not allocated, or a
    second [delete]. The client owns a family of atomic pointers [src]: it publishes new
    objects by exchanging them and retires what the exchange returns, as the unit tests
    and the hash map do. An address may be allocated again after its object is deleted. *)
From S2P Require Import Prelude.
Local Open Scope wz.

Module Hazptr.

(** * Data *)

Abbreviation ptr := (option nat).

(** [HAZPTR_SCAN_THRESHOLD], [HAZPTR_SCAN_MULT] and [HAZPTR_RECORD_CACHE_SIZE]. *)
Definition SCAN_THRESHOLD : Z := 5.
Definition SCAN_MULT : Z := 2.
Definition RECORD_CACHE_SIZE : Z := 10.

Record HazptrRecord := mkRec { r_next : ptr; active : bool; realptr : ptr }.

(** [head], [tail] and [count] of a [DoubleLinkedList<HazptrObj>]. *)
Record DoubleLinkedList := mkList { head : ptr; tail : ptr; count : Z }.

(** The allocated records, the allocated objects with their [next], the client's atomic
    pointers, and the four fields of the [HazptrManager]. *)
Record Mem := mkMem {
  recs : gmap nat HazptrRecord;
  objs : gmap nat ptr;
  src : gmap nat nat;
  _hazptr_list : ptr;
  _retired_list : ptr;
  _retired_count : Z;
  _hazptr_count : Z
}.

(** A holder's record; [prot] is what its last successful [try_protect] returned, a
    history no operation reads except to say which pointer the client may use. *)
Record HazptrHolder := mkHolder { rec : nat; prot : ptr }.

(** * Objects and their lists *)

Definition set_next (o : nat) (p : ptr) (h : gmap nat ptr) : option (gmap nat ptr) :=
  _ <-? h !! o;
  Some (<[o := p]> h).

Definition dll_empty : DoubleLinkedList := mkList None None 0.

Definition dll_push (node : nat) (l : DoubleLinkedList) (h : gmap nat ptr)
    : option (DoubleLinkedList * gmap nat ptr) :=
  h <-? set_next node None h;
  match tail l with
  | Some t =>
      h <-? set_next t (Some node) h;
      Some (mkList (head l) (Some node) (count l + 1), h)
  | None => Some (mkList (Some node) (Some node) (count l + 1), h)
  end.

Definition dll_clear (l : DoubleLinkedList) : DoubleLinkedList := mkList None None 0.

(** * Accesses to the shared memory *)

Definition set_recs (f : gmap nat HazptrRecord) (m : Mem) : Mem :=
  mkMem f (objs m) (src m) (_hazptr_list m) (_retired_list m) (_retired_count m) (_hazptr_count m).
Definition set_objs (f : gmap nat ptr) (m : Mem) : Mem :=
  mkMem (recs m) f (src m) (_hazptr_list m) (_retired_list m) (_retired_count m) (_hazptr_count m).
Definition set_src (f : gmap nat nat) (m : Mem) : Mem :=
  mkMem (recs m) (objs m) f (_hazptr_list m) (_retired_list m) (_retired_count m) (_hazptr_count m).
Definition set_hazptr_list (p : ptr) (m : Mem) : Mem :=
  mkMem (recs m) (objs m) (src m) p (_retired_list m) (_retired_count m) (_hazptr_count m).
Definition set_retired_list (p : ptr) (m : Mem) : Mem :=
  mkMem (recs m) (objs m) (src m) (_hazptr_list m) p (_retired_count m) (_hazptr_count m).
Definition set_retired_count (z : Z) (m : Mem) : Mem :=
  mkMem (recs m) (objs m) (src m) (_hazptr_list m) (_retired_list m) z (_hazptr_count m).
Definition set_hazptr_count (z : Z) (m : Mem) : Mem :=
  mkMem (recs m) (objs m) (src m) (_hazptr_list m) (_retired_list m) (_retired_count m) z.

Definition store_realptr (r : nat) (p : ptr) (m : Mem) : option Mem :=
  rc <-? recs m !! r;
  Some (set_recs (<[r := mkRec (r_next rc) (active rc) p]> (recs m)) m).
Definition store_active (r : nat) (b : bool) (m : Mem) : option Mem :=
  rc <-? recs m !! r;
  Some (set_recs (<[r := mkRec (r_next rc) b (realptr rc)]> (recs m)) m).
Definition store_next (r : nat) (p : ptr) (m : Mem) : option Mem :=
  rc <-? recs m !! r;
  Some (set_recs (<[r := mkRec p (active rc) (realptr rc)]> (recs m)) m).

(** [new HazptrRecord()]: active, protecting nothing. *)
Definition HazptrRecord_new : HazptrRecord := mkRec None true None.

(** * Threads *)

(** Where a thread is; [Aq] steps are [acquire_record], [Tp] [try_protect] on holder [i]
    and source [k] ([again]: within [get_protected]), [Dh] [~HazptrHolder], [Rt]
    [HazptrPrivate::push], [Ap] [append] ([priv]: called by [pushAlltoDomain]), [Tb]
    [tryBulkReclaim] and [Br] [bulkReclaim]. *)
Inductive PC :=
  | Idle
  | AqScan (i r : nat)
  | AqCas (i r : nat)
  | AqNew (i : nat)
  | AqLoad (i r : nat)
  | AqPush (i r : nat)
  | AqCount (i r : nat)
  | TpStore (i k : nat) (p : ptr) (again : bool)
  | TpLoad (i k : nat) (p : ptr) (again : bool)
  | TpClear (i k : nat) (p : ptr) (again : bool)
  | DhRelease (i : nat)
  | RtPush (o : nat)
  | RtThreshold
  | ApLoad (priv : bool) (l : DoubleLinkedList)
  | ApCas (priv : bool) (l : DoubleLinkedList) (expected : ptr)
  | ApAdd (priv : bool) (l : DoubleLinkedList)
  | TbLoad
  | TbCheck (retire_cnt : Z)
  | TbCas (retire_cnt : Z)
  | BrXchg
  | BrHead (p : ptr)
  | BrScan (p h : ptr) (set : gset ptr)
  | BrLoop (p : ptr) (set : gset ptr) (left_list : DoubleLinkedList).

(** The thread's holders (the one under construction included, from the moment its record
    is known) and the [priv_list] of its [HazptrPrivate]. *)
Record Thread := mkThread { pc : PC; holders : gmap nat HazptrHolder; priv_list : DoubleLinkedList }.

(** What a thread does next: start an operation, take its next step, or take it with a
    weak exchange failing although it could succeed. *)
Inductive Act :=
  | NewHolder (i : nat)
  | DropHolder (i : nat)
  | ResetTo (i : nat) (p : ptr)
  | Swap (i j : nat)
  | TryProtect (i k : nat) (p : ptr)
  | GetProtected (i k : nat)
  | Use (i : nat)
  | Exchange (k : nat) (new : ptr)
  | Exit
  | Go
  | GoFail.

Definition at_pc (p : PC) (th : Thread) : Thread := mkThread p (holders th) (priv_list th).
Definition set_holder (i : nat) (h : HazptrHolder) (th : Thread) : Thread :=
  mkThread (pc th) (<[i := h]> (holders th)) (priv_list th).

(** The loop of [acquire_record] reaches [rec]: null ends it. *)
Definition acquire_at (i : nat) (p : ptr) : PC :=
  match p with Some r => AqScan i r | None => AqNew i end.

(** [reached_threshold]. *)
Definition reached_threshold (retire_cnt hazptr_count : Z) : bool :=
  (SCAN_THRESHOLD <=? retire_cnt) && (SCAN_MULT * hazptr_count <=? retire_cnt).

(** [acquire_record] with [USE_THREAD_LOCAL_CACHE] false, its default: the first inactive
    record whose flag the exchange takes, else a new record pushed onto the list. *)
Definition acquire_step (fail : bool) (th : Thread) (m : Mem) : option (Thread * Mem) :=
  match pc th with
  | AqScan i r =>
      rc <-? recs m !! r;
      if active rc then Some (at_pc (acquire_at i (r_next rc)) th, m)
      else Some (at_pc (AqCas i r) th, m)
  | AqCas i r =>
      rc <-? recs m !! r;
      if active rc then Some (at_pc (acquire_at i (r_next rc)) th, m)
      else m <-? store_active r true m;
           Some (at_pc Idle (set_holder i (mkHolder r None) th), m)
  | AqNew i =>
      (* records are never deleted while threads run, so the address is a new one *)
      let r := new_id (recs m) in
      Some (at_pc (AqLoad i r) (set_holder i (mkHolder r None) th),
            set_recs (<[r := HazptrRecord_new]> (recs m)) m)
  | AqLoad i r =>
      m <-? store_next r (_hazptr_list m) m;
      Some (at_pc (AqPush i r) th, m)
  | AqPush i r =>
      rc <-? recs m !! r;
      if (negb fail && bool_decide (_hazptr_list m = r_next rc))%bool
      then Some (at_pc (AqCount i r) th, set_hazptr_list (Some r) m)
      else m <-? store_next r (_hazptr_list m) m;
           Some (at_pc (AqPush i r) th, m)
  | AqCount _ _ => Some (at_pc Idle th, set_hazptr_count (i32 (_hazptr_count m + 1)) m)
  | _ => Some (th, m)
  end.

(** [try_protect], and [get_protected]'s loop around it. *)
Definition protect_step (th : Thread) (m : Mem) : option (Thread * Mem) :=
  match pc th with
  | TpStore i k p again =>
      h <-? holders th !! i;
      m <-? store_realptr (rec h) p m;
      Some (at_pc (TpLoad i k p again) (set_holder i (mkHolder (rec h) None) th), m)
  | TpLoad i k p again =>
      h <-? holders th !! i;
      if decide (p = src m !! k)
      then Some (at_pc Idle (set_holder i (mkHolder (rec h) p) th), m)
      else Some (at_pc (TpClear i k (src m !! k) again) th, m)
  | TpClear i k p again =>
      h <-? holders th !! i;
      m <-? store_realptr (rec h) None m;
      Some (at_pc (if again then TpStore i k p again else Idle) (set_holder i (mkHolder (rec h) None) th), m)
  | _ => Some (th, m)
  end.

(** The second half of [~HazptrHolder]: [release_record]. *)
Definition release_step (th : Thread) (m : Mem) : option (Thread * Mem) :=
  match pc th with
  | DhRelease i =>
      h <-? holders th !! i;
      m <-? store_active (rec h) false m;
      Some (mkThread Idle (delete i (holders th)) (priv_list th), m)
  | _ => Some (th, m)
  end.

(** [HazptrPrivate::push]. *)
Definition retire_step (th : Thread) (m : Mem) : option (Thread * Mem) :=
  match pc th with
  | RtPush o =>
      r <-? dll_push o (priv_list th) (objs m);
      Some (mkThread RtThreshold (holders th) (fst r), set_objs (snd r) m)
  | RtThreshold =>
      if reached_threshold (count (priv_list th)) (_hazptr_count m)
      then Some (at_pc (ApLoad true (priv_list th)) th, m)
      else Some (at_pc Idle th, m)
  | _ => Some (th, m)
  end.

(** What follows [append]: [pushAlltoDomain] clears its list and tries to reclaim,
    [bulkReclaim] returns. *)
Definition after_append (priv : bool) (th : Thread) (m : Mem) : option (Thread * Mem) :=
  if priv then Some (mkThread TbLoad (holders th) (dll_clear (priv_list th)), m)
  else Some (at_pc Idle th, m).

(** [append]. *)
Definition append_step (fail : bool) (th : Thread) (m : Mem) : option (Thread * Mem) :=
  match pc th with
  | ApLoad priv l =>
      t <-? tail l;
      h <-? set_next t (_retired_list m) (objs m);
      Some (at_pc (ApCas priv l (_retired_list m)) th, set_objs h m)
  | ApCas priv l expected =>
      if (negb fail && bool_decide (_retired_list m = expected))%bool
      then Some (at_pc (ApAdd priv l) th, set_retired_list (head l) m)
      else t <-? tail l;
           h <-? set_next t (_retired_list m) (objs m);
           Some (at_pc (ApCas priv l (_retired_list m)) th, set_objs h m)
  | ApAdd priv l =>
      after_append priv th (set_retired_count (i32 (_retired_count m + count l)) m)
  | _ => Some (th, m)
  end.

(** [tryBulkReclaim]. *)
Definition try_reclaim_step (fail : bool) (th : Thread) (m : Mem) : option (Thread * Mem) :=
  match pc th with
  | TbLoad => Some (at_pc (TbCheck (_retired_count m)) th, m)
  | TbCheck retire_cnt =>
      if ((retire_cnt <? SCAN_THRESHOLD) || (retire_cnt <? SCAN_MULT * _hazptr_count m))%bool
      then Some (at_pc Idle th, m)
      else Some (at_pc (TbCas retire_cnt) th, m)
  | TbCas retire_cnt =>
      if (negb fail && (_retired_count m =? retire_cnt))%bool
      then Some (at_pc BrXchg th, set_retired_count 0 m)
      else Some (at_pc (TbCheck (_retired_count m)) th, m)
  | _ => Some (th, m)
  end.

(** [bulkReclaim]: the retired list is taken before the records are read. *)
Definition reclaim_step (th : Thread) (m : Mem) : option (Thread * Mem) :=
  match pc th with
  | BrXchg => Some (at_pc (BrHead (_retired_list m)) th, set_retired_list None m)
  | BrHead p => Some (at_pc (BrScan p (_hazptr_list m) ∅) th, m)
  | BrScan p (Some r) set =>
      rc <-? recs m !! r;
      Some (at_pc (BrScan p (r_next rc) ({[realptr rc]} ∪ set)) th, m)
  | BrScan p None set => Some (at_pc (BrLoop p set dll_empty) th, m)
  | BrLoop (Some o) set left_list =>
      next <-? objs m !! o;
      if decide (Some o ∈ set)
      then r <-? dll_push o left_list (objs m);
           Some (at_pc (BrLoop next set (fst r)) th, set_objs (snd r) m)
      else Some (at_pc (BrLoop next set left_list) th, set_objs (delete o (objs m)) m)
  | BrLoop None set left_list =>
      if 0 <? count left_list then Some (at_pc (ApLoad false left_list) th, m)
      else Some (at_pc Idle th, m)
  | _ => Some (th, m)
  end.

(** One step of the operation under way. *)
Definition go_step (fail : bool) (th : Thread) (m : Mem) : option (Thread * Mem) :=
  match pc th with
  | Idle => Some (th, m)
  | AqScan _ _ | AqCas _ _ | AqNew _ | AqLoad _ _ | AqPush _ _ | AqCount _ _ => acquire_step fail th m
  | TpStore _ _ _ _ | TpLoad _ _ _ _ | TpClear _ _ _ _ => protect_step th m
  | DhRelease _ => release_step th m
  | RtPush _ | RtThreshold => retire_step th m
  | ApLoad _ _ | ApCas _ _ _ | ApAdd _ _ => append_step fail th m
  | TbLoad | TbCheck _ | TbCas _ => try_reclaim_step fail th m
  | BrXchg | BrHead _ | BrScan _ _ _ | BrLoop _ _ _ => reclaim_step th m
  end.

(** [~HazptrPrivate], when a thread ends. *)
Definition private_exit (th : Thread) (m : Mem) : option (Thread * Mem) :=
  if 0 <? count (priv_list th) then Some (at_pc (ApLoad true (priv_list th)) th, m)
  else Some (th, m).

(** The first step of an operation; one that does not apply (a holder that does not exist,
    an address in use) changes nothing. *)
Definition start_step (a : Act) (th : Thread) (m : Mem) : option (Thread * Mem) :=
  match a with
  | NewHolder i =>
      match holders th !! i with
      | None => Some (at_pc (acquire_at i (_hazptr_list m)) th, m)
      | Some _ => Some (th, m)
      end
  | DropHolder i =>
      match holders th !! i with
      | Some h => m <-? store_realptr (rec h) None m;
                  Some (at_pc (DhRelease i) (set_holder i (mkHolder (rec h) None) th), m)
      | None => Some (th, m)
      end
  | ResetTo i p =>
      match holders th !! i with
      | Some h => m <-? store_realptr (rec h) p m;
                  Some (set_holder i (mkHolder (rec h) None) th, m)
      | None => Some (th, m)
      end
  | Swap i j =>
      match holders th !! i, holders th !! j with
      | Some h1, Some h2 => Some (set_holder i h2 (set_holder j h1 th), m)
      | _, _ => Some (th, m)
      end
  | TryProtect i k p =>
      match holders th !! i with
      | Some _ => Some (at_pc (TpStore i k p false) th, m)
      | None => Some (th, m)
      end
  | GetProtected i k =>
      match holders th !! i with
      | Some _ => Some (at_pc (TpStore i k (src m !! k) true) th, m)
      | None => Some (th, m)
      end
  | Use i =>
      match holders th !! i with
      | Some (mkHolder _ (Some o)) => _ <-? objs m !! o; Some (th, m)
      | _ => Some (th, m)
      end
  | Exchange k new =>
      let th' := at_pc (match src m !! k with Some o => RtPush o | None => Idle end) th in
      match new with
      | None => Some (th', set_src (delete k (src m)) m)
      | Some o =>
          match objs m !! o with
          | None => Some (th', set_src (<[k := o]> (src m)) (set_objs (<[o := None]> (objs m)) m))
          | Some _ => Some (th, m)
          end
      end
  | Exit => private_exit th m
  | Go | GoFail => Some (th, m)
  end.

Definition tstep (a : Act) (th : Thread) (m : Mem) : option (Thread * Mem) :=
  match pc th, a with
  | Idle, _ => start_step a th m
  | _, Go => go_step false th m
  | _, GoFail => go_step true th m
  | _, _ => Some (th, m)
  end.

(** * The system *)

Record State := mkState { mem : Mem; threads : list Thread }.

Definition step (t : nat) (a : Act) (s : State) : option State :=
  match threads s !! t with
  | Some th => r <-? tstep a th (mem s); Some (mkState (snd r) (<[t := fst r]> (threads s)))
  | None => Some s
  end.

Fixpoint run (sched : list (nat * Act)) (s : State) : option State :=
  match sched with
  | [] => Some s
  | (t, a) :: sched => s <-? step t a s; run sched s
  end.

Definition mem0 : Mem := mkMem ∅ ∅ ∅ None None 0 0.
Definition thread0 : Thread := mkThread Idle ∅ dll_empty.
Definition state0 (n : nat) : State := mkState mem0 (replicate n thread0).

(** * Chains of records and of objects *)

Fixpoint rchain (f : gmap nat HazptrRecord) (p : ptr) (l : list nat) : Prop :=
  match l with
  | [] => p = None
  | r :: l => p = Some r /\ exists rc, f !! r = Some rc /\ rchain f (r_next rc) l
  end.

(** From [p] the objects [l], then the pointer [q]. *)
Fixpoint oseg (f : gmap nat ptr) (p : ptr) (l : list nat) (q : ptr) : Prop :=
  match l with
  | [] => p = q
  | o :: l => p = Some o /\ exists nx, f !! o = Some nx /\ oseg f nx l q
  end.

Definition dll (f : gmap nat ptr) (dl : DoubleLinkedList) (l : list nat) (q : ptr) : Prop :=
  oseg f (head dl) l q /\ tail dl = last l /\ count dl = Z.of_nat (length l).

Lemma rchain_frame f f' p l :
  (forall r rc, r ∈ l -> f !! r = Some rc -> exists rc', f' !! r = Some rc' /\ r_next rc' = r_next rc) ->
  rchain f p l -> rchain f' p l.
Proof.
  revert p. induction l as [|r l IH]; simpl; [done|]. intros p Hf (-> & rc & Hr & Hl).
  split; [done|]. destruct (Hf r rc ltac:(by left) Hr) as (rc' & -> & Hn). exists rc'. split; [done|].
  rewrite Hn. apply IH; [|done]. intros; apply Hf; [by right|done].
Qed.

Lemma rchain_det f p l l' : rchain f p l -> rchain f p l' -> l = l'.
Proof.
  revert p l'. induction l as [|r l IH]; intros p [|r' l']; simpl; intros H1 H2; naive_solver.
Qed.

Lemma rchain_alloc f p l r : rchain f p l -> r ∈ l -> is_Some (f !! r).
Proof.
  revert p. induction l as [|x l IH]; simpl; [set_solver|].
  intros p (-> & rc & Hr & Hl) [->|Hin]%elem_of_cons; [by eexists|by eapply IH].
Qed.

Lemma oseg_frame f f' p l q :
  (forall o, o ∈ l -> f' !! o = f !! o) -> oseg f p l q -> oseg f' p l q.
Proof.
  revert p. induction l as [|o l IH]; simpl; [done|]. intros p Hf (-> & nx & Ho & Hl).
  split; [done|]. exists nx. rewrite Hf by (by left). split; [done|].
  apply IH; [|done]. intros; apply Hf; by right.
Qed.

Lemma oseg_det f p l l' : oseg f p l None -> oseg f p l' None -> l = l'.
Proof.
  revert p l'. induction l as [|o l IH]; intros p [|o' l']; simpl; intros H1 H2; naive_solver.
Qed.

Lemma oseg_app f p l1 l2 q : oseg f p (l1 ++ l2) q <-> exists x, oseg f p l1 x /\ oseg f x l2 q.
Proof.
  revert p. induction l1 as [|o l1 IH]; simpl; intros p; [naive_solver|].
  split.
  - intros (-> & nx & Ho & (x & ? & ?)%IH). eauto 10.
  - intros (x & (-> & nx & ? & ?) & ?). split; [done|]. exists nx. split; [done|]. apply IH. eauto.
Qed.

Lemma oseg_alloc f p l q o : oseg f p l q -> o ∈ l -> is_Some (f !! o).
Proof.
  revert p. induction l as [|x l IH]; simpl; [set_solver|].
  intros p (-> & nx & Ho & Hl) [->|Hin]%elem_of_cons; [by eexists|by eapply IH].
Qed.

Lemma dll_frame f f' dl l q :
  (forall o, o ∈ l -> f' !! o = f !! o) -> dll f dl l q -> dll f' dl l q.
Proof. intros Hf (? & ? & ?). split_and!; [by eapply oseg_frame|done..]. Qed.

(** Redirecting the last object of a list redirects the list. *)
Lemma dll_set_tail f dl l q q' :
  dll f dl l q -> NoDup l -> l <> [] ->
  exists t f', tail dl = Some t /\ t ∈ l /\ set_next t q' f = Some f' /\ dll f' dl l q' /\
    f' = <[t := q']> f.
Proof.
  intros (Hseg & Ht & Hc) Hnd Hne. destruct l as [|t l' _] using rev_ind; [done|].
  rewrite last_snoc in Ht. exists t.
  apply oseg_app in Hseg as (x & Hs1 & Hs2). simpl in Hs2. destruct Hs2 as (-> & nx & Hn & ->).
  unfold set_next. rewrite Hn. eexists. apply NoDup_app in Hnd as (? & Hd & _).
  split_and!; [done|set_solver|done| |done].
  split_and!; [|by rewrite last_snoc|done]. apply oseg_app. exists (Some t). split.
  - eapply oseg_frame; [|done]. intros o Ho. apply lookup_insert_ne. set_solver.
  - simpl. split; [done|]. exists q'. by rewrite lookup_insert_eq.
Qed.

(** Appending an allocated object to a list. *)
Lemma dll_push_ok f dl l o :
  dll f dl l None -> NoDup l -> o ∉ l -> is_Some (f !! o) ->
  exists dl' f', dll_push o dl f = Some (dl', f') /\ dll f' dl' (l ++ [o]) None /\
    (forall x, x <> o -> x ∉ l -> f' !! x = f !! x) /\ (forall x, is_Some (f' !! x) <-> is_Some (f !! x)).
Proof.
  intros Hdl Hnd Hno [nx Ho]. unfold dll_push, set_next at 1. rewrite Ho.
  assert (Hdl1 : dll (<[o := None]> f) dl l None).
  { eapply dll_frame; [|done]. intros x Hx. apply lookup_insert_ne. set_solver. }
  destruct l as [|y l].
  - destruct Hdl1 as (Hs & Ht & Hc). simpl in *. rewrite Ht. eexists _, _. split; [done|].
    split_and!; [|intros; by apply lookup_insert_ne|].
    + split_and!; simpl; [|done|lia]. split; [done|]. exists None. by rewrite lookup_insert_eq.
    + intros x. destruct (decide (x = o)) as [->|]; simplify_map_eq; naive_solver.
  - destruct (dll_set_tail _ _ _ _ (Some o) Hdl1 Hnd ltac:(done)) as (t & f' & -> & Hin & -> & Hdl2 & ->).
    eexists _, _. split; [done|].
    assert (t <> o) by set_solver.
    split_and!.
    + destruct Hdl2 as (Hs & Ht & Hc). split; [|split]; cbn [head tail count].
      * apply (oseg_app _ _ (y :: l) [o]). eexists; split; [done|]. simpl. split; [done|]. exists None. by simplify_map_eq.
      * by rewrite last_snoc.
      * rewrite length_app. simpl length in *. lia.
    + intros x ? ?. rewrite !lookup_insert_ne; set_solver.
    + intros x. destruct (decide (x = t)) as [->|]; [|destruct (decide (x = o)) as [->|]]; simplify_map_eq; [|naive_solver|done].
      destruct Hdl1 as (Hs & _). apply (oseg_alloc _ _ _ _ _ Hs) in Hin. simplify_map_eq. naive_solver.
Qed.

Lemma dll_empty_ok f : dll f dll_empty [] None.
Proof. done. Qed.

Lemma in_option_list (x : ptr) o : o ∈ option_list x <-> x = Some o.
Proof. destruct x; simpl; rewrite ?list_elem_of_singleton, ?elem_of_nil; naive_solver. Qed.

(** * The invariant *)

(** Where an object is: linked by the client, in a thread's [priv_list], in the hands of a
    thread (being retired, or taken by its reclamation) or on the manager's list. *)
Inductive Place := Nowhere | InSrc (k : nat) | Priv (t : nat) | Busy (t : nat) | Retired.

Definition move {A} (l : list nat) (pl : A) (own : nat -> A) (o : nat) : A :=
  if decide (o ∈ l) then pl else own o.

Lemma move_in {A} l (pl : A) own o : o ∈ l -> move l pl own o = pl.
Proof. intros. unfold move. by rewrite decide_True. Qed.

Lemma move_out {A} l (pl : A) own o : o ∉ l -> move l pl own o = own o.
Proof. intros. unfold move. by rewrite decide_False. Qed.

Record ginv (m : Mem) (own : nat -> Place) (rown : nat -> option nat) (L R : list nat) : Prop := {
  g_L : rchain (recs m) (_hazptr_list m) L;
  g_Lnd : NoDup L;
  g_R : oseg (objs m) (_retired_list m) R None;
  g_Rnd : NoDup R;
  g_Rown : forall o, o ∈ R -> own o = Retired;
  g_src : forall k o, src m !! k = Some o -> own o = InSrc k;
  g_alive : forall o, own o <> Nowhere -> is_Some (objs m !! o);
  g_rown : forall r t, rown r = Some t -> exists rc, recs m !! r = Some rc /\ active rc = true
}.

(** The objects of a thread's [priv_list] that are still its own. *)
Definition priv_objs (f : gmap nat ptr) (p : PC) (dl : DoubleLinkedList) (l : list nat) : Prop :=
  match p with
  | ApLoad true dl' => dl' = dl /\ l <> [] /\ dll f dl l None
  | ApCas true dl' e => dl' = dl /\ l <> [] /\ dll f dl l e
  | ApAdd true _ => l = []
  | _ => dll f dl l None
  end.

Definition busy_objs (f : gmap nat ptr) (p : PC) (l : list nat) : Prop :=
  match p with
  | RtPush o => l = [o]
  | ApLoad false dl => l <> [] /\ dll f dl l None
  | ApCas false dl e => l <> [] /\ dll f dl l e
  | BrHead p | BrScan p _ _ => oseg f p l None
  | BrLoop p set left_list =>
      exists l1 l2, l = l1 ++ l2 /\ oseg f p l1 None /\ dll f left_list l2 None /\
        forall o, o ∈ l2 -> Some o ∈ set
  | _ => l = []
  end.

(** The record of a thread's [acquire_record] that is not on the list yet. *)
Definition pushing (p : PC) : ptr :=
  match p with AqLoad _ r | AqPush _ r => Some r | _ => None end.

Definition pc_ok (m : Mem) (L : list nat) (hs : gmap nat HazptrHolder) (p : PC) : Prop :=
  match p with
  | AqScan i r | AqCas i r => r ∈ L /\ hs !! i = None
  | AqNew i => hs !! i = None
  | AqLoad i r | AqPush i r => (r ∉ L) /\ hs !! i = Some (mkHolder r None)
  | TpStore i _ _ _ | TpClear i _ _ _ | DhRelease i => is_Some (hs !! i)
  | TpLoad i _ p _ => exists r rc, hs !! i = Some (mkHolder r None) /\ recs m !! r = Some rc /\ realptr rc = p
  | BrScan _ h set =>
      exists l, rchain (recs m) h l /\ l `suffix_of` L /\ (size set + length l <= length L)%nat
  | BrLoop _ set _ => (size set <= length L)%nat
  | ApLoad false dl | ApCas false dl _ | ApAdd false dl => count dl <= Z.of_nat (length L)
  | _ => True
  end.

Record tinv (m : Mem) (own : nat -> Place) (rown : nat -> option nat) (L : list nat) (t : nat) (th : Thread) : Prop := {
  t_priv : exists l, priv_objs (objs m) (pc th) (priv_list th) l /\ NoDup l /\ forall o, o ∈ l -> own o = Priv t;
  t_busy : exists l, busy_objs (objs m) (pc th) l /\ NoDup l /\ forall o, o ∈ l -> own o = Busy t;
  t_hold : forall i h, holders th !! i = Some h ->
    rown (rec h) = Some t /\ (rec h ∈ L \/ pushing (pc th) = Some (rec h)) /\ (prot h <> None -> rec h ∈ L) /\
    (forall o, prot h = Some o -> exists rc, recs m !! rec h = Some rc /\ realptr rc = Some o);
  t_inj : forall i j h h', holders th !! i = Some h -> holders th !! j = Some h' -> rec h = rec h' -> i = j;
  t_pc : pc_ok m L (holders th) (pc th)
}.

(** A running reclamation that holds [o] has read record [r], and knows [o], or will read
    it. *)
Definition scan_ok (m : Mem) (own : nat -> Place) (L : list nat) (p : PC) (t r o : nat) : Prop :=
  own o = Busy t ->
  match p with
  | BrScan _ h set => Some o ∈ set \/ exists l, rchain (recs m) h l /\ l `suffix_of` L /\ r ∈ l
  | BrLoop _ set _ => Some o ∈ set
  | _ => True
  end.

Definition protects (th : Thread) (r o : nat) : Prop :=
  exists i, holders th !! i = Some (mkHolder r (Some o)).

Record Inv (s : State) (own : nat -> Place) (rown : nat -> option nat) (L R : list nat) : Prop := {
  i_g : ginv (mem s) own rown L R;
  i_t : forall t th, threads s !! t = Some th -> tinv (mem s) own rown L t th;
  i_p : forall t th r o, threads s !! t = Some th -> protects th r o ->
    is_Some (objs (mem s) !! o) /\
    forall t' th', threads s !! t' = Some th' -> scan_ok (mem s) own L (pc th') t' r o
}.

Definition inv (s : State) : Prop := exists own rown L R, Inv s own rown L R.

(** * What a step of thread [t] leaves to the others *)

Record frame (t : nat) (m : Mem) (own : nat -> Place) (rown : nat -> option nat) (L : list nat)
    (m' : Mem) (own' : nat -> Place) (rown' : nat -> option nat) (L' : list nat) : Prop := {
  f_L : L' = L \/ exists r, L' = r :: L /\ rown r = Some t;
  f_recs : forall r rc, r ∈ L -> recs m !! r = Some rc ->
    exists rc', recs m' !! r = Some rc' /\ r_next rc' = r_next rc;
  f_rown : forall r t', t' <> t -> rown r = Some t' -> rown' r = Some t' /\ recs m' !! r = recs m !! r;
  f_own : forall o t', t' <> t -> own o = Priv t' \/ own o = Busy t' ->
    own' o = own o /\ objs m' !! o = objs m !! o;
  f_back : forall o t', t' <> t -> own' o = Busy t' -> own o = Busy t'
}.

Lemma frame_suffix t m own rown L m' own' rown' L' :
  frame t m own rown L m' own' rown' L' -> L `suffix_of` L'.
Proof. intros F. destruct (f_L _ _ _ _ _ _ _ _ _ F) as [->|(r & -> & _)]; [done|by apply suffix_cons_r]. Qed.

Lemma frame_rchain t m own rown L m' own' rown' L' h l :
  frame t m own rown L m' own' rown' L' -> l `suffix_of` L ->
  rchain (recs m) h l -> rchain (recs m') h l /\ l `suffix_of` L'.
Proof.
  intros F Hl Hc. split; [|etrans; [done|by eapply frame_suffix]].
  eapply rchain_frame; [|done]. intros r rc Hr. apply (f_recs _ _ _ _ _ _ _ _ _ F).
  destruct Hl as [k ->]. set_solver.
Qed.

Lemma priv_objs_frame f f' p dl l :
  (forall o, o ∈ l -> f' !! o = f !! o) -> priv_objs f p dl l -> priv_objs f' p dl l.
Proof. intros Hf. destruct p as []; simpl; try destruct priv; intros; destruct_and?; split_and?; eauto using dll_frame. Qed.

Lemma busy_objs_frame f f' p l :
  (forall o, o ∈ l -> f' !! o = f !! o) -> busy_objs f p l -> busy_objs f' p l.
Proof.
  intros Hf. destruct p as []; simpl; try destruct priv; intros; destruct_and?; split_and?; eauto using dll_frame, oseg_frame.
  destruct H as (l1 & l2 & -> & ? & ? & ?). exists l1, l2. split_and!; [done| | |done].
  - eapply oseg_frame; [|done]. intros; apply Hf. set_solver.
  - eapply dll_frame; [|done]. intros; apply Hf. set_solver.
Qed.

Lemma tinv_frame t t' m own rown L m' own' rown' L' th :
  frame t m own rown L m' own' rown' L' -> t' <> t ->
  tinv m own rown L t' th -> tinv m' own' rown' L' t' th.
Proof.
  intros F Hne [(lp & Hp & ? & Hpo) (lb & Hb & ? & Hbo) Hh Hinj Hpc].
  pose proof (f_own _ _ _ _ _ _ _ _ _ F) as Fo. pose proof (f_rown _ _ _ _ _ _ _ _ _ F) as Fr.
  pose proof (frame_suffix _ _ _ _ _ _ _ _ _ F) as Hsuf. pose proof (suffix_length _ _ Hsuf) as Hlen.
  assert (HinL : forall r, r ∈ L -> r ∈ L') by (destruct Hsuf as [k ->]; set_solver).
  split.
  - exists lp. split_and!; [|done|].
    + eapply priv_objs_frame; [|done]. intros o Ho. by apply (Fo o t' Hne); left; apply Hpo.
    + intros o Ho. destruct (Fo o t' Hne) as [-> _]; [by left; apply Hpo|by apply Hpo].
  - exists lb. split_and!; [|done|].
    + eapply busy_objs_frame; [|done]. intros o Ho. by apply (Fo o t' Hne); right; apply Hbo.
    + intros o Ho. destruct (Fo o t' Hne) as [-> _]; [by right; apply Hbo|by apply Hbo].
  - intros i h Hi. destruct (Hh i h Hi) as (Hr & HL & HpL & Hpr). destruct (Fr _ _ Hne Hr) as [-> Heq].
    rewrite Heq. split_and!; [done| |intros; by apply HinL, HpL|done].
    destruct HL; [left; by apply HinL|by right].
  - done.
  - assert (Hnew : forall i r, pc th = AqLoad i r \/ pc th = AqPush i r ->
      (r ∉ L) /\ holders th !! i = Some (mkHolder r None) -> (r ∉ L') /\ holders th !! i = Some (mkHolder r None)).
    { intros i r _ [HnL Hi]. split; [|done]. destruct (f_L _ _ _ _ _ _ _ _ _ F) as [->|(r0 & -> & Hr0)]; [done|].
      destruct (Hh _ _ Hi) as (Hr & _). simpl in Hr. apply not_elem_of_cons. split; [congruence|done]. }
    destruct (pc th) eqn:E; simpl in *; try destruct priv; try done;
      try (destruct Hpc; split; [by apply HinL|done]); try lia.
    + by apply (Hnew i r); [left|].
    + by apply (Hnew i r); [right|].
    + destruct Hpc as (r & rc & Hi & Hrc & Hp'). exists r, rc. split_and!; [done| |done].
      destruct (Hh _ _ Hi) as (Hr & _). by rewrite (proj2 (Fr r _ Hne Hr)).
    + destruct Hpc as (l & Hc & Hs & Hl). exists l. destruct (frame_rchain _ _ _ _ _ _ _ _ _ _ _ F Hs Hc). split_and!; [done..|lia].
Qed.

Lemma scan_frame t t' m own rown L m' own' rown' L' p r o :
  frame t m own rown L m' own' rown' L' -> t' <> t ->
  scan_ok m own L p t' r o -> scan_ok m' own' L' p t' r o.
Proof.
  intros F Hne Hs Ho. specialize (Hs (f_back _ _ _ _ _ _ _ _ _ F o t' Hne Ho)).
  destruct p; try done. destruct Hs as [?|(l & Hc & Hl & ?)]; [by left|right].
  exists l. destruct (frame_rchain _ _ _ _ _ _ _ _ _ _ _ F Hl Hc). done.
Qed.

Lemma hz_inv_step s t th own rown L R m' th' own' rown' L' R' :
  Inv s own rown L R -> threads s !! t = Some th ->
  frame t (mem s) own rown L m' own' rown' L' ->
  ginv m' own' rown' L' R' ->
  tinv m' own' rown' L' t th' ->
  (forall r o, protects th' r o -> protects th r o \/
     r ∈ L /\ (exists rc, recs (mem s) !! r = Some rc /\ realptr rc = Some o) /\ exists k, own o = InSrc k) ->
  (forall r rc o, r ∈ L -> recs (mem s) !! r = Some rc -> realptr rc = Some o -> is_Some (objs (mem s) !! o) ->
     scan_ok (mem s) own L (pc th) t r o ->
     is_Some (objs m' !! o) /\ scan_ok m' own' L' (pc th') t r o) ->
  Inv (mkState m' (<[t := th']> (threads s))) own' rown' L' R'.
Proof.
  intros [Hg Ht Hp] Hth F Hg' Ht' H1 H2.
  assert (Hlt : (t < length (threads s))%nat) by (by eapply lookup_lt_Some).
  assert (Hget : forall t1 th1, <[t := th']> (threads s) !! t1 = Some th1 ->
    t1 = t /\ th1 = th' \/ t1 <> t /\ threads s !! t1 = Some th1).
  { intros t1 th1. destruct (decide (t1 = t)) as [->|Hne].
    - rewrite list_lookup_insert_eq by done. naive_solver.
    - rewrite list_lookup_insert_ne by done. naive_solver. }
  split; simpl; [done| |].
  - intros t1 th1 [[-> ->]|[Hne ?]]%Hget; [done|]. eapply tinv_frame; eauto.
  - intros t1 th1 r o Hl Hpr.
    assert (r ∈ L /\ (exists rc, recs (mem s) !! r = Some rc /\ realptr rc = Some o) /\
      is_Some (objs (mem s) !! o) /\
      forall t' th0, threads s !! t' = Some th0 -> scan_ok (mem s) own L (pc th0) t' r o) as (HrL & (rc & Hrc & Hreal) & Hal & Hsc).
    { assert (Hold : forall t1 th1, threads s !! t1 = Some th1 -> protects th1 r o ->
        r ∈ L /\ (exists rc, recs (mem s) !! r = Some rc /\ realptr rc = Some o) /\
        is_Some (objs (mem s) !! o) /\
        forall t' th0, threads s !! t' = Some th0 -> scan_ok (mem s) own L (pc th0) t' r o).
      { intros t2 th2 Hl2 Hpr2. destruct (Hp _ _ _ _ Hl2 Hpr2) as [? ?]. destruct Hpr2 as [i Hi].
        destruct (t_hold _ _ _ _ _ _ (Ht _ _ Hl2) _ _ Hi) as (_ & _ & HL & Hr).
        split_and!; [by apply HL|by apply Hr|done..]. }
      apply Hget in Hl as [[-> ->]|[_ Hl]]; [|by eapply Hold].
      destruct (H1 r o Hpr) as [Hpr0|(? & ? & k & Hk)]; [by eapply Hold|].
      split_and!; [done|done|apply (g_alive _ _ _ _ _ Hg); by rewrite Hk|].
      intros t' th0 _ Hb. congruence. }
    destruct (H2 r rc o HrL Hrc Hreal Hal (Hsc _ _ Hth)) as [Hal' Hsc'].
    split; [done|]. intros t' th0 [[-> ->]|[Hne Hl']]%Hget; [done|].
    eapply scan_frame; eauto.
Qed.

(** The outcome of a step of thread [t]: it is defined and keeps the invariant. *)
Definition step_ok (s : State) (t : nat) (res : option (Thread * Mem)) : Prop :=
  exists th' m', res = Some (th', m') /\ inv (mkState m' (<[t := th']> (threads s))).

Lemma frame_refl t m own rown L : frame t m own rown L m own rown L.
Proof. split; eauto. Qed.

Lemma frame_rec t m own rown rown' L r rc' :
  rown r = Some t \/ rown r = None -> (forall x, x <> r -> rown' x = rown x) ->
  (r ∈ L -> exists rc, recs m !! r = Some rc /\ r_next rc' = r_next rc) ->
  frame t m own rown L (set_recs (<[r := rc']> (recs m)) m) own rown' L.
Proof.
  intros Hr Hrown Hn. split; simpl; eauto.
  - intros x rc Hx Hrc. destruct (decide (x = r)) as [->|].
    + destruct (Hn Hx) as (rc0 & ? & ?). simplify_eq. exists rc'. by rewrite lookup_insert_eq.
    + exists rc. by rewrite lookup_insert_ne.
  - intros x t' Hne Hx. assert (x <> r) by naive_solver. rewrite lookup_insert_ne by done. by rewrite Hrown.
Qed.

Lemma ginv_rec m own rown rown' L R r rc' :
  ginv m own rown L R -> (forall x, x <> r -> rown' x = rown x) ->
  (r ∈ L -> exists rc, recs m !! r = Some rc /\ r_next rc' = r_next rc) ->
  (rown' r <> None -> active rc' = true) ->
  ginv (set_recs (<[r := rc']> (recs m)) m) own rown' L R.
Proof.
  intros [] Hrown Hn Ha. split; simpl; try done.
  - eapply rchain_frame; [|done]. intros x rc Hx Hrc. destruct (decide (x = r)) as [->|].
    + destruct (Hn Hx) as (rc0 & ? & ?). simplify_eq. exists rc'. by rewrite lookup_insert_eq.
    + exists rc. by rewrite lookup_insert_ne.
  - intros x t Hx. destruct (decide (x = r)) as [->|].
    + exists rc'. rewrite lookup_insert_eq. split; [done|]. apply Ha. congruence.
    + rewrite lookup_insert_ne by done. apply (g_rown0 x t). by rewrite <-Hrown.
Qed.

(** Writing [realptr] of a record of the thread. *)
Lemma store_realptr_ok m own rown L R t r p :
  ginv m own rown L R -> rown r = Some t ->
  exists m', store_realptr r p m = Some m' /\ ginv m' own rown L R /\ frame t m own rown L m' own rown L /\
    objs m' = objs m /\ src m' = src m /\
    (exists rc, recs m' !! r = Some rc /\ realptr rc = p) /\
    (forall x, x <> r -> recs m' !! x = recs m !! x).
Proof.
  intros Hg Hr. destruct (g_rown _ _ _ _ _ Hg _ _ Hr) as (rc & Hrc & Ha). unfold store_realptr. rewrite Hrc.
  eexists. split; [done|]. split_and!; simpl.
  - apply ginv_rec with rown; [done|done|intros; by exists rc|done].
  - apply frame_rec; [by left|done|intros; by exists rc].
  - done.
  - done.
  - exists (mkRec (r_next rc) (active rc) p). by rewrite lookup_insert_eq.
  - intros. by rewrite lookup_insert_ne.
Qed.

(** The parts of [tinv] about lists do not depend on holders; the part about holders does
    not depend on lists. *)
Lemma tinv_holders m own rown L t th p hs :
  tinv m own rown L t th ->
  (forall l, priv_objs (objs m) (pc th) (priv_list th) l -> priv_objs (objs m) p (priv_list th) l) ->
  (forall l, busy_objs (objs m) (pc th) l -> busy_objs (objs m) p l) ->
  (forall i h, hs !! i = Some h ->
    rown (rec h) = Some t /\ (rec h ∈ L \/ pushing p = Some (rec h)) /\ (prot h <> None -> rec h ∈ L) /\
    (forall o, prot h = Some o -> exists rc, recs m !! rec h = Some rc /\ realptr rc = Some o)) ->
  (forall i j h h', hs !! i = Some h -> hs !! j = Some h' -> rec h = rec h' -> i = j) ->
  pc_ok m L hs p ->
  tinv m own rown L t (mkThread p hs (priv_list th)).
Proof.
  intros [(lp & ? & ?) (lb & ? & ?) ? ? ?] Hp Hb ? ? ?. split; simpl; eauto.
Qed.

(** The memories differ in the counters only. *)
Definition same_heap (m m' : Mem) : Prop :=
  recs m' = recs m /\ objs m' = objs m /\ src m' = src m /\
  _hazptr_list m' = _hazptr_list m /\ _retired_list m' = _retired_list m.

(** A step that changes the thread's local state and the counters only. *)
Lemma silent_ok s own rown L R t th m' th' :
  Inv s own rown L R -> threads s !! t = Some th ->
  same_heap (mem s) m' -> holders th' = holders th ->
  (forall l, priv_objs (objs (mem s)) (pc th) (priv_list th) l -> priv_objs (objs (mem s)) (pc th') (priv_list th') l) ->
  (forall l, busy_objs (objs (mem s)) (pc th) l -> busy_objs (objs (mem s)) (pc th') l) ->
  pushing (pc th) = None ->
  pc_ok (mem s) L (holders th) (pc th') ->
  (forall r rc o, r ∈ L -> recs (mem s) !! r = Some rc -> realptr rc = Some o ->
     scan_ok (mem s) own L (pc th) t r o -> scan_ok (mem s) own L (pc th') t r o) ->
  step_ok s t (Some (th', m')).
Proof.
  intros HI Hth (Er & Eo & Es & Eh & El) Hhs Hp Hb Hpush Hpc Hsc.
  eexists _, _. split; [done|]. exists own, rown, L, R.
  pose proof (i_t _ _ _ _ _ HI _ _ Hth) as [(lp & ? & ?) (lb & ? & ?) Hh ? ?].
  destruct (i_g _ _ _ _ _ HI) as [].
  eapply hz_inv_step; [done|done|..].
  - split; rewrite ?Er, ?Eo; eauto.
  - split; rewrite ?Er, ?Eo, ?Es, ?Eh, ?El; eauto.
  - split; rewrite ?Eo, ?Er, ?Hhs; eauto.
    + intros i h Hi. destruct (Hh _ _ Hi) as (? & Hor & ? & ?). rewrite Hpush in Hor. naive_solver.
    + clear -Hpc Er. destruct (pc th'); simpl in *; try rewrite Er; done.
  - unfold protects. rewrite Hhs. by left.
  - intros r rc o HrL Hr Hre Hal Hs. rewrite Eo. split; [done|].
    intros Hb0. specialize (Hsc r rc o HrL Hr Hre Hs Hb0). destruct (pc th'); simpl in *; rewrite ?Er; done.
Qed.

Lemma idle_ok s t th : inv s -> threads s !! t = Some th -> step_ok s t (Some (th, mem s)).
Proof. intros HI Hth. eexists _, _. split; [done|]. rewrite list_insert_id by done. by destruct s. Qed.

Lemma same_heap_refl m : same_heap m m.
Proof. done. Qed.

Lemma rchain_next f p l r rc r' :
  rchain f p l -> r ∈ l -> f !! r = Some rc -> r_next rc = Some r' -> r' ∈ l.
Proof.
  revert p. induction l as [|x l IH]; simpl; [set_solver|].
  intros p (-> & rc0 & Hx & Hl) Hin Hr Hn. apply elem_of_cons. right.
  apply elem_of_cons in Hin as [->|Hin].
  - simplify_eq. rewrite Hn in Hl. destruct l as [|y l]; simpl in Hl; [done|].
    destruct Hl as (? & _). simplify_eq. by left.
  - by eapply IH.
Qed.

(** The thread's lists are not touched by a step that moves between the counters where
    only its [priv_list] matters. *)
Definition plain (p : PC) : bool :=
  match p with
  | RtPush _ | ApLoad _ _ | ApCas _ _ _ | ApAdd true _ | BrHead _ | BrScan _ _ _ | BrLoop _ _ _ => false
  | _ => true
  end.

Lemma plain_priv f p p' dl l : plain p = true -> plain p' = true -> priv_objs f p dl l -> priv_objs f p' dl l.
Proof. destruct p; try destruct priv; try done; destruct p'; try destruct priv; try done. Qed.

Lemma plain_busy f p p' l : plain p = true -> plain p' = true -> busy_objs f p l -> busy_objs f p' l.
Proof. destruct p; try destruct priv; try done; destruct p'; try destruct priv; try done. Qed.

Lemma plain_scan m own L p t r o : plain p = true -> scan_ok m own L p t r o.
Proof. by destruct p. Qed.

Create HintDb hz.
#[local] Hint Resolve same_heap_refl plain_priv plain_busy plain_scan : hz.

(** A step between plain program counters that changes records and holders. *)
Lemma plain_ok s own rown L R t th m' th' rown' L' :
  Inv s own rown L R -> threads s !! t = Some th ->
  plain (pc th) = true -> plain (pc th') = true -> priv_list th' = priv_list th ->
  objs m' = objs (mem s) ->
  frame t (mem s) own rown L m' own rown' L' -> ginv m' own rown' L' R ->
  (forall i h, holders th' !! i = Some h ->
    rown' (rec h) = Some t /\ (rec h ∈ L' \/ pushing (pc th') = Some (rec h)) /\ (prot h <> None -> rec h ∈ L') /\
    (forall o, prot h = Some o -> exists rc, recs m' !! rec h = Some rc /\ realptr rc = Some o)) ->
  (forall i j h h', holders th' !! i = Some h -> holders th' !! j = Some h' -> rec h = rec h' -> i = j) ->
  pc_ok m' L' (holders th') (pc th') ->
  (forall r o, protects th' r o -> protects th r o \/
     r ∈ L /\ (exists rc, recs (mem s) !! r = Some rc /\ realptr rc = Some o) /\ exists k, own o = InSrc k) ->
  step_ok s t (Some (th', m')).
Proof.
  intros HI Hth Hp Hp' Hpl Ho HF Hg Hh Hinj Hpc H1.
  eexists _, _. split; [done|]. exists own, rown', L', R.
  pose proof (i_t _ _ _ _ _ HI _ _ Hth) as [(lp & ? & ?) (lb & ? & ?) _ _ _].
  eapply hz_inv_step; [done..| |done|].
  - split; rewrite ?Ho, ?Hpl; try done; eexists; (split; [|done]).
    + eapply (plain_priv _ (pc th)); done.
    + eapply (plain_busy _ (pc th)); done.
  - intros. rewrite Ho. eauto with hz.
Qed.

(** * Each operation keeps the invariant *)

Section steps.
Context (s : State) (own : nat -> Place) (rown : nat -> option nat) (L R : list nat).
Context (t : nat) (th : Thread).
Context (HI : Inv s own rown L R) (Hth : threads s !! t = Some th).

Let Hg := i_g _ _ _ _ _ HI.
Let Ht := i_t _ _ _ _ _ HI _ _ Hth.

Lemma at_pc_ok m' p :
  same_heap (mem s) m' ->
  plain (pc th) = true -> plain p = true -> pushing (pc th) = None ->
  pc_ok (mem s) L (holders th) p ->
  step_ok s t (Some (at_pc p th, m')).
Proof.
  intros. eapply silent_ok; eauto with hz.
Qed.

Lemma acquire_at_ok i p :
  (forall r, p = Some r -> r ∈ L) -> holders th !! i = None ->
  pc_ok (mem s) L (holders th) (acquire_at i p).
Proof. destruct p; simpl; naive_solver. Qed.

Lemma acquire_at_plain i p : plain (acquire_at i p) = true.
Proof. by destruct p. Qed.

(** The holders with one replaced. *)
Lemma hold_insert m' rown' L' p i r pr :
  L `suffix_of` L' ->
  (forall x, x <> r -> rown' x = rown x) -> rown' r = Some t ->
  (forall j h, j <> i -> holders th !! j = Some h -> rec h <> r) ->
  (forall x, x <> r -> rown x = Some t -> recs m' !! x = recs (mem s) !! x) ->
  (forall x, pushing (pc th) = Some x -> x = r) ->
  r ∈ L' \/ pushing p = Some r -> (pr <> None -> r ∈ L') ->
  (forall o, pr = Some o -> exists rc, recs m' !! r = Some rc /\ realptr rc = Some o) ->
  (forall j h, <[i := mkHolder r pr]> (holders th) !! j = Some h ->
    rown' (rec h) = Some t /\ (rec h ∈ L' \/ pushing p = Some (rec h)) /\ (prot h <> None -> rec h ∈ L') /\
    (forall o, prot h = Some o -> exists rc, recs m' !! rec h = Some rc /\ realptr rc = Some o)) /\
  (forall j k h h', <[i := mkHolder r pr]> (holders th) !! j = Some h ->
    <[i := mkHolder r pr]> (holders th) !! k = Some h' -> rec h = rec h' -> j = k).
Proof.
  intros [K HK] Hrown Hr Hne Hrecs Hpush HrL HpL Hpr. split.
  - intros j h. destruct (decide (j = i)) as [->|Hji].
    + rewrite lookup_insert_eq. intros [= <-]. done.
    + rewrite lookup_insert_ne by done. intros Hj. pose proof (Hne _ _ Hji Hj) as Hd.
      destruct (t_hold _ _ _ _ _ _ Ht _ _ Hj) as (Ho & HoL & HpL' & Hp').
      rewrite Hrown, Hrecs by done. split_and!; [done| | |done].
      * destruct HoL as [?|Hx]; [left; rewrite HK; set_solver|]. by apply Hpush in Hx.
      * intros. rewrite HK. apply elem_of_app. right. by apply HpL'.
  - intros j k h h'. destruct (decide (j = i)) as [->|Hji], (decide (k = i)) as [->|Hki]; try done;
      rewrite ?lookup_insert_eq, ?lookup_insert_ne by done.
    + intros [= <-] Hk Heq. by destruct (Hne _ _ Hki Hk).
    + intros Hj [= <-] Heq. by destruct (Hne _ _ Hji Hj).
    + apply (t_inj _ _ _ _ _ _ Ht).
Qed.

Lemma protects_insert i r pr r0 o p :
  protects (at_pc p (set_holder i (mkHolder r pr) th)) r0 o ->
  protects th r0 o \/ r0 = r /\ pr = Some o.
Proof.
  intros [j Hj]. simpl in Hj. destruct (decide (j = i)) as [->|].
  - rewrite lookup_insert_eq in Hj. simplify_eq. by right.
  - rewrite lookup_insert_ne in Hj by done. left. by exists j.
Qed.

(** A record that is free or new becomes the record of a new holder [i]. *)
Lemma take_record_ok i r rc' p :
  rown r = None -> pushing (pc th) = None -> plain (pc th) = true -> plain p = true ->
  holders th !! i = None -> active rc' = true ->
  (r ∈ L -> exists rc, recs (mem s) !! r = Some rc /\ r_next rc' = r_next rc) ->
  r ∈ L \/ pushing p = Some r ->
  pc_ok (set_recs (<[r := rc']> (recs (mem s))) (mem s)) L (<[i := mkHolder r None]> (holders th)) p ->
  step_ok s t (Some (at_pc p (set_holder i (mkHolder r None) th), set_recs (<[r := rc']> (recs (mem s))) (mem s))).
Proof.
  intros Hr Hpu Hpl Hpl' Hi Ha Hn HrL Hpc.
  assert (Hother : forall j h, j <> i -> holders th !! j = Some h -> rec h <> r).
  { intros j h _ Hj <-. destruct (t_hold _ _ _ _ _ _ Ht _ _ Hj) as (? & _). congruence. }
  assert (Hmv : forall x, x <> r -> move [r] (Some t) rown x = rown x) by (intros; apply move_out; set_solver).
  destruct (hold_insert (set_recs (<[r := rc']> (recs (mem s))) (mem s)) (move [r] (Some t) rown) L p i r None)
    as [Hh Hinj]; try done.
  - apply move_in. by left.
  - intros. simpl. by rewrite lookup_insert_ne.
  - by rewrite Hpu.
  - eapply (plain_ok s own rown L R t th); try done.
    + by apply frame_rec; [right| |].
    + by apply (ginv_rec _ _ rown).
    + intros r0 o Hpr. apply protects_insert in Hpr as [?|[-> ?]]; [by left|done].
Qed.

Lemma free_record r rc : recs (mem s) !! r = Some rc -> active rc = false -> rown r = None.
Proof.
  intros Hr Ha. destruct (rown r) as [t'|] eqn:E; [|done].
  apply (g_rown _ _ _ _ _ Hg) in E as (? & ? & ?). congruence.
Qed.

Lemma in_list_alloc r : r ∈ L -> exists rc, recs (mem s) !! r = Some rc.
Proof. apply (rchain_alloc _ _ _ _ (g_L _ _ _ _ _ Hg)). Qed.

Lemma acquire_scan_ok i r : pc th = AqScan i r \/ pc th = AqCas i r -> forall fail, step_ok s t (acquire_step fail th (mem s)).
Proof.
  intros E fail. pose proof (t_pc _ _ _ _ _ _ Ht) as Hpc.
  assert (r ∈ L /\ holders th !! i = None) as [HrL Hi] by (by destruct E as [E|E]; rewrite E in Hpc).
  destruct (in_list_alloc r HrL) as [rc Hrc].
  assert (Hnext : step_ok s t (Some (at_pc (acquire_at i (r_next rc)) th, mem s))).
  { apply at_pc_ok; [done|by destruct E as [-> | ->]|apply acquire_at_plain|by destruct E as [-> | ->]|].
    apply acquire_at_ok; [|done]. intros r' Hr'.
    by eapply (rchain_next _ _ _ _ _ _ (g_L _ _ _ _ _ Hg)). }
  unfold acquire_step. destruct E as [E|E]; rewrite E, Hrc; destruct (active rc) eqn:Ha; try done.
  - apply at_pc_ok; by rewrite ?E.
  - unfold store_active. rewrite Hrc. apply take_record_ok; rewrite ?E; try done.
    + by eapply free_record.
    + intros _. by exists rc.
    + by left.
Qed.

Lemma new_record_ok i : pc th = AqNew i -> forall fail, step_ok s t (acquire_step fail th (mem s)).
Proof.
  intros E fail. pose proof (t_pc _ _ _ _ _ _ Ht) as Hi. rewrite E in Hi. simpl in Hi.
  pose proof (new_id_fresh (recs (mem s))) as Hfr.
  assert (HnL : new_id (recs (mem s)) ∉ L).
  { intros HL. apply in_list_alloc in HL as [? ?]. congruence. }
  unfold acquire_step. rewrite E. apply take_record_ok; rewrite ?E; try done.
  - destruct (rown _) as [t'|] eqn:Er; [|done]. apply (g_rown _ _ _ _ _ Hg) in Er as (? & ? & ?). congruence.
  - by right.
  - simpl. by rewrite lookup_insert_eq.
Qed.

Lemma push_record_ok i r : pc th = AqLoad i r \/ pc th = AqPush i r -> forall fail, step_ok s t (acquire_step fail th (mem s)).
Proof.
  intros E fail. pose proof (t_pc _ _ _ _ _ _ Ht) as Hpc.
  assert ((r ∉ L) /\ holders th !! i = Some (mkHolder r None)) as [HrL Hi] by (by destruct E as [E|E]; rewrite E in Hpc).
  destruct (t_hold _ _ _ _ _ _ Ht _ _ Hi) as (Hr & _ & _). simpl in Hr.
  destruct (g_rown _ _ _ _ _ Hg _ _ Hr) as (rc & Hrc & Ha).
  assert (Hother : forall j h, j <> i -> holders th !! j = Some h -> rec h <> r).
  { intros j h Hj Hl Heq. apply Hj. by eapply (t_inj _ _ _ _ _ _ Ht). }
  assert (Hpush : forall x, pushing (pc th) = Some x -> x = r) by (destruct E as [-> | ->]; naive_solver).
  assert (Hpl : plain (pc th) = true) by (by destruct E as [-> | ->]).
  assert (Hsame : forall pr, <[i := mkHolder r None]> (holders th) = holders th) by (intros; by apply insert_id).
  assert (Hstore : forall q, step_ok s t (m <-? store_next r q (mem s); Some (at_pc (AqPush i r) th, m))).
  { intros q. unfold store_next. rewrite Hrc.
    set (m' := set_recs _ _).
    destruct (hold_insert m' rown L (AqPush i r) i r None) as [Hh Hinj]; try done.
    - intros. subst m'. simpl. by rewrite lookup_insert_ne.
    - by right.
    - rewrite Hsame in Hh, Hinj by done.
      eapply (plain_ok s own rown L R t th); try done.
      + by apply frame_rec; [left| |].
      + by apply (ginv_rec _ _ rown).
      + by left. }
  unfold acquire_step. destruct E as [E|E]; rewrite E; [apply Hstore|].
  rewrite Hrc. destruct (negb fail && _)%bool eqn:Ec; [|apply Hstore].
  apply andb_true_iff in Ec as [_ Ec%bool_decide_eq_true].
  destruct (hold_insert (set_hazptr_list (Some r) (mem s)) rown (r :: L) (AqCount i r) i r None) as [Hh Hinj]; try done.
  - by apply suffix_cons_r.
  - left. by left.
  - rewrite Hsame in Hh, Hinj by done.
    eapply (plain_ok s own rown L R t th); try done.
    + split; simpl; eauto.
    + destruct Hg. split; simpl; try done.
      * split; [done|]. exists rc. split; [done|]. by rewrite <-Ec.
      * by apply NoDup_cons.
    + by left.
Qed.

Lemma acquire_ok fail : step_ok s t (acquire_step fail th (mem s)).
Proof.
  destruct (pc th) eqn:E; try (unfold acquire_step; rewrite E; apply idle_ok; [by exists own, rown, L, R|done]).
  - apply (acquire_scan_ok i r). auto.
  - apply (acquire_scan_ok i r). auto.
  - by apply (new_record_ok i).
  - apply (push_record_ok i r). auto.
  - apply (push_record_ok i r). auto.
  - unfold acquire_step. rewrite E. apply at_pc_ok; by rewrite ?E.
Qed.

Lemma in_list_of_holder i h : holders th !! i = Some h -> pushing (pc th) = None -> rec h ∈ L.
Proof.
  intros Hi Hp. destruct (t_hold _ _ _ _ _ _ Ht _ _ Hi) as (_ & [?|Hx] & _); [done|congruence].
Qed.

(** Storing into the record of a holder, which protects nothing afterwards. *)
Lemma store_holder_ok i h q p :
  holders th !! i = Some h -> plain (pc th) = true -> pushing (pc th) = None ->
  plain p = true ->
  (forall m', (exists rc, recs m' !! rec h = Some rc /\ realptr rc = q) ->
     pc_ok m' L (<[i := mkHolder (rec h) None]> (holders th)) p) ->
  step_ok s t (m <-? store_realptr (rec h) q (mem s); Some (at_pc p (set_holder i (mkHolder (rec h) None) th), m)).
Proof.
  intros Hi Hpl Hpu Hpl' Hpc.
  destruct (t_hold _ _ _ _ _ _ Ht _ _ Hi) as (Hr & _).
  destruct (store_realptr_ok (mem s) own rown L R t (rec h) q Hg Hr) as (m' & -> & Hg' & HF & Ho & Hs & Hrc & Hne).
  destruct (hold_insert m' rown L p i (rec h) None) as [Hh Hinj]; try done.
  - intros j h' Hj Hl Heq. apply Hj. by eapply (t_inj _ _ _ _ _ _ Ht).
  - intros. by apply Hne.
  - by rewrite Hpu.
  - left. by eapply in_list_of_holder.
  - eapply (plain_ok s own rown L R t th); try done; [by apply Hpc|].
    intros r0 o Hpr. apply protects_insert in Hpr as [?|[-> ?]]; [by left|done].
Qed.

Lemma protect_ok : step_ok s t (protect_step th (mem s)).
Proof.
  pose proof (t_pc _ _ _ _ _ _ Ht) as Hpc.
  destruct (pc th) eqn:E; try (unfold protect_step; rewrite E; apply idle_ok; [by exists own, rown, L, R|done]);
    unfold protect_step; rewrite E; simpl in Hpc.
  - destruct Hpc as [h Hi]. rewrite Hi. apply store_holder_ok; rewrite ?E; try done.
    intros m' (rc & Hrc & Hq). simpl. exists (rec h), rc. by rewrite lookup_insert_eq.
  - destruct Hpc as (r & rc & Hi & Hrc & Hq). rewrite Hi. simpl rec.
    assert (HrL : r ∈ L) by (apply (in_list_of_holder i (mkHolder r None)); [done|by rewrite E]).
    destruct (decide (p = src (mem s) !! k)) as [Heq|Hneq].
    + destruct (t_hold _ _ _ _ _ _ Ht _ _ Hi) as (Hr & _).
      destruct (hold_insert (mem s) rown L Idle i r p) as [Hh Hinj]; try done.
      * intros j h' Hj Hl Heq'. apply Hj. by eapply (t_inj _ _ _ _ _ _ Ht).
      * by rewrite E.
      * by left.
      * intros o ->. by exists rc.
      * eapply (plain_ok s own rown L R t th); rewrite ?E; try done.
        -- apply frame_refl.
        -- intros r0 o Hpr. apply protects_insert in Hpr as [?|[-> Hp]]; [by left|right].
           split_and!; [done|exists rc; split; [done|congruence]|].
           exists k. apply (g_src _ _ _ _ _ Hg). congruence.
    + apply at_pc_ok; rewrite ?E; try done. simpl. by rewrite Hi.
  - destruct Hpc as [h Hi]. rewrite Hi. apply store_holder_ok; rewrite ?E; try done; [by destruct again|].
    intros m' _. destruct again; simpl; [by rewrite lookup_insert_eq|done].
Qed.

(** [~HazptrHolder] gives the record up: any thread may take it again. *)
Lemma release_ok : step_ok s t (release_step th (mem s)).
Proof.
  pose proof (t_pc _ _ _ _ _ _ Ht) as Hpc.
  destruct (pc th) eqn:E; try (unfold release_step; rewrite E; apply idle_ok; [by exists own, rown, L, R|done]).
  destruct Hpc as [h Hi]. unfold release_step. rewrite E, Hi.
  destruct (t_hold _ _ _ _ _ _ Ht _ _ Hi) as (Hr & _).
  destruct (g_rown _ _ _ _ _ Hg _ _ Hr) as (rc & Hrc & Ha). unfold store_active. rewrite Hrc.
  assert (Hmv : forall x, x <> rec h -> move [rec h] None rown x = rown x) by (intros; apply move_out; set_solver).
  eapply (plain_ok s own rown L R t th); rewrite ?E; try done.
  - apply frame_rec with (rown' := move [rec h] None rown); [by left|done|]. intros _. by exists rc.
  - apply (ginv_rec _ _ rown); [done|done|intros _; by exists rc|]. rewrite move_in by (by left). done.
  - simpl. intros j h' [Hji Hj]%lookup_delete_Some.
    destruct (t_hold _ _ _ _ _ _ Ht _ _ Hj) as (Hr' & HL' & HpL & Hpr). rewrite E in HL'.
    assert (rec h' <> rec h) by (intros Heq; apply Hji; by eapply (t_inj _ _ _ _ _ _ Ht)).
    rewrite Hmv, lookup_insert_ne by done. done.
  - simpl. intros j k h1 h2 [_ ?]%lookup_delete_Some [_ ?]%lookup_delete_Some. by apply (t_inj _ _ _ _ _ _ Ht).
  - intros r o [j Hj]. simpl in Hj. apply lookup_delete_Some in Hj as [_ Hj]. left. by exists j.
Qed.

Lemma swap_ok i j h1 h2 :
  pc th = Idle -> holders th !! i = Some h1 -> holders th !! j = Some h2 ->
  step_ok s t (Some (set_holder i h2 (set_holder j h1 th), mem s)).
Proof.
  intros E Hi Hj.
  assert (Hold : forall k h, <[i := h2]> (<[j := h1]> (holders th)) !! k = Some h ->
    exists k', holders th !! k' = Some h /\ k' = (if decide (k = i) then j else if decide (k = j) then i else k)).
  { intros k h. destruct (decide (k = i)) as [->|]; [rewrite lookup_insert_eq; naive_solver|].
    rewrite lookup_insert_ne by done. destruct (decide (k = j)) as [->|]; [rewrite lookup_insert_eq; naive_solver|].
    rewrite lookup_insert_ne by done. naive_solver. }
  eapply (plain_ok s own rown L R t th); simpl; rewrite ?E; try done.
  - apply frame_refl.
  - simpl. intros k h (k' & Hk & _)%Hold. pose proof (t_hold _ _ _ _ _ _ Ht _ _ Hk) as Hh. by rewrite E in Hh.
  - simpl. intros k1 k2 x y (k1' & H1 & E1)%Hold (k2' & H2 & E2)%Hold Heq.
    assert (k1' = k2') by (by eapply (t_inj _ _ _ _ _ _ Ht)). repeat case_decide; congruence.
  - intros r o [k Hk]. apply Hold in Hk as (k' & Hk & _). left. by exists k'.
Qed.

(** A step that changes objects, their places and the lists of objects only. *)
Lemma objs_ok m' own' R' th' :
  recs m' = recs (mem s) -> _hazptr_list m' = _hazptr_list (mem s) ->
  holders th' = holders th -> pushing (pc th) = None ->
  (forall o t', t' <> t -> own o = Priv t' \/ own o = Busy t' -> own' o = own o /\ objs m' !! o = objs (mem s) !! o) ->
  (forall o t', t' <> t -> own' o = Busy t' -> own o = Busy t') ->
  oseg (objs m') (_retired_list m') R' None -> NoDup R' -> (forall o, o ∈ R' -> own' o = Retired) ->
  (forall k o, src m' !! k = Some o -> own' o = InSrc k) ->
  (forall o, own' o <> Nowhere -> is_Some (objs m' !! o)) ->
  (exists l, priv_objs (objs m') (pc th') (priv_list th') l /\ NoDup l /\ forall o, o ∈ l -> own' o = Priv t) ->
  (exists l, busy_objs (objs m') (pc th') l /\ NoDup l /\ forall o, o ∈ l -> own' o = Busy t) ->
  pc_ok (mem s) L (holders th) (pc th') ->
  (forall o r, r ∈ L -> is_Some (objs (mem s) !! o) -> scan_ok (mem s) own L (pc th) t r o ->
     is_Some (objs m' !! o) /\ scan_ok m' own' L (pc th') t r o) ->
  step_ok s t (Some (th', m')).
Proof.
  intros Er Eh Ehs Hpu Hfo Hfb HR HRnd HRo Hsrc Hal Hp Hb Hpc Hsc.
  eexists _, _. split; [done|]. exists own', rown, L, R'. destruct Hg.
  eapply hz_inv_step; [done|done|..].
  - split; rewrite ?Er; eauto.
  - split; rewrite ?Er, ?Eh; eauto.
  - split; rewrite ?Ehs; eauto.
    + intros i h Hi. destruct (t_hold _ _ _ _ _ _ Ht _ _ Hi) as (? & Hor & ? & ?).
      rewrite Hpu in Hor. rewrite Er. naive_solver.
    + apply Ht.
    + clear -Hpc Er. destruct (pc th'); simpl in *; rewrite ?Er; done.
  - unfold protects. rewrite Ehs. by left.
  - intros r rc o HrL _ _ Ha Hs. by apply Hsc.
Qed.

Lemma own_disjoint (l : list nat) (own1 : nat -> Place) o (pl : Place) : (forall x, x ∈ l -> own1 x = pl) -> own1 o <> pl -> o ∉ l.
Proof. intros Hl Ho Hin. by apply Ho, Hl. Qed.

Lemma alive_of_own o : own o <> Nowhere -> is_Some (objs (mem s) !! o).
Proof. apply (g_alive _ _ _ _ _ Hg). Qed.

(** [priv_list.push(node)]. *)
Lemma retire_push_ok o : pc th = RtPush o -> step_ok s t (retire_step th (mem s)).
Proof.
  intros E. unfold retire_step. rewrite E.
  destruct (t_priv _ _ _ _ _ _ Ht) as (lp & Hp & Hpnd & Hpo).
  destruct (t_busy _ _ _ _ _ _ Ht) as (lb & Hb & _ & Hbo). rewrite E in Hp, Hb. simpl in Hp, Hb. subst lb.
  assert (Ho : own o = Busy t) by (apply Hbo; by left).
  assert (Hnin : o ∉ lp) by (apply (own_disjoint lp own o (Priv t) Hpo); congruence).
  destruct (dll_push_ok (objs (mem s)) (priv_list th) lp o) as (dl' & f' & -> & Hdl' & Hf & Hfa); try done.
  { apply alive_of_own. congruence. }
  simpl fst; simpl snd.
  eapply (objs_ok _ (move [o] (Priv t) own) R); simpl; rewrite ?E; try done.
  - intros x t' Hne Hx. assert (x <> o) by (intros ->; destruct Hx; congruence).
    rewrite move_out by (by rewrite list_elem_of_singleton). split; [done|]. apply Hf; [done|]. intros Hin%Hpo. destruct Hx; congruence.
  - intros x t' Hne Hx. unfold move in Hx. by case_decide.
  - eapply oseg_frame; [|apply (g_R _ _ _ _ _ Hg)]. intros x Hx%(g_Rown _ _ _ _ _ Hg). apply Hf; [congruence|].
    intros Hin%Hpo. congruence.
  - apply (g_Rnd _ _ _ _ _ Hg).
  - intros x Hx%(g_Rown _ _ _ _ _ Hg). rewrite move_out; [done|]. rewrite list_elem_of_singleton. congruence.
  - intros k x Hx%(g_src _ _ _ _ _ Hg). rewrite move_out; [done|]. rewrite list_elem_of_singleton. congruence.
  - intros x Hx. apply Hfa. unfold move in Hx. apply alive_of_own.
    case_decide as Hin; [|done]. apply list_elem_of_singleton in Hin as ->. congruence.
  - exists (lp ++ [o]). split_and!; [done| |].
    + apply NoDup_app. split_and!; [done| |apply NoDup_singleton].
      intros x Hx ->%list_elem_of_singleton. done.
    + intros x [Hx| ->%list_elem_of_singleton]%elem_of_app; [|apply move_in; by left].
      rewrite move_out; [by apply Hpo|]. rewrite list_elem_of_singleton. by intros ->.
  - exists []. split_and!; [done|apply NoDup_nil_2|by intros ? ?%elem_of_nil].
  - intros x r _ Hal _. split; [by apply Hfa|done].
Qed.

(** The segment a thread is appending, and where its objects are. *)
Definition ap_place (priv : bool) : Place := if priv then Priv t else Busy t.

Definition ap_seg (p : PC) (priv : bool) (dl : DoubleLinkedList) (q : ptr) (l : list nat) : Prop :=
  (p = ApLoad priv dl /\ q = None \/ p = ApCas priv dl q) /\ pc th = p /\ l <> [] /\
  dll (objs (mem s)) dl l q /\ NoDup l /\ (forall o, o ∈ l -> own o = ap_place priv) /\
  (if priv then dl = priv_list th else count dl <= Z.of_nat (length L)).

Lemma ap_seg_of p priv dl q :
  pc th = p -> p = ApLoad priv dl /\ q = None \/ p = ApCas priv dl q -> exists l, ap_seg p priv dl q l.
Proof.
  intros E Hp. destruct (t_priv _ _ _ _ _ _ Ht) as (lp & Hpr & Hpnd & Hpo).
  destruct (t_busy _ _ _ _ _ _ Ht) as (lb & Hb & Hbnd & Hbo). pose proof (t_pc _ _ _ _ _ _ Ht) as Hpc.
  unfold ap_seg. destruct priv.
  - exists lp. rewrite E in Hpr. destruct Hp as [[-> ->]| ->]; destruct Hpr as (-> & ? & ?); split_and!; auto.
  - exists lb. rewrite E in Hb, Hpc. destruct Hp as [[-> ->]| ->]; destruct Hb as (? & ?); split_and!; auto.
Qed.

(** [tail->next = _retired_list], before the exchange and after a failed one. *)
Lemma append_link_ok p priv dl q l :
  ap_seg p priv dl q l ->
  step_ok s t (x <-? tail dl; h <-? set_next x (_retired_list (mem s)) (objs (mem s));
               Some (at_pc (ApCas priv dl (_retired_list (mem s))) th, set_objs h (mem s))).
Proof.
  intros (Hp & E & Hne & Hdl & Hnd & Ho & Hdle).
  destruct (dll_set_tail _ _ _ _ (_retired_list (mem s)) Hdl Hnd Hne) as (x & f' & -> & Hx & -> & Hdl' & ->).
  assert (Hxo : own x = ap_place priv) by by apply Ho.
  assert (Hfr : forall y, own y <> ap_place priv -> <[x := _retired_list (mem s)]> (objs (mem s)) !! y = objs (mem s) !! y).
  { intros y Hy. apply lookup_insert_ne. congruence. }
  assert (Hal : forall y, is_Some (objs (mem s) !! y) -> is_Some (<[x := _retired_list (mem s)]> (objs (mem s)) !! y)).
  { intros y Hy. destruct (decide (y = x)) as [->|]; simplify_map_eq; [by eexists|done]. }
  assert (Hpu : pushing (pc th) = None) by (rewrite E; by destruct Hp as [[-> _]| ->]).
  destruct (t_priv _ _ _ _ _ _ Ht) as (lp & Hpr & Hpnd & Hpo).
  destruct (t_busy _ _ _ _ _ _ Ht) as (lb & Hb & Hbnd & Hbo).
  eapply (objs_ok _ own R); simpl; rewrite ?E; try done.
  - by rewrite E in Hpu.
  - intros y t' Hne' Hy. split; [done|]. apply Hfr. destruct priv, Hy; simpl; congruence.
  - eapply oseg_frame; [|apply (g_R _ _ _ _ _ Hg)]. intros y Hy%(g_Rown _ _ _ _ _ Hg). apply Hfr. rewrite Hy. by destruct priv.
  - apply (g_Rnd _ _ _ _ _ Hg).
  - apply (g_Rown _ _ _ _ _ Hg).
  - apply (g_src _ _ _ _ _ Hg).
  - intros y Hy. by apply Hal, alive_of_own.
  - destruct priv; [by exists l; subst dl|]. exists lp. split_and!; [|done..].
    rewrite E in Hpr. assert (dll (objs (mem s)) (priv_list th) lp None) by (by destruct Hp as [[-> _]| ->]).
    eapply dll_frame; [|done]. intros y Hy. apply Hfr. rewrite Hpo by done. done.
  - destruct priv; [|by exists l]. exists lb. split_and!; [|done..].
    rewrite E in Hb. by destruct Hp as [[-> _]| ->].
  - by destruct priv.
  - intros o r _ Hao _. split; [by apply Hal|]. done.
Qed.

(** The successful exchange of [append]. *)
Lemma append_cas_ok priv dl l :
  ap_seg (pc th) priv dl (_retired_list (mem s)) l ->
  (pc th = ApCas priv dl (_retired_list (mem s))) ->
  step_ok s t (Some (at_pc (ApAdd priv dl) th, set_retired_list (head dl) (mem s))).
Proof.
  intros (_ & _ & Hne & (Hseg & Hta & Hco) & Hnd & Ho & Hdle) E.
  assert (Hdis : forall o, o ∈ l -> o ∉ R).
  { intros o Hl%Ho HR%(g_Rown _ _ _ _ _ Hg). rewrite Hl in HR. by destruct priv. }
  assert (Hout : forall o, own o <> ap_place priv -> o ∉ l) by (intros o Hoo Hin; by apply Hoo, Ho).
  destruct (t_priv _ _ _ _ _ _ Ht) as (lp & Hpr & Hpnd & Hpo). rewrite E in Hpr.
  eapply (objs_ok _ (move l Retired own) (l ++ R)); simpl; rewrite ?E; try done.
  - intros o t' Hne' Hoo. split; [|done]. apply move_out, Hout. destruct priv, Hoo; simpl; congruence.
  - intros o t' Hne' Hoo. unfold move in Hoo. by case_decide.
  - apply oseg_app. eexists. split; [done|]. apply (g_R _ _ _ _ _ Hg).
  - apply NoDup_app. split_and!; [done|done|apply (g_Rnd _ _ _ _ _ Hg)].
  - intros o Hin%elem_of_app. unfold move. case_decide; [done|]. apply (g_Rown _ _ _ _ _ Hg). by destruct Hin.
  - intros k o Hk%(g_src _ _ _ _ _ Hg). rewrite move_out; [done|]. apply Hout. rewrite Hk. by destruct priv.
  - intros o Hoo. apply alive_of_own. unfold move in Hoo. case_decide as Hin; [|done].
    rewrite (Ho _ Hin). by destruct priv.
  - destruct priv.
    + exists []. split_and!; [done|apply NoDup_nil_2|by intros ? ?%elem_of_nil].
    + exists lp. split_and!; [done|done|]. intros o Hin%Hpo. rewrite move_out; [done|]. apply Hout. by rewrite Hin.
  - exists []. split_and!; [by destruct priv|apply NoDup_nil_2|by intros ? ?%elem_of_nil].
  - by destruct priv.
Qed.

Lemma append_ok fail : step_ok s t (append_step fail th (mem s)).
Proof.
  destruct (pc th) eqn:E; try (unfold append_step; rewrite E; apply idle_ok; [by exists own, rown, L, R|done]);
    unfold append_step; rewrite E.
  - destruct (ap_seg_of _ priv l None E) as [l' Hl']; [by left|]. by eapply append_link_ok.
  - destruct (ap_seg_of _ priv l expected E) as [l' Hl']; [by right|].
    destruct (negb fail && _)%bool eqn:Ec; [|by eapply append_link_ok].
    apply andb_true_iff in Ec as [_ <-%bool_decide_eq_true]. eapply append_cas_ok; [by rewrite E|done].
  - unfold after_append. destruct priv.
    + eapply silent_ok; rewrite ?E; simpl; try done. by intros ? ->.
    + apply at_pc_ok; by rewrite ?E.
Qed.

Lemma try_reclaim_ok fail : step_ok s t (try_reclaim_step fail th (mem s)).
Proof.
  destruct (pc th) eqn:E; try (unfold try_reclaim_step; rewrite E; apply idle_ok; [by exists own, rown, L, R|done]);
    unfold try_reclaim_step; rewrite E; repeat case_match; apply at_pc_ok; by rewrite ?E.
Qed.

Lemma to_append_ok :
  plain (pc th) = true -> pushing (pc th) = None -> 0 < count (priv_list th) ->
  step_ok s t (Some (at_pc (ApLoad true (priv_list th)) th, mem s)).
Proof.
  intros Hpl Hpu Hc. eapply (silent_ok s own rown L R t th); simpl; try done.
  - intros l Hl. assert (Hd : dll (objs (mem s)) (priv_list th) l None) by (by apply (plain_priv _ _ Idle) in Hl).
    split_and!; [done| |done]. destruct Hd as (_ & _ & Hco). intros ->. simpl in Hco. lia.
  - intros l Hl. by apply (plain_busy _ _ Idle) in Hl.
Qed.

Lemma retire_ok : step_ok s t (retire_step th (mem s)).
Proof.
  destruct (pc th) eqn:E; try (unfold retire_step; rewrite E; apply idle_ok; [by exists own, rown, L, R|done]).
  - by eapply retire_push_ok.
  - unfold retire_step. rewrite E. destruct (reached_threshold _ _) eqn:Ec; [|apply at_pc_ok; by rewrite ?E].
    apply to_append_ok; rewrite ?E; try done. unfold reached_threshold, SCAN_THRESHOLD in Ec. wz_bool. lia.
Qed.

(** * Reclamation *)

Lemma exchange_list_ok : pc th = BrXchg -> step_ok s t (reclaim_step th (mem s)).
Proof.
  intros E. unfold reclaim_step. rewrite E.
  destruct (t_priv _ _ _ _ _ _ Ht) as (lp & Hpr & Hpnd & Hpo). rewrite E in Hpr.
  eapply (objs_ok _ (move R (Busy t) own) []); simpl; rewrite ?E; try done.
  - intros o t' Hne Ho. split; [|done]. apply move_out. intros HR%(g_Rown _ _ _ _ _ Hg). destruct Ho; congruence.
  - intros o t' Hne Ho. unfold move in Ho. case_decide; [congruence|done].
  - apply NoDup_nil_2.
  - by intros ? ?%elem_of_nil.
  - intros k o Hk%(g_src _ _ _ _ _ Hg). rewrite move_out; [done|]. intros HR%(g_Rown _ _ _ _ _ Hg). congruence.
  - intros o Ho. apply alive_of_own. unfold move in Ho. case_decide as HR; [|done].
    by rewrite (g_Rown _ _ _ _ _ Hg _ HR).
  - exists lp. split_and!; [done|done|]. intros o Ho%Hpo. rewrite move_out; [done|].
    intros HR%(g_Rown _ _ _ _ _ Hg). congruence.
  - exists R. split_and!; [apply (g_R _ _ _ _ _ Hg)|apply (g_Rnd _ _ _ _ _ Hg)|]. intros o Ho. by apply move_in.
Qed.

Lemma scan_record_ok p h set : pc th = BrScan p h set -> step_ok s t (reclaim_step th (mem s)).
Proof.
  intros E. pose proof (t_pc _ _ _ _ _ _ Ht) as Hpc. rewrite E in Hpc. destruct Hpc as (l & Hc & Hsuf & Hlen).
  unfold reclaim_step. rewrite E. destruct l as [|r l]; simpl in Hc.
  - subst h. eapply silent_ok; rewrite ?E; simpl; try done.
    + intros lb Hlb. exists lb, []. split_and!; [by rewrite app_nil_r|done|apply dll_empty_ok|by intros ? ?%elem_of_nil].
    + lia.
    + intros r rc o _ _ _ Hs Ho. destruct (Hs Ho) as [?|(l & Hl & _ & Hr)]; [done|].
      destruct l; simpl in Hl; [by apply elem_of_nil in Hr|]. by destruct Hl.
  - destruct Hc as (-> & rc & Hrc & Hc). rewrite Hrc.
    assert (Hsuf' : l `suffix_of` L) by (by eapply suffix_cons_l).
    eapply silent_ok; rewrite ?E; simpl; try done.
    + exists l. split_and!; [done|done|]. pose proof (size_union_alt {[realptr rc]} set) as Hsz.
      rewrite size_union_alt, size_singleton. simpl in Hlen.
      pose proof (subseteq_size (set ∖ {[realptr rc]}) set ltac:(set_solver-)). lia.
    + intros r0 rc0 o _ Hr0 Hre Hs Ho. destruct (Hs Ho) as [?|(l' & Hl' & _ & Hr')].
      * left. by apply elem_of_union_r.
      * destruct l' as [|x l']; simpl in Hl'; [by apply elem_of_nil in Hr'|].
        destruct Hl' as (Heq & rc1 & Hx & Hl'). simplify_eq.
        apply elem_of_cons in Hr' as [->|Hr'].
        -- left. apply elem_of_union_l, elem_of_singleton. congruence.
        -- right. exists l. split_and!; [done|done|]. by rewrite (rchain_det _ _ _ _ Hc Hl').
Qed.

(** A reclamation keeps no more objects than it has seen protected pointers. *)
Lemma bounded_list (set : gset ptr) (l : list nat) :
  NoDup l -> (forall o, o ∈ l -> Some o ∈ set) -> (length l <= size set)%nat.
Proof.
  intros Hnd Hin. rewrite <-(length_fmap Some l).
  rewrite <-(size_list_to_set (C := gset ptr)) by (by apply (NoDup_fmap_2 Some)).
  apply subseteq_size. intros x Hx%elem_of_list_to_set. apply list_elem_of_fmap in Hx as (o & -> & Ho). by apply Hin.
Qed.

Lemma scan_head_ok p : pc th = BrHead p -> step_ok s t (reclaim_step th (mem s)).
Proof.
  intros E. unfold reclaim_step. rewrite E. eapply silent_ok; rewrite ?E; simpl; try done.
  - exists L. split_and!; [apply (g_L _ _ _ _ _ Hg)|done|]. change (size (∅ : gset ptr) + length L <= length L)%nat. rewrite size_empty. lia.
  - intros r rc o HrL _ _ _ _. right. exists L. split_and!; [apply (g_L _ _ _ _ _ Hg)|done|done].
Qed.

Lemma reclaim_end_ok set left_list : pc th = BrLoop None set left_list -> step_ok s t (reclaim_step th (mem s)).
Proof.
  intros E. unfold reclaim_step. rewrite E.
  pose proof (t_pc _ _ _ _ _ _ Ht) as Hpc. rewrite E in Hpc. simpl in Hpc.
  destruct (t_priv _ _ _ _ _ _ Ht) as (lp & Hpr & Hpnd & Hpo). rewrite E in Hpr. simpl in Hpr.
  destruct (t_busy _ _ _ _ _ _ Ht) as (lb & Hb & Hbnd & Hbo). rewrite E in Hb.
  destruct Hb as (l1 & l2 & -> & Hs1 & Hd2 & Hset).
  destruct l1 as [|o l1]; simpl in Hs1; [|by destruct Hs1]. simpl in Hbnd, Hbo. clear Hs1.
  assert (Hlen := bounded_list set l2 Hbnd Hset). pose proof Hd2 as (_ & _ & Hco).
  assert (Hstep : forall p, priv_objs (objs (mem s)) p (priv_list th) lp -> busy_objs (objs (mem s)) p l2 ->
      pc_ok (mem s) L (holders th) p -> (forall r o, scan_ok (mem s) own L p t r o) ->
      step_ok s t (Some (at_pc p th, mem s))).
  { intros p Hp Hb Hpc' Hsc. eapply (objs_ok _ own R); simpl; rewrite ?E; eauto; apply Hg. }
  destruct (0 <? count left_list) eqn:Ec; wz_bool; apply Hstep; simpl; try done; try lia.
  - split; [|done]. intros ->. simpl in Hco. lia.
  - destruct l2; [done|]. simpl in Hco. lia.
Qed.

(** What [bulk_reclaim] has left to look at, and what it keeps. *)
Lemma reclaim_split o set left_list : pc th = BrLoop (Some o) set left_list ->
  exists l1 l2 nx, objs (mem s) !! o = Some nx /\ oseg (objs (mem s)) nx l1 None /\
    dll (objs (mem s)) left_list l2 None /\ (forall x, x ∈ l2 -> Some x ∈ set) /\ NoDup (o :: l1 ++ l2) /\
    forall x, x ∈ o :: l1 ++ l2 -> own x = Busy t.
Proof.
  intros E. destruct (t_busy _ _ _ _ _ _ Ht) as (lb & Hb & Hbnd & Hbo). rewrite E in Hb.
  destruct Hb as (l1 & l2 & -> & Hs1 & Hd2 & Hset).
  destruct l1 as [|o' l1]; simpl in Hs1; [done|]. destruct Hs1 as ([= <-] & nx & Ho & Hs1).
  by exists l1, l2, nx.
Qed.

(** An object that a hazard pointer protects is kept. *)
Lemma reclaim_keep_ok o set left_list l1 l2 nx :
  pc th = BrLoop (Some o) set left_list -> objs (mem s) !! o = Some nx -> oseg (objs (mem s)) nx l1 None ->
  dll (objs (mem s)) left_list l2 None -> (forall x, x ∈ l2 -> Some x ∈ set) -> NoDup (o :: l1 ++ l2) ->
  (forall x, x ∈ o :: l1 ++ l2 -> own x = Busy t) ->
  Some o ∈ set ->
  step_ok s t (match dll_push o left_list (objs (mem s)) with
    | Some r => Some (at_pc (BrLoop nx set (fst r)) th, set_objs (snd r) (mem s)) | None => None end).
Proof.
  intros E Ho Hs1 Hd2 Hset Hbnd Hown Hin.
  pose proof (t_pc _ _ _ _ _ _ Ht) as Hpc. rewrite E in Hpc. simpl in Hpc.
  destruct (t_priv _ _ _ _ _ _ Ht) as (lp & Hpr & Hpnd & Hpo). rewrite E in Hpr. simpl in Hpr.
  apply NoDup_cons in Hbnd as [Hnin Hbnd]. apply NoDup_app in Hbnd as (Hnd1 & Hdisj & Hnd2).
  pose proof Hnin as Hno. rewrite elem_of_app in Hno. assert (Hn1 : o ∉ l1) by tauto. assert (Hn2 : o ∉ l2) by tauto.
  assert (Howno : own o = Busy t) by (apply Hown; by left).
  assert (Hpl : forall x pl, own x = pl -> pl <> Busy t -> x <> o /\ (x ∉ l2)).
  { intros x pl Hx Hne. split; [congruence|]. intros Hx2. rewrite Hown in Hx; [congruence|].
    apply elem_of_cons. right. apply elem_of_app. by right. }
  assert (Hp1 : forall x, x ∈ l1 -> x <> o /\ (x ∉ l2)) by (intros x Hx; split; [congruence|by apply Hdisj]).
  destruct (dll_push_ok (objs (mem s)) left_list l2 o) as (dl' & f' & -> & Hdl' & Hf & Hfa); try done.
  simpl fst; simpl snd. eapply (objs_ok _ own R); simpl; rewrite ?E; try done.
  + intros x t' Hne Hx. split; [done|]. assert (x <> o /\ (x ∉ l2)) as [? ?]; [|by apply Hf].
    by destruct Hx as [Hx|Hx]; eapply Hpl; eauto; congruence.
  + eapply oseg_frame; [|apply (g_R _ _ _ _ _ Hg)]. intros x Hx%(g_Rown _ _ _ _ _ Hg).
    destruct (Hpl x _ Hx) as [? ?]; [done|]. by apply Hf.
  + apply (g_Rnd _ _ _ _ _ Hg).
  + apply (g_Rown _ _ _ _ _ Hg).
  + apply (g_src _ _ _ _ _ Hg).
  + intros x Hx. by apply Hfa, alive_of_own.
  + exists lp. split_and!; [|done|done]. eapply dll_frame; [|done]. intros x Hx%Hpo.
    destruct (Hpl x _ Hx) as [? ?]; [done|]. by apply Hf.
  + exists (l1 ++ l2 ++ [o]). split_and!.
    * exists l1, (l2 ++ [o]). split_and!; [done| |done|].
      -- eapply oseg_frame; [|done]. intros x Hx. destruct (Hp1 x Hx). by apply Hf.
      -- intros x [?| ->%list_elem_of_singleton]%elem_of_app; [by apply Hset|done].
    * apply NoDup_app. split_and!; [done| |apply NoDup_app; split_and!; [done| |apply NoDup_singleton]].
      -- intros x Hx [?|Hxo%list_elem_of_singleton]%elem_of_app; [by eapply Hdisj|]. subst x. done.
      -- intros x Hx ->%list_elem_of_singleton. done.
    * intros x Hx. apply Hown. rewrite !elem_of_app in Hx. rewrite elem_of_cons, elem_of_app.
      rewrite list_elem_of_singleton in Hx. tauto.
  + intros x r _ Hal Hs. split; [by apply Hfa|done].
Qed.

(** Another one is deleted. *)
Lemma reclaim_free_ok o set left_list l1 l2 nx :
  pc th = BrLoop (Some o) set left_list -> objs (mem s) !! o = Some nx -> oseg (objs (mem s)) nx l1 None ->
  dll (objs (mem s)) left_list l2 None -> (forall x, x ∈ l2 -> Some x ∈ set) -> NoDup (o :: l1 ++ l2) ->
  (forall x, x ∈ o :: l1 ++ l2 -> own x = Busy t) ->
  Some o ∉ set ->
  step_ok s t (Some (at_pc (BrLoop nx set left_list) th, set_objs (delete o (objs (mem s))) (mem s))).
Proof.
  intros E Ho Hs1 Hd2 Hset Hbnd Hown Hnin'.
  pose proof (t_pc _ _ _ _ _ _ Ht) as Hpc. rewrite E in Hpc. simpl in Hpc.
  destruct (t_priv _ _ _ _ _ _ Ht) as (lp & Hpr & Hpnd & Hpo). rewrite E in Hpr. simpl in Hpr.
  apply NoDup_cons in Hbnd as [Hnin Hbnd]. apply NoDup_app in Hbnd as (Hnd1 & Hdisj & Hnd2).
  pose proof Hnin as Hno. rewrite elem_of_app in Hno. assert (Hn1 : o ∉ l1) by tauto. assert (Hn2 : o ∉ l2) by tauto.
  assert (Howno : own o = Busy t) by (apply Hown; by left).
  eapply (objs_ok _ (move [o] Nowhere own) R); simpl; rewrite ?E; try done.
  + intros x t' Hne Hx. assert (x <> o) by (intros ->; destruct Hx; congruence).
    rewrite move_out by (by rewrite list_elem_of_singleton). by rewrite lookup_delete_ne.
  + intros x t' Hne Hx. unfold move in Hx. by case_decide.
  + eapply oseg_frame; [|apply (g_R _ _ _ _ _ Hg)]. intros x Hx%(g_Rown _ _ _ _ _ Hg). apply lookup_delete_ne. congruence.
  + apply (g_Rnd _ _ _ _ _ Hg).
  + intros x Hx%(g_Rown _ _ _ _ _ Hg). rewrite move_out; [done|]. rewrite list_elem_of_singleton. congruence.
  + intros k x Hx%(g_src _ _ _ _ _ Hg). rewrite move_out; [done|]. rewrite list_elem_of_singleton. congruence.
  + intros x Hx. unfold move in Hx. case_decide as Hxo; [done|]. rewrite list_elem_of_singleton in Hxo.
    rewrite lookup_delete_ne by done. by apply alive_of_own.
  + exists lp. split_and!; [|done|].
    * eapply dll_frame; [|done]. intros x Hx%Hpo. apply lookup_delete_ne. congruence.
    * intros x Hx%Hpo. rewrite move_out; [done|]. rewrite list_elem_of_singleton. congruence.
  + exists (l1 ++ l2). split_and!.
    * exists l1, l2. split_and!; [done| | |done].
      -- eapply oseg_frame; [|done]. intros x Hx. apply lookup_delete_ne. by intros ->.
      -- eapply dll_frame; [|done]. intros x Hx. apply lookup_delete_ne. by intros ->.
    * by apply NoDup_app.
    * intros x Hx. rewrite move_out; [apply Hown; by right|]. rewrite list_elem_of_singleton. by intros ->.
  + intros x r _ Hal Hs. assert (x <> o) by (intros ->; by apply Hnin', Hs).
    rewrite lookup_delete_ne by done. split; [done|]. intros Hx. apply Hs.
    rewrite move_out in Hx; [done|]. by rewrite list_elem_of_singleton.
Qed.

Lemma reclaim_one_ok o set left_list : pc th = BrLoop (Some o) set left_list -> step_ok s t (reclaim_step th (mem s)).
Proof.
  intros E. destruct (reclaim_split o set left_list E) as (l1 & l2 & nx & Ho & Hs1 & Hd2 & Hset & Hnd & Hown).
  unfold reclaim_step. rewrite E, Ho. destruct (decide (Some o ∈ set)) as [Hin|Hin].
  - by apply (reclaim_keep_ok o set left_list l1 l2 nx).
  - by apply (reclaim_free_ok o set left_list l1 l2 nx).
Qed.

Lemma reclaim_ok : step_ok s t (reclaim_step th (mem s)).
Proof.
  destruct (pc th) eqn:E; try (unfold reclaim_step; rewrite E; apply idle_ok; [by exists own, rown, L, R|done]).
  - by apply exchange_list_ok.
  - by eapply scan_head_ok.
  - by eapply scan_record_ok.
  - destruct p as [o|]; [by eapply reclaim_one_ok|by eapply reclaim_end_ok].
Qed.

(** * The client's exchange of a source pointer *)

Lemma unlink_ok k new m' own0 :
  pc th = Idle ->
  (forall o, new = Some o -> objs (mem s) !! o = None) ->
  own0 = move (option_list new) (InSrc k) (move (option_list (src (mem s) !! k)) (Busy t) own) ->
  recs m' = recs (mem s) -> _hazptr_list m' = _hazptr_list (mem s) -> _retired_list m' = _retired_list (mem s) ->
  (forall k', src m' !! k' = if decide (k' = k) then new else src (mem s) !! k') ->
  (forall o, objs m' !! o = if decide (new = Some o) then Some None else objs (mem s) !! o) ->
  step_ok s t (Some (at_pc (match src (mem s) !! k with Some o => RtPush o | None => Idle end) th, m')).
Proof.
  intros E Hfresh Hown' Er Eh El Es Eo.
  destruct (t_priv _ _ _ _ _ _ Ht) as (lp & Hpr & Hpnd & Hpo). rewrite E in Hpr. simpl in Hpr.
  assert (Hnew : forall o, new = Some o -> own o = Nowhere).
  { intros o Ho%Hfresh. destruct (own o) eqn:Eow; [done|..];
      (destruct (alive_of_own o) as [x Hx]; [congruence|congruence]). }
  assert (Hin : forall o, o ∈ option_list new <-> new = Some o)
    by (intros o; apply in_option_list).
  assert (Hold : forall o, o ∈ option_list (src (mem s) !! k) <-> src (mem s) !! k = Some o)
    by (intros o; apply in_option_list).
  assert (Hkeep : forall o, own o <> Nowhere -> own o <> InSrc k -> own0 o = own o /\ objs m' !! o = objs (mem s) !! o).
  { intros o Hn Hk. assert (new <> Some o) by (intros ?%Hnew; done). rewrite Eo, decide_False by done. subst own0.
    rewrite !move_out; [done|rewrite Hold; intros ?%(g_src _ _ _ _ _ Hg); done|by rewrite Hin]. }
  assert (Hsrck : forall k' o, src (mem s) !! k' = Some o -> k' <> k -> own0 o = InSrc k').
  { intros k' o Hk' Hne. pose proof (g_src _ _ _ _ _ Hg _ _ Hk') as Ho.
    destruct (Hkeep o) as [-> _]; congruence. }
  assert (Hal : forall o, is_Some (objs (mem s) !! o) -> is_Some (objs m' !! o)).
  { intros o Ho. rewrite Eo. case_decide; [by eexists|done]. }
  eapply (objs_ok m' own0 R); simpl; rewrite ?E, ?Er, ?Eh, ?El; try done.
  - intros o t' _ Ho. apply Hkeep; destruct Ho; congruence.
  - intros o t' Hne Ho. subst own0. unfold move in Ho. repeat case_decide; congruence.
  - eapply oseg_frame; [|apply (g_R _ _ _ _ _ Hg)]. intros o Ho%(g_Rown _ _ _ _ _ Hg). apply Hkeep; congruence.
  - apply (g_Rnd _ _ _ _ _ Hg).
  - intros o Ho%(g_Rown _ _ _ _ _ Hg). destruct (Hkeep o) as [-> _]; congruence.
  - intros k' o. rewrite Es. destruct (decide (k' = k)) as [->|Hne]; [|intros Ho; by apply Hsrck].
    intros Ho. subst own0. rewrite move_in; [done|by apply Hin].
  - intros o Ho. rewrite Eo. case_decide as Hd; [by eexists|]. subst own0. rewrite move_out in Ho by (by rewrite Hin).
    apply alive_of_own. unfold move in Ho. case_decide as Hd'; [|done]. apply Hold in Hd'.
    by rewrite (g_src _ _ _ _ _ Hg _ _ Hd').
  - exists lp. split_and!; [|done|].
    + assert (dll (objs m') (priv_list th) lp None); [|by destruct (src (mem s) !! k)].
      eapply dll_frame; [|done]. intros o Ho%Hpo. apply Hkeep; congruence.
    + intros o Ho%Hpo. destruct (Hkeep o) as [-> _]; congruence.
  - exists (option_list (src (mem s) !! k)). destruct (src (mem s) !! k) as [o|] eqn:Ek; simpl.
    + split_and!; [done|apply NoDup_singleton|]. intros x ->%list_elem_of_singleton.
      subst own0. rewrite move_out, move_in; [done|by left|]. rewrite Hin. intros Hx%Hnew.
      pose proof (g_src _ _ _ _ _ Hg _ _ Ek). congruence.
    + split_and!; [done|apply NoDup_nil_2|by intros ? ?%elem_of_nil].
  - by destruct (src (mem s) !! k).
  - intros o r _ Ho _. split; [by apply Hal|]. by destruct (src (mem s) !! k).
Qed.

Lemma exchange_ok k new : pc th = Idle -> step_ok s t (start_step (Exchange k new) th (mem s)).
Proof.
  intros E. assert (Hi : inv s) by by exists own, rown, L, R. simpl. destruct new as [o|].
  - destruct (objs (mem s) !! o) eqn:Eo; [by apply idle_ok|].
    eapply (unlink_ok k (Some o)); simpl; try done; [congruence|..].
    + intros k'. destruct (decide (k' = k)) as [->|]; [by rewrite lookup_insert_eq|by rewrite lookup_insert_ne].
    + intros x. case_decide; [simplify_eq; by rewrite lookup_insert_eq|rewrite lookup_insert_ne; congruence].
  - eapply (unlink_ok k None); simpl; try done.
    intros k'. destruct (decide (k' = k)) as [->|]; [by rewrite lookup_delete_eq|by rewrite lookup_delete_ne].
Qed.

Lemma start_ok a : pc th = Idle -> step_ok s t (start_step a th (mem s)).
Proof.
  intros E. assert (Hi : inv s) by by exists own, rown, L, R.
  assert (Hidle : step_ok s t (Some (th, mem s))) by by apply idle_ok.
  destruct a; try (by apply exchange_ok); simpl; unfold private_exit; try done; try (case_match eqn:Eh; [|done]).
  - destruct (holders th !! i) eqn:Eh; [done|]. apply at_pc_ok; rewrite ?E; try done; [apply acquire_at_plain|].
    apply acquire_at_ok; [|done]. intros r Hr. pose proof (g_L _ _ _ _ _ Hg) as HL. rewrite Hr in HL.
    destruct L; simpl in HL; [done|]. destruct HL as ([= <-] & _). by left.
  - apply store_holder_ok; rewrite ?E; try done. intros m' _. simpl. by rewrite lookup_insert_eq.
  - pose proof (store_holder_ok i h p Idle) as Hst. unfold at_pc in Hst. simpl in Hst. rewrite <-E in Hst.
    apply Hst; rewrite ?E; done.
  - case_match; [|done]. by apply swap_ok.
  - apply at_pc_ok; rewrite ?E; try done. simpl. by rewrite Eh.
  - apply at_pc_ok; rewrite ?E; try done. simpl. by rewrite Eh.
  - destruct h as [r [o|]]; [|done]. 
    destruct (i_p _ _ _ _ _ HI t th r o Hth) as [[x ->] _]; [by exists i|done].
  - wz_bool. apply to_append_ok; rewrite ?E; try done.
Qed.

Lemma tstep_ok a : step_ok s t (tstep a th (mem s)).
Proof.
  assert (Hidle : step_ok s t (Some (th, mem s))) by (apply idle_ok; [by exists own, rown, L, R|done]).
  assert (Hgo : forall fail, step_ok s t (go_step fail th (mem s))).
  { intros fail. unfold go_step. destruct (pc th) eqn:E; try done;
      auto using acquire_ok, protect_ok, release_ok, retire_ok, append_ok, try_reclaim_ok, reclaim_ok. }
  unfold tstep. destruct (pc th) eqn:E; [by apply start_ok|..]; destruct a; try done; apply Hgo.
Qed.

End steps.

(** Every step of every thread is defined and keeps the invariant. *)
Lemma step_inv s t a : inv s -> exists s', step t a s = Some s' /\ inv s'.
Proof.
  intros (own & rown & L & R & HI). unfold step. destruct (threads s !! t) as [th|] eqn:Hth.
  - destruct (tstep_ok s own rown L R t th HI Hth a) as (th' & m' & -> & ?). by eexists.
  - exists s. split; [done|]. by exists own, rown, L, R.
Qed.

Lemma init_inv n : inv (state0 n).
Proof.
  exists (fun _ => Nowhere), (fun _ => None), [], []. split.
  - split; try done; try apply NoDup_nil_2. by intros ? ?%elem_of_nil.
  - intros t th Hl. simpl in Hl. apply lookup_replicate in Hl as [-> _]. split; try done.
    + exists []. split_and!; [apply dll_empty_ok|apply NoDup_nil_2|by intros ? ?%elem_of_nil].
    + exists []. split_and!; [done|apply NoDup_nil_2|by intros ? ?%elem_of_nil].
  - intros t th r o Hl [i Hi]. simpl in Hl. apply lookup_replicate in Hl as [-> _]. done.
Qed.

Lemma hz_run_inv sched s : inv s -> exists s', run sched s = Some s' /\ inv s'.
Proof.
  revert s. induction sched as [|[t a] sched IH]; intros s Hi; simpl; [by exists s|].
  destruct (step_inv s t a Hi) as (s' & -> & Hi'). by apply IH.
Qed.

(** * A thread running alone finishes its operation *)

Definition finishes (t : nat) (s : State) : Prop :=
  exists n s' th', run (replicate n (t, Go)) s = Some s' /\ threads s' !! t = Some th' /\ pc th' = Idle.

Lemma hz_finishes_idle t s th : threads s !! t = Some th -> pc th = Idle -> finishes t s.
Proof. intros. by exists 0%nat, s, th. Qed.

Lemma go_next s t th :
  inv s -> threads s !! t = Some th -> pc th <> Idle ->
  exists th' m', go_step false th (mem s) = Some (th', m') /\
    inv (mkState m' (<[t := th']> (threads s))) /\
    <[t := th']> (threads s) !! t = Some th' /\
    (finishes t (mkState m' (<[t := th']> (threads s))) -> finishes t s).
Proof.
  intros (own & rown & L & R & HI) Hth Hpc.
  destruct (tstep_ok s own rown L R t th HI Hth Go) as (th' & m' & E & Hi).
  assert (Ego : go_step false th (mem s) = Some (th', m')) by (unfold tstep in E; by destruct (pc th)).
  exists th', m'. split_and!; [done|done|apply list_lookup_insert_eq; by eapply lookup_lt_Some|].
  intros (n & s' & th2 & Hrun & ? & ?). exists (S n), s', th2. simpl. unfold step. rewrite Hth, E. done.
Qed.

(** One step of thread [t] whose result is computed from its program counter [E]. *)
Ltac hz_go Hi Hth E :=
  let th' := fresh "th" in let m' := fresh "m" in let Hgo := fresh "Hgo" in
  let Hi' := fresh "Hi" in let Hth' := fresh "Hth" in let Hf := fresh "Hf" in
  destruct (go_next _ _ _ Hi Hth) as (th' & m' & Hgo & Hi' & Hth' & Hf); [by rewrite E|];
  unfold go_step in Hgo; rewrite E in Hgo;
  unfold acquire_step, protect_step, release_step, retire_step, append_step, after_append, try_reclaim_step, reclaim_step in Hgo;
  rewrite E in Hgo; apply Hf; clear Hf.

Lemma append_false_finishes s t th dl :
  inv s -> threads s !! t = Some th ->
  (exists q, pc th = ApCas false dl q) \/ pc th = ApLoad false dl \/ pc th = ApAdd false dl -> finishes t s.
Proof.
  assert (Hadd : forall s th, inv s -> threads s !! t = Some th -> pc th = ApAdd false dl -> finishes t s).
  { intros s0 th0 Hi0 Hth0 E. hz_go Hi0 Hth0 E. simplify_eq. by eapply hz_finishes_idle. }
  assert (Hcas : forall s th, inv s -> threads s !! t = Some th -> pc th = ApCas false dl (_retired_list (mem s)) -> finishes t s).
  { intros s0 th0 Hi0 Hth0 E. hz_go Hi0 Hth0 E. rewrite bool_decide_true in Hgo by done. simplify_eq/=. by eapply Hadd. }
  intros Hi Hth [[q E]|[E|E]]; [| |by eapply Hadd]; hz_go Hi Hth E; wz_run.
  - destruct (bool_decide _); simplify_eq/=; [by eapply Hadd|]. wz_run. by eapply Hcas.
  - by eapply Hcas.
Qed.

Lemma reclaim_loop_finishes t set l : forall s th p left_list,
  inv s -> threads s !! t = Some th -> pc th = BrLoop p set left_list -> oseg (objs (mem s)) p l None -> finishes t s.
Proof.
  induction l as [|o l IH]; intros s th p left_list Hi Hth E Hs; simpl in Hs.
  - subst p. hz_go Hi Hth E. case_match; simplify_eq.
    + eapply append_false_finishes; eauto.
    + by eapply hz_finishes_idle.
  - destruct Hs as (-> & nx & Ho & Hs). pose proof Hi as (own & rown & L & R & HI).
    destruct (t_busy _ _ _ _ _ _ (i_t _ _ _ _ _ HI _ _ Hth)) as (lb & Hb & Hnd & Hbo). rewrite E in Hb.
    destruct Hb as (l1 & l2 & -> & Hs1 & Hd2 & _).
    assert (l1 = o :: l) as ->.
    { eapply (oseg_det (objs (mem s)) (Some o)); [done|]. simpl. eauto. }
    simpl in Hnd. apply NoDup_cons in Hnd as [Hnin (_ & Hdis & Hnd2)%NoDup_app].
    assert (Hrest : forall f, (forall x, x <> o -> x ∉ l2 -> f !! x = objs (mem s) !! x) -> oseg f nx l None).
    { intros f Hf. eapply oseg_frame; [|done]. intros x Hx. apply Hf; [|by apply Hdis].
      intros ->. apply Hnin, elem_of_app. by left. }
    hz_go Hi Hth E. rewrite Ho in Hgo. case_decide.
    + destruct (dll_push_ok (objs (mem s)) left_list l2 o) as (dl' & f' & Hpush & _ & Hf & _); [done|done| |by eexists|].
      { intros Hin. apply Hnin, elem_of_app. by right. }
      rewrite Hpush in Hgo. simplify_eq/=. eapply IH; [done|done|done|]. by apply Hrest.
    + simplify_eq. eapply IH; [done|done|done|]. apply Hrest. intros x ? _. by apply lookup_delete_ne.
Qed.

Lemma reclaim_scan_finishes t p l : forall s th h set,
  inv s -> threads s !! t = Some th -> pc th = BrScan p h set -> rchain (recs (mem s)) h l -> finishes t s.
Proof.
  induction l as [|r l IH]; intros s th h set Hi Hth E Hc; simpl in Hc.
  - subst h. pose proof Hi as (own & rown & L & R & HI).
    destruct (t_busy _ _ _ _ _ _ (i_t _ _ _ _ _ HI _ _ Hth)) as (lb & Hb & _). rewrite E in Hb.
    hz_go Hi Hth E. simplify_eq. by eapply reclaim_loop_finishes.
  - destruct Hc as (-> & rc & Hr & Hc). hz_go Hi Hth E. rewrite Hr in Hgo. simplify_eq. by eapply IH.
Qed.

Lemma reclaim_finishes s t th : inv s -> threads s !! t = Some th -> pc th = BrXchg \/ (exists p, pc th = BrHead p) -> finishes t s.
Proof.
  assert (Hhead : forall s th p, inv s -> threads s !! t = Some th -> pc th = BrHead p -> finishes t s).
  { intros s0 th0 p Hi0 Hth0 E. pose proof Hi0 as (own & rown & L & R & HI). hz_go Hi0 Hth0 E. simplify_eq.
    eapply reclaim_scan_finishes; [done|done|done|]. apply (g_L _ _ _ _ _ (i_g _ _ _ _ _ HI)). }
  intros Hi Hth [E|[p E]]; [|by eapply Hhead]. hz_go Hi Hth E. simplify_eq. by eapply Hhead.
Qed.

Lemma try_reclaim_finishes s t th :
  inv s -> threads s !! t = Some th -> pc th = TbLoad \/ (exists z, pc th = TbCheck z \/ pc th = TbCas z) -> finishes t s.
Proof.
  assert (Hcas : forall s th, inv s -> threads s !! t = Some th -> pc th = TbCas (_retired_count (mem s)) -> finishes t s).
  { intros s0 th0 Hi0 Hth0 E. hz_go Hi0 Hth0 E. rewrite Z.eqb_refl in Hgo. simplify_eq/=.
    eapply reclaim_finishes; eauto. }
  assert (Hchk : forall s th, inv s -> threads s !! t = Some th -> pc th = TbCheck (_retired_count (mem s)) -> finishes t s).
  { intros s0 th0 Hi0 Hth0 E. hz_go Hi0 Hth0 E. case_match; simplify_eq; [by eapply hz_finishes_idle|by eapply Hcas]. }
  assert (Hcas' : forall s th z, inv s -> threads s !! t = Some th -> pc th = TbCas z -> finishes t s).
  { intros s0 th0 z Hi0 Hth0 E. hz_go Hi0 Hth0 E. case_match; simplify_eq; [eapply reclaim_finishes; eauto|by eapply Hchk]. }
  intros Hi Hth [E|[z [E|E]]]; [| |by eapply Hcas']; hz_go Hi Hth E; simplify_eq; [by eapply Hchk|].
  case_match; simplify_eq; [by eapply hz_finishes_idle|by eapply Hcas'].
Qed.

Lemma append_true_finishes s t th dl :
  inv s -> threads s !! t = Some th ->
  (exists q, pc th = ApCas true dl q) \/ pc th = ApLoad true dl \/ pc th = ApAdd true dl -> finishes t s.
Proof.
  assert (Hadd : forall s th, inv s -> threads s !! t = Some th -> pc th = ApAdd true dl -> finishes t s).
  { intros s0 th0 Hi0 Hth0 E. hz_go Hi0 Hth0 E. simplify_eq. eapply try_reclaim_finishes; [done|done|by left]. }
  assert (Hcas : forall s th, inv s -> threads s !! t = Some th -> pc th = ApCas true dl (_retired_list (mem s)) -> finishes t s).
  { intros s0 th0 Hi0 Hth0 E. hz_go Hi0 Hth0 E. rewrite bool_decide_true in Hgo by done. simplify_eq/=. by eapply Hadd. }
  intros Hi Hth [[q E]|[E|E]]; [| |by eapply Hadd]; hz_go Hi Hth E; wz_run.
  - destruct (bool_decide _); simplify_eq/=; [by eapply Hadd|]. wz_run. by eapply Hcas.
  - by eapply Hcas.
Qed.

Lemma push_finishes s t th i r :
  inv s -> threads s !! t = Some th -> pc th = AqLoad i r \/ pc th = AqPush i r \/ pc th = AqCount i r -> finishes t s.
Proof.
  assert (Hcount : forall s th, inv s -> threads s !! t = Some th -> pc th = AqCount i r -> finishes t s).
  { intros s0 th0 Hi0 Hth0 E. hz_go Hi0 Hth0 E. simplify_eq. by eapply hz_finishes_idle. }
  assert (Hpush : forall s th rc, inv s -> threads s !! t = Some th -> pc th = AqPush i r ->
    recs (mem s) !! r = Some rc -> r_next rc = _hazptr_list (mem s) -> finishes t s).
  { intros s0 th0 rc Hi0 Hth0 E Hr Hn. hz_go Hi0 Hth0 E. rewrite Hr, bool_decide_true in Hgo by done.
    simplify_eq/=. by eapply Hcount. }
  assert (Hstore : forall q m m', store_next r q m = Some m' -> _hazptr_list m' = _hazptr_list m /\
    exists rc, recs m' !! r = Some rc /\ r_next rc = q).
  { unfold store_next. intros q m m' Hst. wz_run. split; [done|]. simpl.
    eexists. rewrite lookup_insert_eq. done. }
  intros Hi Hth [E|[E|E]]; [| |by eapply Hcount]; hz_go Hi Hth E; wz_run.
  - destruct (Hstore _ _ _ Heqo) as (Hl & rc & ? & ?). eapply Hpush; simpl; eauto. congruence.
  - destruct (bool_decide _); simplify_eq/=; [by eapply Hcount|]. wz_run.
    destruct (Hstore _ _ _ Heqo0) as (Hl & rc & ? & ?). eapply Hpush; simpl; eauto. congruence.
Qed.

Lemma new_finishes s t th i : inv s -> threads s !! t = Some th -> pc th = AqNew i -> finishes t s.
Proof. intros Hi Hth E. hz_go Hi Hth E. simplify_eq. eapply push_finishes; eauto. Qed.

Lemma acquire_finishes t i l : forall s th r,
  inv s -> threads s !! t = Some th -> rchain (recs (mem s)) (Some r) l ->
  pc th = AqScan i r \/ pc th = AqCas i r -> finishes t s.
Proof.
  induction l as [|x l IH]; intros s th r Hi Hth Hc Hpc; simpl in Hc; [done|].
  destruct Hc as ([= <-] & rc & Hr & Hc).
  assert (Hnext : forall s1 th1, inv s1 -> threads s1 !! t = Some th1 -> recs (mem s1) = recs (mem s) ->
    pc th1 = acquire_at i (r_next rc) -> finishes t s1).
  { intros s1 th1 Hi1 Hth1 Hm E. destruct (r_next rc) as [r'|] eqn:En; [|by eapply new_finishes].
    eapply IH; [done|done|by rewrite Hm|by left]. }
  assert (Hcas : forall s1 th1, inv s1 -> threads s1 !! t = Some th1 -> recs (mem s1) = recs (mem s) ->
    pc th1 = AqCas i r -> finishes t s1).
  { intros s1 th1 Hi1 Hth1 Hm E. hz_go Hi1 Hth1 E. rewrite Hm, Hr in Hgo. case_match; wz_run; [by eapply Hnext|].
    by eapply hz_finishes_idle. }
  destruct Hpc as [E|E]; [|by eapply Hcas]. hz_go Hi Hth E. rewrite Hr in Hgo.
  case_match; simplify_eq; [by eapply Hnext|by eapply Hcas].
Qed.

Lemma store_realptr_src r p m m' : store_realptr r p m = Some m' -> src m' = src m.
Proof. unfold store_realptr. intros H. by wz_run. Qed.

Lemma protect_finishes s t th i k p again :
  inv s -> threads s !! t = Some th ->
  pc th = TpStore i k p again \/ pc th = TpLoad i k p again \/ pc th = TpClear i k p again -> finishes t s.
Proof.
  assert (Hload : forall s th, inv s -> threads s !! t = Some th -> pc th = TpLoad i k (src (mem s) !! k) again -> finishes t s).
  { intros s0 th0 Hi0 Hth0 E. hz_go Hi0 Hth0 E. wz_run. rewrite decide_True in Hgo by done. simplify_eq.
    by eapply hz_finishes_idle. }
  assert (Hstore : forall s th, inv s -> threads s !! t = Some th -> pc th = TpStore i k (src (mem s) !! k) again -> finishes t s).
  { intros s0 th0 Hi0 Hth0 E. hz_go Hi0 Hth0 E. wz_run. eapply Hload; [done|done|]. simpl.
    match goal with H : store_realptr _ _ _ = Some _ |- _ => by rewrite (store_realptr_src _ _ _ _ H) end. }
  assert (Hclear : forall s th, inv s -> threads s !! t = Some th -> pc th = TpClear i k (src (mem s) !! k) again -> finishes t s).
  { intros s0 th0 Hi0 Hth0 E. hz_go Hi0 Hth0 E. wz_run. destruct again; [|by eapply hz_finishes_idle].
    eapply Hstore; [done|done|]. simpl.
    match goal with H : store_realptr _ _ _ = Some _ |- _ => by rewrite (store_realptr_src _ _ _ _ H) end. }
  assert (Hload' : forall s th q, inv s -> threads s !! t = Some th -> pc th = TpLoad i k q again -> finishes t s).
  { intros s0 th0 q Hi0 Hth0 E. hz_go Hi0 Hth0 E. wz_run. case_decide; simplify_eq; [by eapply hz_finishes_idle|by eapply Hclear]. }
  assert (Hstore' : forall s th q, inv s -> threads s !! t = Some th -> pc th = TpStore i k q again -> finishes t s).
  { intros s0 th0 q Hi0 Hth0 E. hz_go Hi0 Hth0 E. wz_run. by eapply Hload'. }
  intros Hi Hth [E|[E|E]]; [by eapply Hstore'|by eapply Hload'|]. hz_go Hi Hth E. wz_run.
  destruct again; [by eapply Hstore'|by eapply hz_finishes_idle].
Qed.

Lemma rchain_from f p l r : rchain f p l -> r ∈ l -> exists l', rchain f (Some r) l'.
Proof.
  revert p. induction l as [|x l IH]; simpl; [by intros ? _ ?%elem_of_nil|].
  intros p (-> & rc & Hr & Hl) [->|Hin]%elem_of_cons; [|by eapply IH].
  exists (x :: l). simpl. eauto.
Qed.

Lemma thread_finishes s t th : inv s -> threads s !! t = Some th -> finishes t s.
Proof.
  intros Hi Hth. pose proof Hi as (own & rown & L & R & HI).
  pose proof (t_pc _ _ _ _ _ _ (i_t _ _ _ _ _ HI _ _ Hth)) as Hpc.
  assert (Haq : forall i r, pc th = AqScan i r \/ pc th = AqCas i r -> finishes t s).
  { intros i r E. assert (HrL : r ∈ L) by (by destruct E as [E|E]; rewrite E in Hpc; destruct Hpc).
    destruct (rchain_from _ _ _ _ (g_L _ _ _ _ _ (i_g _ _ _ _ _ HI)) HrL) as [l' Hl']. by eapply acquire_finishes. }
  pose proof (t_busy _ _ _ _ _ _ (i_t _ _ _ _ _ HI _ _ Hth)) as (lb & Hb & _).
  assert (Hap : forall s1 th1, inv s1 -> threads s1 !! t = Some th1 -> pc th1 = RtThreshold -> finishes t s1).
  { intros s1 th1 Hi1 Hth1 E. hz_go Hi1 Hth1 E. case_match; simplify_eq; [|by eapply hz_finishes_idle].
    eapply append_true_finishes; [done|done|right; left; done]. }
  destruct (pc th) eqn:E; try rewrite E in Hb.
  all: try (by eapply Haq; eauto).
  all: try (by eapply hz_finishes_idle).
  all: try (by eapply push_finishes; eauto).
  all: try (by eapply protect_finishes; eauto).
  all: try (by destruct priv; [eapply append_true_finishes|eapply append_false_finishes]; eauto).
  all: try (by eapply try_reclaim_finishes; eauto).
  all: try (by eapply reclaim_finishes; eauto).
  - by eapply new_finishes.
  - hz_go Hi Hth E. wz_run. by eapply hz_finishes_idle.
  - hz_go Hi Hth E. wz_run. by eapply Hap.
  - by eapply Hap.
  - destruct Hpc as (l & Hc & _). by eapply reclaim_scan_finishes.
  - destruct Hb as (l1 & l2 & _ & Hs & _). by eapply reclaim_loop_finishes.
Qed.

(** * The manager's destructor *)

(** [for (; p != nullptr; p = next) { next = p->next; delete p; }], with fuel. *)
Fixpoint delete_objs (fuel : nat) (p : ptr) (f : gmap nat ptr) : option (gmap nat ptr) :=
  match p with
  | None => Some f
  | Some o =>
      match fuel with
      | O => None
      | S fuel => next <-? f !! o; delete_objs fuel next (delete o f)
      end
  end.

Fixpoint delete_recs (fuel : nat) (p : ptr) (f : gmap nat HazptrRecord) : option (gmap nat HazptrRecord) :=
  match p with
  | None => Some f
  | Some r =>
      match fuel with
      | O => None
      | S fuel => rc <-? f !! r; delete_recs fuel (r_next rc) (delete r f)
      end
  end.

(** [~HazptrManager]: the outer loop finds the list empty the second time, since nobody
    else runs. The fuel is the number of allocated blocks. *)
Definition HazptrManager_dtor (m : Mem) : option Mem :=
  o <-? delete_objs (size (objs m)) (_retired_list m) (objs m);
  f <-? delete_recs (size (recs m)) (_hazptr_list m) (recs m);
  Some (set_recs f (set_objs o (set_retired_list None m))).

(** [HazptrManager::reset] forgets the lists without freeing them. *)
Definition HazptrManager_reset (m : Mem) : Mem :=
  mkMem (recs m) (objs m) (src m) None None 0 0.

Lemma delete_objs_ok f p l : oseg f p l None -> NoDup l -> forall fuel, (length l <= fuel)%nat ->
  exists f', delete_objs fuel p f = Some f' /\ (forall o, o ∈ l -> f' !! o = None) /\ (forall o, o ∉ l -> f' !! o = f !! o).
Proof.
  revert f p. induction l as [|o l IH]; simpl; intros f p Hs Hnd fuel Hf.
  - subst p. exists f. split_and!; [by destruct fuel|by intros ? ?%elem_of_nil|done].
  - destruct Hs as (-> & nx & Ho & Hs), fuel as [|fuel]; [lia|]. simpl. rewrite Ho.
    apply NoDup_cons in Hnd as [Hno Hnd].
    destruct (IH (delete o f) nx) with (fuel := fuel) as (f' & -> & Hin & Hout); [|done|lia|].
    { eapply oseg_frame; [|done]. intros x Hx. apply lookup_delete_ne. congruence. }
    exists f'. split_and!; [done| |].
    + intros x [->|Hx]%elem_of_cons; [|by apply Hin]. rewrite Hout by done. apply lookup_delete_eq.
    + intros x [Hxo Hx]%not_elem_of_cons. rewrite Hout by done. by apply lookup_delete_ne.
Qed.

Lemma delete_recs_ok f p l : rchain f p l -> NoDup l -> forall fuel, (length l <= fuel)%nat ->
  exists f', delete_recs fuel p f = Some f' /\ (forall o, o ∈ l -> f' !! o = None) /\ (forall o, o ∉ l -> f' !! o = f !! o).
Proof.
  revert f p. induction l as [|o l IH]; simpl; intros f p Hs Hnd fuel Hf.
  - subst p. exists f. split_and!; [by destruct fuel|by intros ? ?%elem_of_nil|done].
  - destruct Hs as (-> & rc & Ho & Hs), fuel as [|fuel]; [lia|]. simpl. rewrite Ho.
    apply NoDup_cons in Hnd as [Hno Hnd].
    destruct (IH (delete o f) (r_next rc)) with (fuel := fuel) as (f' & -> & Hin & Hout); [|done|lia|].
    { eapply rchain_frame; [|done]. intros x rc' Hx Hr. exists rc'. rewrite lookup_delete_ne; [done|congruence]. }
    exists f'. split_and!; [done| |].
    + intros x [->|Hx]%elem_of_cons; [|by apply Hin]. rewrite Hout by done. apply lookup_delete_eq.
    + intros x [Hxo Hx]%not_elem_of_cons. rewrite Hout by done. by apply lookup_delete_ne.
Qed.

Lemma length_le_size {A} (f : gmap nat A) l : NoDup l -> (forall x, x ∈ l -> is_Some (f !! x)) -> (length l <= size f)%nat.
Proof.
  intros Hnd Hl. rewrite <-size_dom. rewrite <-(size_list_to_set (C := gset nat)) by done.
  apply subseteq_size. intros x Hx%elem_of_list_to_set. by apply elem_of_dom, Hl.
Qed.

(** The destructor, run when the threads have ended, deletes every object and every record
    of its lists once. *)
Lemma manager_dtor_ok s own rown L R : Inv s own rown L R ->
  exists m', HazptrManager_dtor (mem s) = Some m' /\
    (forall o, o ∈ R -> objs m' !! o = None) /\ (forall o, o ∉ R -> objs m' !! o = objs (mem s) !! o) /\
    (forall r, r ∈ L -> recs m' !! r = None).
Proof.
  intros [[] _ _]. unfold HazptrManager_dtor.
  destruct (delete_objs_ok _ _ _ g_R0 g_Rnd0 (size (objs (mem s)))) as (f & -> & ? & ?).
  { apply length_le_size; [done|]. intros x Hx. by eapply oseg_alloc. }
  destruct (delete_recs_ok _ _ _ g_L0 g_Lnd0 (size (recs (mem s)))) as (f' & -> & ? & ?).
  { apply length_le_size; [done|]. intros x Hx. by eapply rchain_alloc. }
  eexists. split_and!; [done|..]; done.
Qed.

(** * The thread-local cache of records *)

(** [HazptrPool]: used when [USE_THREAD_LOCAL_CACHE] is set. *)
Record HazptrPool := mkPool { _available_cnt : Z; _record_cache : list nat }.

Definition HazptrPool_new (garbage : list nat) : HazptrPool := mkPool 0 garbage.

Definition get_from_pool (p : HazptrPool) : option (ptr * HazptrPool) :=
  if _available_cnt p =? 0 then Some (None, p)
  else let c := _available_cnt p - 1 in
       r <-? _record_cache p !! Z.to_nat c;
       Some (Some r, mkPool c (_record_cache p)).

Definition release_to_pool (r : nat) (p : HazptrPool) : HazptrPool :=
  if _available_cnt p <? RECORD_CACHE_SIZE
  then mkPool (_available_cnt p + 1) (<[Z.to_nat (_available_cnt p) := r]> (_record_cache p))
  else p.

Definition HazptrPool_reset (p : HazptrPool) : HazptrPool := mkPool 0 (_record_cache p).

(** [~HazptrPool]: the cached records become available to every thread. *)
Definition HazptrPool_dtor (p : HazptrPool) (m : Mem) : option Mem :=
  foldl (fun m r => m <-? m; store_active r false m) (Some m)
    (take (Z.to_nat (_available_cnt p)) (_record_cache p)).

(** The cached records, the last released first. *)
Definition pool_contents (p : HazptrPool) : list nat := rev (take (Z.to_nat (_available_cnt p)) (_record_cache p)).

(** [HazptrPrivate::reset]. *)
Definition HazptrPrivate_reset (p : HazptrPool) (l : DoubleLinkedList) : HazptrPool * DoubleLinkedList :=
  (HazptrPool_reset p, dll_clear l).

Definition pool_ok (p : HazptrPool) : Prop :=
  length (_record_cache p) = Z.to_nat RECORD_CACHE_SIZE /\ 0 <= _available_cnt p <= RECORD_CACHE_SIZE.

(** The cache is a stack of at most [RECORD_CACHE_SIZE] records; a record released to a
    full cache is neither cached nor made inactive. *)
Lemma pool_is_a_bounded_stack p r :
  pool_ok p ->
  pool_ok (release_to_pool r p) /\
  pool_contents (release_to_pool r p) =
    (if _available_cnt p <? RECORD_CACHE_SIZE then r :: pool_contents p else pool_contents p) /\
  exists p', get_from_pool p = Some (pool_contents p !! 0%nat, p') /\ pool_ok p' /\
    pool_contents p' = tl (pool_contents p).
Proof.
  intros [Hlen Hc]. unfold RECORD_CACHE_SIZE in *. destruct p as [c l]. simpl in *.
  unfold pool_ok, pool_contents, release_to_pool, get_from_pool, RECORD_CACHE_SIZE. simpl. split_and!.
  - destruct (c <? 10) eqn:E; wz_bool; simpl; [rewrite length_insert; lia|lia].
  - destruct (c <? 10) eqn:E; wz_bool; simpl; lia.
  - destruct (c <? 10) eqn:E; wz_bool; simpl; lia.
  - destruct (c <? 10) eqn:E; wz_bool; simpl; [|done].
    replace (Z.to_nat (c + 1)) with (S (Z.to_nat c)) by lia.
    rewrite (take_S_r _ _ r) by (apply list_lookup_insert_eq; lia).
    rewrite take_insert_ge by lia. by rewrite rev_app_distr.
  - destruct (c =? 0) eqn:E; wz_bool.
    + subst c. eexists. split_and!; done.
    + destruct (lookup_lt_is_Some_2 l (Z.to_nat (c - 1)) ltac:(lia)) as [x Hx]. rewrite Hx.
      replace (Z.to_nat c) with (S (Z.to_nat (c - 1))) by lia. rewrite (take_S_r _ _ x) by done.
      rewrite rev_app_distr. simpl. eexists. split_and!; [done|done|simpl; lia..|done].
Qed.

(** * What the hazard pointers guarantee *)

(** C3: Whatever the threads do, in any interleaving, no step is undefined behaviour (no
    access to a deleted object or record, no second [delete]), and an object a holder
    protects since its last successful [try_protect] is not deleted. *)
Theorem hazptr_protects n sched :
  exists s, run sched (state0 n) = Some s /\
    forall t th i r o, threads s !! t = Some th -> holders th !! i = Some (mkHolder r (Some o)) ->
      is_Some (objs (mem s) !! o).
Proof.
  destruct (hz_run_inv sched (state0 n) (init_inv n)) as (s & Hrun & own & rown & L & R & HI).
  exists s. split; [done|]. intros t th i r o Hth Hi. apply (i_p _ _ _ _ _ HI t th r o Hth). by exists i.
Qed.

Definition op (t : nat) (a : Act) (n : nat) : list (nat * Act) := (t, a) :: replicate n (t, Go).

(** Thread 0 publishes object 1 and protects it; thread 1 replaces it, and every later
    object, and retires what it replaced. *)
Definition demo : list (nat * Act) :=
  op 0 (Exchange 0 (Some 1%nat)) 0 ++ op 0 (NewHolder 0) 4 ++ op 0 (GetProtected 0 0) 2 ++
  op 1 (Exchange 0 (Some 2%nat)) 2 ++ op 1 (Exchange 0 (Some 3%nat)) 2 ++ op 1 (Exchange 0 (Some 4%nat)) 2 ++
  op 1 (Exchange 0 (Some 5%nat)) 2 ++ op 1 (Exchange 0 (Some 6%nat)) 40.

Definition demo_view (s : State) : list nat * ptr * list (option PC) :=
  ((map_to_list (objs (mem s))).*1, _retired_list (mem s), [pc <$> threads s !! 0%nat; pc <$> threads s !! 1%nat]).

(** The reclamation deletes objects 2 to 5 and keeps 1, which thread 0 protects. *)
Lemma hazptr_protects_witness :
  demo_view <$> run demo (state0 2) = Some ([6; 1]%nat, Some 1%nat, [Some Idle; Some Idle]) /\
  exists s, run demo (state0 2) = Some s /\
    forall t th i r o, threads s !! t = Some th -> holders th !! i = Some (mkHolder r (Some o)) ->
      is_Some (objs (mem s) !! o).
Proof. split; [vm_compute; reflexivity|apply (hazptr_protects 2 demo)]. Defined.

(** C17: Two live holders never share a record: a record is not handed out again before its
    holder's destructor has released it. *)
Theorem records_are_exclusive n sched s t1 t2 th1 th2 i1 i2 h1 h2 :
  run sched (state0 n) = Some s ->
  threads s !! t1 = Some th1 -> holders th1 !! i1 = Some h1 ->
  threads s !! t2 = Some th2 -> holders th2 !! i2 = Some h2 ->
  rec h1 = rec h2 -> t1 = t2 /\ i1 = i2.
Proof.
  destruct (hz_run_inv sched (state0 n) (init_inv n)) as (s' & Hrun & own & rown & L & R & HI).
  intros ? Hth1 Hh1 Hth2 Hh2 Heq. simplify_eq.
  pose proof (t_hold _ _ _ _ _ _ (i_t _ _ _ _ _ HI _ _ Hth1) _ _ Hh1) as [Ho1 _].
  pose proof (t_hold _ _ _ _ _ _ (i_t _ _ _ _ _ HI _ _ Hth2) _ _ Hh2) as [Ho2 _].
  assert (t1 = t2) as -> by congruence. simplify_eq. split; [done|].
  by eapply (t_inj _ _ _ _ _ _ (i_t _ _ _ _ _ HI _ _ Hth1)).
Qed.

(** A holder dropped and created again while another thread holds one. *)
Definition reuse : list (nat * Act) :=
  op 0 (NewHolder 0) 4 ++ op 1 (NewHolder 0) 5 ++ op 0 (DropHolder 0) 1 ++ op 0 (NewHolder 7) 3.

Lemma records_are_exclusive_witness :
  exists s th1 th2 h1 h2, run reuse (state0 2) = Some s /\ threads s !! 0%nat = Some th1 /\ holders th1 !! 7%nat = Some h1 /\
    threads s !! 1%nat = Some th2 /\ holders th2 !! 0%nat = Some h2 /\ rec h1 = 1%nat /\ size (recs (mem s)) = 2%nat /\
    (rec h1 = rec h2 -> (0 = 1)%nat /\ (7 = 0)%nat).
Proof.
  destruct (run reuse (state0 2)) as [s|] eqn:E; [|by vm_compute in E].
  assert (Es : Some s = run reuse (state0 2)) by done. vm_compute in Es. injection Es as Es.
  assert (H0 : exists th1 h1, threads s !! 0%nat = Some th1 /\ holders th1 !! 7%nat = Some h1 /\ rec h1 = 1%nat)
    by (subst s; eexists _, _; split_and!; reflexivity).
  assert (H1 : exists th2 h2, threads s !! 1%nat = Some th2 /\ holders th2 !! 0%nat = Some h2)
    by (subst s; eexists _, _; split_and!; reflexivity).
  assert (Hsz : size (recs (mem s)) = 2%nat) by (subst s; reflexivity).
  destruct H0 as (th1 & h1 & ? & ? & ?), H1 as (th2 & h2 & ? & ?).
  exists s, th1, th2, h1, h2.
  split; [reflexivity|]. repeat (split; [assumption|]).
  by apply (records_are_exclusive 2 reuse s 0 1 th1 th2).
Defined.

(** C29: A reclamation puts back at most as many objects as there are records, so the
    objects kept back by hazard pointers are bounded by the number of holders ever alive
    at once. *)
Theorem reclaim_keeps_few n sched s t th l :
  run sched (state0 n) = Some s -> threads s !! t = Some th -> pc th = ApLoad false l ->
  count l <= Z.of_nat (size (recs (mem s))).
Proof.
  destruct (hz_run_inv sched (state0 n) (init_inv n)) as (s' & Hrun & own & rown & L & R & HI).
  intros Hr Hth E. assert (s' = s) as -> by congruence. pose proof (t_pc _ _ _ _ _ _ (i_t _ _ _ _ _ HI _ _ Hth)) as Hpc.
  rewrite E in Hpc. simpl in Hpc. destruct (i_g _ _ _ _ _ HI).
  enough (length L <= size (recs (mem s)))%nat by lia.
  apply length_le_size; [done|]. intros r Hin. by eapply rchain_alloc.
Qed.

(** [demo] stopped where the reclamation puts object 1 back. *)
Definition demo_kept : list (nat * Act) := take 40 demo.

Lemma reclaim_keeps_few_witness :
  exists s th l, run demo_kept (state0 2) = Some s /\ threads s !! 1%nat = Some th /\ pc th = ApLoad false l /\
    count l = 1 /\ count l <= Z.of_nat (size (recs (mem s))).
Proof.
  destruct (run demo_kept (state0 2)) as [s|] eqn:E; [|by vm_compute in E].
  assert (Es : Some s = run demo_kept (state0 2)) by done. vm_compute in Es. injection Es as Es.
  assert (H1 : exists th l, threads s !! 1%nat = Some th /\ pc th = ApLoad false l /\ count l = 1)
    by (subst s; eexists _, _; split_and!; reflexivity).
  destruct H1 as (th & l & ? & ? & ?). exists s, th, l.
  split; [reflexivity|]. repeat (split; [assumption|]).
  by apply (reclaim_keeps_few 2 demo_kept s 1 th l).
Defined.

(** C28: Every operation ends: whatever state the threads have reached, a thread that runs
    alone from there completes the operation it is in (the retries of [get_protected], of
    the exchanges and of [tryBulkReclaim], and the loops over the lists, stop). *)
Theorem operation_finishes_alone n sched s t th :
  run sched (state0 n) = Some s -> threads s !! t = Some th ->
  exists k s' th', run (replicate k (t, Go)) s = Some s' /\ threads s' !! t = Some th' /\ pc th' = Idle.
Proof.
  destruct (hz_run_inv sched (state0 n) (init_inv n)) as (s' & Hrun & Hinv).
  intros Hr Hth. assert (s' = s) as -> by congruence. by apply (thread_finishes s t th).
Qed.

Lemma operation_finishes_alone_witness :
  exists s th, run demo_kept (state0 2) = Some s /\ threads s !! 1%nat = Some th /\ pc th <> Idle /\
    exists k s' th', run (replicate k (1%nat, Go)) s = Some s' /\ threads s' !! 1%nat = Some th' /\ pc th' = Idle.
Proof.
  destruct (run demo_kept (state0 2)) as [s|] eqn:E; [|by vm_compute in E].
  assert (Es : Some s = run demo_kept (state0 2)) by done. vm_compute in Es. injection Es as Es.
  assert (H1 : exists th, threads s !! 1%nat = Some th /\ pc th <> Idle)
    by (subst s; eexists; split_and!; [reflexivity|done]).
  destruct H1 as (th & ? & ?). exists s, th.
  split; [reflexivity|]. repeat (split; [assumption|]).
  by apply (operation_finishes_alone 2 demo_kept s 1 th).
Defined.

End Hazptr.
