(* ===== verification/Vector.v ===== *)
(** The concurrent vector of src/src/concurrent/vector.h and vector.hpp.

    Module [RetireList] is the list of retired tables with its 16-bit time tags; Module
    [Vector] is [ConcurrentVector]: the table of shards, its growth, the element accesses,
    [for_each], [fill_n] and [copy_n]. The operations are first composed sequentially and
    shown to implement an array that grows; [ensure_table] is then cut at its exchange and
    run by several threads. [None] is undefined behaviour. *)
From S2P Require Import Prelude Bits.
Local Open Scope wz.

Module RetireList.

(** * Tagged pointers *)

Definition get_ptr (tagged_ptr : Z) : Z := Z.land tagged_ptr (2 ^ 48 - 1).
Definition get_tag (tagged_ptr : Z) : Z := u16 (Z.shiftr tagged_ptr 48).
Definition make_tagged_ptr (ptr tag : Z) : Z := Z.lor ptr (u64 (Z.shiftl tag 48)).

(** * The list *)

(** [data] is the address of a retired table; [next] is an address, 0 for null. *)
Record Node := mkNode { data : nat; next : Z }.

(** The allocated nodes and [_head]. *)
Record RetireList := mkList { nodes : gmap nat Node; _head : Z }.

Definition ctor : RetireList := mkList ∅ 0.

(** [spec.tv_sec >> 6], in 16 bits. *)
Definition get_current_timestamp (tv_sec : Z) : Z := u16 (Z.shiftr tv_sec 6).

Definition expire (head now : Z) : bool := 1 <? u16 (get_tag head - now).

(** [push] of a new node, nobody else changing the head. *)
Definition push (new_node : nat) (d : nat) (now : Z) (r : RetireList) : RetireList :=
  mkList (<[new_node := mkNode d (get_ptr (_head r))]> (nodes r)) (make_tagged_ptr (Z.of_nat new_node) now).

Definition try_drop (old_head : Z) (r : RetireList) : Z * RetireList :=
  if _head r =? old_head then (get_ptr old_head, mkList (nodes r) 0) else (0, r).

(** [delete_list]: the deleter is applied to the data in this order. *)
Fixpoint delete_list (fuel : nat) (head : Z) (f : gmap nat Node) : option (list nat * gmap nat Node) :=
  if head =? 0 then Some ([], f)
  else match fuel with
       | O => None
       | S fuel =>
           nd <-? f !! Z.to_nat head;
           r <-? delete_list fuel (next nd) (delete (Z.to_nat head) f);
           Some (data nd :: fst r, snd r)
       end.

Definition gc (old_head : Z) (r : RetireList) : option (list nat * RetireList) :=
  let '(head, r) := try_drop old_head r in
  x <-? delete_list (size (nodes r)) head (nodes r);
  Some (fst x, mkList (snd x) (_head r)).

Definition try_gc (now : Z) (r : RetireList) : option (list nat * RetireList) :=
  if expire (_head r) now then gc (_head r) r else Some ([], r).

Definition force_gc (r : RetireList) : option (list nat * RetireList) := gc (_head r) r.

(** [retire]: what the deleter was applied to, and the list. *)
Definition retire (d : nat) (now : Z) (r : RetireList) : option (list nat * RetireList) :=
  let new_node := new_id (nodes r) in
  x <-? try_gc now r;
  Some (fst x, push new_node d now (snd x)).

(** * The list holds each retired table once *)

Fixpoint chain (f : gmap nat Node) (p : Z) (la ds : list nat) : Prop :=
  match la, ds with
  | [], [] => p = 0
  | a :: la, d :: ds => p = Z.of_nat a /\ exists nx, f !! a = Some (mkNode d nx) /\ chain f nx la ds
  | _, _ => False
  end.

(** The nodes, from the head, and their data; no other node is allocated. *)
Record holds (r : RetireList) (la ds : list nat) : Prop := {
  h_chain : chain (nodes r) (get_ptr (_head r)) la ds;
  h_nodup : NoDup la;
  h_dom : forall a, is_Some (nodes r !! a) <-> a ∈ la
}.

Lemma vec_get_ptr_make p tag : 0 <= p < 2 ^ 48 -> 0 <= tag < 2 ^ 16 -> get_ptr (make_tagged_ptr p tag) = p.
Proof.
  intros Hp Ht. unfold get_ptr, make_tagged_ptr. rewrite u64_small by (rewrite Z.shiftl_mul_pow2; lia).
  rewrite lor_shiftl_add, land_pow2_mask by lia. rewrite Z.mod_add by lia. apply Z.mod_small. lia.
Qed.

Lemma vec_get_tag_make p tag : 0 <= p < 2 ^ 48 -> 0 <= tag < 2 ^ 16 -> get_tag (make_tagged_ptr p tag) = tag.
Proof.
  intros Hp Ht. unfold get_tag, make_tagged_ptr. rewrite u64_small by (rewrite Z.shiftl_mul_pow2; lia).
  rewrite lor_shiftl_add by lia. rewrite Z.shiftr_div_pow2, Z.div_add by lia.
  rewrite Z.div_small by lia. apply u16_small. lia.
Qed.

Lemma chain_frame f f' p la ds :
  (forall a, a ∈ la -> f' !! a = f !! a) -> chain f p la ds -> chain f' p la ds.
Proof.
  revert p ds. induction la as [|a la IH]; intros p [|d ds]; simpl; try done.
  intros Hf (-> & nx & Ha & Hc). split; [done|]. exists nx. rewrite Hf by (by left). split; [done|].
  apply IH; [|done]. intros; apply Hf; by right.
Qed.

Lemma delete_list_ok la : forall ds f p fuel,
  chain f p la ds -> NoDup la -> (forall a, a ∈ la -> (0 < a)%nat) -> (length la <= fuel)%nat ->
  exists f', delete_list fuel p f = Some (ds, f') /\
    (forall a, a ∈ la -> f' !! a = None) /\ (forall a, a ∉ la -> f' !! a = f !! a).
Proof.
  induction la as [|a la IH]; intros [|d ds] f p fuel Hc Hnd Hpos Hf; simpl in Hc; try done.
  - subst p. exists f. split_and!; [by destruct fuel|by intros ? ?%elem_of_nil|done].
  - destruct Hc as (-> & nx & Ha & Hc), fuel as [|fuel]; simpl in Hf; [lia|].
    apply NoDup_cons in Hnd as [Hna Hnd]. pose proof (Hpos a ltac:(by left)) as Ha0.
    cbn [delete_list]. destruct (Z.of_nat a =? 0) eqn:E; wz_bool; [lia|]. rewrite Nat2Z.id, Ha. cbn [next data].
    destruct (IH ds (delete a f) nx fuel) as (f' & -> & Hin & Hout); [|done| |lia|].
    { eapply chain_frame; [|done]. intros x Hx. apply lookup_delete_ne. congruence. }
    { intros x Hx. apply Hpos. by right. }
    exists f'. split_and!; [done| |].
    + intros x [->|Hx]%elem_of_cons; [|by apply Hin]. rewrite Hout by done. apply lookup_delete_eq.
    + intros x [Hxa Hx]%not_elem_of_cons. rewrite Hout by done. by apply lookup_delete_ne.
Qed.

Lemma holds_length r la ds : holds r la ds -> length la = size (nodes r).
Proof.
  intros [_ Hnd Hd]. rewrite <-size_dom, <-(size_list_to_set (C := gset nat) la) by done.
  f_equal. apply set_eq. intros x. rewrite elem_of_list_to_set, elem_of_dom. by rewrite Hd.
Qed.

Definition small (la : list nat) : Prop := forall a, a ∈ la -> (0 < a)%nat /\ Z.of_nat a < 2 ^ 48.

(** Dropping the list applies the deleter to everything retired and frees the nodes. *)
Lemma gc_ok r la ds : holds r la ds -> small la ->
  exists r', gc (_head r) r = Some (ds, r') /\ holds r' [] [].
Proof.
  intros H Hs. pose proof (holds_length r la ds H) as Hlen. destruct H as [Hc Hnd Hd].
  unfold gc, try_drop. rewrite Z.eqb_refl. simpl.
  destruct (delete_list_ok la ds (nodes r) (get_ptr (_head r)) (size (nodes r)) Hc Hnd) as (f' & -> & Hin & Hout).
  { intros a Ha. by apply Hs. }
  { lia. }
  simpl. eexists. split; [done|]. split; simpl; [done|apply NoDup_nil_2|].
  intros a. split; [|by intros ?%elem_of_nil].
  destruct (decide (a ∈ la)) as [Ha|Ha]; [rewrite Hin by done; by intros []|].
  rewrite Hout by done. intros ?%Hd. done.
Qed.

Lemma push_ok r la ds a d now :
  holds r la ds -> a ∉ la -> (0 < a)%nat /\ Z.of_nat a < 2 ^ 48 -> 0 <= now < 2 ^ 16 ->
  holds (push a d now r) (a :: la) (d :: ds).
Proof.
  intros [Hc Hnd Hd] Ha Hs Hnow. split; simpl.
  - split; [apply vec_get_ptr_make; lia|]. exists (get_ptr (_head r)). rewrite lookup_insert_eq. split; [done|].
    eapply chain_frame; [|done]. intros x Hx. apply lookup_insert_ne. congruence.
  - by apply NoDup_cons.
  - intros x. rewrite elem_of_cons, lookup_insert_is_Some, Hd. destruct (decide (x = a)); naive_solver.
Qed.

(** Retiring keeps what the list holds or applies the deleter to all of it. *)
Lemma vec_retire_ok r la ds d now :
  holds r la ds -> small la -> Z.of_nat (new_id (nodes r)) < 2 ^ 48 -> 0 <= now < 2 ^ 16 ->
  exists r' la' ds' out, retire d now r = Some (out, r') /\ holds r' la' (d :: ds') /\
    la' ⊆ new_id (nodes r) :: la /\
    ((expire (_head r) now = true /\ out = ds /\ ds' = []) \/ (expire (_head r) now = false /\ out = [] /\ ds' = ds)).
Proof.
  intros H Hs Hid Hnow. set (a := new_id (nodes r)) in *.
  assert (Ha : a ∉ la).
  { intros Hin%(h_dom _ _ _ H). pose proof (new_id_fresh (nodes r)) as Hf. fold a in Hf. rewrite Hf in Hin. by destruct Hin. }
  assert (Hpos : (0 < a)%nat) by (subst a; unfold new_id; lia).
  unfold retire. fold a. unfold try_gc. destruct (expire (_head r) now) eqn:E.
  - destruct (gc_ok r la ds H Hs) as (r' & -> & H'). simpl. exists (push a d now r'), [a], [], ds.
    split_and!; [done| |set_solver-|by left]. apply push_ok; [done|by apply not_elem_of_nil|done|done].
  - exists (push a d now r), (a :: la), ds, []. split_and!; [done| |done|by right]. by apply push_ok.
Qed.

(** The list is dropped unless its last node was pushed in the current time unit (64
    seconds), or, the clock being 16 bits wide, one unit ahead. *)
Lemma expire_spec tag now p : 0 <= p < 2 ^ 48 -> 0 <= tag < 2 ^ 16 -> 0 <= now < 2 ^ 16 ->
  expire (make_tagged_ptr p tag) now = false <-> tag = now \/ tag = u16 (now + 1).
Proof.
  intros Hp Ht Hn. unfold expire. rewrite vec_get_tag_make by done. unfold u16. split.
  - intros H. wz_bool.
    destruct (decide (tag < now)) as [Hlt|Hge].
    + rewrite <-(Z.mod_add _ 1), Z.mod_small in H by lia. right. assert (tag = 0 /\ now = 2 ^ 16 - 1) as [-> ->] by lia. done.
    + rewrite Z.mod_small in H by lia. destruct (decide (tag = now)); [by left|right]. rewrite Z.mod_small; lia.
  - intros [->| ->]; apply Z.ltb_ge; [by rewrite Z.sub_diag|].
    rewrite Zminus_mod_idemp_l. replace (now + 1 - now) with 1 by lia. done.
Qed.

Lemma new_id_bound {A} (f : gmap nat A) n : (forall a, is_Some (f !! a) -> (a <= n)%nat) -> (new_id f <= S n)%nat.
Proof.
  intros Hf. unfold new_id. apply le_n_S.
  assert (Hl : forall l : list nat, (forall x, x ∈ l -> (x <= n)%nat) -> (max_list l <= n)%nat).
  { induction l as [|x l IH]; simpl; intros Hx; [lia|]. apply Nat.max_lub; [apply Hx; by left|].
    apply IH. intros; apply Hx; by right. }
  apply Hl. intros x Hx.
  apply list_elem_of_fmap in Hx as ([a y] & -> & Hy%elem_of_map_to_list). apply Hf. simpl in *. by eexists.
Qed.

(** A sequence of retirements at given times. *)
Fixpoint retire_all (reqs : list (nat * Z)) (r : RetireList) : option (list nat * RetireList) :=
  match reqs with
  | [] => Some ([], r)
  | (d, now) :: reqs => x <-? retire d now r; y <-? retire_all reqs (snd x); Some (fst x ++ fst y, snd y)
  end.

Definition in_range (n : nat) (la : list nat) : Prop := forall a, a ∈ la -> (0 < a <= n)%nat.

Lemma retire_all_ok reqs : forall r la ds n,
  holds r la ds -> in_range n la -> Z.of_nat (n + length reqs) < 2 ^ 48 ->
  (forall d now, (d, now) ∈ reqs -> 0 <= now < 2 ^ 16) ->
  exists out r' la' ds', retire_all reqs r = Some (out, r') /\ holds r' la' ds' /\
    in_range (n + length reqs) la' /\ out ++ ds' ≡ₚ (reqs.*1) ++ ds.
Proof.
  induction reqs as [|[d now] reqs IH]; intros r la ds n H Hr Hn Hnow; cbn [retire_all length].
  - exists [], r, la, ds. rewrite Nat.add_0_r. done.
  - cbn [length] in Hn. assert (Hid : (new_id (nodes r) <= S n)%nat).
    { apply new_id_bound. intros a Ha%(h_dom _ _ _ H). by apply Hr. }
    destruct (vec_retire_ok r la ds d now H) as (r1 & la1 & ds1 & out1 & -> & H1 & Hsub & Hout).
    { intros a Ha%Hr. lia. }
    { lia. }
    { apply (Hnow d). by left. }
    cbn [fst snd]. destruct (IH r1 la1 (d :: ds1) (S n) H1) as (out2 & r2 & la2 & ds2 & -> & H2 & Hr2 & Hp).
    { intros a Ha%Hsub. apply elem_of_cons in Ha as [->|Ha]; [unfold new_id in *; lia|].
      destruct (Hr a Ha). lia. }
    { lia. }
    { intros d' now' Hin. apply (Hnow d'). by right. }
    cbn [fst snd]. exists (out1 ++ out2), r2, la2, ds2. split_and!; [done|done|by rewrite Nat.add_succ_r|].
    cbn [fmap list_fmap fst]. rewrite <-app_assoc, Hp. destruct Hout as [(_ & -> & ->)|(_ & -> & ->)]; simpl.
    + rewrite (Permutation_app_comm ds), <-app_assoc. simpl. by rewrite <-Permutation_middle.
    + by rewrite <-Permutation_middle.
Qed.

Lemma ctor_holds : holds ctor [] [].
Proof. split; simpl; [done|apply NoDup_nil_2|]. intros a. rewrite lookup_empty. split; [by intros []|by intros ?%elem_of_nil]. Qed.

End RetireList.

Module Vector.
Import RetireList.

Section vector.
Context {T : Type} (dflt : T).

(** * Data *)

(** [num_per_shard] and [shard_bit]. *)
Record Meta := mkMeta { num_per_shard : Z; shard_bit : Z }.

(** [shards] has [shard_num] entries; [None] is not written yet. *)
Record Table := mkTable { shard_num : Z; shards : list (option nat) }.

(** The allocated tables (0 is [EMPTY_TABLE]) and shards, [_table], the retired list and
    the meta data. *)
Record Vec := mkVec {
  tables : gmap nat Table; store : gmap nat (list T); _table : nat;
  _retired_list : RetireList; _meta : Meta
}.

Definition EMPTY_TABLE : Table := mkTable 0 [].

(** The constructor; [folly::nextPowTwo] is an argument. *)
Definition ctor_ (nextPowTwo : Z -> Z) (n : Z) : Vec :=
  let num := nextPowTwo n in
  mkVec {[0%nat := EMPTY_TABLE]} ∅ 0 ctor (mkMeta num (builtin_popcount (num - 1))).

(** * Index arithmetic *)

Definition get_shard_id (m : Meta) (index : Z) : Z := Z.shiftr index (shard_bit m).
Definition get_shard_offset (m : Meta) (index : Z) : Z := Z.land index (num_per_shard m - 1).
Definition require_shard_num (m : Meta) (size : Z) : Z := u64 (get_shard_id m (u64 (size - 1)) + 1).

(** [(bytes + CACHELINE_SIZE) & ~(CACHELINE_SIZE - 1)], the size given to [aligned_alloc]. *)
Definition aligned_size (bytes : Z) : Z := Z.land (u64 (bytes + 64)) (2 ^ 64 - 64).

(** * Growing the table *)

(** [create_shard]: [num_per_shard] default elements in a new block. *)
Definition create_shard (m : Meta) (st : gmap nat (list T)) : nat * gmap nat (list T) :=
  let id := new_id st in (id, <[id := replicate (Z.to_nat (num_per_shard m)) dflt]> st).

(** [for (i = old_shard_num; i < shard_num; ++i) new_table->shards[i] = create_shard();] *)
Fixpoint create_shards (m : Meta) (count : nat) (i : nat) (new : list (option nat)) (st : gmap nat (list T))
    : list (option nat) * gmap nat (list T) :=
  match count with
  | O => (new, st)
  | S count => let '(id, st) := create_shard m st in create_shards m count (S i) (<[i := Some id]> new) st
  end.

(** The two loops before the exchange: the pointers of [old] are copied, then new shards
    are created from [old_shard_num] on. *)
Definition prepare (m : Meta) (old : Table) (old_shard_num n : Z) (new : list (option nat)) (st : gmap nat (list T))
    : list (option nat) * gmap nat (list T) :=
  create_shards m (Z.to_nat (n - old_shard_num)) (Z.to_nat old_shard_num)
    (take (Z.to_nat (shard_num old)) (shards old) ++ drop (Z.to_nat (shard_num old)) new) st.

(** [delete_table]: [EMPTY_TABLE] is not freed. *)
Definition delete_table (d : nat) (f : gmap nat Table) : option (gmap nat Table) :=
  if decide (d = 0%nat) then Some f else _ <-? f !! d; Some (delete d f).

Fixpoint delete_tables (ds : list nat) (f : gmap nat Table) : option (gmap nat Table) :=
  match ds with
  | [] => Some f
  | d :: ds => f <-? delete_table d f; delete_tables ds f
  end.

(** After a successful exchange: the old table is retired. *)
Definition retire_table (old : nat) (now : Z) (v : Vec) : option Vec :=
  x <-? retire old now (_retired_list v);
  f <-? delete_tables (fst x) (tables v);
  Some (mkVec f (store v) (_table v) (snd x) (_meta v)).

(** [ensure_table] when nobody else changes the table. An [int] counts the shards. *)
Definition ensure_table (n now : Z) (v : Vec) : option (Table * Vec) :=
  old <-? tables v !! _table v;
  if n <=? shard_num old then Some (old, v)
  else guard (n <? 2 ^ 31);
    let '(new, st) := prepare (_meta v) old (shard_num old) n (replicate (Z.to_nat n) None) (store v) in
    let id := new_id (tables v) in
    v <-? retire_table (_table v) now
            (mkVec (<[id := mkTable n new]> (tables v)) st id (_retired_list v) (_meta v));
    Some (mkTable n new, v).

(** * Elements *)

(** [shards[shard_id][offset]]. *)
Definition slot (t : Table) (m : Meta) (index : Z) : option (nat * nat) :=
  guard (get_shard_id m index <? shard_num t);
  id <-? mjoin (shards t !! Z.to_nat (get_shard_id m index));
  Some (id, Z.to_nat (get_shard_offset m index)).

Definition read_slot (p : nat * nat) (st : gmap nat (list T)) : option T := l <-? st !! fst p; l !! snd p.
Definition write_slot (p : nat * nat) (x : T) (st : gmap nat (list T)) : option (gmap nat (list T)) :=
  l <-? st !! fst p;
  guard (Nat.ltb (snd p) (length l));
  Some (<[fst p := <[snd p := x]> l]> st).

Definition set_store (st : gmap nat (list T)) (v : Vec) : Vec :=
  mkVec (tables v) st (_table v) (_retired_list v) (_meta v).

(** [vec[index]], read and written: no growth. *)
Definition subscript (index : Z) (v : Vec) : option T :=
  t <-? tables v !! _table v; p <-? slot t (_meta v) index; read_slot p (store v).
Definition subscript_set (index : Z) (x : T) (v : Vec) : option Vec :=
  t <-? tables v !! _table v; p <-? slot t (_meta v) index;
  st <-? write_slot p x (store v); Some (set_store st v).

(** [vec.ensure(index) = x]. *)
Definition ensure_set (index : Z) (x : T) (now : Z) (v : Vec) : option Vec :=
  r <-? ensure_table (u64 (get_shard_id (_meta v) index + 1)) now v;
  p <-? slot (fst r) (_meta v) index;
  st <-? write_slot p x (store (snd r)); Some (set_store st (snd r)).

Definition reserve (size now : Z) (v : Vec) : option Vec :=
  r <-? ensure_table (require_shard_num (_meta v) size) now v; Some (snd r).

(** * Ranges *)

Section ranges.
Context {A : Type} (callback : nat -> Z -> Z -> A -> gmap nat (list T) -> option (A * gmap nat (list T))).

(** [callback(shards[shard_id] + b, shards[shard_id] + e)]. *)
Definition call_shard (t : Table) (shard_id b e : Z) (acc : A) (st : gmap nat (list T)) : option (A * gmap nat (list T)) :=
  guard (shard_id <? shard_num t);
  id <-? mjoin (shards t !! Z.to_nat shard_id);
  callback id b e acc st.

(** [for (shard_id = start + 1; shard_id != end; ++shard_id)]; each turn reads one shard, so
    the number of shards is fuel enough. *)
Fixpoint middle_shards (fuel : nat) (t : Table) (m : Meta) (shard_id end_shard_id : Z) (acc : A)
    (st : gmap nat (list T)) : option (A * gmap nat (list T)) :=
  if shard_id =? end_shard_id then Some (acc, st)
  else match fuel with
       | O => None
       | S fuel =>
           r <-? call_shard t shard_id 0 (num_per_shard m) acc st;
           middle_shards fuel t m (u64 (shard_id + 1)) end_shard_id (fst r) (snd r)
       end.

Definition for_each (t : Table) (m : Meta) (start_index end_index : Z) (acc : A) (st : gmap nat (list T))
    : option (A * gmap nat (list T)) :=
  let start_shard_id := get_shard_id m start_index in
  let start_offset := get_shard_offset m start_index in
  let end_shard_id := get_shard_id m end_index in
  let end_offset := get_shard_offset m end_index in
  r <-? call_shard t start_shard_id start_offset (num_per_shard m) acc st;
  r <-? middle_shards (S (length (shards t))) t m (u64 (start_shard_id + 1)) end_shard_id (fst r) (snd r);
  if ((start_shard_id <? end_shard_id) && (0 <? end_offset))%bool
  then call_shard t end_shard_id 0 end_offset (fst r) (snd r)
  else Some r.
End ranges.

(** Writing [xs] from position [b] of a shard. *)
Definition write_range (id : nat) (b : Z) (xs : list T) (st : gmap nat (list T)) : option (gmap nat (list T)) :=
  l <-? st !! id;
  guard (Nat.leb (Z.to_nat b + length xs) (length l));
  Some (<[id := take (Z.to_nat b) l ++ xs ++ drop (Z.to_nat b + length xs) l]> st).

(** The callback of [fill_n]: [std::fill]. *)
Definition fill_cb (x : T) (id : nat) (b e : Z) (acc : unit) (st : gmap nat (list T)) : option (unit * gmap nat (list T)) :=
  st <-? write_range id b (replicate (Z.to_nat (e - b)) x) st; Some (acc, st).

(** The callback of [copy_n]: [std::copy_n] from the iterator, which advances. *)
Definition copy_cb (id : nat) (b e : Z) (iter : list T) (st : gmap nat (list T)) : option (list T * gmap nat (list T)) :=
  let l := Z.to_nat (e - b) in
  guard (Nat.leb l (length iter));
  st <-? write_range id b (take l iter) st;
  Some (drop l iter, st).

(** [fill_n] and [copy_n]: [reserved_snapshot] passes the number of elements where
    [ensure_table] expects a number of shards. *)
Definition fill_n (start_index len : Z) (x : T) (now : Z) (v : Vec) : option Vec :=
  r <-? ensure_table (u64 (start_index + len)) now v;
  y <-? for_each (fill_cb x) (fst r) (_meta v) start_index (u64 (start_index + len)) () (store (snd r));
  Some (set_store (snd y) (snd r)).

Definition copy_n (iter : list T) (len start_index now : Z) (v : Vec) : option Vec :=
  r <-? ensure_table (u64 (start_index + len)) now v;
  y <-? for_each copy_cb (fst r) (_meta v) start_index (u64 (start_index + len)) iter (store (snd r));
  Some (set_store (snd y) (snd r)).

(** [~ConcurrentVector]: the destructors of the elements run ([delete_shard]), the table
    and the retired tables are freed; the blocks of the shards are not. *)
Definition dtor (v : Vec) : option Vec :=
  _ <-? tables v !! _table v;
  f <-? delete_table (_table v) (tables v);
  x <-? force_gc (_retired_list v);
  f <-? delete_tables (fst x) f;
  Some (mkVec f (store v) (_table v) (snd x) (_meta v)).

(** * The array a table represents *)

Section meta.
Context (b : Z) (Hb : 0 <= b < 64).
Let num := 2 ^ b.
Let m := mkMeta num b.

Lemma num_pos : 0 < num.
Proof. apply Z.pow_pos_nonneg; lia. Qed.

Lemma shard_id_div i : get_shard_id m i = i / num.
Proof. unfold get_shard_id. by rewrite Z.shiftr_div_pow2 by (simpl; lia). Qed.

Lemma shard_offset_mod i : get_shard_offset m i = i mod num.
Proof. unfold get_shard_offset. simpl. apply land_pow2_mask. lia. Qed.

Lemma index_split i : i = i / num * num + i mod num /\ 0 <= i mod num < num.
Proof. pose proof num_pos. split; [rewrite Z.mul_comm; apply Z.div_mod; lia|by apply Z.mod_pos_bound]. Qed.

(** The entries of the table are distinct shards, and the element at [i] is [f i]. *)
Record view (t : Table) (cap : Z) (st : gmap nat (list T)) (f : Z -> T) : Prop := {
  v_num : shard_num t = cap;
  v_len : Z.of_nat (length (shards t)) = cap;
  v_shard : forall k, 0 <= k < cap -> exists id l, shards t !! Z.to_nat k = Some (Some id) /\ st !! id = Some l /\
    Z.of_nat (length l) = num /\ forall j, 0 <= j < num -> l !! Z.to_nat j = Some (f (k * num + j));
  v_distinct : forall i j id, shards t !! i = Some (Some id) -> shards t !! j = Some (Some id) -> i = j
}.

Lemma view_ext t cap st f g : (forall i, 0 <= i -> f i = g i) -> view t cap st f -> view t cap st g.
Proof.
  intros Hfg []. split; try done. intros k Hk. destruct (v_shard0 k Hk) as (id & l & ? & ? & ? & Hl).
  exists id, l. split_and!; try done. intros j Hj. rewrite Hl by done. f_equal. apply Hfg.
  pose proof num_pos. nia.
Qed.

(** Overwriting the elements from [lo] to [hi]. *)
Definition over (lo hi : Z) (g f : Z -> T) (i : Z) : T := if (lo <=? i) && (i <? hi) then g i else f i.

(** [over] is an array again: extensionally equal arrays are interchangeable. *)
Lemma over_over lo mid hi g f i : lo <= mid <= hi -> over mid hi g (over lo mid g f) i = over lo hi g f i.
Proof. intros. unfold over. repeat wz_if; try done; lia. Qed.

Lemma over_empty lo g f i : over lo lo g f i = f i.
Proof. unfold over. wz_if; [lia|done]. Qed.

Lemma view_shard t cap st f k : view t cap st f -> 0 <= k < cap ->
  exists id l, (id0 <-? mjoin (shards t !! Z.to_nat k); Some id0) = Some id /\
    shards t !! Z.to_nat k = Some (Some id) /\ st !! id = Some l /\ Z.of_nat (length l) = num /\
    forall j, 0 <= j < num -> l !! Z.to_nat j = Some (f (k * num + j)).
Proof. intros H Hk. destruct (v_shard _ _ _ _ H k Hk) as (id & l & Hs & ?). exists id, l. by rewrite Hs. Qed.

(** Changing the elements of one shard. *)
Lemma view_update t cap st f k id l' g :
  view t cap st f -> 0 <= k < cap -> shards t !! Z.to_nat k = Some (Some id) ->
  Z.of_nat (length l') = num ->
  (forall j, 0 <= j < num -> l' !! Z.to_nat j = Some (g (k * num + j))) ->
  (forall k' j, 0 <= k' < cap -> k' <> k -> 0 <= j < num -> g (k' * num + j) = f (k' * num + j)) ->
  view t cap (<[id := l']> st) g.
Proof.
  intros [] Hk Hid Hlen Hl Ho. split; try done. intros k' Hk'. destruct (decide (k' = k)) as [->|Hne].
  - exists id, l'. by rewrite lookup_insert_eq.
  - destruct (v_shard0 k' Hk') as (id' & lk & Hid' & Hst & Hlk & Hj). exists id', lk.
    assert (id' <> id) by (intros ->; apply Hne; apply (Z2Nat.inj k' k); [lia|lia|by eapply v_distinct0]).
    rewrite lookup_insert_ne by done. split_and!; try done. intros j Hj'. rewrite Hj, Ho by done. done.
Qed.

Lemma splice_lookup (l xs : list T) (b0 : nat) (j : nat) :
  (b0 + length xs <= length l)%nat ->
  (take b0 l ++ xs ++ drop (b0 + length xs) l) !! j =
  if decide (b0 <= j < b0 + length xs)%nat then xs !! (j - b0)%nat else l !! j.
Proof.
  intros Hle. assert (Hlt : length (take b0 l) = b0) by (rewrite length_take; lia). case_decide as Hd.
  - rewrite lookup_app_r, Hlt by lia. apply lookup_app_l. lia.
  - destruct (decide (j < b0)%nat).
    + rewrite lookup_app_l by lia. by apply lookup_take_lt.
    + rewrite !lookup_app_r by lia. rewrite Hlt, lookup_drop. f_equal. lia.
Qed.

(** [write_range] within a shard. *)
Lemma write_range_view t cap st f k id b0 xs g :
  view t cap st f -> 0 <= k < cap -> shards t !! Z.to_nat k = Some (Some id) ->
  0 <= b0 -> b0 + Z.of_nat (length xs) <= num ->
  (forall j, 0 <= j < Z.of_nat (length xs) -> xs !! Z.to_nat j = Some (g (k * num + b0 + j))) ->
  exists st', write_range id b0 xs st = Some st' /\
    view t cap st' (over (k * num + b0) (k * num + b0 + Z.of_nat (length xs)) g f).
Proof.
  intros Hv Hk Hid Hb0 Hlen Hxs. destruct (v_shard _ _ _ _ Hv k Hk) as (id' & l & Hid' & Hst & Hl & Hj).
  rewrite Hid in Hid'. simplify_eq. unfold write_range. rewrite Hst.
  assert (Hle : (Z.to_nat b0 + length xs <= length l)%nat) by lia.
  destruct (Nat.leb _ _) eqn:E; [|apply Nat.leb_gt in E; lia]. eexists. split; [done|].
  eapply view_update; [done|done|done|..].
  - rewrite !length_app, length_take, length_drop. lia.
  - intros j Hjn. rewrite splice_lookup by done. unfold over. case_decide as Hd.
    + destruct ((_ <=? _) && (_ <? _))%bool eqn:Eb; wz_bool.
      * replace (Z.to_nat j - Z.to_nat b0)%nat with (Z.to_nat (j - b0)) by lia. rewrite Hxs by lia. f_equal. f_equal. lia.
      * apply andb_false_iff in Eb as [Eb|Eb]; wz_bool; lia.
    + destruct ((_ <=? _) && (_ <? _))%bool eqn:Eb; wz_bool; [lia|]. by apply Hj.
  - intros k' j Hk' Hne Hjn. unfold over. destruct ((_ <=? _) && (_ <? _))%bool eqn:Eb; wz_bool; [|done].
    exfalso. apply Hne. pose proof num_pos. nia.
Qed.

(** ** [for_each] with a callback that writes [g] *)

Section callback.
Context {A : Type} (cb : nat -> Z -> Z -> A -> gmap nat (list T) -> option (A * gmap nat (list T))).
Context (g : Z -> T) (I : Z -> A -> Prop) (limit : Z).
Hypothesis Hcb : forall id p b0 e acc st, I p acc -> 0 <= b0 <= e -> p + (e - b0) <= limit ->
  exists xs acc', Z.of_nat (length xs) = e - b0 /\
    (forall j, 0 <= j < e - b0 -> xs !! Z.to_nat j = Some (g (p + j))) /\
    cb id b0 e acc st = (st <-? write_range id b0 xs st; Some (acc', st)) /\ I (p + (e - b0)) acc'.

Lemma call_shard_view t cap st f k b0 e acc :
  view t cap st f -> 0 <= k < cap -> 0 <= b0 <= e -> e <= num -> I (k * num + b0) acc -> k * num + e <= limit ->
  exists acc' st', call_shard cb t k b0 e acc st = Some (acc', st') /\
    view t cap st' (over (k * num + b0) (k * num + e) g f) /\ I (k * num + e) acc'.
Proof.
  intros Hv Hk Hbe He HI Hlim. destruct (v_shard _ _ _ _ Hv k Hk) as (id & l & Hid & _).
  unfold call_shard. rewrite (v_num _ _ _ _ Hv). destruct (k <? cap) eqn:E; wz_bool; [|lia].
  rewrite Hid. simpl.
  destruct (Hcb id (k * num + b0) b0 e acc st HI Hbe ltac:(lia)) as (xs & acc' & Hlen & Hxs & -> & HI').
  destruct (write_range_view t cap st f k id b0 xs g Hv Hk Hid ltac:(lia) ltac:(lia)) as (st' & -> & Hv').
  { intros j Hj. apply Hxs. lia. }
  exists acc', st'. split_and!; [done| |by replace (k * num + e) with (k * num + b0 + (e - b0)) by lia].
  by replace (k * num + e) with (k * num + b0 + Z.of_nat (length xs)) by lia.
Qed.

Lemma middle_shards_view fuel : forall t cap st f k e acc,
  view t cap st f -> 0 <= k <= e -> e <= cap -> cap < 2 ^ 31 -> e - k <= Z.of_nat fuel ->
  I (k * num) acc -> e * num <= limit ->
  exists acc' st', middle_shards cb fuel t m k e acc st = Some (acc', st') /\
    view t cap st' (over (k * num) (e * num) g f) /\ I (e * num) acc'.
Proof.
  pose proof num_pos as Hnum.
  induction fuel as [|fuel IH]; intros t cap st f k e acc Hv Hk He Hcap Hf HI Hlim; cbn [middle_shards].
  - assert (k = e) as -> by lia. rewrite Z.eqb_refl. exists acc, st. split_and!; [done| |done].
    eapply view_ext; [|done]. intros. by rewrite over_empty.
  - destruct (k =? e) eqn:E; wz_bool.
    + subst e. exists acc, st. split_and!; [done| |done]. eapply view_ext; [|done]. intros. by rewrite over_empty.
    + destruct (call_shard_view t cap st f k 0 num acc Hv) as (acc1 & st1 & Hc & Hv1 & HI1); [lia|lia|lia|by rewrite Z.add_0_r|nia|].
      simpl num_per_shard. rewrite Hc. cbn [fst snd]. rewrite u64_small by lia.
      replace (k * num + num) with ((k + 1) * num) in * by lia.
      destruct (IH t cap st1 _ (k + 1) e acc1 Hv1) as (acc2 & st2 & -> & Hv2 & HI2); try lia; [done|].
      exists acc2, st2. split_and!; [done| |done]. eapply view_ext; [|done]. intros i _.
      rewrite Z.add_0_r. apply over_over. nia.
Qed.

(** A range that ends in a later shard is covered exactly. *)
Lemma for_each_view t cap st f lo hi acc :
  view t cap st f -> 0 <= lo -> lo / num < hi / num -> hi <= cap * num -> cap < 2 ^ 31 -> I lo acc -> hi <= limit ->
  exists acc' st', for_each cb t m lo hi acc st = Some (acc', st') /\ view t cap st' (over lo hi g f) /\ I hi acc'.
Proof.
  intros Hv Hlo Hsh Hhi Hcap HI Hlim. pose proof num_pos as Hnum.
  destruct (index_split lo) as [El Hl], (index_split hi) as [Eh Hh].
  unfold for_each. rewrite !shard_id_div, !shard_offset_mod.
  assert (Hk0 : 0 <= lo / num) by (by apply Z.div_pos).
  assert (Hkc : hi / num <= cap) by (apply Z.div_le_upper_bound; lia).
  destruct (call_shard_view t cap st f (lo / num) (lo mod num) num acc Hv) as (acc1 & st1 & Hc & Hv1 & HI1);
    [lia|lia|lia|by rewrite <-El|nia|].
  simpl num_per_shard. rewrite Hc. cbn [fst snd]. rewrite u64_small by lia.
  replace (lo / num * num + num) with ((lo / num + 1) * num) in * by lia.
  destruct (middle_shards_view (S (length (shards t))) t cap st1 _ (lo / num + 1) (hi / num) acc1 Hv1) as (acc2 & st2 & -> & Hv2 & HI2);
    try done; [lia|rewrite Nat2Z.inj_succ, (v_len _ _ _ _ Hv); lia|nia|].
  cbn [fst snd]. rewrite <-El in Hv2.
  destruct (lo / num <? hi / num) eqn:E1; wz_bool; [|lia]. simpl andb.
  assert (Hmid : forall i, over ((lo / num + 1) * num) (hi / num * num) g (over lo ((lo / num + 1) * num) g f) i =
    over lo (hi / num * num) g f i) by (intros; apply over_over; nia).
  destruct (0 <? hi mod num) eqn:E2; wz_bool.
  - destruct (call_shard_view t cap st2 _ (hi / num) 0 (hi mod num) acc2 Hv2) as (acc3 & st3 & Hc3 & Hv3 & HI3);
      [nia|lia|lia|by rewrite Z.add_0_r|lia|].
    rewrite Hc3. exists acc3, st3. rewrite <-Eh in *. split_and!; [done| |done].
    eapply view_ext; [|done]. intros i _. rewrite Z.add_0_r. unfold over at 1. rewrite Hmid.
    rewrite <-(over_over lo (hi / num * num) hi) by nia. done.
  - assert (Ehi : hi = hi / num * num) by lia. exists acc2, st2. rewrite <-Ehi in *. split_and!; [done| |done].
    eapply view_ext; [|done]. intros i _. apply Hmid.
Qed.

End callback.

(** A range inside one shard: the loop looks for a shard before the first and runs off the
    table. *)
Lemma middle_shards_overrun {A} (cb : nat -> Z -> Z -> A -> gmap nat (list T) -> option (A * gmap nat (list T))) fuel :
  forall t e k acc st, 0 <= e < k -> k <= shard_num t + 1 -> shard_num t < 2 ^ 31 -> middle_shards cb fuel t m k e acc st = None.
Proof.
  induction fuel as [|fuel IH]; intros t e k acc st He Hk Hn; cbn [middle_shards]; destruct (k =? e) eqn:E; wz_bool; try lia; [done|].
  unfold call_shard. destruct (k <? shard_num t) eqn:E2; wz_bool; [|done].
  destruct (mjoin _) as [id|]; [|done]. destruct (cb _ _ _ _ _) as [[acc' st']|]; [|done]. cbn [fst snd].
  rewrite u64_small by lia. apply IH; lia.
Qed.

Lemma for_each_same_shard {A} (cb : nat -> Z -> Z -> A -> gmap nat (list T) -> option (A * gmap nat (list T))) t lo hi acc st :
  0 <= lo -> lo / num = hi / num -> shard_num t < 2 ^ 31 -> for_each cb t m lo hi acc st = None.
Proof.
  intros Hlo Heq Hn. pose proof num_pos. unfold for_each. rewrite !shard_id_div, !shard_offset_mod, <-Heq.
  unfold call_shard at 1. destruct (lo / num <? shard_num t) eqn:E; wz_bool; [|done].
  destruct (mjoin _) as [id|]; [|done]. destruct (cb _ _ _ _ _) as [[acc' st']|]; [|done]. cbn [fst snd].
  assert (0 <= lo / num) by (by apply Z.div_pos).
  rewrite u64_small, middle_shards_overrun by lia. done.
Qed.

(** * Growth *)

Lemma create_shards_ok count : forall i new st,
  (i + count <= length new)%nat ->
  exists new' st', create_shards m count i new st = (new', st') /\ length new' = length new /\
    (forall j, (j < i)%nat -> new' !! j = new !! j) /\
    (forall j, (i <= j < i + count)%nat -> exists id, new' !! j = Some (Some id) /\ st !! id = None /\
       st' !! id = Some (replicate (Z.to_nat num) dflt)) /\
    (forall id l, st !! id = Some l -> st' !! id = Some l) /\
    (forall j1 j2 id, (i <= j1 < i + count)%nat -> (i <= j2 < i + count)%nat ->
       new' !! j1 = Some (Some id) -> new' !! j2 = Some (Some id) -> j1 = j2).
Proof.
  induction count as [|count IH]; intros i new st Hl; cbn [create_shards].
  - exists new, st. split_and!; try done; intros; lia.
  - unfold create_shard. set (id := new_id st). set (st1 := <[id := _]> st).
    assert (Hfr : st !! id = None) by apply new_id_fresh.
    destruct (IH (S i) (<[i := Some id]> new) st1) as (new' & st' & -> & Hlen & Hlow & Hnew & Hold & Hdis).
    { rewrite length_insert. lia. }
    assert (Hi : new' !! i = Some (Some id)) by (rewrite Hlow by lia; apply list_lookup_insert_eq; lia).
    assert (Hst1 : forall id', st1 !! id' = None -> st !! id' = None /\ id' <> id).
    { intros id' H. unfold st1 in H. destruct (decide (id' = id)) as [->|]; [by rewrite lookup_insert_eq in H|].
      by rewrite lookup_insert_ne in H. }
    exists new', st'. split_and!; [done|by rewrite Hlen, length_insert| | | |].
    + intros j Hj. rewrite Hlow by lia. apply list_lookup_insert_ne. lia.
    + intros j Hj. destruct (decide (j = i)) as [->|].
      * exists id. split_and!; [done|done|]. apply Hold. unfold st1. by rewrite lookup_insert_eq.
      * destruct (Hnew j ltac:(lia)) as (id' & ? & ?%Hst1 & ?). exists id'. naive_solver.
    + intros id' l Hid'. apply Hold. unfold st1. rewrite lookup_insert_ne; [done|congruence].
    + intros j1 j2 id' H1 H2 Hj1 Hj2.
      destruct (decide (j1 = i)) as [->|], (decide (j2 = i)) as [->|]; [done|..].
      * destruct (Hnew j2 ltac:(lia)) as (x & ? & [? ?]%Hst1 & _). congruence.
      * destruct (Hnew j1 ltac:(lia)) as (x & ? & [? ?]%Hst1 & _). congruence.
      * eapply (Hdis j1 j2 id'); [lia|lia|done|done].
Qed.

(** The new table shows the same array, with default elements behind it. *)
Lemma prepare_view t cap st f n :
  view t cap st f -> cap <= n -> (forall i, cap * num <= i -> f i = dflt) ->
  exists new st', prepare m t (shard_num t) n (replicate (Z.to_nat n) None) st = (new, st') /\
    view (mkTable n new) n st' f.
Proof.
  intros Hv Hn Hz. pose proof num_pos as Hnum. destruct Hv as [Hc Hl Hs Hd]. unfold prepare. rewrite Hc.
  assert (0 <= cap) by lia.
  rewrite take_ge, drop_replicate by lia.
  set (new0 := shards t ++ _).
  assert (Hlen0 : length new0 = Z.to_nat n) by (subst new0; rewrite length_app, length_replicate; lia).
  destruct (create_shards_ok (Z.to_nat (n - cap)) (Z.to_nat cap) new0 st) as (new & st' & -> & Hlen & Hlow & Hnew & Hold & Hdis).
  { lia. }
  assert (Hkeep : forall j, (j < Z.to_nat cap)%nat -> new !! j = shards t !! j).
  { intros j Hj. rewrite Hlow by done. apply lookup_app_l. lia. }
  exists new, st'. split; [done|]. split; simpl; [done|lia| |].
  - intros k Hk. destruct (decide (k < cap)) as [Hlt|Hge].
    + destruct (Hs k ltac:(lia)) as (id & l & Hid & Hst & ?). exists id, l. rewrite Hkeep by lia. split_and!; naive_solver.
    + destruct (Hnew (Z.to_nat k) ltac:(lia)) as (id & Hid & _ & Hst). exists id, (replicate (Z.to_nat num) dflt).
      split_and!; [done|done|rewrite length_replicate; lia|].
      intros j Hj. rewrite Hz by nia. apply lookup_replicate_2. lia.
  - assert (Hrange : forall j id, new !! j = Some (Some id) -> (j < Z.to_nat n)%nat).
    { intros j id Hj. apply lookup_lt_Some in Hj. lia. }
    assert (Hmix : forall j1 j2 id, (j1 < Z.to_nat cap)%nat -> (Z.to_nat cap <= j2)%nat ->
      new !! j1 = Some (Some id) -> new !! j2 = Some (Some id) -> False).
    { intros j1 j2 id H1 H2 Hj1 Hj2. pose proof (Hrange _ _ Hj2). rewrite Hkeep in Hj1 by done.
      destruct (Hnew j2 ltac:(lia)) as (id' & ? & Hnone & _).
      destruct (Hs (Z.of_nat j1) ltac:(lia)) as (id1 & l & Hid1 & Hst & _). rewrite Nat2Z.id in Hid1. congruence. }
    intros j1 j2 id Hj1 Hj2. pose proof (Hrange _ _ Hj1). pose proof (Hrange _ _ Hj2).
    destruct (decide (j1 < Z.to_nat cap)%nat), (decide (j2 < Z.to_nat cap)%nat).
    + rewrite Hkeep in Hj1, Hj2 by done. by eapply Hd.
    + exfalso. apply (Hmix j1 j2 id); [done|lia|done|done].
    + exfalso. apply (Hmix j2 j1 id); [done|lia|done|done].
    + eapply (Hdis j1 j2 id); [lia|lia|done|done].
Qed.

Lemma delete_tables_ok ds : forall f,
  NoDup ds -> (forall d, d ∈ ds -> is_Some (f !! d)) ->
  exists f', delete_tables ds f = Some f' /\ (forall x, x ∉ ds \/ x = 0%nat -> f' !! x = f !! x).
Proof.
  induction ds as [|d ds IH]; intros f Hnd Hal; cbn [delete_tables].
  - exists f. done.
  - apply NoDup_cons in Hnd as [Hnin Hnd]. unfold delete_table. destruct (decide (d = 0%nat)) as [->|Hd].
    + destruct (IH f Hnd) as (f' & -> & Hf'); [intros; apply Hal; by right|].
      exists f'. split; [done|]. intros x [[_ ?]%not_elem_of_cons| ->]; apply Hf'; auto.
    + destruct (Hal d ltac:(by left)) as [t ->].
      destruct (IH (delete d f) Hnd) as (f' & -> & Hf').
      { intros x Hx. rewrite lookup_delete_ne by congruence. apply Hal. by right. }
      exists f'. split; [done|]. intros x Hx. rewrite Hf'; [apply lookup_delete_ne|]; set_solver.
Qed.

(** * The invariant of the vector *)

(** After at most [k] retirements, the vector has [cap] shards and holds the array [f]. *)
Record vinv (v : Vec) (k : nat) (cap : Z) (f : Z -> T) : Prop := {
  vi_meta : _meta v = m;
  vi_cap : 0 <= cap < 2 ^ 31;
  vi_view : exists t, tables v !! _table v = Some t /\ view t cap (store v) f;
  vi_zero : forall i, cap * num <= i -> f i = dflt;
  vi_empty : tables v !! 0%nat = Some EMPTY_TABLE;
  vi_retired : exists la ds, holds (_retired_list v) la ds /\ in_range k la /\ NoDup ds /\
    (_table v ∉ ds) /\ (forall d, d ∈ ds -> is_Some (tables v !! d))
}.

Lemma vinv_weaken v k k' cap f : (k <= k')%nat -> vinv v k cap f -> vinv v k' cap f.
Proof.
  intros Hk []. split; try done. destruct vi_retired0 as (la & ds & ? & Hr & ? & ? & ?).
  exists la, ds. split_and!; try done. intros a Ha%Hr. lia.
Qed.

Lemma get_current_timestamp_range z : 0 <= get_current_timestamp z < 2 ^ 16.
Proof. apply u16_range. Qed.

(** Retiring the old table keeps the new one, whatever the list frees. *)
Lemma retire_table_ok v k cap f t n now id st :
  vinv v k cap f -> Z.of_nat (S k) < 2 ^ 48 -> 0 <= now < 2 ^ 16 -> tables v !! id = None ->
  view t n st f -> cap <= n < 2 ^ 31 ->
  exists v', retire_table (_table v) now (mkVec (<[id := t]> (tables v)) st id (_retired_list v) (_meta v)) = Some v' /\
    vinv v' (S k) n f /\ tables v' !! _table v' = Some t /\ store v' = st.
Proof.
  intros [Hm Hcap (t0 & Ht0 & Hv0) Hz He (la & ds & H & Hr & Hnd & Hnin & Hal)] Hk Hnow Hid Hv Hn.
  pose proof num_pos as Hnum.
  assert (Hidne : forall d, is_Some (tables v !! d) -> d <> id) by (intros d [x Hx] ->; congruence).
  assert (Ha : (new_id (nodes (_retired_list v)) <= S k)%nat).
  { apply new_id_bound. intros a Ha%(h_dom _ _ _ H). by apply Hr. }
  unfold retire_table. cbn [tables store _table _retired_list _meta].
  destruct (vec_retire_ok (_retired_list v) la ds (_table v) now H) as (r' & la' & ds' & out & -> & H' & Hsub & Hout); [|lia|done|].
  { intros a Hla%Hr. lia. }
  cbn [fst snd].
  destruct (delete_tables_ok out (<[id := t]> (tables v))) as (f' & -> & Hf').
  { destruct Hout as [(_ & -> & _)|(_ & -> & _)]; [done|apply NoDup_nil_2]. }
  { intros d Hd. assert (is_Some (tables v !! d)) as Hd'.
    { destruct Hout as [(_ & -> & _)|(_ & -> & _)]; [by apply Hal|by apply elem_of_nil in Hd]. }
    rewrite lookup_insert_ne by (apply not_eq_sym; by apply Hidne). done. }
  assert (Hout_id : (id ∉ out) /\ (_table v ∉ out)).
  { destruct Hout as [(_ & -> & _)|(_ & -> & _)]; [|split; apply not_elem_of_nil]. split; [|done].
    intros Hin%Hal. by apply Hidne in Hin. }
  destruct Hout_id as [Ho1 Ho2].
  assert (Ht : f' !! id = Some t) by (rewrite Hf' by (by left); by rewrite lookup_insert_eq).
  eexists. split; [done|]. split_and!; [|done|done]. split; simpl; try done.
  - lia.
  - eauto.
  - intros i Hi. apply Hz. nia.
  - rewrite Hf' by (by right). rewrite lookup_insert_ne; [done|]. apply not_eq_sym, Hidne. by eexists.
  - exists la', (_table v :: ds'). split_and!; [done| | | |].
    + intros a Hin%Hsub. apply elem_of_cons in Hin as [->|Hin]; [unfold new_id in *; lia|]. destruct (Hr a Hin). lia.
    + apply NoDup_cons. destruct Hout as [(_ & _ & ->)|(_ & _ & ->)]; [split; [apply not_elem_of_nil|apply NoDup_nil_2]|done].
    + apply not_elem_of_cons. split; [apply not_eq_sym, Hidne; by eexists|].
      destruct Hout as [(_ & _ & ->)|(_ & _ & ->)]; [apply not_elem_of_nil|]. intros Hin%Hal. by apply Hidne in Hin.
    + intros d [->|Hd]%elem_of_cons.
      * rewrite Hf' by (by left). rewrite lookup_insert_ne; [by eexists|]. apply not_eq_sym, Hidne. by eexists.
      * destruct Hout as [(_ & _ & ->)|(_ & -> & ->)]; [by apply elem_of_nil in Hd|].
        rewrite Hf' by (left; apply not_elem_of_nil). rewrite lookup_insert_ne; [by apply Hal|]. apply not_eq_sym, Hidne. by apply Hal.
Qed.

Lemma ensure_table_ok v k cap f n now :
  vinv v k cap f -> n < 2 ^ 31 -> Z.of_nat (S k) < 2 ^ 48 -> 0 <= now < 2 ^ 16 ->
  exists t v', ensure_table n now v = Some (t, v') /\ vinv v' (S k) (Z.max cap n) f /\
    tables v' !! _table v' = Some t /\ view t (Z.max cap n) (store v') f.
Proof.
  intros Hi Hn Hk Hnow. pose proof Hi as [Hm Hcap (t & Ht & Hv) Hz He Hret]. unfold ensure_table. rewrite Ht.
  rewrite (v_num _ _ _ _ Hv). destruct (n <=? cap) eqn:E; wz_bool.
  - exists t, v. rewrite Z.max_l by done. split_and!; [done| |done|done]. eapply vinv_weaken; [|done]. lia.
  - destruct (n <? 2 ^ 31) eqn:E2; wz_bool; [|lia]. rewrite Hm.
    destruct (prepare_view t cap (store v) f n Hv) as (new & st & Hp & Hv'); [lia|done|].
    rewrite (v_num _ _ _ _ Hv) in Hp. rewrite Hp.
    destruct (retire_table_ok v k cap f (mkTable n new) n now (new_id (tables v)) st Hi Hk Hnow) as (v' & Hr & Hi' & Ht' & Hst);
      [apply new_id_fresh|done|lia|].
    rewrite Hm in Hr. rewrite Hr. exists (mkTable n new), v'. rewrite Z.max_r by lia. split_and!; [done..|by rewrite Hst].
Qed.

(** * Elements *)

Lemma read_slot_ok t cap st f i : view t cap st f -> 0 <= i ->
  (p <-? slot t m i; read_slot p st) = if i / num <? cap then Some (f i) else None.
Proof.
  intros Hv Hi. destruct (index_split i) as [Ei Ho]. unfold slot. rewrite shard_id_div, shard_offset_mod, (v_num _ _ _ _ Hv).
  destruct (i / num <? cap) eqn:E; wz_bool; [|done].
  destruct (v_shard _ _ _ _ Hv (i / num)) as (id & l & Hid & Hst & _ & Hl); [split; [apply Z.div_pos; [done|apply num_pos]|done]|].
  rewrite Hid. simpl. unfold read_slot. simpl. rewrite Hst, Hl by done. by rewrite <-Ei.
Qed.

Lemma write_slot_ok t cap st f i x : view t cap st f -> 0 <= i -> i / num < cap ->
  exists st', (p <-? slot t m i; write_slot p x st) = Some st' /\ view t cap st' (over i (i + 1) (fun _ => x) f).
Proof.
  intros Hv Hi Hc. destruct (index_split i) as [Ei Ho]. unfold slot. rewrite shard_id_div, shard_offset_mod, (v_num _ _ _ _ Hv).
  destruct (i / num <? cap) eqn:E; wz_bool; [|lia].
  assert (Hk : 0 <= i / num < cap) by (split; [apply Z.div_pos; [done|apply num_pos]|done]).
  destruct (v_shard _ _ _ _ Hv _ Hk) as (id & l & Hid & Hst & Hlen & Hl).
  rewrite Hid. simpl. unfold write_slot. simpl. rewrite Hst.
  destruct (Nat.ltb _ _) eqn:E2; [|apply Nat.ltb_ge in E2; lia]. eexists. split; [done|].
  assert (Hov : forall j, over i (i + 1) (fun _ => x) f j = if j =? i then x else f j).
  { intros j. unfold over. repeat wz_if; try done; lia. }
  eapply view_update; [done|done|done|by rewrite length_insert| |].
  - intros j Hj. rewrite Hov. destruct (_ =? _) eqn:Ej; wz_bool.
    + replace j with (i mod num) by lia. apply list_lookup_insert_eq. lia.
    + rewrite list_lookup_insert_ne by lia. by apply Hl.
  - intros k' j Hk' Hne Hj. rewrite Hov. destruct (_ =? _) eqn:Ej; wz_bool; [|done]. exfalso. apply Hne. pose proof num_pos. nia.
Qed.

Lemma fill_cb_ok x n : forall id p b0 e acc st, True -> 0 <= b0 <= e -> p + (e - b0) <= n ->
  exists xs acc', Z.of_nat (length xs) = e - b0 /\ (forall j, 0 <= j < e - b0 -> xs !! Z.to_nat j = Some x) /\
    fill_cb x id b0 e acc st = (st <-? write_range id b0 xs st; Some (acc', st)) /\ True.
Proof.
  intros id p b0 e acc st _ Hb0 _. exists (replicate (Z.to_nat (e - b0)) x), acc. rewrite length_replicate.
  split_and!; [lia| |done|done]. intros j Hj. apply lookup_replicate_2. lia.
Qed.

(** What the elements of [xs], copied from index [lo] on, are at index [i]. *)
Definition source (xs : list T) (lo i : Z) : T := default dflt (xs !! Z.to_nat (i - lo)).

Lemma copy_cb_ok xs lo : forall id p b0 e iter st,
  lo <= p /\ iter = drop (Z.to_nat (p - lo)) xs -> 0 <= b0 <= e -> p + (e - b0) <= lo + Z.of_nat (length xs) ->
  exists ys iter', Z.of_nat (length ys) = e - b0 /\
    (forall j, 0 <= j < e - b0 -> ys !! Z.to_nat j = Some (source xs lo (p + j))) /\
    copy_cb id b0 e iter st = (st <-? write_range id b0 ys st; Some (iter', st)) /\
    (lo <= p + (e - b0) /\ iter' = drop (Z.to_nat (p + (e - b0) - lo)) xs).
Proof.
  intros id p b0 e iter st [Hp ->] Hb0 Hle. set (d := Z.to_nat (p - lo)). set (l := Z.to_nat (e - b0)).
  exists (take l (drop d xs)), (drop l (drop d xs)).
  assert (Hlen : length (drop d xs) = (length xs - d)%nat) by apply length_drop.
  split_and!; [rewrite length_take; lia| | |lia|rewrite drop_drop; f_equal; lia].
  - intros j Hj. rewrite lookup_take_lt by lia. rewrite lookup_drop. unfold source.
    replace (Z.to_nat (p + j - lo)) with (d + Z.to_nat j)%nat by lia.
    destruct (lookup_lt_is_Some_2 xs (d + Z.to_nat j)) as [x Hx]; [lia|]. by rewrite Hx.
  - unfold copy_cb. fold l. destruct (Nat.leb l (length (drop d xs))) eqn:E; [done|]. apply Nat.leb_gt in E. lia.
Qed.

(** * The vector implements a growing array *)

Lemma set_store_inv v k cap f t st g :
  vinv v k cap f -> tables v !! _table v = Some t -> view t cap st g -> (forall i, cap * num <= i -> g i = dflt) ->
  vinv (set_store st v) k cap g.
Proof. intros [] Ht Hv Hz. split; try done. by exists t. Qed.

End meta.

(** The operations, with the time of those that may retire a table. *)
Inductive Op :=
  | Get (index : Z)
  | Set_ (index : Z) (x : T)
  | Ensure (index : Z) (x : T) (sec : Z)
  | Reserve (size sec : Z)
  | Fill (start len : Z) (x : T) (sec : Z)
  | Copy (xs : list T) (start sec : Z).

Definition exec (o : Op) (v : Vec) : option (option T * Vec) :=
  match o with
  | Get i => x <-? subscript i v; Some (Some x, v)
  | Set_ i x => v <-? subscript_set i x v; Some (None, v)
  | Ensure i x sec => v <-? ensure_set i x (get_current_timestamp sec) v; Some (None, v)
  | Reserve n sec => v <-? reserve n (get_current_timestamp sec) v; Some (None, v)
  | Fill s len x sec => v <-? fill_n s len x (get_current_timestamp sec) v; Some (None, v)
  | Copy xs s sec => v <-? copy_n xs (Z.of_nat (length xs)) s (get_current_timestamp sec) v; Some (None, v)
  end.

Fixpoint exec_all (os : list Op) (v : Vec) : option (list (option T) * Vec) :=
  match os with
  | [] => Some ([], v)
  | o :: os => x <-? exec o v; y <-? exec_all os (snd x); Some (fst x :: fst y, snd y)
  end.

(** The specification: the number of shards of [2 ^ b] elements, and an infinite array; the
    calls that must not be made have no outcome. *)
Definition spec_exec (b : Z) (o : Op) (s : Z * (Z -> T)) : option (option T * (Z * (Z -> T))) :=
  let num := 2 ^ b in
  let '(cap, f) := s in
  match o with
  | Get i => guard (0 <=? i) && (i / num <? cap); Some (Some (f i), s)
  | Set_ i x => guard (0 <=? i) && (i / num <? cap); Some (None, (cap, over i (i + 1) (fun _ => x) f))
  | Ensure i x _ =>
      guard (0 <=? i) && (i / num + 1 <? 2 ^ 31);
      Some (None, (Z.max cap (i / num + 1), over i (i + 1) (fun _ => x) f))
  | Reserve n _ =>
      guard (1 <=? n) && (n <=? 2 ^ 64) && ((n - 1) / num + 1 <? 2 ^ 31);
      Some (None, (Z.max cap ((n - 1) / num + 1), f))
  | Fill lo len x _ =>
      guard (0 <=? lo) && (0 <=? len) && (lo + len <? 2 ^ 31) && (lo / num <? (lo + len) / num);
      Some (None, (Z.max cap (lo + len), over lo (lo + len) (fun _ => x) f))
  | Copy xs lo _ =>
      let len := Z.of_nat (length xs) in
      guard (0 <=? lo) && (lo + len <? 2 ^ 31) && (lo / num <? (lo + len) / num);
      Some (None, (Z.max cap (lo + len), over lo (lo + len) (source xs lo) f))
  end.

Fixpoint spec_all (b : Z) (os : list Op) (s : Z * (Z -> T)) : option (list (option T) * (Z * (Z -> T))) :=
  match os with
  | [] => Some ([], s)
  | o :: os => x <-? spec_exec b o s; y <-? spec_all b os (snd x); Some (fst x :: fst y, snd y)
  end.

Section refinement.
Context (b : Z) (Hb : 0 <= b < 64).
Let num := 2 ^ b.
Let m := mkMeta num b.

Lemma over_zero cap lo hi g f : hi <= cap * num -> (forall i, cap * num <= i -> f i = dflt) ->
  forall i, cap * num <= i -> over lo hi g f i = dflt.
Proof. intros Hhi Hz i Hi. unfold over. wz_if; [lia|by apply Hz]. Qed.

(** One call of [for_each] on the table [ensure_table] returned. *)
Lemma range_ok {A} (cb : nat -> Z -> Z -> A -> gmap nat (list T) -> option (A * gmap nat (list T))) g I v k cap f lo hi now acc :
  (forall id p b0 e acc st, I p acc -> 0 <= b0 <= e -> p + (e - b0) <= hi ->
    exists xs acc', Z.of_nat (length xs) = e - b0 /\
    (forall j, 0 <= j < e - b0 -> xs !! Z.to_nat j = Some (g (p + j))) /\
    cb id b0 e acc st = (st <-? write_range id b0 xs st; Some (acc', st)) /\ I (p + (e - b0)) acc') ->
  vinv b v k cap f -> I lo acc -> Z.of_nat (S k) < 2 ^ 48 -> 0 <= now < 2 ^ 16 ->
  0 <= lo -> hi < 2 ^ 31 -> lo / num < hi / num ->
  exists v', (r <-? ensure_table (u64 hi) now v;
     y <-? for_each cb (fst r) (_meta v) lo (u64 hi) acc (store (snd r)); Some (set_store (snd y) (snd r))) = Some v' /\
    vinv b v' (S k) (Z.max cap hi) (over lo hi g f).
Proof.
  intros Hcb Hi HI Hk Hnow Hlo Hhi Hsh. assert (Hnum : 0 < num) by (apply num_pos; lia).
  assert (Hlh : lo <= hi).
  { destruct (Z.le_gt_cases lo hi) as [|Hgt]; [done|]. assert (hi / num <= lo / num) by (apply Z.div_le_mono; lia). lia. }
  rewrite u64_small by lia.
  destruct (ensure_table_ok b Hb v k cap f hi now Hi) as (t & v' & -> & Hi' & Ht & Hv); [done|done|done|].
  cbn [fst snd]. rewrite (vi_meta _ _ _ _ _ Hi).
  pose proof (vi_cap _ _ _ _ _ Hi') as Hcap'.
  assert (Hle : hi <= Z.max cap hi * num) by nia.
  destruct (for_each_view b Hb cb g I hi Hcb t (Z.max cap hi) (store v') f lo hi acc) as (acc' & st' & -> & Hv' & _); try done; [lia|].
  eexists. split; [done|]. cbn [snd]. eapply set_store_inv; [done|done|done|].
  apply over_zero; [done|]. apply (vi_zero _ _ _ _ _ Hi').
Qed.

Lemma exec_ok o v k cap f r cap' f' :
  vinv b v k cap f -> Z.of_nat (S k) < 2 ^ 48 -> spec_exec b o (cap, f) = Some (r, (cap', f')) ->
  exists v', exec o v = Some (r, v') /\ vinv b v' (S k) cap' f'.
Proof.
  intros Hi Hk Hs. pose proof (vi_cap _ _ _ _ _ Hi) as Hcap. pose proof (vi_meta _ _ _ _ _ Hi) as Hm.
  assert (Hnum : 0 < num) by (apply num_pos; lia).
  destruct (vi_view _ _ _ _ _ Hi) as (t & Ht & Hv).
  assert (Hi' : vinv b v (S k) cap f) by (apply (vinv_weaken b Hb _ k); [lia|done]).
  assert (Hu : forall i, 0 <= i -> i / num < 2 ^ 31 -> u64 (i / num + 1) = i / num + 1).
  { intros i Hi0 Hlt. apply u64_small. pose proof (Z.div_pos i num Hi0 Hnum). lia. }
  destruct o; simpl in Hs; change (2 ^ b) with num in Hs; wz_run; unfold exec.
  - unfold subscript. rewrite Ht, Hm, (read_slot_ok b Hb _ _ _ _ _ Hv) by done. fold num.
    destruct (index / num <? cap') eqn:E; wz_bool; [|lia]. by exists v.
  - unfold subscript_set. rewrite Ht, Hm.
    destruct (write_slot_ok b Hb _ _ _ _ index x Hv) as (st' & Hw & Hv'); [done|done|].
    destruct (slot t _ index) as [p|]; [|done]. rewrite Hw. eexists. split; [done|].
    eapply set_store_inv; [done|done|done|]. apply over_zero; [|apply (vi_zero _ _ _ _ _ Hi)].
    assert (index < cap' * num) by (pose proof (index_split b Hb index) as Hx; change (2 ^ b) with num in Hx; nia). lia.
  - unfold ensure_set. rewrite Hm, (shard_id_div b Hb). fold num. rewrite Hu by lia.
    destruct (ensure_table_ok b Hb v k cap f (index / num + 1) (get_current_timestamp sec) Hi) as (t' & v' & -> & Hi2 & Ht' & Hv');
      [lia|done|apply get_current_timestamp_range|].
    cbn [fst snd]. destruct (write_slot_ok b Hb _ _ _ _ index x Hv') as (st' & Hw & Hv2); [done|fold num; lia|].
    change (mkMeta (2 ^ b) b) with m in Hw. change (mkMeta num b) with m.
    destruct (slot t' m index) as [p|]; [|done]. rewrite Hw. eexists. split; [done|].
    eapply set_store_inv; [done|done|done|]. apply over_zero; [|apply (vi_zero _ _ _ _ _ Hi2)].
    pose proof (index_split b Hb index) as Hx. change (2 ^ b) with num in Hx. nia.
  - unfold reserve, require_shard_num. rewrite Hm, (shard_id_div b Hb). fold num.
    rewrite (u64_small (size - 1)) by lia. rewrite Hu by lia.
    destruct (ensure_table_ok b Hb v k cap f' ((size - 1) / num + 1) (get_current_timestamp sec) Hi) as (t' & v' & -> & Hi2 & _);
      [lia|done|apply get_current_timestamp_range|]. by exists v'.
  - unfold fill_n.
    destruct (range_ok (fill_cb x) (fun _ => x) (fun _ _ => True) v k cap f start (start + len) (get_current_timestamp sec) ())
      as (v' & -> & Hi2); try done; [apply (fill_cb_ok b Hb)|apply get_current_timestamp_range|]. by exists v'.
  - unfold copy_n.
    destruct (range_ok copy_cb (source xs start) (fun p it => start <= p /\ it = drop (Z.to_nat (p - start)) xs)
      v k cap f start (start + Z.of_nat (length xs)) (get_current_timestamp sec) xs)
      as (v' & -> & Hi2); try done; [apply (copy_cb_ok b Hb)| |apply get_current_timestamp_range|by exists v'].
    split; [done|]. by rewrite Z.sub_diag.
Qed.

Lemma exec_all_ok os : forall v k cap f outs cap' f',
  vinv b v k cap f -> Z.of_nat (k + length os) < 2 ^ 48 -> spec_all b os (cap, f) = Some (outs, (cap', f')) ->
  exists v', exec_all os v = Some (outs, v') /\ vinv b v' (k + length os) cap' f'.
Proof.
  induction os as [|o os IH]; intros v k cap f outs cap' f' Hi Hk Hs; cbn [spec_all exec_all length] in *.
  - simplify_eq. exists v. by rewrite Nat.add_0_r.
  - destruct (spec_exec b o (cap, f)) as [[r [cap1 f1]]|] eqn:E1; [|done]. cbn [fst snd] in Hs.
    destruct (spec_all b os (cap1, f1)) as [[outs1 s1]|] eqn:E2; [|done]. simplify_eq/=.
    destruct (exec_ok o v k cap f r cap1 f1 Hi) as (v1 & -> & Hi1); [lia|done|]. cbn [fst snd].
    destruct (IH v1 (S k) cap1 f1 outs1 cap' f' Hi1) as (v' & -> & Hi'); [lia|done|]. exists v'. split; [done|].
    by rewrite Nat.add_succ_r.
Qed.

Lemma vec_ctor_inv nextPowTwo n : b <= 32 -> nextPowTwo n = 2 ^ b -> vinv b (ctor_ nextPowTwo n) 0 0 (fun _ => dflt).
Proof.
  intros Hb32 Hn. split; simpl; try done.
  - by rewrite Hn, popcount_ones by lia.
  - exists EMPTY_TABLE. split; [done|]. split; simpl; try done; intros; lia.
  - exists [], []. split_and!; [apply ctor_holds|by intros ? ?%elem_of_nil|apply NoDup_nil_2|apply not_elem_of_nil|by intros ? ?%elem_of_nil].
Qed.

End refinement.

(** * Several threads in [ensure_table] *)

(** [Prepare]: about to fill the new table from [old_table]; [Cas]: about to exchange. *)
Inductive PC :=
  | Idle
  | Prepare (old_table : nat) (old_shard_num n : Z) (new_table : nat)
  | Cas (old_table : nat) (old_shard_num n : Z) (new_table : nat).

(** A thread evaluates [vec.ensure(index) = x]. *)
Record Local := mkLocal { pc : PC; l_index : Z; l_value : T }.

Record System := mkSystem { vec : Vec; threads : list Local }.

(** The assignment through the reference [ensure] returned, which ends the call. *)
Definition assign (t : Table) (l : Local) (v : Vec) : option (Local * Vec) :=
  p <-? slot t (_meta v) (l_index l);
  st <-? write_slot p (l_value l) (store v);
  Some (mkLocal Idle (l_index l) (l_value l), set_store st v).

Definition grow_start (index : Z) (x : T) (v : Vec) : option (Local * Vec) :=
  let n := u64 (get_shard_id (_meta v) index + 1) in
  old <-? tables v !! _table v;
  if n <=? shard_num old then assign old (mkLocal Idle index x) v
  else guard (n <? 2 ^ 31);
    let id := new_id (tables v) in
    Some (mkLocal (Prepare (_table v) (shard_num old) n id) index x,
          mkVec (<[id := mkTable n (replicate (Z.to_nat n) None)]> (tables v)) (store v) (_table v) (_retired_list v) (_meta v)).

(** One step of a call: the filling of the private table, or the exchange and what follows
    it; after a failed exchange [old_table] is the current table, but [old_shard_num] is
    still the size of the first one. *)
Definition grow_step (now : Z) (l : Local) (v : Vec) : option (Local * Vec) :=
  match pc l with
  | Idle => Some (l, v)
  | Prepare old_table old_shard_num n id =>
      old <-? tables v !! old_table;
      t <-? tables v !! id;
      let '(new, st) := prepare (_meta v) old old_shard_num n (shards t) (store v) in
      Some (mkLocal (Cas old_table old_shard_num n id) (l_index l) (l_value l),
            mkVec (<[id := mkTable n new]> (tables v)) st (_table v) (_retired_list v) (_meta v))
  | Cas old_table old_shard_num n id =>
      if decide (_table v = old_table)
      then v <-? retire_table old_table now (mkVec (tables v) (store v) id (_retired_list v) (_meta v));
           t <-? tables v !! id;
           assign t l v
      else
        old <-? tables v !! _table v;
        if n <? shard_num old
        then f <-? delete_table id (tables v);
             assign old l (mkVec f (store v) (_table v) (_retired_list v) (_meta v))
        else Some (mkLocal (Prepare (_table v) old_shard_num n id) (l_index l) (l_value l), v)
  end.

Inductive Act := Start (index : Z) (x : T) | Go (now : Z).

Definition sys_step (i : nat) (a : Act) (s : System) : option System :=
  l <-? threads s !! i;
  r <-? match a, pc l with
        | Start index x, Idle => grow_start index x (vec s)
        | Start _ _, _ => Some (l, vec s)
        | Go now, _ => grow_step now l (vec s)
        end;
  Some (mkSystem (snd r) (<[i := fst r]> (threads s))).

Fixpoint sys_run (sched : list (nat * Act)) (s : System) : option System :=
  match sched with
  | [] => Some s
  | (i, a) :: sched => s <-? sys_step i a s; sys_run sched s
  end.

End vector.

(** * The properties *)


(** The unit tests' ranges on shards of four elements, with growth across two time units. *)
Definition sample_ops : list (Op (T := Z)) :=
  [Reserve 5 0; Set_ 3 33; Fill 2 8 666 10; Get 1; Get 2; Get 9; Get 10; Get 3; Ensure 60 7 70;
   Copy [1; 2; 3; 4; 5; 6; 7; 8] 2 140; Get 2; Get 9; Get 60; Get 59].

Definition sample_pow2 (n : Z) : Z := 2 ^ Z.log2_up n.




(** The grace period can be empty: a table retired at second 63 is freed by the next
    retirement at second 64, although one unit is meant to be 64 seconds. *)
Lemma grace_period_may_be_short :
  fst <$> retire_all [(1%nat, get_current_timestamp 63); (2%nat, get_current_timestamp 64)] RetireList.ctor = Some [1%nat].
Proof. vm_compute. reflexivity. Qed.

(** Two threads growing the vector at the same time lose an element: thread 1's
    [ensure(0) = 7] has returned, and after thread 0's [ensure(4) = 8], which lost the
    exchange once, index 0 holds the default again: the retry replaces the shards from the
    first table's size on, thread 1's among them. *)
Theorem growing_twice_loses_elements :
  exists s1 s2,
    sys_run 0 [(0%nat, Start 4 8); (0%nat, Go 0); (1%nat, Start 0 7); (1%nat, Go 0); (1%nat, Go 0)]
      (mkSystem (ctor_ sample_pow2 4) [mkLocal Idle 0 0; mkLocal Idle 0 0]) = Some s1 /\
    (pc <$> threads s1 !! 1%nat) = Some Idle /\ subscript 0 (vec s1) = Some 7 /\
    sys_run 0 [(0%nat, Go 0); (0%nat, Go 0); (0%nat, Go 0)]
      s1 = Some s2 /\ (pc <$> threads s2 !! 0%nat) = Some Idle /\ subscript 0 (vec s2) = Some 0 /\ subscript 4 (vec s2) = Some 8.
Proof.
  destruct (sys_run _ _ (mkSystem _ _)) as [s1|] eqn:E1; [|by vm_compute in E1]. exists s1.
  destruct (sys_run _ _ s1) as [s2|] eqn:E2; [|vm_compute in E1; simplify_eq; by vm_compute in E2]. exists s2.
  vm_compute in E1. simplify_eq. vm_compute in E2. simplify_eq. split_and!; reflexivity.
Qed.

(** A range inside one shard is undefined behaviour in [fill_n], whatever the vector. *)
Lemma fill_n_same_shard {T : Type} (dflt x : T) b v k cap f lo len now :
  0 <= b < 64 -> vinv dflt b v k cap f -> Z.of_nat (S k) < 2 ^ 48 -> 0 <= now < 2 ^ 16 ->
  0 <= lo -> 0 <= len -> lo + len < 2 ^ 31 -> lo / 2 ^ b = (lo + len) / 2 ^ b -> fill_n dflt lo len x now v = None.
Proof.
  intros Hb Hi Hk Hnow Hlo Hlen Hhi Heq. unfold fill_n. rewrite u64_small by lia.
  destruct (ensure_table_ok dflt b Hb v k cap f (lo + len) now Hi) as (t & v' & -> & Hi' & Ht & Hv); [done|done|done|].
  cbn [fst snd]. rewrite (vi_meta _ _ _ _ _ _ Hi), for_each_same_shard; [done|done|done|done|].
  rewrite (v_num _ _ _ _ _ Hv). pose proof (vi_cap _ _ _ _ _ _ Hi). lia.
Qed.

(** [reserve(0)] asks for as many shards as there are for [2 ^ 64] elements. *)
Lemma reserve_zero b : 0 < b < 64 -> require_shard_num (mkMeta (2 ^ b) b) 0 = 2 ^ (64 - b).
Proof.
  intros Hb. unfold require_shard_num. rewrite shard_id_div by lia.
  replace (u64 (0 - 1)) with (2 ^ 64 - 1) by done.
  replace ((2 ^ 64 - 1) / 2 ^ b) with (2 ^ (64 - b) - 1).
  - rewrite Z.sub_add. apply u64_small. split; [apply Z.pow_nonneg; lia|apply Z.pow_lt_mono_r; lia].
  - assert (E : 2 ^ 64 = 2 ^ (64 - b) * 2 ^ b) by (rewrite <-Z.pow_add_r by lia; f_equal; lia).
    assert (H2 : 1 < 2 ^ b) by (apply Z.pow_gt_1; lia).
    apply Z.div_unique with (2 ^ b - 1); lia.
Qed.

(** The size given to [aligned_alloc] is a multiple of 64 greater than what is needed. *)
Lemma aligned_size_spec bytes : 0 <= bytes < 2 ^ 64 - 64 ->
  aligned_size bytes = 64 * ((bytes + 64) / 64) /\ bytes < aligned_size bytes <= bytes + 64.
Proof.
  intros Hb. assert (E : aligned_size bytes = 64 * ((bytes + 64) / 64)).
  { unfold aligned_size. rewrite u64_small by lia. set (x := bytes + 64).
    replace (64 * (x / 64)) with (Z.shiftl (Z.shiftr x 6) 6) by (rewrite Z.shiftl_mul_pow2, Z.shiftr_div_pow2 by lia; change (2 ^ 6) with 64; lia).
    replace (2 ^ 64 - 64) with (Z.shiftl (Z.ones 58) 6) by done. apply Z.bits_inj'. intros i Hi. rewrite Z.land_spec.
    destruct (decide (i < 6)).
    - rewrite !Z.shiftl_spec_low by done. apply andb_false_r.
    - rewrite !Z.shiftl_spec, Z.shiftr_spec by lia. rewrite Z.sub_add.
      destruct (decide (i < 64)); [rewrite Z.ones_spec_low by lia; apply andb_true_r|].
      rewrite Z.ones_spec_high by lia. rewrite andb_false_r. symmetry.
      apply (proj1 (Z.bounded_iff_bits_nonneg' 64 x ltac:(lia) ltac:(lia)) ltac:(lia)). lia. }
  split; [done|]. rewrite E. pose proof (Z.div_mod (bytes + 64) 64 ltac:(lia)). pose proof (Z.mod_pos_bound (bytes + 64) 64 ltac:(lia)). lia.
Qed.

End Vector.
