(* ===== verification/FeatureTable.v ===== *)
(** The columnar table of src/src/feature_table.cpp: a list of row indices shared by all
    columns ([IdxList]), the columns ([DataVector]), the static per-type registry of
    columns ([HeterogeneousVector::items]) and [FeatureTable].

    The store holds what the shared pointers point to. [None] is undefined behaviour or an
    exception that ends the program ([vector::at], a null column). Values of all types are
    values of [V]; a type is a number, which selects the static [items<T>]. [std::sort] is
    a parameter. Printing is left out. *)
From S2P Require Import Prelude.
From stdpp Require Import strings sorting.
Local Open Scope Z_scope.
Local Open Scope wz.

Module FeatureTable.

(** * The list of visible rows *)

Record IdxList := mkIdx { list_ : list Z; max_idx : Z }.

Definition IdxList_new : IdxList := mkIdx [] (-1).

Definition add_idx (new_idx : Z) (x : IdxList) : IdxList :=
  if max_idx x <? new_idx then mkIdx (list_ x ++ [new_idx]) new_idx else x.

(** [list.erase(list.begin() + i)]. *)
Definition erase {A} (i : nat) (l : list A) : option (list A) :=
  _ <-? l !! i; Some (take i l ++ drop (S i) l).

Definition remove_row_idx (i : nat) (x : IdxList) : option IdxList :=
  l <-? erase i (list_ x);
  Some (mkIdx l (foldl Z.max (-1) l)).

Section table.
Context {V : Type}.

(** * Columns *)

(** [idx_] is a shared pointer to an [IdxList]. *)
Record DataVector := mkVec { data_ : list V; idx_ : nat }.

(** What the shared pointers point to, and [items<T>] for each type [T]. *)
Record Store := mkStore {
  idxs : gmap nat IdxList; vecs : gmap nat DataVector; items : gmap nat (list (option nat))
}.

Definition set_idxs (f : gmap nat IdxList) (s : Store) : Store := mkStore f (vecs s) (items s).
Definition set_vecs (f : gmap nat DataVector) (s : Store) : Store := mkStore (idxs s) f (items s).

(** The default constructor makes its own [IdxList]. *)
Definition DataVector_default (s : Store) : DataVector * Store :=
  let a := new_id (idxs s) in (mkVec [] a, set_idxs (<[a := IdxList_new]> (idxs s)) s).

Definition DataVector_new (idx : nat) : DataVector := mkVec [] idx.

Definition DataVector_copy (other : DataVector) : DataVector := mkVec (data_ other) (idx_ other).

Definition set_idx (idx : nat) (d : DataVector) : DataVector := mkVec (data_ d) idx.

Definition push_back (v : nat) (value : V) (s : Store) : option Store :=
  d <-? vecs s !! v;
  x <-? idxs s !! idx_ d;
  let new_idx := Z.of_nat (length (data_ d)) in
  Some (set_vecs (<[v := mkVec (data_ d ++ [value]) (idx_ d)]> (vecs s))
          (set_idxs (<[idx_ d := add_idx new_idx x]> (idxs s)) s)).

Definition get_by_idx (d : DataVector) (idx : Z) : option V :=
  if 0 <=? idx then data_ d !! Z.to_nat idx else None.

(** [operator[]] and [at]. *)
Definition vec_at (v : nat) (i : nat) (s : Store) : option V :=
  d <-? vecs s !! v;
  x <-? idxs s !! idx_ d;
  idx <-? list_ x !! i;
  get_by_idx d idx.

Definition front (v : nat) (s : Store) : option V := vec_at v 0 s.

Definition back (v : nat) (s : Store) : option V :=
  d <-? vecs s !! v; x <-? idxs s !! idx_ d; idx <-? last (list_ x); get_by_idx d idx.

(** [DataVector::remove]: [max_idx] stays. *)
Definition remove (v : nat) (i : nat) (s : Store) : option Store :=
  d <-? vecs s !! v;
  x <-? idxs s !! idx_ d;
  l <-? erase i (list_ x);
  Some (set_idxs (<[idx_ d := mkIdx l (max_idx x)]> (idxs s)) s).

Definition size_ (v : nat) (s : Store) : option nat :=
  d <-? vecs s !! v; x <-? idxs s !! idx_ d; Some (length (list_ x)).

(** [RemoveFunctor]: [for (i = begin; i < end; ++i) vec.remove(i)]. *)
Fixpoint remove_range (v : nat) (begin_ count : nat) (s : Store) : option Store :=
  match count with
  | O => Some s
  | S count => s <-? remove v begin_ s; remove_range v (S begin_) count s
  end.

(** * The registry of columns by type *)

Definition items_of (ty : nat) (s : Store) : list (option nat) := default [] (items s !! ty).

(** [*items<T>.at(id_)]. *)
Definition get_vector (ty id : nat) (s : Store) : option nat := mjoin (items_of ty s !! id).

Definition hv_push_back (ty id : nat) (value : V) (s : Store) : option Store :=
  v <-? get_vector ty id s; push_back v value s.

(** [items<T>.resize(id_ + 1, nullptr)] and the creation of the column. *)
Definition get_or_create_vector (ty id idx : nat) (s : Store) : option (nat * Store) :=
  let l := items_of ty s in
  if Nat.leb (length l) id
  then let v := new_id (vecs s) in
       Some (v, mkStore (idxs s) (<[v := DataVector_new idx]> (vecs s))
                  (<[ty := l ++ replicate (id - length l) None ++ [Some v]]> (items s)))
  else v <-? get_vector ty id s; Some (v, s).

(** [change] with a [RemoveFunctor] over the types [tys]: null or missing columns are
    skipped. *)
Fixpoint change_remove (tys : list nat) (id begin_ end_ : nat) (s : Store) : option Store :=
  match tys with
  | [] => Some s
  | ty :: tys =>
      s <-? match get_vector ty id s with
            | Some v => remove_range v begin_ (end_ - begin_) s
            | None => Some s
            end;
      change_remove tys id begin_ end_ s
  end.

(** * The table *)

(** A column of [columns_] is null or the [id_] of its [HeterogeneousVector]. *)
Record FeatureTable := mkTable { columns_ : list (option nat); t_idx : nat; name_to_idx_ : gmap string nat }.

Definition FeatureTable_new (feature_size : nat) (s : Store) : FeatureTable * Store :=
  let a := new_id (idxs s) in
  (mkTable (replicate feature_size None) a ∅, set_idxs (<[a := IdxList_new]> (idxs s)) s).

Definition ensure_column_id (column_name : string) (t : FeatureTable) : nat * FeatureTable :=
  match name_to_idx_ t !! column_name with
  | None =>
      let new_column_id := size (name_to_idx_ t) in
      (new_column_id, mkTable (columns_ t) (t_idx t) (<[column_name := new_column_id]> (name_to_idx_ t)))
  | Some id => (id, t)
  end.

(** -1 when there is no such column. *)
Definition get_column_id (column_name : string) (t : FeatureTable) : Z :=
  match name_to_idx_ t !! column_name with Some id => Z.of_nat id | None => -1 end.

(** [*columns_[column_id]->get_vector<T>()]. *)
Definition get_column (ty : nat) (column_id : Z) (t : FeatureTable) (s : Store) : option nat :=
  if column_id <? 0 then None
  else id <-? mjoin (columns_ t !! Z.to_nat column_id); get_vector ty id s.

Definition get_column_by_name (ty : nat) (column_name : string) (t : FeatureTable) (s : Store) : option nat :=
  get_column ty (get_column_id column_name t) t s.

Definition get_and_init_column (ty column_id : nat) (t : FeatureTable) (s : Store) : option (nat * Store) :=
  id <-? mjoin (columns_ t !! column_id); get_or_create_vector ty id (t_idx t) s.

Definition create_column (ty : nat) (column_name : string) (t : FeatureTable) (s : Store)
    : option (nat * FeatureTable * Store) :=
  let '(column_id, t) := ensure_column_id column_name t in
  _ <-? columns_ t !! column_id;
  let t := mkTable (<[column_id := Some column_id]> (columns_ t)) (t_idx t) (name_to_idx_ t) in
  r <-? get_and_init_column ty column_id t s;
  Some (fst r, t, snd r).

Definition remove_row (row : nat) (t : FeatureTable) (s : Store) : option Store :=
  x <-? idxs s !! t_idx t;
  x <-? remove_row_idx row x;
  Some (set_idxs (<[t_idx t := x]> (idxs s)) s).

Definition row_size (t : FeatureTable) (s : Store) : option nat :=
  x <-? idxs s !! t_idx t; Some (length (list_ x)).

(** [for (i = 0; i < vec.size(); ++i) if (is_filter(vec[i])) idx_->remove_row(i);]: [i]
    grows and [size] does not, so the initial size is fuel enough. *)
Fixpoint filter_loop (fuel : nat) (v : nat) (is_filter : V -> bool) (i : nat) (t : FeatureTable) (s : Store)
    : option Store :=
  n <-? size_ v s;
  if Nat.leb n i then Some s
  else match fuel with
       | O => None
       | S fuel =>
           x <-? vec_at v i s;
           s <-? (if is_filter x then remove_row i t s else Some s);
           filter_loop fuel v is_filter (S i) t s
       end.

Definition filter_ (ty : nat) (column_name : string) (is_filter : V -> bool) (t : FeatureTable) (s : Store) : option Store :=
  v <-? get_column_by_name ty column_name t s;
  n <-? size_ v s;
  filter_loop n v is_filter 0 t s.

(** [std::sort] with a comparison of row indices; a failed read makes the call undefined. *)
Context (std_sort : (Z -> Z -> bool) -> list Z -> list Z).

Definition sort_by (ty : nat) (column_name : string) (comp : V -> V -> bool) (t : FeatureTable) (s : Store) : option Store :=
  v <-? get_column_by_name ty column_name t s;
  d <-? vecs s !! v;
  x <-? idxs s !! t_idx t;
  _ <-? mapM (get_by_idx d) (list_ x);
  let less idx1 idx2 :=
    match get_by_idx d idx1, get_by_idx d idx2 with Some a, Some b => comp a b | _, _ => false end in
  Some (set_idxs (<[t_idx t := mkIdx (std_sort less (list_ x)) (max_idx x)]> (idxs s)) s).

(** * What [filter] keeps *)

(** The row after a removed one is not examined. *)
Fixpoint filter_ref {A} (p : A -> bool) (l : list A) : list A :=
  match l with
  | [] => []
  | x :: l => if p x then match l with [] => [] | y :: l => y :: filter_ref p l end
              else x :: filter_ref p l
  end.

(** Two neighbours that both match. *)
Fixpoint adjacent_match {A} (p : A -> bool) (l : list A) : bool :=
  match l with
  | x :: l => (p x && match l with y :: _ => p y | [] => false end) || adjacent_match p l
  | [] => false
  end.

Section filter_ref.
Context {A : Type} (p : A -> bool).

Lemma filter_ref_keeps_unmatched l : (forall x, x ∈ l -> p x = false) -> filter_ref p l = l.
Proof.
  induction l as [|x l IH]; simpl; [done|]. intros H. rewrite H by (by left). f_equal. apply IH. intros; apply H; by right.
Qed.

(** Strong induction in steps of one or two elements, as the loop goes. *)
Lemma pair_ind (P : list A -> Prop) :
  P [] -> (forall x, P [x]) -> (forall x y l, P l -> P (y :: l) -> P (x :: y :: l)) -> forall l, P l.
Proof.
  intros H0 H1 H2 l. enough (H : P l /\ forall x, P (x :: l)) by apply H.
  induction l as [|y l [IH1 IH2]]; [done|]. split; [apply IH2|]. intros x. by apply H2.
Qed.

Lemma filter_ref_length l : (length (filter (fun x => p x = false) l) <= length (filter_ref p l))%nat.
Proof.
  induction l as [|x|x y l IH1 IH2] using pair_ind; [done| |].
  - simpl. rewrite filter_cons. destruct (p x) eqn:E; [|done]. by rewrite decide_False.
  - simpl filter_ref. rewrite filter_cons. destruct (p x) eqn:E; simpl in *.
    + rewrite filter_cons. case_decide; simpl; lia.
    + lia.
Qed.

(** The loop removes exactly the matching rows when no two of them are neighbours, and
    never otherwise. *)
Lemma filter_ref_iff l : filter_ref p l = filter (fun x => p x = false) l <-> adjacent_match p l = false.
Proof.
  induction l as [|x|x y l IH1 IH2] using pair_ind; [done| |].
  - simpl. rewrite filter_cons. destruct (p x) eqn:E; [by rewrite decide_False|by rewrite decide_True].
  - change (adjacent_match p (x :: y :: l)) with ((p x && p y) || adjacent_match p (y :: l))%bool.
    rewrite filter_cons. simpl filter_ref. destruct (p x) eqn:Ex.
    + rewrite decide_False by done. simpl. destruct (p y) eqn:Ey.
      * split; [|done]. rewrite filter_cons, decide_False by congruence. intros H.
        pose proof (filter_ref_length l) as Hl. rewrite <-H in Hl. simpl in Hl. lia.
      * rewrite filter_cons, decide_True by done. simpl.
        rewrite <-IH1. split; [by intros [= ?]|by intros ->].
    + rewrite decide_True by done. simpl orb. rewrite <-IH2. simpl filter_ref. split; [by intros [= ?]|by intros ->].
Qed.
End filter_ref.

(** * The table as a list of rows *)

Definition col_is (k : nat) (r : list V) (x : V) : Prop := r !! k = Some x.

(** Column [k] of the table, of type [ty], holds the [k]-th entries of the rows [h]. *)
Definition col_rep (t : FeatureTable) (s : Store) (k : nat) (name : string) (ty : nat) (v : nat) (h : list (list V)) : Prop :=
  name_to_idx_ t !! name = Some k /\ columns_ t !! k = Some (Some k) /\ get_vector ty k s = Some v /\
  exists d, vecs s !! v = Some (mkVec d (t_idx t)) /\ Forall2 (col_is k) h d.

Record idx_rep (x : IdxList) (il : list nat) (n : nat) : Prop := {
  x_list : list_ x = Z.of_nat <$> il;
  x_max : max_idx x < Z.of_nat n;
  x_le : forall i, i ∈ il -> Z.of_nat i <= max_idx x
}.

(** The columns [cols], named and typed; the rows ever appended, [hist], and the visible
    ones, [rows]. *)
Record table_rep (t : FeatureTable) (cols : list (string * nat)) (s : Store) (hist rows : list (list V)) : Prop := {
  r_cols : exists vs : list nat, NoDup vs /\ length vs = length cols /\
    forall k name ty v, cols !! k = Some (name, ty) -> vs !! k = Some v -> col_rep t s k name ty v hist;
  r_idx : exists x il, idxs s !! t_idx t = Some x /\ idx_rep x il (length hist) /\
    Forall2 (fun i r => hist !! i = Some r) il rows
}.

Lemma col_rep_column t s k name ty v h : col_rep t s k name ty v h -> get_column_by_name ty name t s = Some v.
Proof.
  intros (Hn & Hc & Hv & _). unfold get_column_by_name, get_column, get_column_id. rewrite Hn.
  destruct (Z.of_nat k <? 0) eqn:E; wz_bool; [lia|]. rewrite Nat2Z.id, Hc. simpl. by rewrite Hv.
Qed.

Lemma rep_col t cols s hist rows k name ty :
  table_rep t cols s hist rows -> cols !! k = Some (name, ty) -> exists v, col_rep t s k name ty v hist.
Proof.
  intros [(vs & _ & Hl & Hc) _] Hk. destruct (lookup_lt_is_Some_2 vs k) as [v Hv].
  { rewrite Hl. by eapply lookup_lt_Some. }
  exists v. by eapply Hc.
Qed.

(** Reading a cell. *)
Lemma vec_at_ok t cols s hist rows k name ty v i :
  table_rep t cols s hist rows -> col_rep t s k name ty v hist ->
  vec_at v i s = (r <-? rows !! i; r !! k).
Proof.
  intros [_ (x & il & Hx & [Hl _ _] & Hrows)] (_ & _ & _ & d & Hd & Hcol).
  unfold vec_at. rewrite Hd. simpl. rewrite Hx, Hl, list_lookup_fmap.
  destruct (il !! i) as [j|] eqn:Ej; simpl.
  - destruct (Forall2_lookup_l _ _ _ _ _ Hrows Ej) as (r & -> & Hr). unfold get_by_idx. simpl.
    destruct (0 <=? Z.of_nat j) eqn:E; wz_bool; [|lia]. rewrite Nat2Z.id.
    destruct (Forall2_lookup_l _ _ _ _ _ Hcol Hr) as (y & -> & ->). done.
  - apply lookup_ge_None in Ej. rewrite (Forall2_length _ _ _ Hrows) in Ej.
    by rewrite (proj2 (lookup_ge_None _ _) Ej).
Qed.

Lemma size_ok t cols s hist rows k name ty v :
  table_rep t cols s hist rows -> col_rep t s k name ty v hist -> size_ v s = Some (length rows).
Proof.
  intros [_ (x & il & Hx & [Hl _ _] & Hrows)] (_ & _ & _ & d & Hd & _).
  unfold size_. rewrite Hd. simpl. rewrite Hx, Hl, length_fmap. by rewrite (Forall2_length _ _ _ Hrows).
Qed.

Lemma row_size_ok t cols s hist rows : table_rep t cols s hist rows -> row_size t s = Some (length rows).
Proof.
  intros [_ (x & il & Hx & [Hl _ _] & Hrows)]. unfold row_size.
  rewrite Hx, Hl, length_fmap. by rewrite (Forall2_length _ _ _ Hrows).
Qed.

(** Replacing the visible indices. *)
Lemma rep_set_idx t cols s hist rows rows' x il :
  table_rep t cols s hist rows -> idx_rep x il (length hist) -> Forall2 (fun i r => hist !! i = Some r) il rows' ->
  table_rep t cols (set_idxs (<[t_idx t := x]> (idxs s)) s) hist rows'.
Proof.
  intros [Hc _] Hx Hr. split.
  - destruct Hc as (vs & ? & ? & Hc). exists vs. done.
  - exists x, il. split; [by simpl; rewrite lookup_insert_eq|done].
Qed.

Lemma foldl_max_spec (il : list nat) : forall z n, z < Z.of_nat n -> (forall i, i ∈ il -> (i < n)%nat) ->
  foldl Z.max z (Z.of_nat <$> il) < Z.of_nat n /\ z <= foldl Z.max z (Z.of_nat <$> il) /\
  forall i, i ∈ il -> Z.of_nat i <= foldl Z.max z (Z.of_nat <$> il).
Proof.
  induction il as [|j il IH]; intros z n Hz Hil; simpl.
  - split_and!; [done|lia|by intros ? ?%elem_of_nil].
  - pose proof (Hil j ltac:(by left)).
    destruct (IH (Z.max z (Z.of_nat j)) n) as (H1 & H2 & H3); [lia|intros; apply Hil; by right|].
    split_and!; [done|etrans; [|exact H2]; lia|].
    intros i [->|Hi]%elem_of_cons; [etrans; [|exact H2]; lia|by apply H3].
Qed.

Lemma erase_ok {A} i (l : list A) : (i < length l)%nat -> erase i l = Some (take i l ++ drop (S i) l).
Proof. intros Hi. unfold erase. by destruct (lookup_lt_is_Some_2 l i Hi) as [x ->]. Qed.

(** [remove_row] removes the row from every column at once. *)
Lemma remove_row_ok t cols s hist rows i :
  table_rep t cols s hist rows -> (i < length rows)%nat ->
  exists s', remove_row i t s = Some s' /\ table_rep t cols s' hist (take i rows ++ drop (S i) rows).
Proof.
  intros Hrep Hi. pose proof Hrep as [_ (x & il & Hx & [Hl Hm Hle] & Hrows)].
  pose proof (Forall2_length _ _ _ Hrows) as Hlen. unfold remove_row, remove_row_idx. rewrite Hx, Hl.
  rewrite erase_ok by (rewrite length_fmap; lia). rewrite <-fmap_take, <-fmap_drop, <-fmap_app.
  eexists. split; [done|].
  assert (Hin : forall j, j ∈ take i il ++ drop (S i) il -> (j < length hist)%nat).
  { intros j Hj. assert (j ∈ il) as Hj'.
    { rewrite <-(take_drop (S i) il). apply elem_of_app in Hj as [Hj|Hj]; apply elem_of_app; [left|by right].
      rewrite list_elem_of_lookup in *. destruct Hj as [k Hk]. exists k. apply lookup_take_Some in Hk as [? ?].
      apply lookup_take_Some. split; [done|lia]. }
    apply list_elem_of_lookup in Hj' as [k Hk]. destruct (Forall2_lookup_l _ _ _ _ _ Hrows Hk) as (r & _ & Hr).
    by apply lookup_lt_Some in Hr. }
  destruct (foldl_max_spec (take i il ++ drop (S i) il) (-1) (length hist)) as (H1 & _ & H3); [lia|done|].
  eapply rep_set_idx; [done|split; [done|exact H1|exact H3]|].
  apply Forall2_app; [by apply Forall2_take|by apply Forall2_drop].
Qed.

(** [filter] examines and removes rows as [filter_ref] does. *)
Lemma filter_loop_ok t cols hist k name ty v p fuel : forall s pre suf,
  table_rep t cols s hist (pre ++ suf) -> cols !! k = Some (name, ty) -> get_column_by_name ty name t s = Some v ->
  Forall (fun r => length r = length cols) suf -> (length suf <= fuel)%nat ->
  exists s', filter_loop fuel v p (length pre) t s = Some s' /\
    table_rep t cols s' hist (pre ++ filter_ref (fun r => default false (p <$> r !! k)) suf).
Proof.
  induction fuel as [|fuel IH]; intros s pre suf Hrep Hk Hv Hwf Hf;
    (destruct (rep_col _ _ _ _ _ _ _ _ Hrep Hk) as [v' Hcol]; pose proof (col_rep_column _ _ _ _ _ _ _ Hcol);
     assert (v' = v) as -> by congruence); cbn [filter_loop];
    rewrite (size_ok _ _ _ _ _ _ _ _ _ Hrep Hcol), length_app.
  - destruct suf; [|simpl in Hf; lia]. simpl length. rewrite Nat.add_0_r, Nat.leb_refl. by exists s.
  - destruct suf as [|r suf]; [simpl length; rewrite Nat.add_0_r, Nat.leb_refl; by exists s|].
    simpl length. simpl in Hf. destruct (Nat.leb _ _) eqn:E; [apply Nat.leb_le in E; lia|]. clear E.
    apply Forall_cons in Hwf as [Hr Hwf].
    rewrite (vec_at_ok _ _ _ _ _ _ _ _ _ _ Hrep Hcol), list_lookup_middle by done.
    destruct (lookup_lt_is_Some_2 r k) as [y Hy]; [rewrite Hr; by eapply lookup_lt_Some|].
    simpl filter_ref. rewrite Hy. simpl. destruct (p y).
    + destruct (remove_row_ok _ _ _ _ _ (length pre) Hrep) as (s' & Hs' & Hrep'); [rewrite length_app; simpl; lia|].
      rewrite Hs'. rewrite take_app_length, drop_app_ge in Hrep' by lia.
      replace (S (length pre) - length pre)%nat with 1%nat in Hrep' by lia. simpl in Hrep'.
      assert (Hv' : get_column_by_name ty name t s' = Some v).
      { unfold remove_row in Hs'. wz_run. done. }
      destruct suf as [|z suf].
      * destruct fuel; simpl; [|]; (destruct (rep_col _ _ _ _ _ _ _ _ Hrep' Hk) as [v2 Hcol2]; pose proof (col_rep_column _ _ _ _ _ _ _ Hcol2);
          assert (v2 = v) as -> by congruence); rewrite (size_ok _ _ _ _ _ _ _ _ _ Hrep' Hcol2), length_app; simpl;
          (destruct (Nat.leb _ _) eqn:E; [by exists s'|apply Nat.leb_gt in E; lia]).
      * replace (S (length pre)) with (length (pre ++ [z])) by (rewrite length_app; simpl; lia).
        apply Forall_cons in Hwf as [_ Hwf].
        destruct (IH s' (pre ++ [z]) suf) as (s2 & -> & Hs2); [by rewrite <-app_assoc|done|done|done|simpl in Hf; lia|].
        exists s2. split; [done|]. by rewrite <-app_assoc in Hs2.
    + replace (S (length pre)) with (length (pre ++ [r])) by (rewrite length_app; simpl; lia).
      destruct (IH s (pre ++ [r]) suf) as (s2 & -> & Hs2); [by rewrite <-app_assoc|done|done|done|lia|].
      exists s2. split; [done|]. by rewrite <-app_assoc in Hs2.
Qed.

(** ** Sorting *)

(** A strict weak order on the elements of [l], as [std::sort] requires. *)
Definition weak_order {A} (less : A -> A -> bool) (l : list A) : Prop :=
  (forall x, x ∈ l -> less x x = false) /\
  (forall x y z, x ∈ l -> y ∈ l -> z ∈ l -> less x y = true -> less y z = true -> less x z = true) /\
  (forall x y z, x ∈ l -> y ∈ l -> z ∈ l -> less x z = true -> less x y = true \/ less y z = true).

Definition sorted_by {A} (less : A -> A -> bool) (l : list A) : Prop :=
  StronglySorted (fun a b => less b a = false) l.

(** What the standard promises of [std::sort]. *)
Definition sort_spec (sort : (Z -> Z -> bool) -> list Z -> list Z) : Prop :=
  forall less l, weak_order less l -> sort less l ≡ₚ l /\ sorted_by less (sort less l).

(** The comparison of two rows by column [k]. *)
Definition row_less (k : nat) (comp : V -> V -> bool) (r1 r2 : list V) : bool :=
  match r1 !! k, r2 !! k with Some a, Some b => comp a b | _, _ => false end.

(** The indices of a permutation of the visible rows. *)
Lemma permute_rows (hist : list (list V)) (il il' : list nat) (rows : list (list V)) :
  Forall2 (fun i r => hist !! i = Some r) il rows -> il' ≡ₚ il ->
  exists rows', Forall2 (fun i r => hist !! i = Some r) il' rows' /\ rows' ≡ₚ rows.
Proof.
  intros Hf Hp. revert rows Hf. induction Hp as [|i il' il Hp IH|i j il|il1 il2 il3 Hp1 IH1 Hp2 IH2]; intros rows Hf.
  - by exists rows.
  - inversion Hf; subst. destruct (IH _ H3) as (rows' & ? & ?). eexists (_ :: rows'). split; [by constructor|by constructor].
  - inversion Hf; subst. inversion H3; subst. eexists (_ :: _ :: _). split; [repeat constructor; done|constructor].
  - destruct (IH2 _ Hf) as (rows2 & Hf2 & Hp'). destruct (IH1 _ Hf2) as (rows1 & ? & ?). exists rows1. split; [done|by etrans].
Qed.

Lemma sorted_rows (hist : list (list V)) less rless (il : list nat) (rows : list (list V)) :
  Forall2 (fun i r => hist !! i = Some r) il rows ->
  (forall i j r1 r2, hist !! i = Some r1 -> hist !! j = Some r2 -> less (Z.of_nat i) (Z.of_nat j) = rless r1 r2) ->
  sorted_by less (Z.of_nat <$> il) -> sorted_by rless rows.
Proof.
  intros Hf Hl. induction Hf as [|i r il rows Hi Hf IH]; [constructor|].
  intros Hs. apply StronglySorted_inv in Hs as [Hs Hall]. constructor; [by apply IH|].
  apply Forall_forall. intros r' Hr'. apply list_elem_of_lookup in Hr' as [j Hj].
  destruct (Forall2_lookup_r _ _ _ _ _ Hf Hj) as (i' & Hi' & Hh). rewrite <-(Hl i' i r' r Hh Hi).
  rewrite Forall_forall in Hall. apply (Hall (Z.of_nat i')).
  apply list_elem_of_fmap. exists i'. split; [done|]. by eapply list_elem_of_lookup_2.
Qed.

(** [sort_by] permutes the rows, all columns together, into an order sorted by the column. *)
Lemma sort_by_ok t cols s hist rows k name ty comp :
  sort_spec std_sort -> table_rep t cols s hist rows -> cols !! k = Some (name, ty) ->
  Forall (fun r => length r = length cols) hist ->
  (forall l, weak_order comp l) ->
  exists s' rows', sort_by ty name comp t s = Some s' /\ table_rep t cols s' hist rows' /\
    rows' ≡ₚ rows /\ sorted_by (row_less k comp) rows'.
Proof.
  intros Hsort Hrep Hk Hwf Hw. destruct (rep_col _ _ _ _ _ _ _ _ Hrep Hk) as [v Hcol].
  pose proof (col_rep_column _ _ _ _ _ _ _ Hcol) as Hv. destruct Hcol as (_ & _ & _ & d & Hd & Hcol).
  pose proof Hrep as [_ (x & il & Hx & [Hl Hm Hle] & Hrows)].
  assert (Hget : forall i r, hist !! i = Some r -> exists y, get_by_idx (mkVec d (t_idx t)) (Z.of_nat i) = Some y /\ r !! k = Some y).
  { intros i r Hr. destruct (Forall2_lookup_l _ _ _ _ _ Hcol Hr) as (y & Hy & Hry). exists y. unfold get_by_idx. simpl.
    destruct (0 <=? Z.of_nat i) eqn:E; wz_bool; [|lia]. by rewrite Nat2Z.id. }
  assert (Hvalid : forall z, z ∈ list_ x -> exists i r y, z = Z.of_nat i /\ hist !! i = Some r /\
    get_by_idx (mkVec d (t_idx t)) z = Some y /\ r !! k = Some y).
  { intros z Hz. rewrite Hl in Hz. apply list_elem_of_fmap in Hz as (i & -> & Hi). apply list_elem_of_lookup in Hi as [j Hj].
    destruct (Forall2_lookup_l _ _ _ _ _ Hrows Hj) as (r & _ & Hr). destruct (Hget _ _ Hr) as (y & ? & ?). by exists i, r, y. }
  unfold sort_by. rewrite Hv, Hd, Hx.
  assert (is_Some (mapM (get_by_idx (mkVec d (t_idx t))) (list_ x))) as [ys ->].
  { apply mapM_is_Some_2, Forall_forall. intros z Hz. destruct (Hvalid z Hz) as (i & r & y & _ & _ & G & _). exists y. exact G. }
  set (less := fun _ _ : Z => _).
  assert (Hless : weak_order less (list_ x)).
  { split_and!.
    - intros a Ha. destruct (Hvalid a Ha) as (_ & _ & ya & _ & _ & Ga & _). unfold less. rewrite Ga.
      apply (Hw [ya]). by left.
    - intros a b c Ha Hb Hc. destruct (Hvalid a Ha) as (_ & _ & ya & _ & _ & Ga & _), (Hvalid b Hb) as (_ & _ & yb & _ & _ & Gb & _),
        (Hvalid c Hc) as (_ & _ & yc & _ & _ & Gc & _). unfold less. rewrite Ga, Gb, Gc.
      apply (Hw [ya; yb; yc]); rewrite !elem_of_cons; auto.
    - intros a b c Ha Hb Hc. destruct (Hvalid a Ha) as (_ & _ & ya & _ & _ & Ga & _), (Hvalid b Hb) as (_ & _ & yb & _ & _ & Gb & _),
        (Hvalid c Hc) as (_ & _ & yc & _ & _ & Gc & _). unfold less. rewrite Ga, Gb, Gc.
      apply (Hw [ya; yb; yc]); rewrite !elem_of_cons; auto. }
  destruct (Hsort less (list_ x) Hless) as [Hperm Hsorted].
  rewrite Hl in Hperm at 2. apply Permutation_map_inv in Hperm as (il' & Hil' & Hp).
  change (map Z.of_nat il') with (Z.of_nat <$> il') in Hil'.
  destruct (permute_rows hist il il' rows Hrows) as (rows' & Hrows' & Hpr); [by symmetry|].
  exists (set_idxs (<[t_idx t := mkIdx (std_sort less (list_ x)) (max_idx x)]> (idxs s)) s), rows'.
  split_and!; [done| |done|].
  - eapply rep_set_idx; [done| |done]. split; simpl; [done|done|].
    intros i Hi. apply Hle. by rewrite Hp.
  - eapply (sorted_rows hist less); [done| |by rewrite <-Hil'].
    intros i j r1 r2 H1 H2. destruct (Hget _ _ H1) as (y1 & G1 & R1), (Hget _ _ H2) as (y2 & G2 & R2).
    unfold less, row_less. by rewrite G1, G2, R1, R2.
Qed.

(** ** Appending a row *)

(** The value of each column is appended to it, in the order of the columns. *)
Fixpoint append_row (cols : list (string * nat)) (row : list V) (t : FeatureTable) (s : Store) : option Store :=
  match cols, row with
  | (name, ty) :: cols, x :: row =>
      v <-? get_column_by_name ty name t s;
      s <-? push_back v x s;
      append_row cols row t s
  | _, _ => Some s
  end.

(** The first [j] columns have received the row [r]. *)
Record append_rep (t : FeatureTable) (cols : list (string * nat)) (s : Store) (hist rows : list (list V)) (r : list V) (j : nat) : Prop := {
  a_cols : exists vs : list nat, NoDup vs /\ length vs = length cols /\
    forall k name ty v, cols !! k = Some (name, ty) -> vs !! k = Some v ->
      col_rep t s k name ty v (if decide (k < j)%nat then hist ++ [r] else hist);
  a_idx : exists x il, idxs s !! t_idx t = Some x /\
    (if decide (j = 0)%nat
     then idx_rep x il (length hist) /\ Forall2 (fun i r => hist !! i = Some r) il rows
     else max_idx x = Z.of_nat (length hist) /\
          idx_rep x (il ++ [length hist]) (S (length hist)) /\ Forall2 (fun i r => hist !! i = Some r) il rows)
}.

Lemma push_step t cols s hist rows r j name ty v y :
  append_rep t cols s hist rows r j -> cols !! j = Some (name, ty) -> r !! j = Some y ->
  get_column_by_name ty name t s = Some v ->
  exists s', push_back v y s = Some s' /\ append_rep t cols s' hist rows r (S j).
Proof.
  intros [(vs & Hnd & Hlen & Hc) (x & il & Hx & Hix)] Hj Hy Hv.
  destruct (lookup_lt_is_Some_2 vs j) as [v' Hv']; [rewrite Hlen; by eapply lookup_lt_Some|].
  pose proof (Hc j name ty v' Hj Hv') as Hcol. pose proof (col_rep_column _ _ _ _ _ _ _ Hcol). assert (v' = v) as -> by congruence.
  rewrite decide_False in Hcol by lia. destruct Hcol as (Hn & Hcl & Hg & d & Hd & Hf).
  unfold push_back. rewrite Hd. simpl. rewrite Hx. eexists. split; [done|]. split; simpl.
  - exists vs. split_and!; [done|done|]. intros k name' ty' w Hk Hw. destruct (Hc k name' ty' w Hk Hw) as (? & ? & ? & d' & Hd' & Hf').
    split_and!; [done|done|done|]. simpl. destruct (decide (k = j)) as [->|Hne].
    + simplify_eq. rewrite decide_False in Hf' by lia. rewrite decide_True by lia. exists (d ++ [y]).
      rewrite lookup_insert_eq. split; [done|]. apply Forall2_app; [done|]. by repeat constructor.
    + exists d'. assert (w <> v) by (intros ->; apply Hne; by eapply NoDup_lookup).
      rewrite lookup_insert_ne by done. split; [done|].
      destruct (decide (k < j)%nat); [rewrite decide_True by lia|rewrite decide_False by lia]; done.
  - rewrite <-(Forall2_length _ _ _ Hf). destruct (decide (j = 0)%nat) as [->|Hj0].
    + destruct Hix as [[Hl Hm Hle] Hrows]. unfold add_idx. destruct (max_idx x <? Z.of_nat (length hist)) eqn:E; wz_bool; [|lia].
      eexists _, il. rewrite lookup_insert_eq. split; [done|]. simpl. split_and!; [done| |done].
      split; simpl; [by rewrite fmap_app, Hl|lia|].
      intros i [Hi| ->%list_elem_of_singleton]%elem_of_app; [|done]. specialize (Hle i Hi). lia.
    + destruct Hix as (Hm & Hr & Hrows). unfold add_idx. rewrite Hm, Z.ltb_irrefl. exists x, il. rewrite lookup_insert_eq. done.
Qed.

Lemma append_row_ok t cols hist rows r : forall cs pre xs ps s,
  cols = pre ++ cs -> r = ps ++ xs -> length ps = length pre -> length xs = length cs ->
  append_rep t cols s hist rows r (length pre) ->
  exists s', append_row cs xs t s = Some s' /\ append_rep t cols s' hist rows r (length cols).
Proof.
  induction cs as [|[name ty] cs IH]; intros pre xs ps s Hcols Hr Hlp Hlx Hrep; destruct xs as [|y xs]; try done; simpl.
  - rewrite app_nil_r in Hcols. subst pre. by exists s.
  - assert (Hj : cols !! length pre = Some (name, ty)) by (rewrite Hcols; by apply list_lookup_middle).
    assert (Hy : r !! length pre = Some y) by (rewrite Hr; by apply list_lookup_middle).
    pose proof Hrep as [(vs & _ & Hlen & Hc) _].
    destruct (lookup_lt_is_Some_2 vs (length pre)) as [v Hv]; [rewrite Hlen; by eapply lookup_lt_Some|].
    pose proof (col_rep_column _ _ _ _ _ _ _ (Hc _ _ _ _ Hj Hv)) as Hg. rewrite Hg.
    destruct (push_step _ _ _ _ _ _ _ _ _ _ _ Hrep Hj Hy Hg) as (s1 & -> & Hrep1).
    apply (IH (pre ++ [(name, ty)]) xs (ps ++ [y])); [by rewrite <-app_assoc|by rewrite <-app_assoc|rewrite !length_app; simpl; lia|simpl in Hlx; lia|].
    rewrite length_app. simpl. by rewrite Nat.add_1_r.
Qed.

Lemma append_rep_ok t cols s hist rows r :
  cols <> [] -> length r = length cols -> table_rep t cols s hist rows ->
  exists s', append_row cols r t s = Some s' /\ table_rep t cols s' (hist ++ [r]) (rows ++ [r]).
Proof.
  intros Hne Hlen [Hc (x & il & Hx & Hi & Hr)].
  destruct (append_row_ok t cols hist rows r cols [] r [] s) as (s' & Hs' & [(vs & Hnd & Hl & Hc') (x' & il' & Hx' & Hix)]); try done.
  { split; [|by exists x, il]. destruct Hc as (vs & ? & ? & Hc). exists vs. split_and!; [done|done|].
    intros. rewrite decide_False by (simpl; lia). by apply Hc. }
  exists s'. split; [done|]. split.
  - exists vs. split_and!; [done|done|]. intros k name ty v Hk Hv. specialize (Hc' k name ty v Hk Hv).
    rewrite decide_True in Hc'; [done|by eapply lookup_lt_Some].
  - rewrite decide_False in Hix by (destruct cols; done). destruct Hix as (_ & Hi' & Hr').
    exists x', (il' ++ [length hist]). split; [done|]. rewrite length_app. simpl. rewrite Nat.add_1_r. split; [done|].
    apply Forall2_app.
    + eapply Forall2_impl; [done|]. intros i r0 Hi0. by apply lookup_app_l_Some.
    + constructor; [|constructor]. by rewrite list_lookup_middle.
Qed.

(** ** Creating the columns *)

Fixpoint create_all (cols : list (string * nat)) (t : FeatureTable) (s : Store) : option (FeatureTable * Store) :=
  match cols with
  | [] => Some (t, s)
  | (name, ty) :: cols => r <-? create_column ty name t s; create_all cols (snd (fst r)) (snd r)
  end.

Record created (t : FeatureTable) (pre : list (string * nat)) (s : Store) (feature_size : nat) : Prop := {
  c_rep : table_rep t pre s [] [];
  c_names : forall name, is_Some (name_to_idx_ t !! name) -> name ∈ pre.*1;
  c_size : size (name_to_idx_ t) = length pre;
  c_len : length (columns_ t) = feature_size;
  c_items : forall ty, (length (items_of ty s) <= length pre)%nat
}.

Lemma items_of_insert ty ty' i f l (s : Store) :
  items_of ty' (mkStore i f (<[ty := l]> (items s))) = if decide (ty' = ty) then l else items_of ty' s.
Proof.
  unfold items_of. simpl. destruct (decide (ty' = ty)) as [->|]; [by rewrite lookup_insert_eq|by rewrite lookup_insert_ne].
Qed.

Lemma create_column_ok t pre s fs name ty :
  created t pre s fs -> (length pre < fs)%nat -> name_to_idx_ t !! name = None ->
  exists v t' s', create_column ty name t s = Some (v, t', s') /\ created t' (pre ++ [(name, ty)]) s' fs /\
    name_to_idx_ t' = <[name := length pre]> (name_to_idx_ t).
Proof.
  intros [[(vs & Hnd & Hlen & Hc) (x & il & Hx & Hix & Hr)] Hnm Hsz Hl Hit] Hfs Hname.
  unfold create_column, ensure_column_id. rewrite Hname. simpl. rewrite Hsz.
  destruct (lookup_lt_is_Some_2 (columns_ t) (length pre)) as [c ->]; [lia|].
  unfold get_and_init_column. simpl. rewrite list_lookup_insert_eq by lia. simpl.
  unfold get_or_create_vector. destruct (Nat.leb _ _) eqn:E; [|apply Nat.leb_gt in E; specialize (Hit ty); lia].
  set (v := new_id (vecs s)). assert (Hv : vecs s !! v = None) by apply new_id_fresh.
  eexists v, _, _. split; [done|]. split; [|done].
  assert (Hitem : forall ty' k, (k < length pre)%nat -> forall w, get_vector ty' k s = Some w ->
    get_vector ty' k (mkStore (idxs s) (<[v := DataVector_new (t_idx t)]> (vecs s))
      (<[ty := items_of ty s ++ replicate (length pre - length (items_of ty s)) None ++ [Some v]]> (items s))) = Some w).
  { intros ty' k Hk w. unfold get_vector. rewrite items_of_insert.
    destruct (decide (ty' = ty)) as [->|]; [|done]. destruct (items_of ty s !! k) eqn:Ek; [|done].
    by rewrite (lookup_app_l_Some _ _ _ _ Ek). }
  split; simpl.
  - split; simpl.
    + exists (vs ++ [v]). split_and!.
      * apply NoDup_app. split_and!; [done| |apply NoDup_singleton]. intros w Hw ->%list_elem_of_singleton.
        apply list_elem_of_lookup in Hw as [k Hk]. destruct (lookup_lt_is_Some_2 pre k) as [[n' ty'] Hp].
        { rewrite <-Hlen. by eapply lookup_lt_Some. }
        destruct (Hc k n' ty' _ Hp Hk) as (_ & _ & _ & d & Hd & _). congruence.
      * rewrite !length_app. simpl. lia.
      * intros k name' ty' w Hk Hw. destruct (decide (k < length pre)%nat) as [Hlt|Hge].
        -- rewrite lookup_app_l in Hk by done. rewrite lookup_app_l in Hw by lia.
           destruct (Hc k name' ty' w Hk Hw) as (Hn & Hcl & Hg & d & Hd & Hf).
           split_and!; simpl.
           ++ rewrite lookup_insert_ne; [done|congruence].
           ++ rewrite list_lookup_insert_ne by lia. done.
           ++ by apply Hitem.
           ++ exists d. rewrite lookup_insert_ne by congruence. done.
        -- assert (k = length pre) as ->.
           { apply lookup_lt_Some in Hk. rewrite length_app in Hk. simpl in Hk. lia. }
           rewrite list_lookup_middle in Hk by done. rewrite list_lookup_middle in Hw by lia. simplify_eq.
           split_and!; simpl.
           ++ by rewrite lookup_insert_eq.
           ++ rewrite list_lookup_insert_eq by lia. done.
           ++ unfold get_vector. rewrite items_of_insert, decide_True by done.
              rewrite app_assoc, list_lookup_middle; [done|]. rewrite length_app, length_replicate.
              specialize (Hit ty'). lia.
           ++ exists []. rewrite lookup_insert_eq. split; [done|constructor].
    + exists x, il. done.
  - intros name' Hn. rewrite fmap_app. simpl. rewrite elem_of_app, list_elem_of_singleton.
    destruct (decide (name' = name)) as [->|]; [by right|]. rewrite lookup_insert_ne in Hn by done. left. by apply Hnm.
  - rewrite map_size_insert_None by done. rewrite length_app. simpl. lia.
  - by rewrite length_insert.
  - intros ty'. rewrite items_of_insert, length_app. specialize (Hit ty'). simpl.
    destruct (decide (ty' = ty)) as [->|]; [|lia]. rewrite !length_app, length_replicate. simpl. lia.
Qed.

Lemma create_all_ok fs : forall cols pre t s,
  created t pre s fs -> NoDup (pre.*1 ++ cols.*1) -> (length pre + length cols <= fs)%nat ->
  exists t' s', create_all cols t s = Some (t', s') /\ created t' (pre ++ cols) s' fs.
Proof.
  induction cols as [|[name ty] cols IH]; intros pre t s Hcr Hnd Hfs; cbn [create_all].
  - exists t, s. by rewrite app_nil_r.
  - simpl in Hnd, Hfs. assert (Hname : name_to_idx_ t !! name = None).
    { destruct (name_to_idx_ t !! name) eqn:E; [|done].
      assert (Hin : name ∈ pre.*1) by (apply (c_names _ _ _ _ Hcr); by eexists).
      apply NoDup_app in Hnd as (_ & Hdis & _). specialize (Hdis _ Hin). set_solver. }
    destruct (create_column_ok _ _ _ _ name ty Hcr) as (v & t1 & s1 & -> & Hcr1 & _); [lia|done|]. cbn [fst snd].
    destruct (IH (pre ++ [(name, ty)]) t1 s1 Hcr1) as (t' & s' & -> & Hcr').
    + rewrite fmap_app, <-app_assoc. done.
    + rewrite length_app. simpl. lia.
    + exists t', s'. split; [done|]. by rewrite <-app_assoc in Hcr'.
Qed.

Definition store0 : Store := mkStore ∅ ∅ ∅.

Lemma new_table_created fs : created (fst (FeatureTable_new fs store0)) [] (snd (FeatureTable_new fs store0)) fs.
Proof.
  split; simpl.
  - split; simpl; [exists []; by split_and!; [apply NoDup_nil_2|..]|].
    exists IdxList_new, []. rewrite lookup_insert_eq. split_and!; [done| |constructor].
    split; simpl; [done|lia|by intros ? ?%elem_of_nil].
  - intros name. rewrite lookup_empty. by intros [].
  - by rewrite map_size_empty.
  - by rewrite length_replicate.
  - intros ty. unfold items_of. simpl. by rewrite lookup_empty.
Qed.

(** * The operations of a client *)

(** A client that checks row numbers against [row_size]. *)
Inductive Op :=
  | AppendRow (row : list V)
  | RemoveRow (i : nat)
  | SortBy (k : nat) (comp : V -> V -> bool)
  | Filter (k : nat) (p : V -> bool)
  | Cell (k i : nat).

Definition op_ok (cols : list (string * nat)) (o : Op) : Prop :=
  match o with
  | AppendRow row => length row = length cols
  | SortBy k comp => (k < length cols)%nat /\ forall l, weak_order comp l
  | Filter k _ | Cell k _ => (k < length cols)%nat
  | RemoveRow _ => True
  end.

Definition exec (cols : list (string * nat)) (o : Op) (t : FeatureTable) (s : Store) : option (option V * Store) :=
  match o with
  | AppendRow row => s <-? append_row cols row t s; Some (None, s)
  | RemoveRow i =>
      n <-? row_size t s;
      if Nat.ltb i n then s <-? remove_row i t s; Some (None, s) else Some (None, s)
  | SortBy k comp => c <-? cols !! k; s <-? sort_by (snd c) (fst c) comp t s; Some (None, s)
  | Filter k p => c <-? cols !! k; s <-? filter_ (snd c) (fst c) p t s; Some (None, s)
  | Cell k i =>
      n <-? row_size t s;
      if Nat.ltb i n
      then c <-? cols !! k; v <-? get_column_by_name (snd c) (fst c) t s; x <-? vec_at v i s; Some (Some x, s)
      else Some (None, s)
  end.

Fixpoint exec_all (cols : list (string * nat)) (os : list Op) (t : FeatureTable) (s : Store) : option (list (option V) * Store) :=
  match os with
  | [] => Some ([], s)
  | o :: os => r <-? exec cols o t s; q <-? exec_all cols os t (snd r); Some (fst r :: fst q, snd q)
  end.

(** The specification, on the list of visible rows. *)
Inductive spec_step : Op -> list (list V) -> option V -> list (list V) -> Prop :=
  | sp_append row rows : spec_step (AppendRow row) rows None (rows ++ [row])
  | sp_remove i rows : spec_step (RemoveRow i) rows None (take i rows ++ drop (S i) rows)
  | sp_sort k comp rows rows' : rows' ≡ₚ rows -> sorted_by (row_less k comp) rows' -> spec_step (SortBy k comp) rows None rows'
  | sp_filter k p rows : spec_step (Filter k p) rows None (filter_ref (fun r => default false (p <$> r !! k)) rows)
  | sp_cell k i rows : spec_step (Cell k i) rows (r <-? rows !! i; r !! k) rows.

Inductive spec_run : list Op -> list (list V) -> list (option V) -> list (list V) -> Prop :=
  | run_nil rows : spec_run [] rows [] rows
  | run_cons o os rows out rows1 outs rows2 :
      spec_step o rows out rows1 -> spec_run os rows1 outs rows2 -> spec_run (o :: os) rows (out :: outs) rows2.

Lemma filter_ref_sub {A} (p : A -> bool) (l : list A) x : x ∈ filter_ref p l -> x ∈ l.
Proof.
  induction l as [|y|y z l IH1 IH2] using pair_ind; simpl; [done|destruct (p y); [by intros ?%elem_of_nil|done]|].
  destruct (p y); simpl in *; rewrite !elem_of_cons in *; naive_solver.
Qed.

Lemma ft_exec_ok cols o t s hist rows :
  cols <> [] -> sort_spec std_sort -> op_ok cols o -> table_rep t cols s hist rows ->
  Forall (fun r => length r = length cols) hist ->
  exists out s' hist' rows', exec cols o t s = Some (out, s') /\ spec_step o rows out rows' /\
    table_rep t cols s' hist' rows' /\ Forall (fun r => length r = length cols) hist'.
Proof.
  intros Hne Hsort Hok Hrep Hwf.
  assert (Hrows : Forall (fun r => length r = length cols) rows).
  { pose proof Hrep as [_ (x & il & _ & _ & Hf)]. apply Forall_forall. intros r Hr. apply list_elem_of_lookup in Hr as [j Hj].
    destruct (Forall2_lookup_r _ _ _ _ _ Hf Hj) as (i & _ & Hi). rewrite Forall_forall in Hwf. apply Hwf.
    by eapply list_elem_of_lookup_2. }
  destruct o as [row|i|k comp|k p|k i]; simpl in Hok; unfold exec.
  - destruct (append_rep_ok t cols s hist rows row Hne Hok Hrep) as (s' & -> & Hrep').
    exists None, s', (hist ++ [row]), (rows ++ [row]). split_and!; [done|constructor|done|]. apply Forall_app. by repeat constructor.
  - rewrite (row_size_ok _ _ _ _ _ Hrep). destruct (Nat.ltb i (length rows)) eqn:E.
    + apply Nat.ltb_lt in E. destruct (remove_row_ok _ _ _ _ _ i Hrep E) as (s' & -> & Hrep').
      exists None, s', hist. eexists. split_and!; [done|constructor|done|done].
    + apply Nat.ltb_ge in E. exists None, s, hist, rows. split_and!; [done| |done|done].
      pose proof (sp_remove i rows) as H. rewrite take_ge, drop_ge, app_nil_r in H by lia. done.
  - destruct Hok as [Hk Hw]. destruct (lookup_lt_is_Some_2 cols k Hk) as [[name ty] Hc]. rewrite Hc. simpl.
    destruct (sort_by_ok t cols s hist rows k name ty comp Hsort Hrep Hc Hwf Hw) as (s' & rows' & -> & Hrep' & ? & ?).
    exists None, s', hist, rows'. split_and!; [done|by constructor|done|done].
  - destruct (lookup_lt_is_Some_2 cols k Hok) as [[name ty] Hc]. rewrite Hc. simpl.
    destruct (rep_col _ _ _ _ _ _ _ _ Hrep Hc) as [v Hcol]. unfold filter_. rewrite (col_rep_column _ _ _ _ _ _ _ Hcol).
    rewrite (size_ok _ _ _ _ _ _ _ _ _ Hrep Hcol).
    destruct (filter_loop_ok t cols hist k name ty v p (length rows) s [] rows Hrep Hc) as (s' & Hs' & Hrep');
      [by eapply col_rep_column|done|done|].
    simpl in Hs'. rewrite Hs'. exists None, s', hist. eexists. split_and!; [done|constructor|done|done].
  - rewrite (row_size_ok _ _ _ _ _ Hrep). destruct (Nat.ltb i (length rows)) eqn:E.
    + apply Nat.ltb_lt in E. destruct (lookup_lt_is_Some_2 cols k Hok) as [[name ty] Hc]. rewrite Hc. simpl.
      destruct (rep_col _ _ _ _ _ _ _ _ Hrep Hc) as [v Hcol]. rewrite (col_rep_column _ _ _ _ _ _ _ Hcol).
      rewrite (vec_at_ok _ _ _ _ _ _ _ _ _ i Hrep Hcol).
      destruct (lookup_lt_is_Some_2 rows i E) as [r Hr]. rewrite Hr.
      assert (Hlr : length r = length cols) by (rewrite Forall_forall in Hrows; apply Hrows; by eapply list_elem_of_lookup_2).
      destruct (lookup_lt_is_Some_2 r k ltac:(lia)) as [x Hx]. rewrite Hx.
      exists (Some x), s, hist, rows. split_and!; [done| |done|done].
      pose proof (sp_cell k i rows) as H. by rewrite Hr, Hx in H.
    + apply Nat.ltb_ge in E. exists None, s, hist, rows. split_and!; [done| |done|done].
      pose proof (sp_cell k i rows) as H. by rewrite (proj2 (lookup_ge_None _ _) E) in H.
Qed.

Lemma exec_all_rep cols t : cols <> [] -> sort_spec std_sort -> forall os s hist rows,
  Forall (op_ok cols) os -> table_rep t cols s hist rows -> Forall (fun r => length r = length cols) hist ->
  exists outs s' hist' rows', exec_all cols os t s = Some (outs, s') /\ spec_run os rows outs rows' /\
    table_rep t cols s' hist' rows'.
Proof.
  intros Hne Hsort. induction os as [|o os IH]; intros s hist rows Hok Hrep Hwf; cbn [exec_all].
  - exists [], s, hist, rows. split_and!; [done|constructor|done].
  - apply Forall_cons in Hok as [Ho Hok].
    destruct (ft_exec_ok cols o t s hist rows Hne Hsort Ho Hrep Hwf) as (out & s1 & hist1 & rows1 & -> & Hst & Hrep1 & Hwf1).
    cbn [fst snd]. destruct (IH s1 hist1 rows1 Hok Hrep1 Hwf1) as (outs & s' & hist' & rows' & -> & Hrun & Hrep').
    exists (out :: outs), s', hist', rows'. split_and!; [done|by econstructor|done].
Qed.

End table.

(** * The properties *)


(** ** A sort for the witnesses *)

Fixpoint ins (less : Z -> Z -> bool) (x : Z) (l : list Z) : list Z :=
  match l with
  | [] => [x]
  | y :: l => if less x y then x :: y :: l else y :: ins less x l
  end.
Definition insertion_sort (less : Z -> Z -> bool) (l : list Z) : list Z := foldr (ins less) [] l.

Lemma ins_perm less x l : ins less x l ≡ₚ x :: l.
Proof. induction l as [|y l IH]; simpl; [done|]. destruct (less x y); [done|]. rewrite IH. constructor. Qed.

Lemma insertion_sort_perm less l : insertion_sort less l ≡ₚ l.
Proof. induction l as [|x l IH]; simpl; [done|]. by rewrite ins_perm, IH. Qed.

Lemma ins_sorted less x l : weak_order less (x :: l) -> sorted_by less l -> sorted_by less (ins less x l).
Proof.
  intros Hw Hs. induction Hs as [|y l Hs IH Hall]; simpl; [repeat constructor|].
  destruct Hw as (Hirr & Htr & Hneg). destruct (less x y) eqn:E.
  - constructor; [by constructor|]. apply Forall_forall. intros z Hz. destruct (less z x) eqn:Ez; [|done]. exfalso.
    assert (Hzy : less z y = true) by (eapply (Htr z x y); [by right|by left|right; by left|done|done]).
    apply elem_of_cons in Hz as [->|Hz].
    + specialize (Hirr y ltac:(right; by left)). congruence.
    + rewrite Forall_forall in Hall. rewrite (Hall z Hz) in Hzy. done.
  - constructor.
    + apply IH. split_and!.
      * intros a Ha. apply Hirr. set_solver.
      * intros a b c Ha Hb Hc. apply Htr; set_solver.
      * intros a b c Ha Hb Hc. apply Hneg; set_solver.
    + apply Forall_forall. intros z Hz. rewrite ins_perm in Hz. apply elem_of_cons in Hz as [->|Hz]; [done|].
      rewrite Forall_forall in Hall. by apply Hall.
Qed.

Lemma insertion_sort_spec : sort_spec insertion_sort.
Proof.
  intros less l Hw. split; [apply insertion_sort_perm|].
  induction l as [|x l IH]; simpl; [constructor|].
  assert (Hl : weak_order less l).
  { destruct Hw as (H1 & H2 & H3). split_and!.
    - intros a Ha. apply H1. by right.
    - intros a b c Ha Hb Hc. apply H2; by right.
    - intros a b c Ha Hb Hc. apply H3; by right. }
  apply ins_sorted; [|by apply IH].
  destruct Hw as (H1 & H2 & H3). 
  assert (Hin : forall a, a ∈ x :: foldr (ins less) [] l -> a ∈ x :: l).
  { intros a. fold (insertion_sort less l). rewrite !elem_of_cons. by rewrite insertion_sort_perm. }
  split_and!; intros; eauto.
Qed.

(** The table of [main], all cells being numbers: two columns, sorted by the second in
    descending order, the second row removed. *)
Definition demo_cols : list (string * nat) := [("f_uid"%string, 0%nat); ("f_click"%string, 1%nat)].
Definition demo_ops : list (Op (V := Z)) :=
  [AppendRow [111; 141]; AppendRow [222; 148]; AppendRow [333; 143]; SortBy 1 Z.gtb; RemoveRow 1;
   Cell 0 0; Cell 0 1; AppendRow [444; 144]; Filter 1 (fun w => w <? 142); Cell 0 0; Cell 0 1; Cell 0 2].

Lemma gtb_weak_order l : weak_order Z.gtb l.
Proof. split_and!; intros; rewrite !Z.gtb_ltb in *; wz_bool; [by apply Z.ltb_irrefl|apply Z.ltb_lt; lia|]. destruct (Z.ltb_spec y x); [by left|right]. apply Z.ltb_lt. lia. Qed.


Lemma append_then_filter {V : Type} k (p : V -> bool) rows : forall acc outs rows',
  spec_run ((AppendRow <$> rows) ++ [Filter k p]) acc outs rows' ->
  rows' = filter_ref (fun r => default false (p <$> r !! k)) (acc ++ rows).
Proof.
  induction rows as [|r rows IH]; intros acc outs rows' H; inversion H; subst; simpl in *.
  - match goal with H1 : spec_step _ _ _ _ |- _ => inversion H1; subst end.
    match goal with H2 : spec_run [] _ _ _ |- _ => inversion H2; subst end. by rewrite app_nil_r.
  - match goal with H1 : spec_step _ _ _ _ |- _ => inversion H1; subst end.
    match goal with H2 : spec_run _ (acc ++ [r]) _ _ |- _ => apply IH in H2 end. by rewrite <-app_assoc in *.
Qed.



(** Two tables share the static registry: the column the second one creates is the first
    one's, a value pushed to it becomes a row of the first table, and the second has none. *)
Lemma tables_share_columns :
  exists t1 t2 s v1 v2,
    (r1 <-? create_column 0 "a" (fst (FeatureTable_new (V := Z) 1 store0)) (snd (FeatureTable_new 1 store0));
     let '(t2, s) := FeatureTable_new 1 (snd r1) in
     r2 <-? create_column 0 "b" t2 s;
     s <-? push_back (fst (fst r2)) 7 (snd r2);
     Some (snd (fst r1), snd (fst r2), s, fst (fst r1), fst (fst r2))) = Some (t1, t2, s, v1, v2) /\
    v1 = v2 /\ row_size t1 s = Some 1%nat /\ row_size t2 s = Some 0%nat.
Proof. eexists _, _, _, _, _. split; [vm_compute; reflexivity|]. split_and!; reflexivity. Qed.

(** [RemoveFunctor] for the rows 0 to 1 of four removes the rows 0 and 2. *)
Lemma remove_range_skips :
  exists s s' v, (r <-? create_column 0 "a" (fst (FeatureTable_new (V := Z) 1 store0)) (snd (FeatureTable_new 1 store0));
     s <-? push_back (fst (fst r)) 10 (snd r); s <-? push_back (fst (fst r)) 11 s;
     s <-? push_back (fst (fst r)) 12 s; s <-? push_back (fst (fst r)) 13 s;
     Some (fst (fst r), s)) = Some (v, s) /\
    change_remove [0%nat] 0 0 2 s = Some s' /\ vec_at v 0 s' = Some 11 /\ vec_at v 1 s' = Some 13 /\ size_ v s' = Some 2%nat.
Proof. eexists _, _, _. split; [vm_compute; reflexivity|]. split; [vm_compute; reflexivity|]. split_and!; reflexivity. Qed.

End FeatureTable.
