(* ===== verification/TimerTask.v ===== *)
(** The timer of src/small_test/timer/timer_task.h and timer_task.cpp: the map of tasks,
    the one-shot and periodic timers, and the arming of the timerfd.

    Times are nanoseconds of the steady clock; every reading of the clock is an argument.
    The timerfd is its deadline; epoll and the loop's thread are in TimerLoop.v. The
    order in which an unordered_map is traversed is a parameter. Each operation runs under
    the mutex, so it is one step. *)
From S2P Require Import Prelude.
From stdpp Require Import strings.
Local Open Scope Z_scope.
Local Open Scope wz.

Module TimerTask.

Section timer.
Context {F : Type}.

(** * Data *)

(** [_func] is [None] until [exec]; [interval] is in milliseconds. *)
Record Task := mkTask { _func : option F; interval : Z; expired_pt : Z; is_ready : bool }.

(** [TimePoint::max()]. *)
Definition time_max : Z := 2 ^ 63 - 1.

(** The tasks, the deadline of the timerfd if it is armed, [anonymous_task_id], [_is_stop]
    and whether the descriptors are open; [ran] is a history of the callbacks. *)
Record TimerTask := mkTimer {
  _task_map : gmap string Task; armed : option Z; anonymous_task_id : Z; _is_stop : bool; opened : bool; ran : list F
}.

Definition ctor : TimerTask := mkTimer ∅ None 1 false true [].

Definition set_map (m : gmap string Task) (t : TimerTask) : TimerTask :=
  mkTimer m (armed t) (anonymous_task_id t) (_is_stop t) (opened t) (ran t).

(** The traversal order of the map. *)
Context (order : gmap string Task -> list (string * Task)).

(** * One task *)

Definition Task_new (expired_pt_ interval_ : Z) : Task := mkTask None interval_ expired_pt_ false.

Definition Task_exec (f : F) (t : Task) : Task := mkTask (Some f) (interval t) (expired_pt t) true.

Definition ms_to_ns (ms : Z) : Z := ms * 1000000.

Definition update_expired_pt (now : Z) (t : Task) : Task :=
  mkTask (_func t) (interval t) (now + ms_to_ns (interval t)) (is_ready t).

(** * Arming the timer *)

(** [tv_sec] and [tv_nsec]; [duration_cast] and the divisions truncate toward zero. *)
Definition _how_much_time_left (expired_pt_ now : Z) : Z * Z :=
  let ms := Z.quot (expired_pt_ - now) 1000000 in
  let ms := if ms <? 100 then 100 else ms in
  (Z.quot ms 1000, Z.rem ms 1000 * 1000000).

(** [timerfd_settime] with a relative time; it fails, with a line in the log, when [clear] has
    closed the descriptor. *)
Definition _setup_a_task (expired_pt_ now : Z) (t : TimerTask) : TimerTask :=
  if negb (opened t) then t else
  let '(tv_sec, tv_nsec) := _how_much_time_left expired_pt_ now in
  mkTimer (_task_map t) (Some (now + tv_sec * 1000000000 + tv_nsec)) (anonymous_task_id t) (_is_stop t) (opened t) (ran t).

(** * Adding and removing *)

Definition needs_update (expired_pt_ : Z) (m : gmap string Task) : bool :=
  bool_decide (m = ∅) || existsb (fun kt => expired_pt_ <? expired_pt (snd kt)) (order m).

Definition _add_task_internal (key : string) (expired_pt_ interval_ now : Z) (t : TimerTask) : TimerTask :=
  let m := delete key (_task_map t) in
  let t := set_map m t in
  let t := if needs_update expired_pt_ m then _setup_a_task expired_pt_ now t else t in
  set_map (<[key := Task_new expired_pt_ interval_]> m) t.

Definition add_task (key : string) (interval_ now now' : Z) (t : TimerTask) : TimerTask :=
  _add_task_internal key (now + ms_to_ns interval_) interval_ now' t.

Definition remove_task (key : string) (t : TimerTask) : TimerTask := set_map (delete key (_task_map t)) t.

(** [task->exec(f)] through the pointer that adding returned. *)
Definition exec_task (key : string) (f : F) (t : TimerTask) : TimerTask :=
  set_map (alter (Task_exec f) key (_task_map t)) t.

Definition anonymous_key (id : Z) : string := ("anonymous_task_" ++ pretty.pretty id)%string.

(** [anonymous_task_id.fetch_add(std::memory_order_relaxed)]: the argument is the value of
    the enumerator, 0, and the memory order is the default one. *)
Definition memory_order_relaxed : Z := 0.
Definition next_task_id (t : TimerTask) : Z * TimerTask :=
  (anonymous_task_id t,
   mkTimer (_task_map t) (armed t) (u32 (anonymous_task_id t + memory_order_relaxed)) (_is_stop t) (opened t) (ran t)).

Definition run_every (interval_ : Z) (f : F) (now now' : Z) (t : TimerTask) : TimerTask :=
  let '(task_id, t) := next_task_id t in
  let key := anonymous_key task_id in
  exec_task key f (add_task key interval_ now now' t).

Definition run_at (expired_pt_ : Z) (f : F) (now : Z) (t : TimerTask) : TimerTask :=
  let '(task_id, t) := next_task_id t in
  let key := anonymous_key task_id in
  exec_task key f (_add_task_internal key expired_pt_ 0 now t).

Definition run_after (delay_ms : Z) (f : F) (now now' : Z) (t : TimerTask) : TimerTask :=
  let '(task_id, t) := next_task_id t in
  let key := anonymous_key task_id in
  exec_task key f (_add_task_internal key (now + ms_to_ns delay_ms) 0 now' t).

(** Closing the timerfd disarms it. *)
Definition clear (t : TimerTask) : TimerTask := mkTimer ∅ None (anonymous_task_id t) (_is_stop t) false (ran t).

Definition stop (t : TimerTask) : TimerTask :=
  mkTimer (_task_map t) (armed t) (anonymous_task_id t) true (opened t) (ran t).

(** * Running the tasks *)

Definition due (now : Z) (t : Task) : bool := is_ready t && (expired_pt t <=? now).

(** The first loop: the tasks that are due run; the periodic ones are renewed, the others
    are to be deleted. An [exec]uted task has a function. *)
Fixpoint run_tasks (now : Z) (l : list (string * Task)) (m : gmap string Task) (to_delete : list string) (log : list F)
    : option (gmap string Task * list string * list F) :=
  match l with
  | [] => Some (m, to_delete, log)
  | (key, t) :: l =>
      if due now t
      then f <-? _func t;
           if interval t <=? 0
           then run_tasks now l m (to_delete ++ [key]) (log ++ [f])
           else run_tasks now l (<[key := update_expired_pt now t]> m) to_delete (log ++ [f])
      else run_tasks now l m to_delete log
  end.

Definition delete_keys (keys : list string) (m : gmap string Task) : gmap string Task :=
  foldl (fun m key => delete key m) m keys.

Definition earliest (l : list (string * Task)) : Z :=
  foldl (fun e kt => if expired_pt (snd kt) <? e then expired_pt (snd kt) else e) time_max l.

Definition _check_and_run_tasks (now now' : Z) (t : TimerTask) : option TimerTask :=
  r <-? run_tasks now (order (_task_map t)) (_task_map t) [] [];
  let '(m, to_delete, log) := r in
  let m := delete_keys to_delete m in
  let t := mkTimer m (armed t) (anonymous_task_id t) (_is_stop t) (opened t) (ran t ++ log) in
  let e := earliest (order m) in
  Some (if e =? time_max then t else _setup_a_task e now' t).

(** One turn of [loop] when [_poll] has returned. *)
Definition loop_turn (now now' : Z) (t : TimerTask) : option TimerTask :=
  if _is_stop t then Some t else _check_and_run_tasks now now' t.

(** * What a check does *)

(** The task as a check at [now] leaves it. *)
Definition after_check (now : Z) (t : Task) : option Task :=
  if due now t then if interval t <=? 0 then None else Some (update_expired_pt now t) else Some t.

Record task_ok (task : Task) : Prop := mkTaskOk {
  to_func : is_ready task = true -> _func task <> None;
  to_interval : 0 <= interval task < 2 ^ 32;
  to_expired : expired_pt task < time_max
}.

(** Tasks that wait keep the timer armed. *)
Record timer_ok (t : TimerTask) : Prop := mkTimerOk {
  ok_tasks : forall key task, _task_map t !! key = Some task -> task_ok task;
  ok_armed : opened t = true -> _task_map t <> ∅ -> armed t <> None
}.

Hypothesis order_spec : forall m, order m ≡ₚ map_to_list m.

Lemma order_elem m key t : (key, t) ∈ order m <-> m !! key = Some t.
Proof. rewrite order_spec. apply elem_of_map_to_list. Qed.

Lemma order_nodup m : NoDup (order m).*1.
Proof. rewrite order_spec. apply NoDup_fst_map_to_list. Qed.

Definition due_funcs (now : Z) (l : list (string * Task)) : list F :=
  omap (fun kt => if due now (snd kt) then _func (snd kt) else None) l.

Lemma run_tasks_ok now l : forall m del log,
  NoDup l.*1 -> (forall key t, (key, t) ∈ l -> m !! key = Some t) ->
  (forall key t, (key, t) ∈ l -> is_ready t = true -> _func t <> None) ->
  exists m' del', run_tasks now l m del log = Some (m', del ++ del', log ++ due_funcs now l) /\
    (forall key, key ∉ l.*1 -> m' !! key = m !! key /\ key ∉ del') /\
    (forall key t, (key, t) ∈ l ->
       (if decide (key ∈ del') then None else m' !! key) = after_check now t).
Proof.
  induction l as [|[key t] l IH]; intros m del log Hnd Hm Hf; simpl.
  - exists m, []. rewrite !app_nil_r. split_and!; [done| |by intros ? ? ?%elem_of_nil]. intros. split; [done|apply not_elem_of_nil].
  - simpl in Hnd. apply NoDup_cons in Hnd as [Hnin Hnd].
    assert (Hf' : forall key t, (key, t) ∈ l -> is_ready t = true -> _func t <> None) by (intros k' t' H; apply (Hf k'); by right).
    assert (Hkey : forall k' t', (k', t') ∈ l -> k' <> key).
    { intros k' t' H ->. apply Hnin, list_elem_of_fmap. by exists (key, t'). }
    destruct (due now t) eqn:Ed.
    + assert (Hrdy : is_ready t = true) by (unfold due in Ed; by apply andb_true_iff in Ed as [? _]).
      pose proof (Hf key t ltac:(by left) Hrdy) as Hfn. destruct (_func t) as [f|] eqn:Ef; [|done]. clear Hfn.
      destruct (interval t <=? 0) eqn:Ei.
      * destruct (IH m (del ++ [key]) (log ++ [f]) Hnd) as (m' & del' & -> & Hout & Hin); [intros; apply Hm; by right|done|].
        exists m', (key :: del'). rewrite <-!app_assoc. split_and!; [done| |].
        -- intros k' [Hk Hk']%not_elem_of_cons. destruct (Hout k' Hk') as [? ?]. split; [done|]. by apply not_elem_of_cons.
        -- intros k' t' [[= -> ->]|Hl]%elem_of_cons.
           ++ rewrite decide_True by (by left). unfold after_check. by rewrite Ed, Ei.
           ++ rewrite <-(Hin k' t' Hl). pose proof (Hkey _ _ Hl).
              destruct (decide (k' ∈ del')); [rewrite decide_True by (by right)|rewrite decide_False by (by apply not_elem_of_cons)]; done.
      * destruct (IH (<[key := update_expired_pt now t]> m) del (log ++ [f]) Hnd) as (m' & del' & -> & Hout & Hin).
        { intros k' t' H. rewrite lookup_insert_ne by (apply not_eq_sym; by eapply Hkey). apply Hm. by right. }
        { done. }
        exists m', del'. rewrite <-app_assoc. split_and!; [done| |].
        -- intros k' [Hk Hk']%not_elem_of_cons. destruct (Hout k' Hk') as [-> ?]. by rewrite lookup_insert_ne.
        -- intros k' t' [[= -> ->]|Hl]%elem_of_cons; [|by apply Hin].
           destruct (Hout key Hnin) as [-> Hd]. rewrite decide_False, lookup_insert_eq by done. unfold after_check. by rewrite Ed, Ei.
    + destruct (IH m del log Hnd) as (m' & del' & -> & Hout & Hin); [intros; apply Hm; by right|done|].
      exists m', del'. split_and!; [done| |].
      * intros k' [Hk Hk']%not_elem_of_cons. by apply Hout.
      * intros k' t' [[= -> ->]|Hl]%elem_of_cons; [|by apply Hin].
        destruct (Hout key Hnin) as [-> Hd]. rewrite decide_False by done. unfold after_check. rewrite Ed. apply Hm. by left.
Qed.

Lemma delete_keys_lookup keys m key :
  delete_keys keys m !! key = if decide (key ∈ keys) then None else m !! key.
Proof.
  unfold delete_keys. revert m. induction keys as [|k keys IH]; intros m; simpl; [done|]. rewrite IH.
  destruct (decide (key ∈ keys)); [by rewrite decide_True by (by right)|].
  destruct (decide (key = k)) as [->|]; [rewrite decide_True by (by left); apply lookup_delete_eq|].
  rewrite decide_False by (by apply not_elem_of_cons). by apply lookup_delete_ne.
Qed.

Lemma earliest_spec (l : list (string * Task)) : forall e : Z,
  let r := foldl (fun e kt => if expired_pt (snd kt) <? e then expired_pt (snd kt) else e) e l in
  r <= e /\ (forall kt, kt ∈ l -> r <= expired_pt (snd kt)) /\ (r = e \/ exists kt, kt ∈ l /\ r = expired_pt (snd kt)).
Proof.
  induction l as [|[k t] l IH]; intros e; simpl.
  - split_and!; [lia|by intros ? ?%elem_of_nil|by left].
  - destruct (IH (if expired_pt t <? e then expired_pt t else e)) as (H1 & H2 & H3).
    destruct (expired_pt t <? e) eqn:E; wz_bool.
    + split_and!; [lia| |].
      * intros kt [->|H]%elem_of_cons; [done|by apply H2].
      * destruct H3 as [->|(kt & ? & ->)]; right; [exists (k, t); split; [by left|done]|exists kt; split; [by right|done]].
    + split_and!; [done| |].
      * intros kt [->|H]%elem_of_cons; [simpl; lia|by apply H2].
      * destruct H3 as [->|(kt & ? & ->)]; [by left|right; exists kt; split; [by right|done]].
Qed.

(** The deadline the timer gets for an expiry: not before it but for the truncation to
    milliseconds, and at least 100 ms and at most that from now. *)
Lemma setup_deadline e now t : opened t = true ->
  exists d, armed (_setup_a_task e now t) = Some d /\ now + 100000000 <= d /\
    d <= Z.max e (now + 100000000) /\ e - 1000000 < d.
Proof.
  intros Ho. unfold _setup_a_task, _how_much_time_left. rewrite Ho. simpl.
  set (ms := if Z.quot (e - now) 1000000 <? 100 then 100 else Z.quot (e - now) 1000000).
  eexists. split; [done|].
  assert (Hms : 100 <= ms) by (subst ms; destruct (_ <? 100) eqn:E; wz_bool; lia).
  pose proof (Z.quot_rem ms 1000 ltac:(lia)) as Hqr.
  replace (now + Z.quot ms 1000 * 1000000000 + Z.rem ms 1000 * 1000000) with (now + ms * 1000000) by lia.
  pose proof (Z.quot_rem (e - now) 1000000 ltac:(lia)) as Hq.
  pose proof (Z.rem_bound_abs (e - now) 1000000 ltac:(lia)) as Hb.
  subst ms. destruct (Z.quot (e - now) 1000000 <? 100) eqn:E; wz_bool.
  - split_and!; lia.
  - assert (0 <= e - now).
    { destruct (Z.le_gt_cases 0 (e - now)) as [|Hn]; [done|]. exfalso.
      assert (Z.quot (e - now) 1000000 <= 0); [|lia].
      pose proof (Z.quot_opp_l (- (e - now)) 1000000 ltac:(lia)) as Hop. rewrite Z.opp_involutive in Hop.
      pose proof (Z.quot_pos (- (e - now)) 1000000 ltac:(lia) ltac:(lia)). lia. }
    pose proof (Z.rem_bound_pos (e - now) 1000000 ltac:(lia) ltac:(lia)). split_and!; lia.
Qed.

(** The fields given to [timerfd_settime] are normalised and not both zero, which would
    disarm the timer. *)
Lemma timespec_ok e now : let '(tv_sec, tv_nsec) := _how_much_time_left e now in
  0 <= tv_sec /\ 0 <= tv_nsec < 1000000000 /\ 0 < tv_sec + tv_nsec.
Proof.
  unfold _how_much_time_left. set (ms := if Z.quot (e - now) 1000000 <? 100 then 100 else Z.quot (e - now) 1000000).
  assert (Hms : 100 <= ms) by (subst ms; destruct (_ <? 100) eqn:E; wz_bool; lia).
  pose proof (Z.quot_rem ms 1000 ltac:(lia)). pose proof (Z.rem_bound_pos ms 1000 ltac:(lia) ltac:(lia)).
  pose proof (Z.quot_pos ms 1000 ltac:(lia) ltac:(lia)). split_and!; lia.
Qed.

Lemma setup_map e now t : _task_map (_setup_a_task e now t) = _task_map t.
Proof. unfold _setup_a_task. by destruct (negb (opened t)). Qed.

Lemma setup_opened e now t : opened (_setup_a_task e now t) = opened t.
Proof. unfold _setup_a_task. by destruct (negb (opened t)). Qed.

Lemma setup_ran e now t : ran (_setup_a_task e now t) = ran t.
Proof. unfold _setup_a_task. by destruct (negb (opened t)). Qed.

Lemma setup_armed e now t : opened t = true -> armed (_setup_a_task e now t) <> None.
Proof. intros H. by destruct (setup_deadline e now t H) as (d & -> & _). Qed.

(** ** Each operation keeps the tasks well formed and the timer armed *)

Lemma ctor_ok : timer_ok ctor.
Proof. by split; simpl; [intros ? ? ?%lookup_empty_Some|]. Qed.

Lemma add_internal_ok key e i now t : timer_ok t -> 0 <= i < 2 ^ 32 -> e < time_max ->
  timer_ok (_add_task_internal key e i now t).
Proof.
  intros [Ht Ha] Hi He. unfold _add_task_internal. split.
  - intros k task. simpl. rewrite lookup_insert_Some, lookup_delete_Some. intros [[<- <-]|(_ & _ & H)]; [by split|by eapply Ht].
  - simpl. destruct (needs_update e (delete key (_task_map t))) eqn:Hn.
    + rewrite setup_opened. intros Ho _. by apply setup_armed.
    + simpl. intros Ho _. apply Ha; [done|]. intros Hm. rewrite Hm, delete_empty in Hn. unfold needs_update in Hn.
      by rewrite bool_decide_true in Hn.
Qed.

Lemma exec_task_ok key f t : timer_ok t -> timer_ok (exec_task key f t).
Proof.
  intros [Ht Ha]. split.
  - intros k task. simpl. rewrite lookup_alter_Some. intros [(<- & task0 & H & ->)|[_ H]]; [|by eapply Ht].
    destruct (Ht _ _ H). by split.
  - simpl. intros Ho Hm. apply Ha; [done|]. intros He. apply Hm. by rewrite He, alter_empty.
Qed.

Lemma remove_ok key t : timer_ok t -> timer_ok (remove_task key t).
Proof.
  intros [Ht Ha]. split; simpl.
  - intros k task. rewrite lookup_delete_Some. intros [_ H]. by eapply Ht.
  - intros Ho Hm. apply Ha; [done|]. intros He. apply Hm. by rewrite He, delete_empty.
Qed.

Lemma next_id_ok t : timer_ok t -> timer_ok (next_task_id t).2.
Proof. intros [Ht Ha]. by split. Qed.

(** Every way the timer changes. [stop] and [clear] are steps too. *)
Inductive timer_step (now now' : Z) : TimerTask -> TimerTask -> Prop :=
| step_add key i t : 0 <= i < 2 ^ 32 -> timer_step now now' t (add_task key i now now' t)
| step_remove key t : timer_step now now' t (remove_task key t)
| step_exec key f t : timer_step now now' t (exec_task key f t)
| step_every i f t : 0 <= i < 2 ^ 32 -> timer_step now now' t (run_every i f now now' t)
| step_at e f t : e < time_max -> timer_step now now' t (run_at e f now' t)
| step_after i f t : 0 <= i < 2 ^ 32 -> timer_step now now' t (run_after i f now now' t)
| step_stop t : timer_step now now' t (stop t)
| step_clear t : timer_step now now' t (clear t)
| step_loop t t' : loop_turn now now' t = Some t' -> timer_step now now' t t'.

(** The clock is far from the end of its range. *)
Definition clock_ok (now : Z) : Prop := now + ms_to_ns (2 ^ 32) < time_max.

Lemma interval_in_range now i : clock_ok now -> 0 <= i < 2 ^ 32 -> now + ms_to_ns i < time_max.
Proof. unfold clock_ok, ms_to_ns. lia. Qed.

Lemma after_check_ok now task task' : clock_ok now -> task_ok task -> after_check now task = Some task' -> task_ok task'.
Proof.
  intros Hc Ht. unfold after_check. destruct (due now task); [|by intros [= <-]].
  destruct (interval task <=? 0); [done|intros [= <-]]. destruct Ht as [Hf Hi He].
  split; [done..|by apply interval_in_range].
Qed.

(** What [_check_and_run_tasks] leaves, before the timer is set. *)
Lemma check_eq now now' t : timer_ok t ->
  exists m, (forall key, m !! key = _task_map t !! key ≫= after_check now) /\
    let t1 := mkTimer m (armed t) (anonymous_task_id t) (_is_stop t) (opened t) (ran t ++ due_funcs now (order (_task_map t))) in
    _check_and_run_tasks now now' t = Some (if earliest (order m) =? time_max then t1 else _setup_a_task (earliest (order m)) now' t1).
Proof.
  intros [Ht _]. unfold _check_and_run_tasks.
  destruct (run_tasks_ok now (order (_task_map t)) (_task_map t) [] []) as (m' & del & -> & Hout & Hin).
  - apply order_nodup.
  - intros key task H. by apply order_elem in H.
  - intros key task H Hr. apply order_elem, Ht in H. by apply (to_func _ H).
  - exists (delete_keys del m'). split; [|done]. intros key. rewrite delete_keys_lookup.
    destruct (_task_map t !! key) as [task|] eqn:E; simpl.
    + apply Hin. by apply order_elem.
    + destruct (Hout key) as [-> Hd]; [|by rewrite decide_False].
      intros ((k & task) & -> & H)%list_elem_of_fmap. apply order_elem in H. simpl in E. congruence.
Qed.

Lemma earliest_not_max m key task : m !! key = Some task -> expired_pt task < time_max -> earliest (order m) <> time_max.
Proof.
  intros H He. destruct (earliest_spec (order m) time_max) as (_ & H2 & _).
  apply order_elem, H2 in H. unfold earliest. simpl in H. lia.
Qed.

Lemma earliest_empty : earliest (order ∅) = time_max.
Proof.
  destruct (earliest_spec (order ∅) time_max) as (_ & _ & [H|(kt & H & _)]); [done|]. destruct kt as [k t].
  apply order_elem in H. by rewrite lookup_empty in H.
Qed.

Lemma check_ok now now' t t' : clock_ok now -> timer_ok t -> _check_and_run_tasks now now' t = Some t' -> timer_ok t'.
Proof.
  intros Hc Hok. destruct (check_eq now now' t Hok) as (m & Hm & ->). simpl. destruct Hok as [Ht Ha].
  assert (Htm : forall key task, m !! key = Some task -> task_ok task).
  { intros key task. rewrite Hm. destruct (_task_map t !! key) as [task0|] eqn:E; simpl; [|done].
    intros H. eapply after_check_ok; [done| |done]. by eapply Ht. }
  destruct (_ =? time_max) eqn:E; intros [= <-]; wz_bool.
  - split; [done|]. simpl. intros _ Hne. destruct (map_choose _ Hne) as (key & task & H).
    exfalso. eapply earliest_not_max; [exact H|by apply Htm in H as []|done].
  - split; [by rewrite setup_map|]. rewrite setup_opened. intros Ho _. by apply setup_armed.
Qed.


(** C33: a turn of the loop runs the function of every task that is due, once, and of no other;
    one-shot tasks leave the map, periodic ones are due again an interval later, the others
    stay; and the timer is set for the earliest task that is left, at least 100 ms ahead and
    never later than that or the task's time: no waiting task is forgotten. *)
Theorem check_runs_due now now' t : timer_ok t -> clock_ok now -> opened t = true -> _is_stop t = false ->
  exists t', loop_turn now now' t = Some t' /\ timer_ok t' /\
    (forall key, _task_map t' !! key = _task_map t !! key ≫= after_check now) /\
    ran t' = ran t ++ due_funcs now (order (_task_map t)) /\
    (forall key task, _task_map t' !! key = Some task ->
       exists d, armed t' = Some d /\ now' + 100000000 <= d <= Z.max (expired_pt task) (now' + 100000000)) /\
    (_task_map t' = ∅ -> armed t' = armed t).
Proof.
  intros Hok Hc Ho Hs. destruct (check_eq now now' t Hok) as (m & Hm & Hck). simpl in Hck.
  eexists. unfold loop_turn. rewrite Hs. split; [exact Hck|]. split; [by eapply check_ok|].
  pose proof (check_ok now now' t _ Hc Hok Hck) as [Htm _].
  destruct (earliest (order m) =? time_max) eqn:E; wz_bool; rewrite ?setup_map, ?setup_ran; cbn [_task_map armed ran] in *.
  - split; [done|]. split; [done|]. split; [|done].
    intros key task H. exfalso. eapply earliest_not_max; [exact H|by apply Htm in H as []|done].
  - split; [done|]. split; [done|]. split.
    + intros key task H. destruct (setup_deadline (earliest (order m)) now'
        (mkTimer m (armed t) (anonymous_task_id t) (_is_stop t) (opened t) (ran t ++ due_funcs now (order (_task_map t)))) Ho) as (d & Hd & ? & ? & _).
      exists d. split; [exact Hd|]. destruct (earliest_spec (order m) time_max) as (_ & Hle & _).
      apply order_elem, Hle in H. unfold earliest in *. simpl in H. lia.
    + intros ->. by rewrite earliest_empty in E.
Qed.

End timer.

(** ** What goes wrong *)

Lemma add_internal_id {F} order key e i now (t : TimerTask (F := F)) :
  anonymous_task_id (_add_task_internal order key e i now t) = anonymous_task_id t.
Proof.
  unfold _add_task_internal, _setup_a_task. destruct (needs_update _ _ _); [|done]. simpl. by destruct (negb (opened t)).
Qed.

(** The generator of names never moves: of two anonymous tasks only the second is left. *)
Lemma anonymous_tasks_collide {F} order (f g : F) i j now now' t :
  0 <= anonymous_task_id t < 2 ^ 32 ->
  _task_map (run_after order j g now now' (run_after order i f now now' t)) =
  <[anonymous_key (anonymous_task_id t) := mkTask (Some g) 0 (now + ms_to_ns j) true]>
    (delete (anonymous_key (anonymous_task_id t)) (_task_map t)).
Proof.
  intros Hid. assert (Hu : u32 (anonymous_task_id t + memory_order_relaxed) = anonymous_task_id t).
  { unfold memory_order_relaxed. rewrite Z.add_0_r. by apply Z.mod_small. }
  unfold run_after, next_task_id, exec_task. cbn [fst snd]. cbn [set_map anonymous_task_id]. rewrite add_internal_id.
  cbn [anonymous_task_id]. rewrite Hu. cbn [_task_map _add_task_internal set_map].
  by rewrite !alter_insert_eq, delete_insert_eq, delete_delete_eq.
Qed.

(** A first task due in a second, a second in ten, a third in five: the timer is moved from
    the first to the third. *)
Lemma adding_delays_an_earlier_task :
  let add := fun key i t => add_task (F := unit) map_to_list key i 0 0 t in
  armed (add "a" 1000 ctor) = Some 1000000000 /\
  armed (add "b" 10000 (add "a" 1000 ctor)) = Some 1000000000 /\
  armed (add "c" 5000 (add "b" 10000 (add "a" 1000 ctor))) = Some 5000000000.
Proof. vm_compute. done. Qed.

(** ** Example *)

Definition demo : TimerTask :=
  run_after map_to_list 50 7 0 0
    (exec_task "tick" 3 (add_task map_to_list "tick" 40 0 0
       (exec_task "slow" 5 (add_task map_to_list "slow" 2000 0 0 (ctor (F := Z)))))).

Lemma demo_ok : timer_ok demo.
Proof.
  assert (Hc : clock_ok 0) by (vm_compute; done).
  unfold demo. apply exec_task_ok, add_internal_ok; [apply next_id_ok|done|vm_compute; done].
  apply exec_task_ok, add_internal_ok; [|done|vm_compute; done]. apply exec_task_ok, add_internal_ok; [apply ctor_ok|done|vm_compute; done].
Qed.


Lemma check_runs_due_witness :
  (exists t', loop_turn map_to_list 60000000 60000000 demo = Some t' /\ timer_ok t' /\
    (forall key, _task_map t' !! key = _task_map demo !! key ≫= after_check 60000000) /\
    ran t' = ran demo ++ due_funcs 60000000 (map_to_list (_task_map demo)) /\
    (forall key task, _task_map t' !! key = Some task ->
       exists d, armed t' = Some d /\ 60000000 + 100000000 <= d <= Z.max (expired_pt task) (60000000 + 100000000)) /\
    (_task_map t' = ∅ -> armed t' = armed demo)) /\
  due_funcs 60000000 (map_to_list (_task_map demo)) ≡ₚ [3; 7].
Proof.
  split.
  - apply (check_runs_due map_to_list (fun m => reflexivity _) 60000000 60000000 demo); [apply demo_ok|vm_compute; done..].
  - vm_compute. apply Permutation_refl || apply perm_swap.
Defined.
End TimerTask.
