(* ===== verification/TimerLoop.v ===== *)
(** The event loop of src/small_test/timer/timer_task.cpp: [loop], [_poll] and [_wakeup] in one
    thread, [stop], the additions and the removals of tasks in others.

    The operations on the tasks are those of TimerTask.v, each one step under the mutex. What
    the loop relies on in the kernel (a timerfd and an eventfd, both registered with epoll as
    EPOLLIN | EPOLLET) is the interface [KernelOps] with [KernelLaws]. [clear], which closes
    the descriptors, is not a step here: nothing may use the loop after it. *)
From S2P Require Import Prelude TimerTask.
From stdpp Require Import strings.
Local Open Scope Z_scope.
Local Open Scope wz.
Import TimerTask.

(** * The kernel *)

(** [timerfd_settime] to an absolute deadline, [read] of the timerfd, [write] of the eventfd,
    the passing of time, and [epoll_wait], [None] when it blocks. *)
Class KernelOps (Kn : Type) := {
  k_init : Kn;
  k_settime : Z -> Kn -> Kn;
  k_read : Kn -> Kn;
  k_write : Kn -> Kn;
  k_tick : Z -> Kn -> Kn;
  k_wait : Kn -> option Kn
}.

(** [k_deadline] is the deadline of an armed timer that has not expired, [k_event] whether
    [epoll_wait] has something to report, [k_woken] whether it has the eventfd to report. *)
Class KernelLaws (Kn : Type) {KO : KernelOps Kn} := {
  k_deadline : Kn -> option Z;
  k_event : Kn -> Prop;
  k_woken : Kn -> Prop;
  k_woken_event k : k_woken k -> k_event k;
  k_init_deadline : k_deadline k_init = None;
  k_settime_deadline d k : k_deadline (k_settime d k) = Some d;
  k_settime_woken d k : k_woken k -> k_woken (k_settime d k);
  k_read_deadline k : k_deadline (k_read k) = k_deadline k;
  k_read_woken k : k_woken k -> k_woken (k_read k);
  k_write_deadline k : k_deadline (k_write k) = k_deadline k;
  k_write_woken k : k_woken (k_write k);
  k_tick_early now k d : k_deadline k = Some d -> now < d -> k_deadline (k_tick now k) = Some d;
  k_tick_late now k d : k_deadline k = Some d -> d <= now -> k_event (k_tick now k);
  k_tick_past now k d : k_deadline (k_tick now k) = Some d -> now < d /\ k_deadline k = Some d;
  k_tick_event now k : k_event k -> k_event (k_tick now k);
  k_tick_woken now k : k_woken k -> k_woken (k_tick now k);
  k_wait_event k : k_event k -> exists k', k_wait k = Some k';
  k_wait_deadline k k' : k_wait k = Some k' -> k_deadline k' = k_deadline k
}.

(** A timer and a counter with one pending edge each. *)
Module Descriptors.
Record Kernel := mkKernel { deadline : option Z; timer_edge : bool; event_edge : bool }.

#[global] Instance ops : KernelOps Kernel := {
  k_init := mkKernel None false false;
  k_settime d k := mkKernel (Some d) false (event_edge k);
  k_read k := mkKernel (deadline k) false (event_edge k);
  k_write k := mkKernel (deadline k) (timer_edge k) true;
  k_tick now k :=
    match deadline k with
    | Some d => if d <=? now then mkKernel None true (event_edge k) else k
    | None => k
    end;
  k_wait k := if timer_edge k || event_edge k then Some (mkKernel (deadline k) false false) else None
}.

#[global] Instance laws : KernelLaws Kernel.
Proof.
  apply (Build_KernelLaws Kernel ops deadline (fun k => timer_edge k || event_edge k = true)
    (fun k => event_edge k = true));
    cbn [k_init k_settime k_read k_write k_tick k_wait ops]; intros;
    repeat match goal with k : Kernel |- _ => destruct k as [[?|] [] []]; simpl in * end;
    repeat wz_if; simplify_eq/=; wz_bool; try lia; eauto.
Defined.
End Descriptors.

(** The next action of the thread in [loop]: the test of the [while], [epoll_wait], the [read]
    after it, the second test, the reading of the clock, and the check under the mutex. *)
Inductive LPC := LTop | LWait | LRead | LStopTest | LNow | LCheck (now : Z) | LReturned.

#[export] Instance LPC_eq_dec : EqDecision LPC.
Proof. solve_decision. Defined.

Section loop.
Context {F Kn : Type} {KO : KernelOps Kn} (order : gmap string (Task (F := F)) -> list (string * Task (F := F))).

(** * The loop and the other threads *)

(** [wakers] counts the calls of [stop] that have set the flag and not yet written to the
    eventfd. *)
Record World := mkWorld { timer : TimerTask (F := F); kernel : Kn; clock : Z; lpc : LPC; wakers : nat }.

Definition goto (p : LPC) (w : World) : World := mkWorld (timer w) (kernel w) (clock w) p (wakers w).
Definition set_kernel (k : Kn) (w : World) : World := mkWorld (timer w) k (clock w) (lpc w) (wakers w).

(** The timerfd follows [armed]. Setting the same deadline twice changes nothing: it is in the
    future both times. *)
Definition sync (t t' : TimerTask (F := F)) (k : Kn) : Kn :=
  match armed t' with
  | Some d => if decide (armed t' = armed t) then k else k_settime d k
  | None => k
  end.

Definition set_timer (t' : TimerTask (F := F)) (w : World) : World :=
  mkWorld t' (sync (timer w) t' (kernel w)) (clock w) (lpc w) (wakers w).

(** The constructor. *)
Definition loop_start (now : Z) : World := mkWorld ctor k_init now LTop 0.

Open Scope wizard_scope.

(** One action of the thread in [loop]; [None] is blocking in [epoll_wait], or undefined. *)
Definition loop_next (w : World) : option World :=
  match lpc w with
  | LTop => Some (goto (if _is_stop (timer w) then LReturned else LWait) w)
  | LWait => k <-? k_wait (kernel w); Some (goto LRead (set_kernel k w))
  | LRead => Some (goto LStopTest (set_kernel (k_read (kernel w)) w))
  | LStopTest => Some (goto (if _is_stop (timer w) then LReturned else LNow) w)
  | LNow => Some (goto (LCheck (clock w)) w)
  | LCheck now =>
      t <-? _check_and_run_tasks order now (clock w) (timer w);
      Some (goto LTop (set_timer t w))
  | LReturned => Some w
  end.

Fixpoint loop_run (n : nat) (w : World) : option World :=
  match n with
  | O => Some w
  | S n => w1 <-? loop_next w; loop_run n w1
  end.
Close Scope wizard_scope.

(** What other threads do to the tasks; [now] is the clock when they read it, [now'] when they
    hold the mutex. *)
Inductive Client :=
  | CAdd (key : string) (i : Z) | CRemove (key : string) | CExec (key : string) (f : F)
  | CEvery (i : Z) (f : F) | CAt (e : Z) (f : F) | CAfter (i : Z) (f : F).

Definition client_op (c : Client) (now now' : Z) (t : TimerTask (F := F)) : TimerTask (F := F) :=
  match c with
  | CAdd key i => add_task order key i now now' t
  | CRemove key => remove_task key t
  | CExec key f => exec_task key f t
  | CEvery i f => run_every order i f now now' t
  | CAt e f => run_at order e f now' t
  | CAfter i f => run_after order i f now now' t
  end.

Definition client_ok (c : Client) : Prop :=
  match c with
  | CAdd _ i | CEvery i _ | CAfter i _ => 0 <= i < 2 ^ 32
  | CAt e _ => e < time_max
  | _ => True
  end.

Definition pass (now : Z) (w : World) : World :=
  mkWorld (timer w) (k_tick now (kernel w)) now (lpc w) (wakers w).

Inductive step : World -> World -> Prop :=
  | s_loop w w' : loop_next w = Some w' -> step w w'
  (* [epoll_wait] times out or is interrupted *)
  | s_timeout w : lpc w = LWait -> step w (goto LStopTest w)
  | s_time w now : clock w <= now -> clock_ok now -> step w (pass now w)
  | s_client w c now : now <= clock w -> client_ok c ->
      step w (set_timer (client_op c now (clock w) (timer w)) w)
  (* [stop] sets the flag, of which it may have read the value long before, and [_wakeup] *)
  | s_stop w :
      step w (mkWorld (stop (timer w)) (kernel w) (clock w) (lpc w) (S (wakers w)))
  | s_wakeup w n : wakers w = S n ->
      step w (mkWorld (timer w) (k_write (kernel w)) (clock w) (lpc w) n).

Definition initial (w : World) : Prop := exists now, clock_ok now /\ w = loop_start now.
End loop.

Arguments World : clear implicits.
Arguments Client : clear implicits.

(** * What the steps preserve *)

Section proofs.
Context {F Kn : Type} {KO : KernelOps Kn} {KL : KernelLaws Kn}
  (order : gmap string (Task (F := F)) -> list (string * Task (F := F)))
  (Horder : forall m, order m ≡ₚ map_to_list m).
Implicit Types (t : TimerTask (F := F)) (k : Kn) (w : World F Kn).

(** How an operation moves the timer: not at all, with no task where none was, or to a later
    moment. *)
Definition moves (now : Z) t t' : Prop :=
  _is_stop t' = _is_stop t /\ opened t' = opened t /\
  ((armed t' = armed t /\ (_task_map t' <> ∅ -> _task_map t <> ∅)) \/
   exists d, armed t' = Some d /\ now < d).

Lemma setup_later e now t : opened t = true -> exists d, armed (_setup_a_task e now t) = Some d /\ now < d.
Proof. intros Ho. destruct (setup_deadline e now t Ho) as (d & Hd & ? & _). exists d. split; [done|lia]. Qed.

Lemma setup_stop e now t : _is_stop (_setup_a_task e now t) = _is_stop t.
Proof. unfold _setup_a_task. by destruct (negb (opened t)). Qed.

Lemma add_moves key e i now t : opened t = true -> moves now t (_add_task_internal order key e i now t).
Proof.
  intros Ho. unfold _add_task_internal. destruct (needs_update order e (delete key (_task_map t))) eqn:Hn.
  - split_and!; simpl; [by rewrite setup_stop|by rewrite setup_opened|right; by apply setup_later].
  - split_and!; simpl; [done..|left]. split; [done|]. intros _ Hm. rewrite Hm, delete_empty in Hn.
    unfold needs_update in Hn. by rewrite bool_decide_true in Hn.
Qed.

Lemma exec_moves now t t' key f : moves now t t' -> moves now t (exec_task key f t').
Proof.
  intros (H1 & H2 & H3). split_and!; [done..|]. destruct H3 as [[Ha Hm]|Hd]; [left|by right].
  split; [done|]. simpl. intros Hne. apply Hm. intros E. apply Hne. by rewrite E, alter_empty.
Qed.

Lemma id_moves now t t' : moves now (next_task_id t).2 t' -> moves now t t'.
Proof. done. Qed.

Lemma client_moves c now now' t : opened t = true -> moves now' t (client_op order c now now' t).
Proof.
  intros Ho. destruct c as [key i|key|key f|i f|e f|i f]; cbn [client_op].
  - by apply add_moves.
  - split_and!; [done..|left]. split; [done|]. simpl. intros Hne E. apply Hne. by rewrite E, delete_empty.
  - apply exec_moves. split_and!; [done..|by left].
  - by apply exec_moves, id_moves, add_moves.
  - by apply exec_moves, id_moves, add_moves.
  - by apply exec_moves, id_moves, add_moves.
Qed.

Lemma client_timer_ok c now now' t :
  clock_ok now -> client_ok c -> timer_ok t -> timer_ok (client_op order c now now' t).
Proof.
  intros Hc Hok Ht. destruct c as [key i|key|key f|i f|e f|i f]; cbn [client_op client_ok] in *.
  - apply add_internal_ok; [done..|by apply interval_in_range].
  - by apply remove_ok.
  - by apply exec_task_ok.
  - apply exec_task_ok, add_internal_ok; [by apply next_id_ok|done|by apply interval_in_range].
  - apply exec_task_ok, add_internal_ok; [by apply next_id_ok|done..].
  - apply exec_task_ok, add_internal_ok; [by apply next_id_ok|done|by apply interval_in_range].
Qed.

Lemma check_moves now now' t t' :
  timer_ok t -> clock_ok now -> opened t = true -> _check_and_run_tasks order now now' t = Some t' ->
  _is_stop t' = _is_stop t /\ opened t' = opened t /\
  ((armed t' = armed t /\ _task_map t' = ∅) \/ exists d, armed t' = Some d /\ now' < d).
Proof.
  intros Hok Hc Ho Hck. pose proof (check_ok order Horder now now' t t' Hc Hok Hck) as [Htm _].
  destruct (check_eq order Horder now now' t Hok) as (m & _ & Heq). simpl in Heq. rewrite Hck in Heq.
  injection Heq as ->. destruct (_ =? time_max) eqn:E; simpl in *; wz_bool.
  - split_and!; [done..|left]. split; [done|]. destruct (decide (m = ∅)) as [|Hne]; [done|].
    destruct (map_choose _ Hne) as (key & task & Hk). exfalso.
    eapply (earliest_not_max order Horder); [exact Hk|by apply Htm in Hk as []|done].
  - split_and!; [by rewrite setup_stop|by rewrite setup_opened|right; by apply setup_later].
Qed.

Record Inv w : Prop := {
  i_timer : timer_ok (timer w);
  i_open : opened (timer w) = true;
  i_clock : clock_ok (clock w);
  i_now : forall now, lpc w = LCheck now -> now <= clock w;
  i_future : forall d, k_deadline (kernel w) = Some d -> clock w < d;
  i_armed : forall d, armed (timer w) = Some d -> clock w < d -> k_deadline (kernel w) = Some d;
  i_source : forall d, k_deadline (kernel w) = Some d -> armed (timer w) = Some d;
  i_wait : lpc w = LTop \/ lpc w = LWait -> _task_map (timer w) <> ∅ ->
    k_event (kernel w) \/ k_deadline (kernel w) <> None;
  i_stop : lpc w = LWait -> _is_stop (timer w) = true -> wakers w = 0%nat -> k_woken (kernel w)
}.

(** The kernel after the timer has been moved. *)
Lemma sync_ok now t t' k :
  (forall d, k_deadline k = Some d -> now < d) ->
  (forall d, armed t = Some d -> now < d -> k_deadline k = Some d) ->
  (forall d, k_deadline k = Some d -> armed t = Some d) ->
  armed t' = armed t \/ (exists d, armed t' = Some d /\ now < d) ->
  (forall d, k_deadline (sync t t' k) = Some d -> now < d) /\
  (forall d, armed t' = Some d -> now < d -> k_deadline (sync t t' k) = Some d) /\
  (forall d, k_deadline (sync t t' k) = Some d -> armed t' = Some d) /\
  (k_woken k -> k_woken (sync t t' k)) /\
  (armed t' = armed t -> sync t t' k = k).
Proof.
  intros Hf Ha Hk Hm. unfold sync. destruct (armed t') as [d'|] eqn:E.
  - destruct (decide _) as [Hs|Hs].
    + split_and!; [done| | |done..].
      * intros d [= <-] Hd. by apply Ha.
      * intros d Hd. rewrite Hs. by apply Hk.
    + destruct Hm as [?|(d & [= <-] & Hd)]; [done|]. split_and!.
      * intros d. rewrite k_settime_deadline. by intros [= <-].
      * intros d [= <-] _. apply k_settime_deadline.
      * intros d. by rewrite k_settime_deadline.
      * apply k_settime_woken.
      * done.
  - destruct Hm as [Hm|(d & ? & _)]; [|done]. split_and!; try done.
    intros d Hd. rewrite Hm. by apply Hk.
Qed.

Lemma Inv_initial w : initial w -> Inv w.
Proof.
  intros (now & Hc & ->). unfold loop_start. constructor; simpl; try done.
  - intros d. by rewrite k_init_deadline.
  - intros d. by rewrite k_init_deadline.
Qed.

Lemma Inv_next w w' : Inv w -> loop_next order w = Some w' -> Inv w'.
Proof.
  intros HI Hn. pose proof HI as [H1 H2 H3 H4 H5 H6 H9 H7 H8]. unfold loop_next in Hn. destruct (lpc w) eqn:Hp.
  - injection Hn as <-. destruct (_is_stop (timer w)) eqn:Hs; constructor; simpl; try done.
    + by intros [?|?].
    + intros _. apply H7. by left.
    + intros _. by rewrite Hs.
  - destruct (k_wait (kernel w)) as [k|] eqn:Hk; [|done]. injection Hn as <-.
    pose proof (k_wait_deadline _ _ Hk) as Hd. constructor; simpl; rewrite ?Hd; try done. by intros [?|?].
  - injection Hn as <-. constructor; simpl; rewrite ?k_read_deadline; try done. by intros [?|?].
  - injection Hn as <-. destruct (_is_stop (timer w)) eqn:Hs; constructor; simpl; try done; by intros [?|?].
  - injection Hn as <-. constructor; simpl; try done; [by intros now [= <-]|by intros [?|?]].
  - destruct (_check_and_run_tasks order now (clock w) (timer w)) as [t|] eqn:Hck; [|done]. injection Hn as <-.
    assert (Hc : clock_ok now) by (specialize (H4 now eq_refl); unfold clock_ok in *; lia).
    destruct (check_moves now (clock w) (timer w) t H1 Hc H2 Hck) as (M1 & M2 & M3).
    destruct (sync_ok (clock w) (timer w) t (kernel w) H5 H6 H9) as (S1 & S2 & S5 & S3 & S4);
      [destruct M3 as [[? _]|?]; [by left|by right]|].
    constructor; simpl; try done.
    + by eapply (check_ok order Horder).
    + by rewrite M2.
    + intros _ Hne. right. destruct M3 as [[_ ?]|(d & Hd & Hlt)]; [done|]. by rewrite (S2 d Hd Hlt).
  - by injection Hn as <-.
Qed.

Lemma Inv_step w w' : Inv w -> step order w w' -> Inv w'.
Proof.
  intros HI Hst. destruct Hst as [w w' Hn|w Hp|w now Hc Hok|w c now Hc Hok|w|w n Hw].
  - by eapply Inv_next.
  - destruct HI. constructor; simpl; try done. by intros [?|?].
  - destruct HI as [H1 H2 H3 H4 H5 H6 H9 H7 H8]. constructor; simpl; try done.
    + intros n Hn. specialize (H4 n Hn). lia.
    + intros d Hd. by apply k_tick_past in Hd as [? _].
    + intros d Hd Hlt. apply k_tick_early; [|done]. apply H6; [done|lia].
    + intros d Hd. apply k_tick_past in Hd as [_ Hd]. by apply H9.
    + intros Hp Hne. destruct (H7 Hp Hne) as [He|Hd]; [left; by apply k_tick_event|].
      destruct (k_deadline (kernel w)) as [d|] eqn:E; [|done]. destruct (Z.le_gt_cases d now).
      * left. by eapply k_tick_late.
      * right. by rewrite (k_tick_early now _ d E).
    + intros Hp Hs Hw. by apply k_tick_woken, H8.
  - destruct HI as [H1 H2 H3 H4 H5 H6 H9 H7 H8].
    destruct (client_moves c now (clock w) (timer w) H2) as (M1 & M2 & M3).
    destruct (sync_ok (clock w) (timer w) (client_op order c now (clock w) (timer w)) (kernel w) H5 H6 H9)
      as (S1 & S2 & S5 & S3 & S4); [destruct M3 as [[? _]|?]; [by left|by right]|].
    constructor; simpl; try done.
    + apply client_timer_ok; [unfold clock_ok in *; lia|done..].
    + by rewrite M2.
    + intros Hp Hne. destruct M3 as [[Ha Hm]|(d & Hd & Hlt)].
      * rewrite (S4 Ha). by apply H7, Hm.
      * right. by rewrite (S2 d Hd Hlt).
    + rewrite M1. intros Hp Hs Hw. by apply S3, H8.
  - destruct HI as [H1 H2 H3 H4 H5 H6 H9 H7 H8]. constructor; simpl; try done. by destruct H1.
  - destruct HI as [H1 H2 H3 H4 H5 H6 H9 H7 H8]. constructor; simpl; try done; rewrite ?k_write_deadline; try done.
    + intros Hp Hne. left. apply k_woken_event, k_write_woken.
    + intros _ _ _. apply k_write_woken.
Qed.

Lemma Inv_reachable w : reachable initial (step order) w -> Inv w.
Proof. apply reachable_invariant; [apply Inv_initial|apply Inv_step]. Qed.

(** The loop blocks nowhere but in [epoll_wait]. *)
Lemma next_defined w : Inv w -> lpc w <> LWait -> exists w', loop_next order w = Some w' /\ Inv w'.
Proof.
  intros HI Hp. cut (exists w', loop_next order w = Some w').
  { intros (w' & Hw). exists w'. split; [done|]. by eapply Inv_next. }
  unfold loop_next. destruct (lpc w) eqn:E; try done; try by eexists.
  destruct (check_eq order Horder now (clock w) (timer w) (i_timer _ HI)) as (m & _ & ->). by eexists.
Qed.
End proofs.

(** * Properties *)

Section properties.
Context {F Kn : Type} {KO : KernelOps Kn} {KL : KernelLaws Kn}
  (order : gmap string (Task (F := F)) -> list (string * Task (F := F)))
  (Horder : forall m, order m ≡ₚ map_to_list m).
Implicit Types (w : World F Kn).

Lemma stopped_next w w' :
  Inv w -> loop_next order w = Some w' -> _is_stop (timer w) = true -> _is_stop (timer w') = true.
Proof.
  intros HI Hn Hs. unfold loop_next in Hn. destruct (lpc w) eqn:E; wz_run; try done.
  destruct (check_moves order Horder now (clock w) (timer w) t) as (Hst & _); [apply HI| |apply HI|done|simpl; congruence].
  pose proof (i_now _ HI _ E). pose proof (i_clock _ HI). unfold clock_ok in *. lia.
Qed.

Lemma loop_run_S n w w1 : loop_next order w = Some w1 -> loop_run order (S n) w = loop_run order n w1.
Proof. intros H. cbn [loop_run]. by rewrite H. Qed.

(** How far a stopped loop is from returning. *)
Definition distance (p : LPC) : nat :=
  match p with
  | LReturned => 0 | LTop | LStopTest => 1 | LRead | LCheck _ => 2 | LWait | LNow => 3
  end.

Lemma stopped_returns n : forall w,
  Inv w -> _is_stop (timer w) = true -> wakers w = 0%nat -> (distance (lpc w) <= n)%nat ->
  exists w', loop_run order n w = Some w' /\ lpc w' = LReturned.
Proof.
  induction n as [|n IH]; intros w HI Hs Hw Hd.
  { exists w. split; [done|]. destruct (lpc w); simpl in Hd; lia || done. }
  destruct (loop_next order w) as [w1|] eqn:Hn.
  - rewrite (loop_run_S _ _ _ Hn). apply IH.
    + by eapply Inv_next.
    + by eapply stopped_next.
    + unfold loop_next in Hn. destruct (lpc w); wz_run; done.
    + unfold loop_next in Hn. rewrite Hs in Hn. destruct (lpc w) eqn:E; wz_run; rewrite ?E; simpl in *; lia.
  - exfalso. destruct (decide (lpc w = LWait)) as [E|Hne].
    + destruct (k_wait_event (kernel w)) as [k Hk]; [by apply k_woken_event, (i_stop _ HI)|].
      unfold loop_next in Hn. by rewrite E, Hk in Hn.
    + destruct (next_defined order Horder w HI Hne) as (w' & Hw' & _). congruence.
Qed.

(** C37: [stop] ends the loop. Whatever the interleaving of the loop with additions, removals,
    the passing of time and other calls of [stop], once the flag is set and the eventfd has
    been written to, the thread in [loop] returns within three steps of its own and is not
    left sleeping in [epoll_wait]. *)
Theorem stop_ends_loop w :
  reachable initial (step order) w -> _is_stop (timer w) = true -> wakers w = 0%nat ->
  exists w', loop_run order 3 w = Some w' /\ lpc w' = LReturned.
Proof.
  intros Hr Hs Hw. apply stopped_returns; [by eapply Inv_reachable|done..|]. destruct (lpc w); simpl; lia.
Qed.

End properties.

(** * Concrete runs *)

Definition demo_start : World Z Descriptors.Kernel := loop_start 0.

Lemma demo_spec : forall m : gmap string (Task (F := Z)), map_to_list m ≡ₚ map_to_list m.
Proof. done. Qed.

(** The loop waits, a task for every 500 ms is added. *)
Definition demo_waiting : World Z Descriptors.Kernel :=
  set_timer (client_op map_to_list (CEvery 500 7) 0 0 ctor) (goto LWait demo_start).

Lemma demo_waiting_reachable : reachable initial (step map_to_list) demo_waiting.
Proof.
  apply (reachable_step _ _ (goto LWait demo_start)); [apply (reachable_step _ _ demo_start)|].
  - apply reachable_init. exists 0. split; [by vm_compute|done].
  - apply s_loop. reflexivity.
  - apply (s_client map_to_list (goto LWait demo_start) (CEvery 500 7) 0); simpl; lia.
Qed.

Lemma stop_ends_loop_witness : exists w w' : World Z Descriptors.Kernel, loop_run map_to_list 3 w = Some w' /\ lpc w' = LReturned /\ lpc w = LWait.
Proof.
  set (w1 := mkWorld (stop (timer demo_waiting)) (kernel demo_waiting) 0 LWait 1).
  set (w2 := mkWorld (timer w1) (k_write (kernel w1)) 0 LWait 0).
  assert (H2 : reachable initial (step map_to_list) w2).
  { apply (reachable_step _ _ w1); [apply (reachable_step _ _ demo_waiting)|].
    - apply demo_waiting_reachable.
    - apply (s_stop map_to_list demo_waiting).
    - by apply (s_wakeup map_to_list w1 0). }
  destruct (stop_ends_loop map_to_list demo_spec w2 H2 ltac:(reflexivity) ltac:(reflexivity)) as (w' & Hr & Hp).
  by exists w2, w'.
Defined.

