(* ===== verification/RouteRcu.v ===== *)
(** The routing table of src/main/route_rcu.c, a circular list under userspace RCU, with the
    functions it uses of src/urcu/include/urcu/rculist.h and list.h.

    Lookups are cut at their accesses to shared memory. What [route_add] and [route_del] do while
    they hold the spinlock is one step: other writers wait for the lock, and a lookup only
    reads the [next] fields, of which each of the two changes one. RCU itself is the interface
    [RcuOps] with [RcuLaws]: the callback handed to [call_rcu] does not run before every read-side
    critical section that existed then has ended. *)
From S2P Require Import Prelude.
Open Scope wizard_scope.

(** * The list *)

(** [struct cds_list_head]; [re_next] of an entry has the entry's address, the head
    [route_list] the address 0. *)
Record list_head := mkHead { next : nat; prev : nat }.

Definition CDS_INIT_LIST_HEAD (ptr : nat) (m : gmap nat list_head) : gmap nat list_head := <[ptr := mkHead ptr ptr]> m.

Definition cds_list_add_rcu (newp head : nat) (m : gmap nat list_head) : option (gmap nat list_head) :=
  h <-? m !! head;
  _ <-? m !! newp;
  let m := <[newp := mkHead (next h) head]> m in
  h <-? m !! head;
  n <-? m !! next h;
  let m := <[next h := mkHead (next n) newp]> m in
  h <-? m !! head;
  Some (<[head := mkHead newp (prev h)]> m).

Definition cds_list_del_rcu (elem : nat) (m : gmap nat list_head) : option (gmap nat list_head) :=
  e <-? m !! elem;
  n <-? m !! next e;
  let m := <[next e := mkHead (next n) (prev e)]> m in
  e <-? m !! elem;
  p <-? m !! prev e;
  Some (<[prev e := mkHead (next e) (prev p)]> m).

(** ** Segments *)

(** The nodes of [l] follow one another, and the last one is followed by [q]. *)
Fixpoint seg (m : gmap nat list_head) (l : list nat) (q : nat) : Prop :=
  match l with [] => True | x :: l => next <$> m !! x = Some (hd q l) /\ seg m l q end.

(** Backwards, the node before the first of [l] being [p]. *)
Fixpoint bseg (m : gmap nat list_head) (p : nat) (l : list nat) : Prop :=
  match l with [] => True | x :: l => prev <$> m !! x = Some p /\ bseg m x l end.

Definition ring (m : gmap nat list_head) (h : nat) (l : list nat) : Prop := seg m (h :: l) h /\ bseg m h (l ++ [h]).

Section segments.
Implicit Types (m : gmap nat list_head) (l : list nat).

Lemma hd_app (q : nat) l1 l2 : hd q (l1 ++ l2) = hd (hd q l2) l1.
Proof. by destruct l1. Qed.

Lemma list_seg_app m l1 l2 q : seg m (l1 ++ l2) q <-> seg m l1 (hd q l2) /\ seg m l2 q.
Proof. induction l1 as [|x l1 IH]; simpl; [tauto|]. rewrite IH, hd_app. tauto. Qed.

Lemma list_seg_frame m m' l q :
  (forall x, x ∈ l -> next <$> m' !! x = next <$> m !! x) -> seg m l q -> seg m' l q.
Proof.
  induction l as [|x l IH]; simpl; [done|]. intros Hf [Hx Hl].
  split; [by rewrite Hf by left|apply IH; [|done]; intros y Hy; apply Hf; by right].
Qed.

Lemma bseg_app m l1 : forall p l2, bseg m p (l1 ++ l2) <-> bseg m p l1 /\ bseg m (default p (last l1)) l2.
Proof.
  induction l1 as [|x l1 IH]; intros p l2; simpl; [tauto|]. rewrite IH.
  destruct l1 as [|y l1]; simpl; [tauto|]. destruct (last (y :: l1)) eqn:E; [tauto|].
  by apply last_None in E.
Qed.

Lemma bseg_frame m m' l : forall p,
  (forall x, x ∈ l -> prev <$> m' !! x = prev <$> m !! x) -> bseg m p l -> bseg m' p l.
Proof.
  induction l as [|x l IH]; simpl; [done|]. intros p Hf [Hx Hl].
  split; [by rewrite Hf by left|apply IH; [|done]; intros y Hy; apply Hf; by right].
Qed.

Lemma ring_elem m h l x : ring m h l -> x ∈ h :: l -> is_Some (m !! x).
Proof.
  intros [Hs _] Hx. apply list_elem_of_split in Hx as (l1 & l2 & Hl).
  rewrite Hl, list_seg_app in Hs. destruct Hs as [_ [Hx _]].
  destruct (m !! x); [by eexists|done].
Qed.

(** The last of [h :: l]. *)
Lemma head_snoc (h : nat) l : exists r, h :: l = r ++ [default h (last l)].
Proof.
  destruct l as [|x l] using rev_ind; [by exists []|].
  exists (h :: l). by rewrite last_snoc.
Qed.

(** ** The two updates *)

Lemma add_rcu_links m h l a :
  ring m h l -> a ∉ h :: l -> is_Some (m !! a) ->
  exists m', cds_list_add_rcu a h m = Some m' /\
    (forall y, next <$> m' !! y = if decide (y = h) then Some a else if decide (y = a) then Some (hd h l) else next <$> m !! y) /\
    (forall y, prev <$> m' !! y = if decide (y = hd h l) then Some a else if decide (y = a) then Some h else prev <$> m !! y).
Proof.
  intros Hr Ha [va Hva]. pose proof (ring_elem m h l) as Hel.
  destruct (Hel h Hr ltac:(by left)) as [vh Hvh].
  assert (Hn : next vh = hd h l).
  { destruct Hr as [[Hs _] _]. rewrite Hvh in Hs. by injection Hs. }
  assert (Hin : hd h l ∈ h :: l) by (destruct l; [by left|by right; left]).
  destruct (Hel _ Hr Hin) as [vn Hvn].
  unfold cds_list_add_rcu. rewrite Hvh, Hva. cbv zeta.
  rewrite lookup_insert_ne by set_solver. rewrite Hvh, Hn.
  rewrite lookup_insert_ne by set_solver. rewrite Hvn.
  set (m1 := <[a := _]> m). set (m2 := <[hd h l := _]> m1).
  assert (Hm2 : exists vh2, m2 !! h = Some vh2 /\ prev vh2 = if decide (h = hd h l) then a else prev vh).
  { unfold m2, m1. case_decide as E.
    - rewrite <-E, lookup_insert_eq. by eexists.
    - rewrite lookup_insert_ne by congruence. rewrite lookup_insert_ne by set_solver. by eexists. }
  destruct Hm2 as (vh2 & -> & Hp2). eexists. split; [done|].
  split; intros y.
  - destruct (decide (y = h)) as [E1|E1]; [by rewrite E1, lookup_insert_eq|]. rewrite lookup_insert_ne by congruence.
    unfold m2. destruct (decide (y = hd h l)) as [->|E2].
    + rewrite lookup_insert_eq. simpl. rewrite decide_False by set_solver. by rewrite Hvn.
    + rewrite lookup_insert_ne by congruence. unfold m1. destruct (decide (y = a)) as [E3|E3]; [by rewrite E3, lookup_insert_eq|].
      by rewrite lookup_insert_ne.
  - destruct (decide (y = h)) as [->|E1].
    + rewrite lookup_insert_eq. simpl. rewrite Hp2.
      destruct (decide (h = hd h l)); [done|]. rewrite decide_False by set_solver. by rewrite Hvh.
    + rewrite lookup_insert_ne by congruence. unfold m2. destruct (decide (y = hd h l)) as [E2|E2]; [by rewrite E2, lookup_insert_eq|].
      rewrite lookup_insert_ne by congruence. unfold m1. destruct (decide (y = a)) as [E3|E3]; [by rewrite E3, lookup_insert_eq|].
      by rewrite lookup_insert_ne.
Qed.

Lemma links_dom (m m' : gmap nat list_head) : (forall y, is_Some (next <$> m' !! y) <-> is_Some (next <$> m !! y)) -> dom m' = dom m.
Proof. intros H. apply set_eq. intros y. rewrite !elem_of_dom. specialize (H y). by rewrite !fmap_is_Some in H. Qed.

Lemma add_rcu_ring m h l a m' :
  ring m h l -> NoDup (h :: l) -> a ∉ h :: l -> is_Some (m !! a) ->
  cds_list_add_rcu a h m = Some m' -> ring m' h (a :: l) /\ dom m' = dom m.
Proof.
  intros Hr Hnd Ha Hs Hm. pose proof Hr as [Hf Hb].
  destruct (add_rcu_links m h l a Hr Ha Hs) as (m'' & Hm'' & Hnext & Hprev). rewrite Hm in Hm''. injection Hm'' as <-.
  apply NoDup_cons in Hnd as [Hh Hnd].
  split; [split|].
  - simpl. rewrite !Hnext. rewrite decide_True by done. split; [done|].
    rewrite decide_False by set_solver. rewrite decide_True by done. split; [done|].
    destruct Hf as [_ Hf]. revert Hf. apply list_seg_frame. intros x Hx. rewrite Hnext.
    rewrite decide_False by (intros ->; done). by rewrite decide_False by (intros ->; set_solver).
  - simpl. rewrite Hprev.
    assert (a <> hd h l) by (destruct l; set_solver).
    rewrite decide_False by done. rewrite decide_True by done. split; [done|].
    destruct l as [|x l]; simpl in *.
    + by rewrite Hprev, decide_True.
    + rewrite Hprev, decide_True by done. split; [done|]. destruct Hb as [_ Hb]. revert Hb. apply bseg_frame.
      intros y Hy. rewrite Hprev. apply NoDup_cons in Hnd as [Hx Hnd].
      rewrite decide_False by (intros ->; set_solver). by rewrite decide_False by (intros ->; set_solver).
  - apply links_dom. intros y. rewrite Hnext. case_decide as E; [subst|case_decide as E2; [subst|done]].
    + split; [intros _|by eexists]. apply fmap_is_Some. eapply ring_elem; [done|by left].
    + split; [intros _|by eexists]. by apply fmap_is_Some.
Qed.

Lemma del_rcu_links m h pre x post :
  ring m h (pre ++ x :: post) -> NoDup (h :: pre ++ x :: post) ->
  exists m', cds_list_del_rcu x m = Some m' /\
    (forall y, next <$> m' !! y = if decide (y = default h (last pre)) then Some (hd h post) else next <$> m !! y) /\
    (forall y, prev <$> m' !! y = if decide (y = hd h post) then Some (default h (last pre)) else prev <$> m !! y).
Proof.
  intros Hr Hnd. pose proof (ring_elem m h (pre ++ x :: post)) as Hel. pose proof Hr as [Hf Hb].
  destruct (Hel x Hr ltac:(set_solver)) as [e He].
  rewrite app_comm_cons, list_seg_app in Hf. destruct Hf as [_ [Hn _]]. rewrite He in Hn. injection Hn as Hn.
  rewrite <-app_assoc, bseg_app in Hb. destruct Hb as [_ [Hp _]]. rewrite He in Hp. injection Hp as Hp.
  assert (Hne : hd h post <> x /\ default h (last pre) <> x).
  { rewrite app_comm_cons in Hnd. destruct (head_snoc h pre) as [r Hrr]. rewrite Hrr in Hnd.
    rewrite NoDup_app in Hnd. destruct Hnd as (_ & Hd & [Hx _]%NoDup_cons).
    assert (Hhx : h <> x) by (intros ->; apply (Hd x); [rewrite <-Hrr; by left|by left]).
    split; [destruct post; simpl; set_solver|]. intros E. apply (Hd x); [rewrite E; set_solver|by left]. }
  destruct Hne as [Hne1 Hne2].
  assert (Hn_in : is_Some (m !! hd h post)) by (apply Hel; [done|destruct post; set_solver]).
  assert (Hp_in : is_Some (m !! default h (last pre))).
  { apply Hel; [done|]. destruct (head_snoc h pre) as [r Hrr]. rewrite app_comm_cons, Hrr. set_solver. }
  destruct Hn_in as [vn Hvn], Hp_in as [vp Hvp].
  unfold cds_list_del_rcu. rewrite He, Hn, Hvn. cbv zeta. rewrite lookup_insert_ne by done. rewrite He, Hn, Hp.
  set (m1 := <[hd h post := _]> m).
  assert (Hm1 : exists v, m1 !! default h (last pre) = Some v /\
      prev v = if decide (default h (last pre) = hd h post) then default h (last pre) else prev vp).
  { unfold m1. case_decide as E.
    - rewrite E, lookup_insert_eq. eexists. split; [done|]. simpl. congruence.
    - rewrite lookup_insert_ne by congruence. by eexists. }
  destruct Hm1 as (v & -> & Hv). eexists. split; [done|]. split; intros y.
  - destruct (decide (y = default h (last pre))) as [E|E]; [by rewrite E, lookup_insert_eq|]. rewrite lookup_insert_ne by congruence.
    unfold m1. destruct (decide (y = hd h post)) as [->|E2]; [by rewrite lookup_insert_eq, Hvn|by rewrite lookup_insert_ne].
  - destruct (decide (y = default h (last pre))) as [->|E1].
    + rewrite lookup_insert_eq. simpl. rewrite Hv. destruct (decide (default h (last pre) = hd h post)); [done|by rewrite Hvp].
    + rewrite lookup_insert_ne by congruence. unfold m1.
      destruct (decide (y = hd h post)) as [E2|E2]; [by rewrite E2, lookup_insert_eq|by rewrite lookup_insert_ne].
Qed.

Lemma del_rcu_ring m h pre x post m' :
  ring m h (pre ++ x :: post) -> NoDup (h :: pre ++ x :: post) -> cds_list_del_rcu x m = Some m' ->
  ring m' h (pre ++ post) /\ dom m' = dom m.
Proof.
  intros Hr Hnd Hm. pose proof Hr as [Hf Hb].
  destruct (del_rcu_links m h pre x post Hr Hnd) as (m'' & Hm'' & Hnext & Hprev). rewrite Hm in Hm''. injection Hm'' as <-.
  destruct (head_snoc h pre) as [r Hrr].
  assert (Hlast : default h (last pre) ∈ h :: pre) by (rewrite Hrr; set_solver).
  set (p := default h (last pre)) in *.
  rewrite app_comm_cons, Hrr in Hnd. pose proof Hnd as Hnd2.
  rewrite NoDup_app in Hnd2. destruct Hnd2 as (Hndr & Hd & [Hx Hndp]%NoDup_cons).
  rewrite NoDup_app in Hndr. destruct Hndr as (Hndr & Hdp & _).
  split; [split|].
  - rewrite app_comm_cons, Hrr in Hf |- *. rewrite !list_seg_app in Hf |- *. simpl in Hf |- *.
    destruct Hf as [[Hf1 [Hf2 _]] [_ Hf3]]. split_and!.
    + revert Hf1. apply list_seg_frame. intros y Hy. rewrite Hnext, decide_False; [done|]. intros ->. by apply (Hdp p); [|left].
    + by rewrite Hnext, decide_True.
    + done.
    + revert Hf3. apply list_seg_frame. intros y Hy. rewrite Hnext, decide_False; [done|]. intros ->.
      apply (Hd p); [set_solver|by right].
  - assert (Hh : h ∈ r ++ [p]) by (rewrite <-Hrr; by left).
    rewrite <-!app_assoc in Hb |- *. rewrite bseg_app in Hb |- *. simpl in Hb. fold p in Hb. fold p.
    destruct Hb as [Hb1 [Hb2 Hb3]].
    assert (Hndpre : NoDup (h :: pre)) by (rewrite Hrr; by apply NoDup_app in Hnd as (? & _ & _)).
    apply NoDup_cons in Hndpre as [Hhpre Hndpre].
    split.
    + revert Hb1. apply bseg_frame. intros y Hy. rewrite Hprev, decide_False; [done|]. intros ->.
      destruct post as [|z post]; simpl in *; [done|]. apply (Hd z); [rewrite <-Hrr; by right|set_solver].
    + destruct post as [|z post]; simpl in Hb3 |- *.
      * rewrite Hprev. simpl. by rewrite decide_True.
      * rewrite Hprev. simpl. rewrite decide_True by done. split; [done|]. destruct Hb3 as [_ Hb3]. revert Hb3.
        apply bseg_frame. intros y Hy. rewrite Hprev. simpl. rewrite decide_False; [done|]. intros ->.
        apply NoDup_cons in Hndp as [Hz _]. apply elem_of_app in Hy as [Hy|Hy%list_elem_of_singleton]; [done|].
        subst z. apply (Hd h); [done|set_solver].
  - apply links_dom. intros y. rewrite Hnext. destruct (decide (y = p)) as [E|E]; [rewrite E|done].
    split; [intros _|by eexists]. apply fmap_is_Some. apply (ring_elem m h _ _ Hr). rewrite app_comm_cons.
    apply elem_of_app. by left.
Qed.
End segments.

(** * Userspace RCU *)

(** Threads and callbacks are named by numbers; a callback by the entry it frees. *)
Class RcuOps (G : Type) := {
  rcu_init : G;
  rcu_read_lock : nat -> G -> G;
  rcu_read_unlock : nat -> G -> G;
  call_rcu : nat -> G -> G;
  grace_period_over : nat -> G -> bool
}.

(** A grace period waits for the critical sections it found, and for no others. *)
Class RcuLaws (G : Type) {RO : RcuOps G} := {
  reading : G -> nat -> Prop;
  waits_for : G -> nat -> nat -> Prop;
  init_reading t : ~ reading rcu_init t;
  lock_reading t g u : reading (rcu_read_lock t g) u <-> u = t \/ reading g u;
  unlock_reading t g u : reading (rcu_read_unlock t g) u <-> u <> t /\ reading g u;
  call_reading a g u : reading (call_rcu a g) u <-> reading g u;
  lock_waits t g a u : waits_for g a u -> waits_for (rcu_read_lock t g) a u;
  unlock_waits t g a u : u <> t -> waits_for g a u -> waits_for (rcu_read_unlock t g) a u;
  call_waits a g u : reading g u -> waits_for (call_rcu a g) a u;
  call_waits_other a g b u : a <> b -> waits_for g b u -> waits_for (call_rcu a g) b u;
  over_waits a g u : grace_period_over a g = true -> ~ waits_for g a u;
  over_idle a g : (forall u, ~ reading g u) -> grace_period_over a g = true
}.

(** An RCU that knows its readers. *)
Module ReaderSets.
Record Rcu := mkRcu { readers : gset nat; found : gmap nat (gset nat) }.

#[global] Instance ops : RcuOps Rcu := {
  rcu_init := mkRcu ∅ ∅;
  rcu_read_lock t g := mkRcu ({[t]} ∪ readers g) (found g);
  rcu_read_unlock t g := mkRcu (readers g ∖ {[t]}) ((fun x => x ∖ {[t]}) <$> found g);
  call_rcu a g := mkRcu (readers g) (<[a := readers g]> (found g));
  grace_period_over a g := bool_decide (default ∅ (found g !! a) ∩ readers g = ∅)
}.

#[global] Instance laws : RcuLaws Rcu.
Proof.
  apply (Build_RcuLaws Rcu ops (fun g t => t ∈ readers g)
    (fun g a t => t ∈ default ∅ (found g !! a) /\ t ∈ readers g)); simpl.
  - set_solver.
  - set_solver.
  - set_solver.
  - set_solver.
  - set_solver.
  - intros t g a u Hu. rewrite lookup_fmap. destruct (found g !! a); simpl; set_solver.
  - intros a g u Hu. rewrite lookup_insert_eq. simpl. done.
  - intros a g b u Hab. by rewrite lookup_insert_ne.
  - intros a g u Ho%bool_decide_eq_true. set_solver.
  - intros a g Hn. apply bool_decide_eq_true. set_solver.
Defined.
End ReaderSets.

(** * The routing table *)

Definition ULONG_MAX : Z := 2 ^ 64 - 1.
Definition ENOENT : Z := 2.
Definition ENOMEM : Z := 12.

(** [struct route_entry]; [rh] and [re_next] are at the entry's address. *)
Record route_entry := mkEntry { addr : Z; iface : Z; re_freed : bool }.

(** What the table stands for: routes, the newest first. *)
Fixpoint table_lookup (k : Z) (M : list (Z * Z)) : Z :=
  match M with [] => ULONG_MAX | (a, i) :: M => if a =? k then i else table_lookup k M end.

Fixpoint table_del (k : Z) (M : list (Z * Z)) : list (Z * Z) :=
  match M with [] => [] | (a, i) :: M => if a =? k then M else (a, i) :: table_del k M end.

Section table.
Context {G : Type} {RO : RcuOps G}.

(** Where a thread is: in [route_lookup] before the load of a [next] field, of [addr], of
    [iface], of [re_freed], before [rcu_read_unlock], or in [route_del] before [call_rcu]. *)
Inductive PC :=
  | PIdle | PNext (pos : nat) | PAddr (rep : nat) | PIface (rep : nat) | PFreed (rep : nat) (ret : Z)
  | PUnlock (ret : Z) | PCall (rep : nat).

(** [since] is a history: the table the call found when it began. *)
Record Thread := mkThread { pc : PC; key : Z; since : nat }.

(** What a lookup returned, with the first and the last table of its duration. *)
Record Answer := mkAnswer { a_key : Z; a_ret : Z; a_from : nat; a_to : nat }.

(** [pending] are the callbacks that have not run. [hist], [answers] and [dels] are histories:
    the tables so far, what lookups and what deletions returned. *)
Record State := mkState {
  links : gmap nat list_head;
  entries : gmap nat route_entry;
  rcu : G;
  pending : list nat;
  threads : list Thread;
  hist : list (list (Z * Z));
  answers : list Answer;
  dels : list (Z * Z * nat)
}.

Definition start (n : nat) : State :=
  mkState (CDS_INIT_LIST_HEAD 0 ∅) ∅ rcu_init [] (replicate n (mkThread PIdle 0 0)) [[]] [] [].

Definition table (s : State) : list (Z * Z) := default [] (last (hist s)).
Definition now (s : State) : nat := pred (length (hist s)).

Definition set_thread (t : nat) (th : Thread) (s : State) : State :=
  mkState (links s) (entries s) (rcu s) (pending s) (<[t := th]> (threads s)) (hist s) (answers s) (dels s).

(** One access of [route_lookup], or the end of [route_del]. *)
Definition thread_step (t : nat) (th : Thread) (s : State) : option State :=
  let goto p := Some (set_thread t (mkThread p (key th) (since th)) s) in
  match pc th with
  | PIdle => Some s
  | PNext pos =>
      h <-? links s !! pos;
      goto (if decide (next h = 0%nat) then PUnlock ULONG_MAX else PAddr (next h))
  | PAddr rep => e <-? entries s !! rep; goto (if addr e =? key th then PIface rep else PNext rep)
  | PIface rep => e <-? entries s !! rep; goto (PFreed rep (iface e))
  | PFreed rep ret => e <-? entries s !! rep; if re_freed e then None else goto (PUnlock ret)
  | PUnlock ret =>
      Some (mkState (links s) (entries s) (rcu_read_unlock t (rcu s)) (pending s)
        (<[t := mkThread PIdle 0 0]> (threads s)) (hist s)
        (answers s ++ [mkAnswer (key th) ret (since th) (now s)]) (dels s))
  | PCall rep =>
      Some (mkState (links s) (entries s) (call_rcu rep (rcu s)) (pending s ++ [rep])
        (<[t := mkThread PIdle 0 0]> (threads s)) (hist s) (answers s) (dels s))
  end.

(** [route_lookup] up to [rcu_read_lock]. *)
Definition route_lookup (t : nat) (k : Z) (s : State) : State :=
  mkState (links s) (entries s) (rcu_read_lock t (rcu s)) (pending s)
    (<[t := mkThread (PNext 0) k (now s)]> (threads s)) (hist s) (answers s) (dels s).

(** [mem] is what [malloc] returns. *)
Definition route_add (mem : option nat) (ad interface : Z) (s : State) : option (Z * State) :=
  match mem with
  | None => Some (- ENOMEM, s)
  | Some rep =>
      m <-? cds_list_add_rcu rep 0 (<[rep := mkHead 0 0]> (links s));
      Some (0, mkState m (<[rep := mkEntry ad interface false]> (entries s)) (rcu s) (pending s) (threads s)
        (hist s ++ [(ad, interface) :: table s]) (answers s) (dels s))
  end.

(** [cds_list_for_each_entry] of [route_del]. *)
Fixpoint del_find (fuel : nat) (k : Z) (rep : nat) (s : State) : option (option nat) :=
  match fuel with
  | O => None
  | S fuel =>
      if decide (rep = 0%nat) then Some None
      else e <-? entries s !! rep;
           if addr e =? k then Some (Some rep) else h <-? links s !! rep; del_find fuel k (next h) s
  end.

(** [route_del] up to [spin_unlock]. *)
Definition route_del (t : nat) (k : Z) (s : State) : option State :=
  h <-? links s !! 0%nat;
  r <-? del_find (S (size (links s))) k (next h) s;
  match r with
  | Some rep =>
      m <-? cds_list_del_rcu rep (links s);
      Some (mkState m (entries s) (rcu s) (pending s) (<[t := mkThread (PCall rep) k 0]> (threads s))
        (hist s ++ [table_del k (table s)]) (answers s) (dels s ++ [(k, 0, now s)]))
  | None => Some (mkState (links s) (entries s) (rcu s) (pending s) (threads s) (hist s) (answers s)
        (dels s ++ [(k, - ENOENT, now s)]))
  end.

(** [re_freed] is set in memory that is gone at once. *)
Definition re_free (rep : nat) (s : State) : option State :=
  _ <-? entries s !! rep;
  Some (mkState (delete rep (links s)) (delete rep (entries s)) (rcu s) (pending s) (threads s) (hist s)
    (answers s) (dels s)).

(** The callback of [rep], when RCU invokes it. *)
Definition route_cb (rep : nat) (s : State) : option State :=
  re_free rep (mkState (links s) (entries s) (rcu s) (filter (fun a => a <> rep) (pending s)) (threads s)
    (hist s) (answers s) (dels s)).

(** [route_clear] moves every entry to a list on its stack, whose head is [junk], ... *)
Fixpoint clear_loop (fuel : nat) (junk rep rep1 : nat) (m : gmap nat list_head) : option (gmap nat list_head) :=
  match fuel with
  | O => None
  | S fuel =>
      if decide (rep = 0%nat) then Some m
      else m <-? cds_list_del_rcu rep m;
           m <-? cds_list_add_rcu rep junk m;
           h <-? m !! rep1; clear_loop fuel junk rep1 (next h) m
  end.

(** ... and frees what is in that list. *)
Fixpoint free_loop (fuel : nat) (junk rep rep1 : nat) (s : State) : option State :=
  match fuel with
  | O => None
  | S fuel =>
      if decide (rep = junk) then Some s
      else s <-? re_free rep s; h <-? links s !! rep1; free_loop fuel junk rep1 (next h) s
  end.

(** Called when there are no lookups: [synchronize_rcu] returns at once. *)
Definition route_clear (junk : nat) (s : State) : option State :=
  let m := CDS_INIT_LIST_HEAD junk (links s) in
  h <-? m !! 0%nat;
  h1 <-? m !! next h;
  m <-? clear_loop (S (size m)) junk (next h) (next h1) m;
  let s := mkState m (entries s) (rcu s) (pending s) (threads s) (hist s ++ [[]]) (answers s) (dels s) in
  j <-? m !! junk;
  j1 <-? m !! next j;
  s <-? free_loop (S (size m)) junk (next j) (next j1) s;
  Some (mkState (delete junk (links s)) (entries s) (rcu s) (pending s) (threads s) (hist s) (answers s) (dels s)).

Inductive Act :=
  | ALookup (t : nat) (k : Z) | AStep (t : nat) | AAdd (mem : option nat) (ad interface : Z)
  | ADel (t : nat) (k : Z) | ACallback (rep : nat).

(** [malloc] returns memory not in use, RCU invokes callbacks after their grace period; a
    thread makes one call at a time. *)
Definition enabled (c : Act) (s : State) : bool :=
  match c with
  | ALookup t _ | ADel t _ => match threads s !! t with Some (mkThread PIdle _ _) => true | _ => false end
  | AStep _ | AAdd None _ _ => true
  | AAdd (Some rep) _ _ => negb (bool_decide (rep = 0%nat)) && bool_decide (entries s !! rep = None)
  | ACallback rep => bool_decide (rep ∈ pending s) && grace_period_over rep (rcu s)
  end.

Definition step (c : Act) (s : State) : option State :=
  if enabled c s then
    match c with
    | ALookup t k => Some (route_lookup t k s)
    | AStep t => match threads s !! t with Some th => thread_step t th s | None => Some s end
    | AAdd mem ad interface => r <-? route_add mem ad interface s; Some (snd r)
    | ADel t k => route_del t k s
    | ACallback rep => route_cb rep s
    end
  else Some s.

Fixpoint run (l : list Act) (s : State) : option State :=
  match l with [] => Some s | c :: l => s <-? step c s; run l s end.
End table.

Arguments State : clear implicits.
Close Scope wizard_scope.

(** * Lookups in tables *)

Definition row (es : gmap nat route_entry) (a : nat) : option (Z * Z) := (fun e => (addr e, iface e)) <$> es !! a.
Definition rows (es : gmap nat route_entry) (l : list nat) : list (Z * Z) := omap (row es) l.

Section rows.
Implicit Types (es : gmap nat route_entry) (l : list nat) (M : list (Z * Z)).

Lemma rows_app es l1 l2 : rows es (l1 ++ l2) = rows es l1 ++ rows es l2.
Proof. apply omap_app. Qed.

Lemma rows_frame es es' l : (forall a, a ∈ l -> es' !! a = es !! a) -> rows es' l = rows es l.
Proof.
  induction l as [|a l IH]; intros Hf; [done|]. unfold rows. cbn.
  assert (row es' a = row es a) as -> by (unfold row; by rewrite Hf by left).
  fold (rows es' l) (rows es l). rewrite IH; [done|]. intros b Hb. apply Hf. by right.
Qed.

Lemma rows_cons es a l e : es !! a = Some e -> rows es (a :: l) = (addr e, iface e) :: rows es l.
Proof. intros He. unfold rows. cbn. assert (row es a = Some (addr e, iface e)) as -> by (unfold row; by rewrite He). done. Qed.

(** No route of [M] has the key. *)
Definition no_key (k : Z) M : Prop := forall r, r ∈ M -> fst r <> k.

Lemma lookup_app_no k M1 M2 : no_key k M1 -> table_lookup k (M1 ++ M2) = table_lookup k M2.
Proof.
  induction M1 as [|[a i] M1 IH]; intros Hn; [done|]. simpl.
  destruct (Z.eqb_spec a k) as [->|_]; [by destruct (Hn (k, i) ltac:(by left))|]. apply IH. intros r Hr. apply Hn. by right.
Qed.

Lemma lookup_app_hit k M1 M2 M3 : ~ no_key k M1 -> table_lookup k (M1 ++ M2) = table_lookup k (M1 ++ M3).
Proof.
  induction M1 as [|[a i] M1 IH]; intros Hn; [by destruct Hn; intros r Hr%elem_of_nil|]. simpl.
  destruct (Z.eqb_spec a k) as [->|Hne]; [done|]. apply IH. intros Hn'. apply Hn.
  intros r [->|Hr]%elem_of_cons; [done|by apply Hn'].
Qed.

Lemma no_key_dec k M : no_key k M \/ ~ no_key k M.
Proof.
  induction M as [|[a i] M [IH|IH]]; [left; intros r Hr%elem_of_nil; done| |].
  - destruct (decide (a = k)) as [->|Hne].
    + right. intros Hn. by apply (Hn (k, i) ltac:(by left)).
    + left. intros r [->|Hr]%elem_of_cons; [done|by apply IH].
  - right. intros Hn. apply IH. intros r Hr. apply Hn. by right.
Qed.

(** Dropping a route with another key changes nothing. *)
Lemma lookup_skip k a i M1 M2 : a <> k -> table_lookup k (M1 ++ (a, i) :: M2) = table_lookup k (M1 ++ M2).
Proof.
  intros Hne. induction M1 as [|[b j] M1 IH]; simpl; [by destruct (Z.eqb_spec a k)|]. by rewrite IH.
Qed.

Lemma table_del_app k i M1 M2 : no_key k M1 -> table_del k (M1 ++ (k, i) :: M2) = M1 ++ M2.
Proof.
  induction M1 as [|[b j] M1 IH]; simpl; intros Hn; [by rewrite Z.eqb_refl|].
  destruct (Z.eqb_spec b k) as [->|_]; [by destruct (Hn (k, j) ltac:(by left))|]. rewrite IH; [done|].
  intros r Hr. apply Hn. by right.
Qed.
End rows.

(** * Lookups run along live and dead entries *)

(** A lookup at [p] that has [rest] before it: it is at the head, or it is at an entry and what
    it will meet is first entries that have left the table and are [safe], then a suffix of
    the table. *)
Definition on_path (L : list nat) (safe : nat -> Prop) (m : gmap nat list_head) (p : nat) (rest : list nat) : Prop :=
  (p = 0%nat /\ rest = L) \/
  (seg m (p :: rest) 0 /\ exists ds ls, p :: rest = ds ++ ls /\ Forall safe ds /\ ls `suffix_of` L).

Section paths.
Implicit Types (m : gmap nat list_head) (L l rest : list nat) (safe : nat -> Prop).

Lemma on_path_elem L safe m p rest x :
  on_path L safe m p rest -> x ∈ rest \/ x = p /\ p <> 0%nat -> x ∈ L \/ safe x.
Proof.
  intros [[-> ->]|(_ & ds & ls & E & Hds & [k ->])] Hx.
  - destruct Hx as [?|[_ ?]]; [by left|done].
  - assert (Hin : x ∈ p :: rest) by set_solver. rewrite E in Hin. apply elem_of_app in Hin as [Hin|Hin].
    + right. by eapply Forall_forall in Hds.
    + left. set_solver.
Qed.

(** The next entry of a lookup. *)
Lemma on_path_next L safe m p rest h :
  ring m 0 L -> on_path L safe m p rest -> m !! p = Some h ->
  next h = hd 0%nat rest /\ forall q r, rest = q :: r -> on_path L safe m q r.
Proof.
  intros [Hr _] Hp Hm. assert (Hs : seg m (p :: rest) 0) by (by destruct Hp as [[-> ->]|[? _]]).
  pose proof Hs as Hs'. destruct Hs' as [Hn Hs']. rewrite Hm in Hn. split; [by injection Hn|].
  intros q r ->. right. split; [done|]. destruct Hp as [[-> E]|(_ & ds & ls & E & Hds & Hls)].
  - exists [], (q :: r). split_and!; [done|constructor|by rewrite E].
  - destruct ds as [|d ds].
    + simpl in E. subst ls. exists [], (q :: r). split_and!; [done|constructor|].
      destruct Hls as [k ->]. exists (k ++ [p]). by rewrite <-app_assoc.
    + injection E as -> E. apply Forall_cons in Hds as [_ Hds]. by exists ds, ls.
Qed.

Lemma on_path_mono L safe safe' m p rest :
  (forall a, a ∈ p :: rest -> safe a -> safe' a) -> on_path L safe m p rest -> on_path L safe' m p rest.
Proof.
  intros Hsafe [?|(Hs & ds & ls & E & Hds & Hls)]; [by left|right]. split; [done|]. exists ds, ls. split_and!; [done| |done].
  apply Forall_forall. intros a Ha. eapply Forall_forall in Hds; [|done]. apply Hsafe; [|done]. rewrite E. set_solver.
Qed.

Lemma on_path_frame L safe m m' p rest :
  (forall a, a ∈ p :: rest -> next <$> m' !! a = next <$> m !! a) -> on_path L safe m p rest -> on_path L safe m' p rest.
Proof.
  intros Hf [?|(Hs & ?)]; [by left|right]. split; [|done]. by eapply list_seg_frame.
Qed.

(** Adding an entry at the front concerns the lookups that have not started. *)
Lemma on_path_add L safe m m' a p rest :
  (forall y, y <> 0%nat -> y ∈ p :: rest -> next <$> m' !! y = next <$> m !! y) -> 0%nat ∉ L -> (forall x, safe x -> x <> 0%nat) ->
  on_path L safe m p rest ->
  on_path (a :: L) safe m' p rest \/ p = 0%nat /\ on_path (a :: L) safe m' p (a :: L).
Proof.
  intros Hf H0 Hs0 [[-> ->]|(Hs & ds & ls & E & Hds & Hls)]; [right; split; [done|by left]|left; right].
  split.
  - eapply list_seg_frame; [|done]. intros x Hx. apply Hf; [|done]. rewrite E in Hx. intros ->. apply elem_of_app in Hx as [Hx|Hx].
    + eapply Forall_forall in Hds; [|done]. by apply (Hs0 0%nat).
    + destruct Hls as [k ->]. apply H0. set_solver.
  - exists ds, ls. split_and!; [done..|]. by apply suffix_cons_r.
Qed.

(** Taking an entry out leaves a lookup as it was, or takes the entry off its path. *)
Lemma on_path_del pre x post safe m m' p rest :
  NoDup (0%nat :: pre ++ x :: post) -> (forall a, safe a -> a ∉ 0%nat :: pre ++ x :: post) ->
  (forall y, next <$> m' !! y = if decide (y = default 0%nat (last pre)) then Some (hd 0%nat post) else next <$> m !! y) ->
  on_path (pre ++ x :: post) safe m p rest ->
  on_path (pre ++ post) (fun a => a = x \/ safe a) m' p rest \/
  exists r1, rest = r1 ++ x :: post /\ on_path (pre ++ post) (fun a => a = x \/ safe a) m' p (r1 ++ post).
Proof.
  intros Hnd Hsafe Hnext [[-> ->]|(Hs & ds & ls & E & Hds & k & Hk)]; [right; exists pre; split; [done|by left]|].
  destruct (head_snoc 0%nat pre) as [r0 Hr0]. set (y0 := default 0%nat (last pre)) in *.
  assert (Hy0 : y0 ∈ 0%nat :: pre) by (rewrite Hr0; set_solver).
  assert (Hdis : forall z, z ∈ 0%nat :: pre -> z ∉ x :: post).
  { intros z Hz Hz'. rewrite app_comm_cons, NoDup_app in Hnd. destruct Hnd as (_ & Hd & _). by apply (Hd z). }
  assert (Hds0 : y0 ∉ ds).
  { intros Hin. eapply Forall_forall in Hds; [|done]. apply (Hsafe y0 Hds). rewrite app_comm_cons. set_solver. }
  assert (Hds' : Forall (fun a => a = x \/ safe a) ds) by (eapply Forall_impl; [done|by right]).
  assert (Hkeep : y0 ∉ ls -> ls `suffix_of` pre ++ post \/ ls = x :: post ->
    on_path (pre ++ post) (fun a => a = x \/ safe a) m' p rest).
  { intros Hls Hcase. right. split.
    - eapply list_seg_frame; [|done]. intros z Hz. rewrite Hnext, decide_False; [done|]. intros ->. rewrite E in Hz. set_solver.
    - destruct Hcase as [?|El]; [by exists ds, ls|]. exists (ds ++ [x]), post. split_and!.
      + by rewrite E, El, <-app_assoc.
      + apply Forall_app. split; [done|]. constructor; [by left|constructor].
      + by apply suffix_app_r. }
  symmetry in Hk. apply app_eq_inv in Hk as [(z & -> & Hz)|(z & -> & Hz)].
  - left. destruct z as [|x' z]; simpl in Hz.
    + apply Hkeep; [|by right]. rewrite <-Hz. by apply Hdis.
    + injection Hz as <- ->. apply Hkeep; [|left].
      * intros Hin. apply (Hdis y0); [done|]. right. set_solver.
      * exists (pre ++ z). by rewrite <-app_assoc.
  - destruct z as [|z0 z] using rev_ind.
    + left. apply Hkeep; [|by right]. simpl in Hz. rewrite Hz. by apply Hdis.
    + clear IHz. right. subst ls.
      assert (Ey : y0 = z0) by (unfold y0; by rewrite app_assoc, last_snoc).
      assert (Hz0 : (z0 ∉ ds ++ z) /\ (z0 ∉ post)).
      { split; [|rewrite <-Ey; intros Hin; apply (Hdis y0); [done|by right]].
        intros [Hin|Hin]%elem_of_app; [by rewrite <-Ey in Hin|]. rewrite app_comm_cons, NoDup_app in Hnd.
        destruct Hnd as (Hnd & _ & _). rewrite NoDup_cons, app_assoc, NoDup_app in Hnd.
        destruct Hnd as (_ & _ & Hd & _). apply (Hd z0); [set_solver|by left]. }
      assert (Hseg : seg m' ((ds ++ z) ++ [z0] ++ post) 0).
      { rewrite E in Hs. replace (ds ++ (z ++ [z0]) ++ x :: post) with ((ds ++ z) ++ [z0] ++ x :: post) in Hs by (by rewrite <-!app_assoc).
        rewrite (list_seg_app m (ds ++ z)), (list_seg_app m [z0]) in Hs. rewrite (list_seg_app m' (ds ++ z)), (list_seg_app m' [z0]). destruct Hs as (Hs1 & _ & Hs3). split_and!.
        - revert Hs1. apply list_seg_frame. intros w Hw. rewrite Hnext, decide_False; [done|]. rewrite Ey. intros ->. tauto.
        - split; [|done]. rewrite Hnext, decide_True by done. done.
        - destruct Hs3 as [_ Hs3]. revert Hs3. apply list_seg_frame. intros w Hw. rewrite Hnext, decide_False; [done|].
          rewrite Ey. intros ->. tauto. }
      assert (Hcase : exists r1, (p :: r1) = (ds ++ z) ++ [z0] /\ rest = r1 ++ x :: post).
      { destruct ((ds ++ z) ++ [z0]) as [|p' r1] eqn:Er; [by destruct (ds ++ z)|].
        replace (ds ++ (z ++ [z0]) ++ x :: post) with (((ds ++ z) ++ [z0]) ++ x :: post) in E by (by rewrite <-!app_assoc).
        rewrite Er in E. injection E as -> ->. by exists r1. }
      destruct Hcase as (r1 & Er & ->). exists r1. split; [done|right].
      change (p :: r1 ++ post) with ((p :: r1) ++ post). rewrite Er, <-app_assoc. split; [done|].
      exists ds, (z ++ [z0] ++ post). split_and!; [by rewrite <-!app_assoc|done|].
      exists k. by rewrite <-!app_assoc.
Qed.
End paths.

(** * The invariant *)

Section invariant.
Context {G : Type} {RO : RcuOps G} {RL : RcuLaws G}.
Implicit Types (s : State G) (L : list nat) (th : Thread).

Definition unlinked_by th : option nat := match pc th with PCall rep => Some rep | _ => None end.

(** The entries that have left the table and are allocated. *)
Definition dead s : list nat := omap unlinked_by (threads s) ++ pending s.

(** Nobody frees [a] while the lookup of thread [t] runs. *)
Definition safe s (t a : nat) : Prop :=
  a ∈ omap unlinked_by (threads s) \/ a ∈ pending s /\ waits_for (rcu s) a t.

Definition in_lookup (p : PC) : Prop := match p with PIdle | PCall _ => False | _ => True end.

(** The moment [i] of the call at which the table gave the answer that the lookup will give. *)
Definition lookup_ok s L (t : nat) th (M : list (Z * Z)) : Prop :=
  let ahead p rest := on_path L (safe s t) (links s) p rest in
  match pc th with
  | PNext p => exists rest, ahead p rest /\ table_lookup (key th) M = table_lookup (key th) (rows (entries s) rest)
  | PAddr p => exists rest, p <> 0%nat /\ ahead p rest /\
      table_lookup (key th) M = table_lookup (key th) (rows (entries s) (p :: rest))
  | PIface p => exists rest e, p <> 0%nat /\ ahead p rest /\ entries s !! p = Some e /\ table_lookup (key th) M = iface e
  | PFreed p ret => exists rest, p <> 0%nat /\ ahead p rest /\ table_lookup (key th) M = ret
  | PUnlock ret => table_lookup (key th) M = ret
  | _ => True
  end.

Definition thread_ok s L t th : Prop :=
  in_lookup (pc th) -> reading (rcu s) t /\
  exists i M, (since th <= i)%nat /\ hist s !! i = Some M /\ lookup_ok s L t th M.

(** Every answer was right at a moment of the call, every deletion at its own. *)
Definition answer_ok s (x : Answer) : Prop :=
  exists i M, (a_from x <= i <= a_to x)%nat /\ hist s !! i = Some M /\ a_ret x = table_lookup (a_key x) M.

Definition del_ok s (x : Z * Z * nat) : Prop :=
  let '(k, ret, i) := x in exists M, hist s !! i = Some M /\
  (ret = 0 /\ (exists r, r ∈ M /\ fst r = k) /\ hist s !! S i = Some (table_del k M) \/ ret = - ENOENT /\ no_key k M).

Record Inv s L : Prop := {
  i_ring : ring (links s) 0 L;
  i_nodup : NoDup (0%nat :: L ++ dead s);
  i_entries : forall a, is_Some (entries s !! a) <-> a ∈ L ++ dead s;
  i_links : dom (links s) = {[0%nat]} ∪ dom (entries s);
  i_alive : forall a e, entries s !! a = Some e -> re_freed e = false;
  i_table : last (hist s) = Some (rows (entries s) L);
  i_threads : forall t th, threads s !! t = Some th -> thread_ok s L t th;
  i_reading : forall t, reading (rcu s) t -> exists th, threads s !! t = Some th /\ in_lookup (pc th);
  i_answers : Forall (answer_ok s) (answers s);
  i_dels : Forall (del_ok s) (dels s)
}.

Lemma start_inv n : Inv (start n) [].
Proof.
  constructor; simpl; try done.
  - replace (dead (start n)) with (@nil nat); [by repeat constructor; intros ?%elem_of_nil|].
    unfold dead. simpl. rewrite app_nil_r. by induction n.
  - intros a. replace (dead (start n)) with (@nil nat).
    + rewrite lookup_empty. split; [by intros [? ?]|by intros ?%elem_of_nil].
    + unfold dead. simpl. rewrite app_nil_r. by induction n.
  - intros t th Ht%lookup_replicate. destruct Ht as [-> _]. by intros [].
  - intros t []%init_reading.
Qed.

Lemma safe_dead s t a : safe s t a -> a ∈ dead s.
Proof. unfold safe, dead. set_solver. Qed.

Lemma hist_now s L : Inv s L -> hist s !! now s = Some (rows (entries s) L) /\ table s = rows (entries s) L.
Proof. intros H. unfold now, table. rewrite <-last_lookup, (i_table _ _ H). done. Qed.

Lemma answer_hist s s' x : (exists h, hist s' = hist s ++ h) -> answer_ok s x -> answer_ok s' x.
Proof.
  intros [h Hh] (i & M & Hi & HM & Hr). exists i, M. split_and!; [lia|lia| |done]. rewrite Hh. by apply lookup_app_l_Some.
Qed.

Lemma del_hist s s' x : (exists h, hist s' = hist s ++ h) -> del_ok s x -> del_ok s' x.
Proof.
  intros [h Hh]. destruct x as [[k ret] i]. intros (M & HM & Hr). exists M. rewrite Hh.
  split; [by apply lookup_app_l_Some|]. destruct Hr as [(-> & He & Hn)|?]; [left|by right].
  split_and!; [done..|]. by apply lookup_app_l_Some.
Qed.

(** ** What a change keeps of a lookup *)

(** A lookup goes on along a path on which it will give the same answer, or the answer of the
    table that the change has made. *)
Lemma thread_ok_change s s' L L' t th :
  (reading (rcu s) t -> reading (rcu s') t) -> (exists h, hist s' = hist s ++ h) ->
  (forall p rest, reading (rcu s) t -> on_path L (safe s t) (links s) p rest ->
    exists rest', on_path L' (safe s' t) (links s') p rest' /\
    (p <> 0%nat -> entries s' !! p = entries s !! p) /\
    forall l, l = [] \/ l = [p] /\ p <> 0%nat ->
      table_lookup (key th) (rows (entries s') (l ++ rest')) = table_lookup (key th) (rows (entries s) (l ++ rest)) \/
      exists M, hist s' !! length (hist s) = Some M /\
        table_lookup (key th) M = table_lookup (key th) (rows (entries s') (l ++ rest'))) ->
  thread_ok s L t th -> thread_ok s' L' t th.
Proof.
  intros Hrd [h Hh] Hpath Hok Hin. destruct (Hok Hin) as (Hr & i & M & Hi & HM & Hlk).
  pose proof (lookup_lt_Some _ _ _ HM) as Hlt. split; [by apply Hrd|].
  assert (HM' : hist s' !! i = Some M) by (rewrite Hh; by apply lookup_app_l_Some).
  unfold lookup_ok in *. destruct (pc th); try done.
  - destruct Hlk as (rest & Hp & Hk). destruct (Hpath _ _ Hr Hp) as (rest' & Hp' & _ & Hl).
    destruct (Hl [] ltac:(by left)) as [E|(M' & HM2 & E)].
    + exists i, M. split_and!; [done..|]. exists rest'. split; [done|]. by rewrite Hk.
    + exists (length (hist s)), M'. split_and!; [lia|done|]. by exists rest'.
  - destruct Hlk as (rest & H0 & Hp & Hk). destruct (Hpath _ _ Hr Hp) as (rest' & Hp' & _ & Hl).
    destruct (Hl [rep] ltac:(by right)) as [E|(M' & HM2 & E)].
    + exists i, M. split_and!; [done..|]. exists rest'. split_and!; [done..|]. by rewrite Hk.
    + exists (length (hist s)), M'. split_and!; [lia|done|]. by exists rest'.
  - destruct Hlk as (rest & e & H0 & Hp & He & Hk). destruct (Hpath _ _ Hr Hp) as (rest' & Hp' & He' & _).
    exists i, M. split_and!; [done..|]. exists rest', e. split_and!; [done|done|by rewrite He'|done].
  - destruct Hlk as (rest & H0 & Hp & Hk). destruct (Hpath _ _ Hr Hp) as (rest' & Hp' & _).
    exists i, M. split_and!; [done..|]. by exists rest'.
  - by exists i, M.
Qed.

(** The table and what the lookup may meet stay. *)
Lemma thread_ok_frame s s' L t th :
  (reading (rcu s) t -> reading (rcu s') t) ->
  (forall a, reading (rcu s) t -> safe s t a -> safe s' t a) ->
  (forall a, a = 0%nat \/ a ∈ L \/ safe s t a -> next <$> links s' !! a = next <$> links s !! a) ->
  (forall a, a ∈ L \/ safe s t a -> entries s' !! a = entries s !! a) ->
  (exists h, hist s' = hist s ++ h) ->
  thread_ok s L t th -> thread_ok s' L t th.
Proof.
  intros Hrd Hsafe Hl He Hh. apply thread_ok_change; [done..|]. intros p rest Hr Hp. exists rest.
  pose proof (fun x => on_path_elem _ _ _ _ _ x Hp) as Hel. split_and!.
  - eapply on_path_mono; [intros a _; by apply Hsafe|]. eapply on_path_frame; [|done].
    intros a [->|Ha]%elem_of_cons; apply Hl; [|right; apply Hel; by left].
    destruct (decide (p = 0%nat)) as [->|Hne]; [by left|right; apply Hel; by right].
  - intros H0. apply He, Hel. by right.
  - intros l Hx. left. f_equal. apply rows_frame. intros a [Ha|Ha]%elem_of_app; apply He, Hel; [right|by left].
    destruct Hx as [->|[-> H0]]; [by apply elem_of_nil in Ha|]. by apply list_elem_of_singleton in Ha.
Qed.

(** ** Steps of a lookup *)

Lemma threads_insert_same (ths : list Thread) t th th' :
  ths !! t = Some th -> unlinked_by th' = unlinked_by th ->
  omap unlinked_by (<[t := th']> ths) = omap unlinked_by ths.
Proof.
  revert t. induction ths as [|x ths IH]; intros [|t] Ht E; simplify_eq/=; [by rewrite E|]. by rewrite IH.
Qed.

(** A thread moves without touching the table. *)
Lemma move_inv s L t th th' g ans :
  Inv s L -> threads s !! t = Some th -> unlinked_by th' = unlinked_by th ->
  (forall u, u <> t -> reading g u <-> reading (rcu s) u) -> (reading g t <-> in_lookup (pc th')) ->
  (forall a u, u <> t -> waits_for (rcu s) a u -> waits_for g a u) ->
  thread_ok (mkState (links s) (entries s) g (pending s) (<[t := th']> (threads s)) (hist s) ans (dels s)) L t th' ->
  Forall (answer_ok s) ans ->
  Inv (mkState (links s) (entries s) g (pending s) (<[t := th']> (threads s)) (hist s) ans (dels s)) L.
Proof.
  intros [I1 I2 I3 I4 I5 I6 I7 I8 I9 I10] Ht Hu Hrd Hrt Hw Hok Hans.
  set (s' := mkState _ _ _ _ _ _ _ _) in *.
  assert (Hd : dead s' = dead s) by (unfold dead; simpl; by rewrite (threads_insert_same _ _ _ _ Ht Hu)).
  pose proof (lookup_lt_Some _ _ _ Ht) as Hlt.
  constructor; rewrite ?Hd; try done.
  - intros u thu Hthu. simpl in Hthu. destruct (decide (u = t)) as [->|Hne].
    + rewrite list_lookup_insert_eq in Hthu by done. by injection Hthu as <-.
    + rewrite list_lookup_insert_ne in Hthu by done. eapply thread_ok_frame; [| | | | |by apply I7]; try done.
      * apply Hrd, Hne.
      * intros a _ [Ha|[Ha Hwa]]; [left|right].
        -- simpl. by rewrite (threads_insert_same _ _ _ _ Ht Hu).
        -- split; [done|]. by apply Hw.
      * exists []. by rewrite app_nil_r.
  - intros u Hu'. simpl. destruct (decide (u = t)) as [->|Hne].
    + exists th'. split; [by apply list_lookup_insert_eq|]. by apply Hrt.
    + rewrite list_lookup_insert_ne by done. by apply I8, Hrd.
Qed.

(** A lookup goes on. *)
Lemma goto_inv s L t th th' :
  Inv s L -> threads s !! t = Some th -> in_lookup (pc th) -> in_lookup (pc th') -> thread_ok s L t th' ->
  Inv (set_thread t th' s) L.
Proof.
  intros HI Ht Hin Hin' Hok. destruct (i_threads _ _ HI t th Ht Hin) as [Hrd _].
  assert (Hu : unlinked_by th' = unlinked_by th) by (unfold unlinked_by; by destruct (pc th), (pc th')).
  apply (move_inv s L t th); try done.
  - apply (thread_ok_frame s); [done| |done|done| |exact Hok].
    + intros a _ [Ha|Ha]; [left; simpl; by rewrite (threads_insert_same _ _ _ _ Ht Hu)|by right].
    + exists []. by rewrite app_nil_r.
  - by apply i_answers with L.
Qed.

Lemma allocated s L a : Inv s L -> a = 0%nat \/ a ∈ L ++ dead s -> is_Some (links s !! a).
Proof.
  intros HI Ha. apply elem_of_dom. rewrite (i_links _ _ HI). destruct Ha as [->|Ha]; [set_solver|].
  apply elem_of_union_r, elem_of_dom. by apply (i_entries _ _ HI).
Qed.

Lemma nonzero s L a : Inv s L -> a ∈ L ++ dead s -> a <> 0%nat.
Proof. intros HI Ha ->. by apply (NoDup_cons_1_1 _ _ (i_nodup _ _ HI)). Qed.

Lemma on_path_dead s L t p rest a :
  on_path L (safe s t) (links s) p rest -> a ∈ rest \/ a = p /\ p <> 0%nat -> a ∈ L ++ dead s.
Proof. intros Hp Ha. apply elem_of_app. destruct (on_path_elem _ _ _ _ _ a Hp Ha) as [?|?%safe_dead]; tauto. Qed.

(** An access of a lookup. *)
Lemma lookup_step_inv s L t th :
  Inv s L -> threads s !! t = Some th -> in_lookup (pc th) -> exists s', thread_step t th s = Some s' /\ Inv s' L.
Proof.
  intros HI Ht Hin. pose proof (i_threads _ _ HI t th Ht Hin) as (Hrd & i & M & Hi & HM & Hlk).
  assert (Hgoto : forall p, in_lookup p -> lookup_ok s L t (mkThread p (key th) (since th)) M ->
    Inv (set_thread t (mkThread p (key th) (since th)) s) L).
  { intros p Hp Hok. apply (goto_inv s L t th); try done. intros _. split; [done|]. by exists i, M. }
  unfold lookup_ok in Hlk. unfold thread_step. destruct (pc th) as [|pos|rep|rep|rep ret|ret|rep] eqn:Epc; try done.
  - destruct Hlk as (rest & Hp & Hk).
    assert (Hpos : pos = 0%nat \/ pos ∈ L ++ dead s).
    { destruct (decide (pos = 0%nat)) as [?|?]; [by left|right]. eapply on_path_dead; [done|by right]. }
    destruct (allocated s L pos HI Hpos) as [h Hh]. rewrite Hh.
    destruct (on_path_next _ _ _ _ _ _ (i_ring _ _ HI) Hp Hh) as [Hn Hnext].
    eexists. split; [done|]. destruct rest as [|q r]; simpl in Hn.
    + rewrite decide_True by done. by apply Hgoto.
    + assert (Hq : q <> 0%nat) by (apply (nonzero s L); [done|]; eapply on_path_dead; [done|left; by left]).
      rewrite decide_False by congruence. rewrite Hn. apply Hgoto; [done|]. exists r. split_and!; [done|by apply Hnext|done].
  - destruct Hlk as (rest & H0 & Hp & Hk).
    assert (Hrep : rep ∈ L ++ dead s) by (eapply on_path_dead; [done|by right]).
    apply (i_entries _ _ HI) in Hrep as [e He]. rewrite He. eexists. split; [done|].
    rewrite (rows_cons _ _ _ e He) in Hk. simpl in Hk. destruct (addr e =? key th).
    + apply Hgoto; [done|]. by exists rest, e.
    + apply Hgoto; [done|]. by exists rest.
  - destruct Hlk as (rest & e & H0 & Hp & He & Hk). rewrite He. eexists. split; [done|]. apply Hgoto; [done|]. by exists rest.
  - destruct Hlk as (rest & H0 & Hp & Hk).
    assert (Hrep : rep ∈ L ++ dead s) by (eapply on_path_dead; [done|by right]).
    apply (i_entries _ _ HI) in Hrep as [e He]. rewrite He, (i_alive _ _ HI rep e He). eexists. split; [done|]. by apply Hgoto.
  - eexists. split; [done|]. apply (move_inv s L t th); try done.
    + unfold unlinked_by. by rewrite Epc.
    + intros u Hne. rewrite unlock_reading. tauto.
    + rewrite unlock_reading. simpl. tauto.
    + intros a u Hne. by apply unlock_waits.
    + apply Forall_app. split; [by apply i_answers with L|]. constructor; [|constructor]. exists i, M. simpl.
      pose proof (lookup_lt_Some _ _ _ HM). unfold now. split_and!; [done|lia|done|done].
Qed.

Lemma route_lookup_inv s L t k th :
  Inv s L -> threads s !! t = Some th -> pc th = PIdle -> Inv (route_lookup t k s) L.
Proof.
  intros HI Ht Hpc. destruct (hist_now s L HI) as [Hnow _]. apply (move_inv s L t th); try done.
  - unfold unlinked_by. by rewrite Hpc.
  - intros u Hne. rewrite lock_reading. tauto.
  - rewrite lock_reading. simpl. tauto.
  - intros a u _. apply lock_waits.
  - intros _. split; [apply lock_reading; by left|]. exists (now s), (rows (entries s) L). split_and!; [done..|].
    exists L. split; [by left|done].
  - by apply i_answers with L.
Qed.

(** ** Steps of deletions *)

Lemma unlinked_insert (ths : list Thread) t th th' :
  ths !! t = Some th -> exists R, omap unlinked_by ths ≡ₚ option_list (unlinked_by th) ++ R /\
    omap unlinked_by (<[t := th']> ths) ≡ₚ option_list (unlinked_by th') ++ R.
Proof.
  intros Ht. destruct (omap_insert_perm unlinked_by ths t th Ht) as (R & H1 & H2). exists R.
  specialize (H2 th'). cbn in H1, H2. by destruct (unlinked_by th), (unlinked_by th').
Qed.

(** The invariant only depends on the set of dead entries. *)
Lemma dead_perm s s' L :
  dead s' ≡ₚ dead s -> NoDup (0%nat :: L ++ dead s) -> (forall a, is_Some (entries s !! a) <-> a ∈ L ++ dead s) ->
  NoDup (0%nat :: L ++ dead s') /\ (forall a, is_Some (entries s !! a) <-> a ∈ L ++ dead s').
Proof. intros Hd Hn Hf. split; [by rewrite Hd|]. intros a. by rewrite Hd. Qed.

(** The callback is registered. *)
Lemma call_step_inv s L t th rep :
  Inv s L -> threads s !! t = Some th -> pc th = PCall rep -> exists s', thread_step t th s = Some s' /\ Inv s' L.
Proof.
  intros HI Ht Hpc. unfold thread_step. rewrite Hpc. eexists. split; [done|]. destruct HI as [I1 I2 I3 I4 I5 I6 I7 I8 I9 I10].
  set (th' := mkThread PIdle 0 0). set (s' := mkState _ _ _ _ _ _ _ _).
  destruct (unlinked_insert (threads s) t th th' Ht) as (R & HR & HR').
  unfold unlinked_by in HR at 2. rewrite Hpc in HR. simpl in HR, HR'.
  assert (Hd : dead s' ≡ₚ dead s).
  { unfold dead. simpl. rewrite HR', HR. simpl. rewrite (Permutation_app_comm (pending s)). simpl.
    symmetry. apply Permutation_middle. }
  destruct (dead_perm s s' L Hd I2 I3) as [I2' I3'].
  pose proof (lookup_lt_Some _ _ _ Ht) as Hlt.
  constructor; try done.
  - intros u thu Hthu. simpl in Hthu. destruct (decide (u = t)) as [->|Hne].
    + rewrite list_lookup_insert_eq in Hthu by done. injection Hthu as <-. by intros [].
    + rewrite list_lookup_insert_ne in Hthu by done. apply (thread_ok_frame s); [| |done|done| |by apply I7].
      * by intros ?%(call_reading rep).
      * intros a Hu [Ha|[Ha Hwa]].
        -- rewrite HR in Ha. apply elem_of_cons in Ha as [->|Ha].
           ++ right. split; [simpl; set_solver|]. by apply call_waits.
           ++ left. simpl. by rewrite HR'.
        -- right. split; [simpl; set_solver|]. simpl.
           destruct (decide (rep = a)) as [->|?]; [by apply call_waits|by apply call_waits_other].
      * exists []. by rewrite app_nil_r.
  - intros u Hu. simpl in Hu. apply call_reading in Hu. destruct (I8 u Hu) as (thu & Hthu & Hin). simpl.
    exists thu. split; [|done]. rewrite list_lookup_insert_ne; [done|]. intros <-. rewrite Ht in Hthu. injection Hthu as <-.
    by rewrite Hpc in Hin.
Qed.

(** A callback that RCU invokes frees what no lookup can meet. *)
Lemma callback_inv s L rep :
  Inv s L -> rep ∈ pending s -> grace_period_over rep (rcu s) = true -> exists s', route_cb rep s = Some s' /\ Inv s' L.
Proof.
  intros [I1 I2 I3 I4 I5 I6 I7 I8 I9 I10] Hrep Hover.
  assert (Hex : is_Some (entries s !! rep)) by (apply I3; unfold dead; set_solver).
  destruct Hex as [e He]. unfold route_cb, re_free. simpl. rewrite He. eexists. split; [done|].
  set (s' := mkState _ _ _ _ _ _ _ _).
  pose proof I2 as Hnd. unfold dead in Hnd. rewrite app_assoc, NoDup_cons, NoDup_app in Hnd.
  destruct Hnd as (H0 & HndLR & Hdis & Hndp).
  assert (Hout : rep ∉ 0%nat :: L ++ omap unlinked_by (threads s)).
  { intros [->|Hin]%elem_of_cons; [apply H0; set_solver|]. by apply (Hdis rep). }
  assert (Hp : pending s ≡ₚ rep :: pending s').
  { simpl. apply NoDup_Permutation; [done| |].
    - apply NoDup_cons. split; [by intros [? _]%list_elem_of_filter|by apply NoDup_filter].
    - intros a. rewrite elem_of_cons, list_elem_of_filter. destruct (decide (a = rep)) as [->|?]; tauto. }
  assert (Hd : dead s ≡ₚ rep :: dead s').
  { unfold dead. rewrite Hp. simpl. symmetry. apply Permutation_middle. }
  assert (Hkeep : forall a, a <> rep -> links s' !! a = links s !! a /\ entries s' !! a = entries s !! a).
  { intros a Ha. simpl. by rewrite !lookup_delete_ne. }
  assert (HL : forall a, a ∈ 0%nat :: L -> a <> rep) by (intros a Ha ->; apply Hout; set_solver).
  constructor; try done.
  - destruct I1 as [Hs Hb]. split; [eapply list_seg_frame; [|done]|eapply bseg_frame; [|done]]; intros a Ha.
    + by rewrite (proj1 (Hkeep a (HL a Ha))).
    + assert (Ha' : a ∈ 0%nat :: L) by set_solver. by rewrite (proj1 (Hkeep a (HL a Ha'))).
  - rewrite Hd in I2. rewrite <-Permutation_middle in I2. apply NoDup_cons in I2 as [H1 [_ H2]%NoDup_cons].
    constructor; set_solver.
  - intros a. specialize (I3 a). rewrite Hd in I3. simpl. destruct (decide (a = rep)) as [->|Hne].
    + rewrite lookup_delete_eq. split; [by intros []|]. intros Hin. exfalso.
      rewrite Hd, <-Permutation_middle in I2. apply NoDup_cons in I2 as [_ [H1 _]%NoDup_cons]. done.
    + rewrite lookup_delete_ne by done. rewrite I3. set_solver.
  - simpl. rewrite !dom_delete_L, I4. assert (rep <> 0%nat) by (intros ->; apply Hout; by left). set_solver.
  - intros a e' Ha. simpl in Ha. apply lookup_delete_Some in Ha as [_ Ha]. by apply (I5 a).
  - transitivity (Some (rows (entries s) L)); [done|]. f_equal. symmetry. apply rows_frame. intros a Ha.
    apply Hkeep, HL. by right.
  - intros t th Ht. assert (Hsafe : forall a, safe s t a -> a <> rep).
    { intros a [Ha|[_ Ha]]; intros ->; [apply Hout; set_solver|by eapply over_waits]. }
    apply (thread_ok_frame s); [done| | | | |by apply I7].
    + intros a _ Ha. pose proof (Hsafe a Ha). destruct Ha as [Ha|[Ha Hw]]; [by left|right].
      split; [|done]. simpl. apply list_elem_of_filter. done.
    + intros a Ha. enough (a <> rep) as Hne by (by rewrite (proj1 (Hkeep a Hne))). destruct Ha as [->|[Ha|Ha]]; [by apply HL; left|by apply HL; right|by apply Hsafe].
    + intros a Ha. apply Hkeep. destruct Ha as [Ha|Ha]; [by apply HL; right|by apply Hsafe].
    + exists []. by rewrite app_nil_r.
Qed.

(** ** Writers *)

Lemma route_add_inv s L rep ad i :
  Inv s L -> rep <> 0%nat -> entries s !! rep = None ->
  exists s', route_add (Some rep) ad i s = Some (0, s') /\ Inv s' (rep :: L).
Proof.
  intros HI H0 He. pose proof (hist_now s L HI) as [_ Htab]. destruct HI as [I1 I2 I3 I4 I5 I6 I7 I8 I9 I10].
  assert (Hl : links s !! rep = None) by (apply not_elem_of_dom; rewrite I4, elem_of_union, elem_of_singleton, elem_of_dom, He; by intros [?|[? ?]]).
  assert (Hnew : rep ∉ L ++ dead s) by (rewrite <-I3, He; by intros [? ?]).
  pose proof I2 as Hnd. apply NoDup_cons in Hnd as [Hz Hnd].
  assert (HndL : NoDup (0%nat :: L)) by (apply NoDup_cons; split; [set_solver|by apply NoDup_app in Hnd as (? & _)]).
  set (m0 := <[rep := mkHead 0 0]> (links s)).
  assert (Hfr : forall a, a <> rep -> m0 !! a = links s !! a) by (intros a Ha; unfold m0; by rewrite lookup_insert_ne).
  assert (HinL : forall a, a ∈ 0%nat :: L -> a <> rep) by (intros a Ha ->; set_solver).
  assert (Hring : ring m0 0 L).
  { destruct I1 as [Hs Hb]. split; [eapply list_seg_frame; [|done]|eapply bseg_frame; [|done]]; intros a Ha; rewrite Hfr; try done; apply HinL; set_solver. }
  assert (Hrep : is_Some (m0 !! rep)) by (unfold m0; rewrite lookup_insert_eq; by eexists).
  assert (Hout : rep ∉ 0%nat :: L) by set_solver.
  destruct (add_rcu_links m0 0 L rep Hring Hout Hrep) as (m' & Hm' & Hnext & _).
  destruct (add_rcu_ring m0 0 L rep m' Hring HndL Hout Hrep Hm') as [Hring' Hdom].
  unfold route_add. fold m0. rewrite Hm'. eexists. split; [done|]. set (s' := mkState _ _ _ _ _ _ _ _).
  assert (Hrows : forall l, rep ∉ l -> rows (entries s') l = rows (entries s) l).
  { intros l Hin. apply rows_frame. intros a Ha. simpl. rewrite lookup_insert_ne; [done|]. by intros ->. }
  assert (Htab' : rows (entries s') (rep :: L) = (ad, i) :: table s).
  { rewrite (rows_cons _ _ _ (mkEntry ad i false)) by (simpl; by rewrite lookup_insert_eq). rewrite Hrows by set_solver. by rewrite Htab. }
  constructor; try done.
  - simpl. rewrite NoDup_cons, NoDup_cons. change (dead s') with (dead s). set_solver.
  - intros a. change (dead s') with (dead s). simpl. destruct (decide (a = rep)) as [->|Hne].
    + rewrite lookup_insert_eq. split; [intros _; by left|by eexists].
    + rewrite lookup_insert_ne by done. rewrite I3. set_solver.
  - simpl. rewrite Hdom. unfold m0. rewrite !dom_insert_L, I4. set_solver.
  - intros a e Ha. simpl in Ha. apply lookup_insert_Some in Ha as [[_ <-]|[_ Ha]]; [done|by apply (I5 a)].
  - rewrite Htab'. simpl. by rewrite last_snoc.
  - intros t th Ht. apply (thread_ok_change s _ L); [done|by eexists| |by apply I7].
    intros p rest _ Hp. assert (Hpe : forall x, x ∈ rest \/ x = p /\ p <> 0%nat -> x <> rep).
    { intros x Hx ->. apply Hnew. by eapply (on_path_dead s L t). }
    destruct (on_path_add L (safe s t) (links s) m' rep p rest) as [Hp'|[-> Hp']]; try done.
    + intros y Hy0 Hy. rewrite Hnext, decide_False by done. rewrite decide_False; [rewrite Hfr; [done|]|];
        apply Hpe; apply elem_of_cons in Hy as [->|Hy]; tauto.
    + set_solver.
    + intros x Hx%safe_dead ->. set_solver.
    + exists rest. split_and!; [done| |].
      * intros Hp0. simpl. rewrite lookup_insert_ne; [done|]. intros E. symmetry in E. revert E. apply Hpe. by right.
      * intros l Hcur. left. f_equal. apply Hrows. intros [Hin|Hin]%elem_of_app; [|by apply (Hpe rep); [left|]].
        destruct Hcur as [->|[-> Hp0]]; [by apply elem_of_nil in Hin|]. apply list_elem_of_singleton in Hin as ->.
        by apply (Hpe p); [right|].
    + exists (rep :: L). split_and!; [done|done|]. intros l [->|[_ ?]]; [|done]. right. exists ((ad, i) :: table s).
      split; [simpl; by rewrite list_lookup_middle|]. f_equal. symmetry. exact Htab'.
  - eapply Forall_impl; [done|]. intros x. apply answer_hist. by eexists.
  - eapply Forall_impl; [done|]. intros x. apply del_hist. by eexists.
Qed.

(** [cds_list_for_each_entry] finds the first entry with the key. *)
Lemma del_find_ok s k l : forall fuel,
  seg (links s) l 0 -> (forall a, a ∈ l -> a <> 0%nat /\ is_Some (entries s !! a)) -> (length l < fuel)%nat ->
  exists r, del_find fuel k (hd 0%nat l) s = Some r /\
  match r with
  | Some x => exists l1 l2 e, l = l1 ++ x :: l2 /\ entries s !! x = Some e /\ addr e = k /\ no_key k (rows (entries s) l1)
  | None => no_key k (rows (entries s) l)
  end.
Proof.
  induction l as [|x l IH]; intros [|fuel] Hs Hl Hf; simpl in Hf; try lia.
  - exists None. split; [done|]. intros r Hr. by apply elem_of_nil in Hr.
  - destruct (Hl x ltac:(by left)) as [Hx [e He]]. cbn [del_find hd]. rewrite decide_False by done. rewrite He.
    destruct (Z.eqb_spec (addr e) k) as [Ek|Ek].
    + exists (Some x). split; [done|]. exists [], l, e. split_and!; try done. intros r Hr. by apply elem_of_nil in Hr.
    + destruct Hs as [Hn Hs]. destruct (links s !! x) as [h|]; [|done]. injection Hn as Hn. rewrite Hn.
      destruct (IH fuel Hs) as (r & Hr & Hres); [by intros a Ha; apply Hl; right|lia|].
      exists r. split; [done|].
      assert (Hcons : forall l', no_key k (rows (entries s) l') -> no_key k (rows (entries s) (x :: l'))).
      { intros l' Hn' q. rewrite (rows_cons _ _ _ e He). intros [->|Hq]%elem_of_cons; [done|by apply Hn']. }
      destruct r as [y|]; [|by apply Hcons]. destruct Hres as (l1 & l2 & e' & -> & He' & Hk & Hno).
      exists (x :: l1), l2, e'. split_and!; [done..|by apply Hcons].
Qed.

Lemma links_size (m : gmap nat list_head) l : NoDup l -> (forall a, a ∈ l -> a ∈ dom m) -> (length l <= size m)%nat.
Proof.
  intros Hnd Hin. rewrite <-size_dom, <-(size_list_to_set (C := gset nat) l) by done. apply subseteq_size.
  intros a Ha%elem_of_list_to_set. by apply Hin.
Qed.

(** A lookup when [x] has been taken out of the table [pre ++ x :: post]. *)
Lemma thread_ok_del s s' pre x post e t th :
  Inv s (pre ++ x :: post) -> entries s !! x = Some e -> no_key (addr e) (rows (entries s) pre) ->
  (forall y, next <$> links s' !! y = if decide (y = default 0%nat (last pre)) then Some (hd 0%nat post) else next <$> links s !! y) ->
  entries s' = entries s -> rcu s' = rcu s -> pending s' = pending s ->
  (forall a, a = x \/ a ∈ omap unlinked_by (threads s) -> a ∈ omap unlinked_by (threads s')) ->
  hist s' = hist s ++ [rows (entries s) (pre ++ post)] ->
  thread_ok s (pre ++ x :: post) t th -> thread_ok s' (pre ++ post) t th.
Proof.
  intros HI He Hno Hnext Hen Hrcu Hpend Hdead Hh.
  apply thread_ok_change; [by rewrite Hrcu|by eexists|]. intros p rest _ Hp.
  pose proof (i_nodup _ _ HI) as Hnd. pose proof Hnd as Hnd'. rewrite app_comm_cons, NoDup_app in Hnd'.
  destruct Hnd' as (HndL & Hdis & _).
  assert (Hsafe : forall a, a = x \/ safe s t a -> safe s' t a).
  { intros a [->|[Ha|[Ha Hw]]]; [left; apply Hdead; by left|left; apply Hdead; by right|right].
    by rewrite Hrcu, Hpend. }
  assert (Hmono : forall q, on_path (pre ++ post) (fun a => a = x \/ safe s t a) (links s') p q ->
    on_path (pre ++ post) (safe s' t) (links s') p q).
  { intros q. apply on_path_mono. intros a _. apply Hsafe. }
  rewrite Hen.
  destruct (on_path_del pre x post (safe s t) (links s) (links s') p rest) as [Hp'|(r1 & -> & Hp')]; try done.
  - intros a Ha%safe_dead Hin. by apply (Hdis a).
  - exists rest. split_and!; [by apply Hmono|done|]. by left.
  - exists (r1 ++ post). split_and!; [by apply Hmono|done|]. intros l _.
    rewrite !app_assoc, !(rows_app _ (l ++ r1)), (rows_cons _ _ _ e He).
    destruct (decide (addr e = key th)) as [Ek|Ek]; [|left; symmetry; by apply lookup_skip].
    destruct (no_key_dec (key th) (rows (entries s) (l ++ r1))) as [Hn|Hn]; [right|left; by apply lookup_app_hit].
    exists (rows (entries s) (pre ++ post)). split; [rewrite Hh; by rewrite list_lookup_middle|].
    rewrite rows_app, !lookup_app_no; [done|done|]. by rewrite <-Ek.
Qed.

Lemma route_del_inv s L t k th :
  Inv s L -> threads s !! t = Some th -> pc th = PIdle -> exists s' L', route_del t k s = Some s' /\ Inv s' L'.
Proof.
  intros HI Ht Hpc. pose proof (hist_now s L HI) as [Hnow Htab].
  destruct (allocated s L 0 HI ltac:(by left)) as [h Hh]. unfold route_del. rewrite Hh.
  pose proof (i_ring _ _ HI) as Hr. pose proof Hr as [[Hn Hs] _]. rewrite Hh in Hn. injection Hn as Hn. rewrite Hn.
  destruct (del_find_ok s k L (S (size (links s))) Hs) as (r & Hf & Hres).
  { intros a Ha. split; [apply (nonzero s L); [done|set_solver]|]. apply (i_entries _ _ HI). set_solver. }
  { pose proof (i_nodup _ _ HI) as Hnd. rewrite app_comm_cons, NoDup_app in Hnd. destruct Hnd as (Hnd & _ & _).
    pose proof (links_size (links s) (0%nat :: L) Hnd) as Hsz. simpl in Hsz.
    enough (S (length L) <= size (links s))%nat by lia. apply Hsz. intros a Ha. apply elem_of_dom.
    apply (allocated s L); [done|]. set_solver. }
  rewrite Hf. destruct r as [x|].
  2: { eexists _, L. split; [done|]. destruct HI as [I1 I2 I3 I4 I5 I6 I7 I8 I9 I10]. constructor; try done.
    apply Forall_app. split; [done|]. constructor; [|constructor]. exists (rows (entries s) L). split; [done|by right]. }
  destruct Hres as (pre & post & e & -> & He & Hk & Hno). subst k.
  pose proof HI as [I1 I2 I3 I4 I5 I6 I7 I8 I9 I10].
  assert (HndL : NoDup (0%nat :: pre ++ x :: post)) by (rewrite app_comm_cons, NoDup_app in I2; by destruct I2).
  destruct (del_rcu_links _ _ _ _ _ I1 HndL) as (m' & Hm & Hnext & _).
  destruct (del_rcu_ring _ _ _ _ _ m' I1 HndL Hm) as [Hring Hdom].
  rewrite Hm. eexists _, (pre ++ post). split; [done|]. set (s' := mkState _ _ _ _ _ _ _ _).
  destruct (unlinked_insert (threads s) t th (mkThread (PCall x) (addr e) 0) Ht) as (R & HR & HR').
  unfold unlinked_by in HR at 2. rewrite Hpc in HR. cbn in HR, HR'.
  assert (Hd : (pre ++ post) ++ dead s' ≡ₚ (pre ++ x :: post) ++ dead s).
  { unfold dead. simpl. rewrite HR', HR. simpl. rewrite <-!app_assoc. f_equiv. simpl. symmetry. rewrite !Permutation_middle. done. }
  pose proof (lookup_lt_Some _ _ _ Ht) as Hlt.
  assert (Hdel : hist s' = hist s ++ [rows (entries s) (pre ++ post)]).
  { simpl. rewrite Htab, !rows_app, (rows_cons _ _ _ e He), table_del_app by done. done. }
  constructor; try done.
  - simpl. by rewrite Hd.
  - intros a. rewrite Hd. apply I3.
  - simpl. by rewrite Hdom.
  - rewrite Hdel. by rewrite last_snoc.
  - intros u thu Hthu. simpl in Hthu. destruct (decide (u = t)) as [->|Hne].
    + rewrite list_lookup_insert_eq in Hthu by done. injection Hthu as <-. by intros [].
    + rewrite list_lookup_insert_ne in Hthu by done. apply (thread_ok_del s s' pre x post e); try done; [|by apply I7].
      intros a Ha. simpl. rewrite HR', <-HR. set_solver.
  - intros u Hu. destruct (I8 u Hu) as (thu & Hthu & Hin). simpl. exists thu. split; [|done].
    rewrite list_lookup_insert_ne; [done|]. intros <-. rewrite Ht in Hthu. injection Hthu as <-. by rewrite Hpc in Hin.
  - eapply Forall_impl; [done|]. intros y. apply answer_hist. by eexists.
  - apply Forall_app. split; [eapply Forall_impl; [done|]; intros y; apply del_hist; by eexists|].
    constructor; [|constructor]. exists (table s). rewrite Htab. split.
    + simpl. by apply lookup_app_l_Some.
    + left. split_and!; [done| |].
      * exists (addr e, iface e). split; [|done]. rewrite rows_app, (rows_cons _ _ _ e He). set_solver.
      * simpl. rewrite <-Htab. pose proof (lookup_lt_Some _ _ _ Hnow) as Hl. unfold now in *.
        replace (S (pred (length (hist s)))) with (length (hist s)) by lia. by rewrite list_lookup_middle.
Qed.

Lemma route_step_inv s L c : Inv s L -> exists s' L', step c s = Some s' /\ Inv s' L'.
Proof.
  intros HI. unfold step. destruct (enabled c s) eqn:He; [|by eexists s, L].
  destruct c as [t k|t|[rep|] ad i|t k|rep]; simpl in He.
  - destruct (threads s !! t) as [[[] k' i]|] eqn:Ht; try done. eexists _, L. split; [done|]. by eapply route_lookup_inv.
  - destruct (threads s !! t) as [th|] eqn:Ht; [|by eexists s, L]. destruct (pc th) eqn:Hpc.
    1: { unfold thread_step. rewrite Hpc. by eexists s, L. }
    6: { destruct (call_step_inv s L t th rep HI Ht Hpc) as (s' & ? & ?). by eexists s', L. }
    all: destruct (lookup_step_inv s L t th HI Ht) as (s' & ? & ?); [by rewrite Hpc|by eexists s', L].
  - wz_bool. match goal with H : bool_decide (rep = _) = false |- _ => apply bool_decide_eq_false in H end.
    match goal with H : bool_decide _ = true |- _ => apply bool_decide_eq_true in H end.
    destruct (route_add_inv s L rep ad i HI) as (s' & Ha & HI'); [done..|]. rewrite Ha. by eexists s', _.
  - by eexists s, L.
  - destruct (threads s !! t) as [[[] k' i]|] eqn:Ht; try done. by eapply route_del_inv.
  - wz_bool. match goal with H : bool_decide _ = true |- _ => apply bool_decide_eq_true in H end.
    destruct (callback_inv s L rep HI) as (s' & ? & ?); [done..|]. by eexists s', L.
Qed.

Lemma route_run_inv l : forall s L, Inv s L -> exists s' L', run l s = Some s' /\ Inv s' L'.
Proof.
  induction l as [|c l IH]; intros s L HI; [by eexists s, L|]. cbn [run].
  destruct (route_step_inv s L c HI) as (s1 & L1 & -> & HI1). by eapply IH.
Qed.

(** ** Memory *)

(** Without lookups every callback runs. *)
Lemma callbacks_run ps : forall s L,
  Inv s L -> pending s = ps -> (forall t, ~ reading (rcu s) t) ->
  exists s', run (ACallback <$> ps) s = Some s' /\ Inv s' L /\ pending s' = [] /\ hist s' = hist s /\ threads s' = threads s.
Proof.
  induction ps as [|a ps IH]; intros s L HI Hps Hidle; [by exists s|].
  assert (Ha : a ∈ pending s) by (rewrite Hps; by left).
  pose proof (over_idle a (rcu s) Hidle) as Hover.
  destruct (callback_inv s L a HI Ha Hover) as (s1 & Hs1 & HI1).
  cbn [fmap list_fmap run]. unfold step. cbn [enabled]. rewrite Hover, bool_decide_eq_true_2 by done. cbn [andb].
  rewrite Hs1. unfold route_cb, re_free in Hs1. simpl in Hs1. destruct (entries s !! a); [|done]. injection Hs1 as <-.
  destruct (IH _ L HI1) as (s' & Hrun & HI' & Hp & Hh & Hth); [|done|by exists s'].
  simpl. rewrite Hps, filter_cons_False by tauto.
  pose proof (i_nodup _ _ HI) as Hnd. unfold dead in Hnd. rewrite Hps, app_assoc, app_comm_cons in Hnd.
  apply NoDup_app in Hnd as (_ & _ & [Hn _]%NoDup_cons).
  clear -Hn. induction ps as [|x ps IH]; [done|]. rewrite filter_cons_True by (intros ->; set_solver).
  f_equal. apply IH. set_solver.
Qed.

(** Without dead entries what is allocated is the table. *)
Lemma table_size s L : Inv s L -> dead s = [] -> size (entries s) = length (table s).
Proof.
  intros HI Hd. destruct (hist_now s L HI) as [_ ->]. pose proof (i_nodup _ _ HI) as Hnd. pose proof (i_entries _ _ HI) as He.
  rewrite Hd, app_nil_r in Hnd. rewrite Hd in He. apply NoDup_cons in Hnd as [_ Hnd].
  transitivity (length L).
  - rewrite <-size_dom, <-(size_list_to_set (C := gset nat) L) by done. f_equal. apply set_eq. intros a.
    rewrite elem_of_dom, He, app_nil_r. by rewrite elem_of_list_to_set.
  - assert (Hin : forall a, a ∈ L -> is_Some (entries s !! a)) by (intros a Ha; apply He; by rewrite app_nil_r).
    clear -Hin. induction L as [|a L IH]; [done|]. destruct (Hin a ltac:(by left)) as [e Ha].
    rewrite (rows_cons _ _ _ e Ha). simpl. f_equal. apply IH. intros b Hb. apply Hin. by right.
Qed.

(** ** Clearing *)

Lemma ring_frame (m m' : gmap nat list_head) h l :
  (forall y, y ∈ h :: l -> next <$> m' !! y = next <$> m !! y /\ prev <$> m' !! y = prev <$> m !! y) ->
  ring m h l -> ring m' h l.
Proof.
  intros Hf [Hs Hb]. split; [eapply list_seg_frame; [|done]|eapply bseg_frame; [|done]]; intros y Hy; apply Hf; [done|set_solver].
Qed.

Lemma ring_next (m : gmap nat list_head) h l : ring m h l -> l <> [] ->
  exists v, m !! hd h l = Some v /\ next v = hd h (tail l).
Proof.
  intros [[_ Hs] _] Hne. destruct l as [|x l]; [done|]. destruct Hs as [Hn _]. simpl.
  destruct (m !! x) as [v|]; [|done]. injection Hn as Hn. by exists v.
Qed.

Lemma clear_loop_ok junk l : forall fuel J r1 (m : gmap nat list_head),
  ring m 0 l -> ring m junk J -> NoDup (0%nat :: l ++ junk :: J) -> (length l < fuel)%nat ->
  (l <> [] -> r1 = hd 0%nat (tail l)) ->
  exists m' J', clear_loop fuel junk (hd 0%nat l) r1 m = Some m' /\ ring m' 0 [] /\ ring m' junk J' /\
    J' ≡ₚ l ++ J /\ dom m' = dom m.
Proof.
  induction l as [|x l IH]; intros [|fuel] J r1 m H0 HJ Hnd Hf Hr1; simpl in Hf; try lia; cbn [clear_loop hd].
  - rewrite decide_True by done. by exists m, J.
  - assert (Hx : x <> 0%nat) by (intros ->; apply NoDup_cons in Hnd as [Hz _]; apply Hz; by left).
    rewrite decide_False by done. rewrite Hr1 by done. cbn [tail].
    assert (HndL : NoDup (0%nat :: x :: l)) by (rewrite app_comm_cons, NoDup_app in Hnd; by destruct Hnd).
    assert (Hdis : forall y, y ∈ 0%nat :: x :: l -> y ∉ junk :: J) by (rewrite app_comm_cons, NoDup_app in Hnd; by destruct Hnd as (_ & ? & _)).
    destruct (del_rcu_links m 0 [] x l H0 HndL) as (m1 & Hm1 & Hn1 & Hp1). simpl in Hn1, Hp1.
    destruct (del_rcu_ring m 0 [] x l m1 H0 HndL Hm1) as [H01 Hd1]. rewrite Hm1. simpl in H01.
    assert (HJ1 : ring m1 junk J).
    { revert HJ. apply ring_frame. intros y Hy. rewrite Hn1, Hp1. rewrite !decide_False; [done| |].
      - intros ->. apply (Hdis (hd 0%nat l)); [destruct l; set_solver|done].
      - intros ->. apply (Hdis 0%nat); [by left|done]. }
    assert (Hxj : x ∉ junk :: J) by (apply Hdis; right; by left).
    assert (Hx1 : is_Some (m1 !! x)).
    { rewrite <-elem_of_dom, Hd1, elem_of_dom. apply (ring_elem m 0 _ x H0). right. by left. }
    assert (HndJ : NoDup (junk :: J)) by (rewrite app_comm_cons, NoDup_app in Hnd; by destruct Hnd as (_ & _ & ?)).
    destruct (add_rcu_links m1 junk J x HJ1 Hxj Hx1) as (m2 & Hm2 & Hn2 & Hp2).
    destruct (add_rcu_ring m1 junk J x m2 HJ1 HndJ Hxj Hx1 Hm2) as [HJ2 Hd2]. rewrite Hm2.
    apply NoDup_cons in HndL as [Hz [Hxl HndL]%NoDup_cons].
    assert (H02 : ring m2 0 l).
    { revert H01. apply ring_frame. intros y Hy. rewrite Hn2, Hp2.
      assert (y <> x) by (intros ->; set_solver).
      assert (Hyj : y ∉ junk :: J) by (apply Hdis; set_solver).
      rewrite !decide_False; [done|done| |done|]; intros ->; apply Hyj; [destruct J; set_solver|by left]. }
    assert (Hnd' : NoDup (0%nat :: l ++ junk :: x :: J)).
    { assert (Hperm : l ++ junk :: x :: J ≡ₚ (x :: l) ++ junk :: J) by solve_Permutation. by rewrite Hperm. }
    assert (Hnext : exists v, m2 !! hd 0%nat l = Some v /\ (l <> [] -> next v = hd 0%nat (tail l))).
    { destruct l as [|y l']; [|destruct (ring_next m2 0 (y :: l') H02) as (v & ? & ?); [done|by exists v]].
      destruct (ring_elem m2 0 [] 0 H02 ltac:(by left)) as [v Hv]. by exists v. }
    destruct Hnext as (v & Hv & Hnv). rewrite Hv.
    destruct (IH fuel (x :: J) (next v) m2 H02 HJ2 Hnd' ltac:(lia) Hnv) as (m' & J' & Hm' & ? & ? & HJ' & Hd').
    exists m', J'. split_and!; [done..| |congruence]. rewrite HJ'. symmetry. apply Permutation_middle.
Qed.

Lemma free_loop_ok junk J : forall fuel r1 s,
  seg (links s) J junk -> is_Some (links s !! junk) -> NoDup (junk :: J) ->
  (forall a, a ∈ J -> is_Some (entries s !! a)) -> (length J < fuel)%nat -> (J <> [] -> r1 = hd junk (tail J)) ->
  exists s', free_loop fuel junk (hd junk J) r1 s = Some s' /\
    (forall a, links s' !! a = if decide (a ∈ J) then None else links s !! a) /\
    (forall a, entries s' !! a = if decide (a ∈ J) then None else entries s !! a) /\
    rcu s' = rcu s /\ pending s' = pending s /\ threads s' = threads s /\ hist s' = hist s /\ answers s' = answers s /\ dels s' = dels s.
Proof.
  induction J as [|x J IH]; intros [|fuel] r1 s Hs Hj Hnd He Hf Hr1; simpl in Hf; try lia; cbn [free_loop hd].
  - rewrite decide_True by done. exists s. split_and!; try done; intros a; by rewrite decide_False by apply not_elem_of_nil.
  - apply NoDup_cons in Hnd as [Hjn [Hx Hnd]%NoDup_cons].
    rewrite decide_False by (intros ->; apply Hjn; by left). rewrite Hr1 by done. cbn [tail].
    destruct (He x ltac:(by left)) as [e Hex]. unfold re_free. rewrite Hex. cbn [links].
    set (s1 := mkState _ _ _ _ _ _ _ _). destruct Hs as [_ Hs].
    assert (Hfr : forall a, a <> x -> links s1 !! a = links s !! a /\ entries s1 !! a = entries s !! a).
    { intros a Ha. simpl. by rewrite !lookup_delete_ne. }
    assert (Hs1 : seg (links s1) J junk).
    { eapply list_seg_frame; [|done]. intros a Ha. rewrite (proj1 (Hfr a ltac:(by intros ->))). done. }
    assert (Hj1 : is_Some (links s1 !! junk)) by (rewrite (proj1 (Hfr junk ltac:(intros ->; set_solver))); done).
    assert (Hnext : exists v, links s1 !! hd junk J = Some v /\ (J <> [] -> next v = hd junk (tail J))).
    { destruct J as [|y J]; [destruct Hj1 as [v ?]; by exists v|]. destruct Hs1 as [Hn _]. cbn [hd].
      destruct (links s1 !! y) as [v|]; [|done]. injection Hn as Hn. by exists v. }
    destruct Hnext as (v & Hv & Hnv). change (delete x (links s)) with (links s1). rewrite Hv.
    destruct (IH fuel (next v) s1 Hs1 Hj1) as (s' & Hs' & Hl' & He' & Hrest); [|..|exact Hnv|].
    + constructor; [set_solver|done].
    + intros a Ha. rewrite (proj2 (Hfr a ltac:(by intros ->))). apply He. by right.
    + lia.
    + exists s'. split; [done|]. split; [|split; [|done]]; intros a.
      * rewrite Hl'. destruct (decide (a = x)) as [->|Hne].
        -- rewrite (decide_True (P := x ∈ x :: J)) by (by left). rewrite decide_False by done. simpl. by rewrite lookup_delete_eq.
        -- rewrite (proj1 (Hfr a Hne)). destruct (decide (a ∈ J)); [by rewrite decide_True by (by right)|by rewrite decide_False by set_solver].
      * rewrite He'. destruct (decide (a = x)) as [->|Hne].
        -- rewrite (decide_True (P := x ∈ x :: J)) by (by left). rewrite decide_False by done. simpl. by rewrite lookup_delete_eq.
        -- rewrite (proj2 (Hfr a Hne)). destruct (decide (a ∈ J)); [by rewrite decide_True by (by right)|by rewrite decide_False by set_solver].
Qed.

(** The second value of a walk that keeps one entry ahead. *)
Lemma ring_ahead (m : gmap nat list_head) h l : ring m h l ->
  exists v v1, m !! h = Some v /\ m !! next v = Some v1 /\ next v = hd h l /\ (l <> [] -> next v1 = hd h (tail l)).
Proof.
  intros Hr. destruct (ring_elem m h l h Hr ltac:(by left)) as [v Hv].
  assert (Hn : next v = hd h l) by (destruct Hr as [[Hn _] _]; rewrite Hv in Hn; by injection Hn).
  exists v. destruct l as [|x l].
  - exists v. split_and!; [done|by rewrite Hn|done|done].
  - destruct (ring_next m h (x :: l) Hr) as (v1 & Hv1 & Hn1); [done|]. exists v1. by rewrite Hn.
Qed.

(** The entries are in the local list. *)
Lemma clear_moved s L junk :
  Inv s L -> links s !! junk = None ->
  let m := CDS_INIT_LIST_HEAD junk (links s) in
  exists h h1 m' J, m !! 0%nat = Some h /\ m !! next h = Some h1 /\
    clear_loop (S (size m)) junk (next h) (next h1) m = Some m' /\
    ring m' 0 [] /\ ring m' junk J /\ J ≡ₚ L /\ NoDup (junk :: J) /\ dom m' = dom m.
Proof.
  intros HI Hjunk m. pose proof (i_nodup _ _ HI) as Hnd. rewrite app_comm_cons, NoDup_app in Hnd. destruct Hnd as (HndL & _).
  assert (Hjn : junk ∉ 0%nat :: L).
  { intros Hin. destruct (allocated s L junk HI); [|congruence]. apply elem_of_cons in Hin. set_solver. }
  assert (Hm : forall a, a <> junk -> m !! a = links s !! a) by (intros a Ha; unfold m, CDS_INIT_LIST_HEAD; by rewrite lookup_insert_ne).
  assert (H0 : ring m 0 L).
  { generalize (i_ring _ _ HI). apply ring_frame. intros y Hy. rewrite Hm; [done|]. by intros ->. }
  assert (HJ : ring m junk []) by (unfold m, CDS_INIT_LIST_HEAD; split; simpl; by rewrite lookup_insert_eq).
  assert (Hnd0 : NoDup (0%nat :: L ++ [junk])).
  { rewrite app_comm_cons. apply NoDup_app. split_and!; [done| |apply NoDup_singleton].
    by intros a Ha ->%list_elem_of_singleton. }
  assert (Hsize : (length L <= size m)%nat).
  { apply links_size; [by apply NoDup_cons in HndL as [_ ?]|]. intros a Ha. apply elem_of_dom. eapply ring_elem; [exact H0|by right]. }
  destruct (ring_ahead m 0 L H0) as (h & h1 & Hh & Hh1 & Hn & Hn1).
  destruct (clear_loop_ok junk L (S (size m)) [] (next h1) m H0 HJ Hnd0 ltac:(lia) Hn1) as (m' & J & Hm' & H0' & HJ' & Hperm & Hdom).
  rewrite app_nil_r in Hperm. exists h, h1, m', J. rewrite Hn at 2. split_and!; try done.
  apply NoDup_cons. rewrite Hperm. split; [set_solver|]. by apply NoDup_cons in HndL as [_ ?].
Qed.

(** Without the table's entries and the local list the invariant holds of the empty table. *)
Lemma cleared_inv s s' L J :
  Inv s L -> J ≡ₚ L -> (forall t th, threads s !! t = Some th -> ~ in_lookup (pc th)) ->
  ring (links s') 0 [] -> (forall a, is_Some (links s' !! a) <-> (a ∉ J) /\ is_Some (links s !! a)) ->
  (forall a, entries s' !! a = if decide (a ∈ J) then None else entries s !! a) ->
  rcu s' = rcu s -> pending s' = pending s -> threads s' = threads s -> hist s' = hist s ++ [[]] ->
  answers s' = answers s -> dels s' = dels s -> Inv s' [].
Proof.
  intros [I1 I2 I3 I4 I5 I6 I7 I8 I9 I10] Hperm Hidle Hr Hl He Hrcu Hpend Hths Hhist Hans Hdels.
  assert (HinJ : forall a, a ∈ J <-> a ∈ L) by (intros a; by rewrite Hperm).
  assert (Hdead : dead s' = dead s) by (unfold dead; by rewrite Hpend, Hths).
  pose proof I2 as Hnd. rewrite app_comm_cons, NoDup_app in Hnd. destruct Hnd as ([H0 HndL]%NoDup_cons & Hdis & _).
  constructor; rewrite ?Hdead, ?Hrcu, ?Hths, ?Hhist, ?Hans, ?Hdels; try done.
  - rewrite NoDup_cons, NoDup_app in I2. apply NoDup_cons. split; [set_solver|by destruct I2 as (_ & _ & _ & ?)].
  - intros a. rewrite He. destruct (decide (a ∈ J)) as [Ha|Ha].
    + split; [by intros [? ?]|]. intros Hin. exfalso. apply (Hdis a); [right; by apply HinJ|done].
    + rewrite I3, elem_of_app, <-HinJ. simpl. tauto.
  - apply set_eq. intros a. rewrite elem_of_union, elem_of_singleton, !elem_of_dom, Hl, He.
    rewrite <-elem_of_dom, I4, elem_of_union, elem_of_singleton, elem_of_dom.
    destruct (decide (a ∈ J)) as [Ha|Ha]; [|tauto]. split; [tauto|]. intros [->|[? ?]]; [|done]. by rewrite HinJ in Ha.
  - intros a e. rewrite He. destruct (decide (a ∈ J)); [done|]. apply I5.
  - by rewrite last_snoc.
  - intros t th Ht Hin. by destruct (Hidle t th Ht).
  - eapply Forall_impl; [done|]. intros y. apply answer_hist. by eexists.
  - eapply Forall_impl; [done|]. intros y. apply del_hist. by eexists.
Qed.

(** With no lookup in progress [route_clear] empties the table and frees its entries; what
    deletions have left behind is still theirs. *)
Lemma route_clear_inv s L junk :
  Inv s L -> links s !! junk = None -> (forall t th, threads s !! t = Some th -> ~ in_lookup (pc th)) ->
  exists s', route_clear junk s = Some s' /\ Inv s' [] /\ dead s' = dead s.
Proof.
  intros HI Hjunk Hidle. destruct (clear_moved s L junk HI Hjunk) as (h & h1 & m' & J & Hh & Hh1 & Hm' & H0 & HJ & Hperm & Hnd & Hdom).
  unfold route_clear. rewrite Hh, Hh1, Hm'. set (s1 := mkState m' _ _ _ _ _ _ _).
  destruct (ring_ahead m' junk J HJ) as (j & j1 & Hj & Hj1 & Hn & Hn1). rewrite Hj, Hj1, Hn.
  assert (HJL : (length J < S (size m'))%nat).
  { pose proof (links_size m' J) as Hsz. apply NoDup_cons in Hnd as [_ Hnd]. specialize (Hsz Hnd).
    enough (length J <= size m')%nat by lia. apply Hsz. intros a Ha. apply elem_of_dom. eapply ring_elem; [exact HJ|by right]. }
  destruct (free_loop_ok junk J (S (size m')) (next j1) s1) as (s2 & Hs2 & Hl2 & He2 & Hrcu & Hpend & Hths & Hhist & Hans & Hdels);
    [by destruct HJ as [[_ ?] _]|by exists j|done| |done|done|].
  { intros a Ha. rewrite Hperm in Ha. apply (i_entries _ _ HI). set_solver. }
  rewrite Hs2. eexists. split; [done|].
  assert (H0j : (0%nat <> junk) /\ (0%nat ∉ J)).
  { destruct (allocated s L 0 HI ltac:(by left)). split; [congruence|]. rewrite Hperm. intros Hin.
    pose proof (i_nodup _ _ HI) as [Hz _]%NoDup_cons. set_solver. }
  split; [|unfold dead; simpl; by rewrite Hpend, Hths].
  apply (cleared_inv s _ L J); simpl; try done.
  - revert H0. apply ring_frame. intros y ->%list_elem_of_singleton. simpl. rewrite lookup_delete_ne by (destruct H0j; congruence).
    by rewrite Hl2, decide_False by tauto.
  - intros a. destruct (decide (a = junk)) as [->|Hne].
    + rewrite lookup_delete_eq, Hjunk. split; [by intros []|by intros [_ []]].
    + rewrite lookup_delete_ne, Hl2 by done. simpl. destruct (decide (a ∈ J)); [split; [by intros []|tauto]|].
      rewrite <-!elem_of_dom, Hdom. unfold CDS_INIT_LIST_HEAD. rewrite dom_insert. set_solver.
Qed.
End invariant.

(** * Properties *)

(** C12: lookups of the RCU table take no lock and are linearizable. Whatever the interleaving
    of lookups, additions, deletions and callbacks, no access touches freed memory and [abort] is
    not reached; every lookup returns what the table had for its address at some moment between
    its start and its end; a deletion removes the newest route of its address, or finds none;
    and once no call is in progress, RCU can run every callback, after which the allocated
    entries are those of the table. *)
Theorem rcu_lookups_linearize {G} {RO : RcuOps G} {RL : RcuLaws G} n l :
  exists s, run l (start n) = Some s /\
    Forall (answer_ok s) (answers s) /\ Forall (del_ok s) (dels s) /\
    ((forall th, th ∈ threads s -> pc th = PIdle) ->
      exists s', run (ACallback <$> pending s) s = Some s' /\ table s' = table s /\ size (entries s') = length (table s')).
Proof.
  destruct (route_run_inv l (start n) [] (start_inv n)) as (s & L & Hrun & HI). exists s.
  split_and!; [done|by apply i_answers with L|by apply i_dels with L|]. intros Hidle.
  destruct (callbacks_run (pending s) s L HI) as (s' & Hrun' & HI' & Hp & Hh & Hth); [done| |].
  - intros t Ht. destruct (i_reading _ _ HI t Ht) as (th & Hthr & Hin). apply list_elem_of_lookup_2 in Hthr.
    by rewrite (Hidle th Hthr) in Hin.
  - exists s'. split_and!; [done|unfold table; by rewrite Hh|]. apply (table_size s' L); [done|].
    unfold dead. rewrite Hp, Hth, app_nil_r. clear -Hidle. induction (threads s) as [|th ths IH]; [done|]. cbn.
    unfold unlinked_by at 1. rewrite (Hidle th) by left. apply IH. intros th' Hin. apply Hidle. by right.
Qed.

(** Two deletions under a lookup: the lookup of 7 stands on the entry of 8 while it and the entry of 7
    are deleted, and a callback waits for it. *)
Definition demo_run : list Act :=
  [AAdd (Some 1%nat) 7 70; AAdd (Some 2%nat) 8 80; AAdd None 1 1; AAdd (Some 3%nat) 7 71; ADel 1 7; AStep 1;
   ALookup 0 7; AStep 0; ADel 1 8; AStep 1; ACallback 2; AStep 0; AStep 0; ADel 1 7; AStep 0; AStep 1;
   AAdd (Some 4%nat) 7 72; AStep 0; AStep 0; AStep 0; ADel 1 9; ACallback 3].

Lemma rcu_lookups_linearize_witness :
  exists s : State ReaderSets.Rcu, run demo_run (start 2) = Some s /\
    (answers s = [mkAnswer 7 70 4 7] /\ dels s = [(7, 0, 3%nat); (8, 0, 4%nat); (7, 0, 5%nat); (9, - ENOENT, 7%nat)] /\
      pending s = [2; 1]%nat) /\
    Forall (answer_ok s) (answers s) /\ Forall (del_ok s) (dels s) /\
    exists s', run (ACallback <$> pending s) s = Some s' /\ table s' = table s /\ size (entries s') = length (table s').
Proof.
  destruct (rcu_lookups_linearize (G := ReaderSets.Rcu) 2 demo_run) as (s & Hrun & Ha & Hd & Hq).
  exists s. split; [exact Hrun|]. vm_compute in Hrun. injection Hrun as <-.
  split; [done|]. split; [exact Ha|]. split; [exact Hd|]. apply Hq.
  intros th Hth. repeat (apply elem_of_cons in Hth as [->|Hth]; [done|]). by apply elem_of_nil in Hth.
Defined.

(** [route_clear] with a lookup in progress, stopped after its first move: the lookup follows
    the entry it stands on into the local list, and reads the head of that list as an entry. *)
Lemma clear_diverts_lookup :
  exists s m, run [AAdd (Some 1%nat) 7 70; ALookup 0 8; AStep 0; AStep 0] (start (G := ReaderSets.Rcu) 1) = Some s /\
    (m1 <-? cds_list_del_rcu 1 (CDS_INIT_LIST_HEAD 99 (links s)); cds_list_add_rcu 1 99 m1)%wz = Some m /\
    run [AStep 0; AStep 0] (mkState m (entries s) (rcu s) (pending s) (threads s) (hist s) (answers s) (dels s)) = None.
Proof. eexists _, _. split; [vm_compute; reflexivity|]. split; [vm_compute; reflexivity|]. vm_compute. reflexivity. Qed.
