(* ===== verification/RouteTable.v ===== *)
(** Singly linked lists of route entries in memory, shared by the routing tables under a sequence lock
    and under reference counts: the nodes of a list, and the table it stands for. *)
From S2P Require Import Prelude RouteRcu.

(** * Chains of nodes *)

(** [l] are the nodes from [p] on, the last one's successor being null. *)
Fixpoint chain {E} (nxt : E -> option nat) (m : gmap nat E) (p : option nat) (l : list nat) : Prop :=
  match l with
  | [] => p = None
  | x :: l => p = Some x /\ exists e, m !! x = Some e /\ chain nxt m (nxt e) l
  end.

Section chains.
Context {E : Type} (nxt : E -> option nat).
Implicit Types (m : gmap nat E) (l : list nat).

Lemma chain_ext m m' l : forall p, (forall x, x ∈ l -> nxt <$> m' !! x = nxt <$> m !! x) -> chain nxt m p l -> chain nxt m' p l.
Proof.
  induction l as [|x l IH]; simpl; [done|]. intros p Hf [-> (e & He & Hl)]. split; [done|].
  specialize (Hf x ltac:(by left)) as Hx. rewrite He in Hx. destruct (m' !! x) as [e'|]; [|done]. injection Hx as Hx.
  exists e'. split; [done|]. rewrite Hx. apply IH; [|done]. intros y Hy. apply Hf. by right.
Qed.

Lemma seq_chain_frame m m' l p : (forall x, x ∈ l -> m' !! x = m !! x) -> chain nxt m p l -> chain nxt m' p l.
Proof. intros Hf. apply chain_ext. intros x Hx. by rewrite Hf. Qed.

Lemma seq_chain_next m l1 x l2 : forall p, chain nxt m p (l1 ++ x :: l2) -> exists e, m !! x = Some e /\ chain nxt m (nxt e) l2.
Proof. induction l1 as [|y l1 IH]; intros p; simpl; [by intros [_ H]|]. intros [_ (e & _ & H)]. by apply IH in H. Qed.

(** What follows the nodes [l1]. *)
Lemma chain_pos m l1 l2 p : chain nxt m p (l1 ++ l2) ->
  match last l1 with
  | None => chain nxt m p l2
  | Some x => exists e, m !! x = Some e /\ chain nxt m (nxt e) l2
  end.
Proof.
  destruct l1 as [|x l1 _] using rev_ind; [done|]. rewrite last_snoc, <-app_assoc. apply seq_chain_next.
Qed.

Lemma chain_elem m l p x : chain nxt m p l -> x ∈ l -> is_Some (m !! x).
Proof. intros Hc (l1 & l2 & ->)%list_elem_of_split. apply seq_chain_next in Hc as (e & He & _). by eexists. Qed.

(** One node's successor is changed. *)
Lemma chain_relink m l1 x e e' l2 l2' p :
  m !! x = Some e -> (x ∉ l1) -> (x ∉ l2') -> chain nxt m p (l1 ++ x :: l2) -> chain nxt m (nxt e') l2' ->
  chain nxt (<[x := e']> m) p (l1 ++ x :: l2').
Proof.
  intros Hx. revert p. induction l1 as [|y l1 IH]; simpl; intros p H1 H2.
  - intros [-> _] Hl. split; [done|]. exists e'. rewrite lookup_insert_eq. split; [done|].
    revert Hl. apply seq_chain_frame. intros y Hy. rewrite lookup_insert_ne; [done|]. intros ->. done.
  - intros [-> (ey & Hy & Hc)] Hl. split; [done|]. exists ey. rewrite lookup_insert_ne by set_solver.
    split; [done|]. apply IH; [set_solver|done|done|done].
Qed.
End chains.

(** * The table in memory *)

Section rows.
Context {E : Type} {addr iface : E -> Z}.

Definition rows_of (m : gmap nat E) (l : list nat) : list (Z * Z) :=
  omap (fun x => (fun e => (addr e, iface e)) <$> m !! x) l.

(** The entries [pre] are for other addresses. *)
Definition skips (m : gmap nat E) (k : Z) (pre : list nat) : Prop :=
  Forall (fun x => exists e, m !! x = Some e /\ addr e <> k) pre.

Implicit Types (m : gmap nat E) (l pre : list nat).

Lemma rows_of_cons m x e l : m !! x = Some e -> rows_of m (x :: l) = (addr e, iface e) :: rows_of m l.
Proof. intros Hx. unfold rows_of. simpl. by rewrite Hx. Qed.

Lemma rows_of_app m l1 l2 : rows_of m (l1 ++ l2) = rows_of m l1 ++ rows_of m l2.
Proof. apply omap_app. Qed.

Lemma rows_of_ext m m' l :
  (forall x, x ∈ l -> (fun e => (addr e, iface e)) <$> m' !! x = (fun e => (addr e, iface e)) <$> m !! x) -> rows_of m' l = rows_of m l.
Proof.
  induction l as [|x l IH]; [done|]. intros Hf. change (x :: l) with ([x] ++ l). rewrite !rows_of_app. f_equal.
  - unfold rows_of. simpl. by rewrite Hf by left.
  - apply IH. intros y Hy. apply Hf. by right.
Qed.

Lemma rows_of_frame m m' l : (forall x, x ∈ l -> m' !! x = m !! x) -> rows_of m' l = rows_of m l.
Proof. intros Hf. apply rows_of_ext. intros x Hx. by rewrite Hf. Qed.

Lemma skips_ext m m' k pre : (forall x, x ∈ pre -> addr <$> m' !! x = addr <$> m !! x) -> skips m k pre -> skips m' k pre.
Proof.
  intros Hf. unfold skips. rewrite !Forall_forall. intros Hs x Hx. destruct (Hs x Hx) as (e & He & Hk).
  specialize (Hf x Hx). rewrite He in Hf. destruct (m' !! x) as [e'|]; [|done]. injection Hf as Hf. exists e'. by rewrite Hf.
Qed.

Lemma skips_frame m m' k pre : (forall x, x ∈ pre -> m' !! x = m !! x) -> skips m k pre -> skips m' k pre.
Proof. intros Hf. apply skips_ext. intros x Hx. by rewrite Hf. Qed.

Lemma skips_snoc m k pre x e : skips m k pre -> m !! x = Some e -> addr e <> k -> skips m k (pre ++ [x]).
Proof. intros Hs Hx Hk. apply Forall_app. split; [done|]. constructor; [by exists e|done]. Qed.

Lemma skips_lookup m k pre l : skips m k pre -> table_lookup k (rows_of m (pre ++ l)) = table_lookup k (rows_of m l).
Proof.
  induction 1 as [|x pre (e & Hx & Hk) _ IH]; [done|]. cbn [app]. rewrite (rows_of_cons m x e) by done. cbn [table_lookup].
  destruct (Z.eqb_spec (addr e) k); [done|]. done.
Qed.

Lemma skips_del m k pre l : skips m k pre -> table_del k (rows_of m (pre ++ l)) = rows_of m pre ++ table_del k (rows_of m l).
Proof.
  induction 1 as [|x pre (e & Hx & Hk) _ IH]; [done|]. cbn [app]. rewrite !(rows_of_cons m x e) by done. cbn [table_del].
  destruct (Z.eqb_spec (addr e) k); [done|]. by rewrite IH.
Qed.

Lemma skips_keys m k pre : skips m k pre -> k ∉ (rows_of m pre).*1.
Proof.
  induction 1 as [|x pre (e & Hx & Hk) _ IH]; [apply not_elem_of_nil|]. rewrite (rows_of_cons m x e) by done.
  simpl. rewrite not_elem_of_cons. done.
Qed.
End rows.

Arguments rows_of {E} addr iface m l.
Arguments skips {E} addr m k pre.
