(* ===== verification/RouteSeqlock.v ===== *)
(** The routing table of src/main/route_seqlock.c, a singly linked list that writers change inside a
    sequence lock and lookups read without one, to look afterwards whether a writer was there.

    Every access is a step; the accesses of a writer to memory only it can reach go with the
    next one. The sequence lock, whose header is not in the repository, is the interface
    [SeqOps] with [SeqLaws]. Memory is freed by [route_del] and [route_clear] at once, so that a lookup
    can meet an entry that is gone ([lookup_reads_freed]): [None] is that, or the [abort] of
    [route_lookup]. *)
From S2P Require Import Prelude RouteRcu RouteTable.
Open Scope wizard_scope.

(** * The sequence lock *)

(** [read_seqbegin] gives the count, or waits as long as it is [None]; [read_seqretry] is told the
    count. [held]: a writer is between its lock and its unlock. *)
Class SeqOps (G : Type) := {
  seq_init : G;
  read_seqbegin : G -> option Z;
  read_seqretry : G -> Z -> bool;
  write_seqlock : G -> G;
  write_sequnlock : G -> G;
  held : G -> bool
}.

(** [read_seqretry] answers no when no writer was there since [read_seqbegin], and only then as long as
    the count does not come around. *)
Class SeqLaws (G : Type) {SO : SeqOps G} := {
  writes : G -> nat;
  init_held : held seq_init = false;
  lock_law g : held g = false -> held (write_seqlock g) = true /\ writes (write_seqlock g) = S (writes g);
  unlock_law g : held g = true -> held (write_sequnlock g) = false /\ writes (write_sequnlock g) = S (writes g);
  begin_free g : held g = false -> exists s, read_seqbegin g = Some s /\ read_seqretry g s = false;
  retry_same g g' s : read_seqbegin g = Some s -> (writes g <= writes g')%nat -> Z.of_nat (writes g') < 2 ^ 32 ->
    read_seqretry g' s = false -> writes g' = writes g /\ held g = false
}.

(** The usual sequence lock: a counter of 32 bits that is odd while a writer is there; a reader
    ignores the lowest bit, and so sees a change in the end. *)
Module SeqCount.
#[global] Instance ops : SeqOps nat := {
  seq_init := 0%nat;
  read_seqbegin g := Some (u32 (2 * (Z.of_nat g / 2)));
  read_seqretry g s := negb (u32 (Z.of_nat g) =? s);
  write_seqlock g := S g;
  write_sequnlock g := S g;
  held g := Nat.odd g
}.

#[global] Instance laws : SeqLaws nat.
Proof.
  assert (Hodd : forall g, Nat.odd (S g) = negb (Nat.odd g)) by (intros g; by rewrite Nat.odd_succ, <-Nat.negb_odd).
  apply (Build_SeqLaws nat ops (fun g => g)); cbn [held write_seqlock write_sequnlock read_seqbegin read_seqretry seq_init ops].
  - done.
  - intros g Hg. by rewrite Hodd, Hg.
  - intros g Hg. by rewrite Hodd, Hg.
  - intros g Hg. eexists. split; [done|]. apply negb_false_iff, Z.eqb_eq. f_equal.
    apply (f_equal negb) in Hg. rewrite Nat.negb_odd in Hg. apply Nat.even_spec in Hg as [k ->].
    rewrite Nat2Z.inj_mul, (Z.mul_comm (Z.of_nat 2)), Z.div_mul by lia. lia.
  - intros g g' s [= <-] Hle Hlt Hr%negb_false_iff%Z.eqb_eq.
    pose proof (Z.mul_div_le (Z.of_nat g) 2 ltac:(lia)). pose proof (Z.div_pos (Z.of_nat g) 2 ltac:(lia) ltac:(lia)).
    rewrite !u32_small in Hr by lia. assert (g' = g) as -> by lia. split; [done|].
    rewrite <-Nat.negb_even. apply negb_false_iff, Nat.even_spec. exists (g / 2)%nat. 
    apply Nat2Z.inj. rewrite Nat2Z.inj_mul, Nat2Z.inj_div. done.
Defined.
End SeqCount.

(** * The routing table *)

Record route_entry := mkEntry { re_next : option nat; addr : Z; iface : Z; re_freed : bool }.

Section table.
Context {G : Type} {SO : SeqOps G}.

(** Where a thread is, with its locals; [repp] is the entry whose [re_next] is loaded, [None] for
    [route_list]'s. In [route_lookup] before [read_seqbegin], the load of [*repp], of [addr], of
    [re_freed], of [iface], and [read_seqretry]; in [route_add] before the lock, the stores and the
    unlock; in [route_del] before the lock, a turn of the loop, the unlock, the store of
    [re_freed] and [free]; in [route_clear] before the lock, the store, and a turn of the loop. *)
Inductive PC :=
  | PIdle
  | LBegin (k : Z) | LNext (k s : Z) (repp : option nat) | LAddr (k s : Z) (rep : nat)
  | LFreed (k s : Z) (rep : nat) | LIface (k s : Z) (rep : nat) | LRetry (k s ret : Z)
  | AddLock (rep : nat) (ad interface : Z) | AddNext (rep : nat) (ad interface : Z)
  | AddHead (rep : nat) (ad interface : Z) | AddUnlock
  | DelLock (k : Z) | DelLoad (k : Z) (repp : option nat) | DelUnlock (rep : nat) | DelMark (rep : nat)
  | DelFree (rep : nat) | DelUnlockNone
  | ClrLock | ClrHead | ClrFree (rep : option nat).

(** [seen] is a history: the lock when [read_seqbegin] read it. *)
Record Thread := mkThread { pc : PC; seen : G }.

(** [tbl], [answers] and [dels] are histories: the table, and what lookups and deletions returned,
    with the table at the moment when a lookup returned or a deletion decided. *)
Record State := mkState {
  heap : gmap nat route_entry;
  route_list : option nat;
  sl : G;
  threads : list Thread;
  tbl : list (Z * Z);
  answers : list (Z * Z * list (Z * Z));
  dels : list (Z * Z * list (Z * Z))
}.

Definition start (n : nat) : State := mkState ∅ None seq_init (replicate n (mkThread PIdle seq_init)) [] [] [].

Definition goto (t : nat) (p : PC) (g : G) (s : State) : State :=
  mkState (heap s) (route_list s) (sl s) (<[t := mkThread p g]> (threads s)) (tbl s) (answers s) (dels s).

Definition set_heap (m : gmap nat route_entry) (s : State) : State :=
  mkState m (route_list s) (sl s) (threads s) (tbl s) (answers s) (dels s).

Definition set_lock (g : G) (s : State) : State :=
  mkState (heap s) (route_list s) g (threads s) (tbl s) (answers s) (dels s).

(** A store to [route_list.re_next], and the table afterwards. *)
Definition set_list (p : option nat) (M : list (Z * Z)) (s : State) : State :=
  mkState (heap s) p (sl s) (threads s) M (answers s) (dels s).

Definition log_del (k ret : Z) (s : State) : State :=
  mkState (heap s) (route_list s) (sl s) (threads s) (tbl s) (answers s) (dels s ++ [(k, ret, tbl s)]).

(** [*repp] *)
Definition load_link (repp : option nat) (s : State) : option (option nat) :=
  match repp with None => Some (route_list s) | Some x => e <-? heap s !! x; Some (re_next e) end.

(** [*repp = p], by [route_del]. *)
Definition store_link (repp p : option nat) (M : list (Z * Z)) (s : State) : option State :=
  match repp with
  | None => Some (set_list p M s)
  | Some x =>
      e <-? heap s !! x;
      Some (set_list (route_list s) M (set_heap (<[x := mkEntry p (addr e) (iface e) (re_freed e)]> (heap s)) s))
  end.

(** An access of [route_lookup]. *)
Definition lookup_step (t : nat) (th : Thread) (s : State) : option State :=
  match pc th with
  | LBegin k => Some (match read_seqbegin (sl s) with Some c => goto t (LNext k c None) (sl s) s | None => s end)
  | LNext k c repp =>
      rep <-? load_link repp s;
      Some (goto t (match rep with None => LRetry k c ULONG_MAX | Some rep => LAddr k c rep end) (seen th) s)
  | LAddr k c rep =>
      e <-? heap s !! rep;
      Some (goto t (if addr e =? k then LFreed k c rep else LNext k c (Some rep)) (seen th) s)
  | LFreed k c rep => e <-? heap s !! rep; if re_freed e then None else Some (goto t (LIface k c rep) (seen th) s)
  | LIface k c rep => e <-? heap s !! rep; Some (goto t (LRetry k c (iface e)) (seen th) s)
  | LRetry k c ret =>
      if read_seqretry (sl s) c then Some (goto t (LBegin k) (seen th) s)
      else Some (mkState (heap s) (route_list s) (sl s) (<[t := mkThread PIdle (seen th)]> (threads s)) (tbl s)
                   (answers s ++ [(k, ret, tbl s)]) (dels s))
  | _ => Some s
  end.

(** An access of [route_add], [route_del] or [route_clear]; at the lock a writer waits. *)
Definition writer_step (t : nat) (th : Thread) (s : State) : option State :=
  let acquire p := if held (sl s) then Some s else Some (goto t p (seen th) (set_lock (write_seqlock (sl s)) s)) in
  let release p := Some (goto t p (seen th) (set_lock (write_sequnlock (sl s)) s)) in
  match pc th with
  | AddLock rep ad interface => acquire (AddNext rep ad interface)
  | AddNext rep ad interface =>
      e <-? heap s !! rep;
      Some (goto t (AddHead rep ad interface) (seen th)
        (set_heap (<[rep := mkEntry (route_list s) (addr e) (iface e) (re_freed e)]> (heap s)) s))
  | AddHead rep ad interface => Some (goto t AddUnlock (seen th) (set_list (Some rep) ((ad, interface) :: tbl s) s))
  | AddUnlock => release PIdle
  | DelLock k => acquire (DelLoad k None)
  | DelLoad k repp =>
      rep <-? load_link repp s;
      match rep with
      | None => Some (goto t DelUnlockNone (seen th) (log_del k (- ENOENT) s))
      | Some rep =>
          e <-? heap s !! rep;
          if addr e =? k then
            s <-? store_link repp (re_next e) (table_del k (tbl s)) (log_del k 0 s);
            Some (goto t (DelUnlock rep) (seen th) s)
          else Some (goto t (DelLoad k (Some rep)) (seen th) s)
      end
  | DelUnlock rep => release (DelMark rep)
  | DelMark rep =>
      e <-? heap s !! rep;
      Some (goto t (DelFree rep) (seen th) (set_heap (<[rep := mkEntry (re_next e) (addr e) (iface e) true]> (heap s)) s))
  | DelFree rep => _ <-? heap s !! rep; Some (goto t PIdle (seen th) (set_heap (delete rep (heap s)) s))
  | DelUnlockNone => release PIdle
  | ClrLock => acquire ClrHead
  | ClrHead => Some (goto t (ClrFree (route_list s)) (seen th) (set_list None [] s))
  | ClrFree None => release PIdle
  | ClrFree (Some rep) =>
      e <-? heap s !! rep; Some (goto t (ClrFree (re_next e)) (seen th) (set_heap (delete rep (heap s)) s))
  | _ => Some s
  end.

Definition is_lookup (p : PC) : bool :=
  match p with LBegin _ | LNext _ _ _ | LAddr _ _ _ | LFreed _ _ _ | LIface _ _ _ | LRetry _ _ _ => true | _ => false end.

Definition thread_step (t : nat) (th : Thread) (s : State) : option State :=
  if is_lookup (pc th) then lookup_step t th s else writer_step t th s.

(** [route_add] up to the lock; [mem] is what [malloc] returns. *)
Definition route_add (t : nat) (mem : option nat) (ad interface : Z) (g : G) (s : State) : Z * State :=
  match mem with
  | None => (- ENOMEM, s)
  | Some rep => (0, goto t (AddLock rep ad interface) g (set_heap (<[rep := mkEntry None ad interface false]> (heap s)) s))
  end.

Inductive Act :=
  | ALookup (t : nat) (k : Z) | AAdd (t : nat) (mem : option nat) (ad interface : Z) | ADel (t : nat) (k : Z)
  | AClear (t : nat) | AStep (t : nat).

(** [malloc] returns memory not in use. *)
Definition mem_ok (c : Act) (s : State) : bool :=
  match c with AAdd _ (Some rep) _ _ => bool_decide (heap s !! rep = None) | _ => true end.

(** A thread makes one call at a time. *)
Definition step (c : Act) (s : State) : option State :=
  let call t f := match threads s !! t with Some (mkThread PIdle g) => Some (f g) | _ => Some s end in
  if mem_ok c s then
    match c with
    | ALookup t k => call t (fun g => goto t (LBegin k) g s)
    | AAdd t mem ad interface => call t (fun g => snd (route_add t mem ad interface g s))
    | ADel t k => call t (fun g => goto t (DelLock k) g s)
    | AClear t => call t (fun g => goto t ClrLock g s)
    | AStep t => match threads s !! t with Some th => thread_step t th s | None => Some s end
    end
  else Some s.

Fixpoint run (l : list Act) (s : State) : option State :=
  match l with [] => Some s | c :: l => s <-? step c s; run l s end.
End table.
Arguments Thread : clear implicits.
Arguments State : clear implicits.
Close Scope wizard_scope.

(** * The table in memory *)

#[local] Notation "'sq_rows'" := (rows_of addr iface).
#[local] Notation "'skipped'" := (skips addr).

(** * The invariant *)

Definition in_section (p : PC) : bool :=
  match p with
  | AddNext _ _ _ | AddHead _ _ _ | AddUnlock | DelLoad _ _ | DelUnlock _ | DelUnlockNone | ClrHead | ClrFree _ => true
  | _ => false
  end.

(** The count a lookup got from [read_seqbegin]. *)
Definition count (p : PC) : option Z :=
  match p with LNext _ c _ | LAddr _ c _ | LFreed _ c _ | LIface _ c _ | LRetry _ c _ => Some c | _ => None end.

(** The entries only this thread can reach. *)
Definition owned (m : gmap nat route_entry) (h : option nat) (p : PC) (o : list nat) : Prop :=
  match p with
  | AddLock rep ad interface | AddNext rep ad interface =>
      o = [rep] /\ exists e, m !! rep = Some e /\ addr e = ad /\ iface e = interface /\ re_freed e = false
  | AddHead rep ad interface => o = [rep] /\ m !! rep = Some (mkEntry h ad interface false)
  | DelUnlock rep | DelMark rep | DelFree rep => o = [rep] /\ is_Some (m !! rep)
  | ClrFree p => chain re_next m p o
  | _ => o = []
  end.

(** What a walk along the table [l] has found. *)
Definition claim (m : gmap nat route_entry) (l : list nat) (p : PC) : Prop :=
  match p with
  | LNext k _ repp | DelLoad k repp => exists pre post, l = pre ++ post /\ repp = last pre /\ skipped m k pre
  | LAddr k _ rep => exists pre post, l = pre ++ rep :: post /\ skipped m k pre
  | LFreed k _ rep | LIface k _ rep =>
      exists pre post e, l = pre ++ rep :: post /\ skipped m k pre /\ m !! rep = Some e /\ addr e = k
  | LRetry k _ ret => ret = table_lookup k (sq_rows m l)
  | _ => True
  end.

Section invariant.
Context {G : Type} {SO : SeqOps G} {SL : SeqLaws G}.
Implicit Types (s : State G) (th : Thread G) (l o : list nat).

(** No writer was there since the lock was [g0]. *)
Definition valid (g0 g : G) : Prop := writes g = writes g0 /\ held g = false.

Definition deleting (p : PC) : bool := match p with DelLoad _ _ => true | _ => false end.

Record thread_inv s l o th : Prop := {
  ti_owned : owned (heap s) (route_list s) (pc th) o;
  ti_seen : (writes (seen th) <= writes (sl s))%nat;
  ti_held : writes (sl s) = writes (seen th) -> held (sl s) = held (seen th);
  ti_count : forall c, count (pc th) = Some c -> read_seqbegin (seen th) = Some c;
  ti_claim : deleting (pc th) = true \/ valid (seen th) (sl s) -> claim (heap s) l (pc th)
}.

Record Inv_at s l (os : list (list nat)) : Prop := {
  i_len : length os = length (threads s);
  i_threads : forall t th o, threads s !! t = Some th -> os !! t = Some o -> thread_inv s l o th;
  i_chain : chain re_next (heap s) (route_list s) l;
  i_nodup : NoDup (l ++ concat os);
  i_tbl : tbl s = sq_rows (heap s) l;
  i_live : forall x e, x ∈ l -> heap s !! x = Some e -> re_freed e = false;
  i_mutex : total (fun th => ind (in_section (pc th) = true)) (threads s) = ind (held (sl s) = true);
  i_answers : Z.of_nat (writes (sl s)) < 2 ^ 32 -> forall k r M, (k, r, M) ∈ answers s -> r = table_lookup k M;
  i_dels : forall k r M, (k, r, M) ∈ dels s -> r = if bool_decide (k ∈ M.*1) then 0 else - ENOENT
}.

Definition Inv s : Prop := exists l os, Inv_at s l os.

(** ** Owned entries *)

Lemma owned_frame m m' h p o : (forall x, x ∈ o -> m' !! x = m !! x) -> owned m h p o -> owned m' h p o.
Proof.
  intros Hf. destruct p; simpl; try done.
  1-6: intros [-> H]; split; [done|]; rewrite Hf by left; done.
  by apply seq_chain_frame.
Qed.

Lemma owned_head m h h' p o : in_section p = false -> owned m h p o -> owned m h' p o.
Proof. by destruct p. Qed.

Lemma owned_elem m h p o x : owned m h p o -> x ∈ o -> is_Some (m !! x).
Proof.
  destruct p; simpl; try (intros ->; set_solver).
  1-6: intros [-> H] ->%list_elem_of_singleton; try destruct H as (e & -> & _); try rewrite H; try done; by eexists.
  intros Hc Hx. by eapply chain_elem.
Qed.

Lemma claim_frame m m' l p : (forall x, x ∈ l -> m' !! x = m !! x) -> claim m l p -> claim m' l p.
Proof.
  intros Hf. destruct p; simpl; try done.
  - intros (pre & post & -> & -> & Hs). exists pre, post. split_and!; [done..|]. revert Hs. apply skips_frame. set_solver.
  - intros (pre & post & -> & Hs). exists pre, post. split; [done|]. revert Hs. apply skips_frame. set_solver.
  - intros (pre & post & e & -> & Hs & He & Ha). exists pre, post, e. split_and!; [done| |by rewrite Hf by set_solver|done].
    revert Hs. apply skips_frame. set_solver.
  - intros (pre & post & e & -> & Hs & He & Ha). exists pre, post, e. split_and!; [done| |by rewrite Hf by set_solver|done].
    revert Hs. apply skips_frame. set_solver.
  - intros ->. by rewrite (rows_of_frame m m').
  - intros (pre & post & -> & -> & Hs). exists pre, post. split_and!; [done..|]. revert Hs. apply skips_frame. set_solver.
Qed.

(** ** Other threads *)

(** A step that leaves the table, the lock and what a thread owns alone. *)
Lemma quiet s s' l o th : route_list s' = route_list s -> sl s' = sl s ->
  (forall x, x ∈ l \/ x ∈ o -> heap s' !! x = heap s !! x) -> thread_inv s l o th -> thread_inv s' l o th.
Proof.
  intros Hh Hl Hf [H1 H2 H3 H4 H5]. constructor; rewrite ?Hh, ?Hl; try done.
  - revert H1. apply owned_frame. auto.
  - intros Hv. specialize (H5 Hv). revert H5. apply claim_frame. auto.
Qed.

(** A step of a writer, seen by a thread that is not in its section: what it knew of the table
    is void. *)
Lemma disturbed s s' l l' o th : in_section (pc th) = false -> (writes (sl s) <= writes (sl s'))%nat ->
  (writes (sl s) = writes (sl s') -> sl s' = sl s /\ held (sl s) = true) ->
  (forall x, x ∈ o -> heap s' !! x = heap s !! x) -> thread_inv s l o th -> thread_inv s' l' o th.
Proof.
  intros Hout Hle Hw Hf [H1 H2 H3 H4 H5]. constructor.
  - apply (owned_head _ (route_list s)); [done|]. revert H1. by apply owned_frame.
  - lia.
  - intros Hs. destruct (Hw ltac:(lia)) as [Hg _]. rewrite Hg in *. by apply H3.
  - done.
  - intros [Hd|[Hs Hn]]; [by destruct (pc th)|]. destruct (Hw ltac:(lia)) as [Hg Hh]. rewrite Hg in Hn. congruence.
Qed.

(** ** One thread's step *)

Section update.
Context (s s' : State G) (l : list nat) (os : list (list nat)) (t : nat) (th th' : Thread G) (o : list nat).
Context (Hinv : Inv_at s l os) (Hth : threads s !! t = Some th) (Ho : os !! t = Some o)
  (Hths : threads s' = <[t := th']> (threads s)).

Lemma others_out u th2 : in_section (pc th) = true -> u <> t -> threads s !! u = Some th2 -> in_section (pc th2) = false.
Proof.
  intros Hin Hu Hu2. destruct (in_section (pc th2)) eqn:E; [|done].
  pose proof (total_two (fun th => ind (in_section (pc th) = true)) _ t u th th2 ltac:(intros; apply ind_range) ltac:(done) Hth Hu2) as Ht.
  rewrite (i_mutex _ _ _ Hinv), !ind_true in Ht by done. pose proof (ind_range (held (sl s) = true)). lia.
Qed.

Lemma in_section_held u th2 : threads s !! u = Some th2 -> in_section (pc th2) = true -> held (sl s) = true.
Proof.
  intros Hu Hin. pose proof (total_elem (fun th => ind (in_section (pc th) = true)) (threads s) th2 ltac:(intros; apply ind_range)
    ltac:(by eapply list_elem_of_lookup_2)) as Ht.
  rewrite (i_mutex _ _ _ Hinv), (ind_true (in_section (pc th2) = true)) in Ht by done. unfold ind in Ht. case_decide; [done|lia].
Qed.

Lemma all_out u th2 : held (sl s) = false -> threads s !! u = Some th2 -> in_section (pc th2) = false.
Proof. intros Hh Hu. destruct (in_section (pc th2)) eqn:E; [|done]. by rewrite (in_section_held u th2) in Hh. Qed.

(** The lists of nodes are disjoint. *)
Lemma owned_disjoint u o2 x : u <> t -> os !! u = Some o2 -> x ∈ o2 -> (x ∉ l) /\ (x ∉ o).
Proof.
  intros Hu Ho2 Hx. destruct (concat_insert os t o Ho) as (R & HR & _ & Hsub). pose proof (i_nodup _ _ _ Hinv) as Hnd.
  rewrite HR, !NoDup_app in Hnd. destruct Hnd as (_ & H1 & _ & H2 & _). specialize (Hsub u o2 Hu Ho2 x Hx).
  split; [|intros Hxo; by apply (H2 x)]. intros Hxl. apply (H1 x Hxl). apply elem_of_app. by right.
Qed.

Lemma inv_update l' o' : thread_inv s' l' o' th' ->
  (forall u th2 o2, u <> t -> threads s !! u = Some th2 -> os !! u = Some o2 -> thread_inv s l o2 th2 -> thread_inv s' l' o2 th2) ->
  chain re_next (heap s') (route_list s') l' ->
  (forall R, (forall x, x ∈ R -> is_Some (heap s !! x)) -> NoDup (l ++ o ++ R) -> NoDup (l' ++ o' ++ R)) ->
  tbl s' = sq_rows (heap s') l' ->
  (forall x e, x ∈ l' -> heap s' !! x = Some e -> re_freed e = false) ->
  ind (held (sl s') = true) = ind (held (sl s) = true) - ind (in_section (pc th) = true) + ind (in_section (pc th') = true) ->
  (Z.of_nat (writes (sl s')) < 2 ^ 32 -> forall k r M, (k, r, M) ∈ answers s' -> r = table_lookup k M) ->
  (forall k r M, (k, r, M) ∈ dels s' -> r = if bool_decide (k ∈ M.*1) then 0 else - ENOENT) ->
  Inv_at s' l' (<[t := o']> os).
Proof.
  intros Hti Hoth Hch Hnd Htbl Hlive Hm Ha Hd. destruct Hinv as [I1 I2 I3 I4 I5 I6 I7 I8 I9].
  constructor; try done.
  - by rewrite Hths, !length_insert.
  - rewrite Hths. intros u th2 o2 Hu Ho2. destruct (decide (u = t)) as [->|Hne].
    + rewrite list_lookup_insert_eq in Hu by (by eapply lookup_lt_Some). rewrite list_lookup_insert_eq in Ho2 by (by eapply lookup_lt_Some).
      by simplify_eq.
    + rewrite list_lookup_insert_ne in Hu by done. rewrite list_lookup_insert_ne in Ho2 by done. by eapply (Hoth u); [..|by eapply I2].
  - destruct (concat_insert os t o Ho) as (R & HR & HR' & _). rewrite HR'. apply Hnd.
    + intros x Hx. assert (Hxc : x ∈ concat os) by (rewrite HR; set_solver).
      apply list_elem_of_In, in_concat in Hxc as (o2 & Ho2%list_elem_of_In & Hxo%list_elem_of_In).
      apply list_elem_of_lookup in Ho2 as [u Hu]. destruct (threads s !! u) as [th2|] eqn:Hu2.
      * eapply owned_elem; [by eapply I2|done].
      * apply lookup_ge_None in Hu2. apply lookup_lt_Some in Hu. lia.
    + by rewrite <-HR.
  - rewrite Hths. rewrite (total_insert _ _ t th) by done. rewrite I7, Hm. lia.
Qed.

(** A step that changes neither the table nor the lock. *)
Lemma seq_inv_quiet o' : thread_inv s' l o' th' ->
  route_list s' = route_list s -> sl s' = sl s -> tbl s' = tbl s -> in_section (pc th') = in_section (pc th) ->
  (forall x, is_Some (heap s !! x) -> (x ∉ o) -> heap s' !! x = heap s !! x) ->
  (forall x, x ∈ o' -> x ∈ o \/ heap s !! x = None) -> (NoDup o -> NoDup o') ->
  (Z.of_nat (writes (sl s')) < 2 ^ 32 -> forall k r M, (k, r, M) ∈ answers s' -> r = table_lookup k M) ->
  (forall k r M, (k, r, M) ∈ dels s' -> r = if bool_decide (k ∈ M.*1) then 0 else - ENOENT) ->
  Inv s'.
Proof.
  intros Hti Hh Hl Ht Hsec Hf Hsub Hndo Ha Hd.
  assert (Hlheap : forall x, x ∈ l -> heap s' !! x = heap s !! x).
  { intros x Hx. apply Hf; [eapply chain_elem; [apply Hinv|done]|]. intros Hxo. destruct (concat_insert os t o Ho) as (R & HR & _).
    pose proof (i_nodup _ _ _ Hinv) as Hnd. rewrite HR, NoDup_app in Hnd. destruct Hnd as (_ & H1 & _). apply (H1 x Hx). set_solver. }
  exists l, (<[t := o']> os). apply inv_update; try done.
  - intros u th2 o2 Hu Hu1 Hu2 Hi. apply (quiet s); try done. intros x [Hx|Hx]; [by apply Hlheap|].
    apply Hf; [eapply owned_elem; [apply Hi|done]|]. by eapply owned_disjoint.
  - rewrite Hh. generalize (i_chain _ _ _ Hinv). by apply seq_chain_frame.
  - intros R HR. rewrite !NoDup_app. intros (H1 & H2 & H3 & H4 & H5). split_and!; try done.
    + intros x Hx [Hxo|HxR]%elem_of_app; [|by apply (H2 x); set_solver].
      destruct (Hsub x Hxo) as [Hxo'|Hn]; [by apply (H2 x); set_solver|].
      destruct (chain_elem re_next _ _ _ x (i_chain _ _ _ Hinv) Hx) as [e He]. congruence.
    + by apply Hndo.
    + intros x Hxo HxR. destruct (Hsub x Hxo) as [Hxo'|Hn]; [by apply (H4 x)|]. destruct (HR x HxR). congruence.
  - rewrite Ht, (i_tbl _ _ _ Hinv). symmetry. by apply rows_of_frame.
  - intros x e Hx. rewrite Hlheap by done. by apply (i_live _ _ _ Hinv).
  - rewrite Hl, Hsec. lia.
Qed.

(** A step that takes or gives back the lock, or one of the writer that has it. *)
Lemma inv_section l' o' : thread_inv s' l' o' th' ->
  (in_section (pc th) = true /\ (sl s' = sl s /\ in_section (pc th') = true \/ sl s' = write_sequnlock (sl s) /\ in_section (pc th') = false)) \/
  (held (sl s) = false /\ sl s' = write_seqlock (sl s) /\ in_section (pc th') = true) ->
  (forall u o2 x, u <> t -> os !! u = Some o2 -> x ∈ o2 -> heap s' !! x = heap s !! x) ->
  chain re_next (heap s') (route_list s') l' ->
  (forall R, (forall x, x ∈ R -> is_Some (heap s !! x)) -> NoDup (l ++ o ++ R) -> NoDup (l' ++ o' ++ R)) ->
  tbl s' = sq_rows (heap s') l' ->
  (forall x e, x ∈ l' -> heap s' !! x = Some e -> re_freed e = false) ->
  answers s' = answers s ->
  (forall k r M, (k, r, M) ∈ dels s' -> r = if bool_decide (k ∈ M.*1) then 0 else - ENOENT) ->
  Inv s'.
Proof.
  intros Hti Hsec Hf Hch Hnd Htbl Hlive Ha Hd.
  assert (Hsl : in_section (pc th) = true -> held (sl s) = true) by (exact (in_section_held t th Hth)).
  assert (Hw : (writes (sl s) <= writes (sl s'))%nat /\ (writes (sl s) = writes (sl s') -> sl s' = sl s /\ held (sl s) = true)).
  { destruct Hsec as [[Hin [[-> _]|[-> _]]]|(Hfree & -> & _)]; [split; auto| |].
    - destruct (unlock_law (sl s) (Hsl Hin)) as [_ ->]. split; [lia|intros; lia].
    - destruct (lock_law (sl s) Hfree) as [_ ->]. split; [lia|intros; lia]. }
  exists l', (<[t := o']> os). apply inv_update; try done.
  - intros u th2 o2 Hu Hu1 Hu2 Hi. apply (disturbed s s' l); try apply Hw; try done; [|by eauto].
    destruct Hsec as [[Hin _]|[Hfree _]]; [by eapply others_out|by eapply all_out].
  - destruct Hsec as [[Hin [[-> Hin']|[-> Hout]]]|(Hfree & -> & Hin')].
    + by rewrite (Hsl Hin), Hin, Hin'.
    + destruct (unlock_law (sl s) (Hsl Hin)) as [-> _]. by rewrite (Hsl Hin), Hin, Hout.
    + destruct (lock_law (sl s) Hfree) as [-> _]. pose proof (all_out t th Hfree Hth) as Hout.
      by rewrite Hfree, Hin', Hout.
  - rewrite Ha. intros Hb. apply Hinv. lia.
Qed.
End update.

(** ** Lookups *)

Lemma thread_list s l os t th : Inv_at s l os -> threads s !! t = Some th -> exists o, os !! t = Some o /\ thread_inv s l o th.
Proof.
  intros Hi Ht. destruct (lookup_lt_is_Some_2 os t) as [o Ho]; [rewrite (i_len _ _ _ Hi); by eapply lookup_lt_Some|].
  exists o. split; [done|]. by eapply i_threads.
Qed.

(** A lookup, or a thread between calls, owns nothing and goes on. *)
Lemma inv_walk s l os t th p g A : Inv_at s l os -> threads s !! t = Some th ->
  is_lookup (pc th) = true \/ pc th = PIdle -> is_lookup p = true \/ p = PIdle ->
  g = sl s \/ g = seen th -> (forall c, count p = Some c -> read_seqbegin g = Some c) ->
  (valid g (sl s) -> claim (heap s) l p) ->
  (Z.of_nat (writes (sl s)) < 2 ^ 32 -> forall k r M, (k, r, M) ∈ A -> r = table_lookup k M) ->
  Inv (mkState (heap s) (route_list s) (sl s) (<[t := mkThread p g]> (threads s)) (tbl s) A (dels s)).
Proof.
  intros Hi Ht Hth Hp Hg Hc Hcl HA. destruct (thread_list s l os t th Hi Ht) as (o & Ho & Hti).
  assert (Hno : forall p', is_lookup p' = true \/ p' = PIdle -> in_section p' = false /\ deleting p' = false /\
    (forall o, owned (heap s) (route_list s) p' o <-> o = [])).
  { intros p' [Hp'| ->]; [|done]. by destruct p'. }
  destruct (Hno _ Hth) as (H1 & _ & H2), (Hno _ Hp) as (H3 & H4 & H5).
  assert (o = []) as -> by (apply H2, Hti).
  eapply (seq_inv_quiet s _ l os t th (mkThread p g) [] Hi Ht Ho); simpl; try done; try by apply Hi.
  - constructor; simpl; [by apply H5| | |done|intros [?|Hv]; [congruence|by apply Hcl]].
    + destruct Hg as [->| ->]; [done|apply Hti].
    + destruct Hg as [->| ->]; [done|apply Hti].
  - by rewrite H1, H3.
  - set_solver.
Qed.

Lemma load_link_pos s pre post : chain re_next (heap s) (route_list s) (pre ++ post) ->
  load_link (last pre) s = Some (head post) /\ forall x, head post = Some x -> exists e, heap s !! x = Some e.
Proof.
  intros Hc. pose proof (chain_pos _ _ _ _ _ Hc) as Hp.
  assert (Hhd : forall p, chain re_next (heap s) p post -> p = head post) by (intros p; destruct post; simpl; [done|by intros [-> _]]).
  split.
  - unfold load_link. destruct (last pre) as [x|].
    + destruct Hp as (e & -> & Hp). by rewrite (Hhd _ Hp).
    + by rewrite <-(Hhd _ Hp).
  - intros x Hx. destruct post as [|y post]; [done|]. injection Hx as ->. eapply chain_elem; [done|]. set_solver.
Qed.

(** What a lookup does that no writer disturbed. *)
Lemma lookup_claims s l os th o : Inv_at s l os -> thread_inv s l o th -> claim (heap s) l (pc th) ->
  match pc th with
  | LNext k c repp => exists rep, load_link repp s = Some rep /\
      claim (heap s) l (match rep with None => LRetry k c ULONG_MAX | Some rep => LAddr k c rep end)
  | LAddr k c rep => exists e, heap s !! rep = Some e /\
      claim (heap s) l (if addr e =? k then LFreed k c rep else LNext k c (Some rep))
  | LFreed k c rep => exists e, heap s !! rep = Some e /\ re_freed e = false /\ claim (heap s) l (LIface k c rep)
  | LIface k c rep => exists e, heap s !! rep = Some e /\ claim (heap s) l (LRetry k c (iface e))
  | _ => True
  end.
Proof.
  intros Hi Hti Hcl. destruct (pc th) as [|k|k c repp|k c rep|k c rep|k c rep|k c ret| | | | | | | | | | | | |]; cbn [claim] in *; try done.
  - destruct Hcl as (pre & post & Hl & -> & Hs). pose proof (i_chain _ _ _ Hi) as Hc. rewrite Hl in Hc.
    destruct (load_link_pos s pre post Hc) as [Hload _].
    eexists. split; [done|]. destruct post as [|x post]; cbn [head claim].
    + rewrite Hl, skips_lookup by done. done.
    + by exists pre, post.
  - destruct Hcl as (pre & post & -> & Hs). destruct (seq_chain_next _ _ _ _ _ _ (i_chain _ _ _ Hi)) as (e & He & _).
    exists e. split; [done|]. destruct (Z.eqb_spec (addr e) k); cbn [claim].
    + by exists pre, post, e.
    + exists (pre ++ [rep]), post. rewrite last_snoc, <-app_assoc. split_and!; [done..|]. by eapply skips_snoc.
  - destruct Hcl as (pre & post & e & -> & Hs & He & Ha). exists e. split_and!; [done| |by exists pre, post, e].
    eapply (i_live _ _ _ Hi rep); [set_solver|done].
  - destruct Hcl as (pre & post & e & -> & Hs & He & Ha). exists e. split; [done|].
    rewrite skips_lookup, (rows_of_cons _ _ e) by done. cbn [table_lookup]. by rewrite Ha, Z.eqb_refl.
Qed.

Lemma lookup_inv s l os t th s' : Inv_at s l os -> threads s !! t = Some th -> is_lookup (pc th) = true ->
  lookup_step t th s = Some s' -> Inv s'.
Proof.
  intros Hi Ht Hlk Hst. destruct (thread_list s l os t th Hi Ht) as (o & Ho & Hti).
  assert (Hval : valid (seen th) (sl s) -> claim (heap s) l (pc th)) by (intros; by apply Hti; right).
  pose proof (lookup_claims s l os th o Hi Hti) as Hnext. pose proof (ti_count _ _ _ _ Hti) as Hcount.
  assert (Hgo : forall p, is_lookup p = true -> (forall c, count p = Some c -> count (pc th) = Some c) ->
    (valid (seen th) (sl s) -> claim (heap s) l p) -> Inv (goto t p (seen th) s)).
  { intros p Hp Hc Hcl. apply (inv_walk s l os t th p (seen th) (answers s) Hi Ht); auto. apply Hi. }
  unfold lookup_step in Hst.
  destruct (pc th) as [|k|k c repp|k c rep|k c rep|k c rep|k c ret| | | | | | | | | | | | |] eqn:Hpc; try done.
  - injection Hst as <-. destruct (read_seqbegin (sl s)) as [c|] eqn:Hb; [|by exists l, os].
    apply (inv_walk s l os t th (LNext k c None) (sl s) (answers s) Hi Ht);
      [rewrite Hpc; by left|by left|by left|intros c0 Hc0; injection Hc0 as <-; exact Hb|intros _; exists [], l; split_and!; [done..|constructor]|apply Hi].
  - wz_run. apply Hgo; [by destruct o0|by destruct o0|]. intros Hv. destruct (Hnext (Hval Hv)) as (rep & [= <-] & Hcl). done.
  - wz_run. apply Hgo; [by destruct (_ =? _)|by destruct (_ =? _)|]. intros Hv. destruct (Hnext (Hval Hv)) as (e & [= <-] & Hcl). done.
  - wz_run. destruct (re_freed r); [done|]. injection Hst as <-. apply Hgo; [done..|]. intros Hv. by destruct (Hnext (Hval Hv)) as (e & _ & _ & Hcl).
  - wz_run. apply Hgo; [done..|]. intros Hv. destruct (Hnext (Hval Hv)) as (e & [= <-] & Hcl). done.
  - destruct (read_seqretry (sl s) c) eqn:Hr; injection Hst as <-.
    + by apply Hgo.
    + apply (inv_walk s l os t th PIdle (seen th) _ Hi Ht); [rewrite Hpc; by left|by right|by right|done|done|].
      intros Hbound k' r M [Hin|[= -> -> ->]%list_elem_of_singleton]%elem_of_app; [by eapply i_answers|].
      destruct (retry_same (seen th) (sl s) c) as [Hw Hh]; [by apply Hcount|apply Hti|done|done|].
      rewrite (i_tbl _ _ _ Hi). apply Hval. split; [done|]. by rewrite (ti_held _ _ _ _ Hti).
Qed.

(** ** Writers *)

Lemma writer_thread s s' l l' o o' th p : thread_inv s l o th ->
  sl s' = sl s \/ (writes (sl s) < writes (sl s'))%nat -> count p = None ->
  owned (heap s') (route_list s') p o' -> claim (heap s') l' p -> thread_inv s' l' o' (mkThread p (seen th)).
Proof.
  intros [H1 H2 H3 H4 H5] Hl Hc Ho Hcl. constructor; simpl; try done.
  - destruct Hl as [->|]; [done|lia].
  - destruct Hl as [->|]; [done|lia].
  - by rewrite Hc.
Qed.

Section writer.
Context (s : State G) (l : list nat) (os : list (list nat)) (t : nat) (th : Thread G) (o : list nat).
Context (Hi : Inv_at s l os) (Ht : threads s !! t = Some th) (Ho : os !! t = Some o) (Hti : thread_inv s l o th).

Lemma inv_acquire p : held (sl s) = false -> in_section p = true -> count p = None ->
  owned (heap s) (route_list s) p o -> claim (heap s) l p -> Inv (goto t p (seen th) (set_lock (write_seqlock (sl s)) s)).
Proof.
  intros Hh Hp Hc Hown Hcl. destruct (lock_law (sl s) Hh) as [_ Hw].
  unshelve eapply (inv_section s _ l os t th (mkThread p (seen th)) o Hi Ht Ho _ l o); simpl; try done; try apply Hi.
  - apply (writer_thread s _ l _ o); try done. simpl. rewrite Hw. lia.
  - by right.
Qed.

Lemma inv_release p : in_section (pc th) = true -> in_section p = false -> count p = None ->
  owned (heap s) (route_list s) p o -> claim (heap s) l p -> Inv (goto t p (seen th) (set_lock (write_sequnlock (sl s)) s)).
Proof.
  intros Hin Hp Hc Hown Hcl. destruct (unlock_law (sl s) (in_section_held s l os Hi t th Ht Hin)) as [_ Hw].
  unshelve eapply (inv_section s _ l os t th (mkThread p (seen th)) o Hi Ht Ho _ l o); simpl; try done; try apply Hi.
  - apply (writer_thread s _ l _ o); try done. simpl. rewrite Hw. lia.
  - left. split; [done|]. by right.
Qed.

(** A writer changes what it owns. *)
Lemma inv_own p m D o' : in_section p = in_section (pc th) -> count p = None ->
  (forall x, (x ∉ o) -> m !! x = heap s !! x) -> o' ⊆ o -> (NoDup o -> NoDup o') ->
  owned m (route_list s) p o' -> claim m l p ->
  (forall k r M, (k, r, M) ∈ D -> r = if bool_decide (k ∈ M.*1) then 0 else - ENOENT) ->
  Inv (mkState m (route_list s) (sl s) (<[t := mkThread p (seen th)]> (threads s)) (tbl s) (answers s) D).
Proof.
  intros Hsec Hc Hm Hsub Hnd Hown Hcl HD.
  unshelve eapply (seq_inv_quiet s _ l os t th (mkThread p (seen th)) o Hi Ht Ho _ o'); simpl; try done; try apply Hi.
  - apply (writer_thread s _ l _ o); try done. by left.
  - intros x _. apply Hm.
  - intros x Hx. left. by apply Hsub.
Qed.

(** A writer changes the table in its section. *)
Lemma inv_table p m h l' o' D : in_section (pc th) = true -> in_section p = true -> count p = None ->
  (forall x, (x ∉ l) -> m !! x = heap s !! x) ->
  owned m h p o' -> claim m l' p -> chain re_next m h l' -> l' ++ o' ≡ₚ l ++ o ->
  (forall x e, x ∈ l' -> m !! x = Some e -> re_freed e = false) ->
  (forall k r M, (k, r, M) ∈ D -> r = if bool_decide (k ∈ M.*1) then 0 else - ENOENT) ->
  Inv (mkState m h (sl s) (<[t := mkThread p (seen th)]> (threads s)) (sq_rows m l') (answers s) D).
Proof.
  intros Hin Hp Hc Hm Hown Hcl Hch Hperm Hlive HD.
  unshelve eapply (inv_section s _ l os t th (mkThread p (seen th)) o Hi Ht Ho _ l' o'); simpl; try done.
  - apply (writer_thread s _ l _ o); try done. by left.
  - left. split; [done|]. by left.
  - intros u o2 x Hu Hu2 Hx. apply Hm. eapply (owned_disjoint s l os t o Hi Ho u); done.
  - intros R _. by rewrite !app_assoc, Hperm.
Qed.
End writer.

Lemma owned_nodup s l os t o : Inv_at s l os -> os !! t = Some o -> NoDup o /\ forall x, x ∈ o -> x ∉ l.
Proof.
  intros Hi Ho. destruct (concat_insert os t o Ho) as (R & HR & _). pose proof (i_nodup _ _ _ Hi) as Hnd.
  rewrite HR, !NoDup_app in Hnd. destruct Hnd as (_ & H1 & Hnd & _). split; [done|]. intros x Hx Hxl. apply (H1 x Hxl). set_solver.
Qed.

Lemma dels_snoc s l os k r : Inv_at s l os -> r = (if bool_decide (k ∈ (tbl s).*1) then 0 else - ENOENT) ->
  forall k' r' M, (k', r', M) ∈ dels s ++ [(k, r, tbl s)] -> r' = if bool_decide (k' ∈ M.*1) then 0 else - ENOENT.
Proof. intros Hi Hr k' r' M [Hin|[= -> -> ->]%list_elem_of_singleton]%elem_of_app; [by eapply i_dels|done]. Qed.

Lemma head_split pre post (x : nat) : head post = Some x -> pre ++ post = pre ++ x :: tail post.
Proof. by destruct post; [|intros [= ->]]. Qed.

(** [*repp = rep->re_next] *)
Lemma seq_unlink_inv s l os t th k pre rep post e : Inv_at s l os -> threads s !! t = Some th -> os !! t = Some [] ->
  thread_inv s l [] th -> in_section (pc th) = true -> l = pre ++ rep :: post -> skipped (heap s) k pre ->
  heap s !! rep = Some e -> addr e = k ->
  exists s', store_link (last pre) (re_next e) (table_del k (tbl s)) (log_del k 0 s) = Some s' /\
    Inv (goto t (DelUnlock rep) (seen th) s').
Proof.
  intros Hi Ht Ho Hti Hin Hl Hs He Hk.
  pose proof (i_chain _ _ _ Hi) as Hc. pose proof (i_nodup _ _ _ Hi) as Hnd. rewrite NoDup_app in Hnd. destruct Hnd as [Hnd _].
  assert (Htbl : table_del k (tbl s) = sq_rows (heap s) (pre ++ post)).
  { rewrite (i_tbl _ _ _ Hi), Hl, skips_del, (rows_of_cons _ _ e), rows_of_app by done. cbn [table_del].
    by rewrite Hk, Z.eqb_refl. }
  assert (HD : forall k' r' M, (k', r', M) ∈ dels s ++ [(k, 0, tbl s)] -> r' = if bool_decide (k' ∈ M.*1) then 0 else - ENOENT).
  { apply (dels_snoc s l os); [done|]. rewrite bool_decide_eq_true_2; [done|].
    rewrite (i_tbl _ _ _ Hi), Hl, rows_of_app, (rows_of_cons _ _ e) by done. rewrite fmap_app, fmap_cons. simpl. rewrite Hk. set_solver. }
  rewrite Hl in Hc, Hnd. destruct (seq_chain_next _ _ _ _ _ _ Hc) as (e' & He' & Hpost). rewrite He in He'. injection He' as <-.
  assert (Hperm : (pre ++ post) ++ [rep] ≡ₚ l ++ []).
  { rewrite Hl, app_nil_r, <-app_assoc. apply Permutation_app_head. by rewrite <-Permutation_cons_append. }
  assert (Hlive : forall x e0, x ∈ pre ++ post -> heap s !! x = Some e0 -> re_freed e0 = false).
  { intros x e0 Hx. apply (i_live _ _ _ Hi). rewrite Hl. set_solver. }
  rewrite Htbl. destruct pre as [|y pre _] using rev_ind.
  - eexists. split; [done|]. by eapply (inv_table s l os t th [] Hi Ht Ho Hti (DelUnlock rep)).
  - rewrite last_snoc. cbn [store_link log_del heap]. rewrite <-app_assoc in Hc. cbn [app] in Hc.
    pose proof (seq_chain_next _ _ _ _ _ _ Hc) as (ey & Hy & _). rewrite Hy. eexists. split; [done|].
    unfold goto, set_list, set_heap. cbn [heap route_list sl threads tbl answers dels log_del].
    set (m := <[y := _]> (heap s)).
    assert (Hrows : sq_rows m ((pre ++ [y]) ++ post) = sq_rows (heap s) ((pre ++ [y]) ++ post)).
    { apply rows_of_ext. intros x _. unfold m. destruct (decide (x = y)) as [->|Hne]; [by rewrite lookup_insert_eq, Hy|].
      by rewrite lookup_insert_ne. }
    rewrite <-Hrows. rewrite !NoDup_app in Hnd. destruct Hnd as ((Hnd1 & Hnd2 & _) & Hnd3 & [Hrep Hnd4]%NoDup_cons).
    assert (Hyrep : y <> rep) by (intros ->; apply (Hnd3 rep); set_solver).
    eapply (inv_table s l os t th [] Hi Ht Ho Hti (DelUnlock rep)); try done; simpl.
    + intros x Hx. unfold m. rewrite lookup_insert_ne; [done|]. intros ->. apply Hx. rewrite Hl. set_solver.
    + unfold m. rewrite lookup_insert_ne by done. by rewrite He.
    + rewrite <-app_assoc. cbn [app]. unfold m. eapply chain_relink; try done; try set_solver.
    + intros x e0 Hx. unfold m. intros [[<- <-]|[Hne Hx0]]%lookup_insert_Some; [|by eapply Hlive]. simpl. by eapply (Hlive y).
Qed.

(** A turn of the loop of [route_del]. *)
Lemma del_load_inv s l os t th k repp : Inv_at s l os -> threads s !! t = Some th -> pc th = DelLoad k repp ->
  exists s', writer_step t th s = Some s' /\ Inv s'.
Proof.
  intros Hi Ht Hpc. destruct (thread_list s l os t th Hi Ht) as (o & Ho & Hti).
  assert (Hcl : claim (heap s) l (pc th)) by (apply Hti; left; by rewrite Hpc).
  pose proof (ti_owned _ _ _ _ Hti) as Hown. rewrite Hpc in Hcl, Hown. simpl in Hown. subst o. destruct Hcl as (pre & post & Hl & -> & Hs).
  pose proof (i_chain _ _ _ Hi) as Hc. rewrite Hl in Hc. destruct (load_link_pos s pre post Hc) as [Hload Hhd].
  unfold writer_step. rewrite Hpc, Hload. destruct (head post) as [rep|] eqn:Hpost.
  2: { destruct post; [|done]. rewrite app_nil_r in Hl. subst pre. eexists. split; [done|].
    apply (inv_own s l os t th [] Hi Ht Ho Hti DelUnlockNone (heap s) _ []); simpl; try done; [by rewrite Hpc|].
    apply (dels_snoc s l os); [done|]. rewrite bool_decide_eq_false_2; [done|]. rewrite (i_tbl _ _ _ Hi). by eapply skips_keys. }
  destruct (Hhd rep eq_refl) as [e He]. rewrite He. rewrite (head_split pre post rep) in Hl by done.
  destruct (Z.eqb_spec (addr e) k) as [Hk|Hk].
  - destruct (seq_unlink_inv s l os t th k pre rep (tail post) e) as (s' & -> & Hinv'); try done; [by rewrite Hpc|]. by eexists.
  - eexists. split; [done|].
    apply (inv_own s l os t th [] Hi Ht Ho Hti (DelLoad k (Some rep)) (heap s) _ []); simpl; try done; [by rewrite Hpc| |apply Hi].
    exists (pre ++ [rep]), (tail post). rewrite last_snoc, <-app_assoc. split_and!; [done..|]. by eapply skips_snoc.
Qed.

(** A writer's step is defined and keeps the invariant. *)
Lemma writer_inv s l os t th : Inv_at s l os -> threads s !! t = Some th -> is_lookup (pc th) = false ->
  exists s', writer_step t th s = Some s' /\ Inv s'.
Proof.
  intros Hi Ht Hlk. destruct (thread_list s l os t th Hi Ht) as (o & Ho & Hti).
  pose proof (ti_owned _ _ _ _ Hti) as Hown.
  assert (Hin : in_section (pc th) = true -> held (sl s) = true) by (by apply (in_section_held s l os Hi t)).
  assert (Hacq : forall p, in_section p = true -> count p = None -> owned (heap s) (route_list s) p o -> claim (heap s) l p ->
    exists s', (if held (sl s) then Some s else Some (goto t p (seen th) (set_lock (write_seqlock (sl s)) s))) = Some s' /\ Inv s').
  { intros p Hp1 Hp2 Hp3 Hp4. destruct (held (sl s)) eqn:Hh; eexists; (split; [done|]); [by exists l, os|]. by apply (inv_acquire s l os t th o). }
  assert (Hdel : forall k repp, pc th = DelLoad k repp -> exists s', writer_step t th s = Some s' /\ Inv s').
  { intros k repp Hpc. by eapply del_load_inv. }
  unfold writer_step in *. destruct (pc th) eqn:Hpc; try done; cbn [owned] in Hown.
  - eexists. split; [done|]. by exists l, os.
  - apply Hacq; done.
  - destruct Hown as [-> (e & He & <- & <- & Hfr)]. rewrite He. eexists. split; [done|].
    apply (inv_own s l os t th [rep] Hi Ht Ho Hti (AddHead rep (addr e) (iface e)) _ _ [rep]); simpl; try done; [by rewrite Hpc| | |apply Hi].
    + intros x Hx. rewrite lookup_insert_ne; [done|]. set_solver.
    + rewrite lookup_insert_eq, Hfr. done.
  - destruct Hown as [-> He]. eexists. split; [done|]. unfold goto, set_list. simpl.
    replace ((ad, interface) :: tbl s) with (sq_rows (heap s) (rep :: l))
      by (rewrite (rows_of_cons _ _ _ _ He); simpl; by rewrite (i_tbl _ _ _ Hi)).
    apply (inv_table s l os t th [rep] Hi Ht Ho Hti AddUnlock _ _ (rep :: l) []); try done; [by rewrite Hpc| | | |apply Hi].
    + split; [done|]. eexists. split; [exact He|]. apply Hi.
    + rewrite app_nil_r. by rewrite Permutation_cons_append.
    + intros x e [->|Hx']%elem_of_cons Hxe; [rewrite He in Hxe; by injection Hxe as <-|by eapply (i_live _ _ _ Hi)].
  - eexists. split; [done|]. apply (inv_release s l os t th o); try done. by rewrite Hpc.
  - apply Hacq; try done. exists [], l. split_and!; [done..|constructor].
  - by eapply Hdel.
  - eexists. split; [done|]. apply (inv_release s l os t th o); try done. by rewrite Hpc.
  - destruct Hown as [-> [e He]]. rewrite He. eexists. split; [done|].
    apply (inv_own s l os t th [rep] Hi Ht Ho Hti (DelFree rep) _ _ [rep]); simpl; try done; [by rewrite Hpc| | |apply Hi].
    + intros x Hx. rewrite lookup_insert_ne; [done|]. set_solver.
    + rewrite lookup_insert_eq. split; [done|by eexists].
  - destruct Hown as [-> [e He]]. rewrite He. eexists. split; [done|].
    apply (inv_own s l os t th [rep] Hi Ht Ho Hti PIdle _ _ []); simpl; try done; [by rewrite Hpc| |set_solver|intros _; constructor|apply Hi].
    intros x Hx. rewrite lookup_delete_ne; [done|]. set_solver.
  - eexists. split; [done|]. apply (inv_release s l os t th o); try done. by rewrite Hpc.
  - apply Hacq; done.
  - subst o. eexists. split; [done|]. unfold goto, set_list. simpl. change [] with (sq_rows (heap s) []) at 1.
    apply (inv_table s l os t th [] Hi Ht Ho Hti (ClrFree (route_list s)) _ _ [] l); try done; [by rewrite Hpc|apply Hi| |set_solver|apply Hi].
    by rewrite app_nil_r.
  - destruct rep as [rep|].
    + destruct o as [|x o]; [done|]. destruct Hown as [[= ->] (e & He & Hch)]. rewrite He. eexists. split; [done|].
      destruct (owned_nodup s l os t _ Hi Ho) as [[Hx _]%NoDup_cons _].
      apply (inv_own s l os t th (x :: o) Hi Ht Ho Hti (ClrFree (re_next e)) _ _ o); simpl; try done; [by rewrite Hpc| |set_solver| | |apply Hi].
      * intros y Hy. rewrite lookup_delete_ne; [done|]. set_solver.
      * by intros [_ Hnd]%NoDup_cons.
      * revert Hch. apply seq_chain_frame. intros y Hy. rewrite lookup_delete_ne; [done|]. intros ->. done.
    + eexists. split; [done|]. destruct o; [|by destruct Hown]. apply (inv_release s l os t th []); try done. by rewrite Hpc.
Qed.

(** ** Runs *)

Lemma seq_start_inv n : Inv (start n).
Proof.
  exists [], (replicate n []).
  assert (Hidle : forall t th, threads (start n) !! t = Some th -> th = mkThread PIdle seq_init)
    by (intros t th Ht; by apply lookup_replicate in Ht as [-> _]).
  assert (Hnil : forall t (o : list nat), replicate n [] !! t = Some o -> o = []) by (intros t o Ho; by apply lookup_replicate in Ho as [-> _]).
  constructor; simpl; try done; try set_solver.
  - by rewrite !length_replicate.
  - intros t th o Ht%Hidle Ho%Hnil. subst. by constructor.
  - replace (concat (replicate n [])) with (@nil nat); [constructor|]. clear. by induction n.
  - rewrite init_held. clear. induction n as [|n IH]; [done|]. simpl. by rewrite IH.
Qed.

Lemma call_inv s l os t p m g : Inv_at s l os -> threads s !! t = Some (mkThread PIdle g) ->
  in_section p = false -> count p = None -> (forall l, claim m l p) ->
  forall o', (forall x, x ∈ o' -> heap s !! x = None) -> NoDup o' -> owned m (route_list s) p o' ->
  (forall x, is_Some (heap s !! x) -> m !! x = heap s !! x) ->
  Inv (goto t p g (set_heap m s)).
Proof.
  intros Hi Ht Hp Hc Hcl o' Ho' Hnd Hown Hm. destruct (thread_list s l os t _ Hi Ht) as (o & Ho & Hti).
  pose proof (ti_owned _ _ _ _ Hti) as Hnil. simpl in Hnil. subst o.
  unshelve eapply (seq_inv_quiet s _ l os t _ (mkThread p g) [] Hi Ht Ho _ o'); simpl; try done; try apply Hi.
  - change g with (seen (mkThread PIdle g)). apply (writer_thread s _ l _ []); try done. by left.
  - intros x Hx _. by apply Hm.
  - intros x Hx. right. by apply Ho'.
Qed.

Lemma seq_step_inv c s s' : Inv s -> step c s = Some s' -> Inv s'.
Proof.
  intros (l & os & Hi). assert (Hs : Inv s) by by exists l, os. unfold step. destruct (mem_ok c s) eqn:Hmem; [|by intros [= <-]].
  destruct c as [t k|t mem ad interface|t k|t|t]; (destruct (threads s !! t) as [[p g]|] eqn:Ht; [|by intros [= <-]]).
  5: { unfold thread_step. destruct (is_lookup (pc (mkThread p g))) eqn:Hlk.
    - by eapply lookup_inv.
    - destruct (writer_inv s l os t _ Hi Ht Hlk) as (s1 & -> & Hs1). by intros [= <-]. }
  all: destruct p; try by intros [= <-].
  - intros [= <-]. apply (inv_walk s l os t _ (LBegin k) g (answers s) Hi Ht); auto; try done. apply Hi.
  - destruct mem as [rep|]; [|by intros [= <-]]. intros [= <-]. simpl in Hmem. apply bool_decide_eq_true in Hmem.
    apply (call_inv s l os t (AddLock rep ad interface) _ g Hi Ht) with (o' := [rep]); try done.
    + by intros x ->%list_elem_of_singleton.
    + apply NoDup_singleton.
    + simpl. split; [done|]. eexists. by rewrite lookup_insert_eq.
    + intros x [e He]. rewrite lookup_insert_ne; [done|]. intros ->. congruence.
  - intros [= <-]. apply (call_inv s l os t (DelLock k) (heap s) g Hi Ht) with (o' := []); try done; [set_solver|constructor].
  - intros [= <-]. apply (call_inv s l os t ClrLock (heap s) g Hi Ht) with (o' := []); try done; [set_solver|constructor].
Qed.

Lemma store_link_lock repp p M s s' : store_link repp p M s = Some s' -> sl s' = sl s.
Proof. destruct repp; simpl; [destruct (heap s !! _); [|done]|]; by intros [= <-]. Qed.

(** The lock's count only grows. *)
Lemma step_writes c s s' : Inv s -> step c s = Some s' -> (writes (sl s) <= writes (sl s'))%nat.
Proof.
  intros (l & os & Hi). unfold step. destruct (mem_ok c s); [|by intros [= <-]].
  destruct c as [t k|t mem ad interface|t k|t|t]; (destruct (threads s !! t) as [th|] eqn:Ht; [|by intros [= <-]]).
  1-4: destruct th as [[] g]; try (by intros [= <-]). by destruct mem; intros [= <-].
  pose proof (in_section_held s l os Hi t th Ht) as Hin.
  assert (Hlock : held (sl s) = false -> (writes (sl s) <= writes (write_seqlock (sl s)))%nat) by (intros Hh; destruct (lock_law _ Hh); lia).
  assert (Hunlock : held (sl s) = true -> (writes (sl s) <= writes (write_sequnlock (sl s)))%nat) by (intros Hh; destruct (unlock_law _ Hh); lia).
  unfold thread_step, lookup_step, writer_step. destruct (pc th) eqn:Hpc; cbn [is_lookup in_section] in *; intros Hst; 
    repeat (case_match; try done); simplify_eq/=; auto.
  match goal with H : store_link _ _ _ _ = Some _ |- _ => apply store_link_lock in H; by rewrite H end.
Qed.

Lemma seq_run_inv acts : forall s s', Inv s -> run acts s = Some s' -> Inv s'.
Proof.
  induction acts as [|c acts IH]; intros s s' Hs; cbn [run]; [by intros [= <-]|].
  destruct (step c s) as [s1|] eqn:Hst; [|done]. apply IH. by eapply seq_step_inv.
Qed.

(** An access that fails is one of a lookup that a writer overtook. *)
Lemma failed_step s t : Inv s -> step (AStep t) s = None ->
  exists th, threads s !! t = Some th /\ is_lookup (pc th) = true /\
    ((writes (seen th) < writes (sl s))%nat \/ held (sl s) = true).
Proof.
  intros (l & os & Hi) Hst. cbn [step mem_ok] in Hst. destruct (threads s !! t) as [th|] eqn:Ht; [|done].
  exists th. split; [done|]. unfold thread_step in Hst. destruct (is_lookup (pc th)) eqn:Hlk.
  2: { destruct (writer_inv s l os t th Hi Ht Hlk) as (s' & Hs' & _). congruence. }
  split; [done|]. destruct (thread_list s l os t th Hi Ht) as (o & Ho & Hti).
  destruct (held (sl s)) eqn:Hh; [by right|]. left. pose proof (ti_seen _ _ _ _ Hti).
  destruct (decide (writes (sl s) = writes (seen th))) as [Hw|Hw]; [|lia]. exfalso.
  pose proof (lookup_claims s l os th o Hi Hti (ti_claim _ _ _ _ Hti (or_intror (conj Hw Hh)))) as Hcl.
  unfold lookup_step in Hst. destruct (pc th) eqn:Hpc; try done.
  - destruct Hcl as (rep' & Hrep & _). by rewrite Hrep in Hst.
  - destruct Hcl as (e & He & _). by rewrite He in Hst.
  - destruct Hcl as (e & He & Hfr & _). by rewrite He, Hfr in Hst.
  - destruct Hcl as (e & He & _). by rewrite He in Hst.
  - by destruct (read_seqretry (sl s) s0).
Qed.
End invariant.

(** * A lookup alone *)

Section alone.
Context {G : Type} {SO : SeqOps G} {SL : SeqLaws G}.
Implicit Types (s : State G).

Lemma run_app_ok (l1 l2 : list Act) : forall s s1, run l1 s = Some s1 -> run (l1 ++ l2) s = run l2 s1.
Proof.
  induction l1 as [|c l1 IH]; intros s s1; cbn [run app]; [by intros [= <-]|]. destruct (step c s); [apply IH|done].
Qed.

Lemma step_alone t th s : threads s !! t = Some th -> is_lookup (pc th) = true -> step (AStep t) s = lookup_step t th s.
Proof. intros Ht Hlk. cbn [step mem_ok]. rewrite Ht. unfold thread_step. by rewrite Hlk. Qed.

Lemma goto_length t p g s : length (threads (goto t p g s)) = length (threads s).
Proof. apply length_insert. Qed.

Lemma step_goto t p g s : (t < length (threads s))%nat -> is_lookup p = true ->
  step (AStep t) (goto t p g s) = lookup_step t (mkThread p g) (goto t p g s).
Proof. intros Ht Hp. apply step_alone; [|done]. simpl. by rewrite list_lookup_insert_eq. Qed.

Lemma load_link_goto repp t p g s : load_link repp (goto t p g s) = load_link repp s.
Proof. by destruct repp. Qed.

Lemma heap_goto t p g s : heap (goto t p g s) = heap s.
Proof. done. Qed.

(** From the loop on, with the entries [post] left. *)
Lemma walk_alone t k c g post : forall s pre, (t < length (threads s))%nat ->
  chain re_next (heap s) (route_list s) (pre ++ post) ->
  (forall x e, x ∈ pre ++ post -> heap s !! x = Some e -> re_freed e = false) ->
  skipped (heap s) k pre -> tbl s = sq_rows (heap s) (pre ++ post) -> read_seqretry (sl s) c = false ->
  exists m s', run (replicate m (AStep t)) (goto t (LNext k c (last pre)) g s) = Some s' /\
    answers s' = answers s ++ [(k, table_lookup k (tbl s), tbl s)] /\ threads s' = <[t := mkThread PIdle g]> (threads s).
Proof.
  induction post as [|x post IH]; intros s pre Ht Hc Hlive Hs Htbl Hr.
  - destruct (load_link_pos s pre [] Hc) as [Hload _].
    exists 2%nat. eexists. split.
    + cbn [run replicate]. rewrite step_goto by done. cbn [lookup_step pc].
      rewrite load_link_goto, Hload. cbn [head].
      rewrite step_goto by (rewrite ?goto_length; done). cbn [lookup_step pc seen goto sl]. by rewrite Hr.
    + simpl. rewrite Htbl, skips_lookup by done. by rewrite !list_insert_insert_eq.
  - destruct (load_link_pos s pre _ Hc) as [Hload _]. destruct (seq_chain_next _ _ _ _ _ _ Hc) as (e & He & _).
    assert (Hfr : re_freed e = false) by (eapply (Hlive x); [set_solver|done]).
    set (s1 := goto t (LAddr k c x) g (goto t (LNext k c (last pre)) g s)).
    set (s2 := goto t (if addr e =? k then LFreed k c x else LNext k c (Some x)) g s1).
    assert (H1 : run (replicate 2 (AStep t)) (goto t (LNext k c (last pre)) g s) = Some s2).
    { cbn [run replicate]. rewrite step_goto by done. cbn [lookup_step pc].
      rewrite load_link_goto, Hload. cbn [head seen].
      rewrite step_goto by (rewrite ?goto_length; done). cbn [lookup_step pc seen].
      rewrite !heap_goto, He. done. }
    subst s2 s1. destruct (Z.eqb_spec (addr e) k) as [Hk|Hk].
    + exists (2 + 3)%nat. rewrite replicate_add, (run_app_ok _ _ _ _ H1). eexists. split.
      * cbn [run replicate]. rewrite step_goto by (rewrite ?goto_length; done). cbn [lookup_step pc seen].
        rewrite !heap_goto, He, Hfr.
        rewrite step_goto by (rewrite ?goto_length; done). cbn [lookup_step pc seen].
        rewrite !heap_goto, He.
        rewrite step_goto by (rewrite ?goto_length; done). cbn [lookup_step pc seen goto sl]. by rewrite Hr.
      * simpl. rewrite !list_insert_insert_eq. split; [|done]. rewrite Htbl, skips_lookup, (rows_of_cons _ _ e) by done.
        cbn [table_lookup]. by rewrite Hk, Z.eqb_refl.
    + destruct (IH s (pre ++ [x])) as (m & s' & Hrun & Ha & Hth); try done.
      * by rewrite <-app_assoc.
      * intros y ey. rewrite <-app_assoc. apply Hlive.
      * by eapply skips_snoc.
      * by rewrite <-app_assoc.
      * exists (2 + m)%nat, s'. rewrite replicate_add, (run_app_ok _ _ _ _ H1). rewrite last_snoc in Hrun. split; [|done].
        match goal with |- run _ ?a = _ => replace a with (goto t (LNext k c (Some x)) g s) end; [done|]. unfold goto. simpl. by rewrite !list_insert_insert_eq.
Qed.
End alone.

(** When no writer is in its section, a lookup that runs alone returns, with what the table holds. *)
Theorem lone_lookup_returns {G} {SO : SeqOps G} {SL : SeqLaws G} n acts s t k g :
  run acts (start n) = Some s -> held (sl s) = false -> threads s !! t = Some (mkThread (LBegin k) g) ->
  exists m s', run (replicate m (AStep t)) s = Some s' /\
    answers s' = answers s ++ [(k, table_lookup k (tbl s), tbl s)] /\ threads s' !! t = Some (mkThread PIdle (sl s)).
Proof.
  intros Hr Hh Ht. assert (Hs : Inv s) by (eapply seq_run_inv; [apply seq_start_inv|done]). destruct Hs as (l & os & Hi).
  destruct (begin_free (sl s) Hh) as (c & Hb & Hretry). pose proof (lookup_lt_Some _ _ _ Ht) as Hlt.
  destruct (walk_alone t k c (sl s) l s []) as (m & s' & Hrun & Ha & Hth); try done; try apply Hi; [constructor|].
  exists (S m), s'. split_and!; [|done|by rewrite Hth, list_lookup_insert_eq].
  cbn [run replicate]. rewrite (step_alone _ _ _ Ht) by done. cbn [lookup_step pc]. by rewrite Hb.
Qed.

Lemma lone_lookup_returns_witness :
  exists s, run [AAdd 0 (Some 1%nat) 5 50; AStep 0; AStep 0; AStep 0; AStep 0; ALookup 1 5] (start (G := nat) 2) = Some s /\
  exists m s', run (replicate m (AStep 1)) s = Some s' /\ answers s' = [(5, 50, [(5, 50)])].
Proof.
  wz_eval. match goal with |- exists m s', run _ ?x = _ /\ _ => set (s0 := x) end.
  destruct (lone_lookup_returns 2 [AAdd 0 (Some 1%nat) 5 50; AStep 0; AStep 0; AStep 0; AStep 0; ALookup 1 5] s0 1 5 0%nat) as (m & s' & H1 & H2 & _);
    [vm_compute; reflexivity|reflexivity|reflexivity|]. exists m, s'. split; [exact H1|exact H2].
Defined.

(** C13: in every run of any number of threads, a lookup of the table under a sequence lock returns
    what the table holds at that moment and a deletion reports whether there was a route; the list in memory is the
    table, none of its entries freed, also within the section of a writer; writers never fail, and an
    access to freed memory or the [abort] happens only to a lookup that a writer overtook. *)
Theorem seqlock_lookups_agree {G} {SO : SeqOps G} {SL : SeqLaws G} n acts s :
  run acts (start n) = Some s -> Z.of_nat (writes (sl s)) < 2 ^ 32 ->
  (forall k r M, (k, r, M) ∈ answers s -> r = table_lookup k M) /\
  (forall k r M, (k, r, M) ∈ dels s -> r = if bool_decide (k ∈ M.*1) then 0 else - ENOENT) /\
  (exists l, chain re_next (heap s) (route_list s) l /\ NoDup l /\ tbl s = sq_rows (heap s) l /\
    forall x e, x ∈ l -> heap s !! x = Some e -> re_freed e = false) /\
  (forall t, step (AStep t) s = None -> exists th, threads s !! t = Some th /\ is_lookup (pc th) = true /\
    ((writes (seen th) < writes (sl s))%nat \/ held (sl s) = true)).
Proof.
  intros Hr Hb. assert (Hs : Inv s) by (eapply seq_run_inv; [apply seq_start_inv|done]).
  split_and!; [| | |intros t; by apply failed_step]; destruct Hs as (l & os & Hi).
  - by apply (i_answers _ _ _ Hi).
  - apply Hi.
  - exists l. split_and!; try apply Hi. pose proof (i_nodup _ _ _ Hi) as Hnd. by apply NoDup_app in Hnd as [? _].
Qed.

Definition demo : list Act :=
  [AAdd 0 (Some 1%nat) 5 50; AStep 0; AStep 0; AStep 0; AStep 0; ALookup 1 5; AStep 1; AStep 1;
   AAdd 0 (Some 2%nat) 5 51; AStep 0; AStep 1; AStep 1; AStep 1; AStep 0; AStep 0; AStep 0; AStep 1;
   AStep 1; AStep 1; AStep 1; AStep 1; AStep 1; AStep 1; ADel 0 5; AStep 0; AStep 0; AStep 0; AStep 0; AStep 0].

(** A lookup that a writer overtakes and that begins again, and a deletion. *)
Lemma seqlock_lookups_agree_witness : exists s, run demo (start (G := nat) 2) = Some s /\
  answers s = [(5, 51, [(5, 51); (5, 50)])] /\ dels s = [(5, 0, [(5, 51); (5, 50)])] /\ tbl s = [(5, 50)] /\
  (forall k r M, (k, r, M) ∈ answers s -> r = table_lookup k M).
Proof.
  wz_eval. split_and!; [reflexivity..|]. refine (proj1 (seqlock_lookups_agree 2 demo _ _ _)); [vm_cast_no_check (eq_refl (run demo (start (G := nat) 2)))|done].
Defined.

(** The entry a lookup has just loaded is deleted: it reads freed memory. *)
Lemma lookup_reads_freed : exists s,
  run [AAdd 0 (Some 1%nat) 5 50; AStep 0; AStep 0; AStep 0; AStep 0; ALookup 1 5; AStep 1; AStep 1;
       ADel 0 5; AStep 0; AStep 0; AStep 0; AStep 0; AStep 0] (start (G := nat) 2) = Some s /\
  pc <$> threads s !! 1%nat = Some (LAddr 5 2 1) /\ step (AStep 1) s = None.
Proof. wz_eval. done. Qed.
