(* ===== verification/RouteRefcnt.v ===== *)
(** The routing table of src/main/route_refcnt.c, a singly linked list whose entries are freed when
    their reference count reaches 0.

    Every access to shared memory is a step. The atomic operations and the spinlock, whose headers are
    not in the repository, do what their names say: [atomic_cmpxchg] is strong, the count an
    [int], and [locked] the state of the spinlock. Lookups release an entry before they load its
    [re_next], and read an entry before they have a reference to it, so that they can meet freed
    memory ([lookup_uses_freed]): [None] is that, the [abort] of [route_lookup], or an overflow of the
    count. *)
From S2P Require Import Prelude RouteRcu RouteTable.
Open Scope wizard_scope.

Record route_entry := mkEntry { re_refcnt : Z; re_next : option nat; addr : Z; iface : Z; re_freed : bool }.

Definition set_refcnt (n : Z) (e : route_entry) : route_entry := mkEntry n (re_next e) (addr e) (iface e) (re_freed e).

(** Where a thread is, with its locals; [repp] is the entry whose [re_next] is loaded, [None] for
    [route_list]'s. In [route_lookup] before the load of [*repp], of [re_freed], of the count, the
    compare-exchange, the loads of [addr] and [iface], and the return; in [route_add] before the lock
    and the three stores; in [route_del] before the lock and a turn of the loop; in [route_clear]
    before the lock, the store and a turn of the loop. Then, with what comes afterwards: before
    [spin_unlock], [atomic_dec_and_test], and the two lines of [re_free]. *)
Inductive PC :=
  | PIdle
  | LLoad (k : Z) (repp : option nat) | LChk (k : Z) (rep : nat) | LRead (k : Z) (rep : nat)
  | LCas (k : Z) (rep : nat) (old : Z) | LAddr (k : Z) (rep : nat) | LIface (k : Z) (rep : nat) | LRet (k ret : Z)
  | AddLock (rep : nat) (ad interface : Z) | AddNext (rep : nat) (ad interface : Z)
  | AddFreed (rep : nat) (ad interface : Z) | AddHead (rep : nat) (ad interface : Z)
  | DelLock (k : Z) | DelLoad (k : Z) (repp : option nat)
  | ClrLock | ClrHead | ClrNext (rep : option nat)
  | Unlock (cont : PC) | Put (rep : nat) (cont : PC) | Mark (rep : nat) (cont : PC) | Free (rep : nat) (cont : PC).

(** [tbl], [answers] and [dels] are histories: the table, what lookups returned, and what deletions did
    with the table at that moment. *)
Record State := mkState {
  heap : gmap nat route_entry;
  route_list : option nat;
  locked : bool;
  threads : list PC;
  tbl : list (Z * Z);
  answers : list (Z * Z);
  dels : list (Z * Z * list (Z * Z))
}.

Definition start (n : nat) : State := mkState ∅ None false (replicate n PIdle) [] [] [].

Definition goto (t : nat) (p : PC) (s : State) : State :=
  mkState (heap s) (route_list s) (locked s) (<[t := p]> (threads s)) (tbl s) (answers s) (dels s).

Definition set_heap (m : gmap nat route_entry) (s : State) : State :=
  mkState m (route_list s) (locked s) (threads s) (tbl s) (answers s) (dels s).

Definition set_locked (b : bool) (s : State) : State :=
  mkState (heap s) (route_list s) b (threads s) (tbl s) (answers s) (dels s).

(** A store to [route_list.re_next], and the table afterwards. *)
Definition set_list (p : option nat) (M : list (Z * Z)) (s : State) : State :=
  mkState (heap s) p (locked s) (threads s) M (answers s) (dels s).

Definition log_del (k ret : Z) (s : State) : State :=
  mkState (heap s) (route_list s) (locked s) (threads s) (tbl s) (answers s) (dels s ++ [(k, ret, tbl s)]).

(** [*repp] *)
Definition load_link (repp : option nat) (s : State) : option (option nat) :=
  match repp with None => Some (route_list s) | Some x => e <-? heap s !! x; Some (re_next e) end.

(** [*repp = p], by [route_del]. *)
Definition store_link (repp p : option nat) (M : list (Z * Z)) (s : State) : option State :=
  match repp with
  | None => Some (set_list p M s)
  | Some x =>
      e <-? heap s !! x;
      Some (set_list (route_list s) M (set_heap (<[x := mkEntry (re_refcnt e) p (addr e) (iface e) (re_freed e)]> (heap s)) s))
  end.

(** An access of thread [t]; at the lock a writer waits. *)
Definition thread_step (t : nat) (p : PC) (s : State) : option State :=
  let acquire p := Some (if locked s then s else goto t p (set_locked true s)) in
  match p with
  | PIdle => Some s
  | LLoad k repp =>
      rep <-? load_link repp s;
      Some (goto t (match rep with None => LRet k ULONG_MAX | Some rep => LChk k rep end) s)
  | LChk k rep => e <-? heap s !! rep; if re_freed e then None else Some (goto t (LRead k rep) s)
  | LRead k rep =>
      e <-? heap s !! rep;
      Some (goto t (if re_refcnt e <=? 0 then LLoad k None else LCas k rep (re_refcnt e)) s)
  | LCas k rep old =>
      guard (old + 1 <? 2 ^ 31);
      e <-? heap s !! rep;
      if re_refcnt e =? old then Some (goto t (LAddr k rep) (set_heap (<[rep := set_refcnt (old + 1) e]> (heap s)) s))
      else Some (goto t (LChk k rep) s)
  | LAddr k rep =>
      e <-? heap s !! rep;
      Some (goto t (if addr e =? k then LIface k rep else Put rep (LLoad k (Some rep))) s)
  | LIface k rep => e <-? heap s !! rep; Some (goto t (Put rep (LRet k (iface e))) s)
  | LRet k ret =>
      Some (mkState (heap s) (route_list s) (locked s) (<[t := PIdle]> (threads s)) (tbl s) (answers s ++ [(k, ret)]) (dels s))
  | AddLock rep ad interface => acquire (AddNext rep ad interface)
  | AddNext rep ad interface =>
      e <-? heap s !! rep;
      Some (goto t (AddFreed rep ad interface)
        (set_heap (<[rep := mkEntry (re_refcnt e) (route_list s) (addr e) (iface e) (re_freed e)]> (heap s)) s))
  | AddFreed rep ad interface =>
      e <-? heap s !! rep;
      Some (goto t (AddHead rep ad interface)
        (set_heap (<[rep := mkEntry (re_refcnt e) (re_next e) (addr e) (iface e) false]> (heap s)) s))
  | AddHead rep ad interface => Some (goto t (Unlock PIdle) (set_list (Some rep) ((ad, interface) :: tbl s) s))
  | DelLock k => acquire (DelLoad k None)
  | DelLoad k repp =>
      rep <-? load_link repp s;
      match rep with
      | None => Some (goto t (Unlock PIdle) (log_del k (- ENOENT) s))
      | Some rep =>
          e <-? heap s !! rep;
          if addr e =? k then
            s <-? store_link repp (re_next e) (table_del k (tbl s)) (log_del k 0 s);
            Some (goto t (Unlock (Put rep PIdle)) s)
          else Some (goto t (DelLoad k (Some rep)) s)
      end
  | ClrLock => acquire ClrHead
  | ClrHead => Some (goto t (ClrNext (route_list s)) (set_list None [] s))
  | ClrNext None => Some (goto t (Unlock PIdle) s)
  | ClrNext (Some rep) => e <-? heap s !! rep; Some (goto t (Put rep (ClrNext (re_next e))) s)
  | Unlock cont => Some (goto t cont (set_locked false s))
  | Put rep cont =>
      e <-? heap s !! rep;
      let n := i32 (re_refcnt e - 1) in
      Some (goto t (if n =? 0 then Mark rep cont else cont) (set_heap (<[rep := set_refcnt n e]> (heap s)) s))
  | Mark rep cont =>
      e <-? heap s !! rep;
      Some (goto t (Free rep cont)
        (set_heap (<[rep := mkEntry (re_refcnt e) (re_next e) (addr e) (iface e) true]> (heap s)) s))
  | Free rep cont => _ <-? heap s !! rep; Some (goto t cont (set_heap (delete rep (heap s)) s))
  end.

(** [route_add] up to the lock; [mem] is what [malloc] returns, with what the memory holds. *)
Definition route_add (t : nat) (mem : option (nat * route_entry)) (ad interface : Z) (s : State) : Z * State :=
  match mem with
  | None => (- ENOMEM, s)
  | Some (rep, junk) =>
      (0, goto t (AddLock rep ad interface) (set_heap (<[rep := mkEntry 1 (re_next junk) ad interface (re_freed junk)]> (heap s)) s))
  end.

Inductive Act :=
  | ALookup (t : nat) (k : Z) | AAdd (t : nat) (mem : option (nat * route_entry)) (ad interface : Z) | ADel (t : nat) (k : Z)
  | AClear (t : nat) | AStep (t : nat).

(** [malloc] returns memory not in use. *)
Definition mem_ok (c : Act) (s : State) : bool :=
  match c with AAdd _ (Some (rep, _)) _ _ => bool_decide (heap s !! rep = None) | _ => true end.

(** A thread makes one call at a time. *)
Definition step (c : Act) (s : State) : option State :=
  let call t s' := match threads s !! t with Some PIdle => Some s' | _ => Some s end in
  if mem_ok c s then
    match c with
    | ALookup t k => call t (goto t (LLoad k None) s)
    | AAdd t mem ad interface => call t (snd (route_add t mem ad interface s))
    | ADel t k => call t (goto t (DelLock k) s)
    | AClear t => call t (goto t ClrLock s)
    | AStep t => match threads s !! t with Some p => thread_step t p s | None => Some s end
    end
  else Some s.

Fixpoint run (l : list Act) (s : State) : option State :=
  match l with [] => Some s | c :: l => s <-? step c s; run l s end.
Close Scope wizard_scope.

(** * References *)

(** Entries the thread has a reference to, besides those in its list of owned entries. *)
Fixpoint holds (p : PC) (x : nat) : Z :=
  match p with
  | LAddr _ rep | LIface _ rep => ind (rep = x)
  | Put rep cont => ind (rep = x) + holds cont x
  | Unlock cont | Mark _ cont | Free _ cont => holds cont x
  | _ => 0
  end.

(** It is about to free [x]. *)
Fixpoint frees (p : PC) (x : nat) : Z :=
  match p with
  | Mark rep cont | Free rep cont => ind (rep = x) + frees cont x
  | Unlock cont | Put _ cont => frees cont x
  | _ => 0
  end.

(** What a count is to be: 1 for the table or the call that adds or clears the entry ([L]), and 1 for
    every reference of a thread. *)
Definition refs (L : list nat) (ths : list PC) (x : nat) : Z := ind (x ∈ L) + total (fun p => holds p x) ths.

Definition freers (ths : list PC) (x : nat) : Z := total (fun p => frees p x) ths.

(** A count [c], [r] references and [f] threads that free the entry: an entry without references is
    freed by one thread, one with references by none. *)
Definition count_ok (c : option Z) (r f : Z) : Prop :=
  match c with Some z => z = r /\ r < 2 ^ 31 /\ f = ind (r = 0) | None => r = 0 /\ f = 0 end.

Definition counts (m : gmap nat route_entry) (L : list nat) (ths : list PC) : Prop :=
  forall x, count_ok (re_refcnt <$> m !! x) (refs L ths x) (freers ths x).

Lemma holds_nonneg p x : 0 <= holds p x.
Proof. induction p; simpl; try (pose proof (ind_range (rep = x))); lia. Qed.

Lemma frees_nonneg p x : 0 <= frees p x.
Proof. induction p; simpl; try (pose proof (ind_range (rep = x))); lia. Qed.

Lemma refs_bound L ths t p x : ths !! t = Some p -> ind (x ∈ L) + holds p x <= refs L ths x.
Proof.
  intros Ht. unfold refs. pose proof (total_elem (fun p => holds p x) ths p ltac:(intros; apply holds_nonneg)
    ltac:(by eapply list_elem_of_lookup_2)). simpl in *. lia.
Qed.

Lemma freers_bound ths t p x : ths !! t = Some p -> frees p x <= freers ths x.
Proof.
  intros Ht. apply (total_elem (fun p => frees p x)); [intros; apply frees_nonneg|by eapply list_elem_of_lookup_2].
Qed.

(** One thread moves, and its list of entries with it. *)
Lemma counts_step m m' L L' ths t p p' : counts m L ths -> ths !! t = Some p ->
  (forall x r f, count_ok (re_refcnt <$> m !! x) r f -> ind (x ∈ L) + holds p x <= r -> frees p x <= f ->
    count_ok (re_refcnt <$> m' !! x) (r - ind (x ∈ L) - holds p x + ind (x ∈ L') + holds p' x) (f - frees p x + frees p' x)) ->
  counts m' L' (<[t := p']> ths).
Proof.
  intros Hc Ht Hstep x. specialize (Hstep x _ _ (Hc x) (refs_bound L ths t p x Ht) (freers_bound ths t p x Ht)).
  unfold refs, freers in *. rewrite !(total_insert _ ths t p p') by done.
  match goal with H : count_ok _ ?a ?b |- count_ok _ ?c ?d => replace c with a by lia; replace d with b by lia end. done.
Qed.

(** An entry with a reference is there, and its count is that of the references. *)
Lemma counts_present m L ths x : counts m L ths -> 1 <= refs L ths x -> exists e, m !! x = Some e /\ re_refcnt e = refs L ths x /\
  refs L ths x < 2 ^ 31 /\ freers ths x = 0.
Proof.
  intros Hc Hr. specialize (Hc x). destruct (m !! x) as [e|]; simpl in Hc; [|lia]. exists e. split; [done|].
  destruct Hc as (-> & ? & ->). split_and!; [done..|]. apply ind_false. lia.
Qed.

Lemma counts_owned m L ths x : counts m L ths -> x ∈ L -> exists e, m !! x = Some e /\ freers ths x = 0.
Proof.
  intros Hc Hx. destruct (counts_present m L ths x Hc) as (e & He & _ & _ & Hf); [|by exists e].
  unfold refs. rewrite ind_true by done. pose proof (total_nonneg (fun p => holds p x) ths ltac:(intros; apply holds_nonneg)). lia.
Qed.

(** * The invariant *)

Definition body (e : route_entry) : option nat * Z * Z * bool := (re_next e, addr e, iface e, re_freed e).

#[local] Notation "'rows'" := (rows_of addr iface).
#[local] Notation "'skipped'" := (skips addr).

Fixpoint in_section (p : PC) : bool :=
  match p with
  | AddNext _ _ _ | AddFreed _ _ _ | AddHead _ _ _ | DelLoad _ _ | ClrHead | ClrNext _ | Unlock _ => true
  | Put _ cont | Mark _ cont | Free _ cont => in_section cont
  | _ => false
  end.

(** What may come after an unlock, or a reference that was released. *)
Definition cont_ok (p : PC) : bool :=
  match p with PIdle | LLoad _ _ | LRet _ _ | ClrNext _ => true | _ => false end.

Definition unlock_ok (p : PC) : bool := match p with PIdle | Put _ PIdle => true | _ => false end.

(** The entries [o] a thread owns, and what it knows of the table [l]. *)
Fixpoint thread_ok (m : gmap nat route_entry) (h : option nat) (l o : list nat) (p : PC) : Prop :=
  match p with
  | LCas _ _ old => o = [] /\ 0 < old
  | AddLock rep ad interface | AddNext rep ad interface =>
      o = [rep] /\ exists e, m !! rep = Some e /\ addr e = ad /\ iface e = interface
  | AddFreed rep ad interface => o = [rep] /\ exists e, m !! rep = Some e /\ addr e = ad /\ iface e = interface /\ re_next e = h
  | AddHead rep ad interface => o = [rep] /\ exists e, m !! rep = Some e /\ body e = (h, ad, interface, false)
  | DelLoad k repp => o = [] /\ exists pre post, l = pre ++ post /\ repp = last pre /\ skipped m k pre
  | ClrNext rep => chain re_next m rep o
  | Unlock cont => unlock_ok cont = true /\ o = []
  | Put _ cont | Mark _ cont | Free _ cont => cont_ok cont = true /\ thread_ok m h l o cont
  | _ => o = []
  end.

Record Inv_at (s : State) (l : list nat) (os : list (list nat)) : Prop := {
  i_len : length os = length (threads s);
  i_threads : forall t p o, threads s !! t = Some p -> os !! t = Some o -> thread_ok (heap s) (route_list s) l o p;
  i_chain : chain re_next (heap s) (route_list s) l;
  i_nodup : NoDup (l ++ concat os);
  i_counts : counts (heap s) (l ++ concat os) (threads s);
  i_tbl : tbl s = rows (heap s) l;
  i_live : forall x e, x ∈ l -> heap s !! x = Some e -> re_freed e = false;
  i_mutex : total (fun p => ind (in_section p = true)) (threads s) = ind (locked s = true);
  i_dels : forall k r M, (k, r, M) ∈ dels s -> r = if bool_decide (k ∈ M.*1) then 0 else - ENOENT
}.

Definition Inv (s : State) : Prop := exists l os, Inv_at s l os.

(** ** What other threads know *)

Definition same_body (m m' : gmap nat route_entry) (x : nat) : Prop := body <$> m' !! x = body <$> m !! x.

Section frames.
Implicit Types (m : gmap nat route_entry) (l o : list nat) (p : PC).

Lemma same_body_entry m m' x e : same_body m m' x -> m !! x = Some e -> exists e', m' !! x = Some e' /\ body e' = body e.
Proof. unfold same_body. intros Hb He. rewrite He in Hb. destruct (m' !! x) as [e'|]; [|done]. apply (inj Some) in Hb. by exists e'. Qed.

Lemma same_body_f {A} (f : route_entry -> A) (g : option nat * Z * Z * bool -> A) m m' x :
  (forall e, f e = g (body e)) -> same_body m m' x -> f <$> m' !! x = f <$> m !! x.
Proof.
  unfold same_body. intros Hg Hb. destruct (m !! x) as [e|], (m' !! x) as [e'|]; simpl in *; try done. apply (inj Some) in Hb.
  f_equal. rewrite !Hg. by rewrite Hb.
Qed.

Lemma body_skips m m' k pre : (forall x, x ∈ pre -> same_body m m' x) -> skipped m k pre -> skipped m' k pre.
Proof. intros Hf. apply skips_ext. intros x Hx. apply (same_body_f addr (fun b => b.1.1.2)); [done|auto]. Qed.

Lemma body_chain m m' h l : (forall x, x ∈ l -> same_body m m' x) -> chain re_next m h l -> chain re_next m' h l.
Proof. intros Hf. apply chain_ext. intros x Hx. apply (same_body_f re_next (fun b => b.1.1.1)); [done|auto]. Qed.

Lemma body_rows m m' l : (forall x, x ∈ l -> same_body m m' x) -> rows m' l = rows m l.
Proof. intros Hf. apply rows_of_ext. intros x Hx. apply (same_body_f _ (fun b => (b.1.1.2, b.1.2))); [done|auto]. Qed.

Lemma ok_frame m m' h l o p : (forall x, x ∈ l \/ x ∈ o -> same_body m m' x) -> thread_ok m h l o p -> thread_ok m' h l o p.
Proof.
  intros Hf. induction p; cbn [thread_ok]; try done.
  1-4: intros [-> (e & He & H)]; split; [done|]; destruct (same_body_entry m m' rep e) as (e' & He' & Hb); [apply Hf; right; set_solver|done|];
    exists e'; split; [done|].
  1-3: unfold body in Hb; destruct_and?; injection Hb as ? ? ? ?; split_and?; congruence.
  - congruence.
  - intros [-> (pre & post & -> & -> & Hs)]. split; [done|]. exists pre, post. split_and!; [done..|]. revert Hs. apply body_skips.
    intros x Hx. apply Hf. left. set_solver.
  - apply body_chain. auto.
  - intros [? ?]. auto.
  - intros [? ?]. auto.
  - intros [? ?]. auto.
Qed.

Lemma ok_out m m' h h' l l' o p : in_section p = false -> (forall x, x ∈ o -> same_body m m' x) ->
  thread_ok m h l o p -> thread_ok m' h' l' o p.
Proof.
  induction p; cbn [thread_ok in_section]; try done; try (intros Hp Hf [? ?]; by auto).
  intros _ Hf Hok. by apply (ok_frame m m' h [] o (AddLock rep ad interface)); [set_solver|].
Qed.

Lemma concat_owner os u (o2 : list nat) x : os !! u = Some o2 -> x ∈ o2 -> x ∈ concat os.
Proof. intros Hu Hx. apply list_elem_of_In, in_concat. exists o2. rewrite <-!list_elem_of_In. split; [by eapply list_elem_of_lookup_2|done]. Qed.
End frames.

(** ** One thread's step *)

Section update.
Context (s s' : State) (l : list nat) (os : list (list nat)) (t : nat) (p p' : PC) (o : list nat).
Context (Hinv : Inv_at s l os) (Ht : threads s !! t = Some p) (Ho : os !! t = Some o)
  (Hths : threads s' = <[t := p']> (threads s)).

Lemma section_locked u q : threads s !! u = Some q -> in_section q = true -> locked s = true.
Proof.
  intros Hu Hin. pose proof (total_elem (fun p => ind (in_section p = true)) (threads s) q ltac:(intros; apply ind_range)
    ltac:(by eapply list_elem_of_lookup_2)) as Hle.
  rewrite (i_mutex _ _ _ Hinv), (ind_true (in_section q = true)) in Hle by done. unfold ind in Hle. case_decide; [done|lia].
Qed.

Lemma others_outside u q : in_section p = true -> u <> t -> threads s !! u = Some q -> in_section q = false.
Proof.
  intros Hin Hu Hq. destruct (in_section q) eqn:E; [|done].
  pose proof (total_two (fun p => ind (in_section p = true)) _ t u p q ltac:(intros; apply ind_range) ltac:(done) Ht Hq) as Hle.
  rewrite (i_mutex _ _ _ Hinv), !ind_true in Hle by done. pose proof (ind_range (locked s = true)). lia.
Qed.

(** The nodes besides the table's and the thread's own. *)
Lemma split_nodes : exists R, l ++ concat os ≡ₚ l ++ o ++ R /\ (forall o', concat (<[t := o']> os) ≡ₚ o' ++ R) /\ NoDup (l ++ o ++ R) /\
  forall u o2, u <> t -> os !! u = Some o2 -> o2 ⊆ R.
Proof.
  destruct (concat_insert os t o Ho) as (R & HR & HR' & Hsub). exists R. rewrite HR. split_and!; try done.
  rewrite <-HR. apply Hinv.
Qed.

Lemma rc_inv_update l' o' : thread_ok (heap s') (route_list s') l' o' p' ->
  (forall u q o2, u <> t -> threads s !! u = Some q -> os !! u = Some o2 ->
    thread_ok (heap s) (route_list s) l o2 q -> thread_ok (heap s') (route_list s') l' o2 q) ->
  chain re_next (heap s') (route_list s') l' ->
  (forall R, l ++ concat os ≡ₚ l ++ o ++ R -> NoDup (l ++ o ++ R) -> NoDup (l' ++ o' ++ R)) ->
  (forall R, l ++ concat os ≡ₚ l ++ o ++ R -> NoDup (l ++ o ++ R) -> forall x r f, count_ok (re_refcnt <$> heap s !! x) r f ->
    ind (x ∈ l ++ o ++ R) + holds p x <= r -> frees p x <= f ->
    count_ok (re_refcnt <$> heap s' !! x) (r - ind (x ∈ l ++ o ++ R) - holds p x + ind (x ∈ l' ++ o' ++ R) + holds p' x)
      (f - frees p x + frees p' x)) ->
  tbl s' = rows (heap s') l' ->
  (forall x e, x ∈ l' -> heap s' !! x = Some e -> re_freed e = false) ->
  ind (locked s' = true) = ind (locked s = true) - ind (in_section p = true) + ind (in_section p' = true) ->
  (forall k r M, (k, r, M) ∈ dels s' -> r = if bool_decide (k ∈ M.*1) then 0 else - ENOENT) ->
  Inv s'.
Proof.
  intros Hok Hoth Hch Hnd Hcnt Htbl Hlive Hm Hd. destruct split_nodes as (R & HR & HR' & HndR & _).
  exists l', (<[t := o']> os). constructor; try done.
  - rewrite Hths, !length_insert. apply Hinv.
  - rewrite Hths. intros u q o2 Hu Ho2. destruct (decide (u = t)) as [->|Hne].
    + rewrite list_lookup_insert_eq in Hu by (by eapply lookup_lt_Some). rewrite list_lookup_insert_eq in Ho2 by (by eapply lookup_lt_Some).
      by simplify_eq.
    + rewrite list_lookup_insert_ne in Hu by done. rewrite list_lookup_insert_ne in Ho2 by done.
      by eapply (Hoth u); [..|by eapply i_threads].
  - rewrite (HR' o'). by apply Hnd.
  - rewrite Hths. eapply counts_step; [apply Hinv|done|]. intros x r f Hc H1 H2. specialize (Hcnt R HR HndR x r f Hc).
    assert (E : ind (x ∈ l ++ concat os) = ind (x ∈ l ++ o ++ R)) by (apply ind_iff; by rewrite HR).
    rewrite E in *. rewrite (ind_iff (x ∈ l' ++ concat (<[t := o']> os)) (x ∈ l' ++ o' ++ R)) by (by rewrite (HR' o')). by apply Hcnt.
  - rewrite Hths, (total_insert _ _ t p), (i_mutex _ _ _ Hinv), Hm by done. lia.
Qed.

(** A step that does not change the table and changes the bodies of no entries but the
    thread's own. *)
Lemma rc_inv_quiet : thread_ok (heap s') (route_list s') l o p' ->
  route_list s' = route_list s -> tbl s' = tbl s ->
  (forall x, x ∈ l ++ concat os -> (x ∉ o) -> same_body (heap s) (heap s') x) ->
  (forall x r f, count_ok (re_refcnt <$> heap s !! x) r f -> ind (x ∈ o) + holds p x <= r -> frees p x <= f ->
    count_ok (re_refcnt <$> heap s' !! x) (r - holds p x + holds p' x) (f - frees p x + frees p' x)) ->
  ind (locked s' = true) = ind (locked s = true) - ind (in_section p = true) + ind (in_section p' = true) ->
  (forall k r M, (k, r, M) ∈ dels s' -> r = if bool_decide (k ∈ M.*1) then 0 else - ENOENT) ->
  Inv s'.
Proof.
  intros Hok Hh Htbl Hb Hcnt Hm Hd. destruct split_nodes as (R & HR & _ & Hnd & Hsub).
  rewrite !NoDup_app in Hnd. destruct Hnd as (_ & Hlo & _ & HoR & _).
  assert (Hl : forall x, x ∈ l -> same_body (heap s) (heap s') x).
  { intros x Hx. apply Hb; [set_solver|]. intros Hxo. apply (Hlo x Hx). set_solver. }
  apply (rc_inv_update l o); try done.
  - intros u q o2 Hu Hq Ho2. rewrite Hh. apply ok_frame. intros x [Hx|Hx]; [auto|]. apply Hb.
    + apply elem_of_app. right. by eapply concat_owner.
    + intros Hxo. apply (HoR x Hxo). by eapply Hsub.
  - rewrite Hh. generalize (i_chain _ _ _ Hinv). by apply body_chain.
  - intros R' _ _ x r f Hc H1 H2. replace (r - ind (x ∈ l ++ o ++ R') - holds p x + ind (x ∈ l ++ o ++ R') + holds p' x)
      with (r - holds p x + holds p' x) by lia. apply Hcnt; try done.
    assert (ind (x ∈ o) <= ind (x ∈ l ++ o ++ R')); [|lia]. destruct (decide (x ∈ o)).
    + rewrite !ind_true by set_solver. done.
    + rewrite ind_false by done. apply ind_range.
  - rewrite Htbl, (i_tbl _ _ _ Hinv). symmetry. by apply body_rows.
  - intros x e Hx He. specialize (Hl x Hx). unfold same_body in Hl. rewrite He in Hl. destruct (heap s !! x) as [e0|] eqn:He0; [|done].
    unfold body in Hl. injection Hl as _ _ _ Hl. rewrite (i_live _ _ _ Hinv x e0 Hx He0) in Hl. congruence.
Qed.

(** A step of the thread that holds the lock. *)
Lemma rc_inv_section l' o' : in_section p = true -> in_section p' = true ->
  thread_ok (heap s') (route_list s') l' o' p' ->
  (forall x, (x ∉ l) -> heap s' !! x = heap s !! x) -> (forall x, re_refcnt <$> heap s' !! x = re_refcnt <$> heap s !! x) ->
  chain re_next (heap s') (route_list s') l' ->
  (forall R, NoDup (l ++ o ++ R) -> NoDup (l' ++ o' ++ R)) ->
  (forall R x, NoDup (l ++ o ++ R) -> ind (x ∈ l' ++ o' ++ R) + holds p' x = ind (x ∈ l ++ o ++ R) + holds p x) ->
  (forall x, frees p' x = frees p x) ->
  tbl s' = rows (heap s') l' ->
  (forall x e, x ∈ l' -> heap s' !! x = Some e -> re_freed e = false) ->
  locked s' = locked s ->
  (forall k r M, (k, r, M) ∈ dels s' -> r = if bool_decide (k ∈ M.*1) then 0 else - ENOENT) ->
  Inv s'.
Proof.
  intros Hin Hin' Hok Hf Hcnt Hch Hnd Hrefs Hfr Htbl Hlive Hlk Hd. destruct split_nodes as (R & HR & _ & HndR & Hsub).
  apply (rc_inv_update l' o'); try done.
  - intros u q o2 Hu Hq Ho2. apply ok_out; [by eapply others_outside|]. intros x Hx. unfold same_body. rewrite Hf; [done|].
    intros Hxl. apply NoDup_app in HndR as (_ & HndR & _). apply (HndR x Hxl). apply elem_of_app. right. by eapply Hsub.
  - intros R' _. apply Hnd.
  - intros R' _ HR' x r f Hc H1 H2. rewrite Hcnt, Hfr. specialize (Hrefs R' x HR').
    replace (r - ind (x ∈ l ++ o ++ R') - holds p x + ind (x ∈ l' ++ o' ++ R') + holds p' x) with r by lia.
    by replace (f - frees p x + frees p x) with f by lia.
  - rewrite Hlk, Hin, Hin'. lia.
Qed.
End update.

Section steps.
Context (s : State) (l : list nat) (os : list (list nat)) (t : nat) (p : PC) (o : list nat).
Context (Hi : Inv_at s l os) (Ht : threads s !! t = Some p) (Ho : os !! t = Some o).

Lemma own_ok : thread_ok (heap s) (route_list s) l o p.
Proof. by eapply i_threads. Qed.

(** A step that changes no count and nothing another thread can see. *)
Lemma inv_silent p' A D : thread_ok (heap s) (route_list s) l o p' ->
  (forall x, holds p' x = holds p x) -> (forall x, frees p' x = frees p x) -> in_section p' = in_section p ->
  (forall k r M, (k, r, M) ∈ D -> r = if bool_decide (k ∈ M.*1) then 0 else - ENOENT) ->
  Inv (mkState (heap s) (route_list s) (locked s) (<[t := p']> (threads s)) (tbl s) A D).
Proof.
  intros Hok Hh Hf Hin HD. eapply (rc_inv_quiet s _ l os t p p' o Hi Ht Ho); simpl; try done.
  - intros x r f Hc _ _. rewrite Hh, Hf. replace (r - holds p x + holds p x) with r by lia. by replace (f - frees p x + frees p x) with f by lia.
  - rewrite Hin. lia.
Qed.

(** A step that changes the owned entries' bodies. *)
Lemma rc_inv_own p' rep e e' : o = [rep] -> heap s !! rep = Some e -> re_refcnt e' = re_refcnt e ->
  thread_ok (<[rep := e']> (heap s)) (route_list s) l o p' ->
  (forall x, holds p' x = holds p x) -> (forall x, frees p' x = frees p x) -> in_section p' = in_section p ->
  Inv (goto t p' (set_heap (<[rep := e']> (heap s)) s)).
Proof.
  intros Ho' He Hn Hok Hh Hf Hin. eapply (rc_inv_quiet s _ l os t p p' o Hi Ht Ho); simpl; try done.
  - intros x _ Hx. unfold same_body. rewrite lookup_insert_ne; [done|]. intros ->. apply Hx. rewrite Ho'. by left.
  - intros x r f Hc _ _. rewrite Hh, Hf. replace (r - holds p x + holds p x) with r by lia. replace (f - frees p x + frees p x) with f by lia.
    destruct (decide (rep = x)) as [<-|Hne]; [|by rewrite lookup_insert_ne]. rewrite lookup_insert_eq. simpl. rewrite Hn. by rewrite He in Hc.
  - rewrite Hin. lia.
  - apply Hi.
Qed.

(** The lock is taken or given back. *)
Lemma inv_lock (b : bool) p' : thread_ok (heap s) (route_list s) l o p' ->
  (forall x, holds p' x = holds p x) -> (forall x, frees p' x = frees p x) ->
  (if b then locked s = false /\ in_section p' = true else in_section p = true /\ in_section p' = false) ->
  Inv (goto t p' (set_locked b s)).
Proof.
  intros Hok Hh Hf Hb. eapply (rc_inv_quiet s _ l os t p p' o Hi Ht Ho); simpl; try done.
  - intros x r f Hc _ _. rewrite Hh, Hf. replace (r - holds p x + holds p x) with r by lia. by replace (f - frees p x + frees p x) with f by lia.
  - destruct b, Hb as [H1 H2]; rewrite H2.
    + assert (Hp : in_section p = false) by (destruct (in_section p) eqn:E; [by rewrite (section_locked s l os Hi t p) in H1|done]).
      by rewrite H1, Hp.
    + rewrite (section_locked s l os Hi t p Ht H1), H1. done.
  - apply Hi.
Qed.

(** A count is changed, and the references and the threads that free with it. *)
Lemma inv_count rep e n p' : heap s !! rep = Some e -> thread_ok (heap s) (route_list s) l o p' -> in_section p' = in_section p ->
  (forall x, x <> rep -> holds p' x = holds p x /\ frees p' x = frees p x) ->
  (forall r f, count_ok (Some (re_refcnt e)) r f -> holds p rep <= r -> frees p rep <= f ->
    count_ok (Some n) (r - holds p rep + holds p' rep) (f - frees p rep + frees p' rep)) ->
  Inv (goto t p' (set_heap (<[rep := set_refcnt n e]> (heap s)) s)).
Proof.
  intros He Hok Hin Hx Hrep.
  assert (Hb : forall x, same_body (heap s) (<[rep := set_refcnt n e]> (heap s)) x).
  { intros x. unfold same_body. destruct (decide (rep = x)) as [<-|Hne]; [by rewrite lookup_insert_eq, He|by rewrite lookup_insert_ne]. }
  eapply (rc_inv_quiet s _ l os t p p' o Hi Ht Ho); simpl; try done.
  - eapply ok_frame; [|exact Hok]. auto.
  - intros x r f Hc H1 H2. destruct (decide (rep = x)) as [<-|Hne].
    + rewrite lookup_insert_eq. rewrite He in Hc. apply Hrep; try done. pose proof (ind_range (rep ∈ o)). lia.
    + rewrite lookup_insert_ne by done. destruct (Hx x) as [-> ->]; [done|].
      replace (r - holds p x + holds p x) with r by lia. by replace (f - frees p x + frees p x) with f by lia.
  - rewrite Hin. lia.
  - apply Hi.
Qed.

Lemma held_present rep : 1 <= holds p rep -> exists e, heap s !! rep = Some e.
Proof.
  intros Hh. destruct (counts_present _ _ _ rep (i_counts _ _ _ Hi)) as (e & He & _); [|by exists e].
  pose proof (refs_bound (l ++ concat os) _ t p rep Ht). pose proof (ind_range (rep ∈ l ++ concat os)). lia.
Qed.

(** An entry about to be freed is there; nobody has a reference to it. *)
Lemma freed_present rep : 1 <= frees p rep -> exists e, heap s !! rep = Some e /\ (rep ∉ l ++ concat os).
Proof.
  intros Hf. pose proof (freers_bound _ t p rep Ht) as Hb. pose proof (i_counts _ _ _ Hi rep) as Hc.
  destruct (heap s !! rep) as [e|] eqn:He; simpl in Hc; [|lia]. exists e. split; [done|]. intros Hx.
  destruct (counts_owned _ _ _ rep (i_counts _ _ _ Hi) Hx) as (_ & _ & H0). lia.
Qed.

(** [atomic_dec_and_test] *)
Lemma put_inv rep cont : p = Put rep cont -> exists s', thread_step t p s = Some s' /\ Inv s'.
Proof.
  intros Hp. pose proof own_ok as Hok. destruct (held_present rep) as [e He].
  { rewrite Hp. simpl. rewrite ind_true by done. pose proof (holds_nonneg cont rep). lia. }
  rewrite Hp in Hok. rewrite Hp; cbn [thread_step]. rewrite He. eexists. split; [done|]. destruct Hok as [Hcont Hok].
  assert (Hc0 : forall x, holds cont x = 0 /\ frees cont x = 0) by (by destruct cont).
  assert (Hi32 : forall r, 1 <= r < 2 ^ 31 -> i32 (r - 1) = r - 1) by (intros; apply i32_small; lia).
  apply (inv_count rep e); rewrite ?Hp.
  - done.
  - destruct (i32 _ =? 0); done.
  - by destruct (i32 _ =? 0).
  - intros x Hx. destruct (Hc0 x) as [H1 H2]. destruct (i32 _ =? 0); simpl; rewrite H1, H2, ind_false by congruence; lia.
  - intros r f (-> & Hr & ->) H1 H2. cbn [holds frees] in *. destruct (Hc0 rep) as [Hh Hf]. rewrite Hh, Hf, (ind_true (rep = rep)) in * by done.
    rewrite Hi32 by lia. rewrite (ind_false (r = 0)) by lia.
    destruct (Z.eqb_spec (r - 1) 0); cbn [holds frees count_ok]; rewrite Hh, Hf, ?(ind_true (rep = rep)) by done.
    + rewrite ind_true by lia. lia.
    + rewrite ind_false by lia. lia.
Qed.

(** [re_free] *)
Lemma mark_inv rep cont : p = Mark rep cont -> exists s', thread_step t p s = Some s' /\ Inv s'.
Proof.
  intros Hp. pose proof own_ok as Hok. destruct (freed_present rep) as (e & He & Hx).
  { rewrite Hp. simpl. rewrite ind_true by done. pose proof (frees_nonneg cont rep). lia. }
  rewrite Hp in Hok. rewrite Hp; cbn [thread_step]. rewrite He. eexists. split; [done|]. 
  assert (Hb : forall x, x ∈ l ++ concat os -> same_body (heap s) (<[rep := mkEntry (re_refcnt e) (re_next e) (addr e) (iface e) true]> (heap s)) x).
  { intros x Hxx. unfold same_body. rewrite lookup_insert_ne; [done|]. intros ->. done. }
  eapply (rc_inv_quiet s _ l os t p (Free rep cont) o Hi Ht Ho); rewrite ?Hp; simpl; try done.
  - apply (ok_frame (heap s) _ _ l o (Free rep cont)); [|exact Hok]. intros x [Hl|Hxo]; apply Hb; [set_solver|].
    apply elem_of_app. right. by eapply concat_owner.
  - intros x Hxx _. by apply Hb.
  - intros x r f Hc _ _. replace (r - holds cont x + holds cont x) with r by lia.
    replace (f - (ind (rep = x) + frees cont x) + (ind (rep = x) + frees cont x)) with f by lia.
    destruct (decide (rep = x)) as [<-|Hne]; [rewrite lookup_insert_eq; by rewrite He in Hc|by rewrite lookup_insert_ne].
  - lia.
  - apply Hi.
Qed.

Lemma free_inv rep cont : p = Free rep cont -> exists s', thread_step t p s = Some s' /\ Inv s'.
Proof.
  intros Hp. pose proof own_ok as Hok. destruct (freed_present rep) as (e & He & Hx).
  { rewrite Hp. simpl. rewrite ind_true by done. pose proof (frees_nonneg cont rep). lia. }
  rewrite Hp in Hok. rewrite Hp; cbn [thread_step]. rewrite He. eexists. split; [done|]. destruct Hok as [Hcont Hok].
  assert (Hc0 : frees cont rep = 0 /\ holds cont rep = 0) by (by destruct cont).
  assert (Hb : forall x, x ∈ l ++ concat os -> same_body (heap s) (delete rep (heap s)) x).
  { intros x Hxx. unfold same_body. rewrite lookup_delete_ne; [done|]. intros ->. done. }
  eapply (rc_inv_quiet s _ l os t p cont o Hi Ht Ho); rewrite ?Hp; simpl; try done.
  - apply (ok_frame (heap s) _ _ l o cont); [|exact Hok]. intros x [Hl|Hxo]; apply Hb; [set_solver|].
    apply elem_of_app. right. by eapply concat_owner.
  - intros x Hxx _. by apply Hb.
  - intros x r f Hc _ Hf. destruct (decide (rep = x)) as [<-|Hne].
    + rewrite lookup_delete_eq. rewrite He in Hc. destruct Hc as (_ & _ & ->). destruct Hc0 as [Hf0 Hh0].
      rewrite Hf0, Hh0, (ind_true (rep = rep)) in * by done. pose proof (ind_range (r = 0)). unfold ind in *. simpl. case_decide; lia.
    + rewrite lookup_delete_ne, ind_false by done. replace (r - holds cont x + holds cont x) with r by lia.
      by replace (f - (0 + frees cont x) + frees cont x) with f by lia.
  - lia.
  - apply Hi.
Qed.
End steps.

(** ** Changes of the table *)

Lemma ind_extract (a b : list nat) x y : NoDup (a ++ y :: b) -> ind (x ∈ a ++ b) + ind (y = x) = ind (x ∈ a ++ y :: b).
Proof.
  intros Hnd. apply NoDup_app in Hnd as (_ & Hd & [Hy _]%NoDup_cons). destruct (decide (y = x)) as [->|Hne].
  - rewrite (ind_true (x = x)), (ind_true (x ∈ a ++ x :: b)), ind_false; [done| |set_solver|done].
    intros [Hx|Hx]%elem_of_app; [|done]. apply (Hd x Hx). by left.
  - rewrite (ind_false (y = x)), Z.add_0_r by done. apply ind_iff. set_solver.
Qed.

Lemma rc_load_link_pos s pre post : chain re_next (heap s) (route_list s) (pre ++ post) ->
  load_link (last pre) s = Some (head post) /\ forall x, head post = Some x -> exists e, heap s !! x = Some e.
Proof.
  intros Hc. pose proof (chain_pos _ _ _ _ _ Hc) as Hp.
  assert (Hhd : forall p, chain re_next (heap s) p post -> p = head post) by (intros p; destruct post; simpl; [done|by intros [-> _]]).
  split.
  - unfold load_link. destruct (last pre) as [x|].
    + destruct Hp as (e & -> & Hp). by rewrite (Hhd _ Hp).
    + by rewrite <-(Hhd _ Hp).
  - intros x Hx. destruct post as [|y post]; [done|]. injection Hx as ->. eapply chain_elem; [done|]. set_solver.
Qed.

Lemma rc_dels_snoc s l os k r : Inv_at s l os -> r = (if bool_decide (k ∈ (tbl s).*1) then 0 else - ENOENT) ->
  forall k' r' M, (k', r', M) ∈ dels s ++ [(k, r, tbl s)] -> r' = if bool_decide (k' ∈ M.*1) then 0 else - ENOENT.
Proof. intros Hi Hr k' r' M [Hin|[= -> -> ->]%list_elem_of_singleton]%elem_of_app; [by eapply i_dels|done]. Qed.

(** What an entry in the middle of the table means for a deletion. *)
Lemma del_table s l os k pre rep post e : Inv_at s l os -> l = pre ++ rep :: post -> skipped (heap s) k pre ->
  heap s !! rep = Some e -> addr e = k ->
  table_del k (tbl s) = rows (heap s) (pre ++ post) /\ (k ∈ (tbl s).*1).
Proof.
  intros Hi Hl Hs He Hk. rewrite (i_tbl _ _ _ Hi), Hl. split.
  - rewrite skips_del, (rows_of_cons _ _ e), rows_of_app by done. cbn [table_del]. by rewrite Hk, Z.eqb_refl.
  - rewrite rows_of_app, (rows_of_cons _ _ e), fmap_app, fmap_cons by done. simpl. rewrite Hk. set_solver.
Qed.

Section table_steps.
Context (s : State) (l : list nat) (os : list (list nat)) (t : nat) (p : PC) (o : list nat).
Context (Hi : Inv_at s l os) (Ht : threads s !! t = Some p) (Ho : os !! t = Some o).

(** [*repp = rep->re_next] *)
Lemma unlink_step k pre rep post e : o = [] -> in_section p = true -> (forall x, holds p x = 0 /\ frees p x = 0) ->
  l = pre ++ rep :: post -> skipped (heap s) k pre -> heap s !! rep = Some e -> addr e = k ->
  exists s', store_link (last pre) (re_next e) (table_del k (tbl s)) (log_del k 0 s) = Some s' /\
    Inv (goto t (Unlock (Put rep PIdle)) s').
Proof.
  intros Ho' Hin Hp0 Hl Hs He Hk. destruct (del_table s l os k pre rep post e Hi Hl Hs He Hk) as [-> Hkey].
  pose proof (rc_dels_snoc s l os k 0 Hi ltac:(by rewrite bool_decide_eq_true_2)) as HD.
  pose proof (i_chain _ _ _ Hi) as Hc. rewrite Hl in Hc. destruct (seq_chain_next _ _ _ _ _ _ Hc) as (e' & He' & Hpost).
  rewrite He in He'. injection He' as <-.
  assert (Hlive : forall x e0, x ∈ pre ++ post -> heap s !! x = Some e0 -> re_freed e0 = false).
  { intros x e0 Hx. apply (i_live _ _ _ Hi). rewrite Hl. set_solver. }
  assert (Hgo : forall m h, (forall x, (x ∉ l) -> m !! x = heap s !! x) -> (forall x, re_refcnt <$> m !! x = re_refcnt <$> heap s !! x) ->
    chain re_next m h (pre ++ post) -> rows m (pre ++ post) = rows (heap s) (pre ++ post) ->
    (forall x e0, x ∈ pre ++ post -> m !! x = Some e0 -> re_freed e0 = false) ->
    Inv (goto t (Unlock (Put rep PIdle)) (mkState m h (locked s) (threads s) (rows (heap s) (pre ++ post)) (answers s) (dels s ++ [(k, 0, tbl s)])))).
  { intros m h Hm Hn Hch Hr Hlv. eapply (rc_inv_section s _ l os t p (Unlock (Put rep PIdle)) o Hi Ht Ho) with (l' := pre ++ post) (o' := []); simpl; try done.
    - intros R. rewrite Hl, Ho'. cbn [app]. rewrite <-!app_assoc. cbn [app]. rewrite <-Permutation_middle. by intros [_ ?]%NoDup_cons.
    - intros R x. destruct (Hp0 x) as [-> _]. rewrite Hl, Ho', Z.add_0_r, Z.add_0_r. cbn [app]. rewrite <-!app_assoc. cbn [app]. apply ind_extract.
    - intros x. destruct (Hp0 x) as [_ ->]. done. }
  destruct pre as [|y pre _] using rev_ind.
  - eexists. split; [done|]. by apply Hgo.
  - rewrite last_snoc in *. cbn [store_link log_del heap]. rewrite <-app_assoc in Hc. cbn [app] in Hc.
    pose proof (seq_chain_next _ _ _ _ _ _ Hc) as (ey & Hy & _). rewrite Hy. eexists. split; [done|].
    pose proof (i_nodup _ _ _ Hi) as Hnd. rewrite Hl, !NoDup_app in Hnd. destruct Hnd as ((Hnd1 & Hd & Hnd2) & _).
    apply NoDup_cons in Hnd2 as [Hrep _]. destruct Hnd1 as (_ & Hd1 & _).
    apply Hgo; cbn [set_heap log_del heap route_list].
    + intros x Hx. rewrite lookup_insert_ne; [done|]. intros ->. apply Hx. rewrite Hl. set_solver.
    + intros x. destruct (decide (y = x)) as [->|Hne]; [by rewrite lookup_insert_eq, Hy|by rewrite lookup_insert_ne].
    + rewrite <-app_assoc. cbn [app]. eapply chain_relink; try done; set_solver.
    + apply rows_of_ext. intros x _. destruct (decide (x = y)) as [->|Hne]; [by rewrite lookup_insert_eq, Hy|by rewrite lookup_insert_ne].
    + intros x e0 Hx [[<- <-]|[Hne Hx0]]%lookup_insert_Some; [|by eapply Hlive]. simpl. by eapply (Hlive y).
Qed.

(** A turn of the loop of [route_del]. *)
Lemma del_load_step k repp : p = DelLoad k repp -> exists s', thread_step t p s = Some s' /\ Inv s'.
Proof.
  intros Hp. pose proof (own_ok s l os t p o Hi Ht Ho) as Hok. rewrite Hp in Hok. destruct Hok as [Ho' (pre & post & Hl & -> & Hs)].
  pose proof (i_chain _ _ _ Hi) as Hc. rewrite Hl in Hc. destruct (rc_load_link_pos s pre post Hc) as [Hload Hhd].
  rewrite Hp; cbn [thread_step]. rewrite Hload. destruct post as [|rep post]; cbn [head].
  - rewrite app_nil_r in Hl. subst pre. eexists. split; [done|].
    apply (inv_silent s l os t p o Hi Ht Ho (Unlock PIdle)); rewrite ?Hp; try done.
    apply (rc_dels_snoc s l os); [done|]. rewrite bool_decide_eq_false_2; [done|]. rewrite (i_tbl _ _ _ Hi). by eapply skips_keys.
  - destruct (Hhd rep eq_refl) as [e He]. rewrite He. destruct (Z.eqb_spec (addr e) k) as [Hk|Hk].
    + destruct (unlink_step k pre rep post e) as (s' & -> & Hinv'); try done; [by rewrite Hp|by rewrite Hp|]. by eexists.
    + eexists. split; [done|]. apply (inv_silent s l os t p o Hi Ht Ho (DelLoad k (Some rep))); rewrite ?Hp; try done; [|apply Hi].
      split; [done|]. exists (pre ++ [rep]), post. rewrite last_snoc, <-app_assoc. split_and!; [done..|]. by eapply skips_snoc.
Qed.

(** [route_list.re_next = rep] *)
Lemma link_step rep ad interface : p = AddHead rep ad interface -> exists s', thread_step t p s = Some s' /\ Inv s'.
Proof.
  intros Hp. pose proof (own_ok s l os t p o Hi Ht Ho) as Hok. rewrite Hp in Hok. destruct Hok as [Ho' (e & He & Hb)].
  rewrite Hp; cbn [thread_step]. eexists. split; [done|]. unfold body in Hb. injection Hb as Hb1 Hb2 Hb3 Hb4.
  assert (Hperm : forall R, rep :: l ++ R ≡ₚ l ++ rep :: R) by (intros R; apply Permutation_middle).
  eapply (rc_inv_section s _ l os t p (Unlock PIdle) o Hi Ht Ho) with (l' := rep :: l) (o' := []);
    rewrite ?Hp, ?Ho'; cbn [goto set_list heap route_list locked threads tbl answers dels holds frees in_section app]; try done.
  - split; [done|]. exists e. rewrite Hb1. split; [done|]. apply Hi.
  - intros R. by rewrite Hperm.
  - intros R x _. rewrite !Z.add_0_r. apply ind_iff. by rewrite Hperm.
  - rewrite (rows_of_cons _ _ e) by done. rewrite Hb2, Hb3, (i_tbl _ _ _ Hi). done.
  - intros x e0 [->|Hx]%elem_of_cons Hx0; [congruence|by eapply (i_live _ _ _ Hi)].
  - apply Hi.
Qed.

(** The first store of [route_clear], and a turn of its loop. *)
Lemma clear_step : p = ClrHead \/ (exists rep, p = ClrNext (Some rep)) -> exists s', thread_step t p s = Some s' /\ Inv s'.
Proof.
  intros Hp. pose proof (own_ok s l os t p o Hi Ht Ho) as Hok. destruct Hp as [Hp|[rep Hp]]; rewrite Hp in Hok; simpl in Hok.
  - rewrite Hp; cbn [thread_step]. eexists. split; [done|]. subst o.
    eapply (rc_inv_section s _ l os t p (ClrNext (route_list s)) [] Hi Ht Ho) with (l' := []) (o' := l); rewrite ?Hp; simpl; try done; try apply Hi.
    set_solver.
  - destruct o as [|x o']; [done|]. destruct Hok as [[= ->] (e & He & Hch)].
    rewrite Hp; cbn [thread_step]. rewrite He. eexists. split; [done|].
    eapply (rc_inv_section s _ l os t p (Put x (ClrNext (re_next e))) _ Hi Ht Ho) with (l' := l) (o' := o'); rewrite ?Hp; simpl; try done; try apply Hi.
    + intros R. rewrite <-Permutation_middle. by intros [_ ?]%NoDup_cons.
    + intros R y. rewrite !Z.add_0_r. apply ind_extract.
Qed.
End table_steps.

(** * Every step *)

(** Before an access to memory the thread has no reference to. *)
Definition unprotected (p : PC) : bool :=
  match p with LLoad _ (Some _) | LChk _ _ | LRead _ _ | LCas _ _ _ => true | _ => false end.

Section thread.
Context (s : State) (l : list nat) (os : list (list nat)) (t : nat) (p : PC) (o : list nat).
Context (Hi : Inv_at s l os) (Ht : threads s !! t = Some p) (Ho : os !! t = Some o).

(** A lookup up to its reference to an entry. *)
Lemma find_step s' : unprotected p = true -> thread_step t p s = Some s' -> Inv s'.
Proof.
  intros Hu Hst. pose proof (own_ok s l os t p o Hi Ht Ho) as Hok.
  assert (Hgo : forall p', thread_ok (heap s) (route_list s) l o p' -> (forall x, holds p' x = holds p x) ->
    (forall x, frees p' x = frees p x) -> in_section p' = in_section p -> Inv (goto t p' s)).
  { intros p' H1 H2 H3 H4. apply (inv_silent s l os t p o Hi Ht Ho p'); try done. apply Hi. }
  destruct p as [|k [x|]|k rep|k rep|k rep old| | | | | | | | | | | | | | | | ]; try done; cbn [thread_step] in Hst; wz_run.
  - destruct o0 as [rep|]; by apply Hgo.
  - destruct (re_freed r); [done|]. injection Hst as <-. by apply Hgo.
  - destruct (Z.leb_spec (re_refcnt r) 0); by apply Hgo.
  - destruct Hok as [-> Hold]. destruct (Z.eqb_spec (re_refcnt r) old) as [Heq|Hne]; injection Hst as <-; [|by apply Hgo].
    apply (inv_count s l os t _ [] Hi Ht Ho rep r); try done.
    + intros x Hx. simpl. by rewrite ind_false by congruence.
    + intros c f (<- & Hc & ->) _ _. simpl. rewrite (ind_true (rep = rep)), !ind_false by lia. lia.
Qed.

(** Every other step is defined. *)
Lemma safe_step : unprotected p = false -> exists s', thread_step t p s = Some s' /\ Inv s'.
Proof.
  intros Hu. pose proof (own_ok s l os t p o Hi Ht Ho) as Hok.
  assert (Hgo : forall p', thread_ok (heap s) (route_list s) l o p' -> (forall x, holds p' x = holds p x) ->
    (forall x, frees p' x = frees p x) -> in_section p' = in_section p -> exists s', Some (goto t p' s) = Some s' /\ Inv s').
  { intros p' H1 H2 H3 H4. eexists. split; [done|]. apply (inv_silent s l os t p o Hi Ht Ho p'); try done. apply Hi. }
  assert (Hacq : forall p', thread_ok (heap s) (route_list s) l o p' -> (forall x, holds p' x = holds p x) ->
    (forall x, frees p' x = frees p x) -> in_section p' = true ->
    exists s', Some (if locked s then s else goto t p' (set_locked true s)) = Some s' /\ Inv s').
  { intros p' H1 H2 H3 H4. destruct (locked s) eqn:Hl; (eexists; split; [done|]); [by exists l, os|].
    by apply (inv_lock s l os t p o Hi Ht Ho true p'). }
  assert (Hown : forall rep e p', o = [rep] -> heap s !! rep = Some e -> (forall x, holds p' x = holds p x) ->
    (forall x, frees p' x = frees p x) -> in_section p' = in_section p -> forall e', re_refcnt e' = re_refcnt e ->
    thread_ok (<[rep := e']> (heap s)) (route_list s) l o p' ->
    exists s', Some (goto t p' (set_heap (<[rep := e']> (heap s)) s)) = Some s' /\ Inv s').
  { intros rep e p' H1 H2 H3 H4 H5 e' H6 H7. eexists. split; [done|]. by eapply (rc_inv_own s l os t p o Hi Ht Ho). }
  pose proof (held_present s l os t p Hi Ht) as Hheld.
  pose proof (put_inv s l os t p o Hi Ht Ho) as Hput. pose proof (mark_inv s l os t p o Hi Ht Ho) as Hmark.
  pose proof (free_inv s l os t p o Hi Ht Ho) as Hfree. pose proof (del_load_step s l os t p o Hi Ht Ho) as Hdel.
  pose proof (link_step s l os t p o Hi Ht Ho) as Hlink. pose proof (clear_step s l os t p o Hi Ht Ho) as Hclr.
  pose proof (inv_lock s l os t p o Hi Ht Ho false) as Hunl. pose proof (inv_silent s l os t p o Hi Ht Ho) as Hsil.
  destruct p as [|k [x|]|k rep|k rep|k rep old|k rep|k rep|k ret|rep ad interface|rep ad interface|rep ad interface|rep ad interface
    |k|k repp| | |[rep|]|cont|rep cont|rep cont|rep cont]; try done; cbn [thread_step thread_ok] in *; try (by eauto).
  - eexists. split; [done|]. by exists l, os.
  - cbn [load_link]. destruct (route_list s); by apply Hgo.
  - destruct (Hheld rep) as [e He]; [simpl; rewrite ind_true by done; lia|]. rewrite He. 
    destruct (addr e =? k); apply Hgo; try done; intros x; simpl; lia.
  - destruct (Hheld rep) as [e He]; [simpl; rewrite ind_true by done; lia|]. rewrite He. apply Hgo; try done; intros x; simpl; lia.
  - eexists. split; [done|]. apply Hsil; try done. apply Hi.
  - destruct Hok as [Ho' (e & He & <- & <-)]. rewrite He. eapply Hown; try done. split; [done|]. eexists. by rewrite lookup_insert_eq.
  - destruct Hok as [Ho' (e & He & <- & <- & Hn)]. rewrite He. eapply Hown; try done. split; [done|]. eexists. rewrite lookup_insert_eq.
    split; [done|]. unfold body. simpl. by rewrite Hn.
  - apply Hacq; try done. split; [done|]. exists [], l. split_and!; [done..|constructor].
  - apply Hgo; try done. split; [done|]. by destruct o; [|destruct Hok].
  - eexists. split; [done|]. destruct Hok as [Hc Ho']. apply Hunl; try done.
    + destruct cont as [| | | | | | | | | | | | | | | | | |r []| |]; try done.
    + by destruct cont as [| | | | | | | | | | | | | | | | | |r []| |].
Qed.
End thread.

Lemma rc_thread_list s l os t p : Inv_at s l os -> threads s !! t = Some p -> exists o, os !! t = Some o.
Proof. intros Hi Ht. apply lookup_lt_is_Some_2. rewrite (i_len _ _ _ Hi). by eapply lookup_lt_Some. Qed.

(** [malloc] and what [route_add] does before the lock. *)
Lemma alloc_inv s l os t rep e ad interface : Inv_at s l os -> threads s !! t = Some PIdle -> os !! t = Some [] ->
  heap s !! rep = None -> re_refcnt e = 1 -> addr e = ad -> iface e = interface ->
  Inv (goto t (AddLock rep ad interface) (set_heap (<[rep := e]> (heap s)) s)).
Proof.
  intros Hi Ht Ho Hnone He1 He2 He3. pose proof (i_counts _ _ _ Hi rep) as Hc0. rewrite Hnone in Hc0.
  assert (Hnl : rep ∉ l ++ concat os).
  { intros Hx. destruct (counts_owned _ _ _ rep (i_counts _ _ _ Hi) Hx) as (e0 & He0 & _). congruence. }
  assert (Hb : forall x, x ∈ l ++ concat os -> same_body (heap s) (<[rep := e]> (heap s)) x).
  { intros x Hx. unfold same_body. rewrite lookup_insert_ne; [done|]. by intros ->. }
  eapply (rc_inv_update s _ l os t PIdle (AddLock rep ad interface) [] Hi Ht Ho) with (l' := l) (o' := [rep]); 
    cbn [goto set_heap heap route_list locked threads tbl answers dels thread_ok holds frees in_section app]; try done.
  - split; [done|]. exists e. by rewrite lookup_insert_eq.
  - intros u q o2 Hu Hq Ho2. apply ok_frame. intros x Hx. apply Hb. apply elem_of_app.
    destruct Hx as [Hx|Hx]; [by left|right; by eapply concat_owner].
  - generalize (i_chain _ _ _ Hi). apply body_chain. intros x Hx. apply Hb. set_solver.
  - intros R HR Hnd. rewrite <-Permutation_middle. apply NoDup_cons. split; [|done]. intros Hx. apply Hnl. by rewrite HR.
  - intros R HR Hnd x r f Hc _ _. rewrite !Z.add_0_r, Z.sub_0_r. rewrite (ind_iff (x ∈ l ++ rep :: R) (x ∈ rep :: l ++ R)) by (by rewrite Permutation_middle).
    assert (Hx0 : rep ∉ l ++ R) by (rewrite <-HR; done). destruct (decide (rep = x)) as [<-|Hne].
    + rewrite lookup_insert_eq. rewrite Hnone in Hc. destruct Hc as [-> ->]. rewrite (ind_false (rep ∈ l ++ R)), (ind_true (rep ∈ rep :: l ++ R)) by (done || by left).
      simpl. rewrite He1. done.
    + rewrite lookup_insert_ne by done. rewrite (ind_iff (x ∈ rep :: l ++ R) (x ∈ l ++ R)) by set_solver.
      match goal with |- count_ok _ ?a ?b => replace a with r by lia; replace b with f by lia end. done.
  - rewrite (i_tbl _ _ _ Hi). symmetry. apply body_rows. intros x Hx. apply Hb. set_solver.
  - intros x e0 Hx. rewrite lookup_insert_ne; [by apply (i_live _ _ _ Hi)|]. intros ->. apply Hnl. set_solver.
  - change (ind (false = true)) with 0. lia.
  - apply Hi.
Qed.

Lemma refcnt_step_inv c s s' : Inv s -> step c s = Some s' -> Inv s'.
Proof.
  intros (l & os & Hi). assert (Hs : Inv s) by by exists l, os. unfold step. destruct (mem_ok c s) eqn:Hmem; [|by intros [= <-]].
  destruct c as [t k|t mem ad interface|t k|t|t]; (destruct (threads s !! t) as [p|] eqn:Ht; [|by intros [= <-]]);
    destruct (rc_thread_list s l os t p Hi Ht) as [o Ho]; pose proof (own_ok s l os t p o Hi Ht Ho) as Hok.
  5: { destruct (unprotected p) eqn:Hu.
    - by eapply find_step.
    - destruct (safe_step s l os t p o Hi Ht Ho Hu) as (s1 & -> & Hs1). by intros [= <-]. }
  all: destruct p; try by intros [= <-].
  1,3,4: intros [= <-]; apply (inv_silent s l os t PIdle o Hi Ht Ho); try done; apply Hi.
  destruct mem as [[rep junk]|]; [|by intros [= <-]]. intros [= <-]. cbn [mem_ok] in Hmem. apply bool_decide_eq_true in Hmem.
  simpl in Hok. subst o. by apply (alloc_inv s l os).
Qed.

Lemma refcnt_start_inv n : Inv (start n).
Proof.
  exists [], (replicate n []).
  assert (Hcat : concat (replicate n []) = @nil nat) by (clear; by induction n).
  constructor; simpl; try done; rewrite ?Hcat; try set_solver.
  - by rewrite !length_replicate.
  - intros t p o Ht Ho. apply lookup_replicate in Ht as [-> _]. by apply lookup_replicate in Ho as [-> _].
  - constructor.
  - intros x. unfold refs, freers. rewrite ind_false by set_solver. rewrite lookup_empty. simpl.
    assert (Hz : forall f : PC -> Z, f PIdle = 0 -> total f (replicate n PIdle) = 0).
    { intros f Hf. clear -Hf. induction n as [|n IH]; [done|]. cbn [replicate total foldr]. unfold total in IH. lia. }
    by rewrite !Hz.
  - change (ind (false = true)) with 0. clear. induction n as [|n IH]; [done|]. exact IH.
Qed.

Lemma refcnt_run_inv acts : forall s s', Inv s -> run acts s = Some s' -> Inv s'.
Proof.
  induction acts as [|c acts IH]; intros s s' Hs; cbn [run]; [by intros [= <-]|].
  destruct (step c s) as [s1|] eqn:Hst; [|done]. apply IH. by eapply refcnt_step_inv.
Qed.

(** * A lookup alone *)

Section alone.
Implicit Types (s : State) (p : PC).

Lemma refcnt_run_app (l1 l2 : list Act) : forall s s1, run l1 s = Some s1 -> run (l1 ++ l2) s = run l2 s1.
Proof.
  induction l1 as [|c l1 IH]; intros s s1; cbn [run app]; [by intros [= <-]|]. destruct (step c s); [apply IH|done].
Qed.

Lemma goto_goto t p q s : goto t p (goto t q s) = goto t p s.
Proof. unfold goto. simpl. by rewrite list_insert_insert_eq. Qed.

Lemma run_goto t p n s : (t < length (threads s))%nat ->
  run (replicate (S n) (AStep t)) (goto t p s) = match thread_step t p (goto t p s) with Some s' => run (replicate n (AStep t)) s' | None => None end.
Proof. intros Ht. cbn [replicate run step mem_ok]. cbn [threads goto]. by rewrite list_lookup_insert_eq. Qed.

(** An entry of the table is reached and its count incremented. *)
Lemma acquire_alone t k repp x e s : (t < length (threads s))%nat -> load_link repp s = Some (Some x) -> heap s !! x = Some e ->
  re_freed e = false -> 0 < re_refcnt e < 2 ^ 31 - 1 ->
  run (replicate 4 (AStep t)) (goto t (LLoad k repp) s) =
    Some (goto t (LAddr k x) (set_heap (<[x := set_refcnt (re_refcnt e + 1) e]> (heap s)) s)).
Proof.
  intros Ht Hl He Hf Hn. assert (Hlg : forall p, load_link repp (goto t p s) = load_link repp s) by (by destruct repp).
  rewrite run_goto by done. cbn [thread_step]. rewrite Hlg, Hl, goto_goto.
  rewrite run_goto by done. cbn [thread_step goto heap]. rewrite He, Hf. fold (goto t (LChk k x) s). rewrite goto_goto.
  rewrite run_goto by done. cbn [thread_step]. change (heap (goto t (LRead k x) s)) with (heap s). rewrite He, goto_goto.
  destruct (Z.leb_spec (re_refcnt e) 0); [lia|].
  rewrite run_goto by done. cbn [thread_step]. change (heap (goto t (LCas k x (re_refcnt e)) s)) with (heap s). rewrite He.
  destruct (Z.ltb_spec (re_refcnt e + 1) (2 ^ 31)); [|lia]. rewrite Z.eqb_refl. cbn [replicate run].
  unfold set_heap, goto. simpl. by rewrite list_insert_insert_eq.
Qed.

(** And given back. *)
Lemma release_alone t x e cont s : (t < length (threads s))%nat -> heap s !! x = Some e -> 0 < re_refcnt e < 2 ^ 31 - 1 ->
  run (replicate 1 (AStep t)) (goto t (Put x cont) (set_heap (<[x := set_refcnt (re_refcnt e + 1) e]> (heap s)) s)) = Some (goto t cont s).
Proof.
  intros Ht He Hn. rewrite run_goto by done. cbn [thread_step heap goto set_heap]. rewrite lookup_insert_eq.
  cbn [re_refcnt set_refcnt]. rewrite Z.add_simpl_r, i32_small by lia. destruct (Z.eqb_spec (re_refcnt e) 0); [lia|]. cbn [replicate run].
  unfold goto, set_heap. simpl. rewrite insert_insert_eq, list_insert_insert_eq. do 2 f_equal. apply insert_id. rewrite He.
  by destruct e.
Qed.

(** From a load on, with the entries [post] left. *)
Lemma refcnt_walk_alone t k post : forall s pre, (t < length (threads s))%nat ->
  chain re_next (heap s) (route_list s) (pre ++ post) ->
  (forall x e, x ∈ pre ++ post -> heap s !! x = Some e -> re_freed e = false /\ 0 < re_refcnt e < 2 ^ 31 - 1) ->
  skipped (heap s) k pre -> tbl s = rows (heap s) (pre ++ post) ->
  exists m, run (replicate m (AStep t)) (goto t (LLoad k (last pre)) s) =
    Some (mkState (heap s) (route_list s) (locked s) (<[t := PIdle]> (threads s)) (tbl s) (answers s ++ [(k, table_lookup k (tbl s))]) (dels s)).
Proof.
  induction post as [|x post IH]; intros s pre Ht Hc Hok Hs Htbl.
  - destruct (rc_load_link_pos s pre [] Hc) as [Hload _]. exists 2%nat.
    assert (Hlg : forall p, load_link (last pre) (goto t p s) = load_link (last pre) s) by (by destruct (last pre)).
    rewrite run_goto by done. cbn [thread_step]. rewrite Hlg, Hload, goto_goto. cbn [head].
    rewrite run_goto by done. cbn [thread_step replicate run]. unfold goto. simpl. rewrite list_insert_insert_eq.
    rewrite Htbl, skips_lookup by done. done.
  - destruct (rc_load_link_pos s pre _ Hc) as [Hload _]. destruct (seq_chain_next _ _ _ _ _ _ Hc) as (e & He & _).
    destruct (Hok x e) as [Hf Hn]; [set_solver|done|].
    pose proof (acquire_alone t k (last pre) x e s Ht Hload He Hf Hn) as H1.
    set (s1 := set_heap (<[x := set_refcnt (re_refcnt e + 1) e]> (heap s)) s) in *.
    assert (Hx : heap s1 !! x = Some (set_refcnt (re_refcnt e + 1) e)) by apply lookup_insert_eq.
    destruct (Z.eqb_spec (addr e) k) as [Hk|Hk].
    + exists (4 + (2 + (1 + 1)))%nat. rewrite replicate_add, (refcnt_run_app _ _ _ _ H1). rewrite replicate_add.
      rewrite (refcnt_run_app (replicate 2 (AStep t)) _ _ (goto t (Put x (LRet k (iface e))) s1)).
      * rewrite replicate_add, (refcnt_run_app _ _ _ _ (release_alone t x e _ s Ht He Hn)). rewrite run_goto by done.
        cbn [thread_step replicate run]. unfold goto. simpl. rewrite list_insert_insert_eq. do 4 f_equal.
        rewrite Htbl, skips_lookup, (rows_of_cons _ _ e) by done. cbn [table_lookup]. by rewrite Hk, Z.eqb_refl.
      * rewrite run_goto by done. cbn [thread_step]. change (heap (goto t (LAddr k x) s1)) with (heap s1). rewrite Hx. cbn [addr set_refcnt].
        rewrite Hk, Z.eqb_refl, goto_goto. rewrite run_goto by done. cbn [thread_step].
        change (heap (goto t (LIface k x) s1)) with (heap s1). rewrite Hx, goto_goto. done.
    + destruct (IH s (pre ++ [x])) as [m Hm]; try done.
      * by rewrite <-app_assoc.
      * intros y ey. rewrite <-app_assoc. apply Hok.
      * by eapply skips_snoc.
      * by rewrite <-app_assoc.
      * rewrite last_snoc in Hm. exists (4 + (1 + (1 + m)))%nat. rewrite replicate_add, (refcnt_run_app _ _ _ _ H1). rewrite replicate_add.
        rewrite (refcnt_run_app (replicate 1 (AStep t)) _ _ (goto t (Put x (LLoad k (Some x))) s1)).
        -- rewrite replicate_add, (refcnt_run_app _ _ _ _ (release_alone t x e _ s Ht He Hn)). exact Hm.
        -- rewrite run_goto by done. cbn [thread_step]. change (heap (goto t (LAddr k x) s1)) with (heap s1). rewrite Hx. cbn [addr set_refcnt].
           destruct (Z.eqb_spec (addr e) k); [done|]. by rewrite goto_goto.
Qed.
End alone.

(** * Theorems *)

(** In every run of any number of threads the table is what is in memory, and reference
    counting is exact: an entry of the table counts 1 and every reference of a thread; an entry a thread has a
    reference to is not freed; between calls memory holds the entries of the table, each with count 1, and
    no others. An access fails only in a lookup, at an entry it has no reference to. *)
Theorem refcounts_are_exact n acts s : run acts (start n) = Some s ->
  exists l, chain re_next (heap s) (route_list s) l /\ NoDup l /\ tbl s = rows_of addr iface (heap s) l /\
  (forall x e, x ∈ l -> heap s !! x = Some e -> re_refcnt e = 1 + total (fun p => holds p x) (threads s) /\ re_freed e = false) /\
  (forall t p x, threads s !! t = Some p -> 1 <= holds p x -> is_Some (heap s !! x)) /\
  (Forall (eq PIdle) (threads s) -> forall x, is_Some (heap s !! x) <-> x ∈ l) /\
  (forall k r M, (k, r, M) ∈ dels s -> r = if bool_decide (k ∈ M.*1) then 0 else - ENOENT) /\
  (forall t, step (AStep t) s = None -> exists p, threads s !! t = Some p /\ unprotected p = true).
Proof.
  intros Hr. assert (Hs : Inv s) by (eapply refcnt_run_inv; [apply refcnt_start_inv|done]). destruct Hs as (l & os & Hi).
  exists l. pose proof (i_nodup _ _ _ Hi) as Hnd. split_and!; try apply Hi.
  - by apply NoDup_app in Hnd as [? _].
  - intros x e Hx He. split; [|by eapply i_live]. pose proof (i_counts _ _ _ Hi x) as Hc. rewrite He in Hc. destruct Hc as [-> _].
    unfold refs. by rewrite ind_true by set_solver.
  - intros t p x Ht Hh. destruct (held_present s l os t p Hi Ht x Hh) as [e ->]. by eexists.
  - intros Hidle x.
    assert (Hos : concat os = []).
    { apply concat_nil_Forall, Forall_forall. intros o Ho. apply list_elem_of_lookup in Ho as [t Ho].
      destruct (threads s !! t) as [p|] eqn:Ht.
      - pose proof (own_ok s l os t p o Hi Ht Ho) as Hok. rewrite Forall_lookup in Hidle. by rewrite <-(Hidle t p Ht) in Hok.
      - apply lookup_ge_None in Ht. apply lookup_lt_Some in Ho. rewrite (i_len _ _ _ Hi) in Ho. lia. }
    assert (Hz : forall f : PC -> Z, f PIdle = 0 -> total f (threads s) = 0).
    { intros f Hf. rewrite (total_ext f (fun _ => 0)); [by rewrite total_const|]. intros p Hp. rewrite Forall_forall in Hidle. by rewrite <-(Hidle p Hp). }
    pose proof (i_counts _ _ _ Hi x) as Hc. rewrite Hos, app_nil_r in Hc. unfold refs, freers in Hc. rewrite !Hz, Z.add_0_r in Hc by done.
    destruct (decide (x ∈ l)) as [Hx|Hx].
    + rewrite ind_true in Hc by done. destruct (heap s !! x); simpl in Hc; [|lia]. split; [done|by eexists].
    + rewrite ind_false in Hc by done. destruct (heap s !! x) eqn:E; [destruct Hc as (_ & _ & Hc); discriminate|]. split; [by intros []|done].
  - intros t Hst. cbn [step mem_ok] in Hst. destruct (threads s !! t) as [p|] eqn:Ht; [|done]. exists p. split; [done|].
    destruct (unprotected p) eqn:Hu; [done|]. destruct (rc_thread_list s l os t p Hi Ht) as [o Ho].
    destruct (safe_step s l os t p o Hi Ht Ho Hu) as (s' & Hs' & _). congruence.
Qed.

(** A lookup that runs alone returns what the table holds, and leaves memory as it was. *)
Theorem refcnt_lookup_alone n acts s t k : run acts (start n) = Some s -> threads s !! t = Some (LLoad k None) ->
  (forall x e, heap s !! x = Some e -> re_refcnt e < 2 ^ 31 - 1) ->
  exists m, run (replicate m (AStep t)) s =
    Some (mkState (heap s) (route_list s) (locked s) (<[t := PIdle]> (threads s)) (tbl s) (answers s ++ [(k, table_lookup k (tbl s))]) (dels s)).
Proof.
  intros Hr Ht Hb. assert (Hs : Inv s) by (eapply refcnt_run_inv; [apply refcnt_start_inv|done]). destruct Hs as (l & os & Hi).
  assert (Hgo : goto t (LLoad k None) s = s).
  { unfold goto. rewrite list_insert_id by done. by destruct s. }
  destruct (refcnt_walk_alone t k l s []) as [m Hm]; try done; try apply Hi; [by eapply lookup_lt_Some| |constructor|].
  2: { exists m. by rewrite <-Hm, <-Hgo at 1. }
  intros x e Hx He. split; [by eapply i_live|]. split; [|by eapply Hb]. pose proof (i_counts _ _ _ Hi x) as Hc. rewrite He in Hc.
  destruct Hc as [-> _]. unfold refs. rewrite ind_true by set_solver.
  pose proof (total_nonneg (fun p => holds p x) (threads s) ltac:(intros; apply holds_nonneg)). lia.
Qed.

(** A lookup has loaded an entry when a deletion frees it: it reads [re_freed] in freed memory. A lookup
    that gave up its reference to an entry loads [re_next] from freed memory. *)
Lemma lookup_uses_freed :
  let add t rep ad i := [AAdd t (Some (rep, mkEntry 0 None 0 0 false)) ad i; AStep t; AStep t; AStep t; AStep t; AStep t] in
  let del t k := [ADel t k; AStep t; AStep t; AStep t; AStep t; AStep t; AStep t] in
  (exists s, run (add 0%nat 1%nat 5 50 ++ [ALookup 1 5; AStep 1] ++ del 0%nat 5) (start 2) = Some s /\
    threads s = [PIdle; LChk 5 1] /\ step (AStep 1) s = None) /\
  (exists s, run (add 0%nat 1%nat 5 50 ++ [ALookup 1 6; AStep 1; AStep 1; AStep 1; AStep 1; AStep 1; AStep 1] ++ del 0%nat 5) (start 2) = Some s /\
    threads s = [PIdle; LLoad 6 (Some 1%nat)] /\ step (AStep 1) s = None).
Proof. split; wz_eval; done. Qed.

(** Two routes, a lookup and a deletion; then no call is in progress. *)
Definition demo : list Act :=
  [AAdd 0 (Some (1%nat, mkEntry 0 None 0 0 true)) 5 50; AStep 0; AStep 0; AStep 0; AStep 0; AStep 0;
   ALookup 1 5; AStep 1; AStep 1; AStep 1; AStep 1; ADel 0 5; AStep 0; AStep 0; AStep 0; AStep 0;
   AStep 1; AStep 1; AStep 1; AStep 1; AStep 1; AStep 1].

(** The deletion gives up its reference first, and the lookup frees the entry. *)
Lemma refcounts_are_exact_witness : exists s, run demo (start 2) = Some s /\ answers s = [(5, 50)] /\ dels s = [(5, 0, [(5, 50)])] /\
  threads s = [PIdle; PIdle] /\ exists l, (Forall (eq PIdle) (threads s) -> forall x, is_Some (heap s !! x) <-> x ∈ l) /\ tbl s = rows_of addr iface (heap s) l.
Proof.
  wz_eval. match goal with |- answers ?x = _ /\ _ => set (s0 := x) end. split_and!; [reflexivity..|].
  destruct (refcounts_are_exact 2 demo s0 ltac:(vm_compute; reflexivity)) as (l & _ & _ & H1 & _ & _ & H2 & _).
  exists l. split; [exact H2|exact H1].
Defined.

Lemma refcnt_lookup_alone_witness : exists s, run [AAdd 0 (Some (1%nat, mkEntry 0 None 0 0 true)) 5 50; AStep 0; AStep 0; AStep 0; AStep 0; AStep 0; ALookup 1 5] (start 2) = Some s /\
  exists m, run (replicate m (AStep 1)) s = Some (mkState (heap s) (route_list s) (locked s) [PIdle; PIdle] (tbl s) [(5, 50)] (dels s)).
Proof.
  wz_eval. match goal with |- exists m, run _ ?x = _ => set (s0 := x) end.
  apply (refcnt_lookup_alone 2 [AAdd 0 (Some (1%nat, mkEntry 0 None 0 0 true)) 5 50; AStep 0; AStep 0; AStep 0; AStep 0; AStep 0; ALookup 1 5] s0 1 5);
    [vm_compute; reflexivity|reflexivity|].
  assert (Hb : map_Forall (fun _ e => re_refcnt e < 2 ^ 31 - 1) (heap s0)) by (by apply (bool_decide_eq_true_1 (map_Forall _ (heap s0))); vm_compute).
  intros x e He. exact (Hb x e He).
Defined.
