(* ===== verification/SwmrList.v ===== *)
(** The single-writer, multi-reader ordered list of src/hazptr/swmr_list.h.

    The elements are [int]s. The writers run one at a time under the mutex; the readers'
    steps, one shared access each, interleave with the writer's stores and with the
    reclamation of retired nodes, which never frees a protected one ([Hazptr.v] proves that
    of the hazard pointers; here it is the rule for [reclaim]). *)
From S2P Require Import Prelude.
From stdpp Require Import sorting.
Local Open Scope Z_scope.
Local Open Scope wz.

Module SwmrList.

(** * Data *)

Abbreviation ptr := (option nat).

(** [element], [seq] and [next]. *)
Record Node := mkNode { element : Z; seq : Z; next : ptr }.

(** The list, the static counter of [add] and the nodes handed to the hazard pointers. *)
Record SWMRListSet := mkSet { head : ptr; nodes : gmap nat Node; add_seq : Z; retired : list nat }.

Definition ctor : SWMRListSet := mkSet None ∅ 0 [].

(** An [atomic<Node*>&]. *)
Inductive loc := at_head | next_of (p : nat).

Definition load (l : loc) (s : SWMRListSet) : option ptr :=
  match l with
  | at_head => Some (head s)
  | next_of p => n <-? nodes s !! p; Some (next n)
  end.

Definition set_next (q : ptr) (n : Node) : Node := mkNode (element n) (seq n) q.

Definition store (l : loc) (q : ptr) (s : SWMRListSet) : option SWMRListSet :=
  match l with
  | at_head => Some (mkSet q (nodes s) (add_seq s) (retired s))
  | next_of p =>
      n <-? nodes s !! p;
      Some (mkSet (head s) (<[p := set_next q n]> (nodes s)) (add_seq s) (retired s))
  end.

(** * The writer *)

(** The place where the first element not smaller than [data] hangs. *)
Fixpoint walk (fuel : nat) (data : Z) (p_prev : loc) (curr : ptr) (s : SWMRListSet) : option loc :=
  match fuel with
  | O => None
  | S fuel =>
      match curr with
      | None => Some p_prev
      | Some c =>
          n <-? nodes s !! c;
          if data <=? element n then Some p_prev else walk fuel data (next_of c) (next n) s
      end
  end.

(** The list has at most as many elements as there are nodes. *)
Definition find_first_small (data : Z) (s : SWMRListSet) : option loc :=
  walk (S (size (nodes s))) data at_head (head s) s.

Definition holds (c : ptr) (data : Z) (s : SWMRListSet) : option bool :=
  match c with
  | None => Some false
  | Some c => n <-? nodes s !! c; Some (element n =? data)
  end.

(** One store publishes the node. *)
Definition add (data : Z) (s : SWMRListSet) : option (bool * SWMRListSet) :=
  prev <-? find_first_small data s;
  curr <-? load prev s;
  b <-? holds curr data s;
  if b : bool then Some (false, s)
  else let node := new_id (nodes s) in
       let s := mkSet (head s) (<[node := mkNode data (add_seq s) curr]> (nodes s)) (i32 (add_seq s + 1)) (retired s) in
       s <-? store prev (Some node) s;
       Some (true, s).

(** What a [remove] that found its element has still to do. *)
Inductive WPC := WIdle | WUnlinked (curr : nat) | WCleared (curr : nat).

Definition remove_start (data : Z) (s : SWMRListSet) : option (bool * WPC * SWMRListSet) :=
  prev <-? find_first_small data s;
  curr <-? load prev s;
  b <-? holds curr data s;
  match curr, b with
  | Some c, true =>
      n <-? nodes s !! c;
      s <-? store prev (next n) s;
      Some (true, WUnlinked c, s)
  | _, _ => Some (false, WIdle, s)
  end.

Definition retire (c : nat) (s : SWMRListSet) : SWMRListSet :=
  mkSet (head s) (nodes s) (add_seq s) (retired s ++ [c]).

Definition remove_step (w : WPC) (s : SWMRListSet) : option (WPC * SWMRListSet) :=
  match w with
  | WIdle => Some (WIdle, s)
  | WUnlinked c => s <-? store (next_of c) None s; Some (WCleared c, s)
  | WCleared c => Some (WIdle, retire c s)
  end.

(** [remove] with nothing in between. *)
Definition remove (data : Z) (s : SWMRListSet) : option (bool * SWMRListSet) :=
  r <-? remove_start data s;
  let '(b, w, s) := r in
  r <-? remove_step w s;
  r <-? remove_step r.1 r.2;
  Some (b, r.2).

(** The destructor's loop. *)
Fixpoint dtor_loop (fuel : nat) (curr : ptr) (s : SWMRListSet) : option SWMRListSet :=
  match fuel with
  | O => None
  | S fuel =>
      match curr with
      | None => Some s
      | Some c => n <-? nodes s !! c; dtor_loop fuel (next n) (retire c s)
      end
  end.

Definition dtor (s : SWMRListSet) : option SWMRListSet := dtor_loop (S (size (nodes s))) (head s) s.

(** * The readers *)

(** Where a reader in [contains] stands: each step is one access to shared memory, with the
    local work that follows it. *)
Inductive RPC :=
| RStart
| RElement (p_prev : loc) (curr : ptr)
| RProtect (p_prev : loc) (curr : nat)
| RValidate (p_prev : loc) (curr : nat)
| RNext (p_prev : loc) (curr : nat)
| RLatest (p_prev : loc) (curr : nat) (nxt : ptr)
| RDone (ret : bool).

(** The value looked for, the position and what the two hazard pointers hold. *)
Record Reader := mkReader { data : Z; pc : RPC; holder_curr : ptr; holder_prev : ptr }.

Definition contains_start (d : Z) : Reader := mkReader d RStart None None.

Definition goto (p : RPC) (r : Reader) : Reader := mkReader (data r) p (holder_curr r) (holder_prev r).

(** The holders are destroyed on the way out. *)
Definition done_ (b : bool) (r : Reader) : Reader := mkReader (data r) (RDone b) None None.

Definition contains_step (s : SWMRListSet) (r : Reader) : option Reader :=
  match pc r with
  | RStart => Some (goto (RElement at_head (head s)) r)
  | RElement p_prev None => Some (done_ false r)
  | RElement p_prev (Some curr) =>
      n <-? nodes s !! curr;
      if element n <? data r then Some (done_ false r) else Some (goto (RProtect p_prev curr) r)
  | RProtect p_prev curr => Some (mkReader (data r) (RValidate p_prev curr) (Some curr) (holder_prev r))
  | RValidate p_prev curr =>
      p <-? load p_prev s;
      if decide (p = Some curr) then Some (goto (RNext p_prev curr) r)
      else Some (mkReader (data r) RStart None (holder_prev r))
  | RNext p_prev curr =>
      n <-? nodes s !! curr;
      Some (goto (RLatest p_prev curr (next n)) r)
  | RLatest p_prev curr nxt =>
      latest_curr <-? load p_prev s;
      if decide (latest_curr = Some curr)
      then n <-? nodes s !! curr;
           if element n =? data r then Some (done_ true r)
           else Some (mkReader (data r) (RElement (next_of curr) nxt) (holder_prev r) (holder_curr r))
      else Some (goto RStart r)
  | RDone b => Some r
  end.

(** [contains] with nothing in between. *)
Fixpoint contains_run (fuel : nat) (s : SWMRListSet) (r : Reader) : option bool :=
  match fuel with
  | O => None
  | S fuel =>
      match pc r with
      | RDone b => Some b
      | _ => r <-? contains_step s r; contains_run fuel s r
      end
  end.

(** Five steps an element are enough. *)
Definition contains (d : Z) (s : SWMRListSet) : option bool :=
  contains_run (3 + 5 * S (size (nodes s))) s (contains_start d).

(** * Interleavings *)

Record State := mkState { set : SWMRListSet; writer : WPC; readers : list Reader }.

Definition protected (p : nat) (r : Reader) : Prop := holder_curr r = Some p \/ holder_prev r = Some p.
#[export] Instance protected_dec p r : Decision (protected p r) := ltac:(unfold protected; apply _).

Inductive Act :=
| AAdd (d : Z)
| ARemove (d : Z)
| AWriter
| AContains (d : Z)
| AReader (i : nat)
| AReclaim (p : nat).

(** An action that is not enabled does nothing; undefined behaviour is [None]. *)
Definition step (a : Act) (s : State) : option State :=
  match a with
  | AAdd d =>
      match writer s with
      | WIdle => r <-? add d (set s); Some (mkState r.2 WIdle (readers s))
      | _ => Some s
      end
  | ARemove d =>
      match writer s with
      | WIdle => r <-? remove_start d (set s); Some (mkState r.2 r.1.2 (readers s))
      | _ => Some s
      end
  | AWriter => r <-? remove_step (writer s) (set s); Some (mkState r.2 r.1 (readers s))
  | AContains d => Some (mkState (set s) (writer s) (readers s ++ [contains_start d]))
  | AReader i =>
      match readers s !! i with
      | None => Some s
      | Some r => r <-? contains_step (set s) r; Some (mkState (set s) (writer s) (<[i := r]> (readers s)))
      end
  | AReclaim p =>
      if decide (p ∈ retired (set s) /\ Forall (fun r => ~ protected p r) (readers s))
      then Some (mkState (mkSet (head (set s)) (delete p (nodes (set s))) (add_seq (set s)) (filter (fun q => q <> p) (retired (set s))))
                         (writer s) (readers s))
      else Some s
  end.

Fixpoint run (l : list Act) (s : State) : option State :=
  match l with
  | [] => Some s
  | a :: l => s <-? step a s; run l s
  end.

Definition state0 : State := mkState ctor WIdle [].

(** The elements, from the head. *)
Fixpoint to_list (fuel : nat) (f : gmap nat Node) (p : ptr) : list Z :=
  match fuel, p with
  | S fuel, Some a => match f !! a with Some n => element n :: to_list fuel f (next n) | None => [] end
  | _, _ => []
  end.

Definition members (s : SWMRListSet) : list Z := to_list (S (size (nodes s))) (nodes s) (head s).

(** * Segments *)

(** From [p] the nodes and elements of [xs], ending at [q]. *)
Fixpoint seg (f : gmap nat Node) (p : ptr) (xs : list (nat * Z)) (q : ptr) : Prop :=
  match xs with
  | [] => p = q
  | (a, x) :: xs => p = Some a /\ exists n, f !! a = Some n /\ element n = x /\ seg f (next n) xs q
  end.

(** Where the pointer behind [ys] is stored. *)
Fixpoint loc_after (base : loc) (ys : list (nat * Z)) : loc :=
  match ys with
  | [] => base
  | (a, _) :: ys => loc_after (next_of a) ys
  end.

Lemma loc_after_snoc base ys a x : loc_after base (ys ++ [(a, x)]) = next_of a.
Proof. revert base. by induction ys as [|[b y] ys IH]; intros base; simpl. Qed.

Lemma sw_seg_app f p ys zs q : seg f p (ys ++ zs) q <-> exists m, seg f p ys m /\ seg f m zs q.
Proof.
  revert p. induction ys as [|[a x] ys IH]; intros p; simpl.
  - split; [eauto|by intros (m & -> & H)].
  - split.
    + intros (-> & n & Hn & Hx & (m & H1 & H2)%IH). eauto 10.
    + intros (m & (-> & n & Hn & Hx & H1) & H2). split; [done|]. exists n. split_and!; [done..|]. apply IH. eauto.
Qed.

Lemma seg_frame f f' p xs q : (forall a, a ∈ xs.*1 -> f' !! a = f !! a) -> seg f p xs q -> seg f' p xs q.
Proof.
  revert p. induction xs as [|[a x] xs IH]; intros p Hf; simpl; [done|].
  intros (-> & n & Hn & Hx & H). split; [done|]. exists n. rewrite Hf by (by left). split_and!; [done..|].
  apply IH; [|done]. intros b Hb. apply Hf. by right.
Qed.

Lemma seg_dom f p xs q : seg f p xs q -> forall a, a ∈ xs.*1 -> a ∈ dom f.
Proof.
  revert p. induction xs as [|[a x] xs IH]; intros p; simpl; [by intros _ ? ?%elem_of_nil|].
  intros (-> & n & Hn & _ & H) b [->|Hb]%elem_of_cons; [by apply elem_of_dom|by eapply IH].
Qed.

Lemma seg_length f p xs q : NoDup xs.*1 -> seg f p xs q -> (length xs <= size f)%nat.
Proof.
  intros Hnd Hs. rewrite <-(length_fmap fst xs), <-size_dom, <-(size_list_to_set (C := gset nat)) by done.
  apply subseteq_size. intros a Ha. apply elem_of_list_to_set in Ha. by eapply seg_dom.
Qed.

Lemma to_list_seg f p xs fuel : seg f p xs None -> (length xs < fuel)%nat -> to_list fuel f p = xs.*2.
Proof.
  revert p fuel. induction xs as [|[a x] xs IH]; intros p fuel; simpl.
  - intros -> _. by destruct fuel.
  - intros (-> & n & Hn & <- & H) Hf. destruct fuel as [|fuel]; [lia|]. simpl. rewrite Hn. f_equal. apply IH; [done|lia].
Qed.

Lemma load_after s base p ys q : load base s = Some p -> seg (nodes s) p ys q -> load (loc_after base ys) s = Some q.
Proof.
  revert base p. induction ys as [|[a x] ys IH]; intros base p Hb; simpl; [by intros <-|].
  intros (-> & n & Hn & _ & H). apply (IH _ (next n)); [|done]. simpl. by rewrite Hn.
Qed.

Lemma seg_next f p xs a n c : seg f p xs None -> a ∈ xs.*1 -> f !! a = Some n -> next n = Some c -> c ∈ xs.*1.
Proof.
  revert p. induction xs as [|[b x] xs IH]; intros p; simpl; [by intros _ ?%elem_of_nil|].
  intros (-> & m & Hm & _ & H) [->|Ha]%elem_of_cons Hn Hc.
  - simplify_eq. destruct xs as [|[b' y] xs]; simpl in H; [congruence|]. destruct H as [H _]. assert (b' = c) as -> by congruence. right. left.
  - right. by eapply IH.
Qed.

Lemma store_after s ys q q' : NoDup ys.*1 -> seg (nodes s) (head s) ys q ->
  exists s', store (loc_after at_head ys) q' s = Some s' /\ seg (nodes s') (head s') ys q' /\
    (forall a, a ∉ ys.*1 -> nodes s' !! a = nodes s !! a) /\ dom (nodes s') = dom (nodes s) /\
    add_seq s' = add_seq s /\ retired s' = retired s.
Proof.
  destruct ys as [|[a x] ys _] using rev_ind; intros Hnd Hs.
  - simpl in *. eexists. split; [done|]. simpl. by split_and!.
  - rewrite loc_after_snoc. apply sw_seg_app in Hs as (m & H1 & H2). simpl in H2. destruct H2 as (-> & n & Hn & Hx & Hq).
    simpl. rewrite Hn. eexists. split; [done|]. simpl. rewrite fmap_app in *. simpl in *.
    apply NoDup_app in Hnd as (_ & Hd & _).
    assert (Hay : a ∉ ys.*1) by (intros Ha; apply (Hd a Ha); by left). split_and!; [| | |done|done].
    + apply sw_seg_app. exists (Some a). split.
      * eapply seg_frame; [|exact H1]. intros b Hb. apply lookup_insert_ne. congruence.
      * simpl. split; [done|]. exists (set_next q' n). by rewrite lookup_insert_eq.
    + intros b Hb. apply lookup_insert_ne. intros ->. apply Hb, elem_of_app. right. by left.
    + by apply dom_insert_lookup_L.
Qed.

Lemma walk_ok s d fuel : forall base curr zs, seg (nodes s) curr zs None -> (length zs < fuel)%nat ->
  exists ys zs', zs = ys ++ zs' /\ walk fuel d base curr s = Some (loc_after base ys) /\ Forall (fun x => x < d) ys.*2 /\
    (forall x, zs'.*2 !! 0%nat = Some x -> d <= x).
Proof.
  induction fuel as [|fuel IH]; intros base curr zs Hs Hf; [lia|]. destruct zs as [|[a x] zs]; simpl in Hs.
  - subst curr. exists [], []. simpl. split_and!; [done..|constructor|done].
  - destruct Hs as (-> & n & Hn & Hx & Hs). cbn [walk]. rewrite Hn. destruct (d <=? element n) eqn:E; wz_bool.
    + exists [], ((a, x) :: zs). split_and!; [done..|constructor|]. intros y [= <-]. lia.
    + destruct (IH (next_of a) (next n) zs Hs) as (ys & zs' & -> & -> & Hys & Hzs); [simpl in Hf; lia|].
      exists ((a, x) :: ys), zs'. split_and!; [done..| |done]. simpl. constructor; [lia|done].
Qed.

(** * The invariant of the writer *)

Definition writing (w : WPC) : ptr :=
  match w with WIdle => None | WUnlinked c | WCleared c => Some c end.

Record ok (s : SWMRListSet) (w : WPC) (xs : list (nat * Z)) : Prop := mkOk {
  ok_seg : seg (nodes s) (head s) xs None;
  ok_nodup : NoDup xs.*1;
  ok_sorted : StronglySorted Z.lt xs.*2;
  ok_next : forall a n, nodes s !! a = Some n ->
    a ∈ xs.*1 \/ next n = None \/ (w = WUnlinked a /\ forall c, next n = Some c -> c ∈ xs.*1);
  ok_retired : forall a, a ∈ retired s -> (a ∉ xs.*1) /\ a ∈ dom (nodes s);
  ok_writing : forall c, writing w = Some c -> (c ∉ xs.*1) /\ (c ∉ retired s) /\ c ∈ dom (nodes s)
}.

Lemma ok_ctor : ok ctor WIdle [].
Proof.
  split; simpl; [done|apply NoDup_nil_2|constructor| | |done].
  - intros a n H. by rewrite lookup_empty in H.
  - intros a H. by apply elem_of_nil in H.
Qed.

(** No pointer of the heap leads out of the list. *)
Lemma next_in s w xs a n c : ok s w xs -> nodes s !! a = Some n -> next n = Some c -> c ∈ xs.*1.
Proof.
  intros Hok Ha Hc. destruct (ok_next _ _ _ Hok a n Ha) as [H|[H|[_ H]]]; [|congruence|by apply H].
  eapply seg_next; [apply Hok|done..].
Qed.

Lemma load_in s w xs l c : ok s w xs -> load l s = Some (Some c) -> c ∈ xs.*1.
Proof.
  intros Hok. destruct l as [|p]; simpl.
  - intros [= Hh]. pose proof (ok_seg _ _ _ Hok) as Hs. rewrite Hh in Hs. destruct xs as [|[a x] xs]; simpl in Hs; [done|].
    destruct Hs as ([= ->] & _). by left.
  - destruct (nodes s !! p) as [n|] eqn:Hn; [|done]. intros [= Hc]. by eapply next_in.
Qed.

Lemma ok_members s w xs : ok s w xs -> members s = xs.*2.
Proof.
  intros H. apply to_list_seg; [apply H|]. pose proof (seg_length _ _ _ _ (ok_nodup _ _ _ H) (ok_seg _ _ _ H)). lia.
Qed.

(** The chain is cut where the search for [d] stops. *)
Lemma find_ok s w xs d : ok s w xs ->
  exists ys zs q, xs = ys ++ zs /\ find_first_small d s = Some (loc_after at_head ys) /\
    seg (nodes s) (head s) ys q /\ seg (nodes s) q zs None /\ load (loc_after at_head ys) s = Some q /\
    Forall (fun x => x < d) ys.*2 /\ (forall x, x ∈ zs.*2 -> d <= x).
Proof.
  intros Hok. pose proof (seg_length _ _ _ _ (ok_nodup _ _ _ Hok) (ok_seg _ _ _ Hok)) as Hlen.
  destruct (walk_ok s d (S (size (nodes s))) at_head (head s) xs) as (ys & zs & -> & Hw & Hys & Hzs); [apply Hok|lia|].
  pose proof (ok_seg _ _ _ Hok) as Hs. apply sw_seg_app in Hs as (q & H1 & H2).
  exists ys, zs, q. split_and!; [done..|by eapply load_after|done|].
  pose proof (ok_sorted _ _ _ Hok) as Hso. rewrite fmap_app in Hso. apply StronglySorted_app in Hso as (_ & _ & Hso).
  intros x Hx. destruct zs as [|[b y] zs]; [by apply elem_of_nil in Hx|]. simpl in *. specialize (Hzs y eq_refl).
  apply elem_of_cons in Hx as [->|Hx]; [done|]. apply StronglySorted_inv in Hso as [_ Hall].
  rewrite Forall_forall in Hall. specialize (Hall x Hx). lia.
Qed.

(** Whether the element is there can be read off the node where the search stops. *)
Lemma holds_ok s w ys zs q d : ok s w (ys ++ zs) -> seg (nodes s) q zs None ->
  Forall (fun x => x < d) ys.*2 -> (forall x, x ∈ zs.*2 -> d <= x) ->
  holds q d s = Some (bool_decide (d ∈ (ys ++ zs).*2)) /\
  (d ∈ (ys ++ zs).*2 -> exists c zs', q = Some c /\ zs = (c, d) :: zs').
Proof.
  intros Hok Hs Hys Hzs. assert (Hiff : d ∈ (ys ++ zs).*2 <-> d ∈ zs.*2).
  { rewrite fmap_app, elem_of_app. split; [|by right]. intros [H|H]; [|done]. rewrite Forall_forall in Hys. specialize (Hys d H). lia. }
  rewrite (bool_decide_ext _ _ Hiff), Hiff. destruct zs as [|[c x] zs]; simpl in Hs.
  - subst q. simpl. split; [|by intros ?%elem_of_nil]. f_equal.
  - destruct Hs as (-> & n & Hn & Hx & _). simpl. rewrite Hn, Hx.
    assert (Hd : d ∈ x :: zs.*2 <-> x = d).
    { split; [|intros ->; by left]. intros [->|Hin]%elem_of_cons; [done|].
      pose proof (ok_sorted _ _ _ Hok) as Hso. rewrite fmap_app in Hso. apply StronglySorted_app in Hso as (_ & _ & Hso).
      apply StronglySorted_inv in Hso as [_ Hall]. rewrite Forall_forall in Hall. specialize (Hall d Hin).
      specialize (Hzs x ltac:(by left)). simpl in Hall. lia. }
    split.
    + f_equal. rewrite (bool_decide_ext _ _ Hd). symmetry. destruct (x =? d) eqn:E; wz_bool; [by apply bool_decide_true|by apply bool_decide_false].
    + intros ->%Hd. eauto.
Qed.

Lemma new_node_fresh s w xs : ok s w xs -> new_id (nodes s) ∉ dom (nodes s).
Proof. intros _. apply not_elem_of_dom, new_id_fresh. Qed.

Lemma add_ok s xs d : ok s WIdle xs ->
  exists s' xs', add d s = Some (bool_decide (d ∉ xs.*2), s') /\ ok s' WIdle xs' /\
    (forall x, x ∈ xs'.*2 <-> x = d \/ x ∈ xs.*2) /\ dom (nodes s) ⊆ dom (nodes s') /\ retired s' = retired s.
Proof.
  intros Hok. destruct (find_ok s WIdle xs d Hok) as (ys & zs & q & -> & Hf & Hs1 & Hs2 & Hl & Hys & Hzs).
  destruct (holds_ok s WIdle ys zs q d Hok Hs2 Hys Hzs) as [Hh Hin].
  unfold add. rewrite Hf, Hl, Hh. case_bool_decide as Hd.
  - exists s, (ys ++ zs). rewrite bool_decide_false by (intros H; by apply H). split_and!; [done..| |done|done].
    intros x. split; [by right|]. by intros [->|?].
  - rewrite bool_decide_true by done. set (node := new_id (nodes s)).
    set (s1 := mkSet _ _ _ _). assert (Hfr : node ∉ dom (nodes s)) by (by eapply new_node_fresh).
    pose proof (seg_dom _ _ _ _ (ok_seg _ _ _ Hok)) as Hdom. rewrite fmap_app in Hdom.
    assert (Hny : node ∉ ys.*1) by (intros H; apply Hfr, Hdom, elem_of_app; by left).
    assert (Hnz : node ∉ zs.*1) by (intros H; apply Hfr, Hdom, elem_of_app; by right).
    pose proof (ok_nodup _ _ _ Hok) as Hnd. rewrite fmap_app in Hnd. apply NoDup_app in Hnd as (Hndy & Hdis & Hndz).
    assert (Hs1' : seg (nodes s1) (head s1) ys q).
    { eapply seg_frame; [|exact Hs1]. intros a Ha. apply lookup_insert_ne. congruence. }
    destruct (store_after s1 ys q (Some node) Hndy Hs1') as (s' & Hst & Hy' & Hfr' & Hd' & _ & Hr').
    change (head s) with (head s1). rewrite Hst. exists s', (ys ++ (node, d) :: zs). split; [done|]. split; [|split; [|split]].
    + split; simpl.
      * apply sw_seg_app. exists (Some node). split; [done|]. simpl. split; [done|]. eexists.
        rewrite Hfr' by done. split; [apply lookup_insert_eq|]. split; [done|]. simpl.
        eapply seg_frame; [|exact Hs2]. intros a Ha. rewrite Hfr' by (intros H; by eapply Hdis).
        apply lookup_insert_ne. congruence.
      * rewrite fmap_app. simpl. apply NoDup_app. split; [done|]. split; [|by constructor].
        intros a Ha [->|Hz]%elem_of_cons; [done|by eapply Hdis].
      * pose proof (ok_sorted _ _ _ Hok) as Hso. rewrite fmap_app in *. apply StronglySorted_app in Hso as (Hc & Hsy & Hsz).
        simpl. apply StronglySorted_app. rewrite Forall_forall in Hys. split_and!; [|done|].
        -- intros x y Hx [->|Hy]%elem_of_cons; [by apply Hys|by apply Hc].
        -- constructor; [done|]. apply Forall_forall. intros y Hy. assert (d <> y).
           { intros ->. apply Hd. apply elem_of_app. by right. }
           specialize (Hzs y Hy). lia.
      * intros a n Ha. destruct (decide (a ∈ (ys ++ (node, d) :: zs).*1)) as [|Hna]; [by left|right].
        rewrite fmap_app in Hna. simpl in Hna. rewrite elem_of_app, elem_of_cons in Hna.
        rewrite Hfr' in Ha by tauto. simpl in Ha. rewrite lookup_insert_ne in Ha by (intros ->; tauto).
        destruct (ok_next _ _ _ Hok a n Ha) as [H|[H|[H _]]]; [|by left|done].
        exfalso. apply Hna. rewrite fmap_app, elem_of_app in H. tauto.
      * rewrite Hr', Hd'. simpl. intros a Ha. destruct (ok_retired _ _ _ Hok a Ha) as [H1 H2]. rewrite dom_insert. split; [|by apply elem_of_union_r].
        rewrite fmap_app in *. simpl. rewrite elem_of_app, elem_of_cons. intros [H|[->|H]]; [apply H1, elem_of_app; by left|done|apply H1, elem_of_app; by right].
      * done.
    + intros x. rewrite !fmap_app, !elem_of_app. simpl. rewrite elem_of_cons. tauto.
    + rewrite Hd'. simpl. rewrite dom_insert. apply union_subseteq_r.
    + done.
Qed.

Lemma remove_start_ok s xs d : ok s WIdle xs ->
  exists s' w xs', remove_start d s = Some (bool_decide (d ∈ xs.*2), w, s') /\ ok s' w xs' /\
    (forall x, x ∈ xs'.*2 <-> x <> d /\ x ∈ xs.*2) /\ dom (nodes s') = dom (nodes s) /\ retired s' = retired s.
Proof.
  intros Hok. destruct (find_ok s WIdle xs d Hok) as (ys & zs & q & -> & Hf & Hs1 & Hs2 & Hl & Hys & Hzs).
  destruct (holds_ok s WIdle ys zs q d Hok Hs2 Hys Hzs) as [Hh Hin].
  unfold remove_start. rewrite Hf, Hl, Hh. case_bool_decide as Hd.
  2:{ exists s, WIdle, (ys ++ zs). split; [by destruct q|]. split_and!; [done| |done..]. intros x. split; [|by intros [_ ?]].
      intros Hx. split; [|done]. intros ->. by apply Hd. }
  destruct (Hin Hd) as (c & zs' & -> & ->). simpl in Hs2. destruct Hs2 as (_ & n & Hn & _ & Hs2). rewrite Hn.
  pose proof (ok_nodup _ _ _ Hok) as Hnd. rewrite fmap_app in Hnd. simpl in Hnd.
  apply NoDup_app in Hnd as (Hndy & Hdis & [Hcz Hndz]%NoDup_cons).
  destruct (store_after s ys (Some c) (next n) Hndy Hs1) as (s' & -> & Hy' & Hfr' & Hd' & _ & Hr').
  assert (Hcy : c ∉ ys.*1) by (intros H; apply (Hdis c H); by left).
  assert (Hxs : (ys ++ zs').*1 = ys.*1 ++ zs'.*1) by apply fmap_app.
  assert (Hseg : seg (nodes s') (next n) zs' None).
  { eapply seg_frame; [|exact Hs2]. intros a Ha. apply Hfr'. intros H. apply (Hdis a H). by right. }
  exists s', (WUnlinked c), (ys ++ zs'). split; [done|]. split; [|split; [|done]].
  - split; rewrite ?Hxs; rewrite ?Hd', ?Hr'.
    + apply sw_seg_app. eauto.
    + apply NoDup_app. split; [done|]. split; [|done]. intros a Ha Hz. apply (Hdis a Ha). by right.
    + pose proof (ok_sorted _ _ _ Hok) as Hso. rewrite fmap_app in *. simpl in Hso.
      apply StronglySorted_app in Hso as (Hc & Hsy & [Hsz _]%StronglySorted_inv). apply StronglySorted_app.
      split_and!; [|done..]. intros x y Hx Hy. apply Hc; [done|by right].
    + intros a m Ha. destruct (decide (a ∈ ys.*1 ++ zs'.*1)) as [|Hna]; [by left|right].
      rewrite elem_of_app in Hna. rewrite Hfr' in Ha by tauto. destruct (decide (a = c)) as [->|Hac].
      * right. split; [done|]. intros e He. assert (m = n) as -> by congruence. apply elem_of_app. right.
        destruct zs' as [|[b y] zs']; simpl in Hs2; [congruence|]. destruct Hs2 as [Hb _]. assert (b = e) as -> by congruence. left.
      * left. destruct (ok_next _ _ _ Hok a m Ha) as [H|[H|[H _]]]; [|done..].
        exfalso. rewrite fmap_app, elem_of_app in H. simpl in H. rewrite elem_of_cons in H. tauto.
    + intros a Ha. destruct (ok_retired _ _ _ Hok a Ha) as [H1 H2]. split; [|done].
      rewrite fmap_app, elem_of_app in H1. simpl in H1. rewrite elem_of_cons in H1. rewrite elem_of_app. tauto.
    + intros c' [= <-]. split; [rewrite elem_of_app; tauto|]. split; [|by apply elem_of_dom].
      intros Hc. destruct (ok_retired _ _ _ Hok c Hc) as [H _]. apply H. rewrite fmap_app. apply elem_of_app. right. by left.
  - intros x. rewrite !fmap_app, !elem_of_app. simpl. rewrite elem_of_cons.
    pose proof (ok_sorted _ _ _ Hok) as Hso. rewrite fmap_app in Hso. simpl in Hso.
    apply StronglySorted_app in Hso as (_ & _ & [_ Hsz]%StronglySorted_inv). rewrite Forall_forall in Hsz, Hys.
    split; [|tauto]. intros [H|H]; (split; [|tauto]); intros ->; [specialize (Hys _ H)|specialize (Hsz _ H); simpl in Hsz]; lia.
Qed.

Lemma remove_step_ok s w xs : ok s w xs ->
  exists w' s', remove_step w s = Some (w', s') /\ ok s' w' xs /\ dom (nodes s') = dom (nodes s) /\
    (forall a, a ∈ retired s -> a ∈ retired s').
Proof.
  intros Hok. destruct w as [|c|c]; cbn [remove_step].
  - exists WIdle, s. by split_and!.
  - destruct (ok_writing _ _ _ Hok c eq_refl) as (H1 & H2 & [n Hn]%elem_of_dom). cbn [store]. rewrite Hn.
    eexists _, _. split; [done|]. assert (Hdm : dom (<[c:=set_next None n]> (nodes s)) = dom (nodes s)) by (by apply dom_insert_lookup_L).
    split; [|done]. split; simpl; rewrite ?Hdm.
    + eapply seg_frame; [|apply Hok]. intros a Ha. apply lookup_insert_ne. congruence.
    + apply Hok.
    + apply Hok.
    + intros a m. rewrite lookup_insert_Some. intros [[<- <-]|[Hne Ha]]; [right; by left|].
      destruct (ok_next _ _ _ Hok a m Ha) as [H|[H|[[= H] _]]]; [by left|right; by left|done].
    + apply Hok.
    + intros c' [= <-]. split_and!; [done..|]. by apply elem_of_dom.
  - destruct (ok_writing _ _ _ Hok c eq_refl) as (H1 & H2 & H3). eexists _, _. split; [done|]. split; [|split; [done|]].
    + destruct Hok as [Hsg Hnd Hso Hnx Hre Hwr]. split; simpl; [done..| | |done].
      * intros a m Ha. destruct (Hnx a m Ha) as [H|[H|[H _]]]; [by left|right; by left|done].
      * intros a [Ha|Ha]%elem_of_app; [by apply Hre|]. by apply list_elem_of_singleton in Ha as ->.
    + intros a Ha. simpl. apply elem_of_app. by left.
Qed.

(** * The readers *)

(** The node whose [next] field is [l] is protected by [holder_prev] and allocated. *)
Definition loc_ok (s : SWMRListSet) (r : Reader) (l : loc) : Prop :=
  match l with at_head => True | next_of p => holder_prev r = Some p /\ p ∈ dom (nodes s) end.

Definition reader_ok (s : SWMRListSet) (r : Reader) : Prop :=
  match pc r with
  | RStart | RDone _ => True
  | RElement l _ | RProtect l _ => loc_ok s r l
  | RValidate l c => loc_ok s r l /\ holder_curr r = Some c
  | RNext l c | RLatest l c _ => loc_ok s r l /\ holder_curr r = Some c /\ c ∈ dom (nodes s)
  end.

(** A reader only minds which of its protected nodes are allocated. *)
Lemma reader_ok_dom s s' r : (forall p, protected p r -> p ∈ dom (nodes s) -> p ∈ dom (nodes s')) ->
  reader_ok s r -> reader_ok s' r.
Proof.
  intros Hd. assert (Hl : forall l, loc_ok s r l -> loc_ok s' r l).
  { intros [|p]; [done|]. intros [Hh Hp]. split; [done|]. apply Hd; [by right|done]. }
  unfold reader_ok. destruct (pc r); try done; [by apply Hl..| | |].
  - intros [H1 H2]. split; [by apply Hl|done].
  - intros (H1 & H2 & H3). split_and!; [by apply Hl|done|]. apply Hd; [by left|done].
  - intros (H1 & H2 & H3). split_and!; [by apply Hl|done|]. apply Hd; [by left|done].
Qed.

(** What can go wrong in a reader. *)
Definition unprotected_read (s : SWMRListSet) (r : Reader) : Prop :=
  exists l c, pc r = RElement l (Some c) /\ nodes s !! c = None.

Lemma load_ok s r l : loc_ok s r l -> exists p, load l s = Some p.
Proof.
  destruct l as [|p]; simpl; [eauto|]. intros [_ [n Hn]%elem_of_dom]. rewrite Hn. eauto.
Qed.

Lemma contains_step_ok s w xs r : ok s w xs -> reader_ok s r ->
  match contains_step s r with
  | Some r' => reader_ok s r' /\ data r' = data r /\ (pc r' = RDone true -> pc r <> RDone true -> data r ∈ xs.*2)
  | None => unprotected_read s r
  end.
Proof.
  intros Hok. unfold reader_ok, contains_step. destruct (pc r) as [|l [c|]|l c|l c|l c|l c q|b] eqn:Hpc.
  - by intros _.
  - intros Hl. destruct (nodes s !! c) as [n|] eqn:Hn; [|by exists l, c]. destruct (element n <? data r); by repeat split.
  - by intros _.
  - intros Hl. simpl. by repeat split.
  - intros [Hl Hc]. destruct (load_ok s r l Hl) as [p Hp]. rewrite Hp. destruct (decide (p = Some c)) as [->|]; [|by repeat split].
    simpl. split_and!; [done|done| |done|done]. eapply seg_dom; [apply Hok|]. by eapply load_in.
  - intros (Hl & Hh & Hc). pose proof Hc as [n Hn]%elem_of_dom. rewrite Hn. simpl. by split_and!.
  - intros (Hl & Hh & Hc). destruct (load_ok s r l Hl) as [p Hp]. rewrite Hp. destruct (decide (p = Some c)) as [->|]; [|by repeat split].
    pose proof Hc as [n Hn]%elem_of_dom. rewrite Hn. destruct (element n =? data r) eqn:E; wz_bool; [|by repeat split].
    simpl. split_and!; [done..|]. intros _ _. pose proof (load_in _ _ _ _ _ Hok Hp) as Hin.
    apply list_elem_of_fmap in Hin as ([a x] & -> & Hin). apply list_elem_of_fmap. exists (a, x). split; [|done].
    simpl in *. rewrite <-E. pose proof (ok_seg _ _ _ Hok) as Hs. apply list_elem_of_split in Hin as (l1 & l2 & ->).
    apply sw_seg_app in Hs as (m & _ & Hs). simpl in Hs. destruct Hs as (_ & n' & Hn' & <- & _). congruence.
  - intros _. rewrite Hpc. split; [done|]. split; [done|]. congruence.
Qed.

(** * Every interleaving *)

Record sound (s : State) (xs : list (nat * Z)) : Prop := mkSound {
  so_ok : ok (set s) (writer s) xs;
  so_readers : Forall (reader_ok (set s)) (readers s)
}.

Lemma sound0 : sound state0 [].
Proof. split; [apply ok_ctor|constructor]. Qed.

Lemma readers_mono s s' rs : dom (nodes s) ⊆ dom (nodes s') -> Forall (reader_ok s) rs -> Forall (reader_ok s') rs.
Proof. intros Hd H. eapply Forall_impl; [exact H|]. intros r. apply reader_ok_dom. intros p _. apply Hd. Qed.

Lemma sw_reclaim_ok s w xs p : ok s w xs -> p ∈ retired s ->
  ok (mkSet (head s) (delete p (nodes s)) (add_seq s) (filter (fun q => q <> p) (retired s))) w xs.
Proof.
  intros Hok Hp. destruct (ok_retired _ _ _ Hok p Hp) as [Hpx _]. destruct Hok as [Hsg Hnd Hso Hnx Hre Hwr].
  split; simpl; [|done|done| | |].
  - eapply seg_frame; [|exact Hsg]. intros a Ha. apply lookup_delete_ne. congruence.
  - intros a n [_ Ha]%lookup_delete_Some. by eapply Hnx.
  - intros a [Hne Ha]%list_elem_of_filter. destruct (Hre a Ha) as [? ?]. split; [done|].
    rewrite dom_delete. apply elem_of_difference. split; [done|]. by rewrite elem_of_singleton.
  - intros c Hc. destruct (Hwr c Hc) as (H1 & H2 & H3). split; [done|]. split.
    + intros [_ H]%list_elem_of_filter. done.
    + rewrite dom_delete. apply elem_of_difference. split; [done|]. rewrite elem_of_singleton. congruence.
Qed.

Lemma step_sound a s xs : sound s xs ->
  match step a s with
  | Some s' => exists xs', sound s' xs'
  | None => exists i r, a = AReader i /\ readers s !! i = Some r /\ unprotected_read (set s) r
  end.
Proof.
  intros [Hok Hrd]. destruct a as [d|d| |d|i|p]; cbn [step].
  - destruct (writer s) eqn:Hw; [|exists xs; by split; rewrite ?Hw..].
    destruct (add_ok _ _ d Hok) as (s' & xs' & -> & Hok' & _ & Hd & _). exists xs'. split; [done|]. by eapply readers_mono.
  - destruct (writer s) eqn:Hw; [|exists xs; by split; rewrite ?Hw..].
    destruct (remove_start_ok _ _ d Hok) as (s' & w & xs' & -> & Hok' & _ & Hd & _). exists xs'. split; [done|].
    eapply readers_mono; [|exact Hrd]. simpl. by rewrite Hd.
  - destruct (remove_step_ok _ _ _ Hok) as (w & s' & -> & Hok' & Hd & _). exists xs. split; [done|].
    eapply readers_mono; [|exact Hrd]. simpl. by rewrite Hd.
  - exists xs. split; [done|]. simpl. apply Forall_app. split; [done|]. by constructor.
  - destruct (readers s !! i) as [r|] eqn:Hr; [|by exists xs].
    pose proof (contains_step_ok _ _ _ r Hok (Forall_lookup_1 _ _ _ _ Hrd Hr)) as Hc.
    destruct (contains_step (set s) r) as [r'|]; [|eauto]. exists xs. split; [done|]. simpl.
    apply Forall_insert; [done|]. apply Hc.
  - case_decide as Hp; [|by exists xs]. destruct Hp as [Hp Hfr]. exists xs. split; simpl.
    + by apply sw_reclaim_ok.
    + rewrite Forall_forall in *. intros r Hr. apply (reader_ok_dom (set s)); [|by apply Hrd]. intros q Hq Hd. simpl.
      rewrite dom_delete. apply elem_of_difference. split; [done|]. rewrite elem_of_singleton. intros ->. by apply (Hfr r).
Qed.

Lemma run_sound l : forall s s' xs, sound s xs -> run l s = Some s' -> exists xs', sound s' xs'.
Proof.
  induction l as [|a l IH]; intros s s' xs Hs; simpl; [intros [= <-]; eauto|].
  pose proof (step_sound a s xs Hs) as H. destruct (step a s) as [s1|]; [|done]. destruct H as [xs1 H1]. by eapply IH.
Qed.


(** * One caller at a time *)

(** [contains] on a sorted list. *)
Lemma contains_run_ok s w xs d : ok s w xs -> forall zs ys q r fuel, xs = ys ++ zs -> seg (nodes s) q zs None ->
  load (loc_after at_head ys) s = Some q -> pc r = RElement (loc_after at_head ys) q -> data r = d ->
  (2 + 5 * length zs <= fuel)%nat ->
  contains_run fuel s r = Some (bool_decide (zs.*2 !! 0%nat = Some d)).
Proof.
  intros Hok zs. induction zs as [|[c x] zs IH]; intros ys q r fuel Hxs Hs Hl Hpc Hd Hf; simpl in Hs.
  - subst q. destruct fuel as [|[|fuel]]; [lia..|]. cbn [contains_run]. rewrite Hpc. unfold contains_step. rewrite Hpc. done.
  - destruct Hs as (-> & n & Hn & Hx & Hs). destruct fuel as [|[|[|[|[|fuel]]]]]; [simpl in Hf; lia..|].
    cbn [contains_run]. rewrite Hpc. unfold contains_step at 1. rewrite Hpc, Hn, Hd, Hx.
    destruct (x <? d) eqn:E; wz_bool.
    { cbn. f_equal. symmetry. apply bool_decide_false. intros [= ->]. lia. }
    cbn [pc goto]. unfold contains_step at 1. cbn [pc goto]. unfold contains_step at 1. cbn [pc goto]. rewrite Hl, decide_True by done.
    cbn [pc goto]. unfold contains_step at 1. cbn [pc goto]. rewrite Hn.
    cbn [pc goto]. unfold contains_step at 1. cbn [pc goto]. rewrite Hl, decide_True, Hn, Hx by done. cbn [data goto]. rewrite Hd.
    destruct (x =? d) eqn:E2; wz_bool.
    { destruct fuel as [|fuel]; [simpl in Hf; lia|]. cbn. f_equal. symmetry. apply bool_decide_true. by rewrite E2. }
    erewrite (IH (ys ++ [(c, x)]) (next n)); [| |done| | |done|simpl in Hf; lia].
    + f_equal. apply bool_decide_ext. pose proof (ok_sorted _ _ _ Hok) as Hso. rewrite Hxs, fmap_app in Hso.
      apply StronglySorted_app in Hso as (_ & _ & Hso). simpl in Hso. apply StronglySorted_inv in Hso as [_ Hall].
      rewrite Forall_forall in Hall. simpl. split; [|congruence]. intros H. apply list_elem_of_lookup_2, Hall in H. simpl in H. lia.
    + by rewrite <-app_assoc.
    + rewrite loc_after_snoc. simpl. by rewrite Hn.
    + by rewrite loc_after_snoc.
Qed.

Lemma contains_ok s w xs d : ok s w xs -> contains d s = Some (bool_decide (xs.*2 !! 0%nat = Some d)).
Proof.
  intros Hok. unfold contains. change (3 + ?n)%nat with (S (2 + n)). cbn [contains_run contains_start pc].
  unfold contains_step. cbn [pc contains_start]. pose proof (seg_length _ _ _ _ (ok_nodup _ _ _ Hok) (ok_seg _ _ _ Hok)).
  apply (contains_run_ok s w xs d Hok xs [] (head s)); [done|apply Hok|done..|lia].
Qed.

Inductive Op := OAdd (d : Z) | ORemove (d : Z).

Definition apply (o : Op) (s : SWMRListSet) : option (bool * SWMRListSet) :=
  match o with OAdd d => add d s | ORemove d => remove d s end.

Fixpoint applies (l : list Op) (s : SWMRListSet) : option (list bool * SWMRListSet) :=
  match l with
  | [] => Some ([], s)
  | o :: l => r <-? apply o s; r' <-? applies l r.2; Some (r.1 :: r'.1, r'.2)
  end.

(** The mathematical set. *)
Definition spec_apply (o : Op) (X : gset Z) : bool * gset Z :=
  match o with
  | OAdd d => (bool_decide (d ∉ X), {[d]} ∪ X)
  | ORemove d => (bool_decide (d ∈ X), X ∖ {[d]})
  end.

Fixpoint spec_applies (l : list Op) (X : gset Z) : list bool * gset Z :=
  match l with
  | [] => ([], X)
  | o :: l => let r := spec_apply o X in let r' := spec_applies l r.2 in (r.1 :: r'.1, r'.2)
  end.

Lemma sw_remove_ok s xs d : ok s WIdle xs ->
  exists s' xs', remove d s = Some (bool_decide (d ∈ xs.*2), s') /\ ok s' WIdle xs' /\
    (forall x, x ∈ xs'.*2 <-> x <> d /\ x ∈ xs.*2).
Proof.
  intros Hok. unfold remove. destruct (remove_start_ok s xs d Hok) as (s1 & w1 & xs1 & Hst & Hok1 & Hx & _ & _). rewrite Hst.
  destruct w1 as [|c|c].
  - exists s1, xs1. by split_and!.
  - destruct (remove_step_ok _ _ _ Hok1) as (w2 & s2 & H2 & Hok2 & _). rewrite H2. cbn [fst snd].
    assert (w2 = WCleared c) as -> by (cbn [remove_step] in H2; destruct (store _ _ _); congruence).
    destruct (remove_step_ok _ _ _ Hok2) as (w3 & s3 & H3 & Hok3 & _). rewrite H3. injection H3 as <- <-.
    eexists _, xs1. split; [done|]. by split.
  - exfalso. unfold remove_start in Hst. destruct (find_first_small d s); [|done]. destruct (load _ s); [|done].
    destruct (holds _ d s) as [b|]; [|done]. destruct o as [c'|], b; try done. destruct (nodes s !! c'); [|done]. destruct (store _ _ s); done.
Qed.

Lemma apply_ok o s xs X : ok s WIdle xs -> (forall x, x ∈ xs.*2 <-> x ∈ X) ->
  exists s' xs', apply o s = Some ((spec_apply o X).1, s') /\ ok s' WIdle xs' /\ (forall x, x ∈ xs'.*2 <-> x ∈ (spec_apply o X).2).
Proof.
  intros Hok HX. destruct o as [d|d]; simpl.
  - destruct (add_ok s xs d Hok) as (s' & xs' & -> & Hok' & Hx & _). exists s', xs'. split; [|split; [done|]].
    + do 2 f_equal. apply bool_decide_ext. by rewrite HX.
    + intros x. by rewrite Hx, elem_of_union, elem_of_singleton, HX.
  - destruct (sw_remove_ok s xs d Hok) as (s' & xs' & -> & Hok' & Hx). exists s', xs'. split; [|split; [done|]].
    + do 2 f_equal. apply bool_decide_ext. by rewrite HX.
    + intros x. rewrite Hx, elem_of_difference, elem_of_singleton, HX. tauto.
Qed.

Lemma applies_ok l : forall s xs X, ok s WIdle xs -> (forall x, x ∈ xs.*2 <-> x ∈ X) ->
  exists s' xs', applies l s = Some ((spec_applies l X).1, s') /\ ok s' WIdle xs' /\ (forall x, x ∈ xs'.*2 <-> x ∈ (spec_applies l X).2).
Proof.
  induction l as [|o l IH]; intros s xs X Hok HX; cbn [applies spec_applies fst snd]; [eauto|].
  destruct (apply_ok o s xs X Hok HX) as (s1 & xs1 & -> & Hok1 & HX1). cbn [fst snd].
  destruct (IH s1 xs1 _ Hok1 HX1) as (s' & xs' & -> & Hok' & HX'). cbn [fst snd]. eauto.
Qed.

(** One caller at a time, [add] and [remove] are those of a set kept as a sorted list, but
    [contains] only finds the least element: the comparison that should stop at the first
    larger element stops at the first smaller one. *)
Theorem set_but_contains_finds_least l :
  exists s, applies l ctor = Some ((spec_applies l ∅).1, s) /\ StronglySorted Z.lt (members s) /\
    (forall x, x ∈ members s <-> x ∈ (spec_applies l ∅).2) /\
    (forall d, contains d s = Some (bool_decide (d ∈ (spec_applies l ∅).2 /\ set_Forall (fun x => d <= x) (spec_applies l ∅).2))).
Proof.
  destruct (applies_ok l ctor [] ∅ ok_ctor) as (s & xs & Ha & Hok & HX); [intros x; split; [by intros ?%elem_of_nil|by intros ?%elem_of_empty]|].
  exists s. rewrite (ok_members _ _ _ Hok). split; [done|]. split; [apply Hok|]. split; [done|].
  intros d. rewrite (contains_ok _ _ _ d Hok). f_equal. apply bool_decide_ext. rewrite <-HX.
  pose proof (ok_sorted _ _ _ Hok) as Hso. split.
  - intros H. destruct (xs.*2) as [|y ys]; [done|]. injection H as ->. split; [by left|].
    intros x [->|Hx]%HX%elem_of_cons; [lia|]. apply StronglySorted_inv in Hso as [_ Hall].
    rewrite Forall_forall in Hall. specialize (Hall x Hx). lia.
  - intros [Hd Hmin]. destruct (xs.*2) as [|y ys] eqn:E; [by apply elem_of_nil in Hd|]. simpl. f_equal.
    apply elem_of_cons in Hd as [->|Hd]; [done|]. apply StronglySorted_inv in Hso as [_ Hall].
    rewrite Forall_forall in Hall. specialize (Hall d Hd). assert (d <= y); [|lia]. apply Hmin, HX. by left.
Qed.

(** ** Examples *)

Lemma contains_example : let ops := [OAdd 3; OAdd 4; OAdd 5; OAdd 1; OAdd 2; ORemove 3] in
  (r <-? applies ops ctor; Some (members r.2)) = Some [1; 2; 4; 5] /\
  (r <-? applies ops ctor; contains 4 r.2) = Some false /\
  (r <-? applies ops ctor; contains 1 r.2) = Some true.
Proof. vm_compute. done. Qed.

(** A reader stops before the first node, which is then removed and reclaimed. *)
Definition freed_before_protected : list Act :=
  [AAdd 7; AContains 7; AReader 0; ARemove 7; AWriter; AWriter; AReclaim 1].

Lemma contains_use_after_free : exists s, run freed_before_protected state0 = Some s /\ step (AReader 0) s = None.
Proof. eexists. split; vm_compute; reflexivity. Qed.

(** A reader that finds its value while another value is removed and reclaimed. *)
Definition demo : list Act :=
  [AAdd 5; AAdd 7; AContains 5] ++ replicate 5 (AReader 0) ++ [ARemove 7; AWriter; AWriter; AReclaim 2].

Definition demo_state : State := default state0 (run demo state0).


End SwmrList.
