(* ===== verification/TopSort.v ===== *)
(** The topological sorts of src/small_test/graph_toplogical_sort.cpp.

    Nodes live in a heap and are named by addresses; the two sorts are one definition over
    the fields that play the part of inputs and outputs. The output on the console is the list
    of values that is returned. *)
From S2P Require Import Prelude.
Local Open Scope Z_scope.
Local Open Scope wz.

Module TopSort.

(** * Data *)

Record Node := mkNode { value : Z; deps : Z; inputs : list nat; outputs : list nat }.

Definition Node_new (v : Z) : Node := mkNode v 0 [] [].

Definition add_input (node : nat) (n : Node) : Node := mkNode (value n) (deps n) (inputs n ++ [node]) (outputs n).

(** [this->outputs.emplace_back(node)], then [node->add_input(this)]. *)
Definition add_output (this node : nat) (h : gmap nat Node) : option (gmap nat Node) :=
  n <-? h !! this;
  let h := <[this := mkNode (value n) (deps n) (inputs n) (outputs n ++ [node])]> h in
  o <-? h !! node;
  Some (<[node := add_input this o]> h).

Definition add_vertex (node : nat) (vertexs : list nat) : list nat := vertexs ++ [node].

Definition set_deps (d : Z) (n : Node) : Node := mkNode (value n) d (inputs n) (outputs n).

(** * The sorts *)

Section sort.
Context (ins outs : Node -> list nat).

(** The first loop. *)
Fixpoint init (vertexs : list nat) (h : gmap nat Node) (sorted : list nat) : option (gmap nat Node * list nat) :=
  match vertexs with
  | [] => Some (h, sorted)
  | node :: vertexs =>
      n <-? h !! node;
      let n := set_deps (Z.of_nat (length (ins n))) n in
      init vertexs (<[node := n]> h) (if deps n =? 0 then sorted ++ [node] else sorted)
  end.

(** The inner loop of the second. *)
Fixpoint relax (l : list nat) (h : gmap nat Node) (sorted : list nat) : option (gmap nat Node * list nat) :=
  match l with
  | [] => Some (h, sorted)
  | o :: l =>
      n <-? h !! o;
      let n := set_deps (deps n - 1) n in
      relax l (<[o := n]> h) (if deps n =? 0 then sorted ++ [o] else sorted)
  end.

Fixpoint drain (fuel : nat) (i : nat) (h : gmap nat Node) (sorted : list nat) : option (gmap nat Node * list nat) :=
  match sorted !! i with
  | None => Some (h, sorted)
  | Some node =>
      match fuel with
      | O => None
      | S fuel =>
          n <-? h !! node;
          r <-? relax (outs n) h sorted;
          drain fuel (S i) r.1 r.2
      end
  end.

(** A vertex is examined once, so the number of vertices is enough fuel. *)
Definition toplogical_sort (vertexs : list nat) (h : gmap nat Node) : option (gmap nat Node * list nat) :=
  r <-? init vertexs h [];
  drain (length vertexs) 0 r.1 r.2.

End sort.

Definition toplogical_sort_forward := toplogical_sort inputs outputs.
Definition toplogical_sort_backward := toplogical_sort outputs inputs.

(** What is printed. *)
Definition values (h : gmap nat Node) (sorted : list nat) : list Z := omap (fun p => value <$> h !! p) sorted.

(** * Well-formed graphs *)

(** How often [v] is in [l]. *)
Definition occ (v : nat) (l : list nat) : nat := length (filter (eq v) l).

(** Every edge is recorded at both ends, and ends in the heap. *)
Record linked (h : gmap nat Node) : Prop := mkLinked {
  ln_sym : forall u v nu nv, h !! u = Some nu -> h !! v = Some nv -> occ v (outputs nu) = occ u (inputs nv);
  ln_out : forall u nu v, h !! u = Some nu -> v ∈ outputs nu -> v ∈ dom h;
  ln_in : forall v nv u, h !! v = Some nv -> u ∈ inputs nv -> u ∈ dom h
}.

(** The vertices are the nodes of the heap, each added once. *)
Record graph_ok (vertexs : list nat) (h : gmap nat Node) : Prop := mkGraphOk {
  go_linked : linked h;
  go_nodup : NoDup vertexs;
  go_dom : forall v, v ∈ vertexs <-> v ∈ dom h
}.

Definition edge (h : gmap nat Node) (u v : nat) : Prop := exists n, h !! u = Some n /\ v ∈ outputs n.

Definition acyclic (h : gmap nat Node) : Prop := forall v, ~ tc (edge h) v v.

(** [u] comes before [v]. *)
Definition before (l : list nat) (u v : nat) : Prop := exists k, l !! k = Some v /\ u ∈ take k l.

Lemma occ_app v l1 l2 : occ v (l1 ++ l2) = (occ v l1 + occ v l2)%nat.
Proof. unfold occ. by rewrite filter_app, length_app. Qed.

Lemma occ_cons v x l : occ v (x :: l) = ((if decide (v = x) then 1 else 0) + occ v l)%nat.
Proof. unfold occ. rewrite filter_cons. by destruct (decide (v = x)). Qed.

Lemma occ_pos v l : v ∈ l <-> (0 < occ v l)%nat.
Proof.
  unfold occ. split.
  - intros H. destruct (filter (eq v) l) eqn:E; [|simpl; lia].
    assert (v ∈ filter (eq v) l) as Hv by (by apply list_elem_of_filter). rewrite E in Hv. by apply elem_of_nil in Hv.
  - intros H. destruct (filter (eq v) l) as [|x l'] eqn:E; [simpl in H; lia|].
    assert (x ∈ filter (eq v) l) as [-> Hx]%list_elem_of_filter by (rewrite E; by left). done.
Qed.

(** ** Paths *)

Lemma tc_iff {A} (R1 R2 : relation A) x y : (forall x y, R1 x y -> R2 x y) -> tc R1 x y -> tc R2 x y.
Proof. intros HR. induction 1 as [x y H|x z y H _ IH]; [by apply tc_once, HR|eapply tc_l; [by apply HR|done]]. Qed.

Lemma tc_last {A} (R : relation A) x y : tc R x y -> exists w, R w y.
Proof. induction 1 as [x y H|x z y _ _ [w Hw]]; eauto. Qed.

Lemma tc_flip {A} (R : relation A) x y : tc (flip R) x y -> tc R y x.
Proof. induction 1 as [x y H|x z y H _ IH]; [by apply tc_once|eapply tc_r; [exact IH|exact H]]. Qed.

(** ** Building a graph *)

Lemma linked_empty : linked ∅.
Proof. split; intros; by match goal with H : ∅ !! _ = Some _ |- _ => rewrite lookup_empty in H end. Qed.

Lemma linked_new p v h : h !! p = None -> linked h -> linked (<[p := Node_new v]> h).
Proof.
  intros Hp [Hs Ho Hi]. assert (Hnd : p ∉ dom h) by (by apply not_elem_of_dom). split.
  - intros u w nu nw. rewrite !lookup_insert_Some.
    intros [[<- <-]|[Hu Hnu]] [[<- <-]|[Hw Hnw]]; simpl; [done| | |by apply Hs].
    + change (occ w []) with 0%nat. destruct (decide (p ∈ inputs nw)) as [H|H].
      * exfalso. by eapply Hnd, Hi.
      * rewrite occ_pos in H. lia.
    + change (occ u []) with 0%nat. destruct (decide (p ∈ outputs nu)) as [H|H].
      * exfalso. by eapply Hnd, Ho.
      * rewrite occ_pos in H. lia.
  - intros u nu w. rewrite lookup_insert_Some, dom_insert, elem_of_union.
    intros [[<- <-]|[_ H]] Hw; [by apply elem_of_nil in Hw|right; by eapply Ho].
  - intros u nu w. rewrite lookup_insert_Some, dom_insert, elem_of_union.
    intros [[<- <-]|[_ H]] Hw; [by apply elem_of_nil in Hw|right; by eapply Hi].
Qed.

Lemma add_output_spec this node h : this ∈ dom h -> node ∈ dom h ->
  exists h', add_output this node h = Some h' /\ dom h' = dom h /\
    forall p n', h' !! p = Some n' -> exists n, h !! p = Some n /\ value n' = value n /\
      outputs n' = outputs n ++ (if decide (p = this) then [node] else []) /\
      inputs n' = inputs n ++ (if decide (p = node) then [this] else []).
Proof.
  intros [n Hn]%elem_of_dom [o Ho]%elem_of_dom. unfold add_output. rewrite Hn.
  destruct (decide (node = this)) as [->|Hne].
  - simplify_eq. rewrite lookup_insert_eq. eexists. split; [done|]. split.
    + rewrite insert_insert_eq, dom_insert_lookup_L; done.
    + intros p n'. rewrite insert_insert_eq, lookup_insert_Some. intros [[<- <-]|[Hp H]].
      * exists n. by rewrite !decide_True.
      * exists n'. rewrite !decide_False by done. by rewrite !app_nil_r.
  - rewrite lookup_insert_ne, Ho by done. eexists. split; [done|]. split.
    + rewrite dom_insert_lookup_L, dom_insert_lookup_L; [done|done|]. exists o. by rewrite lookup_insert_ne.
    + intros p n'. rewrite !lookup_insert_Some. intros [[<- <-]|[Hp [[<- <-]|[Hp' H]]]].
      * exists o. rewrite decide_False, decide_True by done. by rewrite app_nil_r.
      * exists n. rewrite decide_True, decide_False by done. by rewrite app_nil_r.
      * exists n'. rewrite !decide_False by done. by rewrite !app_nil_r.
Qed.

Lemma linked_add_output this node h h' : linked h -> this ∈ dom h -> node ∈ dom h ->
  add_output this node h = Some h' -> linked h' /\ dom h' = dom h.
Proof.
  intros [Hs Ho Hi] Ht Hn Hadd. destruct (add_output_spec this node h Ht Hn) as (h1 & Heq & Hdom & Hl).
  rewrite Hadd in Heq. injection Heq as <-. split; [|done]. split; rewrite ?Hdom.
  - intros u v nu nv (nu0 & Hu & _ & -> & _)%Hl (nv0 & Hv & _ & _ & ->)%Hl.
    rewrite !occ_app, (Hs _ _ _ _ Hu Hv). f_equal.
    destruct (decide (u = this)), (decide (v = node)); rewrite ?occ_cons; simplify_eq;
      rewrite ?decide_True by done; rewrite ?decide_False by congruence; done.
  - intros u nu v (nu0 & Hu & _ & -> & _)%Hl [Hv|Hv]%elem_of_app; [by eapply Ho|].
    destruct (decide (u = this)); [|by apply elem_of_nil in Hv]. by apply list_elem_of_singleton in Hv as ->.
  - intros v nv u (nv0 & Hv & _ & _ & ->)%Hl [Hu|Hu]%elem_of_app; [by eapply Hi|].
    destruct (decide (v = node)); [|by apply elem_of_nil in Hu]. by apply list_elem_of_singleton in Hu as ->.
Qed.

(** ** The loops *)

Section sort_ok.
Context (ins outs : Node -> list nat) (V : list nat) (I O : nat -> list nat).
Hypothesis ins_deps : forall d n, ins (set_deps d n) = ins n.
Hypothesis outs_deps : forall d n, outs (set_deps d n) = outs n.
Hypothesis V_nodup : NoDup V.
Hypothesis IO_sym : forall u v, u ∈ V -> v ∈ V -> occ v (O u) = occ u (I v).
Hypothesis O_in : forall u v, u ∈ V -> v ∈ O u -> v ∈ V.
Hypothesis I_in : forall v u, v ∈ V -> u ∈ I v -> u ∈ V.

(** The edges do not change. *)
Definition shape (h : gmap nat Node) : Prop :=
  forall v, v ∈ V -> exists n, h !! v = Some n /\ ins n = I v /\ outs n = O v.

Definition dep (h : gmap nat Node) (v : nat) : Z := match h !! v with Some n => deps n | None => 0 end.

Lemma shape_deps h p n d : shape h -> h !! p = Some n -> shape (<[p := set_deps d n]> h).
Proof.
  intros Hs Hp v Hv. destruct (Hs v Hv) as (nv & Hl & Hi & Ho). destruct (decide (p = v)) as [->|].
  - rewrite lookup_insert_eq. assert (nv = n) as -> by congruence. exists (set_deps d n). by rewrite ins_deps, outs_deps.
  - exists nv. by rewrite lookup_insert_ne.
Qed.

Lemma dep_insert h p n d v : dep (<[p := set_deps d n]> h) v = if decide (p = v) then d else dep h v.
Proof. unfold dep. destruct (decide (p = v)) as [->|]; [by rewrite lookup_insert_eq|by rewrite lookup_insert_ne]. Qed.

(** The list holds vertices, once each, and exactly those of [P] without dependencies. *)
Definition zeros (P : nat -> Prop) (h : gmap nat Node) (sorted : list nat) : Prop :=
  NoDup sorted /\ sorted ⊆ V /\ forall v, v ∈ V -> (v ∈ sorted <-> P v /\ dep h v = 0).

Lemma init_ok l : forall h sorted, NoDup l -> l ⊆ V -> shape h ->
  zeros (fun v => (v ∉ l) /\ dep h v = Z.of_nat (length (I v))) h sorted ->
  (forall v, v ∈ V -> v ∉ l -> dep h v = Z.of_nat (length (I v))) ->
  exists h' sorted', init ins l h sorted = Some (h', sorted') /\ shape h' /\ zeros (fun _ => True) h' sorted' /\
    forall v, v ∈ V -> dep h' v = Z.of_nat (length (I v)).
Proof.
  induction l as [|p l IH]; intros h sorted Hnd Hl Hs (Hn & Hsub & Hz) Hd; cbn [init].
  - exists h, sorted. split; [done|]. split; [done|]. split; [|intros v Hv; by apply Hd, not_elem_of_nil].
    split; [done|split; [done|]]. intros v Hv. rewrite (Hz v Hv). split; [by intros [_ ?]|intros [_ ?]].
    split; [split; [apply not_elem_of_nil|by apply Hd, not_elem_of_nil]|done].
  - apply NoDup_cons in Hnd as [Hp Hnd]. assert (HpV : p ∈ V) by (apply Hl; by left).
    destruct (Hs p HpV) as (n & Hpn & Hin & Hon). rewrite Hpn, Hin. cbn [deps set_deps].
    assert (Hps : p ∉ sorted). { rewrite (Hz p HpV). intros [[H _] _]. apply H. by left. }
    set (h1 := <[p := set_deps (Z.of_nat (length (I p))) n]> h).
    assert (Hd1 : forall v, v ∈ V -> v ∉ l -> dep h1 v = Z.of_nat (length (I v))).
    { intros v Hv Hvl. unfold h1. rewrite dep_insert. destruct (decide (p = v)) as [->|]; [done|].
      apply Hd; [done|]. by apply not_elem_of_cons. }
    apply IH; [done|intros v Hv; apply Hl; by right|by apply shape_deps| |done].
    assert (Hold : forall v, v ∈ V -> v <> p -> (v ∈ sorted <-> ((v ∉ l) /\ dep h1 v = Z.of_nat (length (I v))) /\ dep h1 v = 0)).
    { intros v Hv Hvp. rewrite (Hz v Hv). unfold h1. rewrite dep_insert, decide_False, not_elem_of_cons by congruence. tauto. }
    assert (Hnew : dep h1 p = Z.of_nat (length (I p))) by (unfold h1; by rewrite dep_insert, decide_True).
    destruct (_ =? 0) eqn:E; wz_bool.
    + split; [apply NoDup_app; split; [done|]; split; [intros v Hv ->%list_elem_of_singleton; done|apply NoDup_singleton]|].
      split; [apply list_subseteq_app_iff_l; split; [done|intros v ->%list_elem_of_singleton; done]|].
      intros v Hv. rewrite elem_of_app, list_elem_of_singleton. destruct (decide (v = p)) as [->|Hvp].
      * split; [intros _|by right]. by rewrite Hnew, E.
      * rewrite <-(Hold v Hv Hvp). tauto.
    + split; [done|split; [done|]]. intros v Hv. destruct (decide (v = p)) as [->|Hvp]; [|by apply Hold].
      split; [done|]. intros [_ H]. congruence.
Qed.

Lemma relax_ok l : forall h sorted, l ⊆ V -> shape h -> zeros (fun _ => True) h sorted ->
  (forall v, v ∈ V -> Z.of_nat (occ v l) <= dep h v) ->
  exists h' new, relax l h sorted = Some (h', sorted ++ new) /\ shape h' /\ zeros (fun _ => True) h' (sorted ++ new) /\
    forall v, v ∈ V -> dep h' v = dep h v - Z.of_nat (occ v l).
Proof.
  induction l as [|o l IH]; intros h sorted Hl Hs (Hn & Hsub & Hz) Hc; cbn [relax].
  - exists h, []. rewrite app_nil_r. split; [done|]. split; [done|]. split; [done|]. intros v Hv. unfold occ. simpl. lia.
  - assert (HoV : o ∈ V) by (apply Hl; by left). destruct (Hs o HoV) as (n & Hon & _ & _). rewrite Hon. cbn [deps set_deps].
    assert (Hdo : dep h o = deps n) by (unfold dep; by rewrite Hon).
    set (h1 := <[o := set_deps (deps n - 1) n]> h).
    assert (Hd1 : forall v, v ∈ V -> dep h1 v = dep h v - (if decide (v = o) then 1 else 0)).
    { intros v _. unfold h1. rewrite dep_insert. destruct (decide (o = v)) as [->|].
      - rewrite decide_True by done. lia.
      - rewrite decide_False by congruence. lia. }
    assert (Hc1 : forall v, v ∈ V -> Z.of_nat (occ v l) <= dep h1 v).
    { intros v Hv. rewrite (Hd1 v Hv). specialize (Hc v Hv). rewrite occ_cons in Hc. destruct (decide (v = o)); lia. }
    assert (Hos : o ∉ sorted).
    { rewrite (Hz o HoV). intros [_ H]. specialize (Hc o HoV). rewrite occ_cons, decide_True in Hc by done. lia. }
    assert (Hl' : l ⊆ V) by (intros v Hv; apply Hl; by right).
    assert (Hs1 : shape h1) by (by apply shape_deps).
    assert (Hne : forall v, v ∈ V -> v <> o -> (v ∈ sorted <-> True /\ dep h1 v = 0)).
    { intros v Hv Hvo. rewrite (Hz v Hv), (Hd1 v Hv), decide_False by done. by rewrite Z.sub_0_r. }
    assert (Ho1 : dep h1 o = deps n - 1) by (by rewrite (Hd1 o HoV), decide_True, Hdo).
    assert (Hfin : forall v, v ∈ V -> dep h1 v - Z.of_nat (occ v l) = dep h v - Z.of_nat (occ v (o :: l))).
    { intros v Hv. rewrite (Hd1 v Hv), occ_cons. destruct (decide (v = o)); lia. }
    destruct (_ =? 0) eqn:E; wz_bool.
    + assert (Hz1 : zeros (fun _ => True) h1 (sorted ++ [o])).
      { split; [apply NoDup_app; split; [done|]; split; [intros v Hv ->%list_elem_of_singleton; done|apply NoDup_singleton]|].
        split; [apply list_subseteq_app_iff_l; split; [done|intros v ->%list_elem_of_singleton; done]|].
        intros v Hv. rewrite elem_of_app, list_elem_of_singleton. destruct (decide (v = o)) as [->|Hvo].
        - split; [intros _; by rewrite Ho1|by right].
        - rewrite <-(Hne v Hv Hvo). tauto. }
      destruct (IH h1 (sorted ++ [o]) Hl' Hs1 Hz1 Hc1) as (h' & new & -> & Hs' & Hz' & Hd').
      exists h', (o :: new). rewrite <-app_assoc in *. split; [done|]. split; [done|]. split; [done|].
      intros v Hv. by rewrite (Hd' v Hv), Hfin.
    + assert (Hz1 : zeros (fun _ => True) h1 sorted).
      { split; [done|split; [done|]]. intros v Hv. destruct (decide (v = o)) as [->|Hvo]; [|by apply Hne].
        split; [done|]. intros [_ H]. congruence. }
      destruct (IH h1 sorted Hl' Hs1 Hz1 Hc1) as (h' & new & -> & Hs' & Hz' & Hd').
      exists h', new. split; [done|]. split; [done|]. split; [done|]. intros v Hv. by rewrite (Hd' v Hv), Hfin.
Qed.

(** The inputs of [v] that are not in [D]. *)
Definition unmet (D : list nat) (v : nat) : nat := length (filter (fun u => u ∉ D) (I v)).

Lemma unmet_snoc D u v : u ∉ D -> (unmet (D ++ [u]) v + occ u (I v) = unmet D v)%nat.
Proof.
  intros Hu. unfold unmet, occ. induction (I v) as [|x l IH]; [done|]. rewrite !filter_cons.
  destruct (decide (u = x)) as [<-|Hx].
  - rewrite (decide_False (P := u ∉ D ++ [u])) by (intros H; apply H, elem_of_app; right; by left).
    rewrite (decide_True (P := u ∉ D)) by done. simpl. lia.
  - destruct (decide (x ∉ D)) as [Hd|Hd].
    + rewrite (decide_True (P := x ∉ D ++ [u])) by (rewrite elem_of_app, list_elem_of_singleton; intros [?|?]; congruence). simpl. lia.
    + rewrite (decide_False (P := x ∉ D ++ [u])) by (intros H; apply Hd; intros ?; apply H, elem_of_app; by left). simpl. lia.
Qed.

Lemma unmet_zero D v : unmet D v = 0%nat <-> forall u, u ∈ I v -> u ∈ D.
Proof.
  unfold unmet. split.
  - intros H u Hu. destruct (decide (u ∈ D)) as [|Hn]; [done|]. apply length_zero_iff_nil in H.
    assert (u ∈ filter (fun u => u ∉ D) (I v)) as Hf by (by apply list_elem_of_filter). rewrite H in Hf. by apply elem_of_nil in Hf.
  - intros H. apply length_zero_iff_nil. destruct (filter _ _) as [|x l] eqn:E; [done|].
    assert (x ∈ filter (fun u => u ∉ D) (I v)) as [Hx Hi]%list_elem_of_filter by (rewrite E; by left). by apply H in Hi.
Qed.

(** The inputs of each element come earlier. *)
Definition ordered (sorted : list nat) : Prop := forall k v, sorted !! k = Some v -> forall u, u ∈ I v -> u ∈ take k sorted.

Record drain_inv (i : nat) (h : gmap nat Node) (sorted : list nat) : Prop := mkDrainInv {
  di_shape : shape h;
  di_zeros : zeros (fun _ => True) h sorted;
  di_dep : forall v, v ∈ V -> dep h v = Z.of_nat (unmet (take i sorted) v);
  di_ordered : ordered sorted;
  di_i : (i <= length sorted)%nat
}.

Lemma take_snoc_lookup {A} (l : list A) i x : l !! i = Some x -> take (S i) l = take i l ++ [x].
Proof. apply take_S_r. Qed.

Lemma drain_step i h sorted node : drain_inv i h sorted -> sorted !! i = Some node ->
  exists n h' new, h !! node = Some n /\ relax (outs n) h sorted = Some (h', sorted ++ new) /\ drain_inv (S i) h' (sorted ++ new).
Proof.
  intros [Hs Hz Hd Ho Hi] Hn. pose proof Hz as (Hnd & Hsub & _).
  assert (HnV : node ∈ V) by (apply Hsub; by eapply list_elem_of_lookup_2).
  destruct (Hs node HnV) as (n & Hl & _ & Hout). exists n.
  assert (Hnt : node ∉ take i sorted).
  { intros (j & Hj & Hlt)%elem_of_take. assert (i = j) by (by eapply NoDup_lookup). lia. }
  assert (Hdec : forall v, v ∈ V -> dep h v - Z.of_nat (occ v (O node)) = Z.of_nat (unmet (take (S i) sorted) v)).
  { intros v Hv. rewrite (Hd v Hv), (take_snoc_lookup _ _ _ Hn), (IO_sym node v HnV Hv).
    pose proof (unmet_snoc (take i sorted) node v Hnt). lia. }
  destruct (relax_ok (O node) h sorted) as (h' & new & Hr & Hs' & Hz' & Hd'); [intros v Hv; by eapply O_in|done..| |].
  { intros v Hv. specialize (Hdec v Hv). lia. }
  exists h', new. split; [done|]. rewrite Hout. split; [done|].
  assert (Hlen : (S i <= length sorted)%nat) by (apply lookup_lt_Some in Hn; lia).
  assert (Hd2 : forall v, v ∈ V -> dep h' v = Z.of_nat (unmet (take (S i) (sorted ++ new)) v)).
  { intros v Hv. rewrite (Hd' v Hv), Hdec, take_app_le by done. done. }
  split; [done|done|done| |rewrite length_app; lia].
  intros k v Hk u Hu. destruct (decide (k < length sorted)%nat) as [Hkl|Hkl].
  - rewrite lookup_app_l in Hk by done. rewrite take_app_le by lia. by eapply Ho.
  - assert (Hv : v ∈ sorted ++ new) by (by eapply list_elem_of_lookup_2).
    destruct Hz' as (_ & Hsub' & Hz'). assert (HvV : v ∈ V) by (by apply Hsub'). apply Hz' in Hv as [_ Hv0]; [|done].
    rewrite (Hd2 v HvV) in Hv0. assert (Hu0 : unmet (take (S i) (sorted ++ new)) v = 0%nat) by lia.
    rewrite unmet_zero in Hu0. apply Hu0 in Hu. apply elem_of_take in Hu as (j & Hj & Hlt).
    apply elem_of_take. exists j. split; [done|]. lia.
Qed.

Lemma drain_ok fuel : forall i h sorted, drain_inv i h sorted -> (length V <= i + fuel)%nat ->
  exists h' sorted', drain outs fuel i h sorted = Some (h', sorted') /\ drain_inv (length sorted') h' sorted'.
Proof.
  induction fuel as [|fuel IH]; intros i h sorted Hinv Hf.
  - pose proof Hinv as [_ (Hnd & Hsub & _) _ _ Hi].
    assert (Hle : (length sorted <= length V)%nat) by (by apply submseteq_length, NoDup_submseteq).
    exists h, sorted. assert (Hnone : sorted !! i = None) by (apply lookup_ge_None; lia).
    cbn [drain]. rewrite Hnone. split; [done|]. by replace (length sorted) with i by lia.
  - cbn [drain]. destruct (sorted !! i) as [node|] eqn:Hn.
    + destruct (drain_step i h sorted node Hinv Hn) as (n & h' & new & -> & -> & Hinv'). cbn [fst snd].
      apply IH; [done|lia].
    + exists h, sorted. split; [done|]. apply lookup_ge_None in Hn. pose proof (di_i _ _ _ Hinv).
      by replace (length sorted) with i by lia.
Qed.

Lemma toplogical_sort_ok h : shape h ->
  exists h' sorted, toplogical_sort ins outs V h = Some (h', sorted) /\ NoDup sorted /\ sorted ⊆ V /\ ordered sorted /\
    forall v, v ∈ V -> (forall u, u ∈ I v -> u ∈ sorted) -> v ∈ sorted.
Proof.
  intros Hs. unfold toplogical_sort.
  destruct (init_ok V h []) as (h1 & s1 & -> & Hs1 & Hz1 & Hd1); [done|done|done| |by intros|].
  { split; [apply NoDup_nil_2|]. split; [by intros ? ?%elem_of_nil|]. intros v Hv. split; [by intros ?%elem_of_nil|by intros [[? _] _]]. }
  cbn [fst snd]. destruct (drain_ok (length V) 0 h1 s1) as (h' & sorted & -> & [Hs' Hz' Hd' Ho' _]); [|lia|].
  - split; [done..| |simpl|lia].
    + intros v Hv. rewrite (Hd1 v Hv), take_0. f_equal. unfold unmet. symmetry. f_equal.
      induction (I v) as [|x l IHl]; [done|]. rewrite filter_cons, decide_True by apply not_elem_of_nil. by f_equal.
    + intros k v Hk u Hu. exfalso. destruct Hz1 as (_ & Hsub & Hz1). assert (Hv : v ∈ s1) by (by eapply list_elem_of_lookup_2).
      pose proof (Hsub v Hv) as HvV. apply Hz1 in Hv as [_ Hv]; [|done]. rewrite (Hd1 v HvV) in Hv.
      destruct (I v); [by apply elem_of_nil in Hu|simpl in Hv; lia].
  - exists h', sorted. destruct Hz' as (Hnd & Hsub & Hz'). split_and!; [done..|].
    intros v Hv Hall. apply Hz'; [done|]. split; [done|]. rewrite (Hd' v Hv), take_ge by lia.
    apply unmet_zero in Hall. lia.
Qed.

(** An edge into a vertex. *)
Definition pred_of (u v : nat) : Prop := v ∈ V /\ u ∈ I v.

Lemma ordered_path sorted u v : NoDup sorted -> ordered sorted -> tc pred_of u v -> v ∈ sorted ->
  exists i j, sorted !! i = Some u /\ sorted !! j = Some v /\ (i < j)%nat.
Proof.
  intros Hnd Ho. assert (Hone : forall u v j, pred_of u v -> sorted !! j = Some v -> exists i, sorted !! i = Some u /\ (i < j)%nat).
  { intros x y j [_ Hx] Hj. by apply (Ho j y Hj), elem_of_take in Hx. }
  induction 1 as [u v Huv|u w v Huw _ IH]; intros Hv.
  - apply list_elem_of_lookup in Hv as [j Hj]. destruct (Hone u v j Huv Hj) as (i & Hi & Hlt). eauto.
  - destruct (IH Hv) as (i & j & Hi & Hj & Hlt). destruct (Hone u w i Huw Hi) as (i' & Hi' & Hlt').
    exists i', j. split_and!; [done..|lia].
Qed.

Lemma complete_iff_acyclic sorted : NoDup sorted -> sorted ⊆ V -> ordered sorted ->
  (forall v, v ∈ V -> (forall u, u ∈ I v -> u ∈ sorted) -> v ∈ sorted) ->
  (sorted ≡ₚ V <-> forall v, ~ tc pred_of v v).
Proof.
  intros Hnd Hsub Ho Hmax. split.
  - intros Hp v Hc. assert (Hv : v ∈ sorted).
    { rewrite Hp. by apply tc_last in Hc as (w & H & _). }
    destruct (ordered_path sorted v v Hnd Ho Hc Hv) as (i & j & Hi & Hj & Hlt).
    assert (i = j) by (by eapply NoDup_lookup). lia.
  - intros Hac. apply NoDup_Permutation; [done..|]. intros v. split; [by apply Hsub|]. intros Hv.
    assert (Hsn : sn (flip pred_of) v).
    { apply tc_finite_sn.
      - intros x Hx. apply (Hac x). by apply tc_flip in Hx.
      - exists V. intros x Hx. apply tc_last in Hx as (y & HyV & Hy). by eapply I_in. }
    induction Hsn as [v _ IH]. apply Hmax; [done|]. intros u Hu. apply IH; [done|by eapply I_in].
Qed.

End sort_ok.

(** ** The two sorts *)

Definition succs (h : gmap nat Node) (v : nat) : list nat := match h !! v with Some n => outputs n | None => [] end.
Definition preds (h : gmap nat Node) (v : nat) : list nat := match h !! v with Some n => inputs n | None => [] end.

Section graph.
Context (V : list nat) (h : gmap nat Node).
Hypothesis Hok : graph_ok V h.

Lemma vertex_node v : v ∈ V -> exists n, h !! v = Some n.
Proof. intros Hv. by apply (go_dom _ _ Hok), elem_of_dom in Hv. Qed.

Lemma succs_preds u v : u ∈ V -> v ∈ V -> occ v (succs h u) = occ u (preds h v).
Proof.
  intros [nu Hu]%vertex_node [nv Hv]%vertex_node. unfold succs, preds. rewrite Hu, Hv.
  by apply (ln_sym _ (go_linked _ _ Hok)).
Qed.

Lemma succs_in u v : u ∈ V -> v ∈ succs h u -> v ∈ V.
Proof.
  intros [nu Hu]%vertex_node. unfold succs. rewrite Hu. intros Hv.
  by apply (go_dom _ _ Hok), (ln_out _ (go_linked _ _ Hok) u nu).
Qed.

Lemma preds_in v u : v ∈ V -> u ∈ preds h v -> u ∈ V.
Proof.
  intros [nv Hv]%vertex_node. unfold preds. rewrite Hv. intros Hu.
  by apply (go_dom _ _ Hok), (ln_in _ (go_linked _ _ Hok) v nv).
Qed.

Lemma edge_succs u v : edge h u v <-> u ∈ V /\ v ∈ succs h u.
Proof.
  unfold edge, succs. split.
  - intros (n & Hn & Hv). rewrite Hn. split; [|done]. by apply (go_dom _ _ Hok), elem_of_dom.
  - intros [[n Hn]%vertex_node Hv]. rewrite Hn in Hv. eauto.
Qed.

Lemma edge_preds u v : edge h u v <-> v ∈ V /\ u ∈ preds h v.
Proof.
  rewrite edge_succs. split; intros [H1 H2].
  - pose proof (succs_in u v H1 H2) as Hv. split; [done|]. rewrite occ_pos in H2 |- *. by rewrite <-(succs_preds u v).
  - pose proof (preds_in v u H1 H2) as Hu. split; [done|]. rewrite occ_pos in H2 |- *. by rewrite (succs_preds u v).
Qed.

Lemma acyclic_preds : acyclic h <-> forall v, ~ tc (pred_of V (preds h)) v v.
Proof.
  split; intros H v Hc; apply (H v); (eapply tc_iff; [|exact Hc]); intros x y Hxy; by apply edge_preds.
Qed.

Lemma acyclic_succs : acyclic h <-> forall v, ~ tc (pred_of V (succs h)) v v.
Proof.
  split; intros H v Hc; apply (H v), tc_flip; (eapply tc_iff; [|exact Hc]); intros x y Hxy; by apply edge_succs.
Qed.

End graph.

(** C26: on a graph built with [add_vertex] and [add_output] both sorts return: each vertex at
    most once, the forward sort with every vertex after all vertices that have an edge to it,
    the backward sort after all it has an edge to; and each prints every vertex exactly when
    the graph has no cycle. *)
Theorem sorts_iff_acyclic V h : graph_ok V h ->
  (exists h' sorted, toplogical_sort_forward V h = Some (h', sorted) /\ NoDup sorted /\ sorted ⊆ V /\
     (forall u v, edge h u v -> v ∈ sorted -> before sorted u v) /\ (sorted ≡ₚ V <-> acyclic h)) /\
  (exists h' sorted, toplogical_sort_backward V h = Some (h', sorted) /\ NoDup sorted /\ sorted ⊆ V /\
     (forall u v, edge h u v -> u ∈ sorted -> before sorted v u) /\ (sorted ≡ₚ V <-> acyclic h)).
Proof.
  intros Hok. split.
  - destruct (toplogical_sort_ok inputs outputs V (preds h) (succs h)) with (h := h) as (h' & sorted & Hr & Hnd & Hsub & Ho & Hmax);
      [done|done|by apply go_nodup in Hok|exact (succs_preds V h Hok)|exact (succs_in V h Hok)| |].
    { intros v Hv. destruct (vertex_node V h Hok v Hv) as [n Hn]. exists n. unfold preds, succs. by rewrite Hn. }
    exists h', sorted. split; [exact Hr|]. split; [done|]. split; [done|]. split.
    + intros u v [HvV Hu]%(edge_preds V h Hok) [k Hk]%list_elem_of_lookup. exists k. split; [done|]. by eapply Ho.
    + rewrite (acyclic_preds V h Hok). apply complete_iff_acyclic; [by apply go_nodup in Hok|exact (preds_in V h Hok)|done..].
  - destruct (toplogical_sort_ok outputs inputs V (succs h) (preds h)) with (h := h) as (h' & sorted & Hr & Hnd & Hsub & Ho & Hmax);
      [done|done|by apply go_nodup in Hok|intros; symmetry; by apply (succs_preds V h Hok)|exact (preds_in V h Hok)| |].
    { intros v Hv. destruct (vertex_node V h Hok v Hv) as [n Hn]. exists n. unfold preds, succs. by rewrite Hn. }
    exists h', sorted. split; [exact Hr|]. split; [done|]. split; [done|]. split.
    + intros u v [HuV Hv]%(edge_succs V h Hok) [k Hk]%list_elem_of_lookup. exists k. split; [done|]. by eapply Ho.
    + rewrite (acyclic_succs V h Hok). apply complete_iff_acyclic; [by apply go_nodup in Hok|exact (succs_in V h Hok)|done..].
Qed.

(** ** The graph of the example program *)

Definition demo_vertexs : list nat := foldl (fun vs p => add_vertex p vs) [] [1; 2; 3; 4; 5; 6]%nat.

Definition demo_nodes : gmap nat Node :=
  foldl (fun h p => <[p := Node_new (Z.of_nat p)]> h) ∅ [1; 2; 3; 4; 5; 6]%nat.

Definition add_edges (es : list (nat * nat)) (h : gmap nat Node) : option (gmap nat Node) :=
  foldl (fun h e => h1 <-? h; add_output e.1 e.2 h1) (Some h) es.

Definition demo_edges : list (nat * nat) := [(1, 3); (1, 4); (2, 4); (2, 5); (3, 6); (4, 6); (5, 6)]%nat.

Definition demo : gmap nat Node := default ∅ (add_edges demo_edges demo_nodes).

Lemma add_edges_ok es : forall h, linked h -> (forall e, e ∈ es -> e.1 ∈ dom h /\ e.2 ∈ dom h) ->
  exists h', add_edges es h = Some h' /\ linked h' /\ dom h' = dom h.
Proof.
  unfold add_edges. induction es as [|e es IH]; intros h Hl He; cbn [foldl]; [eauto|].
  destruct (He e ltac:(by left)) as [H1 H2]. destruct (add_output_spec e.1 e.2 h H1 H2) as (h1 & Ha & _ & _). rewrite Ha.
  destruct (linked_add_output _ _ _ _ Hl H1 H2 Ha) as [Hl1 Hd].
  destruct (IH h1 Hl1) as (h' & Hr & Hl' & Hd'); [intros e' He'; rewrite Hd; apply He; by right|].
  exists h'. split_and!; [done..|by rewrite Hd'].
Qed.

Lemma demo_nodes_linked : linked demo_nodes.
Proof. unfold demo_nodes. cbn [foldl]. do 6 (apply linked_new; [vm_compute; done|]). apply linked_empty. Qed.

Lemma demo_graph_ok : graph_ok demo_vertexs demo.
Proof.
  destruct (add_edges_ok demo_edges demo_nodes demo_nodes_linked) as (h' & Hr & Hl & Hd).
  { apply Forall_forall. apply (bool_decide_unpack _). by vm_compute. }
  assert (demo = h') as -> by (unfold demo; by rewrite Hr). split; [done|apply (bool_decide_unpack _); by vm_compute|].
  rewrite Hd. intros v. assert (dom demo_nodes = list_to_set demo_vertexs) as -> by (apply (bool_decide_unpack _); by vm_compute).
  by rewrite elem_of_list_to_set.
Qed.

(** What the example prints. *)
Lemma demo_prints :
  (r <-? toplogical_sort_forward demo_vertexs demo; Some (values r.1 r.2)) = Some [1; 2; 3; 4; 5; 6] /\
  (r <-? toplogical_sort_backward demo_vertexs demo; Some (values r.1 r.2)) = Some [6; 3; 4; 5; 1; 2].
Proof. vm_compute. done. Qed.

Lemma sorts_iff_acyclic_witness : graph_ok demo_vertexs demo /\
  (exists h' sorted, toplogical_sort_forward demo_vertexs demo = Some (h', sorted) /\ NoDup sorted /\ sorted ⊆ demo_vertexs /\
     (forall u v, edge demo u v -> v ∈ sorted -> before sorted u v) /\ (sorted ≡ₚ demo_vertexs <-> acyclic demo)) /\
  (exists h' sorted, toplogical_sort_backward demo_vertexs demo = Some (h', sorted) /\ NoDup sorted /\ sorted ⊆ demo_vertexs /\
     (forall u v, edge demo u v -> u ∈ sorted -> before sorted v u) /\ (sorted ≡ₚ demo_vertexs <-> acyclic demo)).
Proof. split; [apply demo_graph_ok|apply (sorts_iff_acyclic demo_vertexs demo), demo_graph_ok]. Defined.

End TopSort.
