(* ===== verification/ThreadPool.v ===== *)
(** The thread pool of src/src/concurrent/thread_pool.h.

    The header uses [try_pop_n] and an [Iterator] that the repository's
    ConcurrentBoundedQueue does not have, so the queue is an interface: what the pool relies
    on is [QueueLaws] and, for a stop to end, [QueueProgress]. Workers, the thread that stops the pool and the callers of [enqueue]
    interleave one access at a time; the condition variable wakes who sleeps, and may wake
    without cause. A task is one step and does not call the pool. *)
From S2P Require Import Prelude.
Local Open Scope Z_scope.
Local Open Scope wz.

Module ThreadPool.

(** * The queue *)

(** [q_push] is [None] where [push] blocks; [q_try_pop_n] takes at most so many. *)
Class TaskQueue (Q F : Type) := {
  contents : Q -> list F;
  reserve_and_clear : Z -> Q;
  q_size : Q -> Z;
  q_push : F -> Q -> option Q;
  q_try_pop_n : nat -> Q -> list F * Q
}.

(** A FIFO, one operation at a time. *)
Class QueueLaws (Q F : Type) {TQ : TaskQueue Q F} : Prop := {
  contents_reserve n : contents (reserve_and_clear n) = [];
  size_contents q : q_size q = Z.of_nat (length (contents q));
  push_contents f q q' : q_push f q = Some q' -> contents q' = contents q ++ [f];
  pop_contents n q : contents q = (q_try_pop_n n q).1 ++ contents (q_try_pop_n n q).2
}.

(** A queue that is not empty gives something up. *)
Class QueueProgress (Q F : Type) {TQ : TaskQueue Q F} : Prop :=
  pop_progress n q : contents q <> [] -> (q_try_pop_n (S n) q).1 <> [].

(** The list as a queue without bound. *)
#[export] Instance list_queue {F} : TaskQueue (list F) F := {|
  contents := fun q => q;
  reserve_and_clear := fun _ => [];
  q_size := fun q => Z.of_nat (length q);
  q_push := fun f q => Some (q ++ [f]);
  q_try_pop_n := fun n q => (take n q, drop n q)
|}.

#[export] Instance list_queue_laws {F} : QueueLaws (list F) F.
Proof. split; simpl; [done|done|congruence|]. intros n q. symmetry. apply take_drop. Qed.

#[export] Instance list_queue_progress {F} : QueueProgress (list F) F.
Proof. intros n [|f q]; [done|]. by simpl. Qed.

Section pool.
Context {Q F : Type} {TQ : TaskQueue Q F}.

(** * State *)

(** A worker: in front of [unique_lock], of the predicate of [wait], of going to sleep
    with the predicate false, asleep, in front of [try_pop_n], running its batch, ended. *)
Inductive WPC := WLock | WCheck | WBlock | WSleep | WPop | WRun (batch : list F) | WDone.

(** The thread that owns the pool: outside, inside the critical section of
    [stop_and_wait], in front of [notify_all], joining a worker, returned. *)
Inductive SPC := SIdle | SLocked | SNotify | SJoin (i : nat) | SReturned.

Inductive Who := Worker (i : nat) | Owner.

(** The fields of the pool and the threads; [notifying] callers of [enqueue] are in front of
    [notify_one]. [submitted], [popped], [ran] and [before_stop] are histories: the tasks
    pushed, taken out, run, and pushed when [is_stop] was set. *)
Record Pool := mkPool {
  is_stop : bool; graceful_stop : bool; mutex : option Who; tasks : Q;
  workers : list WPC; owner : SPC; notifying : nat;
  submitted : list F; popped : list F; ran : list F; before_stop : list F
}.

Definition batch_num : nat := 10.

Definition ctor (threads queue_size : Z) (is_graceful_stop : bool) : Pool :=
  mkPool false is_graceful_stop None (reserve_and_clear queue_size) (replicate (Z.to_nat threads) WLock) SIdle 0 [] [] [] [].

Definition task_size (s : Pool) : Z := q_size (tasks s).

(** * Updates *)

Definition set_worker (i : nat) (w : WPC) (m : option Who) (s : Pool) : Pool :=
  mkPool (is_stop s) (graceful_stop s) m (tasks s) (<[i := w]> (workers s)) (owner s) (notifying s)
         (submitted s) (popped s) (ran s) (before_stop s).

Definition set_owner (o : SPC) (m : option Who) (s : Pool) : Pool :=
  mkPool (is_stop s) (graceful_stop s) m (tasks s) (workers s) o (notifying s)
         (submitted s) (popped s) (ran s) (before_stop s).

Definition wake_up (w : WPC) : WPC := match w with WSleep => WLock | w => w end.

(** * The worker's loop *)

Definition worker_step (i : nat) (s : Pool) : Pool :=
  match workers s !! i with
  | Some WLock =>
      match mutex s with
      | None => set_worker i WCheck (Some (Worker i)) s
      | Some _ => s
      end
  | Some WCheck =>
      if is_stop s || (0 <? q_size (tasks s))
      then if is_stop s
           then if graceful_stop s
                then if q_size (tasks s) =? 0 then set_worker i WDone None s else set_worker i WPop None s
                else set_worker i WDone None s
           else set_worker i WPop None s
      else set_worker i WBlock (mutex s) s
  | Some WBlock => set_worker i WSleep None s
  | Some WPop =>
      let '(l, q) := q_try_pop_n batch_num (tasks s) in
      let s := set_worker i (WRun l) (mutex s) s in
      mkPool (is_stop s) (graceful_stop s) (mutex s) q (workers s) (owner s) (notifying s)
             (submitted s) (popped s ++ l) (ran s) (before_stop s)
  | Some (WRun (f :: l)) =>
      let s := set_worker i (WRun l) (mutex s) s in
      mkPool (is_stop s) (graceful_stop s) (mutex s) (tasks s) (workers s) (owner s) (notifying s)
             (submitted s) (popped s) (ran s ++ [f]) (before_stop s)
  | Some (WRun []) => set_worker i WLock (mutex s) s
  | Some WSleep | Some WDone | None => s
  end.

(** * The callers *)

(** Both [enqueue]s: the task is pushed, [notify_one] is the next step. *)
Definition enqueue (f : F) (s : Pool) : Pool :=
  match q_push f (tasks s) with
  | None => s
  | Some q =>
      mkPool (is_stop s) (graceful_stop s) (mutex s) q (workers s) (owner s) (S (notifying s))
             (submitted s ++ [f]) (popped s) (ran s) (before_stop s)
  end.

Definition asleep (w : WPC) : bool := match w with WSleep => true | _ => false end.

(** One of the sleepers, if there is one. *)
Definition notify_one (i : nat) (s : Pool) : Pool :=
  match notifying s with
  | O => s
  | S n =>
      if match workers s !! i with Some w => asleep w | None => negb (existsb asleep (workers s)) end
      then mkPool (is_stop s) (graceful_stop s) (mutex s) (tasks s) (alter wake_up i (workers s)) (owner s) n
                  (submitted s) (popped s) (ran s) (before_stop s)
      else s
  end.

Definition spurious (i : nat) (s : Pool) : Pool :=
  mkPool (is_stop s) (graceful_stop s) (mutex s) (tasks s) (alter wake_up i (workers s)) (owner s) (notifying s)
         (submitted s) (popped s) (ran s) (before_stop s).

(** [stop_and_wait], and the destructor, which calls it again. *)
Definition stop_step (s : Pool) : Pool :=
  match owner s with
  | SIdle | SReturned =>
      match mutex s with None => set_owner SLocked (Some Owner) s | Some _ => s end
  | SLocked =>
      if is_stop s then set_owner SReturned None s
      else mkPool true (graceful_stop s) None (tasks s) (workers s) SNotify (notifying s)
                  (submitted s) (popped s) (ran s) (submitted s)
  | SNotify =>
      mkPool (is_stop s) (graceful_stop s) (mutex s) (tasks s) (wake_up <$> workers s) (SJoin 0) (notifying s)
             (submitted s) (popped s) (ran s) (before_stop s)
  | SJoin i =>
      match workers s !! i with
      | None => set_owner SReturned (mutex s) s
      | Some WDone => set_owner (SJoin (S i)) (mutex s) s
      | Some _ => s
      end
  end.

Inductive Act := AEnqueue (f : F) | ANotify (i : nat) | ASpurious (i : nat) | AWork (i : nat) | AStop.

Definition step (a : Act) (s : Pool) : Pool :=
  match a with
  | AEnqueue f => enqueue f s
  | ANotify i => notify_one i s
  | ASpurious i => spurious i s
  | AWork i => worker_step i s
  | AStop => stop_step s
  end.

Definition run (l : list Act) (s : Pool) : Pool := foldl (fun s a => step a s) s l.

(** The tasks workers have taken and not yet run. *)
Definition batch (w : WPC) : list F := match w with WRun l => l | _ => [] end.
Definition running (s : Pool) : list F := concat (batch <$> workers s).

(** * The invariant *)

Definition has_lock (w : WPC) : bool := match w with WCheck | WBlock => true | _ => false end.

(** [notify_all] has been called. *)
Definition notified (o : SPC) : bool := match o with SJoin _ | SReturned => true | _ => false end.

(** The owner knows that worker [i] has ended. *)
Definition joined (o : SPC) (stop : bool) (i : nat) : Prop :=
  match o with SJoin k => (i < k)%nat | SReturned => True | SLocked => stop = true | _ => False end.

Record worker_ok (s : Pool) (i : nat) (w : WPC) : Prop := mkWorkerOk {
  wk_lock : has_lock w = true -> mutex s = Some (Worker i);
  wk_done : w = WDone -> is_stop s = true /\ (graceful_stop s = true -> before_stop s `prefix_of` popped s);
  wk_block : w = WBlock -> is_stop s = false;
  wk_sleep : w = WSleep -> notified (owner s) = false;
  wk_joined : joined (owner s) (is_stop s) i -> w = WDone
}.

Record inv (s : Pool) : Prop := mkInv {
  in_fifo : submitted s = popped s ++ contents (tasks s);
  in_once : popped s ≡ₚ ran s ++ running s;
  in_before : is_stop s = true -> before_stop s `prefix_of` submitted s;
  in_lock : owner s = SLocked -> mutex s = Some Owner;
  in_idle : owner s = SIdle -> is_stop s = false;
  in_stop : owner s = SNotify \/ notified (owner s) = true -> is_stop s = true;
  in_workers : forall i w, workers s !! i = Some w -> worker_ok s i w
}.

Context {QL : QueueLaws Q F}.

Lemma inv_ctor threads queue_size g : inv (ctor threads queue_size g).
Proof.
  split; simpl; try done.
  - by rewrite contents_reserve.
  - unfold running. simpl. induction (Z.to_nat threads) as [|n IH]; simpl; [done|exact IH].
  - by intros [?|?].
  - intros i w [-> _]%lookup_replicate. by split.
Qed.

(** Taking a task out of one worker's batch. *)
Lemma batches_insert (l : list WPC) i w w' : l !! i = Some w ->
  concat (batch <$> <[i := w']> l) ++ batch w ≡ₚ concat (batch <$> l) ++ batch w'.
Proof.
  revert i. induction l as [|x l IH]; intros [|i] Hi; simpl in *; [done..| |].
  - injection Hi as ->. rewrite <-!app_assoc, (Permutation_app_comm (concat _) (batch w)), !app_assoc.
    rewrite (Permutation_app_comm (batch w') (batch w)) at 1. rewrite <-!app_assoc. by rewrite (Permutation_app_comm (batch w') (concat _)).
  - rewrite <-!app_assoc. f_equiv. by apply IH.
Qed.

Lemma batches_same (l : list WPC) i w w' : l !! i = Some w -> batch w = [] -> batch w' = [] ->
  concat (batch <$> <[i := w']> l) ≡ₚ concat (batch <$> l).
Proof. intros Hi Hw Hw'. pose proof (batches_insert l i w w' Hi) as H. by rewrite Hw, Hw', !app_nil_r in H. Qed.

(** Waking a worker keeps what is known of it. *)
Lemma wake_ok s i w : worker_ok s i w -> worker_ok s i (wake_up w).
Proof.
  intros [H1 H2 H3 H4 H5]. destruct w; try done. split; try done. intros H. by specialize (H5 H).
Qed.

Lemma batch_wake w : batch (wake_up w) = batch w.
Proof. by destruct w. Qed.

Lemma batches_alter (l : list WPC) i : concat (batch <$> alter wake_up i l) = concat (batch <$> l).
Proof.
  f_equal. revert i. induction l as [|w l IH]; intros [|i]; simpl; [done..| |].
  - by rewrite batch_wake.
  - f_equal. apply IH.
Qed.

(** Moving one worker when nothing else the others know of changes. *)
Lemma set_worker_inv s i w w' m : inv s -> workers s !! i = Some w -> batch w = [] -> batch w' = [] ->
  (m = mutex s \/ has_lock w = true \/ mutex s = None) ->
  (owner s = SLocked -> m = Some Owner) ->
  worker_ok (set_worker i w' m s) i w' -> inv (set_worker i w' m s).
Proof.
  intros [Hf Ho Hb Hl Hi Hs Hw] Hwi Hbw Hbw' Hm Hlk Hok. split; simpl; try done.
  - unfold running. simpl. by rewrite (batches_same _ _ _ _ Hwi Hbw Hbw').
  - intros j x [(<- & <- & _)|[Hne Hx]]%list_lookup_insert_Some; [done|].
    destruct (Hw j x Hx) as [H1 H2 H3 H4 H5]. split; try done. simpl. intros Hj. specialize (H1 Hj).
    destruct Hm as [->|[Hm|Hm]]; [done| |congruence]. pose proof (wk_lock _ _ _ (Hw i w Hwi) Hm). congruence.
Qed.

(** A worker in its critical section excludes the owner from its own. *)
Lemma lock_excl s i w : inv s -> workers s !! i = Some w -> has_lock w = true -> owner s <> SLocked.
Proof. intros Hi Hw Hl Ho. pose proof (wk_lock _ _ _ (in_workers _ Hi i w Hw) Hl). pose proof (in_lock _ Hi Ho). congruence. Qed.

(** A worker that has something left to do has not been joined. *)
Lemma not_joined s i w : inv s -> workers s !! i = Some w -> w <> WDone -> ~ joined (owner s) (is_stop s) i.
Proof. intros Hi Hw Hd Hj. by apply Hd, (wk_joined _ _ _ (in_workers _ Hi i w Hw)). Qed.

Lemma worker_inv i s : inv s -> inv (worker_step i s).
Proof.
  intros Hi. unfold worker_step. destruct (workers s !! i) as [w|] eqn:Hw; [|done].
  pose proof (not_joined s i w Hi Hw) as Hnj. pose proof (lock_excl s i w Hi Hw) as Hex.
  pose proof (in_workers _ Hi i w Hw) as [Hl _ Hblk _ _].
  destruct w as [| | | | |[|f l]|]; try done.
  - destruct (mutex s) eqn:Hm; [done|]. eapply set_worker_inv; [done|exact Hw|done..|by right; right| |].
    + intros Ho. pose proof (in_lock _ Hi Ho). congruence.
    + split; try done. intros Hj. by apply Hnj in Hj.
  - specialize (Hl eq_refl). specialize (Hex eq_refl).
    assert (Hrel : forall w', batch w' = [] -> worker_ok (set_worker i w' None s) i w' -> inv (set_worker i w' None s)).
    { intros w' Hb Hok. eapply set_worker_inv; [done|exact Hw|done..|by right; left|done|done]. }
    destruct (is_stop s) eqn:Hst; simpl.
    + assert (Hdone : (graceful_stop s = true -> contents (tasks s) = []) -> worker_ok (set_worker i WDone None s) i WDone).
      { intros He. split; try done. simpl. intros _. split; [done|]. intros Hg. pose proof (in_before _ Hi Hst) as Hb.
        by rewrite (in_fifo _ Hi), (He Hg), app_nil_r in Hb. }
      destruct (graceful_stop s); [destruct (q_size (tasks s) =? 0) eqn:Hq|].
      * apply Hrel, Hdone; [done|]. intros _. wz_bool. rewrite size_contents in Hq. apply length_zero_iff_nil. lia.
      * apply Hrel; [done|]. split; try done. simpl. rewrite Hst. intros Hj. by apply Hnj in Hj.
      * by apply Hrel, Hdone.
    + destruct (0 <? q_size (tasks s)).
      * apply Hrel; [done|]. split; try done. simpl. rewrite Hst. intros Hj. by apply Hnj in Hj.
      * eapply set_worker_inv; [done|exact Hw|done..|by left|done|]. split; try done. simpl. rewrite Hst. intros Hj. by apply Hnj in Hj.
  - specialize (Hl eq_refl). specialize (Hex eq_refl). specialize (Hblk eq_refl).
    eapply set_worker_inv; [done|exact Hw|done..|by right; left|done|]. split; try done; simpl.
    + intros _. destruct (notified (owner s)) eqn:Hn; [|done]. pose proof (in_stop _ Hi (or_intror Hn)). congruence.
    + intros Hj. by apply Hnj in Hj.
  - pose proof (pop_contents batch_num (tasks s)) as Hp. destruct (q_try_pop_n batch_num (tasks s)) as [l q]. simpl in *.
    destruct Hi as [Hf Ho Hb Hlk Hid Hs Hws]. split; simpl; try done.
    + by rewrite <-app_assoc, <-Hp.
    + unfold running in *. simpl. pose proof (batches_insert (workers s) i WPop (WRun l) Hw) as H. rewrite app_nil_r in H.
      rewrite H, app_assoc. by f_equiv.
    + intros j x [(<- & <- & _)|[Hne Hx]]%list_lookup_insert_Some.
      * split; try done. simpl. intros Hj. by apply Hnj in Hj.
      * destruct (Hws j x Hx) as [H1 H2 H3 H4 H5]. split; try done. simpl. intros Hx'. destruct (H2 Hx') as [? Hpre].
        split; [done|]. intros Hg. by apply prefix_app_r, Hpre.
  - eapply set_worker_inv; [done|exact Hw|done..|by left|apply in_lock; done|]. split; try done. intros Hj. by apply Hnj in Hj.
  - destruct Hi as [Hf Ho Hb Hlk Hid Hs Hws]. split; simpl; try done.
    + unfold running in *. simpl. rewrite Ho, <-app_assoc. f_equiv.
      pose proof (batches_insert (workers s) i (WRun (f :: l)) (WRun l) Hw) as H. simpl in H.
      apply (Permutation_app_inv_r l). rewrite <-H. simpl. by rewrite Permutation_middle.
    + intros j x [(<- & <- & _)|[Hne Hx]]%list_lookup_insert_Some; [|by destruct (Hws j x Hx)].
      split; try done. simpl. intros Hj. by apply Hnj in Hj.
Qed.

Lemma wake_inv i n s : inv s ->
  inv (mkPool (is_stop s) (graceful_stop s) (mutex s) (tasks s) (alter wake_up i (workers s)) (owner s) n
              (submitted s) (popped s) (ran s) (before_stop s)).
Proof.
  intros [Hf Ho Hb Hlk Hid Hs Hws]. split; simpl; try done.
  - unfold running in *. simpl. by rewrite batches_alter.
  - intros j x Hx. destruct (decide (i = j)) as [->|Hne].
    + rewrite list_lookup_alter_eq in Hx. destruct (workers s !! j) as [w|] eqn:Hw; [|done]. injection Hx as <-.
      destruct (wake_ok s j w (Hws j w Hw)). by split.
    + rewrite list_lookup_alter_ne in Hx by done. by destruct (Hws j x Hx).
Qed.

Lemma enqueue_inv f s : inv s -> inv (enqueue f s).
Proof.
  intros Hi. unfold enqueue. destruct (q_push f (tasks s)) as [q|] eqn:Hq; [|done].
  destruct Hi as [Hf Ho Hb Hlk Hid Hs Hws]. split; simpl; try done.
  - by rewrite (push_contents _ _ _ Hq), Hf, app_assoc.
  - intros Hst. by apply prefix_app_r, Hb.
  - intros i w Hw. by destruct (Hws i w Hw).
Qed.

Lemma owner_inv s : inv s -> inv (stop_step s).
Proof.
  intros Hi. pose proof Hi as [Hf Ho Hb Hlk Hid Hs Hws]. unfold stop_step. destruct (owner s) as [| | |k|] eqn:Hown.
  - destruct (mutex s) eqn:Hm; [done|]. split; simpl; try done; [by intros [?|?]|].
    intros i w Hw. destruct (Hws i w Hw) as [H1 H2 H3 H4 H5]. split; try done; simpl.
    + intros H. specialize (H1 H). congruence.
    + intros Hst. rewrite (Hid eq_refl) in Hst. done.
  - assert (Hfree : forall i w, workers s !! i = Some w -> has_lock w = false).
    { intros i w Hw. destruct (has_lock w) eqn:E; [|done]. by pose proof (lock_excl s i w Hi Hw E). }
    destruct (is_stop s) eqn:Hst.
    + split; simpl; rewrite ?Hst; try done. intros i w Hw. destruct (Hws i w Hw) as [H1 H2 H3 H4 H5]. rewrite Hown, Hst in H5.
      pose proof (H5 eq_refl) as ->. by split.
    + split; simpl; try done. intros i w Hw. destruct (Hws i w Hw) as [H1 H2 H3 H4 H5]. split; try done; simpl.
      * intros H. rewrite (Hfree i w Hw) in H. done.
      * intros H. destruct (H2 H). congruence.
      * intros ->. by specialize (Hfree i WBlock Hw).
  - split; simpl; try done.
    + assert (He : batch <$> (wake_up <$> workers s) = batch <$> workers s).
      { rewrite <-list_fmap_compose. apply list_fmap_ext. intros i x _. apply batch_wake. }
      unfold running in *. simpl. by rewrite He.
    + intros _. apply Hs. by left.
    + intros i x Hx. rewrite list_lookup_fmap in Hx. destruct (workers s !! i) as [w|] eqn:Hw; [|done]. injection Hx as <-.
      destruct (wake_ok s i w (Hws i w Hw)) as [H1 H2 H3 H4 H5]. split; try done; simpl; [by destruct w|lia].
  - destruct (workers s !! k) as [[]|] eqn:Hk; try done.
    + split; simpl; try done; [intros _; apply Hs; by right|]. intros i w Hw. destruct (Hws i w Hw) as [H1 H2 H3 H4 H5]. rewrite Hown in H4, H5. split; try done; simpl.
      intros Hik. destruct (decide (i = k)) as [->|]; [congruence|]. apply H5. simpl. lia.
    + split; simpl; try done; [intros _; apply Hs; by right|]. intros i w Hw. destruct (Hws i w Hw) as [H1 H2 H3 H4 H5]. rewrite Hown in H4, H5. split; try done; simpl.
      intros _. apply H5. simpl. apply lookup_lt_Some in Hw. apply lookup_ge_None in Hk. lia.
  - destruct (mutex s) eqn:Hm; [done|]. split; simpl; try done; [by intros [?|?]|].
    intros i w Hw. destruct (Hws i w Hw) as [H1 H2 H3 H4 H5]. rewrite Hown in H5. pose proof (H5 I) as ->. by split.
Qed.

Lemma pool_step_inv a s : inv s -> inv (step a s).
Proof.
  intros Hi. destruct a; simpl; [by apply enqueue_inv| |by apply wake_inv|by apply worker_inv|by apply owner_inv].
  unfold notify_one. destruct (notifying s); [done|]. destruct (match workers s !! i with Some _ => _ | None => _ end); [by apply wake_inv|done].
Qed.

Lemma pool_run_inv l : forall s, inv s -> inv (run l s).
Proof. unfold run. induction l as [|a l IH]; intros s Hi; simpl; [done|]. by apply IH, pool_step_inv. Qed.

Lemma step_const a s : length (workers (step a s)) = length (workers s) /\ graceful_stop (step a s) = graceful_stop s.
Proof.
  destruct a as [f|i|i|i|]; simpl.
  - unfold enqueue. by destruct (q_push f (tasks s)).
  - unfold notify_one. destruct (notifying s); [done|]. destruct (match workers s !! i with Some _ => _ | None => _ end); [|done].
    simpl. by rewrite length_alter.
  - by rewrite length_alter.
  - unfold worker_step. destruct (workers s !! i) as [[| | | | |[|f l]|]|]; try done; simpl.
    + destruct (mutex s); [done|]. simpl. by rewrite length_insert.
    + destruct (is_stop s), (graceful_stop s) eqn:Hg; simpl; repeat (destruct (q_size _ =? 0) || destruct (0 <? q_size _));
        simpl; by rewrite ?length_insert.
    + by rewrite length_insert.
    + destruct (q_try_pop_n batch_num (tasks s)). simpl. by rewrite length_insert.
    + by rewrite length_insert.
    + by rewrite length_insert.
  - unfold stop_step. destruct (owner s); [by destruct (mutex s)|by destruct (is_stop s)| |by destruct (workers s !! i) as [[]|]|by destruct (mutex s)].
    simpl. by rewrite length_fmap.
Qed.

Lemma run_const l : forall s, length (workers (run l s)) = length (workers s) /\ graceful_stop (run l s) = graceful_stop s.
Proof.
  unfold run. induction l as [|a l IH]; intros s; simpl; [done|].
  destruct (IH (step a s)) as [-> ->]. apply step_const.
Qed.

Lemma running_done (ws : list WPC) : Forall (fun w => w = WDone) ws -> concat (batch <$> ws) = [].
Proof. induction 1 as [|w ws -> _ IH]; [done|exact IH]. Qed.

(** * A stop ends *)

(** Whoever the mutex says holds it is in its critical section. *)
Definition lock_ok (s : Pool) : Prop :=
  match mutex s with
  | None => True
  | Some Owner => owner s = SLocked
  | Some (Worker i) => exists w, workers s !! i = Some w /\ has_lock w = true
  end.

Lemma lock_set_worker s i w w' : workers s !! i = Some w -> has_lock w = false -> lock_ok s -> lock_ok (set_worker i w' (mutex s) s).
Proof.
  unfold lock_ok. simpl. intros Hw Hn Hl. destruct (mutex s) as [[j|]|]; try done. destruct Hl as (x & Hx & Hh). exists x.
  split; [|done]. rewrite list_lookup_insert_ne; [done|]. intros ->. congruence.
Qed.

Lemma lock_own s i w w' : workers s !! i = Some w -> has_lock w' = true -> lock_ok (set_worker i w' (Some (Worker i)) s).
Proof.
  intros Hw Hh. unfold lock_ok. simpl. exists w'. split; [|done]. apply list_lookup_insert_eq. by eapply lookup_lt_Some.
Qed.

Lemma lock_worker i s : inv s -> lock_ok s -> lock_ok (worker_step i s).
Proof.
  intros Hi Hl. unfold worker_step. destruct (workers s !! i) as [w|] eqn:Hw; [|done].
  pose proof (wk_lock _ _ _ (in_workers _ Hi i w Hw)) as Hm. destruct w as [| | | | |[|f l]|]; try done.
  - destruct (mutex s); [done|]. by eapply lock_own.
  - specialize (Hm eq_refl). destruct (is_stop s || _); [|rewrite Hm; by eapply lock_own].
    destruct (is_stop s); [|done]. destruct (graceful_stop s); [|done]. by destruct (_ =? 0).
  - pose proof (lock_set_worker s i WPop) as Hs. destruct (q_try_pop_n batch_num (tasks s)) as [l q]. by apply (Hs (WRun l)).
  - by apply (lock_set_worker s i (WRun [])).
  - by apply (lock_set_worker s i (WRun (f :: l)) (WRun l)).
Qed.

Lemma lock_alter s i n : lock_ok s ->
  lock_ok (mkPool (is_stop s) (graceful_stop s) (mutex s) (tasks s) (alter wake_up i (workers s)) (owner s) n
              (submitted s) (popped s) (ran s) (before_stop s)).
Proof.
  unfold lock_ok. simpl. destruct (mutex s) as [[j|]|]; try done. intros (x & Hx & Hh).
  destruct (decide (i = j)) as [->|].
  - rewrite list_lookup_alter_eq, Hx. exists (wake_up x). split; [done|]. by destruct x.
  - rewrite list_lookup_alter_ne by done. by exists x.
Qed.

Lemma lock_step a s : inv s -> lock_ok s -> lock_ok (step a s).
Proof.
  intros Hi Hl. destruct a as [f|i|i|i|]; simpl; [| |by apply lock_alter|by apply lock_worker|].
  - unfold enqueue. by destruct (q_push f (tasks s)).
  - unfold notify_one. destruct (notifying s); [done|]. destruct (match workers s !! i with Some _ => _ | None => _ end); [by apply lock_alter|done].
  - unfold stop_step. pose proof (in_lock _ Hi) as Ho. unfold lock_ok in *. destruct (owner s) as [| | |k|] eqn:Hown.
    + by destruct (mutex s) as [[]|] eqn:Hm; simpl; rewrite ?Hm.
    + by destruct (is_stop s).
    + destruct (mutex s) as [[j|]|] eqn:Hm; simpl; rewrite ?Hm; try done. destruct Hl as (x & Hx & Hh).
      exists (wake_up x). split; [by rewrite list_lookup_fmap, Hx|by destruct x].
    + destruct (workers s !! k) as [[]|] eqn:Hk; simpl; try (rewrite Hown; exact Hl); destruct (mutex s) as [[]|]; done.
    + by destruct (mutex s) as [[]|] eqn:Hm; simpl; rewrite ?Hm, ?Hown.
Qed.

Lemma lock_run l : forall s, inv s -> lock_ok s -> lock_ok (run l s).
Proof.
  unfold run. induction l as [|a l IH]; intros s Hi Hl; simpl; [done|]. apply IH; [by apply pool_step_inv|by apply lock_step].
Qed.

Context {QP : QueueProgress Q F}.

(** What a worker has still to do once the stop has been notified; less when the queue is
    empty. *)
Definition weight (empty : bool) (w : WPC) : Z :=
  match w with
  | WRun l => (if empty then 4 else 8) + Z.of_nat (length l)
  | WLock => if empty then 3 else 7
  | WCheck => if empty then 2 else 6
  | WPop => 5
  | WBlock | WSleep | WDone => 0
  end.

Definition no_tasks (s : Pool) : bool := match contents (tasks s) with [] => true | _ => false end.
Definition work_left (s : Pool) : Z := 10 * Z.of_nat (length (contents (tasks s))) + total (weight (no_tasks s)) (workers s).

Lemma weight_nonneg e w : 0 <= weight e w.
Proof. destruct w, e; simpl; lia. Qed.

Lemma weight_empty e w : weight true w <= weight e w.
Proof. destruct w, e; simpl; lia. Qed.

Lemma work_left_nonneg s : 0 <= work_left s.
Proof. unfold work_left. pose proof (total_nonneg (weight (no_tasks s)) (workers s) ltac:(intros; apply weight_nonneg)). lia. Qed.

Lemma left_set_worker s i w w' m : workers s !! i = Some w ->
  work_left (set_worker i w' m s) = work_left s - weight (no_tasks s) w + weight (no_tasks s) w'.
Proof. intros Hw. unfold work_left. simpl. change (no_tasks (set_worker i w' m s)) with (no_tasks s). rewrite (total_insert _ _ _ _ _ Hw). lia. Qed.

(** Ended, or waiting for the mutex. *)
Definition stuck (s : Pool) (i : nat) : Prop :=
  forall w, workers s !! i = Some w -> w = WDone \/ (w = WLock /\ mutex s <> None).

Lemma work_step i s : inv s -> notified (owner s) = true ->
  (worker_step i s = s /\ stuck s i) \/ work_left (worker_step i s) < work_left s.
Proof.
  intros Hi Hn. pose proof (in_stop _ Hi (or_intror Hn)) as Hst. unfold worker_step, stuck.
  destruct (workers s !! i) as [w|] eqn:Hw; [|by left].
  destruct w as [| | | | |[|f l]|].
  - destruct (mutex s) eqn:Hm; [left; split; [done|]; intros x [= <-]; by right|].
    right. rewrite (left_set_worker _ _ _ _ _ Hw). destruct (no_tasks s); simpl; lia.
  - right. rewrite Hst. simpl. assert (Hd : work_left (set_worker i WDone None s) < work_left s).
    { rewrite (left_set_worker _ _ _ _ _ Hw). destruct (no_tasks s); simpl; lia. }
    destruct (graceful_stop s); [|done]. destruct (q_size (tasks s) =? 0) eqn:Hq; [done|]. wz_bool. rewrite size_contents in Hq.
    rewrite (left_set_worker _ _ _ _ _ Hw). unfold no_tasks. destruct (contents (tasks s)); simpl in *; lia.
  - pose proof (wk_block _ _ _ (in_workers _ Hi i _ Hw) eq_refl). congruence.
  - pose proof (wk_sleep _ _ _ (in_workers _ Hi i _ Hw) eq_refl). congruence.
  - right. pose proof (pop_contents batch_num (tasks s)) as Hp. pose proof (pop_progress 9 (tasks s)) as Hpr. change (S 9) with batch_num in Hpr.
    destruct (q_try_pop_n batch_num (tasks s)) as [l q]. simpl in Hp, Hpr. unfold work_left, no_tasks. simpl.
    rewrite (total_insert _ _ _ _ _ Hw), Hp. rewrite Hp in Hpr. destruct l as [|f l]; simpl.
    + destruct (contents q); [simpl; lia|]. by destruct Hpr.
    + pose proof (total_le (weight (match contents q with [] => true | _ => false end)) (weight false) (workers s)) as Hle.
      rewrite length_app. destruct (contents q) as [|g q']; simpl.
      * specialize (Hle ltac:(intros; apply weight_empty)). lia.
      * lia.
  - right. rewrite (left_set_worker _ _ _ _ _ Hw). destruct (no_tasks s); simpl; lia.
  - right. unfold work_left, no_tasks. simpl. rewrite (total_insert _ _ _ _ _ Hw). simpl. destruct (contents (tasks s)); lia.
  - left. split; [done|]. intros x [= <-]. by left.
Qed.

Lemma worker_owner i s : owner (worker_step i s) = owner s.
Proof.
  unfold worker_step. destruct (workers s !! i) as [[| | | | |[|f l]|]|]; try done.
  - by destruct (mutex s).
  - destruct (is_stop s || _); [|done]. destruct (is_stop s); [|done]. destruct (graceful_stop s); [|done]. by destruct (_ =? 0).
  - by destruct (q_try_pop_n batch_num (tasks s)).
Qed.

Lemma owner_works L : forall s, owner (run (AWork <$> L) s) = owner s.
Proof.
  induction L as [|i L IH]; intros s; [done|]. change (run (AWork <$> i :: L) s) with (run (AWork <$> L) (worker_step i s)).
  by rewrite IH, worker_owner.
Qed.

(** A pass over some workers does nothing, or it leaves less to do. *)
Lemma pass_works L : forall s, inv s -> notified (owner s) = true ->
  owner (run (AWork <$> L) s) = owner s /\ inv (run (AWork <$> L) s) /\
  ((run (AWork <$> L) s = s /\ forall i, i ∈ L -> stuck s i) \/ work_left (run (AWork <$> L) s) < work_left s).
Proof.
  induction L as [|i L IH]; intros s Hi Hn.
  - split; [done|]. split; [done|]. left. split; [done|]. by intros ? ?%elem_of_nil.
  - change (run (AWork <$> i :: L) s) with (run (AWork <$> L) (worker_step i s)).
    pose proof (worker_inv i s Hi) as Hi'. pose proof (worker_owner i s) as Ho. rewrite <-Ho in Hn.
    destruct (IH _ Hi' Hn) as (Ho' & Hi'' & Hr). split; [congruence|]. split; [done|].
    rewrite Ho in Hn. destruct (work_step i s Hi Hn) as [[He Hs]|Hlt].
    + rewrite He in Hr |- *. destruct Hr as [[-> Hr]|Hr]; [left|by right]. split; [done|].
      intros j [->|Hj]%elem_of_cons; [done|by apply Hr].
    + right. destruct Hr as [[-> _]|Hr]; lia.
Qed.

(** When all are stuck, all have ended: somebody holds the mutex, who is not stuck. *)
Lemma stuck_done s : lock_ok s -> notified (owner s) = true -> (forall i, stuck s i) -> Forall (fun w => w = WDone) (workers s).
Proof.
  intros Hl Hn Hs. apply Forall_lookup. intros i w Hw. destruct (Hs i w Hw) as [|[-> Hm]]; [done|]. exfalso.
  unfold lock_ok in Hl. destruct (mutex s) as [[j|]|]; [| |done].
  - destruct Hl as (x & Hx & Hh). destruct (Hs j x Hx) as [->|[-> _]]; done.
  - by rewrite Hl in Hn.
Qed.

(** One round: every worker steps once, then the owner. *)
Definition round (n : nat) : list Act := (AWork <$> seq 0 n) ++ [AStop].
Definition rounds (n m : nat) : list Act := concat (replicate m (round n)).

Lemma run_app l1 l2 s : run (l1 ++ l2) s = run l2 (run l1 s).
Proof. apply foldl_app. Qed.

Lemma rounds_end (m : nat) : forall s k, inv s -> lock_ok s -> owner s = SJoin k ->
  work_left s + Z.of_nat (length (workers s) - k) <= Z.of_nat m ->
  exists m', owner (run (rounds (length (workers s)) m') s) = SReturned.
Proof.
  induction m as [m IH] using lt_wf_ind; intros s k Hi Hl Ho Hm. set (n := length (workers s)) in *.
  assert (Hn : notified (owner s) = true) by (by rewrite Ho).
  destruct (pass_works (seq 0 n) s Hi Hn) as (Ho1 & Hi1 & Hr). set (s1 := run (AWork <$> seq 0 n) s) in *.
  assert (Hl1 : lock_ok s1) by (by apply lock_run). rewrite Ho in Ho1.
  destruct (run_const (AWork <$> seq 0 n) s) as [Hlen _]. fold s1 in Hlen. fold n in Hlen.
  assert (Hround : forall l, run (round n ++ l) s = run l (stop_step s1)) by (intros l; unfold round; by rewrite !run_app).
  pose proof (work_left_nonneg s1) as Hnn.
  assert (Hgo : forall k', owner (stop_step s1) = SJoin k' -> work_left (stop_step s1) = work_left s1 ->
    work_left s1 + Z.of_nat (n - k') < work_left s + Z.of_nat (n - k) -> exists m', owner (run (rounds n m') s) = SReturned).
  { intros k' Hk' Hw Hlt. destruct (step_const AStop s1) as [Hlen2 _]. simpl in Hlen2.
    destruct (IH (Z.to_nat (work_left s1 + Z.of_nat (n - k'))) ltac:(lia) (stop_step s1) k') as [m' Hm'];
      [by apply (pool_step_inv AStop)|by apply (lock_step AStop)|done|rewrite Hw, Hlen2, Hlen; lia|].
    rewrite Hlen2, Hlen in Hm'. exists (S m'). unfold rounds. simpl. by rewrite Hround. }
  unfold stop_step in Hgo. rewrite Ho1 in Hgo. destruct (workers s1 !! k) as [w|] eqn:Hk.
  - assert (Hkn : (k < n)%nat) by (rewrite <-Hlen; by eapply lookup_lt_Some).
    assert (Hdec : w = WDone \/ w <> WDone) by (destruct w; [by right..|by left]). destruct Hdec as [->|Hnd].
    + apply (Hgo (S k)); [done|done|]. destruct Hr as [[-> _]|Hr]; lia.
    + destruct Hr as [[Hs1 Hst]|Hr].
      * exfalso. rewrite Hs1 in Hk. assert (Hd : Forall (fun w => w = WDone) (workers s)).
        { apply stuck_done; [done..|]. intros i. destruct (decide (i < n)%nat) as [Hin|Hin]; [apply Hst, elem_of_seq; lia|].
          intros x Hx. apply lookup_lt_Some in Hx. unfold n in Hin. lia. }
        apply Hnd. by eapply (Forall_lookup_1 _ _ _ _ Hd).
      * destruct w; try done; apply (Hgo k); try done; lia.
  - exists 1%nat. unfold rounds. cbn [replicate concat]. rewrite Hround. unfold stop_step. rewrite Ho1, Hk. done.
Qed.

End pool.

(** C23: no task is lost or run twice, whatever the interleaving; once [stop_and_wait] has
    notified no worker sleeps again; and when it returns every worker has ended and, if the
    stop is graceful and there is a worker, every task enqueued before it has been run. *)
Theorem graceful_stop_runs_all {Q F} {TQ : TaskQueue Q F} {QL : QueueLaws Q F} threads queue_size g (l : list (Act (F := F))) :
  let s := run l (ctor threads queue_size g) in
  submitted s ≡ₚ ran s ++ running s ++ contents (tasks s) /\
  (notified (owner s) = true -> Forall (fun w => asleep w = false) (workers s)) /\
  (owner s = SReturned -> Forall (fun w => w = WDone) (workers s) /\ running s = [] /\
     (g = true -> 0 < threads -> before_stop s ⊆+ ran s)).
Proof.
  intros s. pose proof (pool_run_inv l _ (inv_ctor threads queue_size g)) as Hi. destruct (run_const l (ctor threads queue_size g)) as [Hlen Hg].
  fold s in Hi, Hlen, Hg. simpl in Hlen, Hg. rewrite length_replicate in Hlen.
  split; [by rewrite (in_fifo _ Hi), (in_once _ Hi), <-app_assoc|]. split.
  - intros Hn. apply Forall_lookup. intros i w Hw. destruct w; try done. pose proof (wk_sleep _ _ _ (in_workers _ Hi i _ Hw) eq_refl). congruence.
  - intros Ho. assert (Hd : Forall (fun w => w = WDone) (workers s)).
    { apply Forall_lookup. intros i w Hw. apply (wk_joined _ _ _ (in_workers _ Hi i w Hw)). by rewrite Ho. }
    split; [done|]. assert (Hr : running s = []) by (by apply running_done). split; [done|]. intros -> Ht.
    destruct (workers s) as [|w ws] eqn:Hws; [simpl in Hlen; lia|]. apply Forall_cons in Hd as [-> _].
    assert (Hw : workers s !! 0%nat = Some WDone) by (by rewrite Hws).
    destruct (wk_done _ _ _ (in_workers _ Hi 0 _ Hw) eq_refl) as [_ Hp]. destruct (Hp Hg) as [rest Hrest].
    pose proof (in_once _ Hi) as Ho'. rewrite Hr, app_nil_r, Hrest in Ho'. rewrite <-Ho'. apply submseteq_inserts_r. done.
Qed.

(** C25: a stop ends: once [stop_and_wait] has set its flag, whatever has happened before and
    whatever is still queued, finitely many rounds in which every worker takes a step and the
    owner takes one bring the owner back. *)
Theorem stop_returns {Q F} {TQ : TaskQueue Q F} {QL : QueueLaws Q F} {QP : QueueProgress Q F}
    threads queue_size g (l : list (Act (F := F))) :
  let s := run l (ctor threads queue_size g) in
  owner s = SNotify \/ (exists k, owner s = SJoin k) ->
  exists m, owner (run (rounds (Z.to_nat threads) m) s) = SReturned.
Proof.
  intros s Ho. pose proof (pool_run_inv l _ (inv_ctor threads queue_size g)) as Hi. fold s in Hi.
  assert (Hl : lock_ok s) by (apply lock_run; [apply inv_ctor|done]).
  destruct (run_const l (ctor threads queue_size g)) as [Hlen _]. fold s in Hlen. simpl in Hlen. rewrite length_replicate in Hlen.
  assert (Hj : forall s1 k, inv s1 -> lock_ok s1 -> length (workers s1) = Z.to_nat threads -> owner s1 = SJoin k ->
    exists m, owner (run (rounds (Z.to_nat threads) m) s1) = SReturned).
  { intros s1 k Hi1 Hl1 <- Ho1. pose proof (work_left_nonneg s1).
    apply (rounds_end (Z.to_nat (work_left s1 + Z.of_nat (length (workers s1) - k))) s1 k Hi1 Hl1 Ho1). lia. }
  destruct Ho as [Ho|[k Ho]]; [|by eapply Hj].
  set (s1 := run (AWork <$> seq 0 (Z.to_nat threads)) s).
  assert (Hi1 : inv s1) by (by apply pool_run_inv). assert (Hl1 : lock_ok s1) by (by apply lock_run).
  assert (Ho1 : owner s1 = SNotify) by (unfold s1; by rewrite owner_works).
  destruct (run_const (AWork <$> seq 0 (Z.to_nat threads)) s) as [Hlen1 _]. fold s1 in Hlen1.
  destruct (step_const AStop s1) as [Hlen2 _]. destruct (Hj (step AStop s1) 0%nat) as [m Hm].
  - by apply pool_step_inv.
  - by apply lock_step.
  - by rewrite Hlen2, Hlen1.
  - simpl. unfold stop_step. by rewrite Ho1.
  - exists (S m). unfold rounds. simpl. unfold round at 1. rewrite !run_app. exact Hm.
Qed.

(** ** What goes wrong *)

(** [notify_one] without the mutex falls between the worker's test and its sleep: the task
    stays in the queue, the worker asleep. *)
Definition lost_wakeup : list (Act (F := Z)) := [AWork 0; AWork 0; AEnqueue 7; ANotify 1; AWork 0; AWork 0].

Lemma enqueue_loses_wakeup :
  let s := run lost_wakeup (ctor (Q := list Z) 1 16 true) in
  tasks s = [7] /\ workers s = [WSleep] /\ notifying s = 0%nat /\ owner s = SIdle /\
  forall i, worker_step i s = s.
Proof. repeat (split; [vm_compute; reflexivity|]). by intros [|i]. Qed.

(** A stop that is not graceful leaves the queue as it is. *)
Lemma abrupt_stop_drops_tasks :
  let s := run ([AEnqueue 7] ++ [AStop; AStop; AWork 0; AWork 0] ++ replicate 3 AStop) (ctor (Q := list Z) 1 16 false) in
  owner s = SReturned /\ tasks s = [7] /\ ran s = [].
Proof. vm_compute. done. Qed.

(** ** Example *)

(** Two workers, three tasks, the last one enqueued after the stop and never run. *)
Definition demo : list (Act (F := Z)) :=
  [AEnqueue 1; AEnqueue 2; AWork 0; AWork 0; AWork 0; AWork 0; AStop; AStop; AStop; AWork 0; AWork 0; AWork 0; AWork 0; AWork 1; AWork 1; AEnqueue 3;
   AStop; AStop; AStop].

(** The same up to the point where the owner is about to notify. *)
Definition demo_stopping : list (Act (F := Z)) := take 8 demo.

Lemma stop_returns_witness :
  owner (run demo_stopping (ctor (Q := list Z) 2 16 true)) = SNotify /\
  (exists m, owner (run (rounds 2 m) (run demo_stopping (ctor (Q := list Z) 2 16 true))) = SReturned) /\
  owner (run (rounds 2 6) (run demo_stopping (ctor (Q := list Z) 2 16 true))) = SReturned.
Proof.
  split; [vm_compute; reflexivity|]. split; [|vm_compute; reflexivity].
  apply (stop_returns (Q := list Z) 2 16 true demo_stopping). left. vm_compute. reflexivity.
Defined.

Lemma graceful_stop_runs_all_witness :
  let s := run demo (ctor (Q := list Z) 2 16 true) in
  (submitted s ≡ₚ ran s ++ running s ++ contents (tasks s) /\
  (notified (owner s) = true -> Forall (fun w => asleep w = false) (workers s)) /\
  (owner s = SReturned -> Forall (fun w => w = WDone) (workers s) /\ running s = [] /\
     (true = true -> 0 < 2 -> before_stop s ⊆+ ran s))) /\
  owner s = SReturned /\ ran s = [1; 2] /\ before_stop s = [1; 2] /\ tasks s = [3].
Proof.
  split; [apply (graceful_stop_runs_all (Q := list Z) 2 16 true demo)|]. vm_compute. repeat (split; [reflexivity|]). reflexivity.
Defined.
End ThreadPool.
