(* ===== verification/Window.v ===== *)
(** The windows of src/small_test/window.cc: a window of recent times and a window of fixed
    length, both over that file's copy of the ring buffer.

    The copy shares its operations with src/src/container/ringbuffer.h ([RingBuffer.v]) but
    for the constructor, which constructs every slot, and for [clear], which does nothing
    when [T] is trivially destructible. *)
From S2P Require Import Prelude.
From S2P Require Import RingBuffer.
From stdpp Require Import sorting.
Local Open Scope Z_scope.
Local Open Scope wz.

Module Window.

(** * The ring buffer of this file *)

Section ring.
Context {T : Type} (trivial : bool) (dflt : T).
Implicit Types rb : RingBuffer T.

(** [new T[capacity]]. *)
Definition Ring_ctor (capacity : Z) : RingBuffer T :=
  mkRingBuffer (replicate (Z.to_nat capacity) (Some dflt)) (-1) 0 0 capacity.

Definition Ring_empty rb : bool := RingBuffer.empty rb.
Definition Ring_pop_front rb : option (RingBuffer T) := RingBuffer.pop_front trivial rb.

(** The windows take the default, [Overwrite = true]. *)
Definition Ring_emplace_back (x : T) rb : option (RingBuffer T) := RingBuffer.emplace_back trivial true x rb.

Definition Ring_front rb : option T := RingBuffer.front rb.
Definition Ring_back rb : option T := RingBuffer.back rb.
Definition Ring_at rb (index : Z) : option T := RingBuffer.at_ rb index.
Definition Ring_size rb : Z := RingBuffer.size rb.

(** A range-for over the buffer: [begin], [end], the iterator's operators. *)
Definition Ring_items rb : option (list T) := RingBuffer.forward rb.

Definition Ring_destroy_all rb : option (RingBuffer T) :=
  if trivial then Some rb else _destroy_all_loop trivial (Z.to_nat (size_ rb)) rb.

Definition Ring_clear rb : option (RingBuffer T) := Ring_destroy_all rb.

(** The destructor; [elements_] is never given back. *)
Definition Ring_dtor rb : option (RingBuffer T) := Ring_clear rb.

End ring.

(** * The window of recent times *)

Record ItemHolder (T : Type) := mkItem { timestamp : Z; value : T }.
Arguments mkItem {T}.
Arguments timestamp {T}.
Arguments value {T}.

Record TimeWindow (T : Type) := mkTimeWindow {
  _buffer : RingBuffer (ItemHolder T); _end_timestamp : Z; _window_gap : Z
}.
Arguments mkTimeWindow {T}.
Arguments _buffer {T}.
Arguments _end_timestamp {T}.
Arguments _window_gap {T}.

(** [static_cast] to [int64_t], and the range in which an [int64_t] result is defined. *)
Definition i64 (x : Z) : Z := (x + 2 ^ 63) mod 2 ^ 64 - 2 ^ 63.
Definition in_i64 (x : Z) : bool := (- 2 ^ 63 <=? x) && (x <? 2 ^ 63).

Section time.
Context {T : Type} (trivial : bool) (dflt : T).
Implicit Types w : TimeWindow T.

Definition TimeWindow_new (window_gap capacity : Z) : TimeWindow T :=
  mkTimeWindow (Ring_ctor (mkItem 0 dflt) capacity) 0 window_gap.

(** The loop pops as long as the oldest item is too old; each round shortens the buffer. *)
Fixpoint remove_expired_loop (fuel : nat) w : option (TimeWindow T) :=
  if Ring_empty (_buffer w) then Some w
  else
    item <-? Ring_front (_buffer w);
    guard (in_i64 (_end_timestamp w - timestamp item));
    if i64 (_window_gap w) <? _end_timestamp w - timestamp item
    then match fuel with
         | O => None
         | S fuel =>
             b <-? Ring_pop_front trivial (_buffer w);
             remove_expired_loop fuel (mkTimeWindow b (_end_timestamp w) (_window_gap w))
         end
    else Some w.

Definition remove_expired_data w : option (TimeWindow T) :=
  remove_expired_loop (Z.to_nat (Ring_size (_buffer w))) w.

Definition emplace_back (ts : Z) (x : T) w : option (TimeWindow T) :=
  b <-? Ring_emplace_back trivial (mkItem ts x) (_buffer w);
  remove_expired_data (mkTimeWindow b ts (_window_gap w)).

Definition for_each w : option (list (ItemHolder T)) := Ring_items (_buffer w).

(** The [int] index becomes a [size_t]. *)
Definition at_ w (i : Z) : option T := value <$> Ring_at (_buffer w) (u64 i).
Definition front w : option T := value <$> Ring_front (_buffer w).
Definition back w : option T := value <$> Ring_back (_buffer w).
Definition size w : Z := Ring_size (_buffer w).
Definition get_latest_timestamp w : Z := _end_timestamp w.

Definition clear w : option (TimeWindow T) :=
  b <-? Ring_clear trivial (_buffer w);
  Some (mkTimeWindow b (_end_timestamp w) (_window_gap w)).

(** A caller that appends items one after the other. *)
Fixpoint emplace_items (l : list (ItemHolder T)) w : option (TimeWindow T) :=
  match l with
  | [] => Some w
  | x :: l => w <-? emplace_back (timestamp x) (value x) w; emplace_items l w
  end.

End time.

(** * The window of fixed length *)

(** [_end_timestamp] is not used. *)
Record FixedWindow (T : Type) := mkFixedWindow { f_buffer : RingBuffer T; _window_size : Z }.
Arguments mkFixedWindow {T}.
Arguments f_buffer {T}.
Arguments _window_size {T}.

Section fixed.
Context {T : Type} (trivial : bool) (dflt : T).
Implicit Types w : FixedWindow T.

Definition FixedWindow_new (window_size : Z) : FixedWindow T :=
  mkFixedWindow (Ring_ctor dflt window_size) window_size.

Definition f_emplace_back (x : T) w : option (FixedWindow T) :=
  b <-? Ring_emplace_back trivial x (f_buffer w);
  Some (mkFixedWindow b (_window_size w)).

(** Not called: the buffer overwrites. *)
Fixpoint remove_overflow_loop (fuel : nat) w : option (FixedWindow T) :=
  if _window_size w <? Ring_size (f_buffer w)
  then match fuel with
       | O => None
       | S fuel => b <-? Ring_pop_front trivial (f_buffer w); remove_overflow_loop fuel (mkFixedWindow b (_window_size w))
       end
  else Some w.

Definition remove_overflow_data w : option (FixedWindow T) :=
  remove_overflow_loop (Z.to_nat (Ring_size (f_buffer w))) w.

Fixpoint emplace_each (l : list T) (b : RingBuffer T) : option (RingBuffer T) :=
  match l with
  | [] => Some b
  | x :: l => b <-? Ring_emplace_back trivial x b; emplace_each l b
  end.

(** The items are copied to a new buffer; the old one is destroyed. *)
Definition resize (new_window_size : Z) w : option (FixedWindow T) :=
  l <-? Ring_items (f_buffer w);
  new_buffer <-? emplace_each l (Ring_ctor dflt new_window_size);
  _ <-? Ring_dtor trivial (f_buffer w);
  Some (mkFixedWindow new_buffer new_window_size).

Definition f_for_each w : option (list T) := Ring_items (f_buffer w).
Definition f_at w (i : Z) : option T := Ring_at (f_buffer w) (u64 i).
Definition f_front w : option T := Ring_front (f_buffer w).
Definition f_back w : option T := Ring_back (f_buffer w).
Definition f_size w : Z := Ring_size (f_buffer w).

Definition f_clear w : option (FixedWindow T) :=
  b <-? Ring_clear trivial (f_buffer w); Some (mkFixedWindow b (_window_size w)).

End fixed.

(** * The ring buffer keeps its contents *)

Section ring_ok.
Context {T : Type} (trivial : bool) (dflt : T).
Implicit Types (rb : RingBuffer T) (l : list T).

(** Slots outside the queue may hold objects here: the relation is that of trivial types. *)
Definition holds rb l : Prop := repr true rb l.

Lemma Ring_ctor_holds cap : 0 < cap < 2 ^ 31 -> holds (Ring_ctor dflt cap) [].
Proof. intros. constructor; simpl; try lia; [rewrite length_replicate; lia|done..]. Qed.

Lemma write_dead_holds rb l j s : holds rb l -> (forall i, (i < length l)%nat -> j <> slot_of (capacity_ rb) (head_ rb) i) ->
  holds (mkRingBuffer (<[j := s]> (elements_ rb)) (tail_ rb) (head_ rb) (size_ rb) (capacity_ rb)) l.
Proof.
  intros [Hcap Hlen Hsz Hb Hh Ht Hth Htn Hsl Hlive] Hj. constructor; simpl; rewrite ?length_insert; try done.
  intros i x Hi. rewrite list_lookup_insert_ne; [by apply Hsl|]. apply Hj. by eapply lookup_lt_Some.
Qed.

Lemma destroy_head rb x l : holds rb (x :: l) ->
  exists rb1, _destroy trivial rb (head_ rb) = Some rb1 /\ head_ rb1 = head_ rb /\ size_ rb1 = size_ rb /\
    capacity_ rb1 = capacity_ rb /\ tail_ rb1 = tail_ rb /\
    next_index rb1 (head_ rb1) = Some ((head_ rb + 1) mod capacity_ rb) /\
    holds (mkRingBuffer (elements_ rb1) (tail_ rb1) ((head_ rb + 1) mod capacity_ rb) (u64 (size_ rb - 1)) (capacity_ rb)) l.
Proof.
  intros H. destruct (drop_head_repr true _ _ _ H) as (rb0 & [= <-] & _ & _ & _ & _ & Hn & Hr).
  unfold _destroy. destruct trivial; [by exists rb|]. pose proof H as [Hcap Hlen Hsz Hb Hh Ht Hth Htn Hsl Hlive].
  assert (Hslot0 : Z.to_nat (head_ rb) = slot_of (capacity_ rb) (head_ rb) 0).
  { unfold slot_of. by rewrite Z.add_0_r, Z.mod_small by lia. }
  rewrite (read_slot_nat _ _ _ (proj1 Hh) Hslot0), (Hsl 0%nat x eq_refl). rewrite write_slot_spec by lia.
  eexists. split; [done|]. cbn [head_ size_ capacity_ tail_ elements_]. split_and!; [done..| |].
  - rewrite next_index_spec in Hn |- *; simpl; [done|lia..].
  - pose proof (write_dead_holds _ l (Z.to_nat (head_ rb)) None Hr) as Hw. cbn [elements_ tail_ head_ size_ capacity_] in Hw.
    apply Hw. intros i Hi. rewrite slot_of_succ, Hslot0 by lia. intros Heq.
    simpl in Hsz. apply slot_of_inj in Heq; lia.
Qed.

Lemma Ring_pop_holds rb l : holds rb l ->
  exists rb', Ring_pop_front trivial rb = Some rb' /\ capacity_ rb' = capacity_ rb /\ holds rb' (tail l).
Proof.
  intros H. unfold Ring_pop_front, pop_front. rewrite (repr_empty _ _ _ H).
  destruct l as [|x l]; [by exists rb|]. rewrite bool_decide_false by done.
  destruct (destroy_head _ _ _ H) as (rb1 & -> & Hh & Hs & Hc & Ht & Hn & Hr). rewrite Hn, Hs, Hc. eexists. done.
Qed.

Lemma Ring_emplace_holds x rb l : holds rb l ->
  exists rb', Ring_emplace_back trivial x rb = Some rb' /\ capacity_ rb' = capacity_ rb /\
    holds rb' (Spec.last_n (Z.to_nat (capacity_ rb)) (l ++ [x])).
Proof.
  intros H. unfold Ring_emplace_back, RingBuffer.emplace_back, _emplace_back. rewrite (repr_full _ _ _ H).
  pose proof (repr_cap _ _ _ H). pose proof (repr_bound _ _ _ H). pose proof (repr_size _ _ _ H) as Hs.
  unfold Spec.last_n. rewrite length_app. simpl. case_bool_decide as Hf.
  - destruct (Ring_pop_holds _ _ H) as (rb1 & Hp & Hc & Hr). unfold Ring_pop_front in Hp. rewrite Hp.
    destruct (emplace_back_impl_repr true x rb1 (tail l) Hr) as (rb2 & He & Hc2 & Hr2).
    { rewrite Hc, (repr_size _ _ _ Hr). destruct l; simpl in *; lia. }
    exists rb2. split; [done|]. split; [congruence|]. destruct l as [|y l]; [simpl in *; lia|].
    replace (length (y :: l) + 1 - Z.to_nat (capacity_ rb))%nat with 1%nat by lia. done.
  - destruct (emplace_back_impl_repr true x rb l H) as (rb2 & He & Hc2 & Hr2); [lia|].
    exists rb2. split; [done|]. split; [done|]. by replace (length l + 1 - Z.to_nat (capacity_ rb))%nat with 0%nat by lia.
Qed.

Lemma destroy_loop_holds fuel : forall rb l, holds rb l -> (length l <= fuel)%nat ->
  exists rb', _destroy_all_loop trivial fuel rb = Some rb' /\ capacity_ rb' = capacity_ rb /\ holds rb' [].
Proof.
  induction fuel as [|fuel IH]; intros rb l H Hl; cbn [_destroy_all_loop]; rewrite (repr_empty _ _ _ H);
    (destruct l as [|x l]; [by exists rb|]); [simpl in Hl; lia|].
  rewrite bool_decide_false by done. destruct (destroy_head _ _ _ H) as (rb1 & -> & Hh & Hs & Hc & Ht & Hn & Hr).
  rewrite Hn, Hs, Hc. destruct (IH _ l Hr) as (rb' & -> & Hc' & Hr'); [simpl in Hl; lia|]. eexists. done.
Qed.

Lemma Ring_clear_holds rb l : holds rb l ->
  exists rb', Ring_clear trivial rb = Some rb' /\ capacity_ rb' = capacity_ rb /\ holds rb' (if trivial then l else []).
Proof.
  intros H. unfold Ring_clear, Ring_destroy_all. pose proof (repr_size _ _ _ H) as Hs.
  pose proof (destroy_loop_holds (Z.to_nat (size_ rb)) rb l H ltac:(lia)) as Hd. destruct trivial; [by exists rb|done].
Qed.

End ring_ok.

(** * The window of recent times *)

Section time_ok.
Context {T : Type} (trivial : bool) (dflt : T) (gap cap : Z).
Hypothesis Hgap : 0 <= gap < 2 ^ 63.
Hypothesis Hcap : 0 < cap < 2 ^ 31.
Implicit Types (l : list (ItemHolder T)) (it : ItemHolder T).

(** Not older than [gap] at time [now]. *)
Definition alive (now : Z) it : Prop := now - timestamp it <= gap.
#[local] Instance alive_dec now it : Decision (alive now it) := ltac:(unfold alive; apply _).

(** The last [cap] items that are not too old for the last one. *)
Definition recent l : list (ItemHolder T) :=
  match last l with
  | None => []
  | Some z => filter (alive (timestamp z)) (Spec.last_n (Z.to_nat cap) l)
  end.

Definition older (a b : ItemHolder T) : Prop := timestamp a <= timestamp b.

(** Times that grow and whose differences an [int64_t] can hold. *)
Record times_ok l : Prop := mkTimesOk {
  tm_sorted : StronglySorted older l;
  tm_range : Forall (fun it => 0 <= timestamp it < 2 ^ 63) l
}.

Fixpoint drop_expired (now : Z) l : list (ItemHolder T) :=
  match l with
  | [] => []
  | it :: l' => if gap <? now - timestamp it then drop_expired now l' else l
  end.

Lemma filter_all (P : ItemHolder T -> Prop) `{!forall x, Decision (P x)} l : Forall P l -> filter P l = l.
Proof. induction 1 as [|x l Hx _ IH]; [done|]. rewrite filter_cons_True by done. by f_equal. Qed.

Lemma filter_same (P : ItemHolder T -> Prop) `{!forall x, Decision (P x)} l : (length l <= length (filter P l))%nat -> filter P l = l.
Proof.
  intros Hlen. apply filter_all, Forall_forall. intros x Hx. destruct (decide (P x)) as [|Hn]; [done|].
  pose proof (length_filter_lt P l x Hx Hn). lia.
Qed.

Lemma tail_drop l n : tail (drop n l) = drop (S n) l.
Proof. revert l. induction n as [|n IH]; intros [|x l]; simpl; [done..|]. by rewrite IH; destruct l. Qed.

Lemma drop_expired_filter now l : StronglySorted older l -> drop_expired now l = filter (alive now) l.
Proof.
  induction 1 as [|it l Hs IH Hall]; [done|]. simpl. destruct (gap <? now - timestamp it) eqn:E; wz_bool.
  - rewrite filter_cons_False by (unfold alive; lia). done.
  - rewrite filter_cons_True by (unfold alive; lia). f_equal. symmetry. apply filter_all.
    eapply Forall_impl; [exact Hall|]. unfold older, alive. intros x Hx. lia.
Qed.

Lemma window_sorted_drop n l : StronglySorted older l -> StronglySorted older (drop n l).
Proof. rewrite <-(take_drop n l) at 1. by intros (_ & _ & H)%StronglySorted_app. Qed.

(** Forgetting the expired items before appending does not change what is recent. *)
Lemma recent_snoc l it : StronglySorted older (l ++ [it]) ->
  filter (alive (timestamp it)) (Spec.last_n (Z.to_nat cap) (recent l ++ [it])) = recent (l ++ [it]).
Proof.
  intros Hso. unfold recent at 2. rewrite last_snoc. destruct l as [|z l _] using rev_ind; [done|].
  unfold recent. rewrite last_snoc. set (M := Spec.last_n (Z.to_nat cap) (l ++ [z])). set (c := Z.to_nat cap).
  assert (Hzt : timestamp z <= timestamp it).
  { apply StronglySorted_app in Hso as (H & _ & _). apply (H z it); [apply elem_of_app; right|]; by left. }
  assert (Hmono : forall x, alive (timestamp it) x -> alive (timestamp z) x) by (unfold alive; intros x; lia).
  assert (HM : StronglySorted older M).
  { apply window_sorted_drop. by apply StronglySorted_app in Hso as (_ & H & _). }
  assert (Hff : filter (alive (timestamp it)) (filter (alive (timestamp z)) M) = filter (alive (timestamp it)) M).
  { rewrite list_filter_filter. apply list_filter_iff. intros x. split; [by intros [? _]|]. intros H. split; [done|by apply Hmono]. }
  assert (HlM : length M = Nat.min c (length (l ++ [z]))).
  { subst M c. unfold Spec.last_n. rewrite length_drop, length_app. simpl. lia. }
  assert (Hlast : Spec.last_n c ((l ++ [z]) ++ [it]) = (if decide (length (l ++ [z]) < c)%nat then M else tail M) ++ [it]).
  { subst M c. clear -Hcap. generalize (l ++ [z]). intros L. unfold Spec.last_n. rewrite length_app. simpl. case_decide as Hd.
    - replace (length L + 1 - Z.to_nat cap)%nat with 0%nat by lia. by replace (length L - Z.to_nat cap)%nat with 0%nat by lia.
    - rewrite drop_app_le by lia. f_equal. rewrite tail_drop. f_equal. lia. }
  rewrite Hlast. pose proof (length_filter (alive (timestamp z)) M) as Hle.
  destruct (decide (length (filter (alive (timestamp z)) M) < c)%nat) as [Hlt|Hge].
  - assert (Hl1 : Spec.last_n c (filter (alive (timestamp z)) M ++ [it]) = filter (alive (timestamp z)) M ++ [it]).
    { unfold Spec.last_n. rewrite length_app. simpl. by replace (_ + 1 - c)%nat with 0%nat by lia. }
    rewrite Hl1, !filter_app, Hff. f_equal. case_decide as Hd; [done|].
    destruct M as [|m M']; [done|]. simpl. apply filter_cons_False. intros Hm%Hmono. unfold alive in Hm.
    assert (Hall : Forall (alive (timestamp z)) (m :: M')).
    { apply StronglySorted_inv in HM as [_ HM]. constructor; [done|]. eapply Forall_impl; [exact HM|]. unfold older, alive. intros x Hx. lia. }
    rewrite (filter_all _ _ Hall) in Hlt. lia.
  - assert (HfM : filter (alive (timestamp z)) M = M) by (apply filter_same; lia).
    rewrite HfM in *. f_equal. assert (Hc : (length M = c)%nat) by lia.
    rewrite decide_False by lia. unfold Spec.last_n. rewrite length_app, Hc. simpl.
    replace (c + 1 - c)%nat with 1%nat by lia. destruct M as [|m M']; [simpl in Hc; lia|]. done.
Qed.

Lemma sorted_filter (P : ItemHolder T -> Prop) `{!forall x, Decision (P x)} l : StronglySorted older l -> StronglySorted older (filter P l).
Proof.
  induction 1 as [|x l Hs IH Hall]; [constructor|]. rewrite filter_cons. case_decide; [|done]. constructor; [done|].
  apply Forall_forall. intros y [_ Hy]%list_elem_of_filter. rewrite Forall_forall in Hall. by apply Hall.
Qed.

Lemma recent_sorted l : StronglySorted older l -> StronglySorted older (recent l).
Proof.
  intros H. unfold recent. destruct (last l); [|constructor]. apply sorted_filter. by apply window_sorted_drop.
Qed.

Lemma recent_sub l it : it ∈ recent l -> it ∈ l.
Proof.
  unfold recent. destruct (last l); [|by intros ?%elem_of_nil]. intros [_ H]%list_elem_of_filter.
  rewrite <-(take_drop (length l - Z.to_nat cap) l). apply elem_of_app. by right.
Qed.

Lemma expired_loop_ok fuel : forall (w : TimeWindow T) l, holds (_buffer w) l -> _window_gap w = gap ->
  Forall (fun it => 0 <= timestamp it < 2 ^ 63) l -> 0 <= _end_timestamp w < 2 ^ 63 -> (length l <= fuel)%nat ->
  exists b, remove_expired_loop trivial fuel w = Some (mkTimeWindow b (_end_timestamp w) gap) /\
    capacity_ b = capacity_ (_buffer w) /\ holds b (drop_expired (_end_timestamp w) l).
Proof.
  induction fuel as [|fuel IH]; intros w l Hh Hg Hr He Hl; cbn [remove_expired_loop]; unfold Ring_empty;
    rewrite (repr_empty _ _ _ Hh); (destruct l as [|it l]; [exists (_buffer w); rewrite <-Hg; by destruct w|]); [simpl in Hl; lia|].
  rewrite bool_decide_false by done. unfold Ring_front. rewrite (front_repr _ _ _ Hh). cbn [head].
  apply Forall_cons in Hr as [Hit Hr]. assert (Hin : in_i64 (_end_timestamp w - timestamp it) = true).
  { unfold in_i64. rewrite (proj2 (Z.leb_le _ _)), (proj2 (Z.ltb_lt _ _)) by lia. done. }
  rewrite Hin. assert (Hi : i64 (_window_gap w) = gap) by (rewrite Hg; unfold i64; rewrite Z.mod_small; lia).
  rewrite Hi. cbn [drop_expired]. destruct (gap <? _end_timestamp w - timestamp it) eqn:E.
  - destruct (Ring_pop_holds trivial _ _ Hh) as (b & -> & Hc & Hb).
    destruct (IH (mkTimeWindow b (_end_timestamp w) (_window_gap w)) l Hb Hg Hr He) as (b' & -> & Hc' & Hb'); [simpl in Hl; lia|].
    exists b'. cbn [_end_timestamp _buffer] in *. split; [done|]. split; [congruence|done].
  - exists (_buffer w). rewrite <-Hg. by destruct w.
Qed.

(** The window after the items [l]. *)
Record shows (w : TimeWindow T) l : Prop := mkShows {
  sh_holds : holds (_buffer w) (recent l);
  sh_cap : capacity_ (_buffer w) = cap;
  sh_gap : _window_gap w = gap
}.

Lemma emplace_shows w l it : shows w l -> times_ok (l ++ [it]) ->
  exists w', emplace_back trivial (timestamp it) (value it) w = Some w' /\ shows w' (l ++ [it]).
Proof.
  intros [Hh Hc Hg] [Hso Hr]. unfold emplace_back. replace (mkItem (timestamp it) (value it)) with it by (by destruct it).
  destruct (Ring_emplace_holds trivial it _ _ Hh) as (b & -> & Hcb & Hb). rewrite Hc in Hb.
  assert (Hrn : Forall (fun it => 0 <= timestamp it < 2 ^ 63) (Spec.last_n (Z.to_nat cap) (recent l ++ [it]))).
  { rewrite Forall_forall in Hr |- *. intros x Hx. apply Hr. unfold Spec.last_n in Hx. apply elem_of_app.
    assert (Hx' : x ∈ recent l ++ [it]) by (rewrite <-(take_drop (length (recent l ++ [it]) - Z.to_nat cap) (recent l ++ [it])); apply elem_of_app; by right).
    apply elem_of_app in Hx' as [Hx'|Hx']; [left; by apply recent_sub|by right]. }
  pose proof Hr as [_ [Hit _]%Forall_cons]%Forall_app.
  unfold remove_expired_data. destruct (expired_loop_ok (Z.to_nat (Ring_size b)) (mkTimeWindow b (timestamp it) (_window_gap w)) _ Hb Hg Hrn Hit)
    as (b' & Hl & Hcb' & Hb').
  { unfold Ring_size, RingBuffer.size. rewrite (repr_size _ _ _ Hb). lia. }
  cbn [_buffer] in Hl |- *. rewrite Hl. eexists. split; [done|]. cbn [_end_timestamp _buffer _window_gap] in *.
  split; cbn [_buffer _window_gap]; [|congruence|done].
  rewrite <-(recent_snoc l it Hso), <-drop_expired_filter; [done|]. apply window_sorted_drop.
  apply StronglySorted_app in Hso as (Hx & Hsl & Hs1). apply StronglySorted_app. split_and!; [|by apply recent_sorted|done].
  intros x y Hxl Hy. apply Hx; [by apply recent_sub|done].
Qed.

Lemma emplace_items_shows l : forall w l0, shows w l0 -> times_ok (l0 ++ l) ->
  exists w', emplace_items trivial l w = Some w' /\ shows w' (l0 ++ l).
Proof.
  induction l as [|it l IH]; intros w l0 Hw Ht; cbn [emplace_items]; [exists w; by rewrite app_nil_r|].
  assert (Ht1 : times_ok (l0 ++ [it])).
  { destruct Ht as [Hso Hr]. change (it :: l) with ([it] ++ l) in *. rewrite app_assoc in *. split.
    - by apply StronglySorted_app in Hso as (_ & ? & _).
    - by apply Forall_app in Hr as [? _]. }
  destruct (emplace_shows w l0 it Hw Ht1) as (w' & -> & Hw').
  destruct (IH w' (l0 ++ [it]) Hw') as (w2 & H2 & Hs2); [by rewrite <-app_assoc|]. exists w2. by rewrite <-app_assoc in Hs2.
Qed.

Lemma new_shows : shows (TimeWindow_new dflt gap cap) [].
Proof. split; [by apply Ring_ctor_holds|done..]. Qed.

End time_ok.

(** C34: after any items with growing times a window shows exactly the last [cap] of them that
    are not older than [gap] when the last one arrives: in order by [for_each] and [at], with
    its ends by [front] and [back]; nothing on the way is undefined. *)
Theorem time_window_keeps_recent {T} (trivial : bool) (dflt : T) gap cap (l : list (ItemHolder T)) :
  0 <= gap < 2 ^ 63 -> 0 < cap < 2 ^ 31 -> times_ok l ->
  exists w, emplace_items trivial l (TimeWindow_new dflt gap cap) = Some w /\
    for_each w = Some (recent gap cap l) /\ size w = Z.of_nat (length (recent gap cap l)) /\
    front w = value <$> head (recent gap cap l) /\ back w = value <$> last (recent gap cap l) /\
    (forall i : nat, Z.of_nat i < 2 ^ 31 -> at_ w (Z.of_nat i) = value <$> recent gap cap l !! i).
Proof.
  intros Hg Hc Ht. destruct (emplace_items_shows trivial gap cap Hg Hc l (TimeWindow_new dflt gap cap) [] (new_shows dflt gap cap Hc) Ht)
    as (w & He & [Hh _ _]). simpl in Hh. exists w. split; [done|]. split; [by apply (forward_repr true)|].
  split; [by apply (repr_size true)|]. split; [by unfold front, Ring_front; rewrite (front_repr true _ _ Hh)|].
  split; [by unfold back, Ring_back; rewrite (back_repr true _ _ Hh)|].
  intros i Hi. unfold at_, Ring_at. rewrite u64_small by lia. by rewrite (at_repr true _ _ i Hh).
Qed.

(** * The window of fixed length *)

Section fixed_ok.
Context {T : Type} (trivial : bool) (dflt : T).
Implicit Types (l : list T) (w : FixedWindow T).

Lemma emplace_each_holds l : forall b l0, holds b l0 -> (length l0 <= Z.to_nat (capacity_ b))%nat ->
  exists b', emplace_each trivial l b = Some b' /\ capacity_ b' = capacity_ b /\ holds b' (Spec.last_n (Z.to_nat (capacity_ b)) (l0 ++ l)).
Proof.
  induction l as [|x l IH]; intros b l0 Hb Hl; cbn [emplace_each].
  - exists b. rewrite app_nil_r. unfold Spec.last_n. by replace (length l0 - Z.to_nat (capacity_ b))%nat with 0%nat by lia.
  - destruct (Ring_emplace_holds trivial x b l0 Hb) as (b1 & -> & Hc1 & Hb1).
    destruct (IH b1 _ Hb1) as (b' & -> & Hc' & Hb').
    { rewrite Hc1. unfold Spec.last_n. rewrite length_drop, length_app. simpl. lia. }
    exists b'. split; [done|]. split; [congruence|]. rewrite Hc1 in Hb'.
    assert (He : Spec.last_n (Z.to_nat (capacity_ b)) (Spec.last_n (Z.to_nat (capacity_ b)) (l0 ++ [x]) ++ l)
               = Spec.last_n (Z.to_nat (capacity_ b)) (l0 ++ x :: l)); [|by rewrite <-He].
    replace (l0 ++ x :: l) with ((l0 ++ [x]) ++ l) by (by rewrite <-app_assoc). generalize (l0 ++ [x]). intros m. unfold Spec.last_n.
    rewrite !length_app, length_drop. destruct (decide (length m <= Z.to_nat (capacity_ b))%nat) as [Hm|Hm].
    + replace (length m - Z.to_nat (capacity_ b))%nat with 0%nat by lia. rewrite drop_0. f_equal. lia.
    + rewrite <-(drop_app_le m l (length m - Z.to_nat (capacity_ b))) by lia. rewrite drop_drop. f_equal. lia.
Qed.

(** [resize] keeps the last items that fit, and the window goes on from there. *)
Lemma resize_keeps_last n w l : holds (f_buffer w) l -> 0 < n < 2 ^ 31 ->
  exists w', resize trivial dflt n w = Some w' /\ _window_size w' = n /\ f_for_each w' = Some (Spec.last_n (Z.to_nat n) l) /\
    holds (f_buffer w') (Spec.last_n (Z.to_nat n) l).
Proof.
  intros Hh Hn. unfold resize, Ring_items. rewrite (forward_repr true _ _ Hh).
  destruct (emplace_each_holds l (Ring_ctor dflt n) [] (Ring_ctor_holds dflt n Hn) ltac:(simpl; lia)) as (b & -> & _ & Hb).
  unfold Ring_dtor. destruct (Ring_clear_holds trivial _ _ Hh) as (b' & -> & _). eexists. split; [done|]. split; [done|].
  simpl in Hb. split; [by apply (forward_repr true)|done].
Qed.

End fixed_ok.

(** ** What goes wrong *)

(** [clear] leaves a window of trivial items as it is. *)
Lemma clear_keeps_trivial_items :
  (w <-? f_emplace_back true 5 (FixedWindow_new 0 3); w <-? f_clear true w; f_for_each w) = Some [5] /\
  (w <-? f_emplace_back false 5 (FixedWindow_new 0 3); w <-? f_clear false w; f_for_each w) = Some [].
Proof. vm_compute. done. Qed.

(** [resize(0)] of a window that holds an item divides by zero. *)
Lemma resize_to_nothing :
  (w <-? f_emplace_back true 5 (FixedWindow_new 0 3); resize true 0 0 w) = None.
Proof. vm_compute. done. Qed.

(** ** Example *)

Definition demo : list (ItemHolder Z) := [mkItem 100 1; mkItem 200 2; mkItem 900 3; mkItem 1000 4; mkItem 1150 5].

Lemma demo_times : times_ok demo.
Proof. split; repeat constructor; unfold older; simpl; lia. Qed.

Lemma time_window_keeps_recent_witness :
  (exists w, emplace_items true demo (TimeWindow_new 0 300 4) = Some w /\
    for_each w = Some (recent 300 4 demo) /\ size w = Z.of_nat (length (recent 300 4 demo)) /\
    front w = value <$> head (recent 300 4 demo) /\ back w = value <$> last (recent 300 4 demo) /\
    (forall i : nat, Z.of_nat i < 2 ^ 31 -> at_ w (Z.of_nat i) = value <$> recent 300 4 demo !! i)) /\
  value <$> recent 300 4 demo = [3; 4; 5].
Proof.
  split; [|vm_compute; reflexivity]. apply (time_window_keeps_recent true 0 300 4 demo); [lia|lia|apply demo_times].
Defined.

End Window.
