(* ===== verification/Matrix.v ===== *)
(** The loops of small_test/matrix_ multiplication.cpp: four orders of the same three loops over
    matrices of 64-bit unsigned integers, and the statistics of the measurements.

    The sizes, constants of the source, are the parameters [M], [K] and [N]. The threads of
    [run_concurrent], which share one object without synchronisation, are not modelled. *)
From S2P Require Import Prelude.
Open Scope wizard_scope.

(** * Loops and matrices *)

(** [for (int x = 0; x < n; ++x)] *)
Fixpoint for_from {S : Type} (x n : nat) (body : nat -> S -> option S) (s : S) : option S :=
  match n with O => Some s | Datatypes.S n => s <-? body x s; for_from (Datatypes.S x) n body s end.

Definition for_ {S : Type} (n : nat) (body : nat -> S -> option S) (s : S) : option S := for_from 0 n body s.

(** [m[i][j]]; outside the vectors it is undefined. *)
Definition get (m : list (list Z)) (i j : nat) : option Z := row <-? m !! i; row !! j.

Definition put (m : list (list Z)) (i j : nat) (x : Z) : option (list (list Z)) :=
  row <-? m !! i; _ <-? row !! j; Some (<[i := <[j := x]> row]> m).

(** [std::vector::resize] *)
Definition resize_ {X : Type} (n : nat) (d : X) (l : list X) : list X := take n l ++ replicate (n - length l) d.

Record MatrixMul := mkMul { A : list (list Z); B : list (list Z); C : list (list Z) }.

Section sizes.
Context (M K N : nat).

(** [C[i][j] += A[i][k] + B[k][j]] *)
Definition accumulate (i j k : nat) (s : MatrixMul) : option MatrixMul :=
  a <-? get (A s) i k;
  b <-? get (B s) k j;
  c <-? get (C s) i j;
  m <-? put (C s) i j (u64 (c + u64 (a + b)));
  Some (mkMul (A s) (B s) m).

Definition reset (s : MatrixMul) : option MatrixMul :=
  for_ M (fun i => for_ N (fun j s => m <-? put (C s) i j 0; Some (mkMul (A s) (B s) m))) s.

Definition test1_ijk (s : MatrixMul) : option MatrixMul :=
  s <-? reset s; for_ M (fun i => for_ N (fun j => for_ K (fun k => accumulate i j k))) s.

Definition test2_jki (s : MatrixMul) : option MatrixMul :=
  s <-? reset s; for_ N (fun j => for_ K (fun k => for_ M (fun i => accumulate i j k))) s.

Definition test3_ikj (s : MatrixMul) : option MatrixMul :=
  s <-? reset s; for_ M (fun i => for_ K (fun k => for_ N (fun j => accumulate i j k))) s.

Definition test4_kij (s : MatrixMul) : option MatrixMul :=
  s <-? reset s; for_ K (fun k => for_ M (fun i => for_ N (fun j => accumulate i j k))) s.

(** A matrix of [r] rows of [c], each resized and filled with the sum of its indices. *)
Definition fill_rows (r c : nat) (m : list (list Z)) : option (list (list Z)) :=
  for_ r (fun i m =>
    row <-? m !! i;
    for_ c (fun j m => put m i j (Z.of_nat (i + j))) (<[i := resize_ c 0 row]> m)) (resize_ r [] m).

Definition init (s : MatrixMul) : option MatrixMul :=
  a <-? fill_rows M K (A s);
  b <-? fill_rows K N (B s);
  c <-? for_ M (fun i m => row <-? m !! i; Some (<[i := resize_ N 0 row]> m)) (resize_ M [] (C s));
  Some (mkMul a b c).
End sizes.

(** ** Statistics *)

(** The loop of [bench_many_times]: the sum wraps, an average of no measurements is undefined. *)
Definition measure (costs : list Z) : Z * Z * Z :=
  foldl (fun '(sum, mx, mn) cost => (u64 (sum + cost), Z.max cost mx, Z.min cost mn)) (0, 0, 2 ^ 64 - 1) costs.

Definition bench_many_times (costs : list Z) (ops_each_time : Z) : option (Z * Z * Z) :=
  let '(sum, mx, mn) := measure costs in
  if Z.of_nat (length costs) =? 0 then None else
  let avg := sum / Z.of_nat (length costs) in
  if ops_each_time =? 0 then None else Some (mx / ops_each_time, avg / ops_each_time, mn / ops_each_time).
Close Scope wizard_scope.

(** * Matrices as functions *)

Definition mat (r c : nat) (f : nat -> nat -> Z) : list (list Z) := (fun i => f i <$> seq 0 c) <$> seq 0 r.

Section matrices.
Implicit Types (f g : nat -> nat -> Z).

Lemma mat_row r c f i : (i < r)%nat -> mat r c f !! i = Some (f i <$> seq 0 c).
Proof. intros Hi. unfold mat. by rewrite fmap_seq_lookup_eq. Qed.

Lemma get_mat r c f i j : (i < r)%nat -> (j < c)%nat -> get (mat r c f) i j = Some (f i j).
Proof. intros Hi Hj. unfold get. rewrite mat_row by done. by rewrite fmap_seq_lookup_eq. Qed.

Lemma mat_ext r c f g : (forall i j, (i < r)%nat -> (j < c)%nat -> f i j = g i j) -> mat r c f = mat r c g.
Proof.
  intros H. unfold mat. apply list_fmap_ext. intros k i Hk. apply lookup_seq in Hk as [-> Hi].
  apply list_fmap_ext. intros k' j Hk'. apply lookup_seq in Hk' as [-> Hj]. by apply H.
Qed.

(** A matrix is the one of its entries. *)
Lemma mat_entries r c m : length m = r -> Forall (fun row => length row = c) m ->
  m = mat r c (fun i j => default 0 (get m i j)).
Proof.
  intros Hr Hc. apply list_eq. intros i. destruct (m !! i) as [row|] eqn:E.
  - pose proof (lookup_lt_Some _ _ _ E) as Hi. rewrite mat_row by lia. f_equal. pose proof (Forall_lookup_1 _ _ _ _ Hc E) as Hrow.
    cbn in Hrow. apply list_eq. intros j. destruct (row !! j) as [x|] eqn:Ej.
    + pose proof (lookup_lt_Some _ _ _ Ej). rewrite fmap_seq_lookup_eq by lia. unfold get. by rewrite E, Ej.
    + apply lookup_ge_None in Ej. symmetry. apply lookup_ge_None. rewrite length_fmap, length_seq. lia.
  - apply lookup_ge_None in E. symmetry. apply lookup_ge_None. unfold mat. rewrite length_fmap, length_seq. lia.
Qed.

Definition update f (i j : nat) (x : Z) (i' j' : nat) : Z := if decide (i' = i /\ j' = j) then x else f i' j'.

Lemma put_mat r c f i j x : (i < r)%nat -> (j < c)%nat -> put (mat r c f) i j x = Some (mat r c (update f i j x)).
Proof.
  intros Hi Hj. unfold put. rewrite mat_row, fmap_seq_lookup_eq by done. f_equal.
  assert (Hlen : length (mat r c f) = r) by (unfold mat; by rewrite length_fmap, length_seq).
  apply list_eq. intros i'. destruct (decide (i' < r)%nat) as [Hi'|Hi'].
  - rewrite mat_row by done. destruct (decide (i = i')) as [<-|Hne].
    + rewrite list_lookup_insert_eq by lia. f_equal. apply list_eq. intros j'.
      destruct (decide (j' < c)%nat) as [Hj'|Hj'].
      * rewrite fmap_seq_lookup_eq by done. unfold update. destruct (decide (j = j')) as [<-|Hne].
        -- rewrite list_lookup_insert_eq by (rewrite length_fmap, length_seq; lia). by rewrite decide_True.
        -- rewrite list_lookup_insert_ne, fmap_seq_lookup_eq by done. rewrite decide_False by (intros [_ ?]; congruence). done.
      * rewrite !lookup_ge_None_2; rewrite ?length_insert, ?length_fmap, ?length_seq; [done|lia|lia].
    + rewrite list_lookup_insert_ne, mat_row by done. f_equal. apply list_fmap_ext. intros ? ? _. unfold update.
      by rewrite decide_False by (intros [? _]; congruence).
  - rewrite !lookup_ge_None_2; [done|unfold mat; rewrite length_fmap, length_seq; lia|rewrite length_insert; lia].
Qed.
End matrices.

(** * Loops that add to [C] *)

(** Sums over indices. *)
Definition sum_below (n : nat) (f : nat -> Z) : Z := total f (seq 0 n).

Section sums.
Implicit Types (f g : nat -> Z).

Lemma sum_below_ext n f g : (forall x, (x < n)%nat -> f x = g x) -> sum_below n f = sum_below n g.
Proof. intros H. apply total_ext. intros x Hx%elem_of_seq. apply H. lia. Qed.

Lemma sum_below_S n f : sum_below (S n) f = sum_below n f + f n.
Proof. unfold sum_below. rewrite seq_S, total_app. simpl. lia. Qed.

Lemma sum_below_zero n f : (forall x, (x < n)%nat -> f x = 0) -> sum_below n f = 0.
Proof. intros H. rewrite (sum_below_ext n f (fun _ => 0)) by done. unfold sum_below. rewrite total_const. lia. Qed.

(** A sum with one summand. *)
Lemma sum_below_pick n f a : (a < n)%nat -> (forall x, (x < n)%nat -> x <> a -> f x = 0) -> sum_below n f = f a.
Proof.
  induction n as [|n IH]; intros Ha Hz; [lia|]. rewrite sum_below_S. destruct (decide (a = n)) as [->|Hne].
  - rewrite sum_below_zero; [lia|]. intros x Hx. apply Hz; lia.
  - rewrite IH; [|lia|intros x Hx; apply Hz; lia]. rewrite (Hz n) by lia. lia.
Qed.
End sums.

Section loops.
Context (M K N : nat) (a b : nat -> nat -> Z).
Implicit Types (f g : nat -> nat -> Z).

(** The object whose [C] holds [f], reduced. *)
Definition holding f : MatrixMul := mkMul (mat M K a) (mat K N b) (mat M N (fun i j => u64 (f i j))).

Lemma holding_ext f f' : (forall i j, (i < M)%nat -> (j < N)%nat -> f i j = f' i j) -> holding f = holding f'.
Proof. intros H. unfold holding. f_equal. apply mat_ext. intros i j Hi Hj. by rewrite H. Qed.

(** The code adds [g] to [C], whatever [C] holds. *)
Definition adds (body : MatrixMul -> option MatrixMul) g : Prop :=
  forall f, body (holding f) = Some (holding (fun i j => f i j + g i j)).

Lemma for_from_adds body (g : nat -> nat -> nat -> Z) n : forall x,
  (forall y, (x <= y < x + n)%nat -> adds (body y) (g y)) ->
  adds (for_from x n body) (fun i j => total (fun y => g y i j) (seq x n)).
Proof.
  induction n as [|n IH]; intros x Hb f; cbn [for_from seq].
  - f_equal. apply holding_ext. intros i j _ _. simpl. lia.
  - rewrite (Hb x) by lia. rewrite (IH (S x)) by (intros y Hy; apply Hb; lia). f_equal. apply holding_ext.
    intros i j _ _. simpl. lia.
Qed.

Lemma for_adds body (g : nat -> nat -> nat -> Z) n :
  (forall y, (y < n)%nat -> adds (body y) (g y)) -> adds (for_ n body) (fun i j => sum_below n (fun y => g y i j)).
Proof. intros Hb. apply for_from_adds. intros y Hy. apply Hb. lia. Qed.

Lemma adds_ext body g g' :
  (forall i j, (i < M)%nat -> (j < N)%nat -> g i j = g' i j) -> adds body g -> adds body g'.
Proof. intros H Hb f. rewrite Hb. f_equal. apply holding_ext. intros i j Hi Hj. by rewrite H. Qed.

(** What one step of the loops adds. *)
Definition one (i j k i' j' : nat) : Z := if decide (i' = i /\ j' = j) then a i k + b k j else 0.

Lemma accumulate_adds i j k : (i < M)%nat -> (j < N)%nat -> (k < K)%nat -> adds (accumulate i j k) (one i j k).
Proof.
  intros Hi Hj Hk f. unfold accumulate, holding. cbn [A B C]. rewrite !get_mat by done. rewrite put_mat by done.
  do 2 f_equal. apply mat_ext. intros i' j' _ _. unfold update, one. case_decide as E; [|by rewrite Z.add_0_r].
  destruct E as [-> ->]. unfold u64. rewrite Zplus_mod_idemp_r, Zplus_mod_idemp_l. done.
Qed.

(** The entries the loops are meant to compute, whatever their order. *)
Definition entry (i j : nat) : Z := sum_below K (fun k => a i k + b k j).

Ltac pick_entry :=
  intros i j Hi Hj; unfold one, entry;
  repeat first
    [ rewrite (sum_below_pick M _ i Hi); [|by intros; repeat apply sum_below_zero; intros; try (apply sum_below_zero; intros);
        rewrite decide_False by (intros [? ?]; congruence)]
    | rewrite (sum_below_pick N _ j Hj); [|by intros; repeat apply sum_below_zero; intros; try (apply sum_below_zero; intros);
        rewrite decide_False by (intros [? ?]; congruence)]
    | apply sum_below_ext; intros ];
  by rewrite decide_True.

Lemma ijk_adds : adds (for_ M (fun i => for_ N (fun j => for_ K (fun k => accumulate i j k)))) entry.
Proof.
  eapply adds_ext; [|apply for_adds; intros i Hi; apply for_adds; intros j Hj; apply for_adds; intros k Hk; by apply accumulate_adds].
  pick_entry.
Qed.

Lemma jki_adds : adds (for_ N (fun j => for_ K (fun k => for_ M (fun i => accumulate i j k)))) entry.
Proof.
  eapply adds_ext; [|apply for_adds; intros j Hj; apply for_adds; intros k Hk; apply for_adds; intros i Hi; by apply accumulate_adds].
  pick_entry.
Qed.

Lemma ikj_adds : adds (for_ M (fun i => for_ K (fun k => for_ N (fun j => accumulate i j k)))) entry.
Proof.
  eapply adds_ext; [|apply for_adds; intros i Hi; apply for_adds; intros k Hk; apply for_adds; intros j Hj; by apply accumulate_adds].
  pick_entry.
Qed.

Lemma kij_adds : adds (for_ K (fun k => for_ M (fun i => for_ N (fun j => accumulate i j k)))) entry.
Proof.
  eapply adds_ext; [|apply for_adds; intros k Hk; apply for_adds; intros i Hi; apply for_adds; intros j Hj; by apply accumulate_adds].
  pick_entry.
Qed.
End loops.

(** * Reset and initialisation *)

Lemma for_inv {S : Type} (P : nat -> S -> Prop) body n : forall x s,
  P x s -> (forall y s, (x <= y < x + n)%nat -> P y s -> exists s', body y s = Some s' /\ P (Datatypes.S y) s') ->
  exists s', for_from x n body s = Some s' /\ P (x + n)%nat s'.
Proof.
  induction n as [|n IH]; intros x s H0 Hb; cbn [for_from].
  - exists s. by rewrite Nat.add_0_r.
  - destruct (Hb x s ltac:(lia) H0) as (s1 & -> & H1). destruct (IH (Datatypes.S x) s1 H1) as (s' & Hs' & HP).
    + intros y s2 Hy. apply Hb. lia.
    + exists s'. split; [done|]. by replace (x + Datatypes.S n)%nat with (Datatypes.S x + n)%nat by lia.
Qed.

Section start.
Context (M K N : nat).

(** [C] is all zeros afterwards, whatever it held. *)
Lemma reset_ok (sA sB : list (list Z)) c :
  reset M N (mkMul sA sB (mat M N c)) = Some (mkMul sA sB (mat M N (fun _ _ => 0))).
Proof.
  set (P i s := exists c, s = mkMul sA sB (mat M N c) /\ forall i' j', (i' < i)%nat -> (j' < N)%nat -> c i' j' = 0).
  destruct (for_inv P (fun i => for_ N (fun j s => (match put (C s) i j 0 with Some m => Some (mkMul (A s) (B s) m) | None => None end)))
    M 0 (mkMul sA sB (mat M N c))) as (s' & Hs' & c' & -> & Hc').
  - exists c. split; [done|lia].
  - intros i s Hi (ci & -> & Hci).
    destruct (for_inv (fun j s => exists c, s = mkMul sA sB (mat M N c) /\ forall i' j', ((i' < i)%nat \/ i' = i /\ (j' < j)%nat) -> (j' < N)%nat -> c i' j' = 0)
      (fun j s => match put (C s) i j 0 with Some m => Some (mkMul (A s) (B s) m) | None => None end) N 0 (mkMul sA sB (mat M N ci)))
      as (s1 & Hs1 & c1 & -> & Hc1).
    + exists ci. split; [done|]. intros i' j' [?|[_ ?]] ?; [by apply Hci|lia].
    + intros j s1 Hj (cj & -> & Hcj). cbn [A B C]. rewrite put_mat by lia. eexists. split; [done|]. eexists. split; [done|].
      intros i' j' Hij Hj'. unfold update. case_decide as E; [done|]. apply Hcj; [|done].
      destruct Hij as [?|[-> ?]]; [by left|right]. split; [done|]. destruct (decide (j' = j)) as [->|]; [by destruct E|lia].
    + eexists. split; [exact Hs1|]. exists c1. split; [done|]. intros i' j' Hi' Hj'. apply Hc1; [|done].
      destruct (decide (i' = i)) as [->|]; [right; lia|left; lia].
  - transitivity (Some (mkMul sA sB (mat M N c'))); [exact Hs'|]. do 2 f_equal. apply mat_ext. intros i j Hi Hj. by apply Hc'.
Qed.

(** The rows of a matrix while it is filled from nothing. *)
Lemma fill_rows_ok r c : fill_rows r c [] = Some (mat r c (fun i j => Z.of_nat (i + j))).
Proof.
  set (full i := (fun j => Z.of_nat (i + j)) <$> seq 0 c).
  set (P i m := m = (full <$> seq 0 i) ++ replicate (r - i) ([] : list Z)).
  unfold fill_rows, for_. replace (resize_ r [] []) with (replicate r ([] : list Z)) by (unfold resize_; by rewrite take_nil, Nat.sub_0_r).
  match goal with |- for_from 0 r ?body _ = _ => destruct (for_inv P body r 0 (replicate r [])) as (m & Hm & HP) end.
  - unfold P. by rewrite Nat.sub_0_r.
  - intros i m Hi ->. set (pre := full <$> seq 0 i).
    assert (Hpre : length pre = i) by (unfold pre; by rewrite length_fmap, length_seq).
    replace (r - i)%nat with (S (r - S i)) by lia. cbn [replicate].
    rewrite list_lookup_middle by done.
    assert (Hins : forall row x, <[i := x]> (pre ++ row :: replicate (r - S i) []) = pre ++ x :: replicate (r - S i) []).
    { intros row x. rewrite <-Hpre at 1. rewrite <-(Nat.add_0_r (length pre)) at 1. by rewrite insert_app_r. }
    unfold resize_. rewrite Hins. cbn [take length app]. rewrite take_nil, Nat.sub_0_r. cbn [app].
    match goal with |- exists s', for_from 0 c ?body _ = _ /\ _ => destruct (for_inv (fun j m => m = pre ++
      (((fun j => Z.of_nat (i + j)) <$> seq 0 j) ++ replicate (c - j) 0) :: replicate (r - S i) []) body c 0
      (pre ++ replicate c 0 :: replicate (r - S i) [])) as (m & Hm & HP) end.
    + by rewrite Nat.sub_0_r.
    + intros j m Hj ->. unfold put. rewrite list_lookup_middle by done.
      set (row := fmap _ (seq 0 j)). assert (Hrow : length row = j) by (unfold row; by rewrite length_fmap, length_seq).
      replace (c - j)%nat with (S (c - S j)) by lia. cbn [replicate]. rewrite list_lookup_middle by done. rewrite Hins.
      eexists. split; [done|]. do 2 f_equal. rewrite seq_S, fmap_app, <-app_assoc. fold row.
      rewrite <-Hrow at 1. rewrite <-(Nat.add_0_r (length row)) at 1. by rewrite insert_app_r.
    + eexists. split; [exact Hm|]. unfold P. rewrite HP, seq_S, fmap_app, <-app_assoc. simpl. by rewrite Nat.sub_diag, app_nil_r.
  - rewrite Hm, HP. simpl. by rewrite Nat.sub_diag, app_nil_r.
Qed.
End start.

(** * Properties *)

(** The sizes the loops rely on. *)
Definition shaped (r c : nat) (m : list (list Z)) : Prop := length m = r /\ Forall (fun row => length row = c) m.

(** What [C] is to hold: sums, not products, of the entries of a row and a column. *)
Definition sums (M K N : nat) (s : MatrixMul) : list (list Z) :=
  mat M N (fun i j => u64 (sum_below K (fun k => default 0 (get (A s) i k) + default 0 (get (B s) k j)))).

(** The four orders of the loops compute the same matrix, whatever [C] held before and
    although the additions wrap: entry [i][j] is the sum over [k] of [A[i][k] + B[k][j]] modulo
    [2 ^ 64]. No access is out of range, and [A] and [B] do not change. (The class is
    named for a product, which it does not compute.) *)
Theorem loop_orders_agree M K N s :
  shaped M K (A s) -> shaped K N (B s) -> shaped M N (C s) ->
  let result := Some (mkMul (A s) (B s) (sums M K N s)) in
  test1_ijk M K N s = result /\ test2_jki M K N s = result /\ test3_ikj M K N s = result /\ test4_kij M K N s = result.
Proof.
  destruct s as [sA sB sC]. cbn [A B C]. intros [HA1 HA2] [HB1 HB2] [HC1 HC2]. cbv zeta.
  set (a i k := default 0 (get sA i k)). set (b k j := default 0 (get sB k j)).
  assert (Hreset : reset M N (mkMul sA sB sC) = Some (holding M K N a b (fun _ _ => 0))).
  { rewrite (mat_entries M N sC HC1 HC2), reset_ok. unfold holding. do 2 f_equal; by apply mat_entries. }
  assert (Hres : holding M K N a b (fun i j => 0 + entry K a b i j) = mkMul sA sB (sums M K N (mkMul sA sB sC))).
  { unfold holding, sums. cbn [A B C].
    assert (mat M K a = sA) as -> by (symmetry; by apply mat_entries).
    assert (mat K N b = sB) as -> by (symmetry; by apply mat_entries). done. }
  rewrite <-Hres. unfold test1_ijk, test2_jki, test3_ikj, test4_kij. rewrite Hreset. split_and!.
  - apply ijk_adds.
  - apply jki_adds.
  - apply ikj_adds.
  - apply kij_adds.
Qed.

(** Sums beyond 64 bits, in matrices that are not square. *)
Definition sample : MatrixMul := mkMul [[1; 2; 2 ^ 64 - 1]; [4; 5; 6]] [[10]; [20]; [30]] [[7]; [8]].

Lemma loop_orders_agree_witness :
  let result := Some (mkMul (A sample) (B sample) [[62]; [75]]) in
  test1_ijk 2 3 1 sample = result /\ test2_jki 2 3 1 sample = result /\ test3_ikj 2 3 1 sample = result /\
  test4_kij 2 3 1 sample = result.
Proof. apply (loop_orders_agree 2 3 1 sample); split; [reflexivity|repeat constructor|reflexivity|repeat constructor|reflexivity|repeat constructor]. Defined.

(** [init] gives a new object the sizes the loops rely on. *)
Lemma init_shaped M K N : exists s, init M K N (mkMul [] [] []) = Some s /\
  shaped M K (A s) /\ shaped K N (B s) /\ shaped M N (C s) /\
  forall i j, (i < M)%nat -> (j < K)%nat -> get (A s) i j = Some (Z.of_nat (i + j)).
Proof.
  unfold init. cbn [A B C]. rewrite !fill_rows_ok.
  replace (resize_ M [] []) with (replicate M ([] : list Z)) by (unfold resize_; by rewrite take_nil, Nat.sub_0_r).
  match goal with |- context [for_ M ?body _] => destruct (for_inv (fun i m => m = replicate i (replicate N 0) ++ replicate (M - i) ([] : list Z))
    body M 0 (replicate M [])) as (m & Hm & HP) end.
  - by rewrite Nat.sub_0_r.
  - intros i m Hi ->. replace (M - i)%nat with (S (M - S i)) by lia. cbn [replicate].
    rewrite list_lookup_middle by (by rewrite length_replicate). eexists. split; [done|].
    unfold resize_. rewrite take_nil. cbn [length app]. rewrite Nat.sub_0_r, <-(Nat.add_0_r i) at 1.
    rewrite <-(length_replicate i (replicate N 0)) at 1. rewrite insert_app_r. simpl.
    by rewrite (cons_middle _ (replicate i _)), app_assoc, <-replicate_S_end.
  - unfold for_. rewrite Hm. eexists. split; [done|]. cbn [A B C].
    assert (Hmat : forall r c f, shaped r c (mat r c f)).
    { intros r c f. unfold mat. split; [by rewrite length_fmap, length_seq|]. apply Forall_fmap, Forall_forall.
      intros i _. simpl. by rewrite length_fmap, length_seq. }
    split_and!; [apply Hmat|apply Hmat| |intros i j Hi Hj; by apply get_mat].
    rewrite HP. simpl. rewrite Nat.sub_diag, app_nil_r. split; [by rewrite length_replicate|].
    apply Forall_replicate. by rewrite length_replicate.
Qed.

(** The average is between the extremes while the sum does not wrap. *)
Lemma measure_bounds costs : (forall x, x ∈ costs -> 0 <= x) -> total (fun x => x) costs < 2 ^ 64 -> costs <> [] ->
  exists mx mn, measure costs = (total (fun x => x) costs, mx, mn) /\ mn <= total (fun x => x) costs / Z.of_nat (length costs) <= mx.
Proof.
  intros Hpos Hsum Hne.
  assert (Hgen : forall l s mx mn, (forall x, x ∈ l -> 0 <= x) -> 0 <= s -> s + total (fun x => x) l < 2 ^ 64 ->
    exists mx' mn', foldl (fun '(sum, mx, mn) cost => (u64 (sum + cost), Z.max cost mx, Z.min cost mn)) (s, mx, mn) l =
      (s + total (fun x => x) l, mx', mn') /\ mx <= mx' /\ mn' <= mn /\ forall x, x ∈ l -> mn' <= x <= mx').
  { induction l as [|x l IH]; intros s mx mn Hp Hs Hl; cbn [foldl].
    - exists mx, mn. rewrite Z.add_0_r. split_and!; [done|lia|lia|]. by intros x Hx%elem_of_nil.
    - rewrite total_cons in Hl. pose proof (Hp x ltac:(by left)).
      assert (0 <= total (fun x => x) l) by (apply total_nonneg; intros; apply Hp; by right).
      rewrite u64_small by lia. destruct (IH (s + x) (Z.max x mx) (Z.min x mn)) as (mx' & mn' & -> & H1 & H2 & H3);
        [intros; apply Hp; by right|lia|lia|].
      exists mx', mn'. split_and!; [by rewrite total_cons, Z.add_assoc|lia|lia|].
      intros y [->|Hy]%elem_of_cons; [lia|by apply H3]. }
  destruct (Hgen costs 0 0 (2 ^ 64 - 1) Hpos ltac:(lia) Hsum) as (mx & mn & Hm & _ & _ & Hb).
  exists mx, mn. split; [exact Hm|]. assert (Hlen : 0 < Z.of_nat (length costs)) by (destruct costs; [done|simpl; lia]).
  pose proof (total_le (fun _ => mn) (fun x => x) costs ltac:(intros x Hx; apply Hb, Hx)) as Hlo.
  pose proof (total_le (fun x => x) (fun _ => mx) costs ltac:(intros x Hx; apply Hb, Hx)) as Hhi.
  rewrite total_const in Hlo, Hhi. split; [apply Z.div_le_lower_bound; lia|apply Z.div_le_upper_bound; lia].
Qed.
