(* ===== verification/AsyncPool.v ===== *)
(** The thread pool of small_test/async.cc: a queue under a mutex, workers that sleep on a
    condition variable, [submit] and [shutdown].

    Every access of a worker or a caller to the pool is a step, [empty], [enqueue] and [dequeue]
    of the queue being one each, since they hold its mutex. Tasks are names; [submit] is modelled as
    its statements on the pool, although it cannot be instantiated as written: its
    [std::function] is made from a lambda that holds a [unique_ptr]. *)
From S2P Require Import Prelude.
Open Scope wizard_scope.

(** * The queue *)

Module SafeQueue.
Section queue.
Context {T : Type}.

Definition empty (q : list T) : bool := match q with [] => true | _ => false end.
Definition size (q : list T) : Z := i32 (Z.of_nat (length q)).
Definition enqueue (t : T) (q : list T) : list T := q ++ [t].
Definition dequeue (q : list T) : option T * list T := match q with [] => (None, []) | t :: q => (Some t, q) end.
End queue.
End SafeQueue.

(** * The pool *)

(** Where a worker is: before the test of [m_shutdown], before it has the mutex, before [empty],
    before [wait], asleep, woken and without the mutex, before [dequeue], before the end of the
    scope of [lock], around the task, after the loop. *)
Inductive Worker :=
  | WTest | WLock | WEmpty | WWait | WSleep | WWake | WDequeue | WUnlock (o : option nat)
  | WSub (t : nat) | WRun (t : nat) | WAdd | WExit.

#[export] Instance worker_eq_dec : EqDecision Worker.
Proof. solve_decision. Defined.

(** A thread that calls [submit] or [shutdown]. *)
Inductive Caller := CSubmit (t : nat) | CNotify | CShutdown | CNotifyAll | CJoin (i : nat) | CDone.

(** [submitted], [taken] and [run_tasks] are histories: the tasks given to [enqueue], those
    [dequeue] returned and those that were called. *)
Record ThreadPool := mkPool {
  m_queue : list nat;
  m_shutdown : bool;
  m_mutex : option nat;
  idle_thread_num : Z;
  m_threads : list Worker;
  callers : list Caller;
  submitted : list nat;
  taken : list nat;
  run_tasks : list nat
}.

Definition ctor (WorkerNum : nat) (cs : list Caller) : ThreadPool :=
  mkPool [] false None (Z.of_nat WorkerNum) (replicate WorkerNum WTest) cs [] [] [].

Definition get_idle_thread_num (p : ThreadPool) : Z := idle_thread_num p.

(** Worker [i] goes to [w]; the mutex becomes [mu], the counter changes by [d]. *)
Definition go (i : nat) (w : Worker) (mu : option nat) (d : Z) (p : ThreadPool) : ThreadPool :=
  mkPool (m_queue p) (m_shutdown p) mu (idle_thread_num p + d) (<[i := w]> (m_threads p)) (callers p)
    (submitted p) (taken p) (run_tasks p).

Definition take_next (i : nat) (p : ThreadPool) : ThreadPool :=
  let (o, q) := SafeQueue.dequeue (m_queue p) in
  mkPool q (m_shutdown p) (m_mutex p) (idle_thread_num p) (<[i := WUnlock o]> (m_threads p)) (callers p)
    (submitted p) (taken p ++ option_list o) (run_tasks p).

Definition call_task (i t : nat) (p : ThreadPool) : ThreadPool :=
  mkPool (m_queue p) (m_shutdown p) (m_mutex p) (idle_thread_num p) (<[i := WAdd]> (m_threads p)) (callers p)
    (submitted p) (taken p) (run_tasks p ++ [t]).

(** [ThreadWorker::operator()], one access; a worker that must wait stays. *)
Definition worker_step (i : nat) (w : Worker) (p : ThreadPool) : ThreadPool :=
  let mu := m_mutex p in
  match w with
  | WTest => go i (if m_shutdown p then WExit else WLock) mu 0 p
  | WLock => match mu with None => go i WEmpty (Some i) 0 p | Some _ => p end
  | WEmpty => go i (if SafeQueue.empty (m_queue p) then WWait else WDequeue) mu 0 p
  | WWait => go i WSleep None 0 p
  | WSleep | WExit => p
  | WWake => match mu with None => go i WDequeue (Some i) 0 p | Some _ => p end
  | WDequeue => take_next i p
  | WUnlock o => go i (match o with Some t => WSub t | None => WTest end) None 0 p
  | WSub t => go i (WRun t) mu (-1) p
  | WRun t => call_task i t p
  | WAdd => go i WTest mu 1 p
  end.

Definition wake (w : Worker) : Worker := match w with WSleep => WWake | _ => w end.

(** [notify_one] wakes worker [target] if it sleeps. *)
Definition wake_one (target : nat) (ws : list Worker) : list Worker := alter wake target ws.

Definition sleeping (w : Worker) : bool := match w with WSleep => true | _ => false end.

(** What [submit] and [shutdown] do next; [target] is whom [notify_one] chooses: a worker
    that sleeps, if one does. *)
Definition caller_step (c target : nat) (x : Caller) (p : ThreadPool) : ThreadPool :=
  let set x q sd ws sub := mkPool q sd (m_mutex p) (idle_thread_num p) ws (<[c := x]> (callers p)) sub (taken p) (run_tasks p) in
  match x with
  | CSubmit t => set CNotify (SafeQueue.enqueue t (m_queue p)) (m_shutdown p) (m_threads p) (submitted p ++ [t])
  | CNotify =>
      let target := match m_threads p !! target with
                    | Some WSleep => target
                    | _ => match list_find (fun w => sleeping w = true) (m_threads p) with Some (i, _) => i | None => target end
                    end in
      set CDone (m_queue p) (m_shutdown p) (wake_one target (m_threads p)) (submitted p)
  | CShutdown => set (if m_shutdown p then CDone else CNotifyAll) (m_queue p) true (m_threads p) (submitted p)
  | CNotifyAll => set (CJoin 0) (m_queue p) (m_shutdown p) (wake <$> m_threads p) (submitted p)
  | CJoin i =>
      match m_threads p !! i with
      | Some WExit => set (CJoin (S i)) (m_queue p) (m_shutdown p) (m_threads p) (submitted p)
      | Some _ => p
      | None => set CDone (m_queue p) (m_shutdown p) (m_threads p) (submitted p)
      end
  | CDone => p
  end.

(** A worker's step, a caller's step, or a spurious wake-up. *)
Inductive Act := AWorker (i : nat) | ACaller (c target : nat) | ASpurious (i : nat).

Definition step (a : Act) (p : ThreadPool) : ThreadPool :=
  match a with
  | AWorker i => match m_threads p !! i with Some w => worker_step i w p | None => p end
  | ACaller c target => match callers p !! c with Some x => caller_step c target x p | None => p end
  | ASpurious i =>
      mkPool (m_queue p) (m_shutdown p) (m_mutex p) (idle_thread_num p) (wake_one i (m_threads p)) (callers p)
        (submitted p) (taken p) (run_tasks p)
  end.

Definition run (l : list Act) (p : ThreadPool) : ThreadPool := foldl (fun p a => step a p) p l.
Close Scope wizard_scope.

(** * The invariant *)

Definition held (w : Worker) : option nat :=
  match w with WUnlock (Some t) | WSub t | WRun t => Some t | _ => None end.

Definition busy (w : Worker) : Z := match w with WRun _ | WAdd => 1 | _ => 0 end.

Definition has_mutex (w : Worker) : Prop :=
  match w with WEmpty | WWait | WDequeue | WUnlock _ => True | _ => False end.

Definition shutting_down (x : Caller) : Prop := match x with CNotifyAll | CJoin _ => True | _ => False end.

(** What a thread that has not called yet is going to do. *)
Definition fresh (x : Caller) : Prop := match x with CSubmit _ | CShutdown => True | _ => False end.

Record Inv (p : ThreadPool) : Prop := {
  v_fifo : taken p ++ m_queue p = submitted p;
  v_tasks : run_tasks p ++ omap held (m_threads p) ≡ₚ taken p;
  v_idle : idle_thread_num p + total busy (m_threads p) = Z.of_nat (length (m_threads p));
  v_mutex : forall i w, m_threads p !! i = Some w -> has_mutex w <-> m_mutex p = Some i;
  v_owner : forall i, m_mutex p = Some i -> (i < length (m_threads p))%nat;
  v_flag : forall c x, callers p !! c = Some x -> shutting_down x -> m_shutdown p = true
}.

Lemma async_ctor_inv n cs : Forall fresh cs -> Inv (ctor n cs).
Proof.
  intros Hcs. constructor; simpl.
  - done.
  - by induction n.
  - replace (total busy (replicate n WTest)) with 0 by (induction n; simpl; lia). rewrite length_replicate. lia.
  - by intros i w [-> _]%lookup_replicate.
  - done.
  - intros c x Hx Hs. pose proof (Forall_lookup_1 _ _ _ _ Hcs Hx). by destruct x.
Qed.

(** A worker that moves without touching the tasks. *)
Lemma go_inv p i w w' mu d :
  Inv p -> m_threads p !! i = Some w -> held w' = held w -> busy w' = busy w - d ->
  (has_mutex w' <-> mu = Some i) -> (forall j, j <> i -> mu = Some j <-> m_mutex p = Some j) ->
  Inv (go i w' mu d p).
Proof.
  intros [I1 I2 I3 I4 I5 I6] Hi Hh Hb Hm Hmu. pose proof (lookup_lt_Some _ _ _ Hi). constructor; simpl.
  - done.
  - destruct (omap_insert_perm held (m_threads p) i w Hi) as (R & H1 & H2). specialize (H2 w'). cbn in H1, H2. rewrite Hh in H2.
    by rewrite H2, <-H1.
  - rewrite (total_insert _ _ _ w), length_insert by done. lia.
  - intros j x Hj. destruct (decide (j = i)) as [->|Hne].
    + rewrite list_lookup_insert_eq in Hj by (by eapply lookup_lt_Some). by injection Hj as <-.
    + rewrite list_lookup_insert_ne in Hj by done. rewrite Hmu by done. by apply I4.
  - intros j Hj. rewrite length_insert. destruct (decide (j = i)) as [->|Hne]; [done|]. by apply I5, Hmu.
  - done.
Qed.

Lemma worker_step_inv p i w : Inv p -> m_threads p !! i = Some w -> Inv (worker_step i w p).
Proof.
  intros HI Hi. pose proof (v_mutex _ HI i w Hi) as Hm. pose proof (lookup_lt_Some _ _ _ Hi) as Hlt.
  assert (Hfree : m_mutex p = Some i -> forall j, j <> i -> None = Some j <-> m_mutex p = Some j).
  { intros -> j Hne. split; [done|congruence]. }
  assert (Htake : m_mutex p = None -> forall j, j <> i -> Some i = Some j <-> m_mutex p = Some j).
  { intros -> j Hne. split; [congruence|done]. }
  destruct w; cbn [worker_step]; cbn in Hm; try done.
  - destruct (m_shutdown p); by eapply go_inv.
  - destruct (m_mutex p) eqn:Emu; [done|]. eapply go_inv; try done. rewrite Emu. by apply Htake.
  - destruct (SafeQueue.empty (m_queue p)); by eapply go_inv.
  - eapply go_inv; try done. by apply Hfree, Hm.
  - destruct (m_mutex p) eqn:Emu; [done|]. eapply go_inv; try done. rewrite Emu. by apply Htake.
  - destruct HI as [I1 I2 I3 I4 I5 I6]. unfold take_next. destruct (SafeQueue.dequeue (m_queue p)) as [o q] eqn:Eq.
    assert (Hq : m_queue p = option_list o ++ q) by (destruct (m_queue p); by simplify_eq/=).
    destruct (omap_insert_perm held (m_threads p) i _ Hi) as (R & H1 & H2). specialize (H2 (WUnlock o)). cbn in H1, H2.
    constructor; simpl.
    + by rewrite <-app_assoc, <-Hq.
    + rewrite H1 in I2. rewrite H2, <-I2, <-app_assoc. f_equiv. destruct o; simpl; [|by rewrite app_nil_r].
      apply Permutation_cons_append.
    + rewrite (total_insert _ _ _ WDequeue), length_insert by done. simpl. lia.
    + intros j x Hj. destruct (decide (j = i)) as [->|Hne].
      * rewrite list_lookup_insert_eq in Hj by done. injection Hj as <-. exact Hm.
      * rewrite list_lookup_insert_ne in Hj by done. by apply I4.
    + rewrite length_insert. exact I5.
    + done.
  - destruct o; eapply go_inv; try done; try (by apply Hfree, Hm).
  - eapply go_inv; try done.
  - destruct HI as [I1 I2 I3 I4 I5 I6]. unfold call_task.
    destruct (omap_insert_perm held (m_threads p) i _ Hi) as (R & H1 & H2). specialize (H2 WAdd). cbn in H1, H2.
    constructor; simpl.
    + done.
    + rewrite H1 in I2. rewrite H2, <-I2, <-app_assoc. done.
    + rewrite (total_insert _ _ _ (WRun t)), length_insert by done. simpl. lia.
    + intros j x Hj. destruct (decide (j = i)) as [->|Hne].
      * rewrite list_lookup_insert_eq in Hj by done. injection Hj as <-. exact Hm.
      * rewrite list_lookup_insert_ne in Hj by done. by apply I4.
    + rewrite length_insert. exact I5.
    + done.
  - eapply go_inv; try done.
Qed.

(** Waking workers changes nothing the invariant counts. *)
Definition woken (ws' ws : list Worker) : Prop := Forall2 (fun w' w => w' = w \/ w' = wake w) ws' ws.

Lemma woken_all ws : woken (wake <$> ws) ws.
Proof. induction ws; constructor; [by right|done]. Qed.

Lemma woken_one i ws : woken (wake_one i ws) ws.
Proof.
  unfold wake_one. revert i. induction ws as [|w ws IH]; intros [|i]; simpl; constructor; try (by left); try (by right).
  - clear. induction ws; constructor; [by left|done].
  - apply IH.
Qed.

Lemma woken_refl ws : woken ws ws.
Proof. induction ws; constructor; [by left|done]. Qed.

Lemma woken_inv p q sd ws cs sub :
  Inv p -> woken ws (m_threads p) -> taken p ++ q = sub ->
  (forall c x, cs !! c = Some x -> shutting_down x -> sd = true) ->
  Inv (mkPool q sd (m_mutex p) (idle_thread_num p) ws cs sub (taken p) (run_tasks p)).
Proof.
  intros [I1 I2 I3 I4 I5 I6] Hw Hs Hcs.
  assert (Hsame : omap held ws = omap held (m_threads p) /\ total busy ws = total busy (m_threads p) /\ length ws = length (m_threads p)).
  { assert (Hz : forall z l, omap held (z :: l) = option_list (held z) ++ omap held l) by (intros z l; cbn; by destruct (held z)).
    clear -Hw Hz. induction Hw as [|w' w ws' ws Hww Hw (E1 & E2 & E3)]; [done|]. rewrite !Hz, E1. simpl. rewrite E2, E3.
    destruct Hww as [-> | ->]; [done|]. by destruct w. }
  destruct Hsame as (E1 & E2 & E3). constructor; simpl; [done|by rewrite E1|by rewrite E2, E3| |by rewrite E3|done].
  intros i w' Hi. destruct (Forall2_lookup_l _ _ _ _ _ Hw Hi) as (w & Hw' & Hor). rewrite <-(I4 i w Hw').
  destruct Hor as [-> | ->]; [done|by destruct w].
Qed.

Lemma caller_step_inv p c target x : Inv p -> callers p !! c = Some x -> Inv (caller_step c target x p).
Proof.
  intros HI Hc. pose proof (v_fifo _ HI) as Hf. pose proof (v_flag _ HI) as Hfl. pose proof (lookup_lt_Some _ _ _ Hc) as Hlt.
  assert (Hset : forall y, (shutting_down y -> m_shutdown p = true) ->
    forall c' z, <[c := y]> (callers p) !! c' = Some z -> shutting_down z -> m_shutdown p = true).
  { intros y Hy c' z Hz Hd. destruct (decide (c' = c)) as [->|Hne].
    - rewrite list_lookup_insert_eq in Hz by done. injection Hz as <-. by apply Hy.
    - rewrite list_lookup_insert_ne in Hz by done. by eapply Hfl. }
  destruct x; cbn [caller_step].
  - apply woken_inv; [done|apply woken_refl| |by apply Hset]. unfold SafeQueue.enqueue. by rewrite app_assoc, Hf.
  - apply woken_inv; [done|apply woken_one|done|by apply Hset].
  - by apply woken_inv; [|apply woken_refl| |].
  - apply woken_inv; [done|apply woken_all|done|]. apply Hset. intros _. by apply (Hfl c CNotifyAll).
  - assert (Hj : forall y, forall c' z, <[c := y]> (callers p) !! c' = Some z -> shutting_down z -> m_shutdown p = true).
    { intros y. apply Hset. intros _. by apply (Hfl c (CJoin i)). }
    destruct (m_threads p !! i) as [[]|]; try done; (apply woken_inv; [done|apply woken_refl|done|apply Hj]).
  - done.
Qed.

Lemma async_step_inv a p : Inv p -> Inv (step a p).
Proof.
  intros HI. destruct a as [i|c target|i]; cbn [step].
  - destruct (m_threads p !! i) eqn:Hi; [by apply worker_step_inv|done].
  - destruct (callers p !! c) eqn:Hc; [by apply caller_step_inv|done].
  - apply woken_inv; [done|apply woken_one|by apply v_fifo|apply (v_flag _ HI)].
Qed.

Lemma async_run_inv l : forall p, Inv p -> Inv (run l p).
Proof. induction l as [|a l IH]; intros p HI; [done|]. by apply IH, async_step_inv. Qed.

(** * Shutting down *)

(** Workers that will not test the queue and go to sleep any more. *)
Definition awake (w : Worker) : Prop := match w with WLock | WEmpty | WWait | WSleep => False | _ => True end.

Definition settled (p : ThreadPool) : Prop := m_shutdown p = true /\ forall w, w ∈ m_threads p -> awake w.

(** How far a worker is from its exit. *)
Definition distance (w : Worker) : Z :=
  match w with
  | WExit => 0 | WTest => 1 | WAdd => 2 | WRun _ => 3 | WSub _ => 4 | WUnlock _ => 5 | WDequeue => 6 | _ => 7
  end.

Definition left_to_do (p : ThreadPool) : Z := total distance (m_threads p).

(** A step of worker [i] replaces its position, and nothing else of the threads and callers. *)
Lemma worker_step_threads i w p : m_threads p !! i = Some w -> settled p ->
  exists w', m_threads (worker_step i w p) = <[i := w']> (m_threads p) /\ awake w' /\ distance w' <= distance w /\
    (w <> WExit -> (w = WWake -> m_mutex p = None) -> distance w' < distance w) /\
    callers (worker_step i w p) = callers p /\ m_shutdown (worker_step i w p) = true.
Proof.
  intros Hi [Hsd Haw]. pose proof (Haw w ltac:(by eapply list_elem_of_lookup_2)) as Hw.
  assert (Hsame : m_threads p = <[i := w]> (m_threads p)) by (by rewrite list_insert_id).
  destruct w; try done; cbn [worker_step]; rewrite ?Hsd.
  - by exists WExit.
  - destruct (m_mutex p); [exists WWake|by exists WDequeue]. split_and!; try done. intros _ H. by specialize (H eq_refl).
  - unfold take_next. destruct (SafeQueue.dequeue (m_queue p)) as [o q]. by exists (WUnlock o).
  - destruct o as [t|]; [by exists (WSub t)|by exists WTest].
  - by exists (WRun t).
  - by exists WAdd.
  - by exists WTest.
  - by exists WExit.
Qed.

Lemma awake_step i p : settled p ->
  settled (step (AWorker i) p) /\ length (m_threads (step (AWorker i) p)) = length (m_threads p) /\
  callers (step (AWorker i) p) = callers p /\ left_to_do (step (AWorker i) p) <= left_to_do p /\
  (forall j, j <> i -> m_threads (step (AWorker i) p) !! j = m_threads p !! j) /\
  (forall w, m_threads p !! i = Some w -> w <> WExit -> (w = WWake -> m_mutex p = None) ->
    left_to_do (step (AWorker i) p) < left_to_do p).
Proof.
  intros Hs. cbn [step]. destruct (m_threads p !! i) as [w|] eqn:Hi.
  2: { split_and!; try done. }
  destruct (worker_step_threads i w p Hi Hs) as (w' & Ht & Ha & Hle & Hlt & Hc & Hsd). unfold left_to_do. rewrite Ht.
  rewrite length_insert, (total_insert _ _ _ w) by done. split_and!; try done.
  - split; [done|]. rewrite Ht. apply Forall_forall, Forall_insert; [|done]. apply Forall_forall, Hs.
  - lia.
  - intros j Hne. by rewrite list_lookup_insert_ne.
  - intros w0 [= <-] Hne Hm. specialize (Hlt Hne Hm). lia.
Qed.

Lemma async_run_app l1 l2 p : run (l1 ++ l2) p = run l2 (run l1 p).
Proof. apply foldl_app. Qed.

(** Steps of the workers of [l]. *)
Lemma workers_run l : forall p, settled p ->
  let p' := run (AWorker <$> l) p in
  settled p' /\ length (m_threads p') = length (m_threads p) /\ callers p' = callers p /\ left_to_do p' <= left_to_do p /\
  forall j, j ∉ l -> m_threads p' !! j = m_threads p !! j.
Proof.
  induction l as [|i l IH]; intros p Hs; [done|]. cbn [fmap list_fmap run foldl].
  destruct (awake_step i p Hs) as (Hs1 & Hl1 & Hc1 & Hd1 & Hj1 & _).
  destruct (IH _ Hs1) as (Hs2 & Hl2 & Hc2 & Hd2 & Hj2). unfold run in *. split_and!; [done|congruence|congruence|lia|].
  intros j Hj. rewrite Hj2 by set_solver. apply Hj1. set_solver.
Qed.

(** Exited workers do nothing. *)
Lemma exited_run l p : (forall j, j ∈ l -> m_threads p !! j = Some WExit) -> run (AWorker <$> l) p = p.
Proof.
  induction l as [|i l IH]; intros Hl; [done|]. cbn [fmap list_fmap run foldl step]. rewrite (Hl i) by left.
  cbn [worker_step]. apply IH. intros j Hj. apply Hl. by right.
Qed.

Definition round (n : nat) : list Act := AWorker <$> seq 0 n.

(** Some worker can go on: one that does not wait for the mutex, or else the first one that does. *)
Lemma next_worker p : Inv p -> settled p -> 0 < left_to_do p ->
  exists i w, m_threads p !! i = Some w /\ w <> WExit /\
    (w <> WWake \/ m_mutex p = None /\ forall j, (j < i)%nat -> m_threads p !! j = Some WExit).
Proof.
  intros HI Hs Hpos. destruct (decide (Exists (fun w => w <> WExit /\ w <> WWake) (m_threads p))) as [He|He].
  - apply Exists_exists in He as (w & Hw & Hne & Hnw). apply list_elem_of_lookup in Hw as [i Hi]. exists i, w. tauto.
  - assert (Hall : forall w, w ∈ m_threads p -> w = WExit \/ w = WWake).
    { intros w Hw. destruct w; try tauto; exfalso; apply He, Exists_exists; by eexists. }
    assert (Hmu : m_mutex p = None).
    { destruct (m_mutex p) as [i|] eqn:Emu; [|done]. pose proof (v_owner _ HI i Emu) as Hlt.
      apply lookup_lt_is_Some in Hlt as [w Hw]. pose proof (v_mutex _ HI i w Hw) as [_ Hm].
      specialize (Hm Emu). by destruct (Hall w ltac:(by eapply list_elem_of_lookup_2)) as [-> | ->]. }
    destruct (list_find (fun w => w <> WExit) (m_threads p)) as [[i w]|] eqn:Ef.
    + apply list_find_Some in Ef as (Hi & Hne & Hbefore). exists i, w. split_and!; [done|done|right].
      split; [done|]. intros j Hj. destruct (m_threads p !! j) as [x|] eqn:Ej.
      * destruct (decide (x = WExit)) as [->|Hx]; [done|]. by destruct (Hbefore j x Ej Hj).
      * apply lookup_ge_None in Ej. apply lookup_lt_Some in Hi. lia.
    + apply list_find_None in Ef. exfalso. enough (left_to_do p = 0) by lia. unfold left_to_do. clear -Ef.
      induction Ef as [|w ws Hw Hws IH]; [done|]. simpl. rewrite IH. destruct w; try done; by destruct Hw.
Qed.

Lemma round_decreases p : Inv p -> settled p -> 0 < left_to_do p ->
  left_to_do (run (round (length (m_threads p))) p) < left_to_do p.
Proof.
  intros HI Hs Hpos. destruct (next_worker p HI Hs Hpos) as (i & w & Hi & Hne & Hor).
  pose proof (lookup_lt_Some _ _ _ Hi) as Hlt. unfold round.
  replace (length (m_threads p)) with (i + S (length (m_threads p) - S i))%nat by lia. rewrite seq_app. cbn [seq]. rewrite Nat.add_0_l.
  rewrite fmap_app, async_run_app. set (p1 := run (AWorker <$> seq 0 i) p).
  destruct (workers_run (seq 0 i) p Hs) as (Hs1 & _ & _ & Hd1 & Hj1). fold p1 in Hs1, Hd1, Hj1.
  assert (Hi1 : m_threads p1 !! i = Some w) by (rewrite Hj1; [done|rewrite elem_of_seq; lia]).
  destruct (awake_step i p1 Hs1) as (Hs2 & _ & _ & _ & _ & Hlt2).
  assert (Hdec : left_to_do (step (AWorker i) p1) < left_to_do p1).
  { apply (Hlt2 w Hi1 Hne). intros Hw. destruct Hor as [?|[Hmu Hbefore]]; [done|].
    unfold p1. rewrite exited_run; [done|]. intros j Hj%elem_of_seq. apply Hbefore. lia. }
  cbn [fmap list_fmap run foldl]. change (foldl (fun p a => step a p)) with (fun p l => run l p). cbv beta.
  destruct (workers_run (seq (S i) (length (m_threads p) - S i)) _ Hs2) as (_ & _ & _ & Hd3 & _). unfold run in *. lia.
Qed.

Lemma rounds_finish k : forall p, Inv p -> settled p -> left_to_do p <= Z.of_nat k ->
  let p' := run (concat (replicate k (round (length (m_threads p))))) p in
  Inv p' /\ settled p' /\ left_to_do p' <= 0 /\ callers p' = callers p /\ length (m_threads p') = length (m_threads p).
Proof.
  induction k as [|k IH]; intros p HI Hs Hk; cbn [replicate concat].
  - done.
  - rewrite async_run_app. set (p1 := run (round (length (m_threads p))) p).
    destruct (workers_run (seq 0 (length (m_threads p))) p Hs) as (Hs1 & Hl1 & Hc1 & Hd1 & _). fold (round (length (m_threads p))) in Hs1, Hl1, Hc1, Hd1.
    fold p1 in Hs1, Hl1, Hc1, Hd1. assert (HI1 : Inv p1) by (by apply async_run_inv).
    assert (Hk1 : left_to_do p1 <= Z.of_nat k).
    { destruct (decide (0 < left_to_do p)) as [Hp|Hp]; [|lia]. pose proof (round_decreases p HI Hs Hp). fold p1 in H. lia. }
    destruct (IH p1 HI1 Hs1 Hk1) as (? & ? & ? & Hc & Hl). rewrite Hl1 in *. split_and!; try done; congruence.
Qed.

(** With every worker gone the joins succeed one after the other. *)
Lemma joins_finish c k : forall p i, callers p !! c = Some (CJoin i) -> (forall w, w ∈ m_threads p -> w = WExit) ->
  (i + k = length (m_threads p))%nat ->
  callers (run (replicate (S k) (ACaller c 0)) p) !! c = Some CDone /\
  m_threads (run (replicate (S k) (ACaller c 0)) p) = m_threads p.
Proof.
  induction k as [|k IH]; intros p i Hc Hall Hk; pose proof (lookup_lt_Some _ _ _ Hc) as Hlt;
    match goal with |- callers (run (replicate (S ?m) ?a) p) !! c = _ /\ _ =>
      change (run (replicate (S m) a) p) with (run (replicate m a) (step a p)) end; cbn [step]; rewrite Hc; cbn [caller_step].
  - rewrite (lookup_ge_None_2 (m_threads p)) by lia. simpl. by rewrite list_lookup_insert_eq.
  - destruct (lookup_lt_is_Some_2 (m_threads p) i) as [w Hw]; [lia|]. rewrite Hw.
    rewrite (Hall w) by (by eapply list_elem_of_lookup_2).
    match goal with |- callers (run _ ?q) !! c = _ /\ _ => destruct (IH q (S i)) as [Hdone Hth] end;
      simpl; [by apply list_lookup_insert_eq|done|lia|]. split; [exact Hdone|exact Hth].
Qed.

(** * Properties *)

(** C24: no task is lost or run twice. Whatever the interleaving of workers, submitters, callers of
    [shutdown] and spurious wake-ups, the queue is first in, first out; every task taken from it has
    been run once or is with the one worker that will run it; the counter of idle threads is
    the number of workers that are not running a task; and a worker has the mutex only alone. *)
Theorem tasks_run_once WorkerNum cs l :
  Forall fresh cs ->
  let p := run l (ctor WorkerNum cs) in
  taken p ++ m_queue p = submitted p /\ run_tasks p ++ omap held (m_threads p) ≡ₚ taken p /\
  get_idle_thread_num p = Z.of_nat (length (m_threads p)) - total busy (m_threads p) /\
  forall i w, m_threads p !! i = Some w -> has_mutex w -> m_mutex p = Some i.
Proof.
  intros Hcs p. destruct (async_run_inv l _ (async_ctor_inv WorkerNum cs Hcs)) as [I1 I2 I3 I4 _ _]. fold p in I1, I2, I3, I4.
  split_and!; [done|done|unfold get_idle_thread_num; lia|]. intros i w Hi. by apply I4.
Qed.

(** [shutdown] returns if, when it notifies, no worker is on its way to sleep: seven rounds of
    the workers for each of them bring all of them out of their loops, with tasks finished that had
    been taken, and the joins go through. *)
Theorem shutdown_returns WorkerNum cs l c :
  Forall fresh cs ->
  let p := run l (ctor WorkerNum cs) in
  callers p !! c = Some CNotifyAll -> (forall w, w ∈ m_threads p -> w <> WLock /\ w <> WEmpty /\ w <> WWait) ->
  let n := length (m_threads p) in
  let p' := run (ACaller c 0 :: concat (replicate (7 * n) (round n)) ++ replicate (S n) (ACaller c 0)) p in
  callers p' !! c = Some CDone /\ forall w, w ∈ m_threads p' -> w = WExit.
Proof.
  intros Hcs p Hc Hw n. assert (HI : Inv p) by (by apply async_run_inv, async_ctor_inv).
  pose proof (lookup_lt_Some _ _ _ Hc) as Hlt. pose proof (v_flag _ HI c CNotifyAll Hc I) as Hsd.
  set (p1 := step (ACaller c 0) p). assert (HI1 : Inv p1) by (by apply async_step_inv).
  assert (Hp1 : callers p1 !! c = Some (CJoin 0) /\ m_threads p1 = wake <$> m_threads p /\ m_shutdown p1 = true).
  { unfold p1. cbn [step]. rewrite Hc. cbn [caller_step]. split_and!; [by apply list_lookup_insert_eq|done|done]. }
  destruct Hp1 as (Hc1 & Ht1 & Hsd1).
  assert (Hn1 : length (m_threads p1) = n) by (by rewrite Ht1, length_fmap).
  assert (Hs1 : settled p1).
  { split; [done|]. rewrite Ht1. intros w (w0 & -> & Hw0)%list_elem_of_fmap. destruct (Hw w0 Hw0) as (? & ? & ?). by destruct w0. }
  assert (Hd : left_to_do p1 <= Z.of_nat (7 * n)).
  { unfold left_to_do. etrans; [apply (total_le _ (fun _ => 7)); by intros []|]. rewrite total_const, Hn1. lia. }
  destruct (rounds_finish (7 * n) p1 HI1 Hs1 Hd) as (_ & _ & H0 & Hc2 & Hl2). rewrite Hn1 in *.
  cbv zeta. change (run (ACaller c 0 :: ?l) p) with (run l p1). rewrite async_run_app.
  set (p2 := run (concat _) p1) in *.
  assert (Hall : forall w, w ∈ m_threads p2 -> w = WExit).
  { intros w Hin. pose proof (total_elem distance (m_threads p2) w ltac:(by intros [])  Hin) as Hle. unfold left_to_do in H0.
    destruct w; simpl in Hle; try done; lia. }
  destruct (joins_finish c n p2 0) as [Hdone Hth]; [by rewrite Hc2|done|by rewrite Hl2|].
  split; [exact Hdone|]. intros w Hin. apply Hall. by rewrite <-Hth.
Qed.

(** Two workers, a submitter and [shutdown]: one worker sleeps, one runs a task. *)
Definition demo_callers : list Caller := [CSubmit 5; CShutdown; CShutdown].

Definition demo_acts : list Act :=
  [AWorker 0; AWorker 0; AWorker 1; AWorker 0; AWorker 1; AWorker 0; AWorker 1; ACaller 0 0; AWorker 1; AWorker 1; AWorker 1; AWorker 1;
   ACaller 0 0; AWorker 1; ACaller 1 0].

Lemma tasks_run_once_witness :
  let p := run demo_acts (ctor 2 demo_callers) in
  (m_threads p = [WWake; WAdd] /\ submitted p = [5%nat] /\ run_tasks p = [5%nat] /\ idle_thread_num p = 1) /\
  taken p ++ m_queue p = submitted p /\ run_tasks p ++ omap held (m_threads p) ≡ₚ taken p /\
  get_idle_thread_num p = Z.of_nat (length (m_threads p)) - total busy (m_threads p) /\
  forall i w, m_threads p !! i = Some w -> has_mutex w -> m_mutex p = Some i.
Proof.
  split; [vm_compute; done|]. apply (tasks_run_once 2 demo_callers demo_acts). by repeat constructor.
Defined.

Lemma shutdown_returns_witness :
  let p := run demo_acts (ctor 2 demo_callers) in
  let p' := run (ACaller 1 0 :: concat (replicate 14 (round 2)) ++ replicate 3 (ACaller 1 0)) p in
  callers p' !! 1%nat = Some CDone /\ forall w, w ∈ m_threads p' -> w = WExit.
Proof.
  apply (shutdown_returns 2 demo_callers demo_acts 1); [by repeat constructor|vm_compute; reflexivity|].
  intros w Hw. vm_compute in Hw. repeat (apply elem_of_cons in Hw as [->|Hw]; [done|]). by apply elem_of_nil in Hw.
Defined.

(** A worker between the test of [m_shutdown] and its sleep misses the notification: [shutdown] takes
    no mutex. The worker sleeps, and nothing but a spurious wake-up lets the join return. *)
Lemma shutdown_hangs :
  let p := run [AWorker 0; AWorker 0; AWorker 0; ACaller 0 0; ACaller 0 0; AWorker 0] (ctor 1 [CShutdown]) in
  m_threads p = [WSleep] /\ callers p = [CJoin 0] /\
  forall l, Forall (fun a => match a with ASpurious _ => False | _ => True end) l -> run l p = p.
Proof.
  split_and!; [vm_compute; reflexivity|vm_compute; reflexivity|]. intros l Hl.
  induction Hl as [|a l Ha Hl IH]; [done|]. cbn [run foldl].
  match goal with |- foldl _ (step a ?q) _ = _ => assert (step a q = q) as -> end; [|exact IH].
  destruct a as [[|i]|[|c] target|i]; [vm_compute; reflexivity..|done].
Qed.

(** Tasks that are queued when [shutdown] is called are dropped. *)
Lemma shutdown_drops_tasks :
  let p := run ([ACaller 0 0; ACaller 0 0; ACaller 1 0; ACaller 1 0] ++ round 2 ++ replicate 3 (ACaller 1 0)) (ctor 2 [CSubmit 5; CShutdown]) in
  callers p = [CDone; CDone] /\ m_queue p = [5%nat] /\ run_tasks p = [].
Proof. vm_compute. done. Qed.
