(* ===== verification/DetachedTimer.v ===== *)
(** The timer of small_test/timer.cc, which runs a function in a detached thread, and its manager.

    A worker's accesses to the timer are steps; the timer is memory that is freed, so that a
    worker that outlives it has undefined behaviour. The times at which the function is called are a
    function of how long the calls take and of how much longer than asked the sleeps last. *)
From S2P Require Import Prelude.
Open Scope wizard_scope.

(** * Times *)

Inductive TimerType := EXACT_TIMER | APPROXIMATE_TIMER.

(** One turn of the loop that begins at [t]: when it ends, [d] being the time [_func] takes and
    [late] what the sleep takes too long. [sleep_until] a time that is over does not sleep. *)
Definition turn (ty : TimerType) (interval d late t : Z) : Z :=
  let wake_time := t + interval in
  match ty with
  | EXACT_TIMER => if t + d <? wake_time then wake_time + late else t + d
  | APPROXIMATE_TIMER => t + d + interval + late
  end.

(** When the calls begin. *)
Fixpoint call_times (ty : TimerType) (interval : Z) (turns : list (Z * Z)) (t : Z) : list Z :=
  match turns with
  | [] => []
  | (d, late) :: turns => t :: call_times ty interval turns (turn ty interval d late t)
  end.

(** * The timer and its threads *)

(** The thread of [exec]: before the test of [_running], in the body, asleep, returned. *)
Inductive Worker := WTest | WCall | WSleep | WExit.

(** [alive]: the object exists. [calls] is a history: the calls of [_func] begun by each
    worker. The thread object is never joinable outside [exec], which detaches it. *)
Record Timer := mkTimer { _running : bool; alive : bool; workers : list Worker; calls : list nat }.

Definition Timer_ctor : Timer := mkTimer false true [] [].

Definition exec (t : Timer) : option Timer :=
  if alive t then Some (mkTimer true true (workers t ++ [WTest]) (calls t ++ [0%nat])) else None.

(** The compare-exchange; [true] for the call that stops the timer, which then finds that the
    thread cannot be joined. *)
Definition stop (t : Timer) : option (bool * Timer) :=
  if alive t then Some (_running t, mkTimer false true (workers t) (calls t)) else None.

Definition Timer_dtor (t : Timer) : option Timer :=
  r <-? stop t; Some (mkTimer (_running (snd r)) false (workers (snd r)) (calls (snd r))).

Definition go (i : nat) (w : Worker) (t : Timer) : Timer :=
  mkTimer (_running t) (alive t) (<[i := w]> (workers t)) (calls t).

(** A step of thread [i]; [this] is read before the call for [_func], after it for [_timer_type] and
    [_interval], and for [_running]. *)
Definition worker_step (i : nat) (t : Timer) : option Timer :=
  match workers t !! i with
  | None | Some WExit => Some t
  | Some w =>
      if alive t then
        Some (match w with
              | WTest => go i (if _running t then WCall else WExit) t
              | WCall => mkTimer (_running t) true (<[i := WSleep]> (workers t)) (alter S i (calls t))
              | _ => go i WTest t
              end)
      else None
  end.

Inductive Act := AExec | AStop | ADestroy | AWorker (i : nat).

#[export] Instance act_eq_dec : EqDecision Act.
Proof. solve_decision. Defined.

Definition step (a : Act) (t : Timer) : option Timer :=
  match a with
  | AExec => exec t
  | AStop => r <-? stop t; Some (snd r)
  | ADestroy => Timer_dtor t
  | AWorker i => worker_step i t
  end.

Fixpoint run (l : list Act) (t : Timer) : option Timer :=
  match l with [] => Some t | a :: l => t <-? step a t; run l t end.

(** * The manager *)

(** [_timer_map] and the timers, with the number of [shared_ptr]s each has. *)
Record Manager := mkManager { _timer_map : gmap nat nat; timers : gmap nat (Timer * nat) }.

Definition Manager_ctor : Manager := mkManager ∅ ∅.

(** A [shared_ptr] to timer [p] goes away; the last one destroys it. *)
Definition drop_ref (p : nat) (m : Manager) : option Manager :=
  x <-? timers m !! p;
  match x with
  | (t, S (S n)) => Some (mkManager (_timer_map m) (<[p := (t, S n)]> (timers m)))
  | (t, _) => t <-? Timer_dtor t; Some (mkManager (_timer_map m) (<[p := (t, 0%nat)]> (timers m)))
  end.

Definition remove_timer (key : nat) (m : Manager) : option Manager :=
  match _timer_map m !! key with
  | Some p => drop_ref p (mkManager (delete key (_timer_map m)) (timers m))
  | None => Some m
  end.

(** The new timer is at [p]; the map has one [shared_ptr] to it, the caller the other. *)
Definition add_timer (key p : nat) (m : Manager) : option Manager :=
  m <-? remove_timer key m;
  Some (mkManager (<[key := p]> (_timer_map m)) (<[p := (Timer_ctor, 2%nat)]> (timers m))).
Close Scope wizard_scope.

(** * When the calls happen *)

Lemma turn_after ty interval d late t : 0 <= interval -> 0 <= d -> 0 <= late -> t + d <= turn ty interval d late t.
Proof. intros. unfold turn. destruct ty; [|lia]. wz_if; lia. Qed.

(** The exact timer does not drift with the time its function takes, as long as that is less than
    the interval; every late wake-up stays. *)
Lemma exact_call_times interval turns : forall t k,
  (forall d late, (d, late) ∈ turns -> 0 <= d < interval) -> (k < length turns)%nat ->
  call_times EXACT_TIMER interval turns t !! k =
    Some (t + Z.of_nat k * interval + total snd (take k turns)).
Proof.
  induction turns as [|[d late] turns IH]; intros t [|k] Hd Hk; cbn [call_times length] in *; try lia.
  - simpl. f_equal. lia.
  - pose proof (Hd d late ltac:(by left)). cbn [lookup list_lookup]. change (list_lookup k) with (lookup (M := list Z) k).
    rewrite IH; [|intros d' l' Hin; apply (Hd d' l'); by right|lia].
    unfold turn. destruct (Z.ltb_spec (t + d) (t + interval)); [|lia]. f_equal. cbn [take total foldr snd]. unfold total. lia.
Qed.

(** The approximate timer adds the time of every call. *)
Lemma approximate_call_times interval turns : forall t k, (k < length turns)%nat ->
  call_times APPROXIMATE_TIMER interval turns t !! k =
    Some (t + Z.of_nat k * interval + total (fun x => fst x + snd x) (take k turns)).
Proof.
  induction turns as [|[d late] turns IH]; intros t [|k] Hk; cbn [call_times length] in *; try lia.
  - simpl. f_equal. lia.
  - cbn [lookup list_lookup]. change (list_lookup k) with (lookup (M := list Z) k). rewrite IH by lia.
    unfold turn. f_equal. cbn [take total foldr fst snd]. unfold total. lia.
Qed.

(** * After a stop *)

(** Calls that worker [i] can still begin when the timer does not run. *)
Definition may_call (w : Worker) : nat := match w with WCall => 1 | _ => 0 end.

Definition stopped (l : list Act) : Prop := Forall (fun a => match a with AWorker _ | AStop => True | _ => False end) l.

(** How many steps a worker of a stopped timer makes. *)
Definition rest (w : Worker) : nat := match w with WExit => 0 | WTest => 1 | WSleep => 2 | WCall => 3 end.

(** While the timer exists and does not run, a step does not fail, and a worker only comes closer
    to its exit. *)
Lemma stopped_step a t i w c : alive t = true -> _running t = false ->
  match a with AWorker _ | AStop => True | _ => False end ->
  workers t !! i = Some w -> calls t !! i = Some c ->
  exists t' w' c', step a t = Some t' /\ alive t' = true /\ _running t' = false /\
    workers t' !! i = Some w' /\ calls t' !! i = Some c' /\ (c' + may_call w' = c + may_call w)%nat /\
    rest w' = if decide (a = AWorker i) then pred (rest w) else rest w.
Proof.
  intros Ha Hr Hact Hw Hc. destruct a as [| | |j]; try done; cbn [step].
  - unfold stop. rewrite Ha. eexists _, w, c. split; [done|]. simpl. done.
  - unfold worker_step. destruct (decide (AWorker j = AWorker i)) as [[= ->]|Hne].
    + rewrite Hw. pose proof (lookup_lt_Some _ _ _ Hw) as Hlt. destruct w; rewrite ?Ha, ?Hr.
      * eexists _, WExit, c. split; [done|]. simpl. by rewrite list_lookup_insert_eq.
      * eexists _, WSleep, (S c). split; [done|]. simpl. rewrite list_lookup_insert_eq by done.
        rewrite list_lookup_alter, Hc. rewrite decide_True by done. split_and!; try done.
      * eexists _, WTest, c. split; [done|]. simpl. by rewrite list_lookup_insert_eq.
      * by eexists t, WExit, c.
    + assert (Hij : j <> i) by congruence. destruct (workers t !! j) as [x|]; [|by eexists t, w, c].
      destruct x; rewrite ?Ha; (eexists _, w, c; split; [done|]); simpl; rewrite ?list_lookup_insert_ne, ?list_lookup_alter_ne by done; done.
Qed.

(** [stop] wins once. Afterwards, while the timer exists and nobody starts it again, every
    thread begins at most one more call, and it returns within three steps of its own. *)
Theorem stop_ends_calls t r t1 l i w c :
  alive t = true -> stop t = Some (r, t1) -> workers t !! i = Some w -> calls t !! i = Some c -> stopped l ->
  r = _running t /\ fst <$> stop t1 = Some false /\
  exists t2 w2 c2, run l t1 = Some t2 /\ workers t2 !! i = Some w2 /\ calls t2 !! i = Some c2 /\ (c2 <= S c)%nat /\
    ((3 <= length (filter (fun a => a = AWorker i) l))%nat -> w2 = WExit).
Proof.
  intros Ha Hs Hw Hc Hl. unfold stop in *. rewrite Ha in Hs. injection Hs as <- <-. split_and!; [done|done|].
  set (t1 := mkTimer false true (workers t) (calls t)).
  assert (Hgen : forall l t1 w c, stopped l -> alive t1 = true -> _running t1 = false -> workers t1 !! i = Some w -> calls t1 !! i = Some c ->
    exists t2 w2 c2, run l t1 = Some t2 /\ workers t2 !! i = Some w2 /\ calls t2 !! i = Some c2 /\
      (c2 + may_call w2 = c + may_call w)%nat /\ (rest w2 = rest w - length (filter (fun a => a = AWorker i) l))%nat).
  { clear. induction l as [|a l IH]; intros t1 w c Hl Ha Hr Hw Hc.
    - exists t1, w, c. split_and!; try done. simpl. lia.
    - apply Forall_cons in Hl as [Hact Hl]. destruct (stopped_step a t1 i w c) as (t' & w' & c' & Hst & ? & ? & ? & ? & Hm & Hrest); try done.
      cbn [run]. rewrite Hst. destruct (IH t' w' c') as (t2 & w2 & c2 & ? & ? & ? & Hm2 & Hr2); try done.
      exists t2, w2, c2. split_and!; try done; [lia|]. rewrite Hr2, Hrest, filter_cons. destruct (decide (a = AWorker i)); simpl; lia. }
  destruct (Hgen l t1 w c) as (t2 & w2 & c2 & ? & ? & ? & Hm & Hr); try done.
  exists t2, w2, c2. split_and!; try done.
  - destruct w, w2; simpl in Hm; lia.
  - intros Hlen. destruct w, w2; simpl in Hr; try done; lia.
Qed.

(** Two threads, one of them in the body, and two calls of [stop]. *)
Lemma stop_ends_calls_witness :
  exists t, run [AExec; AExec; AWorker 0; AWorker 1; AWorker 1] Timer_ctor = Some t /\
  exists t2 w2 c2, run [AWorker 0; AStop; AWorker 0; AWorker 1; AWorker 0; AWorker 0] (mkTimer false true (workers t) (calls t)) = Some t2 /\
    workers t2 !! 0%nat = Some w2 /\ calls t2 !! 0%nat = Some c2 /\ (c2 <= 1)%nat /\ ((3 <= 4)%nat -> w2 = WExit).
Proof.
  eexists. split; [reflexivity|].
  destruct (stop_ends_calls (mkTimer true true [WCall; WSleep] [0%nat; 1%nat]) true (mkTimer false true [WCall; WSleep] [0%nat; 1%nat])
    [AWorker 0; AStop; AWorker 0; AWorker 1; AWorker 0; AWorker 0] 0 WCall 0) as (_ & _ & H); try reflexivity.
  - by repeat constructor.
  - exact H.
Defined.

(** [stop] does not wait for the thread, and neither does the destructor: a thread that has not
    returned reads a timer that is gone. *)
Lemma destroyed_timer_is_read t t' i w : Timer_dtor t = Some t' -> workers t !! i = Some w -> w <> WExit -> worker_step i t' = None.
Proof.
  unfold Timer_dtor, stop. destruct (alive t); [|done]. intros [= <-] Hw Hne. unfold worker_step. simpl. rewrite Hw. by destruct w.
Qed.

(** * The manager *)

Section manager.
Implicit Types (m : Manager).

(** How many [shared_ptr]s to [p] the map has. *)
Definition in_map m (p : nat) : nat := size (filter (fun x : nat * nat => x.2 = p) (_timer_map m)).

(** A timer exists while a [shared_ptr] to it does, and the map's are counted. *)
Definition counted m : Prop := forall p t n, timers m !! p = Some (t, n) -> (in_map m p <= n)%nat /\ alive t = bool_decide (n <> 0%nat).

Definition points m : Prop := forall key p, _timer_map m !! key = Some p -> is_Some (timers m !! p).

Lemma in_map_delete m key p q : _timer_map m !! key = Some p ->
  in_map m q = (in_map (mkManager (delete key (_timer_map m)) (timers m)) q + if decide (p = q) then 1 else 0)%nat.
Proof.
  intros Hk. unfold in_map. simpl. rewrite <-(insert_delete_id (_timer_map m) key p) at 1 by done.
  destruct (decide (p = q)) as [->|Hne].
  - rewrite map_filter_insert_True by done. rewrite map_size_insert_None; [lia|]. apply map_lookup_filter_None_2. left. apply lookup_delete_eq.
  - rewrite map_filter_insert_False by done. rewrite delete_delete_eq. lia.
Qed.

(** Taking a timer off the map does not fail, and destroys it if the map had the last
    [shared_ptr]. *)
Lemma remove_timer_ok key m : counted m -> points m ->
  exists m', remove_timer key m = Some m' /\ _timer_map m' = delete key (_timer_map m) /\ counted m' /\ points m' /\
    forall q, timers m !! q = None -> timers m' !! q = None.
Proof.
  intros Hc Hp. unfold remove_timer. destruct (_timer_map m !! key) as [p|] eqn:Hk.
  2: { exists m. split_and!; try done. by rewrite delete_id. }
  destruct (Hp key p Hk) as [[t n] Ht]. destruct (Hc p t n Ht) as [Hn Ha].
  assert (Hin : forall q, in_map m q = (in_map (mkManager (delete key (_timer_map m)) (timers m)) q + if decide (p = q) then 1 else 0)%nat)
    by (intros q; by apply in_map_delete).
  pose proof (Hin p) as Hinp. rewrite decide_True in Hinp by done.
  assert (Hres : forall t' n', (n' = pred n)%nat -> alive t' = bool_decide (n' <> 0%nat) ->
    let m' := mkManager (delete key (_timer_map m)) (<[p := (t', n')]> (timers m)) in
    _timer_map m' = delete key (_timer_map m) /\ counted m' /\ points m' /\ forall q, timers m !! q = None -> timers m' !! q = None).
  { intros t' n' -> Ha' m'. split_and!; [done| | |].
    - intros q tq nq Hq. simpl in Hq. change (in_map m' q) with (in_map (mkManager (delete key (_timer_map m)) (timers m)) q).
      specialize (Hin q). apply lookup_insert_Some in Hq as [[<- [= <- <-]]|[Hne Hq]].
      + split; [|done]. rewrite decide_True in Hin by done. lia.
      + rewrite decide_False in Hin by done. destruct (Hc q tq nq Hq) as [? ?]. split; [lia|done].
    - intros k q Hq. simpl in *. apply lookup_delete_Some in Hq as [_ Hq]. destruct (decide (p = q)) as [->|Hne].
      + rewrite lookup_insert_eq. by eexists.
      + rewrite lookup_insert_ne by done. by eapply Hp.
    - intros q Hq. simpl. rewrite lookup_insert_ne; [done|]. intros ->. congruence. }
  unfold drop_ref. simpl. rewrite Ht. destruct n as [|[|n]]; [lia| |].
  - unfold Timer_dtor, stop. rewrite Ha. simpl. eexists. split; [done|]. by apply Hres.
  - eexists. split; [done|]. by apply Hres.
Qed.

(** [add_timer] puts the new timer under its key, and leaves the other keys alone. *)
Lemma add_timer_ok key p m : counted m -> points m -> timers m !! p = None ->
  exists m', add_timer key p m = Some m' /\ _timer_map m' = <[key := p]> (_timer_map m) /\ counted m' /\ points m' /\
    timers m' !! p = Some (Timer_ctor, 2%nat).
Proof.
  intros Hc Hp Hnew. destruct (remove_timer_ok key m Hc Hp) as (m1 & Hm1 & Hmap & Hc1 & Hp1 & Hfr).
  unfold add_timer. rewrite Hm1. eexists. split; [done|]. simpl.
  assert (Hk : _timer_map m1 !! key = None) by (rewrite Hmap; apply lookup_delete_eq).
  assert (Hno : in_map m1 p = 0%nat).
  { unfold in_map. apply map_size_empty_iff, map_empty. intros k. apply map_lookup_filter_None_2. right. intros q Hq. simpl. intros ->.
    destruct (Hp1 k p Hq) as [x Hx]. rewrite Hfr in Hx by done. done. }
  split_and!; [by rewrite Hmap, insert_delete_eq| | |by rewrite lookup_insert_eq].
  - intros q t n Hq. simpl in Hq. unfold in_map. simpl. apply lookup_insert_Some in Hq as [[<- [= <- <-]]|[Hne Hq]].
    + rewrite map_filter_insert_True by done. rewrite map_size_insert_None by (apply map_lookup_filter_None_2; by left).
      fold (in_map m1 p). rewrite Hno. split; [lia|done].
    + rewrite map_filter_insert_False by done. rewrite delete_id by done. by apply Hc1.
  - intros k q Hq. simpl in *. apply lookup_insert_Some in Hq as [[_ <-]|[_ Hq]]; [rewrite lookup_insert_eq; by eexists|].
    destruct (decide (p = q)) as [->|Hne]; [rewrite lookup_insert_eq; by eexists|]. rewrite lookup_insert_ne by done. by eapply Hp1.
Qed.
End manager.

Open Scope wizard_scope.

(** [add_timer(key, ...)->exec(...)]: the caller's [shared_ptr] ends with the statement. *)
Definition add_and_exec (key p : nat) (m : Manager) : option Manager :=
  m <-? add_timer key p m;
  x <-? timers m !! p;
  t <-? exec (fst x);
  drop_ref p (mkManager (_timer_map m) (<[p := (t, snd x)]> (timers m))).

Definition two_timers : option Manager := m <-? add_and_exec 7 1 Manager_ctor; add_and_exec 7 2 m.
Close Scope wizard_scope.

(** A second timer with the same key destroys the first one under its thread. *)
Lemma replaced_timer_is_read :
  exists m t, two_timers = Some m /\ timers m !! 1%nat = Some (t, 0%nat) /\ workers t = [WTest] /\ run [AWorker 0] t = None.
Proof. eexists _, _. split; [vm_compute; reflexivity|]. split_and!; vm_compute; reflexivity. Qed.
