(* ===== verification/LockedMap.v ===== *)
(** The map of small_test/map_mutex.cc: a hash table under one mutex.

    Every member holds the mutex from beginning to end and is one step. What matters is what it
    returns: copies, or pointers to elements that others can erase as soon as the mutex is
    released. The elements of [std::unordered_map] are nodes at addresses that do not change while
    they exist; a step that may need a node is given the address. The order of iteration,
    which the iterators of [mut_erase] and [get_raw_map] depend on, is not modelled. *)
From S2P Require Import Prelude.
Open Scope wizard_scope.

Section map.
Context {K V : Type} `{Countable K} (dflt : V).

Record HashMapWithMutex := mkMap { _map : gmap K nat; elements : gmap nat (K * V) }.

Definition empty_map : HashMapWithMutex := mkMap ∅ ∅.

(** [&itr->second], or null. *)
Definition mut_find (key : K) (m : HashMapWithMutex) : option nat := _map m !! key.

(** The overload that copies. *)
Definition mut_find_copy (key : K) (val : V) (m : HashMapWithMutex) : bool * V :=
  match _map m !! key with
  | None => (false, val)
  | Some itr => match elements m !! itr with Some e => (true, snd e) | None => (true, val) end
  end.

Definition mut_erase (key : K) (m : HashMapWithMutex) : Z * HashMapWithMutex :=
  match _map m !! key with
  | None => (0, m)
  | Some itr => (1, mkMap (delete key (_map m)) (delete itr (elements m)))
  end.

(** [erase(pos)]: undefined when [pos] is not an element. *)
Definition mut_erase_pos (pos : nat) (m : HashMapWithMutex) : option HashMapWithMutex :=
  e <-? elements m !! pos; Some (mkMap (delete (fst e) (_map m)) (delete pos (elements m))).

Definition mut_size (m : HashMapWithMutex) : Z := Z.of_nat (size (_map m)).

(** [emplace]: an element that is there stays. *)
Definition mut_emplace (node : nat) (key : K) (val : V) (m : HashMapWithMutex) : (nat * bool) * HashMapWithMutex :=
  match _map m !! key with
  | Some itr => ((itr, false), m)
  | None => ((node, true), mkMap (<[key := node]> (_map m)) (<[node := (key, val)]> (elements m)))
  end.

(** [operator[]]: a reference to the element, which is made if there is none. *)
Definition subscript (node : nat) (key : K) (m : HashMapWithMutex) : nat * HashMapWithMutex :=
  let (r, m) := mut_emplace node key dflt m in (fst r, m).

(** What a caller does with a pointer or reference, without the mutex. *)
Definition load (p : nat) (m : HashMapWithMutex) : option V := snd <$> elements m !! p.

Definition assign (p : nat) (val : V) (m : HashMapWithMutex) : option HashMapWithMutex :=
  e <-? elements m !! p; Some (mkMap (_map m) (<[p := (fst e, val)]> (elements m))).

Inductive Op :=
  | OFind (key : K) | OFindCopy (key : K) (val : V) | OErase (key : K) | OErasePos (pos : nat) | OSize
  | OEmplace (node : nat) (key : K) (val : V) | OSubscript (node : nat) (key : K) | OLoad (p : nat) | OAssign (p : nat) (val : V).

(** Nodes are allocated where there is none. *)
Definition fresh_node (o : Op) (m : HashMapWithMutex) : Prop :=
  match o with OEmplace node _ _ | OSubscript node _ => elements m !! node = None | _ => True end.

Definition exec (o : Op) (m : HashMapWithMutex) : option HashMapWithMutex :=
  match o with
  | OFind _ | OFindCopy _ _ | OSize => Some m
  | OErase key => Some (snd (mut_erase key m))
  | OErasePos pos => mut_erase_pos pos m
  | OEmplace node key val => Some (snd (mut_emplace node key val m))
  | OSubscript node key => Some (snd (subscript node key m))
  | OLoad p => _ <-? load p m; Some m
  | OAssign p val => assign p val m
  end.
Close Scope wizard_scope.

(** * The invariant *)

Record wf (m : HashMapWithMutex) : Prop := {
  wf_map : forall key itr, _map m !! key = Some itr -> exists v, elements m !! itr = Some (key, v);
  wf_elem : forall itr key v, elements m !! itr = Some (key, v) -> _map m !! key = Some itr
}.

(** The finite map the table stands for. *)
Definition contents (m : HashMapWithMutex) : gmap K V := omap (fun itr => snd <$> elements m !! itr) (_map m).

Lemma contents_lookup m key : contents m !! key = itr ← _map m !! key; snd <$> elements m !! itr.
Proof. unfold contents. by rewrite lookup_omap. Qed.

Lemma emplace_wf m node key val : wf m -> elements m !! node = None -> wf (snd (mut_emplace node key val m)).
Proof.
  intros [H1 H2] Hn. unfold mut_emplace. destruct (_map m !! key) as [itr|] eqn:Hk; [done|]. constructor; simpl.
  - intros k i [[<- <-]|[Hne Hi]]%lookup_insert_Some; [rewrite lookup_insert_eq; by eexists|].
    destruct (H1 k i Hi) as [v Hv]. exists v. rewrite lookup_insert_ne; [done|]. intros ->. congruence.
  - intros i k v [[<- [= <- <-]]|[Hne Hi]]%lookup_insert_Some; [by rewrite lookup_insert_eq|].
    rewrite lookup_insert_ne; [by eapply H2|]. intros ->. rewrite (H2 i k v Hi) in Hk. done.
Qed.

Lemma delete_wf m key itr v : wf m -> elements m !! itr = Some (key, v) ->
  wf (mkMap (delete key (_map m)) (delete itr (elements m))).
Proof.
  intros [H1 H2] Hi. constructor; simpl.
  - intros k i [Hne Hk]%lookup_delete_Some. destruct (H1 k i Hk) as [w Hw]. exists w.
    rewrite lookup_delete_ne; [done|]. intros ->. rewrite Hi in Hw. congruence.
  - intros i k w [Hne Hw]%lookup_delete_Some. rewrite lookup_delete_ne; [by eapply H2|]. intros ->.
    apply Hne. pose proof (H2 _ _ _ Hi). pose proof (H2 _ _ _ Hw). congruence.
Qed.

Lemma exec_wf o m m' : wf m -> fresh_node o m -> exec o m = Some m' -> wf m'.
Proof.
  intros Hwf Hf. destruct o; cbn [exec fresh_node] in *; try (by intros [= <-]).
  - unfold mut_erase. destruct (_map m !! key) as [itr|] eqn:Hk; intros [= <-]; [|done].
    destruct (wf_map _ Hwf key itr Hk) as [v Hv]. by eapply delete_wf.
  - unfold mut_erase_pos. destruct (elements m !! pos) as [[k v]|] eqn:He; [|done]. intros [= <-]. by eapply delete_wf.
  - intros [= <-]. by apply emplace_wf.
  - intros [= <-]. unfold subscript. pose proof (emplace_wf m node key dflt Hwf Hf). by destruct (mut_emplace node key dflt m).
  - destruct (load p m); [|done]. by intros [= <-].
  - unfold assign. destruct (elements m !! p) as [[k v]|] eqn:He; [|done]. intros [= <-]. destruct Hwf as [H1 H2].
    constructor; simpl.
    + intros k' i Hk. destruct (H1 k' i Hk) as [w Hw]. destruct (decide (p = i)) as [->|Hne].
      * rewrite lookup_insert_eq. rewrite He in Hw. injection Hw as -> ->. by eexists.
      * rewrite lookup_insert_ne by done. by eexists.
    + intros i k' w [[<- [= <- <-]]|[Hne Hi]]%lookup_insert_Some; [by eapply H2|by eapply H2].
Qed.

(** * What the members do *)

(** The copying [mut_find] answers what the map holds; the pointer leads there as long as the
    element is not erased. *)
Lemma locked_find_spec m key val : wf m ->
  mut_find_copy key val m = match contents m !! key with Some v => (true, v) | None => (false, val) end /\
  contents m !! key = p ← mut_find key m; load p m.
Proof.
  intros Hwf. rewrite contents_lookup. split; [|done]. unfold mut_find_copy. destruct (_map m !! key) as [itr|] eqn:Hk; [|done].
  destruct (wf_map _ Hwf key itr Hk) as [v Hv]. simpl. by rewrite Hv.
Qed.

Lemma locked_erase_spec m key : wf m ->
  contents (snd (mut_erase key m)) = delete key (contents m) /\
  fst (mut_erase key m) = match contents m !! key with Some _ => 1 | None => 0 end.
Proof.
  intros Hwf. rewrite contents_lookup. unfold mut_erase. destruct (_map m !! key) as [itr|] eqn:Hk; simpl.
  - destruct (wf_map _ Hwf key itr Hk) as [v Hv]. rewrite Hv. split; [|done]. apply map_eq. intros k.
    rewrite contents_lookup. simpl. destruct (decide (key = k)) as [<-|Hne]; [by rewrite !lookup_delete_eq|].
    rewrite !lookup_delete_ne, contents_lookup by done. destruct (_map m !! k) as [i|] eqn:Hi; [|done]. simpl.
    rewrite lookup_delete_ne; [done|]. intros ->. destruct (wf_map _ Hwf k i Hi). congruence.
  - split; [|done]. rewrite delete_id; [done|]. rewrite contents_lookup. by rewrite Hk.
Qed.

Lemma locked_emplace_spec m node key val : wf m -> elements m !! node = None ->
  contents (snd (mut_emplace node key val m)) = match contents m !! key with Some _ => contents m | None => <[key := val]> (contents m) end /\
  snd (fst (mut_emplace node key val m)) = bool_decide (contents m !! key = None) /\
  load (fst (fst (mut_emplace node key val m))) (snd (mut_emplace node key val m)) = Some (default val (contents m !! key)).
Proof.
  intros Hwf Hn. rewrite contents_lookup. unfold mut_emplace, load. destruct (_map m !! key) as [itr|] eqn:Hk; simpl.
  - destruct (wf_map _ Hwf key itr Hk) as [v Hv]. by rewrite Hv.
  - rewrite lookup_insert_eq. split_and!; [|done|done]. apply map_eq. intros k. rewrite contents_lookup. simpl.
    destruct (decide (key = k)) as [<-|Hne]; [rewrite !lookup_insert_eq; simpl; by rewrite lookup_insert_eq|].
    rewrite !lookup_insert_ne, contents_lookup by done. destruct (_map m !! k) as [i|] eqn:Hi; [|done]. simpl.
    rewrite lookup_insert_ne; [done|]. intros ->. destruct (wf_map _ Hwf k i Hi). congruence.
Qed.

(** An element stays where it is until it is erased. *)
Lemma pointer_valid o m m' p key v : wf m -> fresh_node o m -> exec o m = Some m' -> elements m !! p = Some (key, v) ->
  o <> OErase key -> o <> OErasePos p -> exists v', elements m' !! p = Some (key, v').
Proof.
  intros Hwf Hf He Hp Hne1 Hne2.
  assert (Hemp : forall node k w, elements m !! node = None -> exists v', elements (snd (mut_emplace node k w m)) !! p = Some (key, v')).
  { intros node k w Hn. unfold mut_emplace. destruct (_map m !! k); simpl; [by eexists|].
    rewrite lookup_insert_ne; [by eexists|]. intros ->. congruence. }
  destruct o; cbn [exec fresh_node] in *; try (injection He as <-; by eexists).
  - injection He as <-. unfold mut_erase. destruct (_map m !! key0) as [itr|] eqn:Hk; simpl; [|by eexists].
    rewrite lookup_delete_ne; [by eexists|]. intros ->. destruct (wf_map _ Hwf _ _ Hk). congruence.
  - unfold mut_erase_pos in He. destruct (elements m !! pos) as [[k w]|]; [|done]. injection He as <-. simpl.
    rewrite lookup_delete_ne; [by eexists|congruence].
  - injection He as <-. by apply Hemp.
  - injection He as <-. unfold subscript. specialize (Hemp node key0 dflt Hf). by destruct (mut_emplace node key0 dflt m).
  - destruct (load p0 m); [|done]. injection He as <-. by eexists.
  - unfold assign in He. destruct (elements m !! p0) as [[k w]|] eqn:E; [|done]. injection He as <-. simpl.
    destruct (decide (p0 = p)) as [->|Hne]; [|rewrite lookup_insert_ne by done; by eexists].
    rewrite lookup_insert_eq. rewrite Hp in E. injection E as <- <-. by eexists.
Qed.
End map.

(** The readers of [main] copy through the pointer after the mutex is released; a writer that
    erases the key in between leaves them a dangling pointer. *)
Lemma found_element_is_erased :
  let m := snd (mut_emplace 5 1 10 (empty_map (K := Z) (V := Z))) in
  mut_find 1 m = Some 5%nat /\ load 5 m = Some 10 /\ load 5 (snd (mut_erase 1 m)) = None.
Proof. vm_compute. done. Qed.
